(* ===== verification/_CoqProject ===== *)
-Q . S2P
Prelude.v
GoStrings.v
GoPath.v
Api.v
OsFs.v
TarUnpack.v
FileInfo.v
TarCache.v
DiskTree.v
ContextWalk.v
TarReceive.v
Stream.v
Exchange.v
Calls.v
PrefetchCache.v
Prefetch.v
FsWalk.v
DiffCopy.v
SyncWalk.v
FsFile.v
BuildUtils.v
Stdio.v
BuildOpts.v
BuildOutput.v
Frontend.v
BuildRun.v
Content.v
Services.v
Stages.v
Proxies.v
Daemon.v
Supervisor.v
