(* ===== verification/Prelude.v ===== *)
(** * Verification of container-builder-shim

    The shim is the Go program that runs beside buildkitd in a builder virtual machine.
    A host opens one bidirectional gRPC stream per build; over it the shim asks the host
    for the build context, for image metadata and for blobs, and sends progress and the
    exported archive back.  The parts, and the files that model them:

    - [pkg/api] ([Api.v]): the messages of the stream, [BuildTransfer], [ImageTransfer],
      [ClientStream], [ServerStream], and the getters the code uses.
    - [pkg/stream] ([Stream.v]): [StreamPipeline] splits the stream over its stages by a
      filter each, a stage splits its packets over the [Demultiplexer]s its requests
      registered.  State: [pipeline], [stage], [demux]; the goroutines are the step
      functions [step_recv], [step_stage], [step_accept], [step_send] and the like, and
      [step] is their union.  [Exchange.v] shows what a request can count on,
      and [Calls.v] runs any number of calls of [Request] at once against a host.
    - [pkg/fileutils/tarxfer.go]: the context arrives as a tar archive, is stored under its
      digest and walked.  [TarUnpack.v] is [unpackTar] with every entry type and check,
      [TarCache.v] the digest check, the completion marker, staging, hash and
      [publishTar], [ContextWalk.v] is [walkCachedContext] over [filepath.Walk], and
      [TarReceive.v] composes the three: [Receive] and the goroutine [startTar] over the
      channels [errCh], [headerCh] and [dataCh].  [DiskTree.v] shows that all of these
      operations keep the disk a tree, which the walk relies on.
    - [pkg/fileutils/file_info.go] ([FileInfo.v]): the metadata of a file as the host
      sends it and as BuildKit reads it.
    - [pkg/fssync]: what BuildKit sees as the local sources of a build.  [FsWalk.v] holds
      the metadata of a walk, the synthetic Dockerfile entries and their merge into the
      walk; [DiffCopy.v] the sender, the error group of its walk goroutine, its receive loop
      and its pool of workers, with the context that the first failure ends; [SyncWalk.v] is [FS.Walk], the composition of [Receive] with the merge;
      [FsFile.v] files that are read over the wire.
    - [pkg/prefetch]: [PrefetchCache.v] the chunk cache with its interval tree and its
      eviction, [Prefetch.v] [ReadAt] over it, read-ahead, and the life cycle of [Close].
    - [pkg/content], [pkg/resolver] ([Content.v]): the content store and the resolver as
      proxies of the host; [store_ReaderAt] composes the wire reader with the prefetcher.
    - [pkg/build]: [BuildOpts.v] validates the metadata of a request into [BOpts] and passes
      it through a context, [BuildOutput.v] holds exports, solve options and the buffered
      archive, [Frontend.v] the gateway frontend (image states per stage, one goroutine per
      platform, the client it hands to BuildKit), [BuildRun.v] composes them: [frontend] and
      its result, and [Build] over the connection to buildkitd.  [BuildUtils.v] is
      [pkg/build/utils]: the table of capabilities and the getter over a map.
    - [pkg/stdio] ([Stdio.v]): the progress stream and the terminal commands.
    - [pkg/exporter], [pkg/server] ([Services.v]): the exporter behind its buffer, the smaller
      methods of the Builder service and the choice of its listener.  [Stages.v] has the
      filters of the stages and [PerformBuild], the call in which everything above meets;
      [Proxies.v] runs the [request] methods of the proxies over the pipeline of such a call.
    - [pkg/buildkit], [main.go]: [Daemon.v] is the start, from the flags to the configuration,
      environment and process of buildkitd and the preparation of the disk; [Supervisor.v] is
      what runs afterwards, the goroutines of [RunE], [buildkit.Start], [server.Run] and the
      signal handler as a step system.

    [Prelude.v] (this file) has results, errors, machine integers and the tactics;
    [GoStrings.v], [GoPath.v] and [OsFs.v] are the parts of the Go library and of the
    operating system the code depends on: strings, lexical paths, and a POSIX tree with
    symbolic and hard links in which every path the code hands over is resolved, with a
    trace of the disks an operation goes through.

    ** Conventions

    A Go function that returns [(T, error)] is a [result]; one that mutates takes and
    returns its state.  Integers are [Z], wrapped to their width where the code can
    overflow them.  A goroutine is a program counter in a state record, a channel a list
    with its capacity checked on sends, a [select] any of its ready cases; the theorems
    quantify over all schedules.  A function that ranges over a Go map takes the order as
    an argument.  A Go function that can panic has an [option] result, [None] being the panic.  Code outside the repository is an argument, a section variable or a
    class: the tar reader (a function from bytes to headers and bodies), SHA-256, the file
    lock ([FileLock]), random names, [time.Parse], the parsers of BuildKit and of
    Dockerfiles ([BuildLibs], [ImageLibs], [SolveLibs], [ConvertLibs],
    [BuildkitLibs]), the host (a function from
    requests to replies, a list of packets, or the class [Host] whose law is [HostEchoes])
    and the callbacks.

    ** What the theorems show

    - Contexts: unpacking is confined to its destination whatever the archive holds
      ([unpackTar_confined]) and complete when it succeeds ([unpackTar_complete]); a cache
      entry appears atomically, at every possible crash point ([publishTar_atomic]); a
      successful transfer under every interleaving and cancellation has brought the bytes
      of the announced digest ([Receive_sound]), and a transfer always ends unless the
      client is silent or breaks the protocol ([Receive_progress]); the walk visits every
      entry once and in order, except what its callback skips ([walkCachedContext_spec]);
      names of the archive and digests are characterised exactly ([tarTarget_spec],
      [validateContextDigest_iff], [CachedContextPresent_iff]).
    - Stream: exact routing and order ([pipeline_routing]); a request under a fresh id gets,
      while nothing ends it, every reply to it, in order and nothing else
      ([replies_complete]); concurrent calls are applications of the host's
      function, and all of them return ([calls_answered]), which is what the content store,
      the resolver and the file synchronisation are written against ([proxies_refine]); the
      one state the pipeline cannot leave ([receiver_wedged_forever]).
    - Reads: the prefetcher returns the content of the file under any interference
      ([ReadAt_correct]) within its memory bound ([cache_bounded]), is quiet once the first [Close] has
      returned ([Close_quiesces]); composed with the wire it reads the blob of the host
      ([store_ReaderAt_correct]).
    - Synchronisation with BuildKit: stats in walk order and data under an id only of the
      file announced there, as it was when it was opened ([DiffCopy_sound]), everything
      announced and answered when the sender rests without an error, and the places where it
      can rest ([DiffCopy_complete]; [DiffCopy_hangs] reaches the bad one), and what the bytes
      are ([sendFile_content], [File_reads_content]).  [FS_Walk_sound] is the composition:
      what [FS.Walk] announces is the verified context merged with the Dockerfile entries,
      less what the exclude filter skips, in path order, and everything announced can be sent ([synthetic_merge_out_of_order] shows the names for
      which the order fails).
    - Builds: what an accepted request satisfies ([NewBuildOpts_wf]) with exact
      characterisations of the error cases, what is exported and where
      ([configuredExports_spec], [archive_close], [export_stream]), and that the frontend
      ends with the result of every platform or an error ([frontend_sound]), which is the
      solution of each platform under its own name ([frontend_result]); which images a
      Dockerfile needs and what becomes of them ([resolveStates_spec]).  The stages of a
      call do not overlap ([stages_disjoint]), and [PerformBuild_sound] composes request,
      stages, pipeline and build.  Progress is requested as it was written
      ([stdio_print_exact]).
    - The process: the mirrors buildkitd is configured with ([run_config_mirrors]), and when
      and with which code the shim exits and what has become of buildkitd then
      ([supervisor_exit]).

    ** Fuel and bounds

    Loops that Go writes without a structural measure take fuel; each use is shown to be
    enough.  The walk of a directory tree has one more than the longest name of the disk
    ([subtree_complete], [walk_visits]); [pieces] has the number of bytes
    ([pieces_spec]); [read_all], a client that reads to the end, one more than the bytes
    that are left ([read_all_loop]); [trim_left_fuel] the length of the string;
    [bw_loop] three rounds, since a round empties the buffer or the input.  Symbolic
    links are followed 40 times at most, as on Linux.  The synchronisation theorems
    assume fewer than [2^32] entries, the width of an id.  Channel capacities, chunk
    counts and buffer sizes are the constants of the code.

    ** Not modelled

    What is left of the repository's Go code is generated or only calls libraries: the
    protobuf and gRPC code of [pkg/api] beyond the structs and the getters, the options of the
    gRPC server, logging and the log file, the parser of the command line, the pseudo terminal.
    The exclude filter of [fsutil], LLB conversion and BuildKit's solver are third-party and
    arguments of the model.  Devices, permissions and running out of space are outside the
    disk model, and time is: a timeout may strike at any moment. *)

From stdpp Require Export base tactics option list gmap sets strings pretty.
From Stdlib Require Export ZArith Lia.

Declare Scope go_scope.
Delimit Scope go_scope with go.

(** ** Results: the [(value, error)] pairs of Go, with the error first-class.

    A Go function that returns [(T, error)] and whose callers look at the value
    only when the error is nil is a [result error T]. *)

Inductive result (E A : Type) : Type :=
| Ok (a : A)
| Err (e : E).
Arguments Ok {_ _} _.
Arguments Err {_ _} _.

#[export] Instance result_ret {E} : MRet (result E) := fun A a => Ok a.
#[export] Instance result_bind {E} : MBind (result E) := fun A B k m =>
  match m with Ok a => k a | Err e => Err e end.
#[export] Instance result_fmap {E} : FMap (result E) := fun A B f m =>
  match m with Ok a => Ok (f a) | Err e => Err e end.

#[export] Instance result_eq_dec {E A} `{EqDecision E, EqDecision A} :
  EqDecision (result E A).
Proof. solve_decision. Defined.

Definition is_ok {E A} (r : result E A) : bool :=
  match r with Ok _ => true | Err _ => false end.

Section result.
Context {E A B : Type}.

Lemma result_bind_ok (m : result E A) (k : A → result E B) b :
  (m ≫= k) = Ok b ↔ ∃ a, m = Ok a ∧ k a = Ok b.
Proof. destruct m; simpl; naive_solver. Qed.

Lemma result_bind_err (m : result E A) (k : A → result E B) e :
  (m ≫= k) = Err e ↔ m = Err e ∨ ∃ a, m = Ok a ∧ k a = Err e.
Proof. destruct m; simpl; naive_solver. Qed.
End result.

(** ** Go errors

    Package level sentinels are named by their Go identifier; [Errorf] keeps the
    format string and its arguments; [Wrapf] is a [fmt.Errorf] with a [%w] verb,
    which [errors.Is] sees through.  Operating-system errors are the [errno] that
    a [*PathError] carries, the part [os.IsNotExist] and the callers look at. *)

Inductive errno := ENOENT | EEXIST | ENOTDIR | EISDIR | ELOOP | ENOTEMPTY | EINVAL | EBADMSG | EIO.

#[export] Instance errno_eq_dec : EqDecision errno.
Proof. solve_decision. Defined.

Inductive error : Type :=
| EOF
| Canceled
| DeadlineExceeded
| Errno (n : errno)
| Sentinel (name : string)
| Errorf (fmt : string) (args : list string)
| Wrapf (fmt : string) (args : list string) (inner : error).

#[export] Instance error_eq_dec : EqDecision error.
Proof. solve_decision. Defined.

(** [errors.Is] *)
Fixpoint errors_Is (e target : error) : bool :=
  bool_decide (e = target) ||
  match e with Wrapf _ _ inner => errors_Is inner target | _ => false end.

(** [os.IsNotExist] *)
Definition os_IsNotExist (e : error) : bool := bool_decide (e = Errno ENOENT).

Abbreviation res := (result error).

(** ** Traversals *)

(** A Go loop [for _, x := range l { y, err := f(x); if err != nil { return err }; ... }]
    that collects the results. *)
Fixpoint res_map {A B} (f : A → res B) (l : list A) : res (list B) :=
  match l with
  | [] => Ok []
  | x :: l => y ← f x; ys ← res_map f l; Ok (y :: ys)
  end.

(** A Go loop that threads a state and stops at the first error. *)
Fixpoint res_fold {A S} (f : S → A → res S) (s : S) (l : list A) : res S :=
  match l with
  | [] => Ok s
  | x :: l => s' ← f s x; res_fold f s' l
  end.

Lemma res_map_ok {A B} (f : A → res B) l ys :
  res_map f l = Ok ys ↔ Forall2 (λ x y, f x = Ok y) l ys.
Proof.
  revert ys; induction l as [|x l IH]; intros ys; simpl.
  - split; [intros [= <-]; constructor | intros H; by inversion H].
  - rewrite result_bind_ok. split.
    + intros (y & Hy & Hk). apply result_bind_ok in Hk as (ys' & H & [= <-]).
      constructor; [done | by apply IH].
    + intros H; inversion H as [|? y ? ys' Hy Hys]; subst. exists y; split; [done|].
      apply result_bind_ok. exists ys'; split; [by apply IH | done].
Qed.

(** An invariant of the loop body is an invariant of the loop. *)
Lemma res_fold_ind {A S} (P : S → Prop) (f : S → A → res S) l s s' :
  P s → (∀ s x s', x ∈ l → P s → f s x = Ok s' → P s') →
  res_fold f s l = Ok s' → P s'.
Proof.
  revert s; induction l as [|x l IH]; intros s Hs Hf; simpl; [by intros [= <-]|].
  intros (s1 & H1 & H2)%result_bind_ok.
  apply (IH s1); [eapply (Hf s x); [apply list_elem_of_here|done|done]| |done].
  intros s2 y s3 Hy. apply Hf. by apply list_elem_of_further.
Qed.

Lemma res_fold_app {A S} (f : S → A → res S) l1 l2 s :
  res_fold f s (l1 ++ l2) = (s' ← res_fold f s l1; res_fold f s' l2).
Proof. revert s; induction l1; intros s; simpl; [done|]. destruct (f s a); simpl; auto. Qed.

(** ** Machine integers

    [int], [int64] are 64 bits two's complement on the shim's platforms, [uint32]
    and [uint16] are modular. *)

Section ints.
Local Open Scope Z_scope.

Definition min_int64 : Z := -2^63.
Definition max_int64 : Z := 2^63 - 1.
Definition in_int64 (z : Z) : Prop := min_int64 ≤ z ≤ max_int64.
Definition wrap64 (z : Z) : Z := (z + 2^63) mod 2^64 - 2^63.
Definition u32 (z : Z) : Z := z mod 2^32.
Definition u16 (z : Z) : Z := z mod 2^16.

#[export] Instance in_int64_dec z : Decision (in_int64 z).
Proof. unfold in_int64. apply _. Defined.

Lemma wrap64_id z : in_int64 z → wrap64 z = z.
Proof.
  unfold in_int64, wrap64, min_int64, max_int64. intros ?.
  rewrite Z.mod_small; lia.
Qed.

Lemma wrap64_range z : in_int64 (wrap64 z).
Proof.
  unfold in_int64, wrap64, min_int64, max_int64.
  pose proof (Z.mod_pos_bound (z + 2^63) (2^64)). lia.
Qed.

Lemma u32_range z : 0 ≤ u32 z < 2^32.
Proof. apply Z.mod_pos_bound. lia. Qed.
End ints.

(** ** Automation *)

Create HintDb shim.
#[export] Hint Resolve wrap64_range u32_range : shim.
#[export] Hint Rewrite @result_bind_ok @result_bind_err @bool_decide_eq_true @bool_decide_eq_false
  andb_true_iff andb_false_iff orb_true_iff orb_false_iff negb_true_iff negb_false_iff : shim.

(** Invert a chain of [result] binds that returned [Ok]. *)
Ltac inv_bind :=
  repeat match goal with
  | H : mbind _ _ = Ok _ |- _ => apply result_bind_ok in H as (? & ? & ?)
  | H : Ok _ = Ok _ |- _ => injection H as H
  | H : Err _ = Ok _ |- _ => discriminate H
  | H : Ok _ = Err _ |- _ => discriminate H
  | H : mret _ = Ok _ |- _ => injection H as H
  end; simplify_eq.

(** Case on the scrutinee of a [match] or [if] in the goal or a hypothesis. *)
Ltac case_scrut :=
  match goal with
  | |- context [match ?x with _ => _ end] => destruct x eqn:?
  | H : context [match ?x with _ => _ end] |- _ => destruct x eqn:?
  end.

Ltac shim_solve := solve [ eauto with shim | naive_solver eauto with shim ].
