(* ===== verification/GoStrings.v ===== *)
(** * The parts of Go's [strings], [strconv] and [encoding] packages the shim uses

    A Go [string] is a [string] (a sequence of bytes), a [[]byte] a [list ascii].
    Every function follows the documented behaviour of the Go function it is named
    after on all inputs; [ToLower] outside ASCII, which needs the Unicode tables,
    is a parameter of its definition. *)

From Stdlib Require Import Ascii.
From stdpp Require Import numbers.
From S2P Require Import Prelude.

Abbreviation bytes := (list ascii).

Definition bytes_of (s : string) : bytes := String.list_ascii_of_string s.
Definition string_of (b : bytes) : string := String.string_of_list_ascii b.

Lemma string_of_bytes_of s : string_of (bytes_of s) = s.
Proof. apply String.string_of_list_ascii_of_string. Qed.
Lemma bytes_of_string_of b : bytes_of (string_of b) = b.
Proof. apply String.list_ascii_of_string_of_list_ascii. Qed.

(** ** Prefixes, suffixes and concatenation *)

Lemma string_app_nil_r s : s +:+ "" = s.
Proof. induction s as [|a s IH]; [done|]. change (String a (s +:+ "") = String a s). by rewrite IH. Qed.

Lemma string_app_cons a s1 s2 : String a s1 +:+ s2 = String a (s1 +:+ s2).
Proof. done. Qed.

Lemma string_app_nil_l s : "" +:+ s = s.
Proof. done. Qed.

Lemma string_app_assoc s1 s2 s3 : s1 +:+ (s2 +:+ s3) = (s1 +:+ s2) +:+ s3.
Proof. induction s1 as [|a s1 IH]; [done|]. rewrite !string_app_cons. by rewrite IH. Qed.

Lemma string_length_app s1 s2 :
  String.length (s1 +:+ s2) = String.length s1 + String.length s2.
Proof. induction s1 as [|a s1 IH]; [done|]. rewrite string_app_cons. simpl. by rewrite IH. Qed.

(** [drop_prefix p s] is the rest of [s] after the prefix [p], if it has it. *)
Fixpoint drop_prefix (p s : string) : option string :=
  match p, s with
  | EmptyString, _ => Some s
  | String a p, String b s => if decide (a = b) then drop_prefix p s else None
  | String _ _, EmptyString => None
  end.

Lemma drop_prefix_Some p s r : drop_prefix p s = Some r ↔ s = p +:+ r.
Proof.
  revert s; induction p as [|a p IH]; intros s; simpl.
  { rewrite string_app_nil_l. naive_solver. }
  destruct s as [|b s]; [by rewrite string_app_cons|].
  rewrite string_app_cons. case_decide; [subst; rewrite IH; naive_solver | naive_solver].
Qed.

Definition HasPrefix (s p : string) : bool :=
  match drop_prefix p s with Some _ => true | None => false end.

Definition TrimPrefix (s p : string) : string := default s (drop_prefix p s).

Lemma HasPrefix_spec s p : HasPrefix s p = true ↔ ∃ r, s = p +:+ r.
Proof.
  unfold HasPrefix. split.
  - destruct (drop_prefix p s) as [r|] eqn:E; [|done]. intros _. exists r.
    by apply drop_prefix_Some.
  - intros [r Hr]. apply drop_prefix_Some in Hr. by rewrite Hr.
Qed.

Lemma TrimPrefix_app p r : TrimPrefix (p +:+ r) p = r.
Proof.
  unfold TrimPrefix. assert (drop_prefix p (p +:+ r) = Some r) as -> by by apply drop_prefix_Some.
  done.
Qed.

Fixpoint string_rev_app (s1 s2 : string) : string :=
  match s1 with EmptyString => s2 | String a s1 => string_rev_app s1 (String a s2) end.
Definition string_rev (s : string) : string := string_rev_app s "".

Lemma string_rev_app_spec s1 s2 : string_rev_app s1 s2 = string_rev s1 +:+ s2.
Proof.
  unfold string_rev. revert s2. induction s1 as [|a s1 IH]; intros s2; [done|].
  simpl. rewrite IH, (IH (String a "")). rewrite <-string_app_assoc. done.
Qed.
Lemma string_rev_cons a s : string_rev (String a s) = string_rev s +:+ String a "".
Proof. unfold string_rev at 1. simpl. apply string_rev_app_spec. Qed.
Lemma string_rev_app_distr s1 s2 : string_rev (s1 +:+ s2) = string_rev s2 +:+ string_rev s1.
Proof.
  induction s1 as [|a s1 IH]; [by rewrite string_app_nil_l, string_app_nil_r|].
  rewrite string_app_cons, !string_rev_cons, IH. by rewrite string_app_assoc.
Qed.
Lemma string_rev_involutive s : string_rev (string_rev s) = s.
Proof.
  induction s as [|a s IH]; [done|].
  rewrite string_rev_cons, string_rev_app_distr, IH. done.
Qed.

Definition HasSuffix (s p : string) : bool := HasPrefix (string_rev s) (string_rev p).
Definition TrimSuffix (s p : string) : string :=
  string_rev (TrimPrefix (string_rev s) (string_rev p)).

Lemma HasSuffix_spec s p : HasSuffix s p = true ↔ ∃ r, s = r +:+ p.
Proof.
  unfold HasSuffix. rewrite HasPrefix_spec. split.
  - intros [r Hr]. exists (string_rev r). rewrite <-(string_rev_involutive s), Hr.
    by rewrite string_rev_app_distr, string_rev_involutive.
  - intros [r ->]. exists (string_rev r). by rewrite string_rev_app_distr.
Qed.

(** ** Searching for a byte: [Contains], [Cut], [Split] *)

Fixpoint contains_byte (c : ascii) (s : string) : bool :=
  match s with
  | EmptyString => false
  | String a s => bool_decide (a = c) || contains_byte c s
  end.

Lemma contains_byte_app c s1 s2 :
  contains_byte c (s1 +:+ s2) = contains_byte c s1 || contains_byte c s2.
Proof. induction s1 as [|a s1 IH]; [done|]. rewrite string_app_cons. simpl. rewrite IH. by rewrite orb_assoc. Qed.

(** [strings.Contains s sub] *)
Fixpoint Contains (s sub : string) : bool :=
  HasPrefix s sub || match s with EmptyString => false | String _ s => Contains s sub end.

(** [strings.Cut s sep] *)
Fixpoint Cut (s sep : string) : string * string * bool :=
  match drop_prefix sep s with
  | Some r => ("", r, true)
  | None =>
      match s with
      | EmptyString => ("", "", false)
      | String a s => let '(b, r, ok) := Cut s sep in (String a b, r, ok)
      end
  end.

Lemma Cut_spec s sep b r ok :
  Cut s sep = (b, r, ok) →
  if ok then s = b +:+ sep +:+ r else b = s ∧ r = "" ∧ Contains s sep = false.
Proof.
  revert b r ok; induction s as [|a s IH]; intros b r ok; cbn [Cut];
    destruct (drop_prefix sep _) as [r'|] eqn:E.
  - intros [= <- <- <-]. by apply drop_prefix_Some in E.
  - intros [= <- <- <-]. simpl. unfold HasPrefix. by rewrite E.
  - intros [= <- <- <-]. by apply drop_prefix_Some in E.
  - destruct (Cut s sep) as [[b' r''] ok'] eqn:E'. intros [= <- <- <-].
    specialize (IH _ _ _ eq_refl). destruct ok'.
    + rewrite string_app_cons. by f_equal.
    + destruct IH as (-> & -> & ?). simpl. unfold HasPrefix. by rewrite E.
Qed.

(** The part before the first separator byte does not contain it. *)
Lemma Cut_byte_before s c b r ok :
  Cut s (String c "") = (b, r, ok) → contains_byte c b = false.
Proof.
  revert b r ok; induction s as [|a s IH]; intros b r ok; simpl.
  { by intros [= <- <- <-]. }
  case_decide; [by intros [= <- <- <-]|].
  destruct (Cut s (String c "")) as [[b' r'] ok'] eqn:E. intros [= <- <- <-].
  simpl. rewrite (IH _ _ _ eq_refl), bool_decide_false by congruence. done.
Qed.

(** A byte that does not occur in [b] is found right after it. *)
Lemma Cut_byte_app b c r :
  contains_byte c b = false → Cut (b +:+ String c r) (String c "") = (b, r, true).
Proof.
  induction b as [|a b IH]; intros Hb.
  - rewrite string_app_nil_l. simpl. by rewrite decide_True.
  - rewrite string_app_cons. simpl in *. apply orb_false_iff in Hb as [Ha Hb].
    apply bool_decide_eq_false in Ha. rewrite decide_False by congruence. by rewrite IH.
Qed.

Lemma Contains_byte c s : Contains s (String c "") = contains_byte c s.
Proof.
  induction s as [|a s IH]; [done|]. cbn [Contains contains_byte]. rewrite IH. f_equal.
  unfold HasPrefix. simpl. case_decide; [by rewrite bool_decide_true|].
  by rewrite bool_decide_false by congruence.
Qed.

Lemma Cut_byte_none s c :
  contains_byte c s = false → Cut s (String c "") = (s, "", false).
Proof.
  intros Hs. destruct (Cut s _) as [[b r] ok] eqn:E. pose proof (Cut_spec _ _ _ _ _ E) as H.
  destruct ok; [|naive_solver]. subst s. rewrite string_app_cons, contains_byte_app in Hs.
  simpl in Hs. rewrite bool_decide_true, orb_true_r in Hs by done. done.
Qed.

(** [strings.Split s sep] for a one byte separator *)
Fixpoint Split (c : ascii) (s : string) : list string :=
  match s with
  | EmptyString => [""]
  | String a s =>
      match decide (a = c) with
      | left _ => "" :: Split c s
      | right _ => match Split c s with h :: t => String a h :: t | [] => [String a ""] end
      end
  end.

(** [strings.Join l sep] *)
Fixpoint Join (sep : string) (l : list string) : string :=
  match l with
  | [] => ""
  | [x] => x
  | x :: l => x +:+ sep +:+ Join sep l
  end.

Lemma Split_not_nil c s : Split c s ≠ [].
Proof. destruct s as [|a s]; simpl; [done|]. case_decide; [done|]. by destruct (Split c s). Qed.

Lemma Split_nosep c s : Forall (λ x, contains_byte c x = false) (Split c s).
Proof.
  induction s as [|a s IH]; simpl; [by constructor|].
  case_decide; [by constructor|].
  destruct (Split c s) as [|h t] eqn:E; [by apply Split_not_nil in E|]. inversion IH; subst. constructor; [|done]. simpl. rewrite bool_decide_false by done. done.
Qed.

Lemma Join_cons sep x l : l ≠ [] → Join sep (x :: l) = x +:+ sep +:+ Join sep l.
Proof. by destruct l. Qed.

Lemma Join_Split c s : Join (String c "") (Split c s) = s.
Proof.
  induction s as [|a s IH]; [done|]. simpl.
  pose proof (Split_not_nil c s). case_decide; subst.
  - rewrite Join_cons by done. by rewrite IH.
  - destruct (Split c s) as [|h [|h' t]] eqn:E; [done|..].
    + simpl in *. by subst.
    + rewrite Join_cons in IH |- * by done. rewrite string_app_cons. by rewrite IH.
Qed.

Lemma Split_app_sep c x s :
  contains_byte c x = false → Split c (x +:+ String c s) = x :: Split c s.
Proof.
  induction x as [|a x IH]; intros Hx.
  - rewrite string_app_nil_l. simpl. by rewrite decide_True.
  - simpl in Hx. apply orb_false_iff in Hx as [Ha Hx]. apply bool_decide_eq_false in Ha.
    rewrite string_app_cons. simpl. rewrite decide_False by done. by rewrite IH.
Qed.

Lemma Split_nosep_id c x : contains_byte c x = false → Split c x = [x].
Proof.
  induction x as [|a x IH]; intros Hx; [done|]. simpl in *.
  apply orb_false_iff in Hx as [Ha Hx]. apply bool_decide_eq_false in Ha.
  rewrite decide_False by done. by rewrite IH.
Qed.

Lemma Split_Join c l :
  l ≠ [] → Forall (λ x, contains_byte c x = false) l → Split c (Join (String c "") l) = l.
Proof.
  intros Hl Hall. induction Hall as [|x l Hx Hall IH]; [done|].
  destruct l as [|y l]; [by apply Split_nosep_id|].
  rewrite Join_cons by done. rewrite string_app_cons, string_app_nil_l, Split_app_sep by done.
  by rewrite IH.
Qed.

(** [strings.SplitN s sep 2] *)
Definition SplitN2 (s sep : string) : list string :=
  let '(b, r, ok) := Cut s sep in if ok then [b; r] else [s].

(** ** White space, case *)

Definition is_ascii_byte (a : ascii) : bool := bool_decide (N_of_ascii a < 128)%N.
Fixpoint is_ascii (s : string) : bool :=
  match s with EmptyString => true | String a s => is_ascii_byte a && is_ascii s end.

Definition byte (n : N) : ascii := ascii_of_N n.
Definition str_of_N (l : list N) : string := string_of (byte <$> l).

(** The UTF-8 encodings of the runes [unicode.IsSpace] accepts. *)
Definition space_runes : list string :=
  str_of_N <$>
  ([[9]; [10]; [11]; [12]; [13]; [32]; [194; 133]; [194; 160]; [225; 154; 128];
    [226; 128; 128]; [226; 128; 129]; [226; 128; 130]; [226; 128; 131]; [226; 128; 132];
    [226; 128; 133]; [226; 128; 134]; [226; 128; 135]; [226; 128; 136]; [226; 128; 137];
    [226; 128; 138]; [226; 128; 168]; [226; 128; 169]; [226; 128; 175]; [226; 129; 159];
    [227; 128; 128]])%N.

Fixpoint first_prefix (ps : list string) (s : string) : option string :=
  match ps with
  | [] => None
  | p :: ps => match drop_prefix p s with Some r => Some r | None => first_prefix ps s end
  end.

(** Trim every leading occurrence of one of [ps]; the fuel is the length. *)
Fixpoint trim_left_fuel (fuel : nat) (ps : list string) (s : string) : string :=
  match fuel with
  | O => s
  | S fuel => match first_prefix ps s with Some r => trim_left_fuel fuel ps r | None => s end
  end.
Definition trim_left (ps : list string) (s : string) : string :=
  trim_left_fuel (String.length s) ps s.

(** [strings.TrimSpace]; the last rune of a string is found from its last bytes, so
    trimming on the right is trimming the reversed string by the reversed runes. *)
Definition TrimSpace (s : string) : string :=
  string_rev (trim_left (string_rev <$> space_runes) (string_rev (trim_left space_runes s))).

Definition lower_byte (a : ascii) : ascii :=
  let n := N_of_ascii a in
  if bool_decide (65 ≤ n ∧ n ≤ 90)%N then byte (n + 32) else a.

Fixpoint ascii_lower (s : string) : string :=
  match s with EmptyString => "" | String a s => String (lower_byte a) (ascii_lower s) end.

(** [strings.ToLower]; [unicode_lower] is its result on strings with a non-ASCII byte. *)
Definition ToLower (unicode_lower : string → string) (s : string) : string :=
  if is_ascii s then ascii_lower s else unicode_lower s.

(** [strings.EqualFold s t] for an ASCII [t]: besides the two cases of a letter, the
    Kelvin sign folds to k and the long s folds to s; no other rune folds to ASCII. *)
Definition kelvin_sign : string := str_of_N [226; 132; 170]%N.
Definition long_s : string := str_of_N [197; 191]%N.

Fixpoint EqualFold (s t : string) : bool :=
  match t, s with
  | EmptyString, EmptyString => true
  | String b t, String a s' =>
      if is_ascii_byte a then bool_decide (lower_byte a = lower_byte b) && EqualFold s' t
      else if bool_decide (lower_byte b = "k"%char)
        then match drop_prefix kelvin_sign s with Some r => EqualFold r t | None => false end
      else if bool_decide (lower_byte b = "s"%char)
        then match drop_prefix long_s s with Some r => EqualFold r t | None => false end
      else false
  | _, _ => false
  end.

(** ** Numbers: [strconv] *)

Definition digit_of (a : ascii) : option Z :=
  let n := Z.of_N (N_of_ascii a) in
  if bool_decide (48 ≤ n ∧ n ≤ 57)%Z then Some (n - 48)%Z else None.

Definition ErrSyntax : error := Sentinel "strconv.ErrSyntax".
Definition ErrRange : error := Sentinel "strconv.ErrRange".

(** The digit loop of [strconv.ParseUint s 10 bitSize]: a byte that is not a digit is a
    syntax error, the first digit that takes the value above [2^bitSize - 1] a range
    error. *)
Fixpoint parse_digits (max : Z) (s : string) (n : Z) : res Z :=
  match s with
  | EmptyString => Ok n
  | String a s =>
      match digit_of a with
      | None => Err ErrSyntax
      | Some d => if bool_decide (max < n * 10 + d)%Z then Err ErrRange
                  else parse_digits max s (n * 10 + d)
      end
  end.

Definition ParseUint (s : string) (bitSize : Z) : res Z :=
  match s with
  | EmptyString => Err ErrSyntax
  | _ => parse_digits (2 ^ bitSize - 1) s 0
  end.

(** [strconv.ParseInt s 10 64] *)
Definition ParseInt (s : string) : res Z :=
  match s with
  | EmptyString => Err ErrSyntax
  | String a s' =>
      let '(neg, digits) :=
        if bool_decide (a = "+"%char) then (false, s')
        else if bool_decide (a = "-"%char) then (true, s') else (false, s) in
      un ← ParseUint digits 64;
      if bool_decide (neg = false ∧ 2^63 ≤ un)%Z then Err ErrRange
      else if bool_decide (neg = true ∧ 2^63 < un)%Z then Err ErrRange
      else Ok (if neg then - un else un)%Z
  end.

(** [strconv.Atoi] is [ParseInt] with [int] 64 bits wide. *)
Definition Atoi (s : string) : res Z := ParseInt s.

(** [fmt.Sprintf("%d", z)] and [strconv.FormatInt(z, 10)] *)
Definition FormatInt (z : Z) : string := pretty z.

(** ** [encoding/hex] *)

Definition hex_val (a : ascii) : option N :=
  let n := N_of_ascii a in
  if bool_decide (48 ≤ n ∧ n ≤ 57)%N then Some (n - 48)%N
  else if bool_decide (97 ≤ n ∧ n ≤ 102)%N then Some (n - 87)%N
  else if bool_decide (65 ≤ n ∧ n ≤ 70)%N then Some (n - 55)%N
  else None.

(** [hex.DecodeString] *)
Fixpoint hex_DecodeString (s : string) : res bytes :=
  match s with
  | EmptyString => Ok []
  | String a EmptyString =>
      match hex_val a with
      | Some _ => Err (Sentinel "hex.ErrLength")
      | None => Err (Errorf "hex.InvalidByteError" [])
      end
  | String a (String b s) =>
      match hex_val a, hex_val b with
      | Some x, Some y => r ← hex_DecodeString s; Ok (byte (16 * x + y) :: r)
      | _, _ => Err (Errorf "hex.InvalidByteError" [])
      end
  end.

Definition hex_digit (n : N) : ascii := if bool_decide (n < 10)%N then byte (48 + n) else byte (87 + n).

(** [hex.EncodeToString] *)
Fixpoint hex_EncodeToString (b : bytes) : string :=
  match b with
  | [] => ""
  | a :: b => let n := N_of_ascii a in
      String (hex_digit (n / 16)) (String (hex_digit (n mod 16)) (hex_EncodeToString b))
  end.

(** ** [encoding/base64] *)

Definition b64_val (a : ascii) : option N :=
  let n := N_of_ascii a in
  if bool_decide (65 ≤ n ∧ n ≤ 90)%N then Some (n - 65)%N
  else if bool_decide (97 ≤ n ∧ n ≤ 122)%N then Some (n - 71)%N
  else if bool_decide (48 ≤ n ∧ n ≤ 57)%N then Some (n + 4)%N
  else if bool_decide (n = 43)%N then Some 62%N
  else if bool_decide (n = 47)%N then Some 63%N
  else None.

Definition b64_corrupt : error := Errorf "base64.CorruptInputError" [].

Definition b64_byte1 (x y : N) : ascii := byte (x * 4 + y / 16).
Definition b64_byte2 (y z : N) : ascii := byte (y mod 16 * 16 + z / 4).
Definition b64_byte3 (z w : N) : ascii := byte (z mod 4 * 64 + w).

(** The quantum loop of [Encoding.Decode], after line breaks were skipped; [pad] says
    whether the encoding uses padding ([StdEncoding]) or not ([RawStdEncoding]).  As in
    Go's default mode, the trailing bits of the last quantum are not checked. *)
Fixpoint b64_decode (pad : bool) (l : bytes) : res bytes :=
  match l with
  | [] => Ok []
  | [a; b] =>
      if pad then Err b64_corrupt else
      match b64_val a, b64_val b with
      | Some x, Some y => Ok [b64_byte1 x y]
      | _, _ => Err b64_corrupt
      end
  | [a; b; c] =>
      if pad then Err b64_corrupt else
      match b64_val a, b64_val b, b64_val c with
      | Some x, Some y, Some z => Ok [b64_byte1 x y; b64_byte2 y z]
      | _, _, _ => Err b64_corrupt
      end
  | a :: b :: c :: d :: l =>
      match b64_val a, b64_val b with
      | Some x, Some y =>
          match b64_val c with
          | None =>
              if pad && bool_decide (c = "="%char) && bool_decide (d = "="%char) && bool_decide (l = [])
              then Ok [b64_byte1 x y] else Err b64_corrupt
          | Some z =>
              match b64_val d with
              | None =>
                  if pad && bool_decide (d = "="%char) && bool_decide (l = [])
                  then Ok [b64_byte1 x y; b64_byte2 y z] else Err b64_corrupt
              | Some w =>
                  r ← b64_decode pad l; Ok (b64_byte1 x y :: b64_byte2 y z :: b64_byte3 z w :: r)
              end
          end
      | _, _ => Err b64_corrupt
      end
  | _ => Err b64_corrupt
  end.

Definition b64_strip (s : string) : bytes :=
  filter (λ a, a ≠ byte 10 ∧ a ≠ byte 13) (bytes_of s).

(** [base64.StdEncoding.DecodeString] and [base64.RawStdEncoding.DecodeString] *)
Definition StdDecodeString (s : string) : res bytes := b64_decode true (b64_strip s).
Definition RawStdDecodeString (s : string) : res bytes := b64_decode false (b64_strip s).

(** ** Facts about numbers *)

Section numbers.
Local Open Scope Z_scope.

Lemma digit_of_pretty x : (x < 10)%N → digit_of (pretty_N_char x) = Some (Z.of_N x).
Proof.
  intros Hx. assert (x = 0 ∨ x = 1 ∨ x = 2 ∨ x = 3 ∨ x = 4 ∨ x = 5 ∨ x = 6 ∨ x = 7 ∨ x = 8 ∨ x = 9)%N by lia.
  naive_solver.
Qed.

Lemma digit_of_range a d : digit_of a = Some d → 0 ≤ d ≤ 9.
Proof. unfold digit_of. case_bool_decide; [|done]. intros [= <-]. lia. Qed.

Lemma parse_digits_go max x s :
  Z.of_N x ≤ max → parse_digits max (pretty_N_go x s) 0 = parse_digits max s (Z.of_N x).
Proof.
  revert s. induction (N.lt_wf_0 x) as [x _ IH]; intros s Hx.
  assert (x = 0 ∨ 0 < x)%N as [->|Hpos] by lia; [done|].
  pose proof (N.div_mod x 10 ltac:(done)) as Hdm.
  pose proof (N.mod_lt x 10 ltac:(done)) as Hm.
  rewrite pretty_N_go_step by done. rewrite IH; [|by apply N.div_lt|].
  2:{ etrans; [|exact Hx]. apply N2Z.inj_le, N.Div0.div_le_upper_bound. lia. }
  simpl. rewrite digit_of_pretty by done.
  replace (Z.of_N (x / 10) * 10 + Z.of_N (x mod 10)) with (Z.of_N x)
    by (rewrite Hdm at 1; rewrite N2Z.inj_add, N2Z.inj_mul; ring).
  by rewrite bool_decide_false by lia.
Qed.

Lemma parse_digits_range max s n z : 0 ≤ n ≤ max → parse_digits max s n = Ok z → 0 ≤ z ≤ max.
Proof.
  revert n; induction s as [|a s IH]; intros n Hn; simpl; [intros [= <-]; lia|].
  destruct (digit_of a) as [d|] eqn:Ed; [|done]. apply digit_of_range in Ed.
  case_bool_decide; [done|]. apply IH. lia.
Qed.

Lemma ParseUint_range s bits z : 0 ≤ bits → ParseUint s bits = Ok z → 0 ≤ z < 2 ^ bits.
Proof.
  intros Hb. unfold ParseUint. destruct s as [|a s]; [done|]. intros H.
  assert (0 < 2 ^ bits) by (apply Z.pow_pos_nonneg; lia).
  apply parse_digits_range in H; lia.
Qed.

Lemma ParseInt_range s z : ParseInt s = Ok z → in_int64 z.
Proof.
  unfold ParseInt, in_int64, min_int64, max_int64. destruct s as [|a s]; [done|].
  destruct (if bool_decide _ then _ else _) as [neg ds].
  intros (un & Hun & H)%result_bind_ok. apply ParseUint_range in Hun; [|lia].
  repeat case_bool_decide; try done. injection H as <-. destruct neg; naive_solver lia.
Qed.

Lemma pretty_N_nonempty (x : N) : ∃ a s, pretty x = String a s ∧ a ≠ "+"%char ∧ a ≠ "-"%char.
Proof.
  assert (∀ (x : N) a s, a ≠ "+"%char → a ≠ "-"%char →
    ∃ a' s', pretty_N_go x (String a s) = String a' s' ∧ a' ≠ "+"%char ∧ a' ≠ "-"%char) as Hgo.
  { clear x. intros x. induction (N.lt_wf_0 x) as [x _ IH]; intros a s ??.
    assert (x = 0 ∨ 0 < x)%N as [->|?] by lia; [rewrite pretty_N_go_0; eauto|].
    rewrite pretty_N_go_step by done. apply IH; [by apply N.div_lt|..];
      unfold pretty_N_char; by repeat case_match. }
  unfold pretty, pretty_N. case_decide; [by eexists _, _|].
  rewrite pretty_N_go_step by lia. apply Hgo; unfold pretty_N_char; by repeat case_match.
Qed.

Lemma ParseUint_pretty (x : N) bits : Z.of_N x ≤ 2 ^ bits - 1 → ParseUint (pretty x) bits = Ok (Z.of_N x).
Proof.
  intros Hx. unfold ParseUint. destruct (pretty_N_nonempty x) as (a & s & Hp & _). rewrite Hp, <-Hp.
  unfold pretty, pretty_N. case_decide as Hz; [subst|by rewrite parse_digits_go].
  cbn [parse_digits]. change (digit_of "0") with (Some 0). cbv beta iota.
  rewrite bool_decide_false by lia. done.
Qed.

(** What the shim prints with [%d] it parses back, over all of [int64]. *)
Lemma ParseInt_FormatInt z : in_int64 z → ParseInt (FormatInt z) = Ok z.
Proof.
  unfold in_int64, min_int64, max_int64, FormatInt. intros Hz.
  assert (∀ x : N, Z.of_N x < 2^63 → ParseInt (pretty x) = Ok (Z.of_N x)) as Hpos.
  { intros x Hx. unfold ParseInt. destruct (pretty_N_nonempty x) as (a & s & Hp & Hp1 & Hp2).
    rewrite Hp. rewrite !bool_decide_false by done. rewrite <-Hp, ParseUint_pretty by lia.
    simpl. rewrite !bool_decide_false by naive_solver lia. done. }
  destruct z as [|p|p].
  - apply (Hpos 0%N). lia.
  - apply (Hpos (Npos p)). lia.
  - change (pretty (Z.neg p)) with ("-" +:+ pretty (Npos p)). rewrite string_app_cons, string_app_nil_l.
    unfold ParseInt. rewrite bool_decide_false, bool_decide_true by done.
    rewrite ParseUint_pretty by lia. simpl.
    rewrite !bool_decide_false by naive_solver lia. done.
Qed.
End numbers.

#[export] Hint Resolve ParseInt_range : shim.

(** A boolean property of the small numbers is decided by testing them all. *)
Lemma forall_N_below (P : N → bool) (n : nat) :
  forallb P (N.of_nat <$> seq 0 n) = true → ∀ x, (x < N.of_nat n)%N → P x = true.
Proof.
  rewrite forallb_forall. intros H x Hx. apply H, list_elem_of_In, list_elem_of_fmap.
  exists (N.to_nat x). split; [lia|]. apply elem_of_seq. lia.
Qed.

(** ** Facts about hex *)

Lemma hex_digit_val n : (n < 16)%N → hex_val (hex_digit n) = Some n.
Proof.
  intros Hn. apply (bool_decide_eq_true_1 _).
  revert n Hn. apply (forall_N_below _ 16). vm_compute. reflexivity.
Qed.

Lemma hex_digit_lower n :
  (n < 16)%N → lower_byte (hex_digit n) = hex_digit n ∧ is_ascii_byte (hex_digit n) = true.
Proof.
  intros Hn. apply (bool_decide_eq_true_1 _).
  revert n Hn. apply (forall_N_below _ 16). vm_compute. reflexivity.
Qed.

Lemma N_of_ascii_lt a : (N_of_ascii a < 256)%N.
Proof. apply N_ascii_bounded. Qed.

Lemma byte_N_of_ascii a : byte (N_of_ascii a) = a.
Proof. apply ascii_N_embedding. Qed.

Lemma hex_Decode_Encode b : hex_DecodeString (hex_EncodeToString b) = Ok b.
Proof.
  induction b as [|a b IH]; [done|]. cbn [hex_EncodeToString hex_DecodeString].
  pose proof (N_of_ascii_lt a).
  rewrite !hex_digit_val.
  - rewrite IH. simpl. do 2 f_equal. rewrite <-N.div_mod by done. apply byte_N_of_ascii.
  - by apply N.mod_lt.
  - apply N.Div0.div_lt_upper_bound. lia.
Qed.

Lemma hex_Encode_length b : String.length (hex_EncodeToString b) = 2 * length b.
Proof. induction b as [|a b IH]; simpl; lia. Qed.

Lemma hex_Decode_length_aux n s r :
  String.length s ≤ n → hex_DecodeString s = Ok r → String.length s = 2 * length r.
Proof.
  revert s r; induction n as [|n IH]; intros [|a [|b s]] r Hn; simpl in *; try lia;
    try (intros [= <-]; simpl; lia).
  - by destruct (hex_val a).
  - destruct (hex_val a), (hex_val b); try done. intros (r' & Hr & [= <-])%result_bind_ok.
    apply IH in Hr; simpl; lia.
Qed.

Lemma hex_Decode_length s r : hex_DecodeString s = Ok r → String.length s = 2 * length r.
Proof. by apply hex_Decode_length_aux with (n := String.length s). Qed.

Lemma hex_Encode_lower b : is_ascii (hex_EncodeToString b) = true ∧
  ascii_lower (hex_EncodeToString b) = hex_EncodeToString b.
Proof.
  induction b as [|a b [IH1 IH2]]; [done|]. cbn [hex_EncodeToString is_ascii ascii_lower].
  pose proof (N_of_ascii_lt a).
  destruct (hex_digit_lower (N_of_ascii a / 16)) as [Hl1 Ha1]; [apply N.Div0.div_lt_upper_bound; lia|].
  destruct (hex_digit_lower (N_of_ascii a mod 16)) as [Hl2 Ha2]; [by apply N.mod_lt|].
  by rewrite Hl1, Hl2, Ha1, Ha2, IH1, IH2.
Qed.
