(* ===== verification/GoPath.v ===== *)
(** * [path/filepath] on Unix

    The lexical path functions the shim uses, on component lists: [Clean], [Join],
    [Dir], [IsAbs], [IsLocal] and [Rel].  The lemmas relate the strings the code
    passes around to lists of components without empty, ["."] and [".."] names. *)

From Stdlib Require Import Ascii.
From S2P Require Import Prelude GoStrings.

Definition slash : ascii := "/"%char.
Definition sep : string := "/".

(** One element of the path, on the stack of the elements kept so far (innermost
    first): empty and ["."] elements are dropped, an inner [".."] removes the element
    before it, a [".."] at the root is dropped. *)
Definition clean_step (rooted : bool) (st : list string) (c : string) : list string :=
  if bool_decide (c = "" ∨ c = ".") then st
  else if bool_decide (c = "..") then
    match st with
    | top :: st' => if bool_decide (top = "..") then c :: st else st'
    | [] => if rooted then [] else [c]
    end
  else c :: st.

Definition clean_comps (rooted : bool) (cs : list string) : list string :=
  reverse (foldl (clean_step rooted) [] cs).

Definition IsAbs (p : string) : bool := HasPrefix p sep.

(** [filepath.Clean] *)
Definition Clean (p : string) : string :=
  if bool_decide (p = "") then "."
  else
    let cs := clean_comps (IsAbs p) (Split slash p) in
    if IsAbs p then sep +:+ Join sep cs
    else if bool_decide (cs = []) then "." else Join sep cs.

(** [filepath.Join] *)
Fixpoint path_Join (elems : list string) : string :=
  match elems with
  | [] => ""
  | e :: es => if bool_decide (e = "") then path_Join es else Clean (Join sep (e :: es))
  end.

(** [filepath.Dir]: everything up to the last separator, cleaned. *)
Definition Dir (p : string) : string :=
  Clean (match reverse (Split slash p) with
         | _ :: (_ :: _) as init => Join sep (reverse init) +:+ sep
         | _ => ""
         end).

(** [filepath.IsLocal] *)
Definition IsLocal (p : string) : bool :=
  if IsAbs p || bool_decide (p = "") then false
  else
    let hasDots := existsb (λ c, bool_decide (c = "." ∨ c = "..")) (Split slash p) in
    let p := if hasDots then Clean p else p in
    negb (bool_decide (p = "..") || HasPrefix p "../").

Fixpoint strip_common (b t : list string) : list string * list string :=
  match b, t with
  | x :: b', y :: t' => if bool_decide (x = y) then strip_common b' t' else (b, t)
  | _, _ => (b, t)
  end.

Definition rel_comps (p : string) : list string :=
  filter (λ c, c ≠ "") (Split slash p).

(** [filepath.Rel] *)
Definition Rel (basepath targpath : string) : res string :=
  let base := Clean basepath in
  let targ := Clean targpath in
  if bool_decide (targ = base) then Ok "."
  else
    let base := if bool_decide (base = ".") then "" else base in
    if bool_decide (IsAbs base ≠ IsAbs targ)
    then Err (Errorf "Rel: can't make %s relative to %s" [targpath; basepath])
    else
      let '(b, t) := strip_common (rel_comps base) (rel_comps targ) in
      match b with
      | ".." :: _ => Err (Errorf "Rel: can't make %s relative to %s" [targpath; basepath])
      | _ => Ok (Join sep (replicate (length b) ".." ++ t))
      end.

(** ** Good components *)

(** A name that can be a directory entry. *)
Definition good (c : string) : Prop :=
  c ≠ "" ∧ c ≠ "." ∧ c ≠ ".." ∧ contains_byte slash c = false.
#[export] Instance good_dec c : Decision (good c).
Proof. unfold good. apply _. Defined.

Definition abs_path (cs : list string) : string := sep +:+ Join sep cs.
Definition rel_path (cs : list string) : string := Join sep cs.

Lemma good_nosep cs : Forall good cs → Forall (λ x, contains_byte slash x = false) cs.
Proof. intros H. eapply Forall_impl; [exact H|]. by intros c (_ & _ & _ & ?). Qed.

Lemma clean_step_good r st c : good c → clean_step r st c = c :: st.
Proof. intros (?&?&?&?). unfold clean_step. by rewrite !bool_decide_false by naive_solver. Qed.

Lemma clean_fold_good r st cs : Forall good cs → foldl (clean_step r) st cs = reverse cs ++ st.
Proof.
  intros H. revert st. induction H as [|c cs Hc _ IH]; intros st; [done|].
  simpl. rewrite clean_step_good, IH, reverse_cons by done. by rewrite <-app_assoc.
Qed.

Lemma clean_fold_ups k st :
  Forall (λ x, x = "..") st → foldl (clean_step false) st (replicate k "..") = replicate k ".." ++ st.
Proof.
  revert st; induction k as [|k IH]; intros st Hst; [done|]. simpl.
  assert (clean_step false st ".." = ".." :: st) as ->.
  { unfold clean_step. rewrite bool_decide_false by naive_solver. rewrite bool_decide_true by done.
    destruct Hst as [|x st Hx _]; [done|]. by rewrite bool_decide_true. }
  rewrite IH by by constructor.
  rewrite app_comm_cons, replicate_cons_app. by rewrite <-app_assoc.
Qed.

(** The shape of the stack: good names over a run of [".."], which is empty when rooted. *)
Definition stack_ok (rooted : bool) (st : list string) : Prop :=
  ∃ gs k, st = gs ++ replicate k ".." ∧ Forall good gs ∧ (rooted = true → k = 0).

Lemma clean_step_ok r st c :
  contains_byte slash c = false → stack_ok r st → stack_ok r (clean_step r st c).
Proof.
  intros Hc (gs & k & -> & Hgs & Hk). unfold clean_step. case_bool_decide as E1; [by exists gs, k|].
  case_bool_decide as E2; [subst c|].
  - destruct gs as [|g gs]; simpl.
    + destruct k as [|k]; simpl.
      * destruct r; [by exists [], 0 | exists [], 1; naive_solver].
      * exists [], (S (S k)). split; [done|]. split; [done|]. intros ->. by specialize (Hk eq_refl).
    + apply Forall_cons in Hgs as [Hg Hgs]. rewrite bool_decide_false by by destruct Hg as (?&?&?&?).
      by exists gs, k.
  - exists (c :: gs), k. split; [done|]. split; [|done]. constructor; [|done].
    repeat split; naive_solver.
Qed.

Lemma clean_fold_ok r st cs :
  Forall (λ x, contains_byte slash x = false) cs → stack_ok r st →
  stack_ok r (foldl (clean_step r) st cs).
Proof.
  intros H. revert st. induction H as [|c cs Hc _ IH]; intros st Hst; [done|].
  simpl. by apply IH, clean_step_ok.
Qed.

(** What [clean_comps] keeps: a run of [".."] (none if rooted), then good names. *)
Lemma clean_comps_shape r cs :
  Forall (λ x, contains_byte slash x = false) cs →
  ∃ k gs, clean_comps r cs = replicate k ".." ++ gs ∧ Forall good gs ∧ (r = true → k = 0).
Proof.
  intros H. destruct (clean_fold_ok r [] cs H) as (gs & k & E & Hgs & Hk); [by exists [], 0|].
  exists k, (reverse gs). unfold clean_comps. rewrite E, reverse_app, reverse_replicate.
  split; [done|]. split; [by apply Forall_reverse|done].
Qed.

Lemma clean_comps_good r cs : Forall good cs → clean_comps r cs = cs.
Proof. intros H. unfold clean_comps. by rewrite clean_fold_good, app_nil_r, reverse_involutive. Qed.

Lemma clean_comps_ups k gs :
  Forall good gs → clean_comps false (replicate k ".." ++ gs) = replicate k ".." ++ gs.
Proof.
  intros H. unfold clean_comps. rewrite foldl_app, clean_fold_ups by done.
  rewrite clean_fold_good by done. by rewrite app_nil_r, reverse_app, reverse_involutive, reverse_replicate.
Qed.

(** ** Strings of components *)

Lemma Join_head_not_slash c cs :
  contains_byte slash c = false → c ≠ "" → IsAbs (Join sep (c :: cs)) = false.
Proof.
  intros Hc Hne. destruct c as [|a c]; [done|]. simpl in Hc. apply orb_false_iff in Hc as [Ha Hc].
  apply bool_decide_eq_false in Ha. unfold IsAbs, HasPrefix, sep.
  destruct cs; rewrite ?string_app_cons; simpl; by rewrite decide_False by (unfold slash in *; congruence).
Qed.

Lemma Join_eq_nil cs : Forall (λ c, c ≠ "") cs → cs ≠ [] → Join sep cs ≠ "".
Proof.
  intros H Hne. destruct H as [|c cs Hc H]; [done|]. destruct c as [|a c]; [done|].
  destruct cs; simpl; by rewrite ?string_app_cons.
Qed.

Lemma IsAbs_abs_path cs : IsAbs (abs_path cs) = true.
Proof. apply HasPrefix_spec. by exists (Join sep cs). Qed.

Lemma Split_abs_path cs :
  cs ≠ [] → Forall good cs → Split slash (abs_path cs) = "" :: cs.
Proof.
  intros Hne Hcs. unfold abs_path, sep. rewrite string_app_cons, string_app_nil_l. simpl.
  f_equal. by apply Split_Join, good_nosep.
Qed.

Lemma Clean_abs_path cs : Forall good cs → Clean (abs_path cs) = abs_path cs.
Proof.
  intros Hcs. unfold Clean. rewrite bool_decide_false, IsAbs_abs_path by done.
  unfold abs_path at 2. f_equal. destruct (decide (cs = [])) as [->|Hne]; [done|].
  rewrite Split_abs_path by done. f_equal. unfold clean_comps. simpl.
  change (clean_step true [] "") with (@nil string).
  by rewrite clean_fold_good, app_nil_r, reverse_involutive.
Qed.

Lemma not_abs_ups k gs :
  Forall good gs → replicate k ".." ++ gs ≠ [] →
  IsAbs (Join sep (replicate k ".." ++ gs)) = false ∧ Join sep (replicate k ".." ++ gs) ≠ "".
Proof.
  intros Hgs Hne. split.
  - destruct k as [|k]; simpl in *; [destruct Hgs as [|g gs Hg Hgs]; [done|]|].
    + destruct Hg as (?&?&?&?). by apply Join_head_not_slash.
    + by apply Join_head_not_slash.
  - apply Join_eq_nil; [|done]. apply Forall_app. split; [by apply Forall_replicate|].
    eapply Forall_impl; [exact Hgs|]. by intros c (?&?&?&?).
Qed.

Lemma Split_ups k gs :
  Forall good gs → replicate k ".." ++ gs ≠ [] →
  Split slash (Join sep (replicate k ".." ++ gs)) = replicate k ".." ++ gs.
Proof.
  intros Hgs Hne. apply Split_Join; [done|]. apply Forall_app. split; [by apply Forall_replicate|].
  by apply good_nosep.
Qed.

Lemma Clean_ups k gs :
  Forall good gs → replicate k ".." ++ gs ≠ [] →
  Clean (Join sep (replicate k ".." ++ gs)) = Join sep (replicate k ".." ++ gs).
Proof.
  intros Hgs Hne. destruct (not_abs_ups k gs Hgs Hne) as [Ha Hn]. unfold Clean.
  rewrite bool_decide_false, Ha by done. rewrite Split_ups by done.
  rewrite clean_comps_ups, bool_decide_false by done. done.
Qed.

Lemma Clean_rel_path cs : cs ≠ [] → Forall good cs → Clean (rel_path cs) = rel_path cs.
Proof. intros Hne H. by apply (Clean_ups 0). Qed.

(** Every cleaned path is one of these three. *)
Lemma Clean_cases p :
  (∃ gs, Forall good gs ∧ Clean p = abs_path gs) ∨ Clean p = "." ∨
  (∃ k gs, Forall good gs ∧ replicate k ".." ++ gs ≠ [] ∧ Clean p = Join sep (replicate k ".." ++ gs)).
Proof.
  unfold Clean. case_bool_decide; [by right; left|].
  destruct (clean_comps_shape (IsAbs p) (Split slash p)) as (k & gs & E & Hgs & Hk); [apply Split_nosep|].
  rewrite E. destruct (IsAbs p).
  - left. exists gs. rewrite Hk by done. done.
  - case_bool_decide; [by right; left|]. right; right. eauto.
Qed.

(** Cleaning is idempotent. *)
Lemma Clean_idemp p : Clean (Clean p) = Clean p.
Proof.
  destruct (Clean_cases p) as [(gs & Hgs & ->)|[->|(k & gs & Hgs & Hne & ->)]];
    [by apply Clean_abs_path | done | by apply Clean_ups].
Qed.

Lemma HasPrefix_dotdot k gs :
  bool_decide (Join sep (replicate (S k) ".." ++ gs) = "..") ||
  HasPrefix (Join sep (replicate (S k) ".." ++ gs)) "../" = true.
Proof.
  simpl. destruct (replicate k ".." ++ gs) as [|c cs] eqn:E; [done|].
  apply orb_true_iff. right. apply HasPrefix_spec. exists (Join sep (c :: cs)).
  reflexivity.
Qed.

Lemma IsLocal_cleaned p :
  IsAbs p = false → p ≠ "" → Clean p = p →
  IsLocal p = negb (bool_decide (p = "..") || HasPrefix p "../").
Proof.
  intros Ha Hn Hc. unfold IsLocal. rewrite Ha, bool_decide_false by done. cbn [orb].
  by destruct (existsb _ _); rewrite ?Hc.
Qed.

(** The cleaned local paths other than ["."] are the non-empty lists of good names. *)
Lemma Clean_local p :
  Clean p ≠ "." → IsLocal (Clean p) = true →
  ∃ cs, cs ≠ [] ∧ Forall good cs ∧ Clean p = rel_path cs.
Proof.
  intros Hdot Hloc.
  destruct (Clean_cases p) as [(gs & Hgs & E)|[E|(k & gs & Hgs & Hne & E)]]; rewrite E in Hdot, Hloc |- *.
  - unfold IsLocal in Hloc. by rewrite IsAbs_abs_path in Hloc.
  - done.
  - destruct k as [|k]; [by exists gs|]. exfalso.
    destruct (not_abs_ups (S k) gs Hgs Hne) as [Ha Hn].
    rewrite IsLocal_cleaned, HasPrefix_dotdot in Hloc by (try done; by apply Clean_ups). done.
Qed.

Lemma IsLocal_rel_path cs : cs ≠ [] → Forall good cs → IsLocal (rel_path cs) = true.
Proof.
  intros Hne Hcs. destruct (not_abs_ups 0 cs Hcs Hne) as [Ha Hn].
  change (Join sep (replicate 0 ".." ++ cs)) with (rel_path cs) in *.
  rewrite IsLocal_cleaned by (try done; by apply Clean_rel_path).
  apply negb_true_iff, orb_false_iff.
  assert (Hsp : Split slash (rel_path cs) = cs) by by apply (Split_ups 0).
  destruct cs as [|c cs]; [done|]. apply Forall_cons in Hcs as [(?&?&?&?) Hcs]. split.
  - apply bool_decide_eq_false. intros E. rewrite E in Hsp. change (Split slash "..") with [".."] in Hsp.
    naive_solver.
  - apply not_true_is_false. intros [r E]%HasPrefix_spec. rewrite E in Hsp.
    change ("../" +:+ r) with (".." +:+ String slash r) in Hsp.
    rewrite Split_app_sep in Hsp by done. naive_solver.
Qed.

(** ** [Join], [Rel] and [Dir] below a directory *)

Lemma Join_app_comps ds cs :
  ds ≠ [] → cs ≠ [] → Join sep (ds ++ cs) = Join sep ds +:+ sep +:+ Join sep cs.
Proof.
  intros Hd Hc. induction ds as [|d ds IH]; [done|].
  destruct ds as [|d' ds]; [by rewrite <-Join_cons|].
  rewrite <-app_comm_cons, !Join_cons by done. rewrite IH by done. by rewrite <-!string_app_assoc.
Qed.

(** [filepath.Join(dest, clean)] for an absolute [dest] other than the root. *)
Lemma path_Join_abs ds cs :
  ds ≠ [] → cs ≠ [] → Forall good ds → Forall good cs →
  path_Join [abs_path ds; rel_path cs] = abs_path (ds ++ cs).
Proof.
  intros Hd Hc Hds Hcs. unfold path_Join. rewrite bool_decide_false by done.
  assert (Join sep [abs_path ds; rel_path cs] = abs_path (ds ++ cs)) as ->.
  { unfold abs_path, rel_path. rewrite Join_app_comps by done. simpl. by rewrite <-!string_app_assoc. }
  apply Clean_abs_path. by apply Forall_app.
Qed.

Lemma path_Join_cached bs sum r :
  bs ≠ [] → r ≠ [] → Forall good bs → good sum → Forall good r →
  path_Join [abs_path bs; sum; rel_path r] = abs_path ((bs ++ [sum]) ++ r).
Proof.
  intros Hne Hr Hbs Hs Hg. rewrite <-app_assoc. change ([sum] ++ r) with (sum :: r).
  rewrite <-(path_Join_abs bs (sum :: r)) by (done || by constructor).
  unfold path_Join. rewrite bool_decide_false by done. f_equal. rewrite !Join_cons by done.
  unfold rel_path. by rewrite (Join_cons _ sum r).
Qed.

Lemma strip_common_app ds cs : strip_common ds (ds ++ cs) = ([], cs).
Proof.
  induction ds as [|d ds IH]; simpl; [by destruct cs|]. by rewrite bool_decide_true, IH.
Qed.

Lemma rel_comps_abs cs : Forall good cs → rel_comps (abs_path cs) = cs.
Proof.
  intros Hcs. unfold rel_comps. destruct (decide (cs = [])) as [->|Hne]; [done|].
  rewrite Split_abs_path by done. rewrite filter_cons_False by naive_solver.
  clear Hne. induction Hcs as [|c cs (?&?&?&?) Hcs IH]; [done|].
  rewrite filter_cons_True by done. by rewrite IH.
Qed.

Lemma abs_path_inj cs cs' : Forall good cs → Forall good cs' → abs_path cs = abs_path cs' → cs = cs'.
Proof. intros H H' E. by rewrite <-(rel_comps_abs cs), <-(rel_comps_abs cs'), E. Qed.

Lemma Rel_abs ds cs :
  cs ≠ [] → Forall good ds → Forall good cs → Rel (abs_path ds) (abs_path (ds ++ cs)) = Ok (rel_path cs).
Proof.
  intros Hc Hds Hcs. assert (Hdc : Forall good (ds ++ cs)) by by apply Forall_app.
  unfold Rel. rewrite !Clean_abs_path by done.
  rewrite bool_decide_false.
  2:{ intros E%abs_path_inj; [|done..]. rewrite <-(app_nil_r ds) in E at 2. by simplify_list_eq. }
  rewrite (bool_decide_false (abs_path ds = ".")) by done.
  rewrite !IsAbs_abs_path, bool_decide_false by naive_solver.
  by rewrite !rel_comps_abs, strip_common_app by done.
Qed.

Lemma Rel_self ds : Forall good ds → Rel (abs_path ds) (abs_path ds) = Ok ".".
Proof. intros H. unfold Rel. by rewrite bool_decide_true. Qed.

Lemma Dir_rel_path cs c :
  Forall good (cs ++ [c]) → Dir (rel_path (cs ++ [c])) = if bool_decide (cs = []) then "." else rel_path cs.
Proof.
  intros H. unfold Dir, rel_path.
  assert (Split slash (Join sep (cs ++ [c])) = cs ++ [c]) as ->.
  { apply (Split_ups 0); [done|]. by destruct cs. }
  rewrite reverse_snoc. apply Forall_app in H as [Hcs _].
  destruct (reverse cs) as [|d ds] eqn:E.
  - apply (f_equal reverse) in E. rewrite reverse_involutive in E. subst. done.
  - assert (Hne : cs ≠ []) by (intros ->; done).
    rewrite bool_decide_false by done. rewrite <-E, reverse_involutive.
    unfold Clean. destruct (not_abs_ups 0 cs Hcs Hne) as [Ha Hn]. simpl in Ha, Hn.
    assert (Hsplit : Split slash (Join sep cs +:+ sep) = cs ++ [""]).
    { unfold sep. clear E. induction Hcs as [|x l Hx Hl IH]; [done|].
      destruct l as [|y l]; simpl.
      - destruct Hx as (?&?&?&?). by apply (Split_app_sep slash x "").
      - destruct Hx as (?&?&?&Hx). rewrite <-!string_app_assoc, string_app_cons, string_app_nil_l.
        rewrite (Split_app_sep slash x) by done. f_equal. apply IH; [done|..].
        + apply Forall_cons in Hl as [(?&?&?&?) Hl]. by apply Join_head_not_slash.
        + apply Join_eq_nil; [|done]. eapply Forall_impl; [exact Hl|]. by intros z (?&?&?&?). }
    assert (Habs : IsAbs (Join sep cs +:+ sep) = false).
    { apply not_true_is_false. intros [r Hr]%HasPrefix_spec. destruct (Join sep cs) as [|a s] eqn:Ej; [done|].
      rewrite string_app_cons in Hr. injection Hr as -> _. done. }
    rewrite bool_decide_false.
    2:{ destruct (Join sep cs); [done|]. by rewrite string_app_cons. }
    rewrite Habs, Hsplit. unfold clean_comps. rewrite foldl_app, (clean_fold_good false [] cs) by done.
    rewrite app_nil_r. cbn [foldl]. change (clean_step false (reverse cs) "") with (reverse cs).
    rewrite reverse_involutive, bool_decide_false by done. done.
Qed.
