(* ===== verification/Api.v ===== *)
(** * The wire messages of the Builder service ([pkg/api])

    The fields of the generated protobuf structs; a nil pointer or an unset [oneof] is
    [None], a [map[string]string] a [gmap].  A nil map and an empty one read alike in
    Go, so both are [∅]. *)

From S2P Require Import Prelude GoStrings.

Abbreviation smap := (gmap string string).

(** [m[key]]: the zero value when the key is absent. *)
Definition mget (m : smap) (k : string) : string := default "" (m !! k).

Inductive TransferDirection := INTO | OUTOF.

Record BuildTransfer := {
  bt_Id : string;
  bt_Direction : TransferDirection;
  bt_Source : option string;
  bt_Destination : option string;
  bt_Data : bytes;
  bt_Complete : bool;
  bt_IsDirectory : bool;
  bt_Metadata : smap;
}.

Record Platform := {
  p_Architecture : string;
  p_OS : string;
  p_OSVersion : string;
  p_OSFeatures : list string;
  p_Variant : string;
}.

Record Descriptor := {
  d_MediaType : string;
  d_Digest : string;
  d_Size : Z;
  d_Urls : list string;
  d_Annotations : smap;
  d_Platform : option Platform;
}.

Record ImageTransfer := {
  it_Id : string;
  it_Direction : TransferDirection;
  it_Tag : string;
  it_Descriptor : option Descriptor;
  it_Data : bytes;
  it_Complete : bool;
  it_Metadata : smap;
}.

Record RunCmd := { run_Id : string; run_Command : string }.

Inductive ClientPacket :=
| CSignal (signal : Z)
| CCommand (cmd : RunCmd)
| CBuildTransfer (bt : BuildTransfer)
| CImageTransfer (it : ImageTransfer).

Record ClientStream := {
  c_BuildId : string;
  c_PacketType : option ClientPacket;
}.

Definition GetBuildTransfer (c : ClientStream) : option BuildTransfer :=
  match c_PacketType c with Some (CBuildTransfer bt) => Some bt | _ => None end.
Definition GetImageTransfer (c : ClientStream) : option ImageTransfer :=
  match c_PacketType c with Some (CImageTransfer it) => Some it | _ => None end.
Definition GetCommand (c : ClientStream) : option RunCmd :=
  match c_PacketType c with Some (CCommand cmd) => Some cmd | _ => None end.

Inductive Stdio := STDIN | STDOUT | STDERR.

Record IO := { io_Type : Stdio; io_Data : bytes }.

Inductive ServerPacket :=
| SIo (io : IO)
| SBuildError (kind : Z) (message : string)
| SCommandComplete (id : string)
| SBuildTransfer (bt : BuildTransfer)
| SImageTransfer (it : ImageTransfer).

Record ServerStream := {
  s_BuildId : string;
  s_PacketType : option ServerPacket;
}.

#[export] Instance TransferDirection_eq_dec : EqDecision TransferDirection.
Proof. solve_decision. Defined.
#[export] Instance BuildTransfer_eq_dec : EqDecision BuildTransfer.
Proof. solve_decision. Defined.
#[export] Instance Platform_eq_dec : EqDecision Platform.
Proof. solve_decision. Defined.
#[export] Instance Descriptor_eq_dec : EqDecision Descriptor.
Proof. solve_decision. Defined.
#[export] Instance ImageTransfer_eq_dec : EqDecision ImageTransfer.
Proof. solve_decision. Defined.
#[export] Instance RunCmd_eq_dec : EqDecision RunCmd.
Proof. solve_decision. Defined.
#[export] Instance ClientPacket_eq_dec : EqDecision ClientPacket.
Proof. solve_decision. Defined.
#[export] Instance ClientStream_eq_dec : EqDecision ClientStream.
Proof. solve_decision. Defined.

(** ** Maps with a common key prefix *)

(** A loop [for k, v := range vals { m[p+k] = v }]. *)
Definition prefixed (p : string) (vals m : smap) : smap := map_fold (λ k v m, <[p +:+ k := v]> m) m vals.

Lemma prefixed_lookup p vals m key :
  prefixed p vals m !! key = match drop_prefix p key with
                             | Some k => match vals !! k with Some v => Some v | None => m !! key end
                             | None => m !! key end.
Proof.
  unfold prefixed. apply (map_fold_weak_ind (λ r (vals : smap), r !! key = match drop_prefix p key with
    | Some k => match vals !! k with Some v => Some v | None => m !! key end | None => m !! key end)).
  - destruct (drop_prefix p key); [by rewrite lookup_empty|done].
  - intros i x vs r Hi IH. destruct (decide (key = p +:+ i)) as [->|Hne].
    + rewrite lookup_insert_eq. rewrite (proj2 (drop_prefix_Some p _ i) eq_refl). by rewrite lookup_insert_eq.
    + rewrite lookup_insert_ne by congruence. rewrite IH. destruct (drop_prefix p key) as [k|] eqn:E; [|done].
      apply drop_prefix_Some in E as ->. rewrite lookup_insert_ne; [done|]. congruence.
Qed.
