(* ===== verification/OsFs.v ===== *)
(** * The file system the shim runs on

    A POSIX directory tree with hard links and symbolic links, and the operations of
    Go's [os] package the shim calls.  Path resolution follows symbolic links in every
    component but the last one (or in the last one too, for [Stat], [ReadFile] and
    [WriteFile]), at most 40 of them, as Linux does: what keeps the shim inside a
    directory has to be what the shim checks.  Mutations are recorded in a trace of
    the states the disk goes through, so that a crash can be placed between any two of
    them.  Devices, permissions and running out of space are not modelled. *)

From Stdlib Require Import Ascii.
From S2P Require Import Prelude GoStrings GoPath.

Abbreviation path := (list string).

Inductive dentry :=
| DDir (mode : Z)
| DFile (ino : nat)
| DSym (target : string)
| DOther.

#[export] Instance dentry_eq_dec : EqDecision dentry.
Proof. solve_decision. Defined.

Record fsys := {
  names : gmap path dentry;
  inodes : gmap nat (Z * bytes);
  next_ino : nat;
  cwd : path;
  umask : Z;
}.

Definition set_names (f : gmap path dentry → gmap path dentry) (fs : fsys) : fsys :=
  {| names := f (names fs); inodes := inodes fs; next_ino := next_ino fs; cwd := cwd fs; umask := umask fs |}.

Definition is_dir (d : dentry) : bool := match d with DDir _ => true | _ => false end.
Definition is_regular (d : dentry) : bool := match d with DFile _ => true | _ => false end.
Definition is_symlink (d : dentry) : bool := match d with DSym _ => true | _ => false end.

(** The root directory always exists. *)
Definition lookup_name (fs : fsys) (p : path) : option dentry :=
  match p with [] => Some (DDir 493) | _ => names fs !! p end.

(** ** Path resolution

    [namei follow budget fs cur cs] walks the components [cs] from the directory [cur]
    and returns the path of the object it ends at, which need not exist; [budget] is
    the number of symbolic links that may still be followed. *)

Fixpoint namei (follow : bool) (budget : nat) (fs : fsys) : path → list string → res path :=
  fix go (cur : path) (cs : list string) {struct cs} : res path :=
    match cs with
    | [] => Ok cur
    | c :: rest =>
        if bool_decide (c = "" ∨ c = ".") then go cur rest
        else if bool_decide (c = "..") then go (take (length cur - 1) cur) rest
        else
          let p := cur ++ [c] in
          match lookup_name fs p with
          | Some (DDir _) => go p rest
          | Some (DSym t) =>
              if bool_decide (rest = []) && negb follow then Ok p
              else match budget with
                   | O => Err (Errno ELOOP)
                   | S budget =>
                       namei follow budget fs (if IsAbs t then [] else cur) (Split slash t ++ rest)
                   end
          | Some _ => if bool_decide (rest = []) then Ok p else Err (Errno ENOTDIR)
          | None => if bool_decide (rest = []) then Ok p else Err (Errno ENOENT)
          end
    end.

Definition max_symlinks : nat := 40.

Definition resolve (follow : bool) (fs : fsys) (p : string) : res path :=
  if bool_decide (p = "") then Err (Errno ENOENT)
  else namei follow max_symlinks fs (if IsAbs p then [] else cwd fs) (Split slash p).

(** ** Reading *)

Definition stat (follow : bool) (fs : fsys) (p : string) : res dentry :=
  q ← resolve follow fs p;
  match lookup_name fs q with Some d => Ok d | None => Err (Errno ENOENT) end.

Definition os_Lstat : fsys → string → res dentry := stat false.
Definition os_Stat : fsys → string → res dentry := stat true.

Definition os_ReadFile (fs : fsys) (p : string) : res bytes :=
  d ← os_Stat fs p;
  match d with
  | DFile ino => match inodes fs !! ino with Some (_, data) => Ok data | None => Err (Errno EIO) end
  | DDir _ => Err (Errno EISDIR)
  | _ => Err (Errno EIO)
  end.

Definition os_Readlink (fs : fsys) (p : string) : res string :=
  d ← os_Lstat fs p;
  match d with DSym t => Ok t | _ => Err (Errno EINVAL) end.

(** ** Changing *)

(** Put a new entry at a path that must not exist. *)
Definition add_entry (fs : fsys) (p : string) (d : dentry) : res fsys :=
  q ← resolve false fs p;
  match lookup_name fs q with
  | Some _ => Err (Errno EEXIST)
  | None => Ok (set_names <[q := d]> fs)
  end.

Definition perm (fs : fsys) (mode : Z) : Z := Z.land mode (Z.lnot (umask fs)).

Definition os_Mkdir (fs : fsys) (p : string) (mode : Z) : res fsys :=
  add_entry fs p (DDir (perm fs mode)).

Definition os_Symlink (fs : fsys) (target p : string) : res fsys :=
  if bool_decide (target = "") then Err (Errno ENOENT) else add_entry fs p (DSym target).

(** [os.OpenFile(p, O_CREATE|O_WRONLY|O_EXCL, mode)] followed by writing [data] to the
    fresh inode and closing it.  One step: the moments at which the file is there with a part
    of its data are not states of their own; the name cannot be seen from a cache entry before
    the rename that publishes the directory it is in. *)
Definition os_CreateExcl (fs : fsys) (p : string) (mode : Z) (data : bytes) : res fsys :=
  fs' ← add_entry fs p (DFile (next_ino fs));
  Ok {| names := names fs'; inodes := <[next_ino fs := (perm fs mode, data)]> (inodes fs);
        next_ino := S (next_ino fs); cwd := cwd fs; umask := umask fs |}.

(** [link(2)]: the new name shares the inode; directories cannot be linked. *)
Definition os_Link (fs : fsys) (old new : string) : res fsys :=
  d ← os_Lstat fs old;
  match d with DDir _ => Err (Errno EINVAL) | _ => add_entry fs new d end.

(** Rewrite the data of a file that is open for writing. *)
Definition set_data (fs : fsys) (ino : nat) (f : bytes → bytes) : fsys :=
  {| names := names fs; inodes := alter (λ md, (md.1, f md.2)) ino (inodes fs);
     next_ino := next_ino fs; cwd := cwd fs; umask := umask fs |}.

(** [os.WriteFile]: create the file, or truncate the one that is there. *)
Definition os_WriteFile (fs : fsys) (p : string) (data : bytes) (mode : Z) : res fsys :=
  q ← resolve true fs p;
  match lookup_name fs q with
  | Some (DFile ino) => Ok (set_data fs ino (λ _, data))
  | Some (DDir _) => Err (Errno EISDIR)
  | Some _ => Err (Errno EIO)
  | None =>
      Ok {| names := <[q := DFile (next_ino fs)]> (names fs);
            inodes := <[next_ino fs := (perm fs mode, data)]> (inodes fs);
            next_ino := S (next_ino fs); cwd := cwd fs; umask := umask fs |}
  end.

(** [p] is below or at [q]. *)
Definition under (q p : path) : bool := bool_decide (q = take (length q) p).

(** [os.RemoveAll]: the entry and everything below it; no error when it is absent. *)
Definition os_RemoveAll (fs : fsys) (p : string) : res fsys :=
  match resolve false fs p with
  | Ok q => if bool_decide (q = []) then Err (Errno EINVAL)
            else Ok (set_names (filter (λ kd, under q kd.1 = false)) fs)
  | Err e => if os_IsNotExist e then Ok fs else Err e
  end.

(** Move the subtree at [a] to [b]. *)
Definition rename_path (a b p : path) : path := if under a p then b ++ drop (length a) p else p.
Definition move_tree (a b : path) (m : gmap path dentry) : gmap path dentry :=
  list_to_map ((λ kd, (rename_path a b kd.1, kd.2)) <$> map_to_list m).

(** [os.Rename] of a directory or file onto a path that does not exist.  [rename(2)]
    would also replace an empty directory or a file there; the shim removes the target
    first, so that case is the error it never meets. *)
Definition os_Rename (fs : fsys) (old new : string) : res fsys :=
  a ← resolve false fs old;
  b ← resolve false fs new;
  match lookup_name fs a with
  | None => Err (Errno ENOENT)
  | Some _ =>
      if under a b then Err (Errno EINVAL)
      else match lookup_name fs b with
           | Some _ => Err (Errno ENOTEMPTY)
           | None => Ok (set_names (move_tree a b) fs)
           end
  end.

(** [os.MkdirAll]: every prefix, creating the missing ones. *)
Definition mkdir_all_step (mode : Z) (fs : fsys) (p : string) : res fsys :=
  match os_Stat fs p with
  | Ok d => if is_dir d then Ok fs else Err (Errno ENOTDIR)
  | Err e => if os_IsNotExist e then os_Mkdir fs p mode else Err e
  end.

Definition path_prefixes (p : string) : list string :=
  let cs := Split slash p in
  (λ n, Join sep (take n cs)) <$> seq 1 (length cs).

Definition os_MkdirAll (fs : fsys) (p : string) (mode : Z) : res fsys :=
  res_fold (mkdir_all_step mode) fs (filter (λ s, s ≠ "") (path_prefixes p)).

(** ** The operations in sequence

    A computation reads and changes the disk; [trace] collects, newest first, the
    states the disk had before each change. *)

Record world := { disk : fsys; trace : list fsys }.

Definition osM (A : Type) : Type := world → world * res A.

#[export] Instance osM_ret : MRet osM := λ A a w, (w, Ok a).
#[export] Instance osM_bind : MBind osM := λ A B k m w,
  match m w with
  | (w', Ok a) => k a w'
  | (w', Err e) => (w', Err e)
  end.

Definition fail {A} (e : error) : osM A := λ w, (w, Err e).
Definition lift {A} (r : res A) : osM A := λ w, (w, r).
Definition reads {A} (f : fsys → res A) : osM A := λ w, (w, f (disk w)).
(** The outcome of a read as a value, for code that looks at the error itself. *)
Definition try_reads {A} (f : fsys → res A) : osM (res A) := λ w, (w, Ok (f (disk w))).
Definition mutate (f : fsys → res fsys) : osM unit := λ w,
  match f (disk w) with
  | Ok fs' => ({| disk := fs'; trace := disk w :: trace w |}, Ok tt)
  | Err e => (w, Err e)
  end.
(** [_ = op()]: the error of a cleanup is dropped. *)
Definition ignore {A} (m : osM A) : osM unit := λ w, ((m w).1, Ok tt).
(** Run [m], then [cleanup] whatever [m] returned, and return [m]'s result: [defer]. *)
Definition with_defer {A} (cleanup : osM unit) (m : osM A) : osM A := λ w,
  let '(w', r) := m w in ((cleanup w').1, r).
(** Run [m], and [cleanup] only if it failed. *)
Definition on_error {A} (cleanup : osM unit) (m : osM A) : osM A := λ w,
  match m w with
  | (w', Ok a) => (w', Ok a)
  | (w', Err e) => ((cleanup w').1, Err e)
  end.

Fixpoint osM_iter {A} (f : A → osM unit) (l : list A) : osM unit :=
  match l with [] => mret tt | x :: l => f x ≫= λ _, osM_iter f l end.

(** ** Facts about resolution *)

Lemma namei_nil follow b fs cur : namei follow b fs cur [] = Ok cur.
Proof. by destruct b. Qed.

Lemma namei_skip follow b fs cur c rest :
  c = "" ∨ c = "." → namei follow b fs cur (c :: rest) = namei follow b fs cur rest.
Proof. intros H. destruct b; simpl; by rewrite bool_decide_true. Qed.

Lemma namei_dir follow b fs cur c rest m :
  good c → lookup_name fs (cur ++ [c]) = Some (DDir m) →
  namei follow b fs cur (c :: rest) = namei follow b fs (cur ++ [c]) rest.
Proof.
  intros (?&?&?&?) Hl. destruct b; simpl; rewrite !bool_decide_false by naive_solver; by rewrite Hl.
Qed.

(** The last component is not looked through, unless it is a followed symbolic link. *)
Lemma namei_last follow b fs cur c :
  good c → (follow = true → ∀ t, lookup_name fs (cur ++ [c]) ≠ Some (DSym t)) →
  namei follow b fs cur [c] = Ok (cur ++ [c]).
Proof.
  intros (?&?&?&?) Hf.
  destruct b; simpl; rewrite !bool_decide_false by naive_solver;
    (destruct (lookup_name fs (cur ++ [c])) as [[]|] eqn:E; try done;
     destruct follow; [by edestruct Hf | done]).
Qed.

(** Every prefix of [p], and [p] itself, is a directory. *)
Definition real_dir (fs : fsys) (p : path) : Prop :=
  ∀ n, n ≤ length p → ∃ m, lookup_name fs (take n p) = Some (DDir m).

Lemma real_dir_nil fs : real_dir fs [].
Proof. intros n _. rewrite take_nil. by eexists. Qed.

Lemma real_dir_snoc fs p c :
  real_dir fs (p ++ [c]) ↔ real_dir fs p ∧ ∃ m, lookup_name fs (p ++ [c]) = Some (DDir m).
Proof.
  split.
  - intros H. split.
    + intros n Hn. specialize (H n). rewrite take_app_le in H by done.
      apply H. rewrite length_app. lia.
    + specialize (H (length (p ++ [c]))). rewrite firstn_all in H. by apply H.
  - intros [H [m Hm]] n Hn. rewrite length_app in Hn. simpl in Hn.
    destruct (decide (n ≤ length p)).
    + rewrite take_app_le by done. by apply H.
    + rewrite take_ge by (rewrite length_app; simpl; lia). eauto.
Qed.

Lemma real_dir_app_l fs p q : real_dir fs (p ++ q) → real_dir fs p.
Proof.
  intros H n Hn. specialize (H n). rewrite take_app_le in H by done. apply H.
  rewrite length_app. lia.
Qed.

Lemma real_dir_self fs p : real_dir fs p → ∃ m, lookup_name fs p = Some (DDir m).
Proof. intros H. specialize (H (length p)). rewrite firstn_all in H. by apply H. Qed.

(** Below real directories resolution is the identity. *)
Lemma namei_real follow b fs ds cs :
  Forall good cs → real_dir fs (ds ++ cs) → namei follow b fs ds cs = Ok (ds ++ cs).
Proof.
  intros Hcs. revert ds. induction Hcs as [|c cs Hc _ IH]; intros ds Hr.
  - by rewrite namei_nil, app_nil_r.
  - assert (real_dir fs (ds ++ [c])) as Hd.
    { apply (real_dir_app_l _ _ cs). by rewrite <-app_assoc. }
    apply real_dir_self in Hd as [m Hm]. rewrite (namei_dir _ _ _ _ _ _ m) by done.
    rewrite IH; by rewrite <-app_assoc.
Qed.

Lemma namei_app_real follow b fs cur ds rest :
  Forall good ds → real_dir fs (cur ++ ds) →
  namei follow b fs cur (ds ++ rest) = namei follow b fs (cur ++ ds) rest.
Proof.
  intros Hds. revert cur. induction Hds as [|d ds Hd _ IH]; intros cur Hr.
  - by rewrite app_nil_r.
  - assert (real_dir fs (cur ++ [d])) as Hd'.
    { apply (real_dir_app_l _ _ ds). by rewrite <-app_assoc. }
    apply real_dir_self in Hd' as [m Hm]. simpl. rewrite (namei_dir _ _ _ _ _ _ m) by done.
    rewrite IH; by rewrite <-app_assoc.
Qed.

Lemma resolve_abs_unfold follow fs cs :
  cs ≠ [] → Forall good cs → resolve follow fs (abs_path cs) = namei follow max_symlinks fs [] cs.
Proof.
  intros Hne Hcs. unfold resolve. rewrite bool_decide_false by done.
  rewrite IsAbs_abs_path, Split_abs_path by done. rewrite namei_skip by auto. done.
Qed.

Lemma resolve_in_real follow fs ds c :
  Forall good ds → good c → real_dir fs ds →
  (follow = true → ∀ t, lookup_name fs (ds ++ [c]) ≠ Some (DSym t)) →
  resolve follow fs (abs_path (ds ++ [c])) = Ok (ds ++ [c]).
Proof.
  intros Hds Hc Hr Hf. rewrite resolve_abs_unfold; [|by destruct ds|by apply Forall_app; auto].
  rewrite namei_app_real by done. by apply namei_last.
Qed.

Lemma Lstat_in_real fs ds c :
  Forall good ds → good c → real_dir fs ds →
  os_Lstat fs (abs_path (ds ++ [c])) =
    match names fs !! (ds ++ [c]) with Some d => Ok d | None => Err (Errno ENOENT) end.
Proof.
  intros. unfold os_Lstat, stat. rewrite resolve_in_real by done. simpl.
  unfold lookup_name. by destruct (ds ++ [c]) eqn:E; [destruct ds|].
Qed.

Lemma lookup_name_ne fs p : p ≠ [] → lookup_name fs p = names fs !! p.
Proof. by destruct p. Qed.

Lemma add_entry_in_real fs ds c d :
  Forall good ds → good c → real_dir fs ds →
  add_entry fs (abs_path (ds ++ [c])) d =
    match names fs !! (ds ++ [c]) with
    | Some _ => Err (Errno EEXIST) | None => Ok (set_names <[ds ++ [c] := d]> fs) end.
Proof.
  intros. unfold add_entry. rewrite resolve_in_real by done. simpl.
  by rewrite lookup_name_ne by by destruct ds.
Qed.

(** ** Growth

    [grows P fs fs'] : every name and every inode of [fs] is still there, unchanged, and
    the names that are new, with their entries, satisfy [P]. *)

Record grows (P : path → dentry → Prop) (fs fs' : fsys) : Prop := {
  grows_names : names fs ⊆ names fs';
  grows_new : ∀ p d, names fs !! p = None → names fs' !! p = Some d → P p d;
  grows_inodes : ∀ i, i < next_ino fs → inodes fs' !! i = inodes fs !! i;
  grows_next : next_ino fs ≤ next_ino fs';
  grows_env : cwd fs' = cwd fs ∧ umask fs' = umask fs;
}.

#[export] Instance grows_preorder P : PreOrder (grows P).
Proof.
  split.
  - intros fs. split; [done| |done|done|done]. by intros p d ->.
  - intros f1 f2 f3 [Hn1 Hw1 Hi1 Hx1 [Hc1 Hu1]] [Hn2 Hw2 Hi2 Hx2 [Hc2 Hu2]]. split.
    + by trans (names f2).
    + intros p d Hp Hs. destruct (names f2 !! p) as [d'|] eqn:E; [|by eapply Hw2].
      pose proof (lookup_weaken _ _ _ _ E Hn2). simplify_eq. by eapply Hw1.
    + intros i Hi. rewrite Hi2 by lia. by apply Hi1.
    + lia.
    + split; congruence.
Qed.

Lemma grows_lookup P fs fs' p d :
  grows P fs fs' → lookup_name fs p = Some d → lookup_name fs' p = Some d.
Proof. intros H. destruct p; [done|]. simpl. intros ?. eapply lookup_weaken; [done|apply H]. Qed.

Lemma grows_real_dir P fs fs' p : grows P fs fs' → real_dir fs p → real_dir fs' p.
Proof. intros H Hr n Hn. destruct (Hr n Hn) as [m Hm]. exists m. by eapply grows_lookup. Qed.

Lemma grows_weaken (P Q : path → dentry → Prop) fs fs' :
  (∀ p d, P p d → Q p d) → grows P fs fs' → grows Q fs fs'.
Proof. intros HPQ []. split; eauto. Qed.

Lemma grows_insert (P : path → dentry → Prop) fs p d :
  names fs !! p = None → P p d → grows P fs (set_names <[p := d]> fs).
Proof.
  intros Hp HP. split; simpl; [by apply insert_subseteq| |done|done|done].
  intros q d' Hq Hd'. rewrite lookup_insert in Hd'. case_decide; naive_solver.
Qed.

Lemma grows_create (P : path → dentry → Prop) fs p md :
  names fs !! p = None → P p (DFile (next_ino fs)) →
  grows P fs {| names := <[p := DFile (next_ino fs)]> (names fs);
                inodes := <[next_ino fs := md]> (inodes fs);
                next_ino := S (next_ino fs); cwd := cwd fs; umask := umask fs |}.
Proof.
  intros Hp HP. destruct (grows_insert P fs p (DFile (next_ino fs)) Hp HP) as [H1 H2 _ _ _].
  split; simpl in *; [done|done| |lia|done].
  intros i Hi. rewrite lookup_insert_ne; [done|lia].
Qed.

(** ** Triples

    [triple R P m Q]: from a disk that satisfies [P], the computation [m] goes only
    through disks related by the preorder [R] to the first one, and ends with a result
    and a disk that satisfy [Q]. *)

Definition traced (R : fsys → fsys → Prop) (w w' : world) : Prop :=
  R (disk w) (disk w') ∧
  ∃ l, trace w' = l ++ trace w ∧ Forall (R (disk w)) l.

Definition triple {A} (R : fsys → fsys → Prop) (P : fsys → Prop) (m : osM A)
    (Q : res A → fsys → Prop) : Prop :=
  ∀ w, P (disk w) → traced R w (m w).1 ∧ Q (m w).2 (disk (m w).1).

Section triple.
Context (R : fsys → fsys → Prop) `{!PreOrder R}.

Lemma traced_refl w : traced R w w.
Proof. split; [done|]. by exists []. Qed.

Lemma traced_trans w1 w2 w3 : traced R w1 w2 → traced R w2 w3 → traced R w1 w3.
Proof.
  intros [H12 (l & Hl & Fl)] [H23 (k & Hk & Fk)]. split; [by trans (disk w2)|].
  exists (k ++ l). rewrite Hk, Hl, app_assoc. split; [done|]. apply Forall_app. split; [|done].
  eapply Forall_impl; [exact Fk|]. intros fs ?. by trans (disk w2).
Qed.

Lemma triple_bind {A B} P (m : osM A) (k : A → osM B) Q S :
  triple R P m Q →
  (∀ a, triple R (Q (Ok a)) (k a) S) →
  (∀ e fs, Q (Err e) fs → S (Err e) fs) →
  triple R P (m ≫= k) S.
Proof.
  intros Hm Hk He w HP. destruct (Hm w HP) as [Ht HQ]. unfold mbind, osM_bind.
  destruct (m w) as [w' [a|e]]; simpl in *.
  - destruct (Hk a w' HQ) as [Ht' HS]. split; [by eapply traced_trans|done].
  - auto.
Qed.

Lemma triple_ret {A} (P : fsys → Prop) (a : A) (Q : res A → fsys → Prop) :
  (∀ fs, P fs → Q (Ok a) fs) → triple R P (mret a) Q.
Proof. intros H w HP. split; [apply traced_refl|]. simpl. auto. Qed.

Lemma triple_fail {A} (P : fsys → Prop) e (Q : res A → fsys → Prop) :
  (∀ fs, P fs → Q (Err e) fs) → triple R P (fail e) Q.
Proof. intros H w HP. split; [apply traced_refl|]. simpl. auto. Qed.

Lemma triple_lift {A} (P : fsys → Prop) (r : res A) (Q : res A → fsys → Prop) :
  (∀ fs, P fs → Q r fs) → triple R P (lift r) Q.
Proof. intros H w HP. split; [apply traced_refl|]. simpl. auto. Qed.

Lemma triple_reads {A} (P : fsys → Prop) (f : fsys → res A) (Q : res A → fsys → Prop) :
  (∀ fs, P fs → Q (f fs) fs) → triple R P (reads f) Q.
Proof. intros H w HP. split; [apply traced_refl|]. simpl. auto. Qed.

Lemma triple_try_reads {A} (P : fsys → Prop) (f : fsys → res A) (Q : res (res A) → fsys → Prop) :
  (∀ fs, P fs → Q (Ok (f fs)) fs) → triple R P (try_reads f) Q.
Proof. intros H w HP. split; [apply traced_refl|]. simpl. auto. Qed.

Lemma triple_mutate (P : fsys → Prop) f (Q : res unit → fsys → Prop) :
  (∀ fs fs', P fs → f fs = Ok fs' → R fs fs' ∧ Q (Ok tt) fs') →
  (∀ fs e, P fs → f fs = Err e → Q (Err e) fs) →
  triple R P (mutate f) Q.
Proof.
  intros Hok He w HP. unfold mutate. destruct (f (disk w)) as [fs'|e] eqn:E; simpl.
  - destruct (Hok _ _ HP E). split; [|done]. split; [done|]. exists [disk w]. by repeat constructor.
  - split; [apply traced_refl|]. eauto.
Qed.

Lemma triple_conseq {A} (P P' : fsys → Prop) (m : osM A) (Q Q' : res A → fsys → Prop) :
  triple R P' m Q' → (∀ fs, P fs → P' fs) → (∀ r fs, Q' r fs → Q r fs) → triple R P m Q.
Proof. intros H HP HQ w Hw. destruct (H w); auto. Qed.

Lemma triple_lift_bind {A B} P (r : res A) (k : A → osM B) Q :
  (∀ a, r = Ok a → triple R P (k a) Q) → (∀ e fs, r = Err e → P fs → Q (Err e) fs) →
  triple R P (lift r ≫= k) Q.
Proof.
  intros Hk He w HP. unfold mbind, osM_bind, lift. destruct r as [a|e].
  - by apply Hk.
  - split; [apply traced_refl|]. simpl. eauto.
Qed.

Lemma triple_bind_assoc {A B C} P (m : osM A) (f : A → osM B) (k : B → osM C) Q :
  triple R P ((m ≫= f) ≫= k) Q → triple R P (m ≫= λ a, f a ≫= k) Q.
Proof.
  intros H w HP. specialize (H w HP). unfold mbind, osM_bind in *. by destruct (m w) as [w' []].
Qed.

(** What the steps preserve can be added to the postcondition. *)
Lemma triple_persist {A} (P I : fsys → Prop) (m : osM A) Q :
  (∀ fs fs', R fs fs' → I fs → I fs') → (∀ fs, P fs → I fs) →
  triple R P m Q → triple R P m (λ r fs, I fs ∧ Q r fs).
Proof. intros HI HPI H w HP. destruct (H w HP) as [Ht HQ]. split; [done|]. split; [|done].
  eapply HI; [apply Ht|auto]. Qed.

(** An invariant kept by the body is kept by the loop. *)
Lemma triple_iter {A} (I : fsys → Prop) (f : A → osM unit) l :
  (∀ x, x ∈ l → triple R I (f x) (λ _, I)) → triple R I (osM_iter f l) (λ _, I).
Proof.
  induction l as [|x l IH]; intros Hf; simpl; [by apply triple_ret|].
  eapply triple_bind; [apply Hf, list_elem_of_here| |done].
  intros []. apply IH. intros y Hy. by apply Hf, list_elem_of_further.
Qed.
End triple.

(** ** [MkdirAll] on a directory that exists *)

Lemma resolve_real follow fs ds :
  ds ≠ [] → Forall good ds → real_dir fs ds → resolve follow fs (abs_path ds) = Ok ds.
Proof. intros. rewrite resolve_abs_unfold by done. by rewrite namei_real. Qed.

Lemma Stat_real follow fs ds :
  ds ≠ [] → Forall good ds → real_dir fs ds → ∃ m, stat follow fs (abs_path ds) = Ok (DDir m).
Proof.
  intros ? ? Hr. unfold stat. rewrite resolve_real by done. simpl.
  apply real_dir_self in Hr as [m ->]. eauto.
Qed.

Lemma path_prefixes_abs ds :
  ds ≠ [] → Forall good ds →
  filter (λ s, s ≠ "") (path_prefixes (abs_path ds)) = (λ n, abs_path (take n ds)) <$> seq 1 (length ds).
Proof.
  intros Hne Hds. unfold path_prefixes. rewrite Split_abs_path by done.
  change (seq 1 (length ("" :: ds))) with (1 :: seq 2 (length ds)). rewrite fmap_cons.
  rewrite filter_cons_False by naive_solver. rewrite <-(fmap_S_seq 1).
  assert (∀ l, Forall (λ n, 1 ≤ n) l →
    filter (λ s, s ≠ "") ((λ n, Join sep (take n ("" :: ds))) <$> (S <$> l)) =
    (λ n, abs_path (take n ds)) <$> l) as H.
  { intros l Hl. induction Hl as [|n l Hn _ IH]; [done|]. rewrite !fmap_cons.
    cbn [take]. rewrite Join_cons by (destruct n; [lia|]; by destruct ds).
    rewrite filter_cons_True by done. by f_equal. }
  apply H. apply Forall_seq. lia.
Qed.

Lemma MkdirAll_real fs ds mode :
  ds ≠ [] → Forall good ds → real_dir fs ds → os_MkdirAll fs (abs_path ds) mode = Ok fs.
Proof.
  intros Hne Hds Hr. unfold os_MkdirAll. rewrite path_prefixes_abs by done.
  assert (∀ l, Forall (λ n, 1 ≤ n ≤ length ds) l →
    res_fold (mkdir_all_step mode) fs ((λ n, abs_path (take n ds)) <$> l) = Ok fs) as H.
  { intros l Hl. induction Hl as [|n l Hn _ IH]; [done|]. rewrite fmap_cons. cbn [res_fold].
    assert (real_dir fs (take n ds)) as Hrn.
    { apply (real_dir_app_l _ _ (drop n ds)). by rewrite take_drop. }
    assert (mkdir_all_step mode fs (abs_path (take n ds)) = Ok fs) as ->; [|done].
    unfold mkdir_all_step, os_Stat.
    destruct (Stat_real true fs (take n ds)) as [m ->]; [|by apply Forall_take|done|done].
    destruct n; [lia|]. by destruct ds. }
  apply H, Forall_seq. lia.
Qed.

(** ** Subtrees *)

Lemma under_spec q p : under q p = true ↔ ∃ r, p = q ++ r.
Proof.
  unfold under. rewrite bool_decide_eq_true. split.
  - intros H. exists (drop (length q) p). rewrite H at 1. by rewrite take_drop.
  - intros [r ->]. by rewrite take_app_length.
Qed.

Lemma under_false q p : under q p = false ↔ ∀ r, p ≠ q ++ r.
Proof.
  rewrite <-not_true_iff_false, under_spec. naive_solver.
Qed.

Lemma under_app q r : under q (q ++ r) = true.
Proof. apply under_spec. eauto. Qed.

Lemma under_refl q : under q q = true.
Proof. apply under_spec. exists []. by rewrite app_nil_r. Qed.

(** Two different names of one directory have disjoint subtrees. *)
Lemma under_sibling bs x y r : x ≠ y → under (bs ++ [x]) (bs ++ [y] ++ r) = false.
Proof.
  intros Hxy. apply under_false. intros r' E. rewrite <-app_assoc in E. by simplify_list_eq.
Qed.

Lemma under_parent bs x n : under (bs ++ [x]) (take n bs) = false.
Proof.
  apply under_false. intros r E. apply (f_equal length) in E.
  rewrite length_take, !length_app in E. simpl in E. lia.
Qed.

Lemma rename_path_inj a b p p' :
  under b p = false → under b p' = false → rename_path a b p = rename_path a b p' → p = p'.
Proof.
  intros Hp Hp'. unfold rename_path.
  destruct (under a p) eqn:E, (under a p') eqn:E'; [..|done].
  - apply under_spec in E as [r ->]. apply under_spec in E' as [r' ->].
    rewrite !drop_app_length. intros ?. by simplify_list_eq.
  - intros <-. by rewrite under_app in Hp'.
  - intros ->. by rewrite under_app in Hp.
Qed.

(** After a move onto a free place, a path below the target is what was below the
    source, a path below the source is gone, and the others are as before. *)
Lemma lookup_move_tree (a b : path) (m : gmap path dentry) (p : path) :
  (∀ q d, m !! q = Some d → under b q = false) → under a b = false →
  move_tree a b m !! p =
    if under b p then m !! (a ++ drop (length b) p) else if under a p then None else m !! p.
Proof.
  intros Hb Hab. unfold move_tree.
  set (l := (λ kd : path * dentry, (rename_path a b kd.1, kd.2)) <$> map_to_list m).
  assert (Hnd : NoDup l.*1).
  { assert (l.*1 = rename_path a b <$> (map_to_list m).*1) as ->.
    { subst l. by rewrite <-!list_fmap_compose. }
    apply NoDup_fmap_2_strong; [|apply NoDup_fst_map_to_list].
    intros x y Hx Hy. apply list_elem_of_fmap in Hx as ([x' dx] & -> & Hx).
    apply list_elem_of_fmap in Hy as ([y' dy] & -> & Hy).
    apply elem_of_map_to_list in Hx, Hy. apply rename_path_inj; eauto. }
  assert (Hiff : ∀ d, list_to_map (M := gmap path dentry) l !! p = Some d ↔
    ∃ q, m !! q = Some d ∧ p = rename_path a b q).
  { intros d. rewrite <-elem_of_list_to_map by done. subst l. rewrite list_elem_of_fmap. split.
    - intros ([q d'] & [= -> ->] & Hq). exists q. by apply elem_of_map_to_list in Hq.
    - intros (q & Hq & ->). exists (q, d). split; [done|]. by apply elem_of_map_to_list. }
  apply option_eq. intros d. rewrite Hiff. clear Hiff Hnd. clearbody l. unfold rename_path.
  destruct (under b p) eqn:Ebp.
  - apply under_spec in Ebp as [r ->]. rewrite drop_app_length. split.
    + intros (q & Hq & E). destruct (under a q) eqn:Eq.
      * apply under_spec in Eq as [r' ->]. rewrite drop_app_length in E. by simplify_list_eq.
      * subst q. apply Hb in Hq. by rewrite under_app in Hq.
    + intros Hq. exists (a ++ r). rewrite under_app, drop_app_length. done.
  - destruct (under a p) eqn:Eap.
    + split; [|done]. intros (q & Hq & E). destruct (under a q) eqn:Eq.
      * subst p. by rewrite under_app in Ebp.
      * subst q. congruence.
    + split; [|intros; exists p; by rewrite Eap].
      intros (q & Hq & E). destruct (under a q) eqn:Eq; [|by subst].
      subst p. by rewrite under_app in Ebp.
Qed.

Lemma traced_weaken (R1 R2 : fsys → fsys → Prop) w w' :
  (∀ fs, R1 (disk w) fs → R2 (disk w) fs) → traced R1 w w' → traced R2 w w'.
Proof.
  intros H [H1 (l & Hl & HF)]. split; [auto|]. exists l. split; [done|].
  eapply Forall_impl; eauto.
Qed.

(** ** The disk is a tree *)

(** The disk is a tree of plain names whose files have data. *)
Record wf_disk (fs : fsys) : Prop := {
  wf_good p d : names fs !! p = Some d → p ≠ [] ∧ Forall good p;
  wf_parent p c d : names fs !! (p ++ [c]) = Some d → ∃ m, lookup_name fs p = Some (DDir m);
  wf_ino p ino : names fs !! p = Some (DFile ino) → is_Some (inodes fs !! ino) ∧ ino < next_ino fs;
}.

(** Real directories, from well-formedness. *)
Lemma wf_real_dir fs p m : wf_disk fs → lookup_name fs p = Some (DDir m) → real_dir fs p.
Proof.
  intros Hwf. revert m. induction p as [|c p IH] using rev_ind; intros m Hm; [apply real_dir_nil|].
  apply real_dir_snoc. split; [|eauto]. rewrite lookup_name_ne in Hm by by destruct p.
  destruct (wf_parent fs Hwf _ _ _ Hm) as [m' Hm']. by eapply IH.
Qed.
