(* ===== verification/TarUnpack.v ===== *)
(** * Unpacking a build context ([pkg/fileutils/tarxfer.go], [unpackTar])

    The archive is the sequence of headers and bodies that [archive/tar] yields; every
    path the code hands to the operating system is resolved there with symbolic links
    followed.  [unpackTar_confined] is the containment theorem: whatever the archive
    holds, and whether or not unpacking succeeds, the disk only grows, only below the
    destination, and never at a reserved name. *)

From Stdlib Require Import Ascii.
From S2P Require Import Prelude GoStrings GoPath OsFs.

Definition DockerfileStaging : string := ".com.apple.container".
Definition cacheCompletionMarker : string := ".container-builder-shim-complete".
Definition cacheCompletionValue : string := "complete" +:+ String (byte 10) "".

(** The type flags the code tells apart. *)
Inductive typeflag := TypeReg | TypeDir | TypeSymlink | TypeLink | TypeUnsupported.

Record tar_entry := {
  h_Name : string;
  h_Typeflag : typeflag;
  h_Linkname : string;
  h_Mode : Z;
  h_body : bytes;                 (* what [io.Copy] reads for this entry *)
  h_body_err : option error;      (* the error it stops at, if any *)
}.

(** The results of [tr.Next]: the entries, and the error that ends them ([None] is
    [io.EOF]). *)
Record archive := { a_entries : list tar_entry; a_end : option error }.

Definition tarTarget (dest name : string) : res string :=
  let clean := Clean name in
  if bool_decide (clean = ".") || negb (IsLocal clean)
  then Err (Errorf "invalid tar path: %s" [name])
  else if bool_decide (clean = DockerfileStaging) || HasPrefix clean (DockerfileStaging +:+ sep)
          || bool_decide (clean = cacheCompletionMarker)
  then Err (Errorf "cannot use reserved path: %s" [name])
  else Ok (path_Join [dest; clean]).

(** The loop of [ensurePathParent] over the directory components of the target. *)
Fixpoint ensure_components (current : string) (components : list string) : osM unit :=
  match components with
  | [] => mret tt
  | component :: components =>
      if bool_decide (component = ".") then ensure_components current components
      else
        let current := path_Join [current; component] in
        info ← try_reads (λ fs, os_Lstat fs current);
        match info with
        | Err e =>
            if os_IsNotExist e
            then mutate (λ fs, os_Mkdir fs current 493) ≫= λ _, ensure_components current components
            else fail e
        | Ok d =>
            if is_symlink d || negb (is_dir d)
            then fail (Errorf "tar path crosses a non-directory: %s" [current])
            else ensure_components current components
        end
  end.

Definition ensurePathParent (root target : string) : osM unit :=
  match Rel root target with
  | Ok relative =>
      if IsLocal relative then ensure_components root (Split slash (Dir relative))
      else fail (Errorf "invalid tar target: %s" [target])
  | Err _ => fail (Errorf "invalid tar target: %s" [target])
  end.

Definition ensureDirectory (root target : string) : osM unit :=
  ensurePathParent root target ≫= λ _,
  info ← try_reads (λ fs, os_Lstat fs target);
  match info with
  | Err e => if os_IsNotExist e then mutate (λ fs, os_Mkdir fs target 493) else fail e
  | Ok d => if is_symlink d || negb (is_dir d)
            then fail (Errorf "tar directory conflicts with existing path: %s" [target])
            else mret tt
  end.

Definition ensureNewPath (root target : string) : osM unit :=
  ensurePathParent root target ≫= λ _,
  info ← try_reads (λ fs, os_Lstat fs target);
  match info with
  | Ok _ => fail (Errorf "tar path already exists: %s" [target])
  | Err e => if os_IsNotExist e then mret tt else fail e
  end.

(** One iteration of the [unpackTar] loop, after [tr.Next]. *)
Definition unpack_entry (dest : string) (hdr : tar_entry) : osM unit :=
  target ← lift (tarTarget dest (h_Name hdr));
  match h_Typeflag hdr with
  | TypeDir => ensureDirectory dest target
  | TypeReg =>
      ensureNewPath dest target ≫= λ _,
      mutate (λ fs, os_CreateExcl fs target (Z.land (h_Mode hdr) 511) (h_body hdr)) ≫= λ _,
      match h_body_err hdr with Some e => fail e | None => mret tt end
  | TypeSymlink =>
      ensureNewPath dest target ≫= λ _,
      mutate (λ fs, os_Symlink fs (h_Linkname hdr) target)
  | TypeLink =>
      linkTarget ← lift (tarTarget dest (h_Linkname hdr));
      ensurePathParent dest linkTarget ≫= λ _,
      info ← reads (λ fs, os_Lstat fs linkTarget);
      if is_regular info
      then ensureNewPath dest target ≫= λ _, mutate (λ fs, os_Link fs linkTarget target)
      else fail (Errorf "hard link target is not a regular file: %s" [h_Linkname hdr])
  | TypeUnsupported => fail (Errorf "unsupported tar entry type for %s" [h_Name hdr])
  end.

(** The loop; [ctx i] is the error of the context when it is polled the [i]th time. *)
Fixpoint unpack_loop (ctx : nat → option error) (i : nat) (dest : string)
    (es : list tar_entry) (fin : option error) : osM unit :=
  match ctx i with
  | Some e => fail e
  | None =>
      match es with
      | [] => match fin with Some e => fail e | None => mret tt end
      | hdr :: es => unpack_entry dest hdr ≫= λ _, unpack_loop ctx (S i) dest es fin
      end
  end.

(** [tar_read] stands for [archive/tar]: what the reader yields for the bytes of a file. *)
Definition unpackTar (ctx : nat → option error) (tar_read : bytes → archive)
    (tarFile dest : string) : osM unit :=
  mutate (λ fs, os_MkdirAll fs dest 493) ≫= λ _,
  data ← reads (λ fs, os_ReadFile fs tarFile);
  unpack_loop ctx 0 dest (a_entries (tar_read data)) (a_end (tar_read data)).

(** ** Where an entry may land *)

(** The components of a name that [tarTarget] accepts. *)
Definition allowed (cs : path) : Prop :=
  cs ≠ [] ∧ Forall good cs ∧ head cs ≠ Some DockerfileStaging ∧ cs ≠ [cacheCompletionMarker].

(** New names are below [ds]; the marker's name can only become a directory (the parent
    of an entry), the staging directory's name cannot appear at all. *)
Definition inside (ds : path) (p : path) (d : dentry) : Prop :=
  ∃ cs, p = ds ++ cs ∧ cs ≠ [] ∧ Forall good cs ∧ head cs ≠ Some DockerfileStaging ∧
        (cs = [cacheCompletionMarker] → is_dir d = true).

(** [ds] names a real directory of the disk. *)
Definition dest_ok (ds : path) (fs : fsys) : Prop := ds ≠ [] ∧ Forall good ds ∧ real_dir fs ds.

Lemma staging_good : good DockerfileStaging.
Proof. by apply (bool_decide_unpack _). Qed.

Lemma marker_good : good cacheCompletionMarker.
Proof. by apply (bool_decide_unpack _). Qed.

Lemma rel_path_head_staging cs :
  cs ≠ [] → Forall good cs → head cs = Some DockerfileStaging →
  bool_decide (rel_path cs = DockerfileStaging) || HasPrefix (rel_path cs) (DockerfileStaging +:+ sep) = true.
Proof.
  intros Hne Hcs Hh. destruct cs as [|c cs]; [done|]. simplify_eq/=. destruct cs as [|c' cs].
  - by rewrite bool_decide_true.
  - apply orb_true_iff. right. apply HasPrefix_spec. exists (rel_path (c' :: cs)).
    unfold rel_path. rewrite Join_cons by done. by rewrite string_app_assoc.
Qed.

Lemma tarTarget_ok ds name t :
  ds ≠ [] → Forall good ds → tarTarget (abs_path ds) name = Ok t →
  ∃ cs, allowed cs ∧ Clean name = rel_path cs ∧ t = abs_path (ds ++ cs).
Proof.
  intros Hne Hds. unfold tarTarget. destruct (bool_decide _ || negb _) eqn:E1; [done|].
  apply orb_false_iff in E1 as [E1 E2]. apply bool_decide_eq_false in E1. apply negb_false_iff in E2.
  destruct (Clean_local name E1 E2) as (cs & Hcs & Hg & Hc). rewrite Hc.
  destruct (bool_decide _ || _ || _) eqn:E3; [done|]. apply orb_false_iff in E3 as [E3 E4].
  apply bool_decide_eq_false in E4. intros [= <-]. exists cs. split; [|split; [done|]].
  - split; [done|]. split; [done|]. split.
    + intros Hh. by rewrite (rel_path_head_staging cs) in E3.
    + intros ->. done.
  - by apply path_Join_abs.
Qed.

(** Completeness of the check: exactly the allowed names pass. *)
Lemma tarTarget_allowed ds cs :
  ds ≠ [] → Forall good ds → allowed cs → tarTarget (abs_path ds) (rel_path cs) = Ok (abs_path (ds ++ cs)).
Proof.
  intros Hne Hds (Hcs & Hg & Hh & Hm). unfold tarTarget.
  rewrite (Clean_rel_path cs), IsLocal_rel_path by done.
  assert (Hsp : Split slash (rel_path cs) = cs) by by apply (Split_ups 0).
  assert (∀ s, good s → rel_path cs = s → cs = [s]) as Hinj.
  { intros s (?&?&?&Hs) E. rewrite E in Hsp. by rewrite Split_nosep_id in Hsp. }
  rewrite bool_decide_false.
  2:{ intros E. rewrite E in Hsp. change (Split slash ".") with ["."] in Hsp. subst.
      apply Forall_cons in Hg as [(?&?&?&?) _]. done. }
  rewrite (bool_decide_false (_ = DockerfileStaging)), (bool_decide_false (_ = cacheCompletionMarker)).
  - assert (HasPrefix (rel_path cs) (DockerfileStaging +:+ sep) = false) as ->.
    { apply not_true_is_false. intros [r E]%HasPrefix_spec. rewrite E in Hsp.
      rewrite <-string_app_assoc in Hsp. unfold sep in Hsp. rewrite string_app_cons, string_app_nil_l in Hsp.
      rewrite (Split_app_sep slash) in Hsp by apply staging_good. by subst. }
    cbn [orb negb]. by rewrite path_Join_abs.
  - intros E%Hinj; [done|apply marker_good].
  - intros E%Hinj; [by subst|apply staging_good].
Qed.

(** ** What an unpacked entry leaves on the disk *)

(** The entry [hdr] is on the disk below [ds] as the archive describes it. *)
Definition placed (ds : path) (hdr : tar_entry) (fs : fsys) : Prop :=
  ∃ cs, allowed cs ∧ Clean (h_Name hdr) = rel_path cs ∧
  match h_Typeflag hdr with
  | TypeReg => ∃ ino, names fs !! (ds ++ cs) = Some (DFile ino) ∧ ino < next_ino fs ∧
      inodes fs !! ino = Some (perm fs (Z.land (h_Mode hdr) 511), h_body hdr) ∧ h_body_err hdr = None
  | TypeDir => ∃ m, names fs !! (ds ++ cs) = Some (DDir m)
  | TypeSymlink => names fs !! (ds ++ cs) = Some (DSym (h_Linkname hdr))
  | TypeLink => ∃ ls ino, allowed ls ∧ Clean (h_Linkname hdr) = rel_path ls ∧
      names fs !! (ds ++ ls) = Some (DFile ino) ∧ names fs !! (ds ++ cs) = Some (DFile ino)
  | TypeUnsupported => False
  end.

(** Growth of the disk keeps it there. *)
Lemma placed_grows P ds hdr fs fs' : grows P fs fs' → placed ds hdr fs → placed ds hdr fs'.
Proof.
  intros Hg (cs & Ha & Hc & H). exists cs. split; [done|]. split; [done|].
  assert (∀ p d, names fs !! p = Some d → names fs' !! p = Some d) as Hn.
  { intros p d Hp. eapply lookup_weaken; [done|apply Hg]. }
  destruct (h_Typeflag hdr); try naive_solver.
  destruct H as (ino & H1 & H2 & H3 & H4). exists ino. split; [auto|].
  pose proof (grows_next _ _ _ Hg). split; [lia|]. split; [|done].
  rewrite (grows_inodes _ _ _ Hg) by done. unfold perm. destruct (grows_env _ _ _ Hg) as [_ ->]. done.
Qed.

(** ** Containment *)

Section containment.
Context (ds : path) (Hne : ds ≠ []) (Hds : Forall good ds).

Abbreviation G := (grows (inside ds)).

Lemma path_Join_snoc p c : p ≠ [] → Forall good p → good c → path_Join [abs_path p; c] = abs_path (p ++ [c]).
Proof. intros. change c with (rel_path [c]) at 1. apply path_Join_abs; auto. Qed.

Lemma inside_prefix pre c m :
  Forall good pre → good c → head (pre ++ [c]) ≠ Some DockerfileStaging →
  inside ds (ds ++ pre ++ [c]) (DDir m).
Proof. intros ? ? Hh. exists (pre ++ [c]). split; [done|]. split; [by destruct pre|]. by rewrite Forall_app, Forall_singleton. Qed.

(** The parents of an entry end up real directories, and nothing else is created. *)
Lemma ensure_components_triple pre cs :
  Forall good (pre ++ cs) → head (pre ++ cs) ≠ Some DockerfileStaging →
  triple G (λ fs, real_dir fs (ds ++ pre)) (ensure_components (abs_path (ds ++ pre)) cs)
    (λ r fs, r = Ok tt → real_dir fs (ds ++ pre ++ cs)).
Proof.
  revert pre. induction cs as [|c cs IH]; intros pre Hg Hh.
  { apply triple_ret; [apply _|]. intros fs Hr _. by rewrite app_nil_r. }
  pose proof Hg as [Hpre Hcc]%Forall_app. apply Forall_cons in Hcc as [Hc _].
  rewrite (cons_middle c), app_assoc in Hg, Hh.
  cbn [ensure_components]. rewrite bool_decide_false by by destruct Hc as (?&?&?&?).
  assert (Hgp : Forall good (ds ++ pre)) by by apply Forall_app.
  rewrite path_Join_snoc by (try done; by destruct ds).
  assert (triple G (λ fs, real_dir fs (ds ++ pre ++ [c]))
    (ensure_components (abs_path (ds ++ pre ++ [c])) cs)
    (λ r fs, r = Ok tt → real_dir fs (ds ++ pre ++ c :: cs))) as Hrest.
  { rewrite (cons_middle c pre cs), (app_assoc pre). by apply (IH (pre ++ [c])). }
  rewrite <-app_assoc.
  eapply triple_bind; [apply _|apply (triple_try_reads G _ _
    (λ r fs, ∃ v, r = Ok v ∧ v = os_Lstat fs (abs_path (ds ++ pre ++ [c])) ∧ real_dir fs (ds ++ pre))); eauto| |].
  2:{ intros e fs (v & ? & _). done. }
  intros info. rewrite app_assoc. destruct info as [d|e].
  - destruct (is_symlink d || negb (is_dir d)) eqn:Ed; [by apply triple_fail; [apply _|]|].
    rewrite <-app_assoc. eapply triple_conseq; [exact Hrest| |done].
    intros fs (v & [= <-] & Hv & Hr). rewrite app_assoc in Hv |- *.
    rewrite Lstat_in_real in Hv by done. apply real_dir_snoc. split; [done|].
    rewrite lookup_name_ne by by destruct (ds ++ pre). destruct (names fs !! _) as [d'|]; [|done].
    injection Hv as ->. destruct d'; simpl in Ed; try done. eauto.
  - destruct (os_IsNotExist e); [|by apply triple_fail; [apply _|]].
    rewrite <-app_assoc.
    eapply triple_bind; [apply _|apply (triple_mutate G _ _
      (λ r fs, r = Ok tt → real_dir fs (ds ++ pre ++ [c]))); [|done]| |done].
    + intros fs fs' (v & [= <-] & Hv & Hr) Hmk. unfold os_Mkdir in Hmk. rewrite app_assoc in Hmk.
      rewrite add_entry_in_real in Hmk by done.
      destruct (names fs !! _) eqn:El; [done|]. injection Hmk as <-. split.
      * apply grows_insert; [done|]. rewrite <-app_assoc. apply inside_prefix; [done..|].
        by destruct pre.
      * intros _. rewrite app_assoc, real_dir_snoc. split.
        -- eapply grows_real_dir; [|done]. apply (grows_insert (λ _ _, True)); done.
        -- rewrite lookup_name_ne by by destruct (ds ++ pre). simpl. rewrite lookup_insert_eq. eauto.
    + intros []. eapply triple_conseq; [exact Hrest| |done]. by intros fs H; apply H.
Qed.

Lemma Split_Dir_rel init c :
  Forall good (init ++ [c]) →
  Split slash (Dir (rel_path (init ++ [c]))) = if bool_decide (init = []) then ["."] else init.
Proof.
  intros H. rewrite Dir_rel_path by done. case_bool_decide; [done|].
  apply (Split_ups 0); [|done]. by apply Forall_app in H as [? _].
Qed.

Lemma head_init (init : list string) c x : head (init ++ [c]) ≠ Some x → head init ≠ Some x.
Proof. by destruct init. Qed.

Lemma ensurePathParent_triple init c :
  Forall good (init ++ [c]) → head (init ++ [c]) ≠ Some DockerfileStaging →
  triple G (λ fs, real_dir fs ds) (ensurePathParent (abs_path ds) (abs_path (ds ++ init ++ [c])))
    (λ r fs, r = Ok tt → real_dir fs (ds ++ init)).
Proof.
  intros Hg Hh. unfold ensurePathParent.
  rewrite Rel_abs, IsLocal_rel_path by (try done; by destruct init).
  rewrite Split_Dir_rel by done. case_bool_decide; subst.
  - simpl. apply triple_ret; [apply _|]. intros fs Hr _. by rewrite app_nil_r.
  - pose proof (ensure_components_triple [] init) as H1. rewrite app_nil_r in H1. apply H1.
    + by apply Forall_app in Hg as [? _].
    + by eapply head_init.
Qed.

(** After [ensureNewPath] the parent is a real directory and the name is free. *)
Lemma ensureNewPath_triple init c :
  Forall good (init ++ [c]) → head (init ++ [c]) ≠ Some DockerfileStaging →
  triple G (λ fs, real_dir fs ds) (ensureNewPath (abs_path ds) (abs_path (ds ++ init ++ [c])))
    (λ r fs, r = Ok tt → real_dir fs (ds ++ init) ∧ names fs !! (ds ++ init ++ [c]) = None).
Proof.
  intros Hg Hh. unfold ensureNewPath.
  eapply triple_bind; [apply _|by apply ensurePathParent_triple| |done]. intros [].
  eapply triple_bind; [apply _|apply (triple_try_reads G _ _ (λ r fs, ∃ v, r = Ok v ∧
    v = os_Lstat fs (abs_path (ds ++ init ++ [c])) ∧ real_dir fs (ds ++ init)))| |].
  - eauto 10.
  - intros info. destruct info as [d|e]; [by apply triple_fail; [apply _|]|].
    destruct (os_IsNotExist e); [|by apply triple_fail; [apply _|]].
    apply triple_ret; [apply _|]. intros fs (v & [= <-] & Hv & Hr) _. split; [done|].
    apply Forall_app in Hg as [Hi [Hc _]%Forall_cons].
    rewrite app_assoc in Hv |- *. rewrite Lstat_in_real in Hv by (try done; by apply Forall_app).
    by destruct (names fs !! _).
  - intros e fs (v & ? & _). done.
Qed.

(** Adding an entry at a checked target. *)
Lemma add_entry_grows init c d fs fs' :
  Forall good (init ++ [c]) → head (init ++ [c]) ≠ Some DockerfileStaging →
  init ++ [c] ≠ [cacheCompletionMarker] ∨ is_dir d = true →
  real_dir fs (ds ++ init) → names fs !! (ds ++ init ++ [c]) = None →
  add_entry fs (abs_path (ds ++ init ++ [c])) d = Ok fs' →
  fs' = set_names <[ds ++ init ++ [c] := d]> fs ∧ inside ds (ds ++ init ++ [c]) d.
Proof.
  intros Hg Hh Hm Hr Hn H. pose proof Hg as [Hi [Hc _]%Forall_cons]%Forall_app.
  rewrite app_assoc in H, Hn |- *. rewrite add_entry_in_real in H by (try done; by apply Forall_app).
  rewrite Hn in H. injection H as <-. split; [done|]. rewrite <-app_assoc.
  exists (init ++ [c]). split; [done|]. split; [by destruct init|]. split; [done|]. split; [done|].
  naive_solver.
Qed.

Lemma allowed_snoc cs : allowed cs → ∃ init c, cs = init ++ [c].
Proof. intros (Hcs & _). destruct (exists_last Hcs) as (init & c & ->). eauto. Qed.

(** A mutation after [ensureNewPath] at an allowed target stays inside; [I] is what
    the caller wants to keep knowing until the mutation. *)
Lemma new_entry_triple (I : fsys → Prop) cs (f : fsys → res fsys) :
  (∀ fs fs', G fs fs' → I fs → I fs') → allowed cs →
  (∀ fs fs', f fs = Ok fs' → ∃ d fs1, add_entry fs (abs_path (ds ++ cs)) d = Ok fs1 ∧
     (fs' = fs1 ∨ d = DFile (next_ino fs) ∧ ∃ md,
        fs' = {| names := names fs1; inodes := <[next_ino fs := md]> (inodes fs);
                 next_ino := S (next_ino fs); cwd := cwd fs; umask := umask fs |})) →
  triple G (λ fs, real_dir fs ds ∧ I fs)
    (ensureNewPath (abs_path ds) (abs_path (ds ++ cs)) ≫= λ _, mutate f)
    (λ r fs', r = Ok tt → ∃ fs, I fs ∧ f fs = Ok fs' ∧ G fs fs' ∧
       ∀ d fs1, add_entry fs (abs_path (ds ++ cs)) d = Ok fs1 → fs1 = set_names <[ds ++ cs := d]> fs).
Proof.
  intros HI Ha Hf. destruct (allowed_snoc cs Ha) as (init & c & ->). destruct Ha as (_ & Hg & Hh & Hm).
  eapply (triple_bind _ _ _ _ (λ r fs, I fs ∧
    (r = Ok tt → real_dir fs (ds ++ init) ∧ names fs !! (ds ++ init ++ [c]) = None))); [| |by intros e fs [_ ?]].
  { apply triple_persist; [done|by intros fs [_ ?]|].
    eapply triple_conseq; [by apply ensureNewPath_triple|by intros fs [? _]|done]. }
  intros []. apply triple_mutate; [apply _| |done]. intros fs fs' [HIfs HP] E. destruct (HP eq_refl) as [Hr Hn].
  destruct (Hf _ _ E) as (d & fs1 & Hadd & Hcase).
  pose proof Hadd as [Hfs1 Hin]%add_entry_grows; [|by auto..].
  assert (G fs fs') as HG.
  { destruct Hcase as [->|(-> & md & ->)]; subst; [by apply grows_insert|by apply grows_create]. }
  split; [done|]. intros _. exists fs. split; [done|]. split; [done|]. split; [done|].
  pose proof Hg as [Hi [Hc _]%Forall_cons]%Forall_app.
  intros d' fs2. rewrite app_assoc. rewrite add_entry_in_real by (try done; by apply Forall_app).
  rewrite <-app_assoc, Hn. by intros [= <-].
Qed.

Lemma real_dir_persist fs fs' : G fs fs' → real_dir fs ds → real_dir fs' ds.
Proof. apply grows_real_dir. Qed.

Lemma ensureDirectory_triple cs :
  allowed cs →
  triple G (λ fs, real_dir fs ds) (ensureDirectory (abs_path ds) (abs_path (ds ++ cs)))
    (λ r fs, r = Ok tt → ∃ m, names fs !! (ds ++ cs) = Some (DDir m)).
Proof.
  intros Ha. destruct (allowed_snoc cs Ha) as (init & c & ->). destruct Ha as (_ & Hg & Hh & Hm).
  pose proof Hg as [Hi [Hc _]%Forall_cons]%Forall_app. unfold ensureDirectory.
  eapply triple_bind; [apply _|by apply ensurePathParent_triple| |done]. intros [].
  eapply triple_bind; [apply _|apply (triple_try_reads G _ _ (λ r fs, ∃ v, r = Ok v ∧
    v = match names fs !! (ds ++ init ++ [c]) with Some d => Ok d | None => Err (Errno ENOENT) end ∧
    real_dir fs (ds ++ init)))| |].
  { intros fs Hr. specialize (Hr eq_refl). eexists. split; [done|]. split; [|done].
    rewrite app_assoc. by rewrite Lstat_in_real by (try done; by apply Forall_app). }
  2:{ intros e fs (v & ? & _). done. }
  intros info. destruct info as [d|e].
  - destruct (is_symlink d || negb (is_dir d)) eqn:Ed; [by apply triple_fail; [apply _|]|].
    apply triple_ret; [apply _|]. intros fs (v & [= <-] & Hv & Hr) _.
    destruct (names fs !! _) as [d'|]; [|done]. injection Hv as ->. destruct d'; simpl in Ed; try done. eauto.
  - destruct (os_IsNotExist e); [|by apply triple_fail; [apply _|]].
    apply triple_mutate; [apply _| |done]. intros fs fs' (v & [= <-] & Hv & Hr) Hmk.
    destruct (names fs !! (ds ++ init ++ [c])) eqn:Hn; [done|].
    apply add_entry_grows in Hmk as [-> Hin]; [|by auto..].
    split; [by apply grows_insert|]. intros _. simpl. rewrite lookup_insert_eq. eauto.
Qed.

(** The name [ls] is a regular file below real directories. *)
Definition regular_at (init : path) (c : string) (ino : nat) (fs : fsys) : Prop :=
  real_dir fs (ds ++ init) ∧ names fs !! (ds ++ init ++ [c]) = Some (DFile ino).

Lemma regular_at_grows init c ino fs fs' :
  G fs fs' → regular_at init c ino fs → regular_at init c ino fs'.
Proof.
  intros Hg [Hr Hn]. split; [by eapply grows_real_dir|]. eapply lookup_weaken; [done|apply Hg].
Qed.

(** The new name of a hard link shares the inode of its target. *)
Lemma link_triple cs ls e0 :
  allowed cs → allowed ls →
  triple G (λ fs, real_dir fs ds)
    (ensurePathParent (abs_path ds) (abs_path (ds ++ ls)) ≫= λ _,
     info ← reads (λ fs, os_Lstat fs (abs_path (ds ++ ls)));
     if is_regular info
     then ensureNewPath (abs_path ds) (abs_path (ds ++ cs)) ≫= λ _,
          mutate (λ fs, os_Link fs (abs_path (ds ++ ls)) (abs_path (ds ++ cs)))
     else fail e0)
    (λ r fs, r = Ok tt → ∃ ino, names fs !! (ds ++ ls) = Some (DFile ino) ∧
                                names fs !! (ds ++ cs) = Some (DFile ino)).
Proof.
  intros Ha Hl. destruct (allowed_snoc ls Hl) as (init & c & ->). destruct Hl as (_ & Hlg & Hlh & _).
  pose proof Hlg as [Hi [Hc _]%Forall_cons]%Forall_app.
  assert (Hlst : ∀ fs, real_dir fs (ds ++ init) → os_Lstat fs (abs_path (ds ++ init ++ [c])) =
    match names fs !! (ds ++ init ++ [c]) with Some d => Ok d | None => Err (Errno ENOENT) end).
  { intros fs Hr. rewrite app_assoc. by rewrite Lstat_in_real by (try done; by apply Forall_app). }
  eapply (triple_bind _ _ _ _ (λ r fs, real_dir fs ds ∧ (r = Ok tt → real_dir fs (ds ++ init))));
    [|intros []|by intros e fs [_ ?]].
  { apply triple_persist; [apply real_dir_persist|done|]. by apply ensurePathParent_triple. }
  eapply (triple_bind _ _ _ _ (λ r fs, r = os_Lstat fs (abs_path (ds ++ init ++ [c])) ∧
    real_dir fs ds ∧ real_dir fs (ds ++ init))); [| |done].
  { apply triple_reads; [apply _|]. intros fs [? H]. auto. }
  intros info. destruct info as [m|ino|t|]; try by apply triple_fail; [apply _|]. cbn [is_regular].
  eapply triple_conseq; [apply (new_entry_triple (regular_at init c ino)); [apply regular_at_grows|done|]| |].
  - unfold os_Link. intros fs fs' (d & _ & Hd)%result_bind_ok. destruct d; try done; eauto.
  - intros fs (Hls & Hr & Hri). split; [done|]. split; [done|]. rewrite Hlst in Hls by done.
    by destruct (names fs !! _); simplify_eq.
  - intros r fs' H ->. destruct (H eq_refl) as (fs & [Hr Hn] & Hf & HG & Hadd).
    unfold os_Link in Hf. rewrite Hlst, Hn in Hf by done. simpl in Hf. apply Hadd in Hf as ->.
    exists ino. simpl. rewrite lookup_insert_eq. split; [|done].
    eapply lookup_weaken; [done|apply HG].
Qed.

Lemma unpack_entry_triple hdr :
  triple G (λ fs, real_dir fs ds) (unpack_entry (abs_path ds) hdr)
    (λ r fs, r = Ok tt → placed ds hdr fs).
Proof.
  unfold unpack_entry, placed. apply triple_lift_bind; [apply _| |done].
  intros target Ht. apply tarTarget_ok in Ht as (cs & Ha & Hcl & ->); [|done..].
  assert (∀ (Q : path → fsys → Prop) (m : osM unit),
    triple G (λ fs, real_dir fs ds) m (λ r fs, r = Ok tt → Q cs fs) →
    triple G (λ fs, real_dir fs ds) m
      (λ r fs, r = Ok tt → ∃ cs, allowed cs ∧ Clean (h_Name hdr) = rel_path cs ∧ Q cs fs)) as Hcs.
  { intros Q m H. eapply triple_conseq; [exact H|done|]. naive_solver. }
  assert (Hnew : ∀ fs : fsys, real_dir fs ds → real_dir fs ds ∧ True) by done.
  destruct (h_Typeflag hdr); apply (Hcs (λ cs fs, _)).
  - apply triple_bind_assoc.
    eapply triple_bind; [apply _|eapply triple_conseq; [apply (new_entry_triple (λ _, True) cs); [done..|]|done|
      intros r fs H; exact H]| |done].
    + intros fs fs' (fs1 & H1 & [= <-])%result_bind_ok. eexists _, fs1. split; [done|]. right. eauto.
    + intros []. destruct (h_body_err hdr) eqn:Eb; [by apply triple_fail; [apply _|]|].
      apply triple_ret; [apply _|]. intros fs' H _. destruct (H eq_refl) as (fs & _ & Hf & HG & Hadd).
      apply result_bind_ok in Hf as (fs1 & H1 & [= <-]). apply Hadd in H1 as ->.
      exists (next_ino fs). simpl. rewrite !lookup_insert_eq. unfold perm. simpl. split; [done|]. split; [lia|done].
  - by apply ensureDirectory_triple.
  - eapply triple_conseq; [apply (new_entry_triple (λ _, True) cs); [done..|]|done|].
    + unfold os_Symlink. intros fs fs'. case_bool_decide; [done|]. eauto.
    + intros r fs' H ->. destruct (H eq_refl) as (fs & _ & Hf & HG & Hadd). unfold os_Symlink in Hf.
      case_bool_decide; [done|]. apply Hadd in Hf as ->. simpl. by rewrite lookup_insert_eq.
  - apply triple_lift_bind; [apply _| |done].
    intros lt Ht. apply tarTarget_ok in Ht as (ls & Hl & Hcl' & ->); [|done..].
    eapply triple_conseq; [by apply (link_triple cs ls)|done|]. naive_solver.
  - by apply triple_fail; [apply _|].
Qed.

Lemma unpack_loop_triple ctx i es fin :
  triple G (λ fs, real_dir fs ds) (unpack_loop ctx i (abs_path ds) es fin)
    (λ r fs, r = Ok tt → Forall (λ h, placed ds h fs) es ∧ fin = None).
Proof.
  revert i. induction es as [|hdr es IH]; intros i; simpl;
    (destruct (ctx i); [by apply triple_fail; [apply _|]|]).
  - destruct fin; [by apply triple_fail; [apply _|]|by apply triple_ret; [apply _|]].
  - eapply (triple_bind _ _ _ _ (λ r fs, real_dir fs ds ∧ (r = Ok tt → placed ds hdr fs)));
      [|intros [] |by intros e fs [_ ?]].
    + apply triple_persist; [apply real_dir_persist|done|]. apply unpack_entry_triple.
    + eapply triple_conseq; [apply (triple_persist G (λ fs, real_dir fs ds ∧ placed ds hdr fs) (placed ds hdr))| |].
      * intros fs fs'. apply placed_grows.
      * by intros fs [_ ?].
      * eapply triple_conseq; [apply IH|by intros fs [? _]|done].
      * intros fs [? H]. auto.
      * intros r fs [Hp HF] Hr. destruct (HF Hr) as [HF' ->]. auto.
Qed.
End containment.

(** The whole of [unpackTar] on a destination that exists: the disk only grows inside it,
    and after success every entry of the archive in [tarFile] is in place. *)
Lemma unpackTar_spec ctx tar_read tarFile ds w :
  dest_ok ds (disk w) →
  let '(w', r) := unpackTar ctx tar_read tarFile (abs_path ds) w in
  traced (grows (inside ds)) w w' ∧
  (r = Ok tt → ∃ data, os_ReadFile (disk w) tarFile = Ok data ∧
     Forall (λ h, placed ds h (disk w')) (a_entries (tar_read data)) ∧ a_end (tar_read data) = None).
Proof.
  intros (Hne & Hds & Hr). unfold unpackTar, mbind, osM_bind, mutate, reads.
  rewrite MkdirAll_real by done. cbn [disk trace].
  assert (Ht1 : traced (grows (inside ds)) w {| disk := disk w; trace := disk w :: trace w |}).
  { split; [done|]. exists [disk w]. split; [done|]. by apply Forall_singleton. }
  destruct (os_ReadFile (disk w) tarFile) as [data|e]; [|by split].
  destruct (unpack_loop_triple ds Hne Hds ctx 0 (a_entries (tar_read data)) (a_end (tar_read data))
    {| disk := disk w; trace := disk w :: trace w |} Hr) as [Ht HQ].
  destruct (unpack_loop _ _ _ _ _ _) as [w' r]; simpl in *. split; [by eapply traced_trans; [apply _|..]|].
  intros ->. exists data. split; [done|]. by apply HQ.
Qed.

(** ** Properties *)

(** C1. Containment. Whatever the archive holds (absolute names, "..", symbolic links to
    anywhere followed by entries below them, hard links, broken bodies), whether or not
    unpacking succeeds, and even though the operating system follows symbolic links: at
    every moment of the run all names and files that were on the disk are unchanged, and
    every new name is strictly below the destination, never the Dockerfile staging
    directory, and the completion marker's name only as a directory. *)
Theorem unpackTar_confined (ctx : nat → option error) (tar_read : bytes → archive) (tarFile : string)
    (ds : path) (w : world) :
  dest_ok ds (disk w) →
  traced (grows (inside ds)) w (unpackTar ctx tar_read tarFile (abs_path ds) w).1.
Proof.
  intros H. pose proof (unpackTar_spec ctx tar_read tarFile ds w H) as Hs.
  destruct (unpackTar _ _ _ _ w). apply Hs.
Qed.

(** C7. Completeness of a successful unpack: the archive was read to its end and every
    entry is in place at the end: regular files with their exact content and permission
    bits, directories, symbolic links with their target, hard links sharing the inode of
    their target; no later entry has replaced or changed an earlier one. *)
Theorem unpackTar_complete (ctx : nat → option error) (tar_read : bytes → archive) (tarFile : string)
    (ds : path) (w w' : world) :
  dest_ok ds (disk w) → unpackTar ctx tar_read tarFile (abs_path ds) w = (w', Ok tt) →
  ∃ data, os_ReadFile (disk w) tarFile = Ok data ∧ a_end (tar_read data) = None ∧
    Forall (λ h, placed ds h (disk w')) (a_entries (tar_read data)).
Proof.
  intros H E. pose proof (unpackTar_spec ctx tar_read tarFile ds w H) as Hs. rewrite E in Hs.
  destruct Hs as [_ Hs]. destruct (Hs eq_refl) as (data & ? & ? & ?). eauto.
Qed.

(** C23. [tarTarget] accepts exactly the names whose cleaned form is a non-empty list of
    plain components that is not reserved, and maps it below the destination. *)
Theorem tarTarget_spec (ds : path) (name t : string) :
  ds ≠ [] → Forall good ds →
  tarTarget (abs_path ds) name = Ok t ↔
  ∃ cs, allowed cs ∧ Clean name = rel_path cs ∧ t = abs_path (ds ++ cs).
Proof.
  intros Hne Hds. split; [by apply tarTarget_ok|]. intros (cs & Ha & Hc & ->).
  pose proof (tarTarget_allowed ds cs Hne Hds Ha) as H. unfold tarTarget in *.
  rewrite Hc. destruct Ha as (? & ? & _). rewrite Clean_rel_path in H by done.
  by repeat case_match.
Qed.

(** *** A concrete disk and a hostile archive *)

Definition ex_disk : fsys :=
  {| names := {[ ["c"] := DDir 493; ["c"; "t"] := DDir 448; ["etc"] := DDir 493;
                 ["c"; ".context-1.tar"] := DFile 0 ]};
     inodes := {[ 0 := (384%Z, bytes_of "T") ]}; next_ino := 1; cwd := []; umask := 18 |}.
Definition ex_world : world := {| disk := ex_disk; trace := [] |}.

Definition ex_entry (name : string) (k : typeflag) (link body : string) : tar_entry :=
  {| h_Name := name; h_Typeflag := k; h_Linkname := link; h_Mode := 420; h_body := bytes_of body; h_body_err := None |}.

Definition ex_hostile (_ : bytes) : archive :=
  {| a_entries := [ex_entry "l" TypeSymlink "/etc" ""; ex_entry "l/passwd" TypeReg "" "x"]; a_end := None |}.
Definition ex_good (_ : bytes) : archive :=
  {| a_entries := [ex_entry "src/" TypeDir "" ""; ex_entry "src/a.go" TypeReg "" "package a";
                   ex_entry "b.go" TypeLink "src/a.go" ""; ex_entry "l" TypeSymlink "src" ""]; a_end := None |}.
Definition ex_ctx (_ : nat) : option error := None.

Lemma ex_real_dir1 : real_dir ex_disk ["c"].
Proof. intros [|[|n]] Hn; [by eexists|by eexists|simpl in Hn; lia]. Qed.

Lemma ex_dest_ok : dest_ok ["c"; "t"] ex_disk.
Proof.
  split; [done|]. split; [by repeat constructor; apply (bool_decide_unpack _)|].
  apply (real_dir_snoc _ ["c"]). split; [apply ex_real_dir1|by eexists].
Qed.

Lemma unpackTar_confined_witness :
  (unpackTar ex_ctx ex_hostile "/c/.context-1.tar" (abs_path ["c"; "t"]) ex_world).2
    = Err (Errorf "tar path crosses a non-directory: %s" ["/c/t/l"]) ∧
  traced (grows (inside ["c"; "t"])) ex_world
    (unpackTar ex_ctx ex_hostile "/c/.context-1.tar" (abs_path ["c"; "t"]) ex_world).1.
Proof.
  split; [vm_compute; reflexivity|].
  apply (unpackTar_confined ex_ctx ex_hostile "/c/.context-1.tar" ["c"; "t"] ex_world). exact ex_dest_ok.
Defined.

Lemma unpackTar_complete_witness :
  ∃ data, os_ReadFile ex_disk "/c/.context-1.tar" = Ok data ∧ a_end (ex_good data) = None ∧
    Forall (λ h, placed ["c"; "t"] h
      (disk (unpackTar ex_ctx ex_good "/c/.context-1.tar" (abs_path ["c"; "t"]) ex_world).1)) (a_entries (ex_good data)).
Proof.
  apply (unpackTar_complete ex_ctx ex_good "/c/.context-1.tar" ["c"; "t"] ex_world); [exact ex_dest_ok|].
  vm_compute. reflexivity.
Defined.

Lemma tarTarget_spec_witness :
  tarTarget (abs_path ["c"; "t"]) "a/./b/../x.go" = Ok "/c/t/a/x.go" ↔
  ∃ cs, allowed cs ∧ Clean "a/./b/../x.go" = rel_path cs ∧ "/c/t/a/x.go" = abs_path (["c"; "t"] ++ cs).
Proof.
  apply (tarTarget_spec ["c"; "t"]); [done|]. repeat constructor; by apply (bool_decide_unpack _).
Defined.
