(* ===== verification/FileInfo.v ===== *)
(** * File metadata ([pkg/fileutils/file_info.go])

    [FileInfo], its [Sys] view for BuildKit, the sort order of [FileInfos] and the
    transformer that decodes the host's metadata strings.  A [time.Time] is its Unix
    time in nanoseconds; [time.Parse(time.RFC3339, s)] is the parameter [parse_time]. *)

From Stdlib Require Import Ascii.
From S2P Require Import Prelude GoStrings Api.

Record FileInfo := {
  NameVal : string;
  SizeVal : Z;
  ModeVal : Z;
  ModTimeVal : Z;
  IsDirVal : bool;
  Uid : Z;
  Gid : Z;
  LinkName : string;
}.

#[export] Instance FileInfo_eq_dec : EqDecision FileInfo.
Proof. solve_decision. Defined.

(** [fsutil/types.Stat], the fields [Sys] sets; the others are zero. *)
Record Stat := {
  st_Path : string;
  st_Mode : Z;
  st_Uid : Z;
  st_Gid : Z;
  st_ModTime : Z;
  st_Linkname : string;
}.

#[export] Instance Stat_eq_dec : EqDecision Stat.
Proof. solve_decision. Defined.

Definition Sys (f : FileInfo) : Stat :=
  {| st_Path := NameVal f; st_Mode := u32 (ModeVal f); st_Uid := Uid f; st_Gid := Gid f;
     st_ModTime := wrap64 (ModTimeVal f); st_Linkname := LinkName f |}.

(** The methods of [fs.FileInfo]. *)
Definition Name (f : FileInfo) : string := NameVal f.
Definition Size (f : FileInfo) : Z := SizeVal f.
Definition Mode (f : FileInfo) : Z := ModeVal f.
Definition ModTime (f : FileInfo) : Z := ModTimeVal f.
Definition IsDir (f : FileInfo) : bool := IsDirVal f.

Definition Len (f : list FileInfo) : nat := length f.

(** [FileInfos.Less] and [FileInfos.Swap] *)
Definition Less (f : list FileInfo) (i j : nat) : option bool :=
  a ← f !! i; b ← f !! j; Some (String.ltb (NameVal a) (NameVal b)).

Definition Swap (f : list FileInfo) (i j : nat) : option (list FileInfo) :=
  a ← f !! i; b ← f !! j; Some (<[j := a]> (<[i := b]> f)).

Section transformer.
Context (parse_time : string → res Z).

(** A missing size is 0; a size that is present is parsed, even when it is empty. *)
Definition TransformSize (metadata : smap) : res Z :=
  match metadata !! "size" with Some s => ParseInt s | None => Ok 0%Z end.

Definition transform_u32 (key : string) (metadata : smap) : res Z :=
  let s := mget metadata key in
  if bool_decide (s = "") then Ok 0%Z else v ← ParseUint s 32; Ok (u32 v).

Definition TransformFileMode (metadata : smap) : res Z :=
  let s := mget metadata "mode" in
  if bool_decide (s = "") then Ok 0%Z else v ← ParseUint s 32; Ok (u32 v).
Definition TransformUID : smap → res Z := transform_u32 "uid".
Definition TransformGID : smap → res Z := transform_u32 "gid".

(** The zero [time.Time] is year 1; [zero_time] is its Unix time in nanoseconds as
    [UnixNano] computes it, wrapped to 64 bits. *)
Definition zero_time : Z := wrap64 (-62135596800 * 1000000000).

Definition TransformModTime (metadata : smap) : res Z :=
  let s := mget metadata "modified_at" in
  if bool_decide (s = "") then Ok zero_time else parse_time s.

Definition TransformLinkName (metadata : smap) : string := mget metadata "target".

(** [*it.Source] panics on a nil pointer: [None]. *)
Definition TransformIntoFileInfo (it : BuildTransfer) : option (res FileInfo) :=
  let md := bt_Metadata it in
  match
    (size ← TransformSize md;
     mode ← TransformFileMode md;
     mtime ← TransformModTime md;
     uid ← TransformUID md;
     gid ← TransformGID md;
     Ok (size, mode, mtime, uid, gid))
  with
  | Err e => Some (Err e)
  | Ok (size, mode, mtime, uid, gid) =>
      src ← bt_Source it;
      Some (Ok {| NameVal := src; SizeVal := size; ModeVal := mode; ModTimeVal := mtime;
                  IsDirVal := bt_IsDirectory it; Uid := uid; Gid := gid;
                  LinkName := TransformLinkName md |})
  end.

(** The metadata the host sends for a file, as the wire format documents it. *)
Definition host_metadata (f : FileInfo) (mtime : string) : smap :=
  {[ "size" := FormatInt (SizeVal f); "mode" := FormatInt (ModeVal f); "modified_at" := mtime;
     "uid" := FormatInt (Uid f); "gid" := FormatInt (Gid f); "target" := LinkName f ]}.

Definition in_u32 (z : Z) : Prop := (0 ≤ z < 2^32)%Z.

Lemma FormatInt_nonempty z : FormatInt z ≠ "".
Proof.
  unfold FormatInt. destruct z as [|p|p]; [done| |done].
  change (pretty (Z.pos p)) with (pretty (N.pos p)).
  destruct (pretty_N_nonempty (N.pos p)) as (a & s & -> & _). done.
Qed.

Lemma ParseUint_FormatInt z : in_u32 z → ParseUint (FormatInt z) 32 = Ok z.
Proof.
  intros Hz. unfold in_u32 in Hz. destruct z as [|p|p]; [..|lia].
  - apply (ParseUint_pretty 0%N). lia.
  - apply (ParseUint_pretty (N.pos p)). simpl. lia.
Qed.

Lemma transform_u32_FormatInt key md z :
  in_u32 z → md !! key = Some (FormatInt z) → transform_u32 key md = Ok z.
Proof.
  intros Hz Hk. unfold transform_u32, mget. rewrite Hk. simpl.
  rewrite bool_decide_false by apply FormatInt_nonempty.
  rewrite ParseUint_FormatInt by done. simpl. unfold u32. by rewrite Z.mod_small.
Qed.

Lemma transform_u32_range key md v : transform_u32 key md = Ok v → in_u32 v.
Proof.
  unfold transform_u32, in_u32. case_bool_decide; [intros [= <-]; lia|].
  intros (n & Hn & [= <-])%result_bind_ok. apply u32_range.
Qed.
End transformer.

(** ** Properties *)

(** C26. Round trip of file metadata: what the host prints for a file in the documented
    wire format (decimal size, mode, uid and gid, an RFC 3339 time that parses to the
    file's time, the link target) is decoded to the same [FileInfo], for every 64-bit
    size and every 32-bit mode and id. *)
Theorem TransformIntoFileInfo_roundtrip (parse_time : string → res Z) (f : FileInfo) (mtime : string)
    (it : BuildTransfer) :
  in_int64 (SizeVal f) → in_u32 (ModeVal f) → in_u32 (Uid f) → in_u32 (Gid f) →
  mtime ≠ "" → parse_time mtime = Ok (ModTimeVal f) →
  bt_Source it = Some (NameVal f) → bt_IsDirectory it = IsDirVal f → bt_Metadata it = host_metadata f mtime →
  TransformIntoFileInfo parse_time it = Some (Ok f).
Proof.
  intros Hs Hm Hu Hg Ht Hp Hsrc Hd Hmd. unfold TransformIntoFileInfo. rewrite Hmd, Hsrc, Hd.
  unfold TransformSize, TransformModTime, TransformLinkName, TransformUID, TransformGID.
  change (TransformFileMode (host_metadata f mtime)) with (transform_u32 "mode" (host_metadata f mtime)).
  unfold host_metadata at 1. simplify_map_eq. rewrite ParseInt_FormatInt by done. simpl.
  rewrite (transform_u32_FormatInt "mode" _ (ModeVal f)) by (try done; by unfold host_metadata; simplify_map_eq).
  assert (mget (host_metadata f mtime) "modified_at" = mtime) as -> by (unfold mget, host_metadata; by simplify_map_eq).
  assert (mget (host_metadata f mtime) "target" = LinkName f) as -> by (unfold mget, host_metadata; by simplify_map_eq).
  rewrite bool_decide_false, Hp by done.
  rewrite (transform_u32_FormatInt "uid" _ (Uid f)) by (try done; by unfold host_metadata; simplify_map_eq).
  rewrite (transform_u32_FormatInt "gid" _ (Gid f)) by (try done; by unfold host_metadata; simplify_map_eq).
  by destruct f.
Qed.

Definition sample_info : FileInfo :=
  {| NameVal := "app/main.go"; SizeVal := 1234; ModeVal := 420; ModTimeVal := 1700000000000000000;
     IsDirVal := false; Uid := 501; Gid := 20; LinkName := "" |}.
Definition sample_time (s : string) : res Z :=
  if bool_decide (s = "2023-11-14T22:13:20Z") then Ok 1700000000000000000%Z else Err (Errorf "time" [s]).
Definition sample_transfer : BuildTransfer :=
  {| bt_Id := "1"; bt_Direction := INTO; bt_Source := Some "app/main.go"; bt_Destination := None;
     bt_Data := []; bt_Complete := true; bt_IsDirectory := false;
     bt_Metadata := host_metadata sample_info "2023-11-14T22:13:20Z" |}.

Lemma TransformIntoFileInfo_roundtrip_witness :
  TransformIntoFileInfo sample_time sample_transfer = Some (Ok sample_info).
Proof.
  apply (TransformIntoFileInfo_roundtrip sample_time sample_info "2023-11-14T22:13:20Z" sample_transfer);
    try reflexivity; try (unfold in_int64, min_int64, max_int64, in_u32; simpl; lia); done.
Defined.


