(* ===== verification/TarCache.v ===== *)
(** * The content-addressed context cache ([pkg/fileutils/tarxfer.go])

    Digest validation, the completion check, the staged archive and its hash, and the
    publication of an unpacked context under its digest.  The file lock of
    [github.com/gofrs/flock], the SHA-256 function and the tar reader are parameters.
    Random names of temporary files are given as the list of candidates the generator
    yields. *)

From Stdlib Require Import Ascii.
From S2P Require Import Prelude GoStrings GoPath OsFs TarUnpack.

Definition ErrInvalidContextDigest : error := Sentinel "ErrInvalidContextDigest".

Definition validateContextDigest (unicode_lower : string → string) (checksum : string) : res unit :=
  if negb (bool_decide (String.length checksum = 64)) || negb (bool_decide (ToLower unicode_lower checksum = checksum))
  then Err ErrInvalidContextDigest
  else match hex_DecodeString checksum with
       | Ok decoded => if bool_decide (length decoded = 32) then Ok tt else Err ErrInvalidContextDigest
       | Err _ => Err ErrInvalidContextDigest
       end.

Definition checkCache (fs : fsys) (cachePath : string) : res bool :=
  match os_Lstat fs cachePath with
  | Err e => if os_IsNotExist e then Ok false else Err e
  | Ok fi =>
      if negb (is_dir fi) then Err (Errorf "cache path is not a directory: %s" [cachePath])
      else
        let markerPath := path_Join [cachePath; cacheCompletionMarker] in
        match os_Lstat fs markerPath with
        | Err e => if os_IsNotExist e then Ok false else Err e
        | Ok markerInfo =>
            if negb (is_regular markerInfo)
            then Err (Errorf "cache completion marker is not a regular file: %s" [markerPath])
            else marker ← os_ReadFile fs markerPath;
                 Ok (bool_decide (string_of marker = cacheCompletionValue))
        end
  end.

Definition CachedContextPresent (unicode_lower : string → string) (fs : fsys) (cacheBase checksum : string) : res bool :=
  _ ← validateContextDigest unicode_lower checksum;
  checkCache fs (path_Join [cacheBase; checksum]).

(** ** Temporary names

    [os.MkdirTemp] and [os.CreateTemp] try [dir/prefix<random>suffix] until one is new. *)

Definition temp_name (dir prefix rnd suffix : string) : string := dir +:+ sep +:+ prefix +:+ rnd +:+ suffix.

Fixpoint os_MkdirTemp (rnds : list string) (dir prefix suffix : string) : osM string :=
  match rnds with
  | [] => fail (Errno EEXIST)
  | rnd :: rnds => λ w,
      let name := temp_name dir prefix rnd suffix in
      match os_Mkdir (disk w) name 448 with
      | Ok fs' => ({| disk := fs'; trace := disk w :: trace w |}, Ok name)
      | Err e => if bool_decide (e = Errno EEXIST) then os_MkdirTemp rnds dir prefix suffix w else (w, Err e)
      end
  end.

Fixpoint os_CreateTemp (rnds : list string) (dir prefix suffix : string) (data : bytes) : osM string :=
  match rnds with
  | [] => fail (Errno EEXIST)
  | rnd :: rnds => λ w,
      let name := temp_name dir prefix rnd suffix in
      match os_CreateExcl (disk w) name 384 data with
      | Ok fs' => ({| disk := fs'; trace := disk w :: trace w |}, Ok name)
      | Err e => if bool_decide (e = Errno EEXIST) then os_CreateTemp rnds dir prefix suffix data w else (w, Err e)
      end
  end.

(** [os.RemoveAll] is not atomic: the entries of [order] that lie below the path are
    unlinked one after the other before the rest goes. *)
Definition unlink_below (q p : path) (fs : fsys) : res fsys :=
  Ok (if under q p then set_names (delete p) fs else fs).

Definition remove_all (order : list path) (p : string) : osM unit := λ w,
  match resolve false (disk w) p with
  | Ok q => (osM_iter (λ x, mutate (unlink_below q x)) order ≫= λ _,
             mutate (λ fs, if bool_decide (q = []) then Err (Errno EINVAL)
                           else Ok (set_names (filter (λ kd, under q kd.1 = false)) fs))) w
  | Err e => (w, if os_IsNotExist e then Ok tt else Err e)
  end.

(** ** Staging the archive *)

(** [writeTar]: the first chunk goes to a fresh file. *)
Definition writeTar (rnds : list string) (base : string) (data : bytes) : osM string :=
  os_CreateTemp rnds base ".context-" ".tar" data.

(** The append of one chunk by [readTarBody].  The code appends through a descriptor that it
    opens once; the model finds the file by its name each time, which is the same file as long
    as nothing renames it, and in this transfer nothing does. *)
Definition append_chunk (p : string) (d : bytes) (fs : fsys) : res fsys :=
  x ← os_Stat fs p;
  match x with
  | DFile ino => Ok (set_data fs ino (λ old, old ++ d))
  | DDir _ => Err (Errno EISDIR)
  | _ => Err (Errno EIO)
  end.

(** ** Publication *)

(** What the code relies on of the file lock: trying it opens the lock file, which follows a
    symbolic link; so when the path is not one, and its directory is a real one, it may create
    the file at that path and leaves everything else alone.  The disk stays a tree. *)
Class FileLock := {
  try_lock : string → osM bool;
  try_lock_touches ds c w :
    Forall good ds → good c → real_dir (disk w) ds →
    (∀ t, os_Lstat (disk w) (abs_path (ds ++ [c])) ≠ Ok (DSym t)) →
    traced (grows (λ p d, p = ds ++ [c] ∧ ∃ ino, d = DFile ino)) w (try_lock (abs_path (ds ++ [c])) w).1;
  try_lock_tree p w : wf_disk (disk w) → wf_disk (disk (try_lock p w).1);
}.

Section publish.
Context `{!FileLock}.
Context (sha256 : bytes → bytes) (tar_read : bytes → archive).

Definition verifyTarHash (fs : fsys) (path checksum : string) : res unit :=
  data ← os_ReadFile fs path;
  let actual := hex_EncodeToString (sha256 data) in
  if bool_decide (actual = checksum) then Ok tt
  else Err (Errorf "tar checksum mismatch: expected %s, got %s" [checksum; actual]).

(** What [publishTar] does once it has a temporary directory. *)
Definition fill_and_rename (ctx : nat → option error) (tarFile tempDir cacheDir : string) : osM unit :=
  unpackTar ctx tar_read tarFile tempDir ≫= λ _,
  mutate (λ fs, os_WriteFile fs (path_Join [tempDir; cacheCompletionMarker]) (bytes_of cacheCompletionValue) 384) ≫= λ _,
  mutate (λ fs, os_Rename fs tempDir cacheDir).

(** [publishTar]; [order1] and [order2] are the orders in which the two removals unlink. *)
Definition publishTar (ctx : nat → option error) (rnds : list string) (order1 order2 : list path)
    (tarFile cacheDir cacheBase : string) : osM unit :=
  let lockPath := cacheDir +:+ ".lock" in
  info ← try_reads (λ fs, os_Lstat fs lockPath);
  match info with
  | Ok (DSym _) => fail (Errorf "cache lock path is a symlink: %s" [lockPath])
  | _ =>
      match info with
      | Err e => if os_IsNotExist e then mret tt else fail e
      | Ok _ => mret tt
      end ≫= λ _,
      locked ← try_lock lockPath;
      if negb locked then fail (Errorf "failed to acquire cache lock for %s" [cacheDir])
      else
        cached ← reads (λ fs, checkCache fs cacheDir);
        if (cached : bool) then mret tt
        else
          remove_all order1 cacheDir ≫= λ _,
          tempDir ← os_MkdirTemp rnds cacheBase ".context-" "";
          on_error (ignore (remove_all order2 tempDir))
            (fill_and_rename ctx tarFile tempDir cacheDir)
  end.
End publish.

(** ** Digests *)

Definition hex_ok (n : N) : bool :=
  match hex_val (byte n) with
  | Some x => bool_decide (x < 16)%N && is_ascii_byte (byte n) &&
      implb (bool_decide (lower_byte (byte n) = byte n)) (bool_decide (byte n = hex_digit x))
  | None => true
  end.

Lemma hex_val_spec a x :
  hex_val a = Some x →
  (x < 16)%N ∧ is_ascii_byte a = true ∧ (lower_byte a = a → a = hex_digit x).
Proof.
  intros Hx. assert (H : hex_ok (N_of_ascii a) = true).
  { apply (forall_N_below hex_ok 256); [by vm_compute|]. apply N_of_ascii_lt. }
  unfold hex_ok in H. rewrite byte_N_of_ascii, Hx in H.
  apply andb_true_iff in H as [[H1 H2]%andb_true_iff H3]. apply bool_decide_eq_true in H1.
  split; [done|]. split; [done|]. intros Hl. rewrite bool_decide_true in H3 by done.
  by apply bool_decide_eq_true in H3.
Qed.

(** Decoding a lower case string and encoding it again gives it back. *)
Lemma hex_Encode_Decode n s b :
  String.length s ≤ n → hex_DecodeString s = Ok b →
  is_ascii s = true ∧ (ascii_lower s = s → s = hex_EncodeToString b).
Proof.
  revert s b. induction n as [|n IH]; intros [|x [|y s]] b Hn H; simpl in Hn; try lia; try by simplify_eq/=.
  { simpl in H. by destruct (hex_val x). }
  cbn [hex_DecodeString] in H.
  destruct (hex_val x) as [vx|] eqn:Ex; [|done]. destruct (hex_val y) as [vy|] eqn:Ey; [|done].
  apply result_bind_ok in H as (r & Hr & [= <-]).
  apply hex_val_spec in Ex as (Hvx & Hax & Hlx). apply hex_val_spec in Ey as (Hvy & Hay & Hly).
  destruct (IH s r) as [IHa IHl]; [lia|done|]. split; [cbn [is_ascii]; by rewrite Hax, Hay, IHa|].
  cbn [ascii_lower hex_EncodeToString]. intros [= El1 El2 El3].
  assert (N_of_ascii (byte (16 * vx + vy)) = 16 * vx + vy)%N as -> by (apply N_ascii_embedding; lia).
  rewrite N.mul_comm, N.div_add_l, N.div_small, N.add_0_r by done.
  rewrite N.add_comm, N.Div0.mod_add, N.mod_small by done.
  rewrite <-Hlx, <-Hly, <-IHl by done. done.
Qed.

Lemma validateContextDigest_spec ul s :
  validateContextDigest ul s = Ok tt ↔ ∃ b, length b = 32 ∧ s = hex_EncodeToString b.
Proof.
  unfold validateContextDigest. split.
  - destruct (_ || _) eqn:E; [done|]. apply orb_false_iff in E as [E1 E2].
    apply negb_false_iff, bool_decide_eq_true in E1, E2.
    destruct (hex_DecodeString s) as [b|] eqn:Ed; [|done]. case_bool_decide; [|done]. intros _.
    exists b. split; [done|]. destruct (hex_Encode_Decode (String.length s) s b) as [Ha Hl]; [done..|].
    apply Hl. unfold ToLower in E2. by rewrite Ha in E2.
  - intros (b & Hb & ->). rewrite hex_Encode_length, Hb.
    destruct (hex_Encode_lower b) as [Ha Hl]. unfold ToLower. rewrite Ha, Hl.
    rewrite !bool_decide_true by done. simpl. rewrite hex_Decode_Encode. by rewrite bool_decide_true.
Qed.

Lemma hex_digit_props n : (n < 16)%N → hex_digit n ≠ slash ∧ hex_digit n ≠ "."%char.
Proof.
  intros Hn. apply (bool_decide_eq_true_1 _). revert n Hn. apply (forall_N_below _ 16). by vm_compute.
Qed.

Lemma hex_Encode_head b n :
  length b = S n → ∃ c s, hex_EncodeToString b = String c s ∧ c ≠ "."%char.
Proof.
  destruct b as [|a b]; [done|]. intros _. simpl. eexists _, _. split; [done|].
  apply hex_digit_props. apply N.Div0.div_lt_upper_bound. pose proof (N_of_ascii_lt a). lia.
Qed.

Lemma hex_Encode_noslash b : contains_byte slash (hex_EncodeToString b) = false.
Proof.
  induction b as [|a b IH]; [done|]. cbn [hex_EncodeToString contains_byte]. rewrite IH.
  pose proof (N_of_ascii_lt a).
  rewrite !bool_decide_false; [done|apply hex_digit_props..];
    [by apply N.mod_lt|apply N.Div0.div_lt_upper_bound; lia].
Qed.

(** A valid digest is a plain file name that does not start with a dot. *)
Lemma digest_good ul s :
  validateContextDigest ul s = Ok tt → good s ∧ (∀ r, s ≠ String "."%char r).
Proof.
  intros (b & Hb & ->)%validateContextDigest_spec.
  destruct (hex_Encode_head b 31 Hb) as (c & r & E & Hc).
  pose proof (hex_Encode_noslash b) as Hs. rewrite E in *. split; [|naive_solver].
  split; [done|]. split; [naive_solver|]. split; [naive_solver|done].
Qed.

(** ** What [checkCache] answers *)

(** The entry at [cd] is complete: a directory with the completion marker in it. *)
Definition complete (cd : path) (fs : fsys) : Prop :=
  ∃ m ino md, names fs !! cd = Some (DDir m) ∧
    names fs !! (cd ++ [cacheCompletionMarker]) = Some (DFile ino) ∧
    inodes fs !! ino = Some (md, bytes_of cacheCompletionValue).

Lemma ReadFile_in_real fs ds c ino md data :
  Forall good ds → good c → real_dir fs ds → names fs !! (ds ++ [c]) = Some (DFile ino) →
  inodes fs !! ino = Some (md, data) → os_ReadFile fs (abs_path (ds ++ [c])) = Ok data.
Proof.
  intros Hds Hc Hr Hn Hi. unfold os_ReadFile, os_Stat, stat.
  assert (lookup_name fs (ds ++ [c]) = Some (DFile ino)) as Hl by by rewrite lookup_name_ne by by destruct ds.
  rewrite resolve_in_real by (try done; intros _ t; by rewrite Hl). simpl. rewrite Hl. simpl. by rewrite Hi.
Qed.

Lemma checkCache_complete fs bs c :
  bs ≠ [] → Forall good bs → good c → real_dir fs bs →
  checkCache fs (abs_path (bs ++ [c])) = Ok true ↔ complete (bs ++ [c]) fs.
Proof.
  intros Hne Hbs Hc Hr. unfold checkCache, complete. rewrite Lstat_in_real by done.
  assert (Hg : Forall good (bs ++ [c])) by by apply Forall_app; auto.
  rewrite path_Join_snoc by (try done; try apply marker_good; by destruct bs).
  destruct (names fs !! (bs ++ [c])) as [[m|ino|t|]|] eqn:Ed; cbn [is_dir negb];
    try (split; [done|naive_solver]).
  assert (Hr' : real_dir fs (bs ++ [c])).
  { apply real_dir_snoc. split; [done|]. rewrite lookup_name_ne by by destruct bs. eauto. }
  rewrite Lstat_in_real by (try done; apply marker_good).
  destruct (names fs !! ((bs ++ [c]) ++ _)) as [[m'|ino|t|]|] eqn:Em; cbn [is_regular negb];
    try (split; [done|naive_solver]).
  split.
  - intros (marker & Hm & [= Hb])%result_bind_ok. apply bool_decide_eq_true in Hb.
    unfold os_ReadFile in Hm. apply result_bind_ok in Hm as (d & Hst & Hd).
    assert (d = DFile ino) as ->.
    { unfold os_Stat, stat in Hst. rewrite resolve_in_real in Hst.
      - simpl in Hst. rewrite lookup_name_ne in Hst by by destruct bs. rewrite Em in Hst. by simplify_eq.
      - done.
      - apply marker_good.
      - done.
      - intros _ t. rewrite lookup_name_ne by by destruct bs. by rewrite Em. }
    destruct (inodes fs !! ino) as [[md data]|] eqn:Ei; [|done]. injection Hd as ->.
    exists m, ino, md. split; [done|]. split; [done|].
    rewrite Ei, <-Hb. by rewrite bytes_of_string_of.
  - intros (m' & ino' & md & _ & [= <-] & Hi).
    erewrite ReadFile_in_real by (try done; apply marker_good). reflexivity.
Qed.

(** ** Publication is atomic *)

(** Removing everything below [q] goes only through disks that lost names below [q]. *)
Lemma remove_all_traced (R : fsys → fsys → Prop) `{!PreOrder R} order q w :
  q ≠ [] → resolve false (disk w) (abs_path q) = Ok q →
  (∀ fs f, f (names fs) ⊆ names fs →
     (∀ p, under q p = false → f (names fs) !! p = names fs !! p) → R fs (set_names f fs)) →
  let '(w', r) := remove_all order (abs_path q) w in
  traced R w w' ∧ r = Ok tt ∧ ∀ x, names (disk w') !! (q ++ x) = None.
Proof.
  intros Hq Hres HR. unfold remove_all. rewrite Hres.
  assert (triple R (λ _, True) (osM_iter (λ x, mutate (unlink_below q x)) order) (λ r _, r = Ok tt)) as Hit.
  { induction order as [|x order IH]; simpl; [by apply triple_ret; [apply _|]|].
    eapply (triple_bind _ _ _ _ (λ r _, r = Ok tt)); [|by intros []; eapply triple_conseq; [exact IH| |]|done].
    apply triple_mutate; [apply _| |done]. unfold unlink_below. intros fs fs' _ [= <-]. split; [|done].
    destruct (under q x) eqn:Ex; [|done]. apply HR; [apply delete_subseteq|].
    intros p Hp. apply lookup_delete_ne. congruence. }
  destruct (Hit w I) as [Ht Hok]. unfold mbind, osM_bind.
  destruct (osM_iter _ order w) as [w1 r1]; simpl in *; subst r1.
  unfold mutate. rewrite bool_decide_false by done. split; [|split; [done|]].
  - eapply traced_trans; [apply _|exact Ht|]. split; simpl.
    + apply HR; [apply map_filter_subseteq|]. intros p Hp.
      destruct (names (disk w1) !! p) as [d|] eqn:E; [by apply map_lookup_filter_Some|].
      apply map_lookup_filter_None. by left.
    + exists [disk w1]. split; [done|]. by apply Forall_singleton.
  - intros x. simpl. apply map_lookup_filter_None. right. intros d _. simpl. by rewrite under_app.
Qed.

(** Only names below [q] differ. *)
Definition same_outside (q : path) (fs fs' : fsys) : Prop :=
  ∀ p, under q p = false → names fs' !! p = names fs !! p.

#[export] Instance same_outside_preorder q : PreOrder (same_outside q).
Proof. split; [by intros fs p _|]. intros f1 f2 f3 H12 H23 p Hp. by rewrite H23, H12. Qed.

Definition temp_comp (rnd : string) : string := ".context-" +:+ rnd +:+ "".

Lemma temp_comp_good rnd : contains_byte slash rnd = false → good (temp_comp rnd).
Proof.
  intros H. unfold temp_comp. split; [done|]. split; [done|]. split; [done|].
  rewrite !contains_byte_app, H. done.
Qed.

Lemma temp_name_abs bs rnd :
  bs ≠ [] → temp_name (abs_path bs) ".context-" rnd "" = abs_path (bs ++ [temp_comp rnd]).
Proof.
  intros Hne. unfold temp_name, abs_path, temp_comp. rewrite Join_app_comps by done. simpl Join.
  by rewrite <-!string_app_assoc.
Qed.

(** [os.MkdirTemp] makes a directory under a name that was free, or changes nothing. *)
Lemma MkdirTemp_spec bs rnds w :
  bs ≠ [] → Forall good bs → real_dir (disk w) bs → Forall (λ r, contains_byte slash r = false) rnds →
  let '(w', r) := os_MkdirTemp rnds (abs_path bs) ".context-" "" w in
  match r with
  | Ok name => ∃ rnd m, rnd ∈ rnds ∧ good (temp_comp rnd) ∧ name = abs_path (bs ++ [temp_comp rnd]) ∧
      names (disk w) !! (bs ++ [temp_comp rnd]) = None ∧
      w' = {| disk := set_names <[bs ++ [temp_comp rnd] := DDir m]> (disk w); trace := disk w :: trace w |}
  | Err _ => w' = w
  end.
Proof.
  intros Hne Hbs Hr Hrnd. induction Hrnd as [|rnd rnds Hs _ IH]; [done|].
  cbn [os_MkdirTemp]. rewrite temp_name_abs by done. unfold os_Mkdir.
  rewrite add_entry_in_real by (try done; by apply temp_comp_good).
  destruct (names (disk w) !! (bs ++ [temp_comp rnd])) as [d|] eqn:E.
  - rewrite bool_decide_true by done. destruct (os_MkdirTemp _ _ _ _ w) as [w' [name|e]]; [|done].
    destruct IH as (rnd' & m & ? & ?). exists rnd', m. split; [by apply list_elem_of_further|done].
  - exists rnd, (perm (disk w) 448). split; [apply list_elem_of_here|]. split; [by apply temp_comp_good|done].
Qed.

Section atomic.
Context `{!FileLock} (tar_read : bytes → archive).
Context (bs : path) (sum : string) (Hne : bs ≠ []) (Hbs : Forall good bs).
Context (Hsum : good sum) (Hdot : ∀ r, sum ≠ String "."%char r).
(** The staged archive: a regular file of the cache directory, named [tn]. *)
Context (tn : string) (Htn : good tn) (Htd : ∃ r, tn = String "."%char r).

Abbreviation cd := (bs ++ [sum]).
Abbreviation marker := (cd ++ [cacheCompletionMarker]).

(** The marker's inode is allocated. *)
Definition marker_wf (fs : fsys) : Prop :=
  ∀ ino, names fs !! marker = Some (DFile ino) → ino < next_ino fs.

(** The archive is staged with content [data]. *)
Definition staged (data : bytes) (fs : fsys) : Prop :=
  ∃ ino md, names fs !! (bs ++ [tn]) = Some (DFile ino) ∧ inodes fs !! ino = Some (md, data) ∧ ino < next_ino fs.

(** A name that is not taken has nothing below it. *)
Definition closed_at (p : path) (fs : fsys) : Prop :=
  names fs !! p = None → ∀ r, names fs !! (p ++ r) = None.

Record inv (data : bytes) (fs : fsys) : Prop := {
  inv_base : real_dir fs bs;
  inv_marker : marker_wf fs;
  inv_staged : staged data fs;
}.

(** A step that keeps the invariant and does not make the entry complete. *)
Definition safe (data : bytes) (fs fs' : fsys) : Prop :=
  inv data fs → inv data fs' ∧ (complete cd fs' → complete cd fs).

#[local] Instance safe_preorder data : PreOrder (safe data).
Proof.
  split.
  - intros fs ?. auto.
  - intros f1 f2 f3 R12 R23 I1. destruct (R12 I1) as [I2 ?]. destruct (R23 I2). auto.
Qed.

(** Growth away from the entry is safe. *)
Lemma safe_grows data P fs fs' :
  (∀ d, ¬ P cd d) → (∀ d, ¬ P marker d) → grows P fs fs' → safe data fs fs'.
Proof.
  intros Hc Hm Hg [Hb Hw (ino & md & Hs1 & Hs2 & Hs3)].
  assert (Hsame : ∀ p, (∀ d, ¬ P p d) → names fs' !! p = names fs !! p).
  { intros p Hp. destruct (names fs !! p) as [d|] eqn:E; [eapply lookup_weaken; [done|apply Hg]|].
    destruct (names fs' !! p) as [d'|] eqn:E'; [|done]. destruct (Hp d'). by eapply grows_new. }
  pose proof (grows_next _ _ _ Hg). split.
  - split.
    + by eapply grows_real_dir.
    + intros i. rewrite Hsame by done. intros ?%Hw. lia.
    + exists ino, md. rewrite (grows_inodes _ _ _ Hg) by done. split; [|split; [done|lia]].
      eapply lookup_weaken; [done|apply Hg].
  - intros (m & i & md' & H1 & H2 & H3). rewrite Hsame in H1, H2 by done.
    exists m, i, md'. split; [done|]. split; [done|].
    rewrite <-(grows_inodes _ _ _ Hg) by by apply Hw. done.
Qed.

(** Unlinking below one name of the cache directory other than the staged file is safe. *)
Lemma safe_shrinks (data : bytes) (x : string) (fs : fsys) (f : gmap path dentry → gmap path dentry) :
  x ≠ tn → f (names fs) ⊆ names fs →
  (∀ p, under (bs ++ [x]) p = false → f (names fs) !! p = names fs !! p) →
  safe data fs (set_names f fs).
Proof.
  intros Hx Hsub Hkeep [Hb Hw (ino & md & Hs1 & Hs2 & Hs3)]. split; [split|].
  - intros n Hn. destruct (Hb n Hn) as [m Hm]. exists m.
    destruct (decide (take n bs = [])) as [E|E]; [by rewrite E in Hm |- *|].
    rewrite lookup_name_ne in Hm |- * by done. simpl. rewrite Hkeep; [done|]. apply under_parent.
  - intros i Hi. simpl in *. apply Hw. by eapply lookup_weaken.
  - exists ino, md. simpl. split; [|done]. rewrite Hkeep; [done|].
    change (bs ++ [tn]) with (bs ++ [tn] ++ []). by apply under_sibling.
  - intros (m & i & md' & H1 & H2 & H3). simpl in *. exists m, i, md'.
    split; [by eapply lookup_weaken|]. split; [by eapply lookup_weaken|done].
Qed.

Lemma real_child fs x m : real_dir fs bs → names fs !! (bs ++ [x]) = Some (DDir m) → real_dir fs (bs ++ [x]).
Proof. intros Hr Hx. apply real_dir_snoc. split; [done|]. rewrite lookup_name_ne by by destruct bs. eauto. Qed.

(** Names below one entry of the cache directory are not below another. *)
Lemma inside_other x p d : inside (bs ++ [x]) p d → ∀ y r, x ≠ y → p ≠ (bs ++ [y]) ++ r.
Proof. intros (cs & -> & _) y r Hxy E. rewrite <-!app_assoc in E. by simplify_list_eq. Qed.

(** Everything the archive describes is in place at the cache entry. *)
Definition all_placed (data : bytes) (fs : fsys) : Prop :=
  Forall (λ h, placed cd h fs) (a_entries (tar_read data)) ∧ a_end (tar_read data) = None.

Lemma placed_move x y fs fs' h :
  (∀ cs, names fs' !! ((bs ++ [y]) ++ cs) = names fs !! ((bs ++ [x]) ++ cs)) →
  inodes fs' = inodes fs → next_ino fs' = next_ino fs → umask fs' = umask fs →
  placed (bs ++ [x]) h fs → placed (bs ++ [y]) h fs'.
Proof.
  intros Hn Hi Hx Hu (cs & Ha & Hc & Hp). exists cs. split; [done|]. split; [done|].
  destruct (h_Typeflag h); rewrite ?Hn, ?Hi, ?Hx; unfold perm in *; rewrite ?Hu; try done.
  destruct Hp as (ls & ino & Hp). exists ls, ino. by rewrite !Hn.
Qed.

(** The renaming of a filled directory onto the free name of the entry. *)
Lemma rename_publishes t m fs :
  good t → t ≠ sum → real_dir fs bs → names fs !! (bs ++ [t]) = Some (DDir m) →
  (∀ r, names fs !! (cd ++ r) = None) →
  ∃ fs', os_Rename fs (abs_path (bs ++ [t])) (abs_path cd) = Ok fs' ∧
    (∀ r, names fs' !! (cd ++ r) = names fs !! ((bs ++ [t]) ++ r)) ∧
    (∀ p, under (bs ++ [t]) p = false → under cd p = false → names fs' !! p = names fs !! p) ∧
    inodes fs' = inodes fs ∧ next_ino fs' = next_ino fs ∧ umask fs' = umask fs.
Proof.
  intros Ht Hts Hr Hm Hfree. unfold os_Rename.
  rewrite !resolve_in_real by done. cbn [mbind result_bind].
  rewrite !lookup_name_ne by by destruct bs. rewrite Hm.
  pose proof (Hfree []) as Hcd. rewrite app_nil_r in Hcd. rewrite Hcd.
  assert (under (bs ++ [t]) cd = false) as Hu.
  { rewrite <-(app_nil_r [sum]). by apply under_sibling. }
  rewrite Hu. eexists. split; [done|].
  assert (Hb : ∀ q d, names fs !! q = Some d → under cd q = false).
  { intros q d Hq. apply under_false. intros r' ->. by rewrite Hfree in Hq. }
  split; [|split; [|done]].
  - intros r. simpl. rewrite lookup_move_tree by done. by rewrite under_app, drop_app_length.
  - intros p H1 H2. simpl. rewrite lookup_move_tree by done. by rewrite H1, H2.
Qed.

(** Writing the marker into the filled directory: it is created, or the write fails
    because an entry of the archive made its name a directory. *)
Lemma write_marker t fs0 fs m :
  good t → real_dir fs bs → names fs !! (bs ++ [t]) = Some (DDir m) →
  names fs0 !! (bs ++ [t] ++ [cacheCompletionMarker]) = None → grows (inside (bs ++ [t])) fs0 fs →
  let p := path_Join [abs_path (bs ++ [t]); cacheCompletionMarker] in
  match os_WriteFile fs p (bytes_of cacheCompletionValue) 384 with
  | Ok fs' => grows (λ q _, q = (bs ++ [t]) ++ [cacheCompletionMarker]) fs fs' ∧
      ∃ ino md, names fs' !! ((bs ++ [t]) ++ [cacheCompletionMarker]) = Some (DFile ino) ∧
                inodes fs' !! ino = Some (md, bytes_of cacheCompletionValue) ∧ ino < next_ino fs'
  | Err _ => True
  end.
Proof.
  intros Ht Hr Hm H0 Hg p. subst p.
  assert (Hgt : Forall good (bs ++ [t])) by by apply Forall_app; auto.
  rewrite path_Join_snoc by (try done; try apply marker_good; by destruct bs).
  assert (Hcase : ∀ d, names fs !! ((bs ++ [t]) ++ [cacheCompletionMarker]) = Some d → is_dir d = true).
  { intros d Hd. rewrite <-app_assoc in Hd. destruct (grows_new _ _ _ Hg _ _ H0 Hd) as (cs & E & _ & _ & _ & Hdir).
    apply Hdir. rewrite <-app_assoc in E. by simplify_list_eq. }
  unfold os_WriteFile. rewrite resolve_in_real; [|done|apply marker_good|by eapply real_child|].
  2:{ intros _ tgt. rewrite lookup_name_ne by by destruct bs. intros E. by apply Hcase in E. }
  cbn [mbind result_bind]. rewrite lookup_name_ne by by destruct bs.
  destruct (names fs !! ((bs ++ [t]) ++ [cacheCompletionMarker])) as [d|] eqn:E.
  - specialize (Hcase d eq_refl). by destruct d.
  - split; [by apply grows_create|]. exists (next_ino fs), (perm fs 384). simpl. rewrite !lookup_insert_eq.
    split; [done|]. split; [done|lia].
Qed.

(** The renaming keeps the invariant. *)
Lemma inv_rename t data fs fs' ino :
  t ≠ sum → t ≠ tn → sum ≠ tn → inv data fs →
  names fs !! ((bs ++ [t]) ++ [cacheCompletionMarker]) = Some (DFile ino) → ino < next_ino fs →
  (∀ r, names fs' !! (cd ++ r) = names fs !! ((bs ++ [t]) ++ r)) →
  (∀ p, under (bs ++ [t]) p = false → under cd p = false → names fs' !! p = names fs !! p) →
  inodes fs' = inodes fs → next_ino fs' = next_ino fs → inv data fs'.
Proof.
  intros Hts Htt Hst [Hb Hw (i & md & Hs1 & Hs2 & Hs3)] Hmk Hino Hn Ho Hi Hx. split.
  - intros n Hn'. destruct (Hb n Hn') as [m Hm]. exists m.
    destruct (decide (take n bs = [])) as [E|E]; [by rewrite E in Hm |- *|].
    rewrite lookup_name_ne in Hm |- * by done. rewrite Ho; [done|apply under_parent..].
  - intros j. rewrite Hn, Hmk, Hx. by intros [= <-].
  - exists i, md. rewrite Hi, Hx. split; [|done].
    rewrite Ho; [done|..]; change (bs ++ [tn]) with (bs ++ [tn] ++ []); by apply under_sibling.
Qed.

(** What a run guarantees: every disk on the way, and the last one if it fails, is
    complete only if the first one was; after success the entry is complete, and if it
    was not so before it holds the whole archive. *)
Definition outcome (data : bytes) (w : world) (x : world * res unit) : Prop :=
  (∃ l, trace x.1 = l ++ trace w ∧ Forall (safe data (disk w)) l) ∧
  match x.2 with
  | Err _ => safe data (disk w) (disk x.1)
  | Ok _ => inv data (disk x.1) ∧ complete cd (disk x.1) ∧ (complete cd (disk w) ∨ all_placed data (disk x.1))
  end.

Lemma outcome_err data w w' e : traced (safe data) w w' → outcome data w (w', Err e).
Proof. intros [H1 H2]. by split. Qed.

Lemma outcome_after data w w1 x :
  inv data (disk w) → traced (safe data) w w1 → outcome data w1 x → outcome data w x.
Proof.
  intros Hinv [Hs (l & Hl & Fl)] [(k & Hk & Fk) Hx]. split.
  - exists (k ++ l). rewrite Hk, Hl, app_assoc. split; [done|]. apply Forall_app. split; [|done].
    eapply Forall_impl; [exact Fk|]. intros s Hs'. by trans (disk w1).
  - destruct x as [w' [[]|e]]; simpl in *; [|by trans (disk w1)].
    destruct Hx as (Hi & Hc & [Hc1|Hp]); split_and!; auto. left. by apply Hs.
Qed.

Lemma traced_mutate data w fs' :
  safe data (disk w) fs' → traced (safe data) w {| disk := fs'; trace := disk w :: trace w |}.
Proof. intros ?. split; [done|]. exists [disk w]. split; [done|]. by apply Forall_singleton. Qed.

(** Filling a fresh directory and renaming it to the free name of the entry. *)
Lemma fill_and_rename_outcome ctx t m data w :
  good t → t ≠ sum → t ≠ tn → sum ≠ tn → inv data (disk w) →
  names (disk w) !! (bs ++ [t]) = Some (DDir m) →
  (∀ r, r ≠ [] → names (disk w) !! ((bs ++ [t]) ++ r) = None) →
  (∀ r, names (disk w) !! (cd ++ r) = None) →
  outcome data w (fill_and_rename tar_read ctx (abs_path (bs ++ [tn])) (abs_path (bs ++ [t])) (abs_path cd) w).
Proof.
  intros Ht Hts Htt Hst Hinv Hm Hfresh Hfree. destruct (inv_staged _ _ Hinv) as (ino & md & Hs1 & Hs2 & _).
  assert (Hgt : Forall good (bs ++ [t])) by by apply Forall_app; auto.
  assert (Hdest : dest_ok (bs ++ [t]) (disk w)).
  { split; [by destruct bs|]. split; [done|]. eapply real_child; [apply Hinv|done]. }
  unfold fill_and_rename, mbind, osM_bind.
  pose proof (unpackTar_spec ctx tar_read (abs_path (bs ++ [tn])) (bs ++ [t]) w Hdest) as Hu.
  destruct (unpackTar _ _ _ _ w) as [w2 r2]. destruct Hu as [Htr Hpl].
  assert (Hne_cd : ∀ p d r, inside (bs ++ [t]) p d → p ≠ cd ++ r).
  { intros p d r Hin. by eapply inside_other. }
  assert (Hts2 : traced (safe data) w w2).
  { eapply traced_weaken; [|exact Htr]. intros fs. apply safe_grows.
    - intros d Hin. eapply (Hne_cd _ _ []); [exact Hin|]. by rewrite app_nil_r.
    - intros d Hin. by eapply Hne_cd. }
  destruct r2 as [[]|e]; [|by apply outcome_err].
  eapply outcome_after; [done|exact Hts2|].
  destruct Htr as [Hg2 _]. destruct Hts2 as [Hsafe2 _]. destruct (Hsafe2 Hinv) as [Hinv2 _].
  assert (Hm2 : names (disk w2) !! (bs ++ [t]) = Some (DDir m)) by (eapply lookup_weaken; [done|apply Hg2]).
  assert (Hfree2 : ∀ r, names (disk w2) !! (cd ++ r) = None).
  { intros r. destruct (names (disk w2) !! (cd ++ r)) as [d|] eqn:E; [|done].
    exfalso. eapply Hne_cd; [|done]. by eapply grows_new. }
  unfold mutate.
  pose proof (write_marker t (disk w) (disk w2) m Ht (inv_base _ _ Hinv2) Hm2) as Hw.
  rewrite app_assoc in Hw. specialize (Hw (Hfresh [cacheCompletionMarker] ltac:(done)) Hg2). cbv zeta in Hw.
  destruct (os_WriteFile _ _ _ _) as [fs3|e]; [|apply outcome_err, traced_refl, _].
  destruct Hw as [Hg3 (mino & mmd & Hmk & Hmki & Hmn)].
  assert (Hs3 : safe data (disk w2) fs3).
  { eapply safe_grows; [| |exact Hg3]; simpl.
    - intros _ E. rewrite <-app_assoc in E. by simplify_list_eq.
    - intros _ E. rewrite <-!app_assoc in E. by simplify_list_eq. }
  eapply outcome_after; [done|by apply traced_mutate|].
  destruct (Hs3 Hinv2) as [Hinv3 _].
  assert (Hm3 : names fs3 !! (bs ++ [t]) = Some (DDir m)) by (eapply lookup_weaken; [done|apply Hg3]).
  assert (Hfree3 : ∀ r, names fs3 !! (cd ++ r) = None).
  { intros r. destruct (names fs3 !! (cd ++ r)) as [d|] eqn:E; [|done].
    apply (grows_new _ _ _ Hg3) in E; [|done]. rewrite <-!app_assoc in E. by simplify_list_eq. }
  destruct (rename_publishes t m fs3 Ht Hts (inv_base _ _ Hinv3) Hm3 Hfree3) as (fs4 & Hren & Hn4 & Ho4 & Hi4 & Hx4 & Hu4).
  cbn [disk trace]. rewrite Hren. split.
  { exists [fs3]. split; [done|]. by apply Forall_singleton. }
  cbn [fst snd disk]. split; [|split].
  - by eapply inv_rename.
  - exists m, mino, mmd. rewrite Hn4, <-(app_nil_r cd), Hn4, app_nil_r, Hi4. done.
  - right. destruct (Hpl eq_refl) as (data' & Hrd & HF & Hend).
    rewrite (ReadFile_in_real _ _ _ ino md data) in Hrd by (try done; apply Hinv). injection Hrd as <-.
    split; [|done]. eapply Forall_impl; [exact HF|]. intros h Hh.
    eapply placed_move; [exact Hn4|done|done|done|]. by eapply placed_grows.
Qed.

Lemma lock_path : abs_path cd +:+ ".lock" = abs_path (bs ++ [sum +:+ ".lock"]).
Proof.
  unfold abs_path. rewrite !Join_app_comps by done. simpl Join. by rewrite <-!string_app_assoc.
Qed.

Lemma lock_good : good (sum +:+ ".lock").
Proof.
  destruct Hsum as (?&?&?&Hs). split_and!.
  - by destruct sum.
  - destruct sum as [|a s]; [done|]. rewrite string_app_cons. intros [= -> E]. by destruct s.
  - destruct sum as [|a s]; [done|]. rewrite string_app_cons. intros [= -> E]. by eapply Hdot.
  - by rewrite contains_byte_app, Hs.
Qed.

Lemma lock_not_dot r : sum +:+ ".lock" ≠ String "."%char r.
Proof.
  destruct Hsum as (?&_). destruct sum as [|a s]; [done|]. rewrite string_app_cons.
  intros [= -> _]. by eapply Hdot.
Qed.

Lemma temp_not_sum rnd : temp_comp rnd ≠ sum.
Proof. intros E. eapply Hdot. symmetry. exact E. Qed.

Definition temps_closed (rnds : list string) (fs : fsys) : Prop :=
  ∀ rnd, rnd ∈ rnds → closed_at (bs ++ [temp_comp rnd]) fs.

(** Names below the temporary ones are not touched by the lock nor by the removal. *)
Lemma temps_closed_same rnds fs fs' :
  (∀ rnd r, names fs' !! ((bs ++ [temp_comp rnd]) ++ r) = names fs !! ((bs ++ [temp_comp rnd]) ++ r)) →
  temps_closed rnds fs → temps_closed rnds fs'.
Proof.
  intros Hs Hc rnd Hrnd H0 r. rewrite Hs. apply (Hc rnd Hrnd).
  specialize (Hs rnd []). rewrite app_nil_r in Hs. congruence.
Qed.

(** The last part of [publishTar], from the point where the entry was found incomplete. *)
Lemma republish_outcome ctx rnds order1 order2 data w :
  inv data (disk w) → temps_closed rnds (disk w) → Forall (λ r, contains_byte slash r = false) rnds →
  outcome data w
    ((remove_all order1 (abs_path cd) ≫= λ _,
      tempDir ← os_MkdirTemp rnds (abs_path bs) ".context-" "";
      on_error (ignore (remove_all order2 tempDir))
        (fill_and_rename tar_read ctx (abs_path (bs ++ [tn])) tempDir (abs_path cd))) w).
Proof.
  intros Hinv Hcl Hrnd.
  assert (Hres : resolve false (disk w) (abs_path cd) = Ok cd) by (apply resolve_in_real; [done..|apply Hinv|done]).
  assert (Hsn : sum ≠ tn) by (destruct Htd as [r ->]; apply Hdot).
  assert (cd ≠ []) as Hcd by by destruct bs.
  pose proof (remove_all_traced (safe data) order1 cd w Hcd Hres (λ fs f, safe_shrinks data sum fs f Hsn)) as H1.
  pose proof (remove_all_traced (same_outside cd) order1 cd w
    Hcd Hres (λ fs f _ Hk, Hk)) as H1'.
  unfold mbind, osM_bind. destruct (remove_all order1 (abs_path cd) w) as [w1 r1].
  destruct H1 as (Ht1 & -> & Hgone). destruct H1' as ([Hk1 _] & _ & _).
  eapply outcome_after; [done|exact Ht1|]. destruct Ht1 as [Hs1 _]. destruct (Hs1 Hinv) as [Hinv1 _].
  assert (Hcl1 : temps_closed rnds (disk w1)).
  { eapply temps_closed_same; [|done]. intros rnd r. apply Hk1. rewrite <-app_assoc.
    apply under_sibling. intros E. by eapply temp_not_sum. }
  pose proof (MkdirTemp_spec bs rnds w1 Hne Hbs (inv_base _ _ Hinv1) Hrnd) as H2.
  destruct (os_MkdirTemp _ _ _ _ w1) as [w2 [name|e]]; [|subst w2; apply outcome_err, traced_refl, _].
  destruct H2 as (rnd & m & Hin & Hgt & -> & Hfree & ->).
  set (t := temp_comp rnd) in *. assert (Hts : t ≠ sum) by apply temp_not_sum.
  assert (Htt : t ≠ tn).
  { intros E. destruct (inv_staged _ _ Hinv1) as (ino & md & Hn & _). rewrite <-E in Hn. congruence. }
  assert (Hs2 : safe data (disk w1) (set_names <[bs ++ [t] := DDir m]> (disk w1))).
  { eapply (safe_grows _ (λ p _, p = bs ++ [t])); [| |by apply grows_insert]; intros _ E;
      rewrite <-?app_assoc in E; by simplify_list_eq. }
  eapply outcome_after; [done|by apply traced_mutate|]. destruct (Hs2 Hinv1) as [Hinv2 _].
  set (w2 := {| disk := set_names <[bs ++ [t] := DDir m]> (disk w1); trace := disk w1 :: trace w1 |}).
  assert (Hout : outcome data w2 (fill_and_rename tar_read ctx (abs_path (bs ++ [tn])) (abs_path (bs ++ [t])) (abs_path cd) w2)).
  { eapply fill_and_rename_outcome; [done|done|done|done|exact Hinv2|simpl; apply lookup_insert_eq|..]; simpl.
    - intros r Hr. rewrite lookup_insert_ne; [by apply Hcl1|].
      intros E. rewrite <-(app_nil_r (bs ++ [t])) in E at 1. by simplify_list_eq.
    - intros r. rewrite lookup_insert_ne; [apply Hgone|]. intros E. rewrite <-app_assoc in E. by simplify_list_eq. }
  unfold on_error. destruct (fill_and_rename _ _ _ _ _ w2) as [w3 [[]|e]]; [done|].
  destruct Hout as [Htr Hs3]. simpl in Htr, Hs3.
  assert (Ht3 : traced (safe data) w2 w3) by by split.
  destruct (Hs3 Hinv2) as [Hinv3 _].
  assert (Hres3 : resolve false (disk w3) (abs_path (bs ++ [t])) = Ok (bs ++ [t]))
    by (apply resolve_in_real; [done..|apply Hinv3|done]).
  pose proof (remove_all_traced (safe data) order2 (bs ++ [t]) w3 ltac:(by destruct bs) Hres3
    (λ fs f, safe_shrinks data t fs f Htt)) as H4.
  unfold ignore. destruct (remove_all order2 _ w3) as [w4 r4]. simpl.
  apply outcome_err. eapply traced_trans; [apply _|exact Ht3|apply H4].
Qed.

Lemma publishTar_outcome ctx rnds order1 order2 data w :
  inv data (disk w) → temps_closed rnds (disk w) → Forall (λ r, contains_byte slash r = false) rnds →
  outcome data w (publishTar tar_read ctx rnds order1 order2 (abs_path (bs ++ [tn])) (abs_path cd) (abs_path bs) w).
Proof.
  intros Hinv Hcl Hrnd. unfold publishTar. rewrite lock_path.
  assert (Hlocked : (∀ t, os_Lstat (disk w) (abs_path (bs ++ [sum +:+ ".lock"])) ≠ Ok (DSym t)) → outcome data w
    ((locked ← try_lock (abs_path (bs ++ [sum +:+ ".lock"]));
      if negb locked then fail (Errorf "failed to acquire cache lock for %s" [abs_path cd])
      else
        cached ← reads (λ fs, checkCache fs (abs_path cd));
        if (cached : bool) then mret tt
        else
          remove_all order1 (abs_path cd) ≫= λ _,
          tempDir ← os_MkdirTemp rnds (abs_path bs) ".context-" "";
          on_error (ignore (remove_all order2 tempDir))
            (fill_and_rename tar_read ctx (abs_path (bs ++ [tn])) tempDir (abs_path cd))) w)).
  { intros Hns. pose proof (try_lock_touches bs (sum +:+ ".lock") w ltac:(done) lock_good (inv_base _ _ Hinv) Hns) as Hlk.
    unfold mbind at 1, osM_bind at 1. destruct (try_lock _ w) as [w1 r1]. simpl in Hlk.
    assert (Ht1 : traced (safe data) w w1).
    { eapply traced_weaken; [|exact Hlk]. intros fs. apply safe_grows; intros d [E _].
      - apply app_inj_2 in E as [_ [= E]]; [|done].
        apply (f_equal String.length) in E. rewrite string_length_app in E. simpl in E. lia.
      - rewrite <-app_assoc in E. by simplify_list_eq. }
    destruct r1 as [[]|e]; [|by apply outcome_err|by apply outcome_err]. cbn [negb].
    eapply outcome_after; [done|exact Ht1|]. destruct (proj1 Ht1 Hinv) as [Hinv1 _].
    assert (Hcl1 : temps_closed rnds (disk w1)).
    { eapply temps_closed_same; [|done]. intros rnd r. destruct Hlk as [Hg _].
      destruct (names (disk w) !! ((bs ++ [temp_comp rnd]) ++ r)) as [d|] eqn:E; [eapply lookup_weaken; [done|apply Hg]|].
      destruct (names (disk w1) !! ((bs ++ [temp_comp rnd]) ++ r)) as [d|] eqn:E'; [|done].
      destruct (grows_new _ _ _ Hg _ _ E E') as [Eq _]. rewrite <-app_assoc in Eq. simplify_list_eq.
      exfalso. by eapply lock_not_dot. }
    unfold mbind at 1, osM_bind at 1, reads.
    destruct (checkCache (disk w1) (abs_path cd)) as [[]|e] eqn:Ec.
    - apply checkCache_complete in Ec; [|done..|apply Hinv1]. split; [by exists []|]. simpl. auto.
    - by apply republish_outcome.
    - apply outcome_err, traced_refl, _. }
  unfold mbind at 1, osM_bind at 1, try_reads.
  destruct (os_Lstat (disk w) _) as [[]|e]; try (by apply Hlocked).
  - apply outcome_err, traced_refl, _.
  - destruct (os_IsNotExist e); [by apply Hlocked|]. apply outcome_err, traced_refl, _.
Qed.
End atomic.

(** ** Properties *)

(** C6. A crash-safe publication.  [publishTar] on a valid digest, with the archive staged
    in the cache directory: every disk the run goes through has a complete cache entry only
    if the disk it started from had one, and so does the last one when the run fails (an
    unpack error, a cancelled context, a lock not obtained); after success the entry is
    complete, and unless another process had completed it before, every entry of the staged
    archive is in place in it. *)
Theorem publishTar_atomic `{!FileLock} (tar_read : bytes → archive) (ul : string → string)
    (ctx : nat → option error) (rnds : list string) (order1 order2 : list path)
    (bs : path) (sum tn : string) (data : bytes) (w : world) :
  bs ≠ [] → Forall good bs → validateContextDigest ul sum = Ok tt →
  good tn → HasPrefix tn "." = true →
  Forall (λ r, contains_byte slash r = false) rnds →
  inv bs sum tn data (disk w) → temps_closed bs rnds (disk w) →
  let cd := bs ++ [sum] in
  let '(w', r) := publishTar tar_read ctx rnds order1 order2 (abs_path (bs ++ [tn])) (abs_path cd) (abs_path bs) w in
  (∃ l, trace w' = l ++ trace w ∧ Forall (λ fs, complete cd fs → complete cd (disk w)) l) ∧
  match r with
  | Err _ => complete cd (disk w') → complete cd (disk w)
  | Ok _ => complete cd (disk w') ∧ (complete cd (disk w) ∨ all_placed tar_read bs sum data (disk w'))
  end.
Proof.
  intros Hne Hbs [Hg Hd]%digest_good Htn Htd Hr Hi Hc.
  assert (∃ r, tn = String "."%char r) as Ht.
  { apply HasPrefix_spec in Htd as [r ->]. by exists r. }
  pose proof (publishTar_outcome tar_read bs sum Hne Hbs Hg Hd tn Htn Ht ctx rnds order1 order2 data w Hi Hc Hr) as Hout.
  simpl. destruct (publishTar _ _ _ _ _ _ _ _ w) as [w' r]. destruct Hout as [(l & Hl & Fl) Hx]; simpl in *.
  split.
  - exists l. split; [done|]. eapply Forall_impl; [exact Fl|]. intros fs Hs. by apply Hs.
  - destruct r; [by destruct Hx|]. by apply Hx.
Qed.

(** C24. The digests the shim accepts are exactly the lower-case hexadecimal forms of 32
    bytes, so a digest is one plain path component of the cache directory. *)
Theorem validateContextDigest_iff (ul : string → string) (s : string) :
  (validateContextDigest ul s = Ok tt ↔ ∃ b, length b = 32 ∧ s = hex_EncodeToString b) ∧
  (validateContextDigest ul s = Ok tt → good s ∧ HasPrefix s "." = false).
Proof.
  split; [apply validateContextDigest_spec|]. intros [Hg Hd]%digest_good. split; [done|].
  apply not_true_iff_false. intros [r Hr]%HasPrefix_spec. by eapply Hd.
Qed.

(** C25. [CachedContextPresent] answers true exactly for a valid digest whose entry is a
    real directory holding a regular completion marker with the exact marker content; a
    symbolic link in place of the directory or of the marker is never a hit. *)
Theorem CachedContextPresent_iff (ul : string → string) (fs : fsys) (bs : path) (sum : string) :
  bs ≠ [] → Forall good bs → real_dir fs bs →
  CachedContextPresent ul fs (abs_path bs) sum = Ok true ↔
  validateContextDigest ul sum = Ok tt ∧ complete (bs ++ [sum]) fs.
Proof.
  intros Hne Hbs Hr. unfold CachedContextPresent. rewrite result_bind_ok. split.
  - intros ([] & Hv & Hc). split; [done|]. destruct (digest_good ul sum Hv) as [Hg _].
    rewrite path_Join_snoc in Hc by done. by apply checkCache_complete in Hc.
  - intros [Hv Hc]. exists tt. split; [done|]. destruct (digest_good ul sum Hv) as [Hg _].
    rewrite path_Join_snoc by done. by apply checkCache_complete.
Qed.

(** *** A concrete cache *)

Definition ex_lock : FileLock.
Proof.
  refine {| try_lock := λ _, mret true |}; [|done]. intros ds c w _ _ _ _. apply traced_refl, _.
Defined.

Definition ex_digest : string := hex_EncodeToString (bytes_of "0123456789abcdef0123456789abcdef").

Lemma ex_inv : inv ["c"] ex_digest ".context-1.tar" (bytes_of "T") ex_disk.
Proof.
  split.
  - apply ex_real_dir1.
  - intros ino H. vm_compute in H. discriminate.
  - exists 0, 384%Z. split; [done|]. split; [done|]. simpl; lia.
Qed.

Lemma ex_temps_closed : temps_closed ["c"] ["7"] ex_disk.
Proof.
  intros rnd ->%list_elem_of_singleton _ r. cbn [names ex_disk].
  rewrite !lookup_insert_ne by discriminate. by rewrite lookup_singleton_ne by discriminate.
Qed.

Lemma publishTar_atomic_witness :
  let w' := (publishTar (H := ex_lock) ex_good ex_ctx ["7"] [] [] (abs_path ["c"; ".context-1.tar"])
    (abs_path ["c"; ex_digest]) (abs_path ["c"]) ex_world).1 in
  complete ["c"; ex_digest] (disk w') ∧ all_placed ex_good ["c"] ex_digest (bytes_of "T") (disk w').
Proof.
  pose proof (publishTar_atomic (H := ex_lock) ex_good (λ s, s) ex_ctx ["7"] [] [] ["c"] ex_digest ".context-1.tar"
    (bytes_of "T") ex_world ltac:(done) ltac:(by repeat constructor; apply (bool_decide_unpack _))
    ltac:(vm_compute; reflexivity) ltac:(by apply (bool_decide_unpack _)) ltac:(done) ltac:(by repeat constructor)
    ex_inv ex_temps_closed) as Hp.
  assert (Hr : (publishTar (H := ex_lock) ex_good ex_ctx ["7"] [] [] (abs_path ["c"; ".context-1.tar"])
    (abs_path ["c"; ex_digest]) (abs_path ["c"]) ex_world).2 = Ok tt) by (vm_compute; reflexivity).
  cbn [app] in Hp. destruct (publishTar _ _ _ _ _ _ _ _ ex_world) as [w' r]. simpl in *. subst r.
  destruct Hp as [_ [Hc [(m & ino & md & Hn & _)|Ha]]]; [|done]. vm_compute in Hn. discriminate Hn.
Defined.

Lemma validateContextDigest_iff_witness :
  validateContextDigest (λ s, s) ex_digest = Ok tt ∧ good ex_digest ∧ HasPrefix ex_digest "." = false.
Proof.
  destruct (validateContextDigest_iff (λ s, s) ex_digest) as [_ Hg].
  assert (Hv : validateContextDigest (λ s, s) ex_digest = Ok tt) by (vm_compute; reflexivity).
  split; [exact Hv|exact (Hg Hv)].
Defined.

Lemma CachedContextPresent_iff_witness :
  CachedContextPresent (λ s, s) ex_disk (abs_path ["c"]) ex_digest = Ok true ↔
  validateContextDigest (λ s, s) ex_digest = Ok tt ∧ complete (["c"] ++ [ex_digest]) ex_disk.
Proof.
  apply (CachedContextPresent_iff (λ s, s) ex_disk ["c"] ex_digest);
    [done|by repeat constructor; apply (bool_decide_unpack _)|exact ex_real_dir1].
Defined.
