(* ===== verification/DiskTree.v ===== *)
(** * The operations keep the disk a tree

    [wf_disk] says that every name lies in a directory, is made of plain components and, for
    a file, has data.  Every operation of the shim on an absolute path keeps it, so the
    theorems about walks apply to the disk that a transfer leaves.  [keeps m] is that
    statement for a computation; the hint database [tree] closes it on composed ones. *)

From Stdlib Require Import Ascii.
From S2P Require Import Prelude GoStrings GoPath OsFs TarUnpack TarCache.

(** ** Where a path resolves to *)

Definition dir_at (fs : fsys) (p : path) : Prop := ∃ m, lookup_name fs p = Some (DDir m).

(** An existing object, or a plain name in an existing directory. *)
Definition place (fs : fsys) (q : path) : Prop :=
  is_Some (lookup_name fs q) ∨ ∃ p c, q = p ++ [c] ∧ good c ∧ dir_at fs p.

Lemma dir_parent fs p : wf_disk fs → dir_at fs p → dir_at fs (take (length p - 1) p).
Proof.
  intros Hwf [m Hm]. destruct p as [|c p _] using rev_ind; [by exists 493%Z|].
  rewrite length_app. simpl. rewrite take_app_le by lia. rewrite take_ge by lia.
  rewrite lookup_name_ne in Hm by by destruct p. by eapply wf_parent.
Qed.

Lemma namei_place follow budget fs cur cs q :
  wf_disk fs → dir_at fs cur → Forall (λ c, contains_byte slash c = false) cs →
  namei follow budget fs cur cs = Ok q → place fs q.
Proof.
  intros Hwf. revert cur cs. induction budget as [|budget IHb]; intros cur cs; revert cur;
    induction cs as [|c cs IH]; intros cur Hd Hcs H; rewrite ?namei_nil in H;
    try (injection H as <-; left; by destruct Hd as [m ->]).
  all: apply Forall_cons in Hcs as [Hc Hcs]; cbn [namei] in H.
  all: case_bool_decide as E1; [by eapply IH|].
  all: case_bool_decide as E2; [eapply IH; [by apply dir_parent|done|done]|].
  all: assert (Hg : good c) by (split_and!; naive_solver).
  all: assert (Hpl : place fs (cur ++ [c])) by (right; by exists cur, c).
  all: destruct (lookup_name fs (cur ++ [c])) as [[m|ino|t|]|] eqn:El.
  all: try (case_bool_decide; simplify_eq; done).
  all: try (eapply IH; [by exists m|done|exact H]).
  all: destruct (_ && _); [by simplify_eq|]; try done.
  eapply IHb; [|apply Forall_app; split; [apply Split_nosep|exact Hcs]|exact H].
  destruct (IsAbs t); [by exists 493%Z|done].
Qed.

Lemma resolve_place follow fs p q :
  wf_disk fs → IsAbs p = true → resolve follow fs p = Ok q → place fs q.
Proof.
  intros Hwf Ha. unfold resolve. case_bool_decide; [done|]. rewrite Ha. apply namei_place; [done|by exists 493%Z|].
  apply Split_nosep.
Qed.

(** ** Single changes *)

Lemma wf_add fs p c d ins n :
  wf_disk fs → good c → dir_at fs p → lookup_name fs (p ++ [c]) = None →
  (∀ i, i < next_ino fs → is_Some (inodes fs !! i) → is_Some (ins !! i)) → next_ino fs ≤ n →
  (∀ i, d = DFile i → is_Some (ins !! i) ∧ i < n) →
  wf_disk {| names := <[p ++ [c] := d]> (names fs); inodes := ins; next_ino := n; cwd := cwd fs; umask := umask fs |}.
Proof.
  intros [W1 W2 W3] Hc [m Hm] Hn Hi Hlt Hd. rewrite lookup_name_ne in Hn by by destruct p. split; simpl.
  - intros q d' [[<- <-]|[_ Hq]]%lookup_insert_Some; [|by eapply W1]. split; [by destruct p|].
    apply Forall_app. split; [|by constructor]. destruct p as [|x p]; [constructor|]. by eapply W1.
  - intros q c' d' H. assert (dir_at fs q) as [m' Hm'].
    { apply lookup_insert_Some in H as [[E _]|[_ Hq]]; [|by eapply W2]. apply app_inj_2 in E as [<- _]; [by exists m|done]. }
    exists m'. destruct q as [|x q]; [done|]. simpl in *. rewrite lookup_insert_ne; [done|]. intros E. congruence.
  - intros q i [[<- ->]|[_ Hq]]%lookup_insert_Some; [by apply Hd|]. destruct (W3 _ _ Hq) as [H1 H2]. split; [auto|lia].
Qed.

Lemma wf_add_entry fs p d fs' :
  wf_disk fs → IsAbs p = true → (∀ i, d = DFile i → is_Some (inodes fs !! i) ∧ i < next_ino fs) →
  add_entry fs p d = Ok fs' → wf_disk fs'.
Proof.
  intros Hwf Ha Hd (q & Hr & H)%result_bind_ok. destruct (lookup_name fs q) eqn:El; [done|]. injection H as <-.
  destruct (resolve_place _ _ _ _ Hwf Ha Hr) as [[? ?]|(p' & c & -> & Hc & Hp)]; [congruence|].
  by apply (wf_add fs p' c d (inodes fs) (next_ino fs)).
Qed.

Lemma wf_create fs q md :
  wf_disk fs → place fs q → lookup_name fs q = None →
  wf_disk {| names := <[q := DFile (next_ino fs)]> (names fs); inodes := <[next_ino fs := md]> (inodes fs);
             next_ino := S (next_ino fs); cwd := cwd fs; umask := umask fs |}.
Proof.
  intros Hwf [[? ?]|(p & c & -> & Hc & Hp)] Hn; [congruence|]. apply wf_add; try done; [|lia|].
  - intros i Hi Hs. rewrite lookup_insert_ne; [done|lia].
  - intros i [= <-]. rewrite lookup_insert_eq. split; [by eexists|lia].
Qed.

Lemma wf_Mkdir fs p mode fs' : wf_disk fs → IsAbs p = true → os_Mkdir fs p mode = Ok fs' → wf_disk fs'.
Proof. intros Hwf Ha. by apply wf_add_entry. Qed.

Lemma wf_Symlink fs t p fs' : wf_disk fs → IsAbs p = true → os_Symlink fs t p = Ok fs' → wf_disk fs'.
Proof. intros Hwf Ha. unfold os_Symlink. case_bool_decide; [done|]. by apply wf_add_entry. Qed.

Lemma wf_Link fs old p fs' : wf_disk fs → IsAbs p = true → os_Link fs old p = Ok fs' → wf_disk fs'.
Proof.
  intros Hwf Ha (d & Hst & H)%result_bind_ok. unfold os_Lstat, stat in Hst.
  apply result_bind_ok in Hst as (q & _ & Hq). destruct (lookup_name fs q) as [d'|] eqn:El; [|done]. injection Hq as ->.
  destruct d as [m|ino|t|]; [done|..]; (eapply wf_add_entry; [exact Hwf|exact Ha| |exact H]); try done.
  intros i [= <-]. destruct q; [done|]. by eapply wf_ino.
Qed.

Lemma wf_CreateExcl fs p mode data fs' :
  wf_disk fs → IsAbs p = true → os_CreateExcl fs p mode data = Ok fs' → wf_disk fs'.
Proof.
  intros Hwf Ha (fs1 & H1 & [= <-])%result_bind_ok. apply result_bind_ok in H1 as (q & Hr & H).
  destruct (lookup_name fs q) eqn:El; [done|]. injection H as <-. simpl.
  apply wf_create; [done|by eapply resolve_place|done].
Qed.

Lemma wf_set_data fs ino f : wf_disk fs → wf_disk (set_data fs ino f).
Proof.
  intros [W1 W2 W3]. split; [exact W1|exact W2|]. intros p i Hp. destruct (W3 _ _ Hp) as [Hs Hi]. split; [|done].
  simpl. by apply lookup_alter_is_Some.
Qed.

Lemma wf_WriteFile fs p data mode fs' :
  wf_disk fs → IsAbs p = true → os_WriteFile fs p data mode = Ok fs' → wf_disk fs'.
Proof.
  intros Hwf Ha (q & Hr & H)%result_bind_ok. pose proof (resolve_place _ _ _ _ Hwf Ha Hr) as Hpl.
  destruct (lookup_name fs q) as [[]|] eqn:El; try done; injection H as <-; [by apply wf_set_data|].
  by apply wf_create.
Qed.

Lemma wf_MkdirAll fs p mode fs' : wf_disk fs → IsAbs p = true → os_MkdirAll fs p mode = Ok fs' → wf_disk fs'.
Proof.
  intros Hwf Ha. unfold os_MkdirAll.
  assert (Hl : Forall (λ s, IsAbs s = true) (filter (λ s, s ≠ "") (path_prefixes p))).
  { unfold path_prefixes. apply HasPrefix_spec in Ha as [r ->]. change (sep +:+ r) with ("" +:+ String slash r).
    rewrite Split_app_sep by done. apply Forall_forall. intros s [Hs ([|[|n]] & -> & Hn)%list_elem_of_fmap]%list_elem_of_filter.
    - done.
    - done.
    - cbn [take]. destruct (Split slash r) as [|x l] eqn:E; [by apply Split_not_nil in E|]. simpl take.
      rewrite Join_cons by done. done. }
  revert fs Hwf. induction Hl as [|s l Hs _ IH]; intros fs Hwf; simpl; [by intros [= <-]|].
  destruct (mkdir_all_step mode fs s) as [fs1|e] eqn:E; [|done]. intros H. eapply IH; [|exact H].
  unfold mkdir_all_step in E. destruct (os_Stat fs s) as [d|e]; [destruct (is_dir d); by simplify_eq|].
  destruct (os_IsNotExist e); [|done]. by eapply wf_Mkdir.
Qed.

(** Cutting off everything below a name. *)
Lemma wf_prune fs q : q ≠ [] → wf_disk fs → wf_disk (set_names (filter (λ kd, under q kd.1 = false)) fs).
Proof.
  intros Hq [W1 W2 W3]. split; simpl.
  - intros p d [Hp _]%map_lookup_filter_Some. by eapply W1.
  - intros p c d [Hp Hu]%map_lookup_filter_Some. destruct (W2 _ _ _ Hp) as [m Hm]. exists m. destruct p as [|x p]; [done|].
    simpl in *. apply map_lookup_filter_Some. split; [done|]. simpl. rewrite under_false in *. intros r E.
    apply (Hu (r ++ [c])). by rewrite app_comm_cons, E, <-app_assoc.
  - intros p i [Hp _]%map_lookup_filter_Some. by eapply W3.
Qed.

Lemma wf_delete_file fs q ino : wf_disk fs → names fs !! q = Some (DFile ino) → wf_disk (set_names (delete q) fs).
Proof.
  intros [W1 W2 W3] Hq. split; simpl.
  - intros p d [_ Hp]%lookup_delete_Some. by eapply W1.
  - intros p c d [_ Hp]%lookup_delete_Some. destruct (W2 _ _ _ Hp) as [m Hm]. exists m. destruct p as [|x p]; [done|].
    simpl in *. rewrite lookup_delete_ne; [done|]. congruence.
  - intros p i [_ Hp]%lookup_delete_Some. by eapply W3.
Qed.

(** Nothing is below a name that does not exist. *)
Lemma wf_closed_at fs p : p ≠ [] → wf_disk fs → closed_at p fs.
Proof.
  intros Hne Hwf Hp r. induction r as [|c r IH] using rev_ind; [by rewrite app_nil_r|].
  destruct (names fs !! (p ++ r ++ [c])) as [d|] eqn:E; [|done]. rewrite app_assoc in E.
  destruct (wf_parent fs Hwf _ _ _ E) as [m Hm]. rewrite lookup_name_ne in Hm by by destruct p.
  by rewrite IH in Hm.
Qed.

Lemma wf_Rename fs old new fs' :
  wf_disk fs → IsAbs old = true → IsAbs new = true → os_Rename fs old new = Ok fs' → wf_disk fs'.
Proof.
  intros Hwf Ho Hn (a & Ha & (b & Hb & H)%result_bind_ok)%result_bind_ok.
  destruct (lookup_name fs a) as [da|] eqn:Ea; [|done]. destruct (under a b) eqn:Eab; [done|].
  destruct (lookup_name fs b) as [|] eqn:Eb; [done|]. injection H as <-.
  destruct (resolve_place _ _ _ _ Hwf Hn Hb) as [[? ?]|(p & c & -> & Hc & [m Hp])]; [congruence|].
  assert (Hne : p ++ [c] ≠ []) by by destruct p. rewrite lookup_name_ne in Eb by done.
  assert (Hane : a ≠ []) by (intros ->; done).
  assert (Hclosed : ∀ q d, names fs !! q = Some d → under (p ++ [c]) q = false).
  { intros q d Hq. apply under_false. intros r ->. rewrite (wf_closed_at _ _ Hne Hwf Eb r) in Hq. done. }
  assert (Hlk := λ q, lookup_move_tree a (p ++ [c]) (names fs) q Hclosed Eab).
  destruct Hwf as [W1 W2 W3]. rewrite lookup_name_ne in Ea by done. split; cbn [names set_names].
  - intros q d. rewrite Hlk. destruct (under (p ++ [c]) q) eqn:Eu.
    + apply under_spec in Eu as [r ->]. rewrite drop_app_length. intros [_ Hg]%W1. split; [by destruct p|].
      apply Forall_app in Hg as [_ Hg]. rewrite !Forall_app. split_and!; [|by constructor|done].
      destruct p; [constructor|]. by eapply W1.
    + destruct (under a q); [done|]. apply W1.
  - intros q x d. rewrite Hlk. intros H.
    assert (Hdir : (∃ m, q ≠ [] ∧ move_tree a (p ++ [c]) (names fs) !! q = Some (DDir m)) ∨ q = []).
    { destruct (decide (q = [])) as [->|Hq]; [by right|]. left. rewrite Hlk. destruct (under (p ++ [c]) (q ++ [x])) eqn:Eu.
      - apply under_spec in Eu as [r E]. rewrite E in H. rewrite drop_app_length in H.
        destruct r as [|y r _] using rev_ind.
        + rewrite app_nil_r in *. apply app_inj_2 in E as [-> _]; [|done]. exists m. split; [done|].
          rewrite lookup_name_ne in Hp by done.
          rewrite (proj2 (under_false _ _)) by (intros r E; apply (f_equal length) in E; rewrite !length_app in E; simpl in E; lia).
          rewrite (proj2 (under_false a p)); [done|]. intros r ->. rewrite <-app_assoc, under_app in Eab. done.
        + rewrite app_assoc in E. apply app_inj_2 in E as [-> _]; [|done]. rewrite app_assoc in H.
          destruct (W2 _ _ _ H) as [m' Hm']. exists m'. split; [done|]. rewrite under_app, drop_app_length.
          by rewrite lookup_name_ne in Hm' by by destruct a.
      - destruct (under a (q ++ [x])) eqn:Ea'; [done|]. destruct (W2 _ _ _ H) as [m' Hm']. exists m'. split; [done|].
        rewrite lookup_name_ne in Hm' by done. rewrite (Hclosed _ _ Hm').
        rewrite (proj2 (under_false a q)); [done|]. intros r ->. rewrite <-app_assoc, under_app in Ea'. done. }
    destruct Hdir as [(m' & Hq & Hm')| ->]; [|by exists 493%Z]. exists m'. by rewrite lookup_name_ne.
  - intros q i. rewrite Hlk. destruct (under (p ++ [c]) q); [apply W3|]. destruct (under a q); [done|]. apply W3.
Qed.

(** ** Computations *)

Definition keeps {A} (m : osM A) : Prop := ∀ w, wf_disk (disk w) → wf_disk (disk (m w).1).

Create HintDb tree discriminated.

Lemma keeps_bind {A B} (m : osM A) (k : A → osM B) : keeps m → (∀ a, keeps (k a)) → keeps (m ≫= k).
Proof.
  intros Hm Hk w Hw. specialize (Hm w Hw). unfold mbind, osM_bind.
  destruct (m w) as [w1 [a|e]]; [by apply Hk|done].
Qed.

Lemma keeps_ret {A} (a : A) : keeps (mret a).
Proof. by intros w. Qed.
Lemma keeps_fail {A} e : keeps (fail (A := A) e).
Proof. by intros w. Qed.
Lemma keeps_reads {A} (f : fsys → res A) : keeps (reads f).
Proof. by intros w. Qed.
Lemma keeps_try_reads {A} (f : fsys → res A) : keeps (try_reads f).
Proof. by intros w. Qed.
#[export] Hint Resolve keeps_bind keeps_ret keeps_fail keeps_reads keeps_try_reads : tree.

Lemma keeps_lift_bind {A B} (r : res A) (k : A → osM B) : (∀ a, r = Ok a → keeps (k a)) → keeps (lift r ≫= k).
Proof. intros Hk w Hw. unfold mbind, osM_bind, lift. destruct r; [by apply Hk|done]. Qed.

Lemma keeps_mutate f : (∀ fs fs', wf_disk fs → f fs = Ok fs' → wf_disk fs') → keeps (mutate f).
Proof. intros H w Hw. unfold mutate. destruct (f (disk w)) eqn:E; [by eapply H|done]. Qed.

Lemma keeps_on_error {A} (c : osM unit) (m : osM A) : keeps c → keeps m → keeps (on_error c m).
Proof.
  intros Hc Hm w Hw. unfold on_error. specialize (Hm w Hw). destruct (m w) as [w1 [a|e]]; [done|by apply Hc].
Qed.

Lemma keeps_ignore {A} (m : osM A) : keeps m → keeps (ignore m).
Proof. intros H w Hw. by apply H. Qed.

Ltac tree_mutate := apply keeps_mutate; intros;
  match goal with
  | H : os_Mkdir _ _ _ = _ |- _ => eapply wf_Mkdir; [..|exact H]
  | H : os_CreateExcl _ _ _ _ = _ |- _ => eapply wf_CreateExcl; [..|exact H]
  | H : os_Symlink _ _ _ = _ |- _ => eapply wf_Symlink; [..|exact H]
  | H : os_Link _ _ _ = _ |- _ => eapply wf_Link; [..|exact H]
  | H : os_MkdirAll _ _ _ = _ |- _ => eapply wf_MkdirAll; [..|exact H]
  | H : os_WriteFile _ _ _ _ = _ |- _ => eapply wf_WriteFile; [..|exact H]
  | H : os_Rename _ _ _ = _ |- _ => eapply wf_Rename; [..|exact H]
  end; eassumption.
#[export] Hint Extern 1 (keeps (mutate _)) => tree_mutate : tree.
#[export] Hint Resolve keeps_on_error keeps_ignore : tree.

Lemma IsAbs_path_Join a b : IsAbs a = true → IsAbs (path_Join [a; b]) = true.
Proof.
  intros [r ->]%HasPrefix_spec. unfold path_Join. rewrite bool_decide_false by done.
  rewrite Join_cons by done. unfold Clean. rewrite bool_decide_false by done. reflexivity.
Qed.
#[export] Hint Resolve IsAbs_path_Join : tree.

(** *** Unpacking *)

Lemma keeps_ensure_components current cs : IsAbs current = true → keeps (ensure_components current cs).
Proof.
  revert current. induction cs as [|c cs IH]; intros current Ha; cbn [ensure_components]; [auto with tree|].
  case_bool_decide; [by apply IH|]. assert (Ha' : IsAbs (path_Join [current; c]) = true) by auto with tree.
  apply keeps_bind; [auto with tree|]. intros [d|e]; case_match; auto with tree.
Qed.

Lemma keeps_ensurePathParent root target : IsAbs root = true → keeps (ensurePathParent root target).
Proof.
  intros Ha. unfold ensurePathParent. destruct (Rel root target) as [r|]; [|auto with tree].
  destruct (IsLocal r); [by apply keeps_ensure_components|auto with tree].
Qed.
#[export] Hint Resolve keeps_ensurePathParent : tree.

Lemma keeps_ensureNewPath root target : IsAbs root = true → keeps (ensureNewPath root target).
Proof. intros Ha. unfold ensureNewPath. repeat (apply keeps_bind; [auto with tree|]; intros ?). repeat case_match; auto with tree. Qed.

Lemma keeps_ensureDirectory root target :
  IsAbs root = true → IsAbs target = true → keeps (ensureDirectory root target).
Proof. intros Ha Ht. unfold ensureDirectory. repeat (apply keeps_bind; [auto with tree|]; intros ?). repeat case_match; auto with tree. Qed.
#[export] Hint Resolve keeps_ensureNewPath keeps_ensureDirectory : tree.

Lemma tarTarget_abs dest name t : IsAbs dest = true → tarTarget dest name = Ok t → IsAbs t = true.
Proof. intros Ha. unfold tarTarget. repeat case_match; try done. intros [= <-]. by apply IsAbs_path_Join. Qed.

Lemma keeps_unpack_entry dest hdr : IsAbs dest = true → keeps (unpack_entry dest hdr).
Proof.
  intros Ha. unfold unpack_entry. apply keeps_lift_bind. intros t Ht%tarTarget_abs; [|done].
  destruct (h_Typeflag hdr); try solve [auto with tree]; try (apply keeps_lift_bind; intros l _);
    repeat (apply keeps_bind; [auto with tree|]; intros ?); try case_match; auto with tree. 
Qed.

Lemma keeps_unpack_loop ctx i dest es fin : IsAbs dest = true → keeps (unpack_loop ctx i dest es fin).
Proof.
  intros Ha. revert i. induction es as [|h es IH]; intros i; cbn [unpack_loop]; destruct (ctx i); auto with tree.
  - destruct fin; auto with tree.
  - apply keeps_bind; [by apply keeps_unpack_entry|]. intros _. apply IH.
Qed.

Lemma keeps_unpackTar ctx tar_read tarFile dest : IsAbs dest = true → keeps (unpackTar ctx tar_read tarFile dest).
Proof.
  intros Ha. unfold unpackTar. repeat (apply keeps_bind; [auto with tree|]; intros ?). by apply keeps_unpack_loop.
Qed.
#[export] Hint Resolve keeps_unpackTar : tree.

(** *** Publishing *)

(** The order of the removals does not matter for what is left. *)
Lemma unlinks_pruned q order w :
  let w' := (osM_iter (λ x, mutate (unlink_below q x)) order w).1 in
  (osM_iter (λ x, mutate (unlink_below q x)) order w).2 = Ok tt ∧
  filter (λ kd, under q kd.1 = false) (names (disk w')) = filter (λ kd, under q kd.1 = false) (names (disk w)) ∧
  inodes (disk w') = inodes (disk w) ∧ next_ino (disk w') = next_ino (disk w) ∧
  cwd (disk w') = cwd (disk w) ∧ umask (disk w') = umask (disk w).
Proof.
  cbv zeta. revert w. induction order as [|x order IH]; intros w; [done|].
  set (w1 := {| disk := if under q x then set_names (delete x) (disk w) else disk w; trace := disk w :: trace w |}).
  change (osM_iter (λ x, mutate (unlink_below q x)) (x :: order) w) with (osM_iter (λ x, mutate (unlink_below q x)) order w1).
  destruct (IH w1) as (Hr & -> & -> & -> & -> & ->). split; [exact Hr|]. simpl.
  destruct (under q x) eqn:Ex; [|done]. split_and!; try done. simpl.
  rewrite map_filter_delete. apply delete_id, map_lookup_filter_None. right. intros d _. simpl. by rewrite Ex.
Qed.

(** A path whose last component is a plain name does not resolve to the root. *)
Lemma namei_not_root budget fs cur cs c q :
  good c → last cs = Some c → namei false budget fs cur cs = Ok q → q ≠ [].
Proof.
  intros (G1 & G2 & G3 & G4). revert cur cs. induction budget as [|budget IHb]; intros cur cs; revert cur;
    (induction cs as [|x cs IH]; intros cur Hl H; [done|]); cbn [namei] in H.
  all: assert (Hl' : (cs = [] ∧ x = c) ∨ (cs ≠ [] ∧ last cs = Some c))
    by (destruct cs; [left; split; [done|by injection Hl]|by right]).
  all: case_bool_decide as E1; [destruct Hl' as [[-> ->]|[_ ?]]; [naive_solver|by eapply IH]|].
  all: case_bool_decide as E2; [destruct Hl' as [[-> ->]|[_ ?]]; [naive_solver|by eapply IH]|].
  all: assert (Hne : cur ++ [x] ≠ []) by by destruct cur.
  all: destruct (lookup_name fs (cur ++ [x])) as [[m|ino|t|]|]; try (case_bool_decide; simplify_eq; done).
  all: try (destruct Hl' as [[-> ->]|[_ ?]]; [by simplify_eq|by eapply IH]).
  all: destruct (bool_decide (cs = []) && negb false) eqn:Ec; [by simplify_eq|]; try done.
  destruct Hl' as [[-> ->]|[Hcs Hl']]; [done|]. eapply IHb; [|exact H]. rewrite last_app. by rewrite Hl'.
Qed.

Lemma resolve_not_root fs ds c q :
  Forall good (ds ++ [c]) → resolve false fs (abs_path (ds ++ [c])) = Ok q → q ≠ [].
Proof.
  intros Hg. rewrite resolve_abs_unfold by (done || by destruct ds). apply (namei_not_root _ _ _ _ c).
  - by apply Forall_app in Hg as [_ [? _]%Forall_cons].
  - by rewrite last_snoc.
Qed.

Lemma keeps_remove_all order ds c : Forall good (ds ++ [c]) → keeps (remove_all order (abs_path (ds ++ [c]))).
Proof.
  intros Hg w Hw. unfold remove_all. destruct (resolve false (disk w) _) as [q|e] eqn:Er; [|done].
  apply resolve_not_root in Er; [|done].
  destruct (unlinks_pruned q order w) as (Hr & Hf & Hi & Hn & Hc & Hu). unfold mbind, osM_bind.
  destruct (osM_iter _ order w) as [w1 r]. simpl in *. subst r. unfold mutate.
  rewrite bool_decide_false by done. simpl. apply (wf_prune _ q Er) in Hw. unfold set_names in *.
  by rewrite Hf, Hi, Hn, Hc, Hu.
Qed.

Section publish.
Context `{!FileLock} (tar_read : bytes → archive) (bs : path) (Hne : bs ≠ []) (Hbs : Forall good bs).

Lemma keeps_MkdirTemp_bind {B} rnds (k : string → osM B) :
  Forall (λ r, contains_byte slash r = false) rnds →
  (∀ c, good c → keeps (k (abs_path (bs ++ [c])))) → keeps (os_MkdirTemp rnds (abs_path bs) ".context-" "" ≫= k).
Proof.
  intros Hr Hk. induction Hr as [|rnd rnds Hs _ IH]; [by intros w|]. intros w Hw. unfold mbind, osM_bind.
  cbn [os_MkdirTemp]. rewrite temp_name_abs by done. destruct (os_Mkdir _ _ _) as [fs|e] eqn:E.
  - apply Hk; [by apply temp_comp_good|]. simpl. eapply wf_Mkdir; [exact Hw| |exact E]. apply IsAbs_abs_path.
  - case_bool_decide; [|done]. by apply IH.
Qed.

Lemma keeps_fill_and_rename ctx tarFile tempDir cacheDir :
  IsAbs tempDir = true → IsAbs cacheDir = true → keeps (fill_and_rename tar_read ctx tarFile tempDir cacheDir).
Proof.
  intros Ht Hc. unfold fill_and_rename.
  assert (IsAbs (path_Join [tempDir; cacheCompletionMarker]) = true) by by apply IsAbs_path_Join.
  repeat (apply keeps_bind; [auto with tree|]; intros ?). auto with tree.
Qed.

Lemma keeps_publishTar ctx rnds order1 order2 tarFile sum :
  good sum → Forall (λ r, contains_byte slash r = false) rnds →
  keeps (publishTar tar_read ctx rnds order1 order2 tarFile (abs_path (bs ++ [sum])) (abs_path bs)).
Proof.
  intros Hs Hr. assert (Hrm : ∀ order c, good c → keeps (remove_all order (abs_path (bs ++ [c])))).
  { intros order c Hc. apply keeps_remove_all, Forall_app. auto. }
  assert (Hlock : keeps (try_lock (abs_path (bs ++ [sum]) +:+ ".lock"))) by (intros w; apply try_lock_tree).
  assert (Hrest : keeps (cached ← reads (λ fs, checkCache fs (abs_path (bs ++ [sum])));
    if (cached : bool) then mret tt
    else remove_all order1 (abs_path (bs ++ [sum])) ≫= λ _,
         tempDir ← os_MkdirTemp rnds (abs_path bs) ".context-" "";
         on_error (ignore (remove_all order2 tempDir)) (fill_and_rename tar_read ctx tarFile tempDir (abs_path (bs ++ [sum]))))).
  { apply keeps_bind; [auto with tree|]. intros [|]; [auto with tree|]. apply keeps_bind; [auto|]. intros _.
    apply keeps_MkdirTemp_bind; [done|]. intros c Hc. apply keeps_on_error; [apply keeps_ignore; auto|].
    apply keeps_fill_and_rename; apply IsAbs_abs_path. }
  unfold publishTar. apply keeps_bind; [auto with tree|].
  intros [[]|e]; try solve [auto with tree]; (apply keeps_bind; [try case_match; auto with tree|]); intros _;
    (apply keeps_bind; [done|]); intros [|]; cbn [negb]; auto with tree.
Qed.
End publish.
