(* ===== verification/ContextWalk.v ===== *)
(** * Walking a cached context ([pkg/fileutils/tarxfer.go], [walkCachedContext])

    [filepath.Walk] of the standard library on the disk model, the closure that
    [walkCachedContext] gives it, and the proof that together they hand the callback
    every entry of the cached tree exactly once, in the order of the paths' components.
    Modification times and directory sizes come from the operating system and are
    parameters. *)

From Stdlib Require Import Ascii Sorting.Sorted.
From stdpp Require Import sorting.
From S2P Require Import Prelude GoStrings GoPath OsFs TarUnpack FileInfo.

(** ** The standard library's walk *)

Definition SkipDir : error := Sentinel "fs.SkipDir".
Definition SkipAll : error := Sentinel "fs.SkipAll".

(** The names in the directory [q]. *)
Definition child_of (q : path) (kd : path * dentry) : option string :=
  if under q kd.1 then match drop (length q) kd.1 with [c] => Some c | _ => None end else None.

Definition children (fs : fsys) (q : path) : list string := omap (child_of q) (map_to_list (names fs)).

(** [readDirNames]: sorted bytewise. *)
Definition readDirNames (fs : fsys) (p : string) : res (list string) :=
  q ← resolve true fs p;
  match lookup_name fs q with
  | Some (DDir _) => Ok (merge_sort String.le (children fs q))
  | Some _ => Err (Errno ENOTDIR)
  | None => Err (Errno ENOENT)
  end.

(** No tree of the disk is deeper than this. *)
Definition depth_bound (fs : fsys) : nat := S (max_list (length <$> (map_to_list (names fs)).*1)).

Section walk.
Context {S : Type}.

(** A [filepath.WalkFunc] with its state; the entry is absent when the error is not nil. *)
Definition WalkFunc := string → option dentry → option error → S → S * option error.

(** The children of a directory, [go] being the walk one level down. *)
Fixpoint walk_names (go : string → dentry → S → S * option error) (fs : fsys) (fn : WalkFunc)
    (path : string) (l : list string) (s : S) : S * option error :=
  match l with
  | [] => (s, None)
  | name :: l =>
      let filename := path_Join [path; name] in
      match os_Lstat fs filename with
      | Err e =>
          match fn filename None (Some e) s with
          | (s, Some e) => if bool_decide (e = SkipDir) then walk_names go fs fn path l s else (s, Some e)
          | (s, None) => walk_names go fs fn path l s
          end
      | Ok fileInfo =>
          match go filename fileInfo s with
          | (s, Some e) =>
              if negb (is_dir fileInfo) || negb (bool_decide (e = SkipDir)) then (s, Some e)
              else walk_names go fs fn path l s
          | (s, None) => walk_names go fs fn path l s
          end
      end
  end.

Fixpoint walk (fuel : nat) (fs : fsys) (fn : WalkFunc) (path : string) (info : dentry) (s : S) : S * option error :=
  if negb (is_dir info) then fn path (Some info) None s
  else match fuel with
  | O => (s, Some (Errno EIO))
  | Datatypes.S fuel =>
      let '(names, err) := match readDirNames fs path with Ok l => (l, None) | Err e => ([], Some e) end in
      match fn path (Some info) err s with
      | (s, None) => if err then (s, None) else walk_names (walk fuel fs fn) fs fn path names s
      | (s, Some e) => (s, Some e)
      end
  end.

Definition filepath_Walk (fs : fsys) (root : string) (fn : WalkFunc) (s : S) : S * option error :=
  let '(s, err) :=
    match os_Lstat fs root with
    | Err e => fn root None (Some e) s
    | Ok info => walk (depth_bound fs) fs fn root info s
    end in
  (s, match err with
      | Some e => if bool_decide (e = SkipDir) || bool_decide (e = SkipAll) then None else Some e
      | None => None
      end).
End walk.

(** ** The cached tree *)

Definition ModeDir : Z := 2147483648.
Definition ModeSymlink : Z := 134217728.

Section cached.
Context (mtime dir_size : string → Z).

(** [os.FileInfo] of an entry, as far as the shim reads it. *)
Definition info_size (fs : fsys) (p : string) (d : dentry) : Z :=
  match d with
  | DFile ino => match inodes fs !! ino with Some (_, data) => Z.of_nat (length data) | None => 0%Z end
  | DSym t => Z.of_nat (String.length t)
  | _ => dir_size p
  end.

Definition info_mode (fs : fsys) (d : dentry) : Z :=
  match d with
  | DDir m => Z.lor ModeDir m
  | DFile ino => match inodes fs !! ino with Some (m, _) => m | None => 0%Z end
  | DSym _ => Z.lor ModeSymlink 511
  | DOther => 0%Z
  end.

Definition isSupportedCacheEntry (info : dentry) : bool := is_regular info || is_dir info || is_symlink info.

Context {S : Type} (fn : string → FileInfo → S → S * option error).

Definition walkCachedEntry (fs : fsys) (path relativePath : string) (info : dentry) (s : S) : S * option error :=
  match (if is_symlink info then os_Readlink fs path else Ok "") with
  | Err e => (s, Some e)
  | Ok linkName =>
      fn relativePath
        {| NameVal := relativePath; SizeVal := info_size fs path info; ModeVal := info_mode fs info;
           ModTimeVal := mtime path; IsDirVal := is_dir info; Uid := 0; Gid := 0; LinkName := linkName |} s
  end.

(** The closure [walkCachedContext] hands to [filepath.Walk]. *)
Definition visit_cached (fs : fsys) (cacheDir : string) : WalkFunc (S := S) := λ p info walkErr s,
  match walkErr, info with
  | Some e, _ => (s, Some e)
  | None, None => (s, None)
  | None, Some info =>
      match Rel cacheDir p with
      | Err e => (s, Some e)
      | Ok rel =>
          if bool_decide (rel = ".") || bool_decide (rel = cacheCompletionMarker) then (s, None)
          else if negb (isSupportedCacheEntry info) then (s, None)
          else walkCachedEntry fs p rel info s
      end
  end.

Definition walkCachedContext (fs : fsys) (cacheDir : string) (s : S) : S * option error :=
  filepath_Walk fs cacheDir (visit_cached fs cacheDir) s.
End cached.

(** ** The tree a walk goes through *)

(** Paths in the order of their components, a directory before what is in it. *)
Fixpoint path_ltb (a b : path) : bool :=
  match a, b with
  | [], _ :: _ => true
  | x :: a, y :: b => if bool_decide (x = y) then path_ltb a b else bool_decide (String.le x y)
  | _, [] => false
  end.

Definition path_lt (a b : path) : Prop := path_ltb a b = true.

(** Everything below [q], each directory followed by its content. *)
Fixpoint subtree (fuel : nat) (fs : fsys) (q : path) : list (path * dentry) :=
  match fuel with
  | O => []
  | S fuel =>
      c ← merge_sort String.le (children fs q);
      match names fs !! (q ++ [c]) with
      | Some d => (q ++ [c], d) :: if is_dir d then subtree fuel fs (q ++ [c]) else []
      | None => []
      end
  end.

(** Call [f] on the elements in turn until it fails. *)
Fixpoint visit_all {A S} (f : A → S → S * option error) (l : list A) (s : S) : S * option error :=
  match l with
  | [] => (s, None)
  | x :: l => match f x s with (s, None) => visit_all f l s | (s, Some e) => (s, Some e) end
  end.

Lemma visit_all_app {A S} (f : A → S → S * option error) l1 l2 s :
  visit_all f (l1 ++ l2) s =
  match visit_all f l1 s with (s, None) => visit_all f l2 s | (s, Some e) => (s, Some e) end.
Proof.
  revert s. induction l1 as [|x l1 IH]; intros s; simpl; [done|].
  destruct (f x s) as [s1 [e|]]; [done|apply IH].
Qed.

Lemma visit_all_ext {A B S} (f : A → S → S * option error) (g : B → S → S * option error) (h : A → option B) l s :
  (∀ x s, x ∈ l → f x s = match h x with Some y => g y s | None => (s, None) end) →
  visit_all f l s = visit_all g (omap h l) s.
Proof.
  revert s. induction l as [|x l IH]; intros s Hf; [done|]. cbn [visit_all omap list_omap].
  rewrite Hf by apply list_elem_of_here.
  assert (∀ s, visit_all f l s = visit_all g (omap h l) s) as IH'.
  { intros s'. apply IH. intros y s'' Hy. apply Hf. by apply list_elem_of_further. }
  destruct (h x) as [y|]; [simpl; destruct (g y s) as [s1 [e|]]; [done|apply IH']|apply IH'].
Qed.

(** The same with the protocol of [filepath.Walk].  [SkipDir] for a directory leaves out what is
    below it, for anything else what is left of the directory it is in; [SkipAll] ends the walk
    without an error.  [sk] holds the directories that are left out so far. *)
Definition skip_root (x : path * dentry) : path := if is_dir x.2 then x.1 else take (length x.1 - 1) x.1.
Definition pruned (sk : list path) (p : path) : bool := existsb (λ a, under a p && negb (bool_decide (a = p))) sk.

Fixpoint visit_from {S} (f : path * dentry → S → S * option error) (l : list (path * dentry)) (sk : list path) (s : S) :
    list path * S * option error :=
  match l with
  | [] => (sk, s, None)
  | x :: l =>
      if pruned sk x.1 then visit_from f l sk s
      else match f x s with
      | (s, None) => visit_from f l sk s
      | (s, Some e) => if bool_decide (e = SkipDir) then visit_from f l (skip_root x :: sk) s else (sk, s, Some e)
      end
  end.

Definition visit_skip {S} (f : path * dentry → S → S * option error) (l : list (path * dentry)) (s : S) : S * option error :=
  match visit_from f l [] s with
  | (_, s, Some e) => (s, if bool_decide (e = SkipAll) then None else Some e)
  | (_, s, None) => (s, None)
  end.

Section visit_from.
Context {S : Type} (f : path * dentry → S → S * option error).

Lemma visit_from_app l1 l2 sk s :
  visit_from f (l1 ++ l2) sk s =
  match visit_from f l1 sk s with (sk, s, None) => visit_from f l2 sk s | r => r end.
Proof.
  revert sk s. induction l1 as [|x l1 IH]; intros sk s; [done|]. cbn [visit_from app].
  destruct (pruned sk x.1); [apply IH|]. destruct (f x s) as [s1 [e|]]; [|apply IH]. case_bool_decide; [apply IH|done].
Qed.

Lemma pruned_app a b p : pruned (a ++ b) p = pruned a p || pruned b p.
Proof. apply existsb_app. Qed.

Lemma visit_from_frame l sk0 sk s : (∀ x, x ∈ l → pruned sk x.1 = false) →
  visit_from f l (sk0 ++ sk) s = let '(k, s', e) := visit_from f l sk0 s in (k ++ sk, s', e).
Proof.
  revert sk0 s. induction l as [|x l IH]; intros sk0 s Hl; [done|]. cbn [visit_from].
  rewrite pruned_app, (Hl x), orb_false_r by apply list_elem_of_here.
  assert (Hl' : ∀ x, x ∈ l → pruned sk x.1 = false) by (intros y Hy; apply Hl; by apply list_elem_of_further).
  destruct (pruned sk0 x.1); [by apply IH|]. destruct (f x s) as [s1 [e|]]; [|by apply IH].
  case_bool_decide; [|done]. by apply (IH (skip_root x :: sk0)).
Qed.

Lemma visit_from_pruned l sk s : (∀ x, x ∈ l → pruned sk x.1 = true) → visit_from f l sk s = (sk, s, None).
Proof.
  intros Hl. induction l as [|x l IH]; [done|]. cbn [visit_from]. rewrite Hl by apply list_elem_of_here.
  apply IH. intros y Hy. apply Hl. by apply list_elem_of_further.
Qed.

Lemma visit_from_error l sk s k s' : visit_from f l sk s ≠ (k, s', Some SkipDir).
Proof.
  revert sk s. induction l as [|x l IH]; intros sk s; [done|]. cbn [visit_from].
  destruct (pruned sk x.1); [apply IH|]. destruct (f x s) as [s1 [e|]]; [|apply IH]. case_bool_decide; [apply IH|congruence].
Qed.

(** A function that skips nothing is called on every element. *)
Lemma visit_skip_all l s : (∀ x s, (f x s).2 ≠ Some SkipDir ∧ (f x s).2 ≠ Some SkipAll) → visit_skip f l s = visit_all f l s.
Proof.
  intros Hf. unfold visit_skip.
  assert (H : ∀ s, visit_from f l [] s = ([], (visit_all f l s).1, (visit_all f l s).2) ∧ (visit_all f l s).2 ≠ Some SkipAll).
  { induction l as [|x l IH]; intros s0; [done|]. cbn [visit_from visit_all pruned existsb].
    destruct (Hf x s0) as [H1 H2]. destruct (f x s0) as [s1 [e|]]; [|apply IH]. rewrite bool_decide_false by (simpl in *; congruence). done. }
  destruct (H s) as [-> Hn]. destruct (visit_all f l s) as [s' [e|]]; [|done]. simpl in *. rewrite bool_decide_false by congruence. done.
Qed.
End visit_from.

Lemma path_lt_prefix q a b : path_lt (q ++ a) (q ++ b) ↔ path_lt a b.
Proof. unfold path_lt. induction q as [|x q IH]; simpl; [done|]. by rewrite bool_decide_true. Qed.

Lemma child_of_Some q kd c : child_of q kd = Some c ↔ kd.1 = q ++ [c].
Proof.
  unfold child_of. split.
  - destruct (under q kd.1) eqn:E; [|done]. apply under_spec in E as [r ->].
    rewrite drop_app_length. destruct r as [|x [|]]; naive_solver.
  - intros ->. rewrite under_app, drop_app_length. done.
Qed.

Lemma elem_of_children fs q c : c ∈ children fs q ↔ is_Some (names fs !! (q ++ [c])).
Proof.
  unfold children. rewrite list_elem_of_omap. split.
  - intros ([k d] & Hin%elem_of_map_to_list & Hc%child_of_Some). simpl in *. subst. eauto.
  - intros [d Hd]. exists (q ++ [c], d). split; [by apply elem_of_map_to_list|by apply child_of_Some].
Qed.

Lemma NoDup_children fs q : NoDup (children fs q).
Proof.
  unfold children. assert (H : NoDup (map_to_list (names fs)).*1) by apply NoDup_fst_map_to_list.
  revert H. generalize (map_to_list (names fs)). induction l as [|[k d] l IH]; simpl; [constructor|].
  intros [Hk Hl]%NoDup_cons. destruct (child_of q (k, d)) as [c|] eqn:E; [|by apply IH].
  apply NoDup_cons. split; [|by apply IH]. intros ([k' d'] & Hin & Hc)%list_elem_of_omap.
  apply child_of_Some in E, Hc. simpl in *. subst. apply Hk. apply list_elem_of_fmap. by exists (q ++ [c], d').
Qed.

Lemma elem_of_sorted_children fs q c :
  c ∈ merge_sort String.le (children fs q) ↔ is_Some (names fs !! (q ++ [c])).
Proof. by rewrite merge_sort_Permutation, elem_of_children. Qed.

Lemma sorted_children fs q :
  StronglySorted (λ a b, String.le a b ∧ a ≠ b) (merge_sort String.le (children fs q)).
Proof.
  assert (Hn : NoDup (merge_sort String.le (children fs q))) by (rewrite merge_sort_Permutation; apply NoDup_children).
  pose proof (StronglySorted_merge_sort String.le (children fs q)) as Hs.
  induction Hs as [|x l Hs IH HF]; [constructor|]. apply NoDup_cons in Hn as [Hx Hn].
  constructor; [by apply IH|]. rewrite Forall_forall in HF |- *. intros y Hy. split; [by apply HF|]. by intros ->.
Qed.

Lemma subtree_below fuel fs q p d :
  (p, d) ∈ subtree fuel fs q → ∃ c r, p = q ++ c :: r ∧ names fs !! p = Some d.
Proof.
  revert q. induction fuel as [|fuel IH]; intros q; simpl; [by intros ?%elem_of_nil|].
  intros (c & Hin & Hc)%list_elem_of_bind. destruct (names fs !! (q ++ [c])) as [d'|] eqn:E; [|by apply elem_of_nil in Hin].
  apply elem_of_cons in Hin as [[= -> ->]|Hin]; [by exists c, []|].
  destruct (is_dir d'); [|by apply elem_of_nil in Hin].
  apply IH in Hin as (c' & r & -> & Hn). exists c, (c' :: r). by rewrite <-app_assoc in Hn |- *.
Qed.

Lemma subtree_sorted fuel fs q : StronglySorted path_lt (subtree fuel fs q).*1.
Proof.
  revert q. induction fuel as [|fuel IH]; intros q; simpl; [constructor|].
  pose proof (sorted_children fs q) as Hs. induction Hs as [|c l Hs IHl HF]; simpl; [constructor|].
  rewrite fmap_app. apply StronglySorted_app_2; [| |exact IHl].
  - intros p1 p2 H1 H2. apply list_elem_of_fmap in H1 as ([p1' d1] & -> & H1), H2 as ([p2' d2] & -> & H2). simpl.
    assert (∃ r1, p1' = q ++ c :: r1) as [r1 ->].
    { destruct (names fs !! (q ++ [c])) as [d|]; [|by apply elem_of_nil in H1].
      apply elem_of_cons in H1 as [[= -> ->]|H1]; [by exists []|].
      destruct (is_dir d); [|by apply elem_of_nil in H1].
      apply subtree_below in H1 as (c' & r & -> & _). exists (c' :: r). by rewrite <-app_assoc. }
    apply list_elem_of_bind in H2 as (c2 & H2 & Hc2).
    assert (∃ r2, p2' = q ++ c2 :: r2) as [r2 ->].
    { destruct (names fs !! (q ++ [c2])) as [d|]; [|by apply elem_of_nil in H2].
      apply elem_of_cons in H2 as [[= -> ->]|H2]; [by exists []|].
      destruct (is_dir d); [|by apply elem_of_nil in H2].
      apply subtree_below in H2 as (c' & r & -> & _). exists (c' :: r). by rewrite <-app_assoc. }
    apply path_lt_prefix. unfold path_lt. simpl. rewrite Forall_forall in HF. destruct (HF c2 Hc2) as [Hle Hne].
    rewrite bool_decide_false by done. by apply bool_decide_eq_true.
  - destruct (names fs !! (q ++ [c])) as [d|]; [|constructor]. simpl.
    destruct (is_dir d); simpl; [|repeat constructor]. constructor; [apply IH|].
    apply Forall_forall. intros p ([p' d'] & -> & (c' & r & -> & _)%subtree_below)%list_elem_of_fmap. simpl.
    rewrite <-(app_nil_r (q ++ [c])) at 1. by apply path_lt_prefix.
Qed.

(** Enough fuel: everything below [q] is in its subtree. *)
Lemma subtree_complete fuel fs q r d :
  wf_disk fs → (∀ p d, names fs !! p = Some d → length p < length q + fuel) →
  r ≠ [] → names fs !! (q ++ r) = Some d → (q ++ r, d) ∈ subtree fuel fs q.
Proof.
  intros Hwf. revert fuel q. induction r as [|c r IH]; intros fuel q Hf Hne Hn; [done|].
  destruct fuel as [|fuel]; [apply Hf in Hn; rewrite length_app in Hn; simpl in Hn; lia|].
  cbn [subtree]. apply list_elem_of_bind. exists c.
  assert (∃ d', names fs !! (q ++ [c]) = Some d' ∧ (r ≠ [] → is_dir d' = true)) as (d' & Hd' & Hdir).
  { clear IH Hf. revert d Hn. induction r as [|c' r IHr] using rev_ind; intros d Hn; [eauto|].
    destruct (wf_parent fs Hwf (q ++ c :: r) c' d) as [m Hm]; [by rewrite <-app_assoc|].
    rewrite lookup_name_ne in Hm by by destruct q. destruct r as [|x r]; [by eexists|].
    destruct (IHr ltac:(done) _ Hm) as (d' & ? & Hd'). exists d'. auto. }
  split; [|apply elem_of_sorted_children; eauto]. rewrite Hd'.
  destruct r as [|c' r]; [rewrite Hd' in Hn; injection Hn as ->; apply list_elem_of_here|].
  apply list_elem_of_further. rewrite Hdir by done.
  change (q ++ c :: c' :: r) with (q ++ [c] ++ c' :: r) in *. rewrite app_assoc in *.
  apply IH; [|done|done]. intros p d0 Hp. apply Hf in Hp. rewrite length_app. simpl. lia.
Qed.

Lemma wf_Lstat fs p c d :
  wf_disk fs → names fs !! (p ++ [c]) = Some d → os_Lstat fs (abs_path (p ++ [c])) = Ok d.
Proof.
  intros Hwf Hd. destruct (wf_good fs Hwf _ _ Hd) as [_ [Hp [Hc _]%Forall_cons]%Forall_app].
  destruct (wf_parent fs Hwf _ _ _ Hd) as [m Hm]. rewrite Lstat_in_real; [by rewrite Hd|done|done|].
  by eapply wf_real_dir.
Qed.

Lemma depth_bound_spec fs p d : names fs !! p = Some d → length p < depth_bound fs.
Proof.
  intros Hp%elem_of_map_to_list. unfold depth_bound. apply le_n_S. 
  apply (max_list_elem_of_le). apply list_elem_of_fmap. exists p. split; [done|].
  apply list_elem_of_fmap. by exists (p, d).
Qed.

(** ** [filepath.Walk] visits the subtree *)

Section visits.
Context {S : Type} (fs : fsys) (Hwf : wf_disk fs) (fn : WalkFunc (S := S)).

Definition call_fn (x : path * dentry) (s : S) : S * option error := fn (abs_path x.1) (Some x.2) None s.

(** An entry with what is below it. *)
Definition block (fuel : nat) (q : path) (d : dentry) : list (path * dentry) :=
  (q, d) :: if is_dir d then subtree fuel fs q else [].

Lemma block_below fuel q d x : x ∈ block fuel q d → ∃ r, x.1 = q ++ r.
Proof.
  intros [->|Hx]%elem_of_cons; [exists []; by rewrite app_nil_r|]. destruct (is_dir d); [|by apply elem_of_nil in Hx].
  destruct x as [p d']. apply subtree_below in Hx as (c & r & -> & _). by exists (c :: r).
Qed.

Lemma subtree_pruned fuel q x : x ∈ subtree fuel fs q → pruned [q] x.1 = true.
Proof.
  destruct x as [p d]. intros (c & r & -> & _)%subtree_below. simpl. rewrite under_app, bool_decide_false; [done|].
  intros E%(f_equal length). rewrite length_app in E. simpl in E. lia.
Qed.

(** What is left out below one name says nothing about the names next to it. *)
Lemma pruned_sibling (q : path) c c' sk r : c ≠ c' → Forall (λ a, under (q ++ [c]) a = true) sk → pruned sk (q ++ c' :: r) = false.
Proof.
  intros Hne Hsk. unfold pruned. apply not_true_iff_false. intros (a & Ha & Hb)%existsb_exists. apply list_elem_of_In in Ha.
  rewrite Forall_forall in Hsk. apply Hsk in Ha. apply under_spec in Ha as [r1 ->]. apply andb_true_iff in Hb as [Hb _].
  apply under_spec in Hb as [r2 E]. rewrite <-!app_assoc in E. apply app_inv_head in E. by injection E.
Qed.

Lemma readDirNames_real q m :
  q ≠ [] → names fs !! q = Some (DDir m) →
  readDirNames fs (abs_path q) = Ok (merge_sort String.le (children fs q)).
Proof.
  intros Hne Hq. destruct (wf_good fs Hwf _ _ Hq) as [_ Hg].
  assert (lookup_name fs q = Some (DDir m)) as Hl by by rewrite lookup_name_ne.
  unfold readDirNames. rewrite resolve_real; [|done|done|by eapply wf_real_dir]. simpl. by rewrite Hl.
Qed.

(** The result of a walk over an entry against the visit of its block: the same state, the same
    error, and a skip that only concerns the entry, or the directory a file is in. *)
Definition walk_agrees (q : path) (d : dentry) (res : S * option error) (v : list path * S * option error) : Prop :=
  match v with
  | (_, s, Some e) => res = (s, Some e)
  | (k, s, None) =>
      if is_dir d then res.1 = s ∧ (res.2 = None ∨ res.2 = Some SkipDir) ∧ Forall (λ a, under q a = true) k
      else (res = (s, None) ∧ k = []) ∨ (res = (s, Some SkipDir) ∧ k = [take (length q - 1) q])
  end.

Definition names_agree (q : path) (res : S * option error) (v : list path * S * option error) : Prop :=
  match v with
  | (_, s, Some e) => res = (s, Some e)
  | (k, s, None) => res.1 = s ∧ (res.2 = None ∨ res.2 = Some SkipDir) ∧ Forall (λ a, under q a = true) k
  end.

Lemma walk_names_visits fuel q l s :
  (∀ c d s, c ∈ l → names fs !! (q ++ [c]) = Some d →
    walk_agrees (q ++ [c]) d (walk fuel fs fn (abs_path (q ++ [c])) d s) (visit_from call_fn (block fuel (q ++ [c]) d) [] s)) →
  NoDup l → (∀ c, c ∈ l → is_Some (names fs !! (q ++ [c]))) → q ≠ [] → Forall good q →
  let blocks := c ← l; match names fs !! (q ++ [c]) with Some d => block fuel (q ++ [c]) d | None => [] end in
  names_agree q (walk_names (walk fuel fs fn) fs fn (abs_path q) l s) (visit_from call_fn blocks [] s).
Proof.
  intros IH Hnd Hl Hne Hg. revert s. induction l as [|c l IHl]; intros s; [by split_and!; [|left|constructor]|]. cbn [walk_names mbind list_bind].
  apply NoDup_cons in Hnd as [Hc Hnd]. destruct (Hl c) as [d Hd]; [apply list_elem_of_here|].
  destruct (wf_good fs Hwf _ _ Hd) as [_ [_ [Hgc _]%Forall_cons]%Forall_app].
  rewrite path_Join_snoc, wf_Lstat with (d := d), Hd by done. rewrite visit_from_app.
  specialize (IH c d) as Hblock. specialize (Hblock s (list_elem_of_here _ _) Hd).
  assert (IHl' : ∀ s, names_agree q (walk_names (walk fuel fs fn) fs fn (abs_path q) l s)
    (visit_from call_fn (c ← l; match names fs !! (q ++ [c]) with Some d => block fuel (q ++ [c]) d | None => [] end) [] s)).
  { apply IHl; [|done|]; intros; [apply IH|apply Hl]; try done; by apply list_elem_of_further. }
  assert (Hrest : ∀ x, x ∈ (c ← l; match names fs !! (q ++ [c]) with Some d => block fuel (q ++ [c]) d | None => [] end) →
    ∃ c' r, c' ∈ l ∧ x.1 = q ++ c' :: r).
  { intros x (c' & Hx & Hc')%list_elem_of_bind. destruct (names fs !! (q ++ [c'])) as [d'|]; [|by apply elem_of_nil in Hx].
    apply block_below in Hx as [r E]. exists c', r. split; [done|]. by rewrite E, <-app_assoc. }
  pose proof (visit_from_error call_fn (block fuel (q ++ [c]) d) [] s) as Hns.
  destruct (visit_from call_fn (block fuel (q ++ [c]) d) [] s) as [[k1 s1] [e|]]; cbn [walk_agrees] in Hblock.
  { rewrite Hblock. rewrite (bool_decide_false (e = SkipDir)), orb_true_r; [done|]. intros ->. by apply (Hns k1 s1). }
  destruct (is_dir d) eqn:Ed.
  - destruct Hblock as (E1 & E2 & Hk). destruct (walk fuel fs fn (abs_path (q ++ [c])) d s) as [s1' e]. simpl in E1, E2. subst s1'.
    assert (Hres : (match e with
        | Some e0 => if negb true || negb (bool_decide (e0 = SkipDir)) then (s1, Some e0) else walk_names (walk fuel fs fn) fs fn (abs_path q) l s1
        | None => walk_names (walk fuel fs fn) fs fn (abs_path q) l s1 end) = walk_names (walk fuel fs fn) fs fn (abs_path q) l s1).
    { destruct E2 as [-> | ->]; [done|]. by rewrite bool_decide_true. }
    rewrite Hres. change k1 with ([] ++ k1). rewrite visit_from_frame.
    + specialize (IHl' s1). destruct (visit_from _ _ [] s1) as [[k s'] [e'|]]; [done|]. destruct IHl' as (? & ? & ?). split_and!; try done.
      apply Forall_app. split; [done|]. eapply Forall_impl; [exact Hk|]. intros a [r ->]%under_spec. rewrite <-app_assoc. apply under_app.
    + intros x (c' & r & Hc' & ->)%Hrest. apply (pruned_sibling q c); [congruence|done].
  - destruct Hblock as [[-> ->]|[-> ->]]; [apply IHl'|]. cbn [negb orb]. rewrite length_app. simpl. replace (length q + 1 - 1) with (length q) by lia.
    rewrite take_app_length, visit_from_pruned; [split_and!; [done|by right|by repeat constructor; apply under_refl]|].
    intros x (c' & r & _ & E)%Hrest. rewrite E. simpl. rewrite under_app, bool_decide_false; [done|].
    intros F%(f_equal length). rewrite length_app in F. simpl in F. lia.
Qed.

Lemma walk_visits fuel q d s :
  names fs !! q = Some d → (∀ p d, names fs !! p = Some d → length p < length q + fuel) →
  walk_agrees q d (walk fuel fs fn (abs_path q) d s) (visit_from call_fn (block fuel q d) [] s).
Proof.
  revert q d s. induction fuel as [|fuel IH]; intros q d s Hq Hf.
  { apply Hf in Hq. lia. }
  destruct (is_dir d) eqn:Ed; cycle 1.
  { cbn [walk]. unfold block. rewrite Ed. cbn [negb visit_from pruned existsb]. unfold call_fn. cbn [fst snd].
    destruct (fn _ _ _ s) as [s1 [e|]]; [|unfold walk_agrees; rewrite Ed; by left].
    case_bool_decide as E; [|done]. subst e. unfold walk_agrees, skip_root. cbn [fst snd]. rewrite Ed. by right. }
  destruct d as [m| | |]; try done. cbn [walk is_dir negb].
  destruct (wf_good fs Hwf _ _ Hq) as [Hne Hg]. rewrite (readDirNames_real q m) by done.
  unfold block. cbn [is_dir visit_from pruned existsb]. unfold call_fn at 1. cbn [fst snd].
  destruct (fn (abs_path q) (Some (DDir m)) None s) as [s1 [e|]].
  { case_bool_decide as E; [|done]. subst e. unfold skip_root. cbn [fst snd is_dir].
    rewrite visit_from_pruned by (intros x; apply subtree_pruned). split_and!; [done|by right|]. repeat constructor. apply under_refl. }
  assert (Hn := walk_names_visits fuel q (merge_sort String.le (children fs q)) s1). cbv zeta in Hn.
  cbn [subtree]. apply Hn; [|rewrite merge_sort_Permutation; apply NoDup_children|intros c; apply elem_of_sorted_children|done|done].
  intros c d s' _ Hd. apply IH; [done|]. intros p' d' Hp'. apply Hf in Hp'. rewrite length_app. simpl. lia.
Qed.

(** [filepath.Walk] of a directory is the visit of everything in it, with its skips. *)
Lemma filepath_Walk_visits q m s :
  q ≠ [] → names fs !! q = Some (DDir m) →
  filepath_Walk fs (abs_path q) fn s = visit_skip call_fn ((q, DDir m) :: subtree (depth_bound fs) fs q) s.
Proof.
  intros Hne Hq. unfold filepath_Walk, visit_skip.
  assert (os_Lstat fs (abs_path q) = Ok (DDir m)) as ->.
  { destruct q as [|c q] using rev_ind; [done|]. by apply wf_Lstat. }
  pose proof (walk_visits (depth_bound fs) q (DDir m) s Hq) as Hw. unfold block in Hw. cbn [is_dir] in Hw.
  pose proof (visit_from_error call_fn ((q, DDir m) :: subtree (depth_bound fs) fs q) [] s) as Hns.
  destruct (visit_from _ _ [] s) as [[k s'] [e|]]; cbn [walk_agrees is_dir] in Hw.
  - rewrite Hw by (intros p d Hp%depth_bound_spec; lia). rewrite (bool_decide_false (e = SkipDir)); [done|]. intros ->. by apply (Hns k s').
  - destruct Hw as (E1 & E2 & _); [intros p d Hp%depth_bound_spec; lia|]. destruct (walk _ _ _ _ _ s) as [s1 e]. simpl in *. subst s1.
    by destruct E2 as [-> | ->].
Qed.
End visits.

(** ** The entries of a cached context *)

(** The entries the callback gets, relative to the cache directory. *)
Definition cached_entry (cd : path) (x : path * dentry) : option (path * dentry) :=
  let r := drop (length cd) x.1 in
  if bool_decide (r = [cacheCompletionMarker]) || negb (isSupportedCacheEntry x.2) then None
  else Some (r, x.2).

Definition listing (fs : fsys) (cd : path) : list (path * dentry) :=
  omap (cached_entry cd) (subtree (depth_bound fs) fs cd).

(** The information the callback gets for one of them. *)
Definition entry_info (mtime dir_size : string → Z) (fs : fsys) (cd : path) (x : path * dentry) : FileInfo :=
  let p := abs_path (cd ++ x.1) in
  {| NameVal := rel_path x.1; SizeVal := info_size dir_size fs p x.2; ModeVal := info_mode fs x.2;
     ModTimeVal := mtime p; IsDirVal := is_dir x.2; Uid := 0; Gid := 0;
     LinkName := match x.2 with DSym t => t | _ => "" end |}.

Lemma elem_of_listing fs cd r d :
  wf_disk fs →
  (r, d) ∈ listing fs cd ↔
  r ≠ [] ∧ names fs !! (cd ++ r) = Some d ∧ d ≠ DOther ∧ r ≠ [cacheCompletionMarker].
Proof.
  intros Hwf. unfold listing. rewrite list_elem_of_omap. split.
  - intros ([p d'] & (c & r' & -> & Hn)%subtree_below & Hc). unfold cached_entry in Hc. simpl in Hc.
    rewrite drop_app_length in Hc. destruct (_ || _) eqn:E; [done|]. injection Hc as <- <-.
    apply orb_false_iff in E as [E1%bool_decide_eq_false E2%negb_false_iff]. split_and!; [done..| |done].
    by intros ->.
  - intros (Hr & Hn & Hd & Hm). exists (cd ++ r, d). split.
    + apply subtree_complete; [done| |done|done]. intros p d' Hp%depth_bound_spec. lia.
    + unfold cached_entry. simpl. rewrite drop_app_length, bool_decide_false by done. by destruct d.
Qed.

Lemma listing_sorted fs cd : StronglySorted path_lt (listing fs cd).*1.
Proof.
  unfold listing. pose proof (subtree_sorted (depth_bound fs) fs cd) as Hs.
  assert (Hb : ∀ p d, (p, d) ∈ subtree (depth_bound fs) fs cd → ∃ r, p = cd ++ r).
  { intros p d (c & r & -> & _)%subtree_below. eauto. }
  revert Hs Hb. generalize (subtree (depth_bound fs) fs cd). induction l as [|[p d] l IH]; intros Hs Hb; [constructor|].
  apply StronglySorted_cons in Hs as [HF Hs]. cbn [omap list_omap].
  assert (IH' : StronglySorted path_lt (omap (cached_entry cd) l).*1).
  { apply IH; [done|]. intros p' d' H. eapply Hb. by apply list_elem_of_further. }
  destruct (cached_entry cd (p, d)) as [[r d']|] eqn:E; [|done]. simpl. constructor; [done|].
  apply Forall_forall. intros r2 ([r2' d2] & -> & ([p2 d2'] & Hin & Hc)%list_elem_of_omap)%list_elem_of_fmap.
  assert (path_lt p p2) as Hlt.
  { rewrite Forall_forall in HF. apply HF. apply list_elem_of_fmap. by exists (p2, d2'). }
  destruct (Hb p d) as [a ->]; [apply list_elem_of_here|].
  destruct (Hb p2 d2') as [b ->]; [by apply list_elem_of_further|].
  unfold cached_entry in E, Hc. simpl in *. rewrite drop_app_length in E, Hc.
  repeat case_match; simplify_eq. by apply path_lt_prefix in Hlt.
Qed.

Section walk_cached.
Context (mtime dir_size : string → Z) {S : Type} (fn : string → FileInfo → S → S * option error).

Lemma Rel_below cd r : r ≠ [] → Forall good (cd ++ r) →
  Rel (abs_path cd) (abs_path (cd ++ r)) = Ok (rel_path r) ∧ rel_path r ≠ "." ∧
  (rel_path r = cacheCompletionMarker ↔ r = [cacheCompletionMarker]).
Proof.
  intros Hr [Hcd Hg]%Forall_app. split; [by apply Rel_abs|].
  assert (Hsp : Split slash (rel_path r) = r) by by apply (Split_ups 0).
  split.
  - intros E. rewrite E in Hsp. change (Split slash ".") with ["."] in Hsp. subst.
    apply Forall_cons in Hg as [(?&?&?&?) _]. done.
  - split; [|by intros ->]. intros E. rewrite E in Hsp. symmetry. exact Hsp.
Qed.

Lemma visit_cached_entry fs cd r d s :
  wf_disk fs → r ≠ [] → names fs !! (cd ++ r) = Some d →
  visit_cached mtime dir_size fn fs (abs_path cd) (abs_path (cd ++ r)) (Some d) None s =
  match cached_entry cd (cd ++ r, d) with
  | Some x => fn (rel_path x.1) (entry_info mtime dir_size fs cd x) s
  | None => (s, None)
  end.
Proof.
  intros Hwf Hr Hn. destruct (wf_good fs Hwf _ _ Hn) as [_ Hg].
  destruct (Rel_below cd r Hr Hg) as (Hrel & Hdot & Hm). unfold visit_cached. rewrite Hrel.
  rewrite (bool_decide_false (rel_path r = ".")) by done. cbn [orb].
  unfold cached_entry. cbn [fst snd]. rewrite drop_app_length.
  rewrite (bool_decide_ext _ _ Hm). destruct (bool_decide (r = [cacheCompletionMarker])); [done|].
  cbn [orb]. destruct (negb (isSupportedCacheEntry d)); [done|].
  unfold walkCachedEntry, entry_info. cbn [fst snd].
  destruct d as [m|ino|t|]; cbn [is_symlink]; try done.
  destruct r as [|c r] using rev_ind; [done|]. unfold os_Readlink. rewrite app_assoc in *.
  rewrite (wf_Lstat fs _ _ _ Hwf Hn). done.
Qed.

(** The visit in the cache directory is the visit of its listing with relative names. *)
Lemma pruned_relative cd sk r : pruned ((λ a, cd ++ a) <$> sk) (cd ++ r) = pruned sk r.
Proof.
  induction sk as [|a sk IH]; [done|]. cbn [fmap list_fmap pruned existsb]. unfold pruned in IH. rewrite IH. f_equal. f_equal.
  - apply eq_true_iff_eq. rewrite !under_spec. setoid_rewrite <-app_assoc.
    split; intros [x E]; exists x; [by apply app_inv_head in E|by rewrite E].
  - f_equal. apply bool_decide_ext. split; [apply app_inv_head|by intros ->].
Qed.

Lemma visit_relative fs cd l sk s : wf_disk fs →
  Forall (λ x, ∃ r, r ≠ [] ∧ x.1 = cd ++ r ∧ names fs !! x.1 = Some x.2) l →
  visit_from (call_fn (visit_cached mtime dir_size fn fs (abs_path cd))) l ((λ a, cd ++ a) <$> sk) s =
  let '(k, s', e) := visit_from (λ x, fn (rel_path x.1) (entry_info mtime dir_size fs cd x)) (omap (cached_entry cd) l) sk s in
  ((λ a, cd ++ a) <$> k, s', e).
Proof.
  intros Hwf Hl. revert sk s. induction Hl as [|[p d] l (r & Hr & E & Hn) _ IH]; intros sk s; [done|]. simpl in E, Hn. subst p.
  pose proof (visit_cached_entry fs cd r d s Hwf Hr Hn) as Hcall.
  cbn [visit_from omap list_omap fst]. rewrite pruned_relative.
  change (call_fn (visit_cached mtime dir_size fn fs (abs_path cd)) (cd ++ r, d) s) with
    (visit_cached mtime dir_size fn fs (abs_path cd) (abs_path (cd ++ r)) (Some d) None s). rewrite Hcall. clear Hcall.
  replace (cached_entry cd (cd ++ r, d)) with
    (if bool_decide (r = [cacheCompletionMarker]) || negb (isSupportedCacheEntry d) then None else Some (r, d))
    by (unfold cached_entry; cbn [fst snd]; by rewrite drop_app_length).
  destruct (_ || _); [destruct (pruned sk r); apply IH|]. cbn [visit_from fst snd].
  destruct (pruned sk r); [apply IH|]. destruct (fn _ _ s) as [s1 [e|]]; [|apply IH]. case_bool_decide; [|done].
  replace (skip_root (cd ++ r, d)) with (cd ++ skip_root (r, d)); [apply (IH (skip_root (r, d) :: sk))|].
  unfold skip_root. cbn [fst snd]. destruct (is_dir d); [done|]. rewrite length_app, take_app_ge by (destruct r; [done|simpl; lia]).
  f_equal. f_equal. destruct r; [done|simpl; lia].
Qed.

Lemma walkCachedContext_skips fs cd m s :
  wf_disk fs → cd ≠ [] → names fs !! cd = Some (DDir m) →
  walkCachedContext mtime dir_size fn fs (abs_path cd) s =
  visit_skip (λ x, fn (rel_path x.1) (entry_info mtime dir_size fs cd x)) (listing fs cd) s.
Proof.
  intros Hwf Hne Hcd. unfold walkCachedContext. rewrite (filepath_Walk_visits fs Hwf _ cd m) by done.
  unfold visit_skip. cbn [visit_from pruned existsb]. unfold call_fn at 1. cbn [fst snd].
  assert (Hroot : visit_cached mtime dir_size fn fs (abs_path cd) (abs_path cd) (Some (DDir m)) None s = (s, None)).
  { destruct (wf_good fs Hwf _ _ Hcd) as [_ Hg]. unfold visit_cached. by rewrite Rel_self. }
  rewrite Hroot. rewrite (visit_relative fs cd _ [] s) by (try done; apply Forall_forall; intros [p d] (c & r & -> & Hn)%subtree_below; by exists (c :: r)).
  fold (listing fs cd). by destruct (visit_from _ (listing fs cd) [] s) as [[k s'] [e|]].
Qed.

Lemma walkCachedContext_visits fs cd m s :
  (∀ p i s, (fn p i s).2 ≠ Some SkipDir ∧ (fn p i s).2 ≠ Some SkipAll) →
  wf_disk fs → cd ≠ [] → names fs !! cd = Some (DDir m) →
  walkCachedContext mtime dir_size fn fs (abs_path cd) s =
  visit_all (λ x, fn (rel_path x.1) (entry_info mtime dir_size fs cd x)) (listing fs cd) s.
Proof. intros Hs Hwf Hne Hcd. rewrite (walkCachedContext_skips fs cd m s) by done. by apply visit_skip_all. Qed.
End walk_cached.

(** ** Properties *)

(** C21. The walk of a cached context goes through every regular file, directory and symbolic
    link of the entry except the completion marker, in strictly increasing path order (a
    directory before its content), and calls back with each one once, with its size, mode and
    link target, except what the callback itself leaves out: after [SkipDir] for a directory
    everything below it, after [SkipDir] for a file the rest of its directory, after [SkipAll]
    everything.  Any other error of the callback ends the walk and is returned; a callback
    that skips nothing and never fails is called with every entry. *)
Theorem walkCachedContext_spec (mtime dir_size : string → Z) {S : Type}
    (fn : string → FileInfo → S → S * option error) (fs : fsys) (cd : path) (m : Z) (s : S) :
  wf_disk fs → cd ≠ [] → names fs !! cd = Some (DDir m) →
  ∃ l, StronglySorted path_lt l.*1 ∧
    (∀ r d, (r, d) ∈ l ↔ r ≠ [] ∧ names fs !! (cd ++ r) = Some d ∧ d ≠ DOther ∧ r ≠ [cacheCompletionMarker]) ∧
    let call := λ x, fn (rel_path x.1) (entry_info mtime dir_size fs cd x) in
    walkCachedContext mtime dir_size fn fs (abs_path cd) s = visit_skip call l s ∧
    ((∀ p i s, (fn p i s).2 ≠ Some SkipDir ∧ (fn p i s).2 ≠ Some SkipAll) →
     walkCachedContext mtime dir_size fn fs (abs_path cd) s = visit_all call l s).
Proof.
  intros Hwf Hne Hcd. exists (listing fs cd). split; [apply listing_sorted|]. split.
  - intros r d. by apply elem_of_listing.
  - split; [by eapply walkCachedContext_skips|]. intros Hs. by eapply walkCachedContext_visits.
Qed.

(** *** A concrete tree *)

Definition wf_entry (fs : fsys) (kd : path * dentry) : bool :=
  bool_decide (kd.1 ≠ []) && bool_decide (Forall good kd.1) &&
  match lookup_name fs (take (length kd.1 - 1) kd.1) with Some (DDir _) => true | _ => false end &&
  match kd.2 with
  | DFile ino => bool_decide (is_Some (inodes fs !! ino)) && bool_decide (ino < next_ino fs)
  | _ => true
  end.

Lemma wf_check fs : forallb (wf_entry fs) (map_to_list (names fs)) = true → wf_disk fs.
Proof.
  intros H. assert (∀ p d, names fs !! p = Some d → wf_entry fs (p, d) = true) as Hw.
  { intros p d Hp. rewrite forallb_forall in H. apply H. apply list_elem_of_In. by apply elem_of_map_to_list. }
  unfold wf_entry in Hw. simpl in Hw. split.
  - intros p d Hp%Hw. rewrite !andb_true_iff, !bool_decide_eq_true in Hp. naive_solver.
  - intros p c d Hp%Hw. rewrite !andb_true_iff in Hp. destruct Hp as [[_ Hp] _].
    rewrite length_app in Hp. simpl in Hp. replace (length p + 1 - 1) with (length p) in Hp by lia.
    rewrite take_app_length in Hp. destruct (lookup_name fs p) as [[]|]; naive_solver.
  - intros p ino Hp%Hw. rewrite !andb_true_iff, !bool_decide_eq_true in Hp. naive_solver.
Qed.

Definition ex_tree : fsys :=
  {| names := {[ ["c"] := DDir 493; ["c"; "d"] := DDir 493; ["c"; "d"; "a"] := DDir 493;
                 ["c"; "d"; "a"; "x"] := DFile 0; ["c"; "d"; "a-b"] := DSym "a/x";
                 ["c"; "d"; cacheCompletionMarker] := DFile 1; ["c"; "e"] := DFile 0 ]};
     inodes := {[ 0 := (420%Z, bytes_of "hi"); 1 := (384%Z, bytes_of cacheCompletionValue) ]};
     next_ino := 2; cwd := []; umask := 18 |}.

Definition ex_collect (p : string) (i : FileInfo) (s : list (string * string)) :
    list (string * string) * option error := (s ++ [(p, LinkName i)], None).

(** The same callback, leaving out what is below ["a"]. *)
Definition ex_prune (p : string) (i : FileInfo) (s : list (string * string)) : list (string * string) * option error :=
  (s ++ [(p, LinkName i)], if bool_decide (p = "a") then Some SkipDir else None).

Lemma walkCachedContext_spec_witness :
  walkCachedContext (λ _, 0%Z) (λ _, 0%Z) ex_collect ex_tree "/c/d" []
    = ([("a", ""); ("a/x", ""); ("a-b", "a/x")], None) ∧
  walkCachedContext (λ _, 0%Z) (λ _, 0%Z) ex_prune ex_tree "/c/d" [] = ([("a", ""); ("a-b", "a/x")], None) ∧
  ∃ l, StronglySorted path_lt l.*1 ∧
    (∀ r d, (r, d) ∈ l ↔ r ≠ [] ∧ names ex_tree !! (["c"; "d"] ++ r) = Some d ∧ d ≠ DOther ∧
                         r ≠ [cacheCompletionMarker]) ∧
    walkCachedContext (λ _, 0%Z) (λ _, 0%Z) ex_prune ex_tree "/c/d" [] =
    visit_skip (λ x, ex_prune (rel_path x.1) (entry_info (λ _, 0%Z) (λ _, 0%Z) ex_tree ["c"; "d"] x)) l [].
Proof.
  split; [vm_compute; reflexivity|]. split; [vm_compute; reflexivity|].
  destruct (walkCachedContext_spec (λ _, 0%Z) (λ _, 0%Z) ex_prune ex_tree ["c"; "d"] 493 []) as (l & H1 & H2 & H3 & _).
  - apply wf_check. vm_compute. reflexivity.
  - done.
  - vm_compute. reflexivity.
  - exists l. split; [exact H1|]. split; [exact H2|exact H3].
Defined.
