(* ===== verification/TarReceive.v ===== *)
(** * Receiving a context ([pkg/fileutils/tarxfer.go], [Receive] and [startTar])

    The goroutine [startTar] and the body of [Receive] as two processes that communicate
    over [errCh] (one slot), [headerCh] (one slot) and the unbuffered [dataCh], each with
    its deferred closes, interleaved in every possible way by [step].  A Go [select] takes
    any ready case; an empty channel that is not closed blocks; a closed one yields the
    zero value.  The context may be cancelled at any point.  What the consumer does
    between two channel operations (digest check, staging, hash check, publication, walk)
    is done on the disk model. *)

From Stdlib Require Import Ascii.
From S2P Require Import Prelude GoStrings GoPath Api OsFs TarUnpack FileInfo TarCache DiskTree ContextWalk.

Record tarStreamHeader := { checksum : string; header_complete : bool }.

(** ** The producer: [startTar] *)

Inductive prod_pc :=
| PRecv                                       (* at [demux.Recv] *)
| PSendErr (e : option error) (ret : bool)    (* [errCh <- e], then return or loop *)
| PSendHeader (h : tarStreamHeader) (last : bool)
| PSendData (d : bytes) (last : bool)
| PClose (n : nat)                            (* the deferred closes, in order *)
| PDone.

(** After the send of a transfer's content: [if transfer.Complete { errCh <- nil }]. *)
Definition after_send (last : bool) : prod_pc := if last then PSendErr None true else PRecv.

Definition server_error (msg : string) : error := Errorf "server error in TAR mode: %s" [msg].

Definition handleBuildTransfer (transfer : BuildTransfer) : prod_pc :=
  match bt_Metadata transfer !! "error" with
  | Some errMsg => PSendErr (Some (server_error errMsg)) true
  | None =>
      match bt_Metadata transfer !! "hash" with
      | Some hash => PSendHeader {| checksum := hash; header_complete := bt_Complete transfer |} (bt_Complete transfer)
      | None => PSendData (bt_Data transfer) (bt_Complete transfer)
      end
  end.

Definition handleImageTransfer (transfer : ImageTransfer) : prod_pc :=
  match it_Metadata transfer !! "error" with
  | Some errMsg => PSendErr (Some (server_error errMsg)) true
  | None => PSendData (it_Data transfer) (it_Complete transfer)
  end.

Section receive.
Context {FL : FileLock}.
Context (error_text : error → string).            (* [err.Error()] *)
Context (unicode_lower : string → string) (sha256 : bytes → bytes) (tar_read : bytes → archive).
Context (mtime dir_size : string → Z) {S : Type} (fn : string → FileInfo → S → S * option error).
Context (tar_rnds dir_rnds : list string) (order1 order2 : list path) (polls : nat → option error).
Context (cacheBase : string).

Definition normalizeTarReceiveError (err : error) : error :=
  if bool_decide (err = EOF) || Contains (error_text err) "EOF" || Contains (error_text err) "transport is closing"
  then Errorf "tar stream ended before completion" []
  else err.

(** One iteration of the loop of [startTar], up to its first send. *)
Definition on_packet (r : res ClientStream) : prod_pc :=
  match r with
  | Err err => PSendErr (Some (normalizeTarReceiveError err)) true
  | Ok resp =>
      match GetBuildTransfer resp with
      | Some bt => handleBuildTransfer bt
      | None =>
          match GetImageTransfer resp with
          | Some it => handleImageTransfer it
          | None => PSendErr (Some (Errorf "tar stream: unexpected packet type" [])) false
          end
      end
  end.

(** ** The consumer: [Receive] *)

Inductive cons_pc :=
| CHeader (headerNil errNil : bool)                     (* [readTarStreamHeader] *)
| CFirst (sum : string) (cached : bool)                 (* [readTarHeader] *)
| CFirstErr                                             (* ... after [dataCh] was found closed *)
| CBody (sum : string) (cached : bool) (tarFile : string) (errNil : bool)   (* [readTarBody] *)
| CDrain (sum : string) (cached : bool) (tarFile : string)  (* ... after [dataCh] was found closed *)
| CReturn (r : res string).

Record state := {
  input : list (res ClientStream);        (* the results of the coming [demux.Recv] *)
  prod : prod_pc;
  errCh : option (option error); errClosed : bool;
  headerCh : option tarStreamHeader; headerClosed : bool;
  dataClosed : bool;
  ctxErr : option error;
  cons : cons_pc;
  wd : world;
  cb : S;                                 (* the state of the walk callback *)
  got : list bytes;                       (* history: the chunks taken from [dataCh] *)
}.

Definition init (pkts : list (res ClientStream)) (w : world) (s : S) : state :=
  {| input := pkts; prod := PRecv; errCh := None; errClosed := false; headerCh := None; headerClosed := false;
     dataClosed := false; ctxErr := None; cons := CHeader false false; wd := w; cb := s; got := [] |}.

Definition set_prod (p : prod_pc) (s : state) : state :=
  {| input := input s; prod := p; errCh := errCh s; errClosed := errClosed s; headerCh := headerCh s;
     headerClosed := headerClosed s; dataClosed := dataClosed s; ctxErr := ctxErr s; cons := cons s;
     wd := wd s; cb := cb s; got := got s |}.
Definition set_input (i : list (res ClientStream)) (s : state) : state :=
  {| input := i; prod := prod s; errCh := errCh s; errClosed := errClosed s; headerCh := headerCh s;
     headerClosed := headerClosed s; dataClosed := dataClosed s; ctxErr := ctxErr s; cons := cons s;
     wd := wd s; cb := cb s; got := got s |}.
Definition set_errCh (e : option (option error)) (s : state) : state :=
  {| input := input s; prod := prod s; errCh := e; errClosed := errClosed s; headerCh := headerCh s;
     headerClosed := headerClosed s; dataClosed := dataClosed s; ctxErr := ctxErr s; cons := cons s;
     wd := wd s; cb := cb s; got := got s |}.
Definition set_headerCh (h : option tarStreamHeader) (s : state) : state :=
  {| input := input s; prod := prod s; errCh := errCh s; errClosed := errClosed s; headerCh := h;
     headerClosed := headerClosed s; dataClosed := dataClosed s; ctxErr := ctxErr s; cons := cons s;
     wd := wd s; cb := cb s; got := got s |}.
Definition set_closed (d h e : bool) (s : state) : state :=
  {| input := input s; prod := prod s; errCh := errCh s; errClosed := e; headerCh := headerCh s;
     headerClosed := h; dataClosed := d; ctxErr := ctxErr s; cons := cons s;
     wd := wd s; cb := cb s; got := got s |}.
Definition set_ctx (e : option error) (s : state) : state :=
  {| input := input s; prod := prod s; errCh := errCh s; errClosed := errClosed s; headerCh := headerCh s;
     headerClosed := headerClosed s; dataClosed := dataClosed s; ctxErr := e; cons := cons s;
     wd := wd s; cb := cb s; got := got s |}.
Definition set_got (d : bytes) (s : state) : state :=
  {| input := input s; prod := prod s; errCh := errCh s; errClosed := errClosed s; headerCh := headerCh s;
     headerClosed := headerClosed s; dataClosed := dataClosed s; ctxErr := ctxErr s; cons := cons s;
     wd := wd s; cb := cb s; got := got s ++ [d] |}.
Definition set_cons (x : world * S * cons_pc) (s : state) : state :=
  {| input := input s; prod := prod s; errCh := errCh s; errClosed := errClosed s; headerCh := headerCh s;
     headerClosed := headerClosed s; dataClosed := dataClosed s; ctxErr := ctxErr s; cons := x.2;
     wd := x.1.1; cb := x.1.2; got := got s |}.

(** *** What the consumer does on its own *)

(** [os.Remove] of a file or of an empty directory. *)
Definition os_Remove (fs : fsys) (p : string) : res fsys :=
  q ← resolve false fs p;
  match lookup_name fs q with
  | None => Err (Errno ENOENT)
  | Some (DDir _) =>
      if bool_decide (q = []) || negb (bool_decide (children fs q = [])) then Err (Errno ENOTEMPTY)
      else Ok (set_names (delete q) fs)
  | Some _ => Ok (set_names (delete q) fs)
  end.

(** [return r] with the deferred [os.Remove(tarFile)] of the branch that staged a file. *)
Definition leave (cached : bool) (tarFile : string) (r : res string) (w : world) (s : S) : world * S * cons_pc :=
  (if cached then w else (ignore (mutate (λ fs, os_Remove fs tarFile)) w).1, s, CReturn r).

(** [return checksum, walkCachedContext(cacheDir, fn)] *)
Definition walk_result (sum : string) (w : world) (s : S) : S * res string :=
  let '(s, e) := walkCachedContext mtime dir_size fn (disk w) (path_Join [cacheBase; sum]) s in
  (s, match e with None => Ok sum | Some e => Err e end).

(** From the header to the first read of data. *)
Definition after_header (h : tarStreamHeader) (w : world) (s : S) : world * S * cons_pc :=
  let sum := checksum h in
  match (lift (validateContextDigest unicode_lower sum) ≫= λ _,
         mutate (λ fs, os_MkdirAll fs cacheBase 493) ≫= λ _,
         reads (λ fs, CachedContextPresent unicode_lower fs cacheBase sum)) w with
  | (w, Err e) => (w, s, CReturn (Err e))
  | (w, Ok cached) =>
      if header_complete h then
        if negb cached then (w, s, CReturn (Err (Errorf "context %s marked complete but is not cached" [sum])))
        else let '(s, r) := walk_result sum w s in (w, s, CReturn r)
      else (w, s, CFirst sum cached)
  end.

(** From the first chunk to the loop over the others. *)
Definition after_first (sum : string) (cached : bool) (d : bytes) (w : world) (s : S) : world * S * cons_pc :=
  if cached then (w, s, CBody sum cached "" false)
  else match writeTar tar_rnds cacheBase d w with
       | (w, Err e) => (w, s, CReturn (Err e))
       | (w, Ok tarFile) =>
           match os_Stat (disk w) tarFile with      (* [os.OpenFile(tarPath, O_APPEND|O_WRONLY)] *)
           | Err e => leave cached tarFile (Err e) w s
           | Ok _ => (w, s, CBody sum cached tarFile false)
           end
       end.

(** One more chunk. *)
Definition on_chunk (sum : string) (cached : bool) (tarFile : string) (errNil : bool) (d : bytes)
    (w : world) (s : S) : world * S * cons_pc :=
  if cached then (w, s, CBody sum cached tarFile errNil)
  else match mutate (append_chunk tarFile d) w with
       | (w, Err e) => leave cached tarFile (Err e) w s
       | (w, Ok _) => (w, s, CBody sum cached tarFile errNil)
       end.

(** From the end of the data to the return. *)
Definition after_body (sum : string) (cached : bool) (tarFile : string) (w : world) (s : S) : world * S * cons_pc :=
  let cacheDir := path_Join [cacheBase; sum] in
  match (if cached then mret tt
         else reads (λ fs, verifyTarHash sha256 fs tarFile sum) ≫= λ _,
              publishTar tar_read polls dir_rnds order1 order2 tarFile cacheDir cacheBase) w with
  | (w, Err e) => leave cached tarFile (Err e) w s
  | (w, Ok _) => let '(s, r) := walk_result sum w s in leave cached tarFile r w s
  end.

(** The loop condition [headerCh != nil || errCh != nil]. *)
Definition header_loop (headerNil errNil : bool) : cons_pc :=
  if headerNil && errNil then CReturn (Err (Errorf "header channel closed, no hash received" []))
  else CHeader headerNil errNil.

(** ** Steps *)

Inductive label :=
| LProd               (* the producer moves on its own *)
| LData               (* the consumer receives from [dataCh] *)
| LErr                (* the consumer receives from [errCh], or takes [default] *)
| LHeader             (* the consumer receives from [headerCh] *)
| LCtx                (* the consumer sees [ctx.Done()] *)
| LCancel (e : error). (* the context ends *)

Definition step_prod (s : state) : option state :=
  match prod s with
  | PRecv => match input s with
             | [] => None
             | r :: rest => Some (set_prod (on_packet r) (set_input rest s))
             end
  | PSendErr e ret => match errCh s with
                      | Some _ => None
                      | None => Some (set_prod (if ret then PClose 0 else PRecv) (set_errCh (Some e) s))
                      end
  | PSendHeader h last => match headerCh s with
                          | Some _ => None
                          | None => Some (set_prod (after_send last) (set_headerCh (Some h) s))
                          end
  | PSendData _ _ => None
  | PClose 0 => Some (set_prod (PClose 1) (set_closed true false false s))
  | PClose 1 => Some (set_prod (PClose 2) (set_closed true true false s))
  | PClose _ => Some (set_prod PDone (set_closed true true true s))
  | PDone => None
  end.

Definition on_data (s : state) (d : bytes) : option (state) :=
  match cons s with
  | CFirst sum cached => Some (set_cons (after_first sum cached d (wd s) (cb s)) (set_got d s))
  | CBody sum cached tarFile errNil =>
      Some (set_cons (on_chunk sum cached tarFile errNil d (wd s) (cb s)) (set_got d s))
  | _ => None
  end.

Definition step_data (s : state) : option state :=
  match prod s with
  | PSendData d last => set_prod (after_send last) <$> on_data s d
  | _ =>
      if dataClosed s then
        match cons s with
        | CFirst _ _ => Some (set_cons (wd s, cb s, CFirstErr) s)
        | CBody sum cached tarFile _ => Some (set_cons (wd s, cb s, CDrain sum cached tarFile) s)
        | _ => None
        end
      else None
  end.

(** Receive from [errCh]: the value, or [None] from the closed channel. *)
Definition recv_err (s : state) : option (option (option error) * state) :=
  match errCh s with
  | Some e => Some (Some e, set_errCh None s)
  | None => if errClosed s then Some (None, s) else None
  end.

Definition ret (r : res string) (s : state) : state := set_cons (wd s, cb s, CReturn r) s.

Definition step_err (s : state) : option state :=
  match cons s with
  | CHeader headerNil false =>
      '(x, s) ← recv_err s;
      match x with
      | None => Some (set_cons (wd s, cb s, header_loop headerNil true) s)
      | Some (Some e) => Some (ret (Err e) s)
      | Some None => Some s
      end
  | CFirst sum cached =>
      '(x, s) ← recv_err s;
      match x with
      | Some (Some e) => Some (ret (Err e) s)
      | _ => Some (set_cons (after_first sum cached [] (wd s) (cb s)) s)   (* [return nil, nil] *)
      end
  | CFirstErr =>
      '(x, s) ← recv_err s;
      match x with
      | Some (Some e) => Some (ret (Err e) s)
      | _ => Some (ret (Err (Errorf "data channel closed" [])) s)
      end
  | CBody sum cached tarFile false =>
      '(x, s) ← recv_err s;
      match x with
      | None => Some (set_cons (wd s, cb s, CBody sum cached tarFile true) s)
      | Some (Some e) => Some (set_cons (leave cached tarFile (Err e) (wd s) (cb s)) s)
      | Some None => Some s
      end
  | CDrain sum cached tarFile =>
      match recv_err s with
      | Some (Some (Some e), s) => Some (set_cons (leave cached tarFile (Err e) (wd s) (cb s)) s)
      | Some (_, s) => Some (set_cons (after_body sum cached tarFile (wd s) (cb s)) s)
      | None => Some (set_cons (after_body sum cached tarFile (wd s) (cb s)) s)
      end
  | _ => None
  end.

Definition step_header (s : state) : option state :=
  match cons s with
  | CHeader false errNil =>
      match headerCh s with
      | Some h => let s := set_headerCh None s in Some (set_cons (after_header h (wd s) (cb s)) s)
      | None => if headerClosed s then Some (set_cons (wd s, cb s, header_loop true errNil) s) else None
      end
  | _ => None
  end.

Definition step_ctx (s : state) : option state :=
  e ← ctxErr s;
  match cons s with
  | CHeader _ _ | CFirst _ _ => Some (ret (Err e) s)
  | CBody sum cached tarFile _ => Some (set_cons (leave cached tarFile (Err e) (wd s) (cb s)) s)
  | _ => None
  end.

Definition step (l : label) (s : state) : option state :=
  match l with
  | LProd => step_prod s
  | LData => step_data s
  | LErr => step_err s
  | LHeader => step_header s
  | LCtx => step_ctx s
  | LCancel e => match ctxErr s with None => Some (set_ctx (Some e) s) | Some _ => None end
  end.

(** [Receive] is what the steps reach from the start. *)
Inductive reaches (s0 : state) : state → Prop :=
| reaches_refl : reaches s0 s0
| reaches_step s l s' : reaches s0 s → step l s = Some s' → reaches s0 s'.

(** A schedule, for running the model. *)
Fixpoint run (ls : list label) (s : state) : option state :=
  match ls with [] => Some s | l :: ls => s' ← step l s; run ls s' end.

Lemma run_reaches ls s0 s s' : reaches s0 s → run ls s = Some s' → reaches s0 s'.
Proof.
  revert s. induction ls as [|l ls IH]; intros s Hr; simpl; [by intros [= <-]|].
  destruct (step l s) as [s1|] eqn:E; [|done]. simpl. apply IH. by eapply reaches_step.
Qed.

(** ** Termination

    Every step makes this number smaller, so no schedule is longer than it. *)

Definition prod_weight (p : prod_pc) : nat :=
  match p with
  | PRecv => 4 | PSendErr _ _ => 6 | PSendHeader _ _ => 8 | PSendData _ _ => 8
  | PClose 0 => 3 | PClose 1 => 2 | PClose _ => 1 | PDone => 0
  end.

Definition cons_weight (c : cons_pc) : nat :=
  match c with
  | CHeader h e => 20 + (if h then 0 else 1) + (if e then 0 else 1)
  | CFirst _ _ => 12 | CFirstErr => 11
  | CBody _ _ _ e => 5 + (if e then 0 else 1)
  | CDrain _ _ _ => 4 | CReturn _ => 0
  end.

Definition opt_weight {A} (o : option A) : nat := if o then 1 else 0.

Definition weight (s : state) : nat :=
  10 * length (input s) + prod_weight (prod s) + opt_weight (errCh s) + opt_weight (headerCh s) +
  cons_weight (cons s) + (1 - opt_weight (ctxErr s)).

Lemma after_send_weight last : prod_weight (after_send last) ≤ 6.
Proof. destruct last; simpl; lia. Qed.

Lemma on_packet_weight r : prod_weight (on_packet r) ≤ 8.
Proof.
  unfold on_packet, handleBuildTransfer, handleImageTransfer. repeat case_match; simpl; lia.
Qed.

Lemma leave_weight cached tarFile r w s : cons_weight (leave cached tarFile r w s).2 = 0.
Proof. done. Qed.

Lemma after_header_weight h w s : cons_weight (after_header h w s).2 ≤ 12.
Proof. unfold after_header. repeat case_match; simpl; lia. Qed.

Lemma after_first_weight sum cached d w s : cons_weight (after_first sum cached d w s).2 ≤ 6.
Proof. unfold after_first, leave. repeat case_match; simpl; lia. Qed.

Lemma on_chunk_weight sum cached tarFile en d w s :
  cons_weight (on_chunk sum cached tarFile en d w s).2 ≤ cons_weight (CBody sum cached tarFile en).
Proof. unfold on_chunk, leave. repeat case_match; simpl; lia. Qed.

Lemma after_body_weight sum cached tarFile w s : cons_weight (after_body sum cached tarFile w s).2 = 0.
Proof. unfold after_body, leave. repeat case_match; done. Qed.

Lemma header_loop_weight hn en : cons_weight (header_loop hn en) ≤ cons_weight (CHeader hn en).
Proof. unfold header_loop. destruct hn, en; simpl; lia. Qed.

Ltac weigh :=
  repeat match goal with
  | |- context [after_send ?b] => pose proof (after_send_weight b); generalize dependent (after_send b); intros
  | |- context [on_packet ?r] => pose proof (on_packet_weight r); generalize dependent (on_packet r); intros
  | |- context [after_header ?h ?w ?s] =>
      pose proof (after_header_weight h w s); generalize dependent (after_header h w s); intros
  | |- context [after_first ?a ?b ?c ?w ?s] =>
      pose proof (after_first_weight a b c w s); generalize dependent (after_first a b c w s); intros
  | |- context [on_chunk ?a ?b ?c ?d ?e ?w ?s] =>
      pose proof (on_chunk_weight a b c d e w s); generalize dependent (on_chunk a b c d e w s); intros
  | |- context [after_body ?a ?b ?c ?w ?s] =>
      pose proof (after_body_weight a b c w s); generalize dependent (after_body a b c w s); intros
  | |- context [header_loop ?a ?b] =>
      pose proof (header_loop_weight a b); generalize dependent (header_loop a b); intros
  end; simpl in *; lia.

Lemma step_weight l s s' : step l s = Some s' → weight s' < weight s.
Proof.
  intros Hs. destruct s as [i p ec ecl hc hcl dcl cx c w k g]. unfold weight. destruct cx, ec, ecl;
  destruct l; cbn [step] in Hs;
    unfold step_prod, step_data, on_data, step_err, step_header, step_ctx, recv_err, ret, leave in Hs;
    simpl in Hs; try discriminate Hs; repeat (case_match; simplify_eq/=); simplify_eq/=; weigh.
Qed.

(** A schedule is no longer than the weight it starts with. *)
Lemma run_bounded ls s s' : run ls s = Some s' → length ls + weight s' ≤ weight s.
Proof.
  revert s. induction ls as [|l ls IH]; intros s; cbn [run length]; [by intros [= <-]|].
  destruct (step l s) as [s1|] eqn:E; [|done]. intros Hr%IH. apply step_weight in E. lia.
Qed.

(** ** The protocol

    What the packets taken from the stream so far say about the channels. *)

Definition chunk_of (r : res ClientStream) : option bytes :=
  match on_packet r with PSendData d _ => Some d | _ => None end.
Definition hash_of (r : res ClientStream) : option tarStreamHeader :=
  match on_packet r with PSendHeader h _ => Some h | _ => None end.
Definition is_bad (r : res ClientStream) : bool :=
  match on_packet r with PSendErr (Some _) _ => true | _ => false end.
Definition is_last (r : res ClientStream) : bool :=
  match on_packet r with PSendHeader _ b | PSendData _ b => b | _ => false end.

Definition running (c : cons_pc) : bool := match c with CReturn _ => false | _ => true end.
Definition past_header (c : cons_pc) : bool := match c with CHeader _ _ => false | _ => true end.
Definition in_flight (p : prod_pc) : list bytes := match p with PSendData d _ => [d] | _ => [] end.
Definition sending_hash (p : prod_pc) : bool := match p with PSendHeader _ _ => true | _ => false end.
Definition sending_bad (p : prod_pc) : bool := match p with PSendErr (Some _) _ => true | _ => false end.
Definition closed_flags (p : prod_pc) : bool * bool * bool :=
  match p with
  | PClose 0 => (false, false, false) | PClose 1 => (true, false, false) | PClose _ => (true, true, false)
  | PDone => (true, true, true)
  | _ => (false, false, false)
  end.

Definition cons_ok (c : cons_pc) (dcl hcl ecl : bool) : Prop :=
  match c with
  | CHeader hn en => (hn = true → hcl = true) ∧ (en = true → ecl = true) ∧ hn && en = false
  | CBody _ _ _ en => en = true → ecl = true
  | CFirstErr | CDrain _ _ _ => dcl = true
  | CFirst _ _ | CReturn _ => True
  end.

(** Why the producer stopped, or is about to. *)
Definition ending (done : list (res ClientStream)) (p : prod_pc) : Prop :=
  match p with
  | PSendErr None r => r = true ∧ is_last <$> last done = Some true
  | PSendErr (Some _) _ => Exists (λ r, is_bad r = true) done
  | PSendHeader _ b | PSendData _ b => is_last <$> last done = Some b
  | PClose _ | PDone => is_last <$> last done = Some true ∨ Exists (λ r, is_bad r = true) done
  | _ => True
  end.

Record proto (done : list (res ClientStream)) (s : state) : Prop := {
  pr_chunks : omap chunk_of done = got s ++ in_flight (prod s);
  pr_closed : closed_flags (prod s) = (dataClosed s, headerClosed s, errClosed s);
  pr_ending : ending done (prod s);
  pr_bad : running (cons s) = true → Exists (λ r, is_bad r = true) done →
    sending_bad (prod s) = true ∨ ∃ e, errCh s = Some (Some e);
  pr_cons : cons_ok (cons s) (dataClosed s) (headerClosed s) (errClosed s);
  pr_hash : running (cons s) = true →
    length (omap hash_of done) =
    Nat.b2n (sending_hash (prod s)) + opt_weight (headerCh s) + Nat.b2n (past_header (cons s));
}.

(** The consumer moves and leaves the channels alone. *)
Lemma proto_set_cons done s w k c :
  proto done s → cons_ok c (dataClosed s) (headerClosed s) (errClosed s) →
  (running c = true → running (cons s) = true ∧ past_header c = past_header (cons s)) →
  proto done (set_cons (w, k, c) s).
Proof.
  intros [H1 H2 H3 H4 H5 H6] Hc Hr. split; simpl; try done.
  - intros Hrun. apply H4. by apply Hr.
  - intros Hrun. destruct (Hr Hrun) as [? ->]. by apply H6.
Qed.

Lemma proto_return done s w k r : proto done s → proto done (set_cons (w, k, CReturn r) s).
Proof. intros H. by apply proto_set_cons. Qed.

Lemma leave_eq cached tarFile r w s : ∃ w', leave cached tarFile r w s = (w', s, CReturn r).
Proof. unfold leave. eauto. Qed.

Lemma after_header_pc h w s :
  (∃ r, (after_header h w s).2 = CReturn r) ∨ ∃ sum cached, (after_header h w s).2 = CFirst sum cached.
Proof. unfold after_header. repeat case_match; simpl; eauto. Qed.

Lemma after_first_pc sum cached d w s :
  (∃ r, (after_first sum cached d w s).2 = CReturn r) ∨
  ∃ tf, (after_first sum cached d w s).2 = CBody sum cached tf false.
Proof. unfold after_first, leave. repeat case_match; simpl; eauto. Qed.

Lemma on_chunk_pc sum cached tf en d w s :
  (∃ r, (on_chunk sum cached tf en d w s).2 = CReturn r) ∨
  (on_chunk sum cached tf en d w s).2 = CBody sum cached tf en.
Proof. unfold on_chunk, leave. repeat case_match; simpl; eauto. Qed.

Lemma after_body_pc sum cached tf w s : ∃ r, (after_body sum cached tf w s).2 = CReturn r.
Proof. unfold after_body, leave. repeat case_match; simpl; eauto. Qed.

Lemma set_cons_eta (x : world * S * cons_pc) s : set_cons x s = set_cons (x.1.1, x.1.2, x.2) s.
Proof. by destruct x as [[? ?] ?]. Qed.

Lemma on_packet_class r :
  chunk_of r = head (in_flight (on_packet r)) ∧
  in_flight (on_packet r) = option_list (chunk_of r) ∧
  sending_hash (on_packet r) = (if hash_of r then true else false) ∧
  sending_bad (on_packet r) = is_bad r ∧
  closed_flags (on_packet r) = (false, false, false) ∧
  ending [r] (on_packet r).
Proof.
  unfold chunk_of, hash_of, is_bad, ending. simpl. unfold is_last.
  assert (∀ n b, on_packet r ≠ PSendErr None b ∧ on_packet r ≠ PClose n ∧ on_packet r ≠ PDone) as Hne.
  { intros n b. unfold on_packet, handleBuildTransfer, handleImageTransfer. repeat case_match; done. }
  destruct (on_packet r) as [|[e|] b|h b|d b|n|] eqn:E; simpl; try (split_and!; done).
  { split_and!; try done. left. unfold is_bad. by rewrite E. }
  all: exfalso.
  - by destruct (Hne 0 b) as (? & _).
  - by destruct (Hne n true) as (_ & ? & _).
  - by destruct (Hne 0 true) as (_ & _ & ?).
Qed.

Lemma proto_init pkts w s : proto [] (init pkts w s).
Proof. split; simpl; try done. by intros _ ?%Exists_nil. Qed.

(** The producer takes the next packet. *)
Lemma proto_recv done s r rest :
  proto done s → prod s = PRecv → input s = r :: rest →
  proto (done ++ [r]) (set_prod (on_packet r) (set_input rest s)).
Proof.
  intros [H1 H2 H3 H4 H5 H6] Hp Hi. rewrite Hp in *. destruct (on_packet_class r) as (_ & Hc & Hh & Hb & Hf & He).
  split; simpl.
  - rewrite omap_app, H1. simpl. rewrite app_nil_r, Hc. by destruct (chunk_of r).
  - by rewrite Hf.
  - unfold ending in *. rewrite last_snoc. simpl in He. destruct (on_packet r) as [|[]| | | |]; try done.
    all: try (destruct He as [He|He]; [by left|right]; apply Exists_app; by right). all: by apply Exists_app; right.
  - intros Hr [Hd|Hd]%Exists_app.
    + destruct (H4 Hr Hd) as [?|?]; [done|by right].
    + left. apply Exists_cons in Hd as [Hd|Hd]; [by rewrite Hb|by apply Exists_nil in Hd].
  - done.
  - intros Hr. rewrite omap_app, length_app, (H6 Hr), Hh. simpl.
    destruct (hash_of r); simpl; lia.
Qed.

(** The producer gets rid of what it was sending, [last] being the packet's [Complete]. *)
Lemma after_send_ending done b :
  is_last <$> last done = Some b → ending done (after_send b).
Proof. intros H. by destruct b. Qed.

Lemma after_send_class b :
  closed_flags (after_send b) = (false, false, false) ∧ sending_bad (after_send b) = false ∧
  sending_hash (after_send b) = false ∧ in_flight (after_send b) = [].
Proof. by destruct b. Qed.

Lemma proto_prod done s s' :
  proto done s → step_prod s = Some s' →
  ∃ done', proto done' s' ∧ done' ++ input s' = done ++ input s.
Proof.
  intros Hpr Hs. unfold step_prod in Hs. destruct (prod s) as [|e r|h b|d b|n|] eqn:Ep.
  - destruct (input s) as [|r rest] eqn:Ei; [done|]. injection Hs as <-. exists (done ++ [r]).
    split; [by apply proto_recv|]. simpl. by rewrite <-app_assoc.
  - destruct (errCh s) eqn:Ee; [done|]. injection Hs as <-. exists done. split; [|done].
    destruct Hpr as [H1 H2 H3 H4 H5 H6]. rewrite Ep, ?Ee in *. split; simpl; try done.
    + by destruct r.
    + by destruct r.
    + destruct r; simpl; [|done]. destruct e as [e|]; [by right|left; by apply H3].
    + intros Hr Hb. right. destruct (H4 Hr Hb) as [Hb'|[? ?]]; [|done]. destruct e; [eauto|done].
    + intros Hr. rewrite (H6 Hr). by destruct r.
  - destruct (headerCh s) eqn:Eh; [done|]. injection Hs as <-. exists done. split; [|done].
    destruct Hpr as [H1 H2 H3 H4 H5 H6]. rewrite Ep, ?Eh in *.
    destruct (after_send_class b) as (Hc1 & Hc2 & Hc3 & Hc4). split; simpl; rewrite ?Hc1, ?Hc2, ?Hc3, ?Hc4; try done.
    by apply after_send_ending.
  - done.
  - exists done. destruct Hpr as [H1 H2 H3 H4 H5 H6]. rewrite Ep in *.
    assert (Hok : ∀ d h e : bool, (dataClosed s = true → d = true) → (headerClosed s = true → h = true) →
      (errClosed s = true → e = true) → cons_ok (cons s) d h e).
    { intros d h e Hd Hh He. destruct (cons s); simpl in *; naive_solver. }
    destruct n as [|[|n]]; injection Hs as <-; (split; [|done]); simpl in H2; injection H2 as E1 E2 E3;
      split; simpl; try done; apply Hok; congruence.
  - done.
Qed.

(** The rendezvous on [dataCh], and the closed [dataCh]. *)
Lemma proto_data done s s' :
  proto done s → step_data s = Some s' → input s' = input s ∧ proto done s'.
Proof.
  intros Hpr Hs. unfold step_data in Hs.
  assert (Hcl : (if dataClosed s then match cons s with
        | CFirst _ _ => Some (set_cons (wd s, cb s, CFirstErr) s)
        | CBody sum cached tarFile _ => Some (set_cons (wd s, cb s, CDrain sum cached tarFile) s)
        | _ => None end else None) = Some s' → input s' = input s ∧ proto done s').
  { destruct (dataClosed s) eqn:Ed; [|done].
    destruct (cons s) as [| | |sum cached tf en| |] eqn:Ec; try done; intros [= <-]; (split; [done|]);
      (apply proto_set_cons; [done|done|]); by rewrite Ec. }
  destruct (prod s) as [| | |d b| |] eqn:Ep; try by apply Hcl.
  clear Hcl. unfold on_data in Hs.
  destruct (after_send_class b) as (Hc1 & Hc2 & Hc3 & Hc4).
  assert (Hgot : running (cons s) = true → proto done (set_prod (after_send b) (set_got d s))).
  { intros Hrun. destruct Hpr as [H1 H2 H3 H4 H5 H6]. rewrite Ep in *.
    split; simpl; rewrite ?Hc1, ?Hc2, ?Hc3, ?Hc4, ?app_nil_r; try done. by apply after_send_ending. }
  destruct (cons s) as [|sum cached| |sum cached tf en| |] eqn:Ec; try done;
    injection Hs as <-; (split; [done|]); specialize (Hgot eq_refl);
    match goal with |- proto _ (set_prod ?p (set_cons ?x ?s)) =>
      change (set_prod p (set_cons x s)) with (set_cons x (set_prod p s)) end;
    rewrite set_cons_eta.
  - apply proto_set_cons; [done|..]; destruct (after_first_pc sum cached d (wd s) (cb s)) as [[r ->]|[tf ->]];
      simpl; rewrite ?Ec; done.
  - pose proof (pr_cons _ _ Hpr) as Hok. rewrite Ec in Hok.
    apply proto_set_cons; [done|..]; destruct (on_chunk_pc sum cached tf en d (wd s) (cb s)) as [[r ->]| ->];
      simpl; rewrite ?Ec; done.
Qed.

(** Taking from [errCh] something that is not an error. *)
Lemma recv_err_inv s x s' :
  recv_err s = Some (x, s') →
  (∃ e, errCh s = Some e ∧ x = Some e ∧ s' = set_errCh None s) ∨
  (errCh s = None ∧ errClosed s = true ∧ x = None ∧ s' = s).
Proof.
  unfold recv_err. destruct (errCh s) as [e|]; [intros [= <- <-]; eauto|].
  destruct (errClosed s); [|done]. intros [= <- <-]. auto.
Qed.

Lemma proto_recv_err done s x s' :
  proto done s → recv_err s = Some (x, s') →
  (∀ w k r, proto done (set_cons (w, k, CReturn r) s')) ∧
  ((∀ e, x ≠ Some (Some e)) → proto done s') ∧
  (x = None → errClosed s' = true) ∧
  input s' = input s ∧ cons s' = cons s.
Proof.
  intros Hpr [(e & He & -> & ->)|(He & Hcl & -> & ->)]%recv_err_inv.
  - destruct Hpr as [H1 H2 H3 H4 H5 H6]. split; [|split; [|done]].
    + intros w k r. split; simpl; try done.
    + intros Hne. split; simpl; try done. intros Hr Hb.
      destruct (H4 Hr Hb) as [?|[e' He']]; [by left|]. exfalso. eapply Hne. by rewrite <-He', He.
  - split_and!; try done. intros. by apply proto_return.
Qed.

Lemma proto_err done s s' :
  proto done s → step_err s = Some s' → input s' = input s ∧ proto done s'.
Proof.
  intros Hpr Hs. unfold step_err in Hs. pose proof (pr_cons _ _ Hpr) as Hok.
  assert (Hrecv : ∀ (k : option (option error) → state → option state),
    ('(x, s1) ← recv_err s; k x s1) = Some s' →
    (∀ s1 e, k (Some (Some e)) s1 = Some s' → ∃ w c r, s' = set_cons (w, c, CReturn r) s1) →
    (∀ s1 x, (∀ e, x ≠ Some (Some e)) → (x = None → errClosed s1 = true) → cons s1 = cons s →
       proto done s1 → k x s1 = Some s' → input s' = input s1 ∧ proto done s') →
    input s' = input s ∧ proto done s').
  { intros k Hk He Hx. destruct (recv_err s) as [[x s1]|] eqn:Er; [|done]. simpl in Hk.
    destruct (proto_recv_err _ _ _ _ Hpr Er) as (Hret & Hpr1 & Hcl & Hi & Hc).
    destruct x as [[e|]|].
    - destruct (He _ _ Hk) as (w & c & r & ->). split; [done|apply Hret].
    - rewrite <-Hi. apply (Hx s1 (Some None)); [done|done|done|by apply Hpr1|done].
    - rewrite <-Hi. apply (Hx s1 None); [done|by intros _; apply Hcl|done|by apply Hpr1|done]. }
  destruct (cons s) as [hn [|]|sum cached| |sum cached tf [|]|sum cached tf|r] eqn:Ec; try done.
  - eapply Hrecv; [exact Hs|simpl; intros s1 e [= <-]; by eexists _, _, _|].
    intros s1 x Hx Hcl Hc Hp1 Hk. destruct x as [[e|]|]; [by destruct (Hx e)|by injection Hk as <-|].
    injection Hk as <-. split; [done|]. apply proto_set_cons; [done|..]; unfold header_loop.
    + destruct hn; simpl; [done|]. split_and!; try done. by intros _; apply Hcl.
    + rewrite Hc. by destruct hn.
  - eapply Hrecv; [exact Hs|simpl; intros s1 e [= <-]; by eexists _, _, _|].
    intros s1 x Hx Hcl Hc Hp1 Hk.
    assert (s' = set_cons (after_first sum cached [] (wd s1) (cb s1)) s1) as ->.
    { destruct x as [[e|]|]; [by destruct (Hx e)|by injection Hk|by injection Hk]. }
    split; [done|]. rewrite set_cons_eta.
    apply proto_set_cons; [done|..]; destruct (after_first_pc sum cached [] (wd s1) (cb s1)) as [[r ->]|[tf ->]];
      simpl; rewrite ?Hc; done.
  - eapply Hrecv; [exact Hs|simpl; intros s1 e [= <-]; by eexists _, _, _|].
    intros s1 x Hx Hcl Hc Hp1 Hk.
    assert (s' = ret (Err (Errorf "data channel closed" [])) s1) as ->.
    { destruct x as [[e|]|]; [by destruct (Hx e)|by injection Hk|by injection Hk]. }
    split; [done|by apply proto_return].
  - eapply Hrecv; [exact Hs|simpl; intros s1 e [= <-]; by eexists _, _, _|].
    intros s1 x Hx Hcl Hc Hp1 Hk. destruct x as [[e|]|]; [by destruct (Hx e)|by injection Hk as <-|].
    injection Hk as <-. split; [done|]. apply proto_set_cons; [done|by intros _; apply Hcl|]. by rewrite Hc.
  - assert (∃ s1 w k r, s' = set_cons (w, k, CReturn r) s1 ∧ (s1 = s ∨ ∃ x, recv_err s = Some (x, s1)))
      as (s1 & w & k & r & -> & Hs1).
    { destruct (recv_err s) as [[x s1]|] eqn:Er.
      - assert (s' = set_cons (after_body sum cached tf (wd s1) (cb s1)) s1 ∨
                ∃ e, s' = set_cons (leave cached tf (Err e) (wd s1) (cb s1)) s1) as [->|[e ->]].
        { destruct x as [[e|]|]; injection Hs as <-; eauto. }
        + destruct (after_body_pc sum cached tf (wd s1) (cb s1)) as [r Hr]. rewrite set_cons_eta, Hr. eauto 10.
        + unfold leave. eauto 10.
      - injection Hs as <-. destruct (after_body_pc sum cached tf (wd s) (cb s)) as [r Hr].
        rewrite set_cons_eta, Hr. eauto 10. }
    destruct Hs1 as [->|[x Hx]]; [split; [done|by apply proto_return]|].
    destruct (proto_recv_err _ _ _ _ Hpr Hx) as (Hret & _ & _ & Hi & _). split; [done|apply Hret].
Qed.

Lemma proto_header done s s' :
  proto done s → step_header s = Some s' → input s' = input s ∧ proto done s'.
Proof.
  intros Hpr Hs. unfold step_header in Hs. destruct (cons s) as [[|] en| | | | |] eqn:Ec; try done.
  destruct (headerCh s) as [h|] eqn:Eh.
  - injection Hs as <-. split; [done|]. rewrite set_cons_eta. destruct Hpr as [H1 H2 H3 H4 H5 H6].
    rewrite Ec, Eh in *. simpl in H6.
    assert (past_header (after_header h (wd s) (cb s)).2 = true ∧
            cons_ok (after_header h (wd s) (cb s)).2 (dataClosed s) (headerClosed s) (errClosed s)) as [Hp Hk].
    { destruct (after_header_pc h (wd s) (cb s)) as [[r ->]|(sum & cached & ->)]; done. }
    split; simpl; try done.
    + intros _. by apply H4.
    + intros _. rewrite Hp, (H6 eq_refl). simpl. lia.
  - destruct (headerClosed s) eqn:Ehc; [|done]. injection Hs as <-. split; [done|].
    pose proof (pr_cons _ _ Hpr) as Hok. rewrite Ec in Hok.
    apply proto_set_cons; [done|..]; unfold header_loop; destruct en; simpl; rewrite ?Ec; try done.
Qed.

Lemma proto_step done l s s' :
  proto done s → step l s = Some s' → ∃ done', proto done' s' ∧ done' ++ input s' = done ++ input s.
Proof.
  intros Hpr. destruct l; cbn [step]; intros Hs.
  - by apply proto_prod.
  - apply proto_data with (done := done) in Hs as [-> ?]; eauto.
  - apply proto_err with (done := done) in Hs as [-> ?]; eauto.
  - apply proto_header with (done := done) in Hs as [-> ?]; eauto.
  - unfold step_ctx in Hs. destruct (ctxErr s) as [e|]; [|done]. simpl in Hs. exists done.
    destruct (cons s); try done; injection Hs as <-; (split; [by apply proto_return|done]).
  - destruct (ctxErr s); [done|]. injection Hs as <-. exists done. split; [|done].
    destruct Hpr as [H1 H2 H3 H4 H5 H6]. by split.
Qed.

Lemma proto_reaches pkts w k s :
  reaches (init pkts w k) s → ∃ done, proto done s ∧ pkts = done ++ input s.
Proof.
  induction 1 as [|s l s' _ (dn & Hpr & Hd) Hs]; [exists []; split; [apply proto_init|done]|].
  destruct (proto_step _ _ _ _ Hpr Hs) as (dn' & Hpr' & Hd'). exists dn'. by rewrite Hd', <-Hd.
Qed.

(** ** Progress *)

(** Nothing can move except by cancelling the context. *)
Definition stuck (s : state) : Prop := ∀ l, (∀ e, l ≠ LCancel e) → step l s = None.

Ltac flag_contra :=
  repeat match goal with H : _ ∧ _ |- _ => destruct H end;
  match goal with
  | H : true = true → false = true |- _ => discriminate (H eq_refl)
  | H : false = true |- _ => discriminate H
  | H : true = false |- _ => discriminate H
  | H : Some _ = None |- _ => discriminate H
  end.

Lemma stuck_cases done s :
  proto done s → stuck s → running (cons s) = true →
  (prod s = PRecv ∧ input s = []) ∨
  (omap hash_of done = [] ∧ omap chunk_of done ≠ []) ∨
  3 ≤ length (omap hash_of done).
Proof.
  intros [H1 H2 H3 H4 H5 H6] Hst Hrun. specialize (H6 Hrun).
  pose proof (Hst LProd ltac:(done)) as Sp. pose proof (Hst LData ltac:(done)) as Sd.
  pose proof (Hst LErr ltac:(done)) as Se. pose proof (Hst LHeader ltac:(done)) as Sh. clear Hst.
  cbn [step] in *. unfold step_prod, step_data, on_data, step_err, step_header, recv_err in *.
  destruct (prod s) as [|e r|h b|d b|[|[|n]]|]; simpl in *; try done;
    injection H2 as E1 E2 E3; rewrite <-?E1, <-?E2, <-?E3 in *.
  - destruct (input s); [by left|done].
  - exfalso. destruct (errCh s) as [x|]; [|done].
    destruct (cons s) as [hn [|]|sum cached| |sum cached tf [|]|sum cached tf|r']; simpl in *;
      try flag_contra; destruct x as [?|]; flag_contra.
  - right; right. destruct (headerCh s) as [x|]; [|done]. rewrite H6.
    destruct (cons s) as [[|] en| | | | |]; simpl in *; try lia; flag_contra.
  - right; left. destruct (cons s) as [[|] en| | | | |]; simpl in *; try flag_contra.
    destruct (headerCh s); [done|]. simpl in H6. rewrite H1. split; [by apply nil_length_inv|by destruct (got s)].
  - exfalso. destruct (cons s) as [[|] [|]|sum cached| |sum cached tf [|]|sum cached tf|r']; simpl in *;
      try flag_contra; destruct (errCh s) as [[e|]|], (headerCh s) as [h|]; simpl in *; flag_contra.
Qed.

(** ** The disk along the way *)

(** The disk with one more file. *)
Definition staged_fs (fs : fsys) (p : path) (md : Z) (data : bytes) : fsys :=
  {| names := <[p := DFile (next_ino fs)]> (names fs); inodes := <[next_ino fs := (md, data)]> (inodes fs);
     next_ino := Datatypes.S (next_ino fs); cwd := cwd fs; umask := umask fs |}.

Definition tar_comp (rnd : string) : string := ".context-" +:+ rnd +:+ ".tar".

Lemma tar_comp_good rnd : contains_byte slash rnd = false → good (tar_comp rnd).
Proof.
  intros Hr. unfold tar_comp. split; [done|]. split; [done|]. split; [done|].
  rewrite !contains_byte_app, Hr. done.
Qed.

Lemma tar_name_abs bs rnd :
  bs ≠ [] → temp_name (abs_path bs) ".context-" rnd ".tar" = abs_path (bs ++ [tar_comp rnd]).
Proof.
  intros Hne. unfold temp_name, abs_path, tar_comp. rewrite Join_app_comps by done. simpl Join.
  by rewrite <-!string_app_assoc.
Qed.

Lemma writeTar_spec rnds bs d w :
  bs ≠ [] → Forall good bs → real_dir (disk w) bs → Forall (λ r, contains_byte slash r = false) rnds →
  match writeTar rnds (abs_path bs) d w with
  | (w', Ok tf) => ∃ rnd, contains_byte slash rnd = false ∧ tf = abs_path (bs ++ [tar_comp rnd]) ∧
      names (disk w) !! (bs ++ [tar_comp rnd]) = None ∧
      disk w' = staged_fs (disk w) (bs ++ [tar_comp rnd]) (perm (disk w) 384) d
  | (w', Err _) => True
  end.
Proof.
  intros Hne Hbs Hr Hrnd. unfold writeTar. induction Hrnd as [|rnd rnds Hs _ IH]; [done|].
  cbn [os_CreateTemp]. rewrite tar_name_abs by done. unfold os_CreateExcl.
  rewrite add_entry_in_real by (try done; by apply tar_comp_good).
  destruct (names (disk w) !! (bs ++ [tar_comp rnd])) as [dd|] eqn:E; simpl; [done|]. by exists rnd.
Qed.

Lemma wf_staged fs p c md data :
  wf_disk fs → p ≠ [] → Forall good p → good c → real_dir fs p → names fs !! (p ++ [c]) = None →
  wf_disk (staged_fs fs (p ++ [c]) md data).
Proof.
  intros Hwf Hne Hp Hc Hr Hn. apply (wf_create fs (p ++ [c]) (md, data)); [done| |by rewrite lookup_name_ne by by destruct p].
  right. exists p, c. split_and!; [done|done|]. by apply real_dir_self.
Qed.

Lemma append_staged fs p c md data d :
  wf_disk fs → p ≠ [] → Forall good p → good c → real_dir fs p → names fs !! (p ++ [c]) = None →
  append_chunk (abs_path (p ++ [c])) d (staged_fs fs (p ++ [c]) md data) =
  Ok (staged_fs fs (p ++ [c]) md (data ++ d)).
Proof.
  intros Hwf Hne Hp Hc Hr Hn. unfold append_chunk.
  assert (os_Stat (staged_fs fs (p ++ [c]) md data) (abs_path (p ++ [c])) = Ok (DFile (next_ino fs))) as ->.
  { unfold os_Stat, stat. rewrite resolve_in_real; [|done|done| |].
    - simpl. rewrite lookup_name_ne by by destruct p. simpl. by rewrite lookup_insert_eq.
    - eapply grows_real_dir; [|exact Hr]. by apply (grows_create (λ _ _, True)).
    - intros _ t. rewrite lookup_name_ne by by destruct p. simpl. by rewrite lookup_insert_eq. }
  simpl. unfold set_data, staged_fs. simpl. by rewrite alter_insert_eq.
Qed.

Section disk.
Context (bs : path) (Hne : bs ≠ []) (Hbs : Forall good bs) (Hbase : cacheBase = abs_path bs).
Context (Htar : Forall (λ r, contains_byte slash r = false) tar_rnds).
Context (Hdir : Forall (λ r, contains_byte slash r = false) dir_rnds).
Context (pkts : list (res ClientStream)) (w0 : world) (k0 : S).
Context (Hwf : wf_disk (disk w0)) (Hreal : real_dir (disk w0) bs).

Abbreviation cached_in fs sum := (CachedContextPresent unicode_lower fs cacheBase sum).

(** The walk went over the entry that is on the disk at the end. *)
Definition walked (sum : string) (fs : fsys) (k : S) : Prop :=
  ∃ fsw, walkCachedContext mtime dir_size fn fsw (abs_path (bs ++ [sum])) k0 = (k, None) ∧ wf_disk fsw ∧
    inodes fsw = inodes fs ∧ ∀ r, names fsw !! ((bs ++ [sum]) ++ r) = names fs !! ((bs ++ [sum]) ++ r).

(** The archive came in complete, had the digest it was announced with, and is unpacked. *)
Definition transferred (sum : string) (fs : fsys) : Prop :=
  ∃ dn rest, pkts = dn ++ rest ∧ Forall (λ r, is_bad r = false) dn ∧ is_last <$> last dn = Some true ∧
    let data := concat (omap chunk_of dn) in
    hex_EncodeToString (sha256 data) = sum ∧ all_placed tar_read bs sum data fs.

Definition received (sum : string) (fs : fsys) (k : S) : Prop :=
  validateContextDigest unicode_lower sum = Ok tt ∧ wf_disk fs ∧ complete (bs ++ [sum]) fs ∧ walked sum fs k ∧
  (complete (bs ++ [sum]) (disk w0) ∨ transferred sum fs).

(** The consumer between the header and the end of the body. *)
Definition body_ok (sum : string) (cached : bool) (tf : string) (fs : fsys) (data : list bytes) : Prop :=
  validateContextDigest unicode_lower sum = Ok tt ∧ cached_in (disk w0) sum = Ok cached ∧
  if cached then fs = disk w0
  else ∃ rnd, contains_byte slash rnd = false ∧ tf = abs_path (bs ++ [tar_comp rnd]) ∧
    names (disk w0) !! (bs ++ [tar_comp rnd]) = None ∧
    fs = staged_fs (disk w0) (bs ++ [tar_comp rnd]) (perm (disk w0) 384) (concat data).

Definition disk_ok (s : state) : Prop :=
  match cons s with
  | CHeader _ _ => disk (wd s) = disk w0 ∧ got s = [] ∧ cb s = k0
  | CFirst sum cached => disk (wd s) = disk w0 ∧ got s = [] ∧ cb s = k0 ∧
      validateContextDigest unicode_lower sum = Ok tt ∧ cached_in (disk w0) sum = Ok cached
  | CFirstErr => True
  | CBody sum cached tf _ | CDrain sum cached tf => body_ok sum cached tf (disk (wd s)) (got s) ∧ cb s = k0
  | CReturn (Ok sum) => received sum (disk (wd s)) (cb s)
  | CReturn (Err _) => True
  end.

Lemma cached_complete sum :
  validateContextDigest unicode_lower sum = Ok tt →
  cached_in (disk w0) sum = Ok true ↔ complete (bs ++ [sum]) (disk w0).
Proof.
  intros Hv. destruct (digest_good _ _ Hv) as [Hg _]. unfold CachedContextPresent. rewrite Hv. cbn [mbind result_bind].
  rewrite Hbase, path_Join_snoc by done. by apply checkCache_complete.
Qed.

Lemma cache_dir_path sum :
  validateContextDigest unicode_lower sum = Ok tt → path_Join [cacheBase; sum] = abs_path (bs ++ [sum]).
Proof. intros [Hg _]%digest_good. by rewrite Hbase, path_Join_snoc. Qed.

Lemma walk_result_ok sum w k r :
  validateContextDigest unicode_lower sum = Ok tt → walk_result sum w k0 = (k, r) →
  ∀ sum', r = Ok sum' → sum' = sum ∧ walkCachedContext mtime dir_size fn (disk w) (abs_path (bs ++ [sum])) k0 = (k, None).
Proof.
  intros Hv. unfold walk_result. rewrite cache_dir_path by done.
  destruct (walkCachedContext _ _ _ _ _ _) as [k' [e|]]; intros [= <- <-] sum'; [done|]. by intros [= <-].
Qed.

Lemma after_header_ok h w :
  disk w = disk w0 →
  let x := after_header h w k0 in
  match x.2 with
  | CFirst sum cached => disk x.1.1 = disk w0 ∧ x.1.2 = k0 ∧
      validateContextDigest unicode_lower sum = Ok tt ∧ cached_in (disk w0) sum = Ok cached
  | CReturn (Ok sum) => received sum (disk x.1.1) x.1.2
  | CReturn (Err _) => True
  | _ => False
  end.
Proof.
  intros Hw. unfold after_header, mbind, osM_bind, lift, mutate, reads.
  destruct (validateContextDigest unicode_lower (checksum h)) as [[]|e] eqn:Hv; [|done].
  rewrite Hw, Hbase, MkdirAll_real by done. cbn [disk trace]. rewrite <-Hbase.
  destruct (cached_in (disk w0) (checksum h)) as [cached|e] eqn:Hc; [|done].
  destruct (header_complete h); [|done]. destruct cached; [|done]. cbn [negb].
  destruct (walk_result _ _ _) as [k r] eqn:Ew. simpl. destruct r as [sum'|e]; [|done].
  destruct (walk_result_ok _ _ _ _ Hv Ew _ eq_refl) as [-> Hwalk].
  apply cached_complete in Hc; [|done]. simpl in Hwalk. split_and!; [done|done|done| |by left].
  by exists (disk w0).
Qed.

Lemma after_first_ok sum cached d w :
  disk w = disk w0 → validateContextDigest unicode_lower sum = Ok tt → cached_in (disk w0) sum = Ok cached →
  let x := after_first sum cached d w k0 in
  match x.2 with
  | CBody sum' cached' tf _ => sum' = sum ∧ cached' = cached ∧ x.1.2 = k0 ∧ body_ok sum cached tf (disk x.1.1) [d]
  | CReturn (Err _) => True
  | _ => False
  end.
Proof.
  intros Hw Hv Hc. unfold after_first. destruct cached; [simpl; by split_and!|].
  rewrite Hbase. pose proof (writeTar_spec tar_rnds bs d w Hne Hbs) as Hwt. rewrite Hw in Hwt.
  specialize (Hwt Hreal Htar). destruct (writeTar _ _ _ _) as [w' [tf|e]]; [|done].
  destruct Hwt as (rnd & Hr & -> & Hn & Hd).
  assert (body_ok sum false (abs_path (bs ++ [tar_comp rnd])) (disk w') [d]) as Hb.
  { split; [done|]. split; [done|]. exists rnd. simpl. by rewrite app_nil_r. }
  destruct (os_Stat _ _); simpl; done.
Qed.

Lemma on_chunk_ok sum cached tf en d w l :
  body_ok sum cached tf (disk w) l →
  let x := on_chunk sum cached tf en d w k0 in
  match x.2 with
  | CBody sum' cached' tf' _ => sum' = sum ∧ cached' = cached ∧ tf' = tf ∧ x.1.2 = k0 ∧
      body_ok sum cached tf (disk x.1.1) (l ++ [d])
  | _ => False
  end.
Proof.
  intros (Hv & Hc & Hb). unfold on_chunk, mutate. destruct cached; [by split_and!|].
  destruct Hb as (rnd & Hr & -> & Hn & ->). rewrite append_staged by (try done; by apply tar_comp_good).
  simpl. split_and!; try done. split; [done|]. split; [done|]. exists rnd. rewrite concat_app. simpl. by rewrite app_nil_r.
Qed.

(** The staged disk meets what [publishTar] needs. *)
Lemma staged_inv sum rnd data :
  contains_byte slash rnd = false → names (disk w0) !! (bs ++ [tar_comp rnd]) = None →
  let fs := staged_fs (disk w0) (bs ++ [tar_comp rnd]) (perm (disk w0) 384) data in
  inv bs sum (tar_comp rnd) data fs ∧ temps_closed bs dir_rnds fs.
Proof.
  intros Hr Hn fs. assert (Hg : good (tar_comp rnd)) by by apply tar_comp_good.
  assert (Hw : wf_disk fs) by by apply wf_staged.
  split; [split|].
  - eapply grows_real_dir; [|exact Hreal]. by apply (grows_create (λ _ _, True)).
  - intros ino Hi. by eapply (wf_ino fs Hw).
  - exists (next_ino (disk w0)), (perm (disk w0) 384). simpl. rewrite !lookup_insert_eq. split_and!; [done..|lia].
  - intros rnd' _. apply wf_closed_at; [by destruct bs|done].
Qed.

(** The staged file is not part of any entry. *)
Lemma complete_staged sum rnd md data :
  validateContextDigest unicode_lower sum = Ok tt → names (disk w0) !! (bs ++ [tar_comp rnd]) = None →
  complete (bs ++ [sum]) (staged_fs (disk w0) (bs ++ [tar_comp rnd]) md data) → complete (bs ++ [sum]) (disk w0).
Proof.
  intros [_ Hd]%digest_good Hn (m & ino & md' & H1 & H2 & H3). simpl in *.
  assert (tar_comp rnd ≠ sum) as Hts by (intros E; by eapply Hd).
  rewrite lookup_insert_ne in H1 by (intros E; by simplify_list_eq).
  rewrite lookup_insert_ne in H2 by (intros E; rewrite <-app_assoc in E; by simplify_list_eq).
  exists m, ino, md'. split; [done|]. split; [done|].
  destruct (wf_ino _ Hwf _ _ H2) as [_ Hi]. by rewrite lookup_insert_ne in H3 by lia.
Qed.

(** Removing the staged file leaves the entry as it is. *)
Lemma remove_staged sum rnd data fs fs' :
  validateContextDigest unicode_lower sum = Ok tt → contains_byte slash rnd = false →
  inv bs sum (tar_comp rnd) data fs → fs' = match os_Remove fs (abs_path (bs ++ [tar_comp rnd])) with Ok fs' => fs' | Err _ => fs end →
  inodes fs' = inodes fs ∧ next_ino fs' = next_ino fs ∧ umask fs' = umask fs ∧
  ∀ r, names fs' !! ((bs ++ [sum]) ++ r) = names fs !! ((bs ++ [sum]) ++ r).
Proof.
  intros [_ Hd]%digest_good Hr [Hb _ (ino & md & Hn & _)] ->. unfold os_Remove.
  rewrite resolve_in_real by (try done; by apply tar_comp_good). cbn [mbind result_bind].
  rewrite lookup_name_ne by by destruct bs. rewrite Hn. split_and!; try done.
  intros r. simpl. rewrite lookup_delete_ne; [done|]. intros E. rewrite <-app_assoc in E. simplify_list_eq.
  by eapply Hd.
Qed.

Lemma complete_same cd fs fs' :
  inodes fs' = inodes fs → (∀ r, names fs' !! (cd ++ r) = names fs !! (cd ++ r)) → complete cd fs → complete cd fs'.
Proof.
  intros Hi Hn (m & ino & md & H1 & H2 & H3). exists m, ino, md. rewrite Hn, Hi.
  split_and!; try done. pose proof (Hn []) as H0. rewrite app_nil_r in H0. by rewrite H0.
Qed.

Lemma after_body_ok sum cached tf w dn rest :
  body_ok sum cached tf (disk w) (omap chunk_of dn) →
  pkts = dn ++ rest → Forall (λ r, is_bad r = false) dn → is_last <$> last dn = Some true →
  let x := after_body sum cached tf w k0 in
  ∀ sum', x.2 = CReturn (Ok sum') → received sum' (disk x.1.1) x.1.2.
Proof.
  intros (Hv & Hc & Hb) Hp Hgood Hlast. cbv zeta. unfold after_body, leave. destruct cached.
  { cbn [mret osM_ret]. destruct (walk_result sum w k0) as [k r] eqn:Ew. simpl. intros sum' [= ->].
    destruct (walk_result_ok _ _ _ _ Hv Ew _ eq_refl) as [-> Hwalk]. apply cached_complete in Hc; [|done].
    rewrite Hb in Hwalk |- *. split_and!; [done|done|done| |by left]. by exists (disk w0). }
  destruct Hb as (rnd & Hr & -> & Hn & Hd). set (data := concat (omap chunk_of dn)) in *.
  destruct (staged_inv sum rnd data Hr Hn) as [Hinv Hcl]. cbv zeta in Hinv, Hcl. rewrite <-Hd in Hinv, Hcl.
  unfold mbind, osM_bind, reads.
  destruct (verifyTarHash _ _ _ _) as [[]|e] eqn:Hh; [|done].
  destruct (digest_good _ _ Hv) as [Hg Hdot].
  assert (Htc : good (tar_comp rnd)) by by apply tar_comp_good.
  assert (hex_EncodeToString (sha256 data) = sum) as Hsum.
  { unfold verifyTarHash in Hh. destruct (inv_staged _ _ _ _ _ Hinv) as (ino & md & H1 & H2 & _).
    erewrite ReadFile_in_real in Hh by (try done; apply Hinv). simpl in Hh. by case_bool_decide. }
  pose proof (publishTar_outcome tar_read bs sum Hne Hbs Hg Hdot (tar_comp rnd) Htc ltac:(by eexists)
    polls dir_rnds order1 order2 data w Hinv Hcl Hdir) as Hout.
  rewrite cache_dir_path, Hbase by done.
  pose proof (keeps_publishTar tar_read bs Hne Hbs polls dir_rnds order1 order2 (abs_path (bs ++ [tar_comp rnd])) sum Hg Hdir w) as Hkeep.
  destruct (publishTar _ _ _ _ _ _ _ _ w) as [w' [[]|e]]; [|done]. simpl in Hkeep.
  assert (wf_disk (disk w')) as Hw' by (apply Hkeep; rewrite Hd; by apply wf_staged). clear Hkeep.
  destruct Hout as [_ (Hi' & Hcomp & Hpl)]. simpl in *.
  assert (all_placed tar_read bs sum data (disk w')) as Hall.
  { destruct Hpl as [Hpl|]; [|done]. rewrite Hd in Hpl. apply complete_staged in Hpl; [|done..].
    apply cached_complete in Hpl; [|done]. congruence. }
  destruct (walk_result sum w' k0) as [k r] eqn:Ew. simpl. intros sum' [= ->].
  destruct (walk_result_ok _ _ _ _ Hv Ew _ eq_refl) as [-> Hwalk].
  set (wf := (ignore (mutate (λ fs, os_Remove fs (abs_path (bs ++ [tar_comp rnd])))) w').1).
  destruct (remove_staged sum rnd data (disk w') (disk wf) Hv Hr Hi') as (R1 & R2 & R3 & R4).
  { subst wf. unfold ignore, mutate. by destruct (os_Remove _ _). }
  assert (wf_disk (disk wf)) as Hwff.
  { subst wf. unfold ignore, mutate, os_Remove. destruct (inv_staged _ _ _ _ _ Hi') as (ino & md & Hs & _).
    rewrite resolve_in_real by (try done; apply Hi'). cbn [mbind result_bind]. rewrite lookup_name_ne by by destruct bs.
    rewrite Hs. simpl. by eapply wf_delete_file. }
  split; [done|]. split; [done|]. split; [by eapply complete_same|]. split.
  - exists (disk w'). by split_and!.
  - right. exists dn, rest. split_and!; try done. fold data. split; [done|]. destruct Hall as [HF He]. split; [|done].
    eapply Forall_impl; [exact HF|]. intros h Hh'. eapply placed_move; [exact R4|done..].
Qed.

Lemma recv_err_same s x s' :
  recv_err s = Some (x, s') → cons s' = cons s ∧ wd s' = wd s ∧ cb s' = cb s ∧ got s' = got s.
Proof. intros [(e & _ & _ & ->)|(_ & _ & _ & ->)]%recv_err_inv; done. Qed.

Lemma disk_data s s' : disk_ok s → step_data s = Some s' → disk_ok s'.
Proof.
  intros Hok Hs. unfold step_data in Hs. unfold disk_ok in Hok |- *.
  destruct (prod s) as [| | |d b| |]; [..|destruct (dataClosed s); [|done]|destruct (dataClosed s); [|done]];
    try (destruct (dataClosed s); [|done]);
    try (destruct (cons s) as [| | | | |]; simplify_eq/=; done).
  unfold on_data in Hs. destruct (cons s) as [hn en|sum cached| |sum cached tf en|sum cached tf|r]; try done;
    injection Hs as <-; simpl.
  - destruct Hok as (Hd & Hg & Hk & Hv & Hc). rewrite Hk.
    pose proof (after_first_ok sum cached d (wd s) Hd Hv Hc) as Hx. cbv zeta in Hx. rewrite Hg. simpl.
    destruct (after_first sum cached d (wd s) k0) as [[w k] []]; simpl in *; try done; [|by destruct r].
    destruct Hx as (-> & -> & ? & ?). done.
  - destruct Hok as [Hb Hk]. rewrite Hk.
    pose proof (on_chunk_ok sum cached tf en d (wd s) _ Hb) as Hx. cbv zeta in Hx.
    destruct (on_chunk sum cached tf en d (wd s) k0) as [[w k] []]; simpl in *; try done.
    destruct Hx as (-> & -> & -> & ? & ?). done.
Qed.

Lemma disk_err done s s' :
  proto done s → pkts = done ++ input s → disk_ok s → step_err s = Some s' → disk_ok s'.
Proof.
  intros Hpr Hp Hok Hs. unfold step_err in Hs. unfold disk_ok in Hok.
  assert (Hrecv : ∀ (k : option (option error) → state → option state),
    ('(x, s1) ← recv_err s; k x s1) = Some s' →
    (∀ s1 x, cons s1 = cons s ∧ wd s1 = wd s ∧ cb s1 = cb s ∧ got s1 = got s → k x s1 = Some s' → disk_ok s') → disk_ok s').
  { intros k Hk Hx. destruct (recv_err s) as [[x s1]|] eqn:Er; [|done]. eapply Hx; [by eapply recv_err_same|exact Hk]. }
  destruct (cons s) as [hn [|]|sum cached| |sum cached tf [|]|sum cached tf|r] eqn:Ec; try done.
  - eapply Hrecv; [exact Hs|]. intros s1 x (Hc & Hw & Hb & Hg) Hk. unfold disk_ok.
    destruct x as [[e|]|]; injection Hk as <-; simpl; [done|by rewrite Hc, Hw, Hb, Hg|].
    unfold header_loop. by destruct hn; simpl; rewrite ?Hw, ?Hb, ?Hg.
  - eapply Hrecv; [exact Hs|]. intros s1 x (Hc & Hw & Hb & Hg) Hk. destruct Hok as (Hd & Hg0 & Hk0 & Hv & Hcc).
    assert (s' = ret (Err (default EOF (default None x))) s1 ∨ s' = set_cons (after_first sum cached [] (wd s1) (cb s1)) s1) as [->| ->].
    { destruct x as [[e|]|]; injection Hk as <-; auto. }
    { done. }
    unfold disk_ok. simpl. rewrite Hw, Hb, Hk0, Hg, Hg0.
    pose proof (after_first_ok sum cached [] (wd s) Hd Hv Hcc) as Hx. cbv zeta in Hx.
    destruct (after_first sum cached [] (wd s) k0) as [[w k] []]; simpl in *; try done; [|by destruct r].
    destruct Hx as (-> & -> & ? & ?). done.
  - eapply Hrecv; [exact Hs|]. intros s1 x _ Hk. unfold disk_ok. by destruct x as [[e|]|]; injection Hk as <-.
  - eapply Hrecv; [exact Hs|]. intros s1 x (Hc & Hw & Hb & Hg) Hk. unfold disk_ok.
    destruct x as [[e|]|]; injection Hk as <-; simpl; rewrite ?Hc, ?Hw, ?Hb, ?Hg; done.
  - destruct Hok as [Hb Hk0].
    assert ((∃ s1 e w, s' = set_cons (w, cb s1, CReturn (Err e)) s1) ∨
      ∃ s1, s' = set_cons (after_body sum cached tf (wd s) (cb s)) s1 ∧ (∀ e, errCh s ≠ Some (Some e)))
      as [(s1 & e & w & ->)|(s1 & -> & He)]; [|done|].
    { destruct (recv_err s) as [[x s1]|] eqn:Er.
      - destruct (recv_err_same _ _ _ Er) as (_ & <- & <- & _).
        apply recv_err_inv in Er as [(e & He & -> & ->)|(He & _ & -> & ->)].
        + destruct e as [e|]; injection Hs as <-; [left; exists (set_errCh None s), e; by eexists|right].
          exists (set_errCh None s). split; [done|]. by rewrite He.
        + injection Hs as <-. right. exists s. split; [done|]. by rewrite He.
      - injection Hs as <-. right. exists s. split; [done|]. unfold recv_err in Er. by destruct (errCh s). }
    pose proof Hpr as [H1 H2 H3 H4 H5 H6]. rewrite Ec in *. simpl in H5.
    assert (Hstop : in_flight (prod s) = [] ∧ sending_bad (prod s) = false ∧
      (is_last <$> last done = Some true ∨ Exists (λ r, is_bad r = true) done)).
    { rewrite H5 in H2. destruct (prod s) as [|[]| | |[|[|n]]|]; simpl in *; try done. }
    destruct Hstop as (Hif & Hsb & Hl). rewrite Hif, app_nil_r in H1.
    assert (¬ Exists (λ r, is_bad r = true) done) as Hnb.
    { intros Hbad. destruct (H4 eq_refl Hbad) as [?|[e ?]]; [congruence|by eapply He]. }
    destruct Hl as [Hl|]; [|done]. rewrite <-H1 in Hb.
    pose proof (after_body_ok sum cached tf (wd s) done (input s) Hb Hp) as Hx.
    rewrite Hk0. destruct (after_body_pc sum cached tf (wd s) k0) as [r Hr].
    unfold disk_ok. simpl. rewrite Hr. destruct r as [sum'|e]; [|done]. apply Hx; [|done|done].
    apply not_Exists_Forall in Hnb; [|apply _]. eapply Forall_impl; [exact Hnb|]. intros r Hne'. by apply not_true_is_false.
Qed.

Lemma disk_step done l s s' :
  proto done s → pkts = done ++ input s → disk_ok s → step l s = Some s' → disk_ok s'.
Proof.
  intros Hpr Hp Hok Hs. destruct l; cbn [step] in Hs.
  - unfold step_prod in Hs. unfold disk_ok in *.
    repeat (case_match; simplify_eq/=); try done.
  - by eapply disk_data.
  - by eapply disk_err.
  - unfold step_header in Hs. unfold disk_ok in Hok. destruct (cons s) as [[|] en| | | | |] eqn:Ec; try done.
    destruct Hok as (Hd & Hg & Hk). destruct (headerCh s) as [h|] eqn:Eh.
    + injection Hs as <-. unfold disk_ok. simpl. rewrite Hk, Hg.
      pose proof (after_header_ok h (wd s) Hd) as Hx. cbv zeta in Hx.
      destruct (after_header h (wd s) k0) as [[w k] [| | | | |[]]]; simpl in *; try done.
      by destruct Hx as (? & ? & ? & ?).
    + destruct (headerClosed s); [|done]. injection Hs as <-. unfold disk_ok, header_loop. by destruct en.
  - unfold step_ctx in Hs. destruct (ctxErr s); [|done]. simpl in Hs.
    by destruct (cons s); try done; injection Hs as <-.
  - destruct (ctxErr s); [done|]. by injection Hs as <-.
Qed.

Lemma disk_reaches s : reaches (init pkts w0 k0) s → disk_ok s.
Proof.
  induction 1 as [|s l s' Hr IH Hs]; [done|].
  destruct (proto_reaches _ _ _ _ Hr) as (dn & Hpr & Hd). by eapply disk_step.
Qed.
End disk.

(** ** Properties *)

(** C2. What a successful [Receive] means, under every interleaving of the two goroutines
    and every moment of cancellation: the digest it returns is valid, the disk is still a
    tree, the cache entry is complete, the callback has been through it, and either the entry was complete before,
    or the packets taken from the stream are all proper ones up to one marked complete, the
    bytes they carry, in order, have the announced SHA-256 digest, and every entry of the
    archive they form is in place. *)
Theorem Receive_sound (bs : path) (pkts : list (res ClientStream)) (w0 : world) (k0 : S) (s : state) (sum : string) :
  bs ≠ [] → Forall good bs → cacheBase = abs_path bs →
  Forall (λ r, contains_byte slash r = false) tar_rnds →
  Forall (λ r, contains_byte slash r = false) dir_rnds →
  wf_disk (disk w0) → real_dir (disk w0) bs →
  reaches (init pkts w0 k0) s → cons s = CReturn (Ok sum) →
  received bs pkts w0 k0 sum (disk (wd s)) (cb s).
Proof.
  intros Hne Hbs Hb Ht Hd Hwf Hr Hs Hc.
  pose proof (disk_reaches bs Hne Hbs Hb Ht Hd pkts w0 k0 Hwf Hr s Hs) as Hok.
  unfold disk_ok in Hok. by rewrite Hc in Hok.
Qed.

(** C20. The transfer always ends, and does not hang of its own: no schedule has more than
    ten steps per packet and a constant, and when neither goroutine can move, [Receive] has
    returned, or the client has nothing more to send, or the client broke the protocol (data
    without a hash packet, or three hash packets), in which case only cancelling the context
    ends it. *)
Theorem Receive_progress (pkts : list (res ClientStream)) (w0 : world) (k0 : S) :
  (∀ ls s, run ls (init pkts w0 k0) = Some s → length ls ≤ 10 * length pkts + 27) ∧
  (∀ s, reaches (init pkts w0 k0) s → stuck s → running (cons s) = true →
     ∃ done, pkts = done ++ input s ∧
       ((prod s = PRecv ∧ input s = []) ∨
        (omap hash_of done = [] ∧ omap chunk_of done ≠ []) ∨
        3 ≤ length (omap hash_of done))).
Proof.
  split.
  - intros ls s Hr%run_bounded. unfold weight at 2 in Hr. simpl in Hr. lia.
  - intros s Hs Hst Hrun. destruct (proto_reaches _ _ _ _ Hs) as (dn & Hpr & Hd).
    exists dn. split; [done|]. by apply stuck_cases.
Qed.
End receive.

(** *** A run *)

Definition ex_cache : fsys :=
  {| names := {[ ["c"] := DDir 493; ["etc"] := DDir 493 ]}; inodes := ∅; next_ino := 0; cwd := []; umask := 18 |}.
Definition ex_cache_world : world := {| disk := ex_cache; trace := [] |}.

Definition ex_transfer (md : smap) (data : string) (last : bool) : res ClientStream :=
  Ok {| c_BuildId := "b";
        c_PacketType := Some (CBuildTransfer {| bt_Id := "b"; bt_Direction := OUTOF; bt_Source := None;
          bt_Destination := None; bt_Data := bytes_of data; bt_Complete := last; bt_IsDirectory := false;
          bt_Metadata := md |}) |}.

Definition ex_sha (_ : bytes) : bytes := bytes_of "0123456789abcdef0123456789abcdef".
Definition ex_packets : list (res ClientStream) :=
  [ex_transfer {[ "hash" := ex_digest ]} "" false; ex_transfer ∅ "T" false; ex_transfer ∅ "U" true].
Definition ex_schedule : list label :=
  [LProd; LProd; LHeader; LProd; LData; LProd; LData; LProd; LProd; LProd; LProd; LData; LErr].

Definition ex_run (ls : list label) : option state :=
  run (FL := ex_lock) (λ _, "") (λ s, s) ex_sha ex_good (λ _, 0%Z) (λ _, 0%Z) ex_collect ["1"] ["7"] [] [] ex_ctx "/c" ls
    (init ex_packets ex_cache_world []).

Lemma Receive_sound_witness :
  ∃ s, ex_run ex_schedule = Some s ∧
    cb s = [("b.go", ""); ("l", "src"); ("src", ""); ("src/a.go", "")] ∧
    received (λ _, "") (λ s, s) ex_sha ex_good (λ _, 0%Z) (λ _, 0%Z) ex_collect ["c"] ex_packets ex_cache_world []
      ex_digest (disk (wd s)) (cb s).
Proof.
  assert (Hr : (cons <$> ex_run ex_schedule) = Some (CReturn (Ok ex_digest))) by (vm_compute; reflexivity).
  assert (Hk : (cb <$> ex_run ex_schedule) = Some [("b.go", ""); ("l", "src"); ("src", ""); ("src/a.go", "")])
    by (vm_compute; reflexivity).
  apply fmap_Some in Hr as (s & E & Hr). rewrite E in Hk. injection Hk as Hk. symmetry in Hr.
  exists s. split; [done|]. split; [done|].
  eapply (Receive_sound (FL := ex_lock) (λ _, "") (λ s, s) ex_sha ex_good (λ _, 0%Z) (λ _, 0%Z) ex_collect ["1"] ["7"]
    [] [] ex_ctx "/c" ["c"]); [..|exact Hr].
  - done.
  - by repeat constructor; apply (bool_decide_unpack _).
  - done.
  - by repeat constructor.
  - by repeat constructor.
  - apply wf_check. vm_compute. reflexivity.
  - intros [|[|n]] Hn; [by eexists|by eexists|simpl in Hn; lia].
  - eapply run_reaches; [apply reaches_refl|exact E].
Defined.

Lemma Receive_progress_witness :
  length ex_schedule ≤ 10 * length ex_packets + 27.
Proof.
  assert (Hr : (cons <$> ex_run ex_schedule) = Some (CReturn (Ok ex_digest))) by (vm_compute; reflexivity).
  apply fmap_Some in Hr as (s & E & _).
  eapply (Receive_progress (FL := ex_lock) (λ _, "") (λ s, s) ex_sha ex_good (λ _, 0%Z) (λ _, 0%Z) ex_collect ["1"] ["7"]
    [] [] ex_ctx "/c" ex_packets ex_cache_world []). exact E.
Defined.
