(* ===== verification/Stream.v ===== *)
(** * The stream pipeline ([pkg/stream])

    One gRPC stream is split over the stages of a build ([StreamPipeline]), each stage
    over the demultiplexers its requests registered ([UnimplementedBaseStage],
    [Demultiplexer]).  The goroutines (the receiver, the sender, one per stage) and the
    clients of the stages interleave in every way; channels are bounded queues whose sends
    block when full.  Histories record what went through, so that the theorems can say that
    nothing is lost, duplicated or reordered. *)

From S2P Require Import Prelude GoStrings Api.

Definition ErrIgnorePacket : error := Sentinel "ErrIgnorePacket".
Definition ErrSendStreamBlocked : error := Sentinel "ErrSendStreamBlocked".
Definition UninitializedStageErr (s : string) : error := Errorf "uninitialized stage: %s" [s].

(** ** Filters ([filter.go]): [None] is a nil error. *)

Definition FilterFn := ClientStream → option error.

Definition filterImpl_Filter (f : option FilterFn) (c : ClientStream) : option error :=
  match f with None => Some (UninitializedStageErr "filter function") | Some f => f c end.

Fixpoint FilterChain (funcs : list FilterFn) (c : ClientStream) : option error :=
  match funcs with
  | [] => None
  | fn :: funcs => match fn c with Some err => Some err | None => FilterChain funcs c end
  end.

Definition FilterByBuildID (id : string) : FilterFn := λ c,
  if bool_decide (c_BuildId c = id) then None else Some ErrIgnorePacket.

Definition FilterByImageTransferID (id : string) : FilterFn := λ c,
  match GetImageTransfer c with
  | Some it => if bool_decide (it_Id it = id) then None else Some ErrIgnorePacket
  | None => Some ErrIgnorePacket
  end.

Definition FilterByBuildTransferID (id : string) : FilterFn := λ c,
  match GetBuildTransfer c with
  | Some bt => if bool_decide (bt_Id bt = id) then None else Some ErrIgnorePacket
  | None => Some ErrIgnorePacket
  end.

Definition FilterByCommandID (id : string) : FilterFn := λ c,
  match GetCommand c with
  | Some cmd => if bool_decide (run_Id cmd = id) then None else Some ErrIgnorePacket
  | None => Some ErrIgnorePacket
  end.

Definition FilterAllowAll : FilterFn := λ _, None.

(** ** State *)

(** [Demultiplexer]; [dm_deletes] says whether its [closeFn] removes it from the stage. *)
Record demux := {
  dm_id : string;
  dm_owner : nat;                       (* the stage it is registered with *)
  dm_filter : FilterFn;
  dm_ch : list ClientStream;            (* capacity 32 *)
  dm_err : option error;                (* [ctx.Err()] *)
  dm_deletes : bool;
  dm_taken : list ClientStream;         (* history: what [Recv] returned *)
}.

(** What became of a packet a stage took from its channel. *)
Inductive outcome := NoHandler | HandlerClosed | Refused (e : error) | Delivered (h : nat).

Inductive stage_pc :=
| SIdle
| SAccept (h : nat) (c : ClientStream)  (* in the [select] of [Accept] *)
| SStopped.

Record stage := {
  sg_filter : FilterFn;
  sg_recvCh : list ClientStream;        (* capacity 4 *)
  sg_demux : gmap string nat;           (* the [sync.Map] *)
  sg_pc : stage_pc;
  sg_log : list (ClientStream * outcome);  (* history *)
}.

Inductive recv_pc := RRecv | RProcess (i : nat) (c : ClientStream) | RDone.

Record pipeline := {
  raw : list (res ClientStream);        (* the results of the coming [raw.Recv] *)
  receiver : recv_pc;
  stages : list stage;
  demuxes : list demux;                 (* the heap of demultiplexers *)
  sendCh : list ServerStream;           (* capacity 64 *)
  sender_done : bool;
  cancelled : bool;                     (* [p.ctx] *)
  consumed : list ClientStream;         (* history: what [raw.Recv] returned *)
  sent : list ServerStream;             (* history: what [raw.Send] was given *)
  pushed : list ServerStream;           (* history: the accepted [Send]s *)
}.

Definition recv_cap : nat := 4.
Definition demux_cap : nat := 32.
Definition send_cap : nat := 64.

(** ** Updates *)

Definition dm_set_ch (ch : list ClientStream) (d : demux) : demux :=
  {| dm_id := dm_id d; dm_owner := dm_owner d; dm_filter := dm_filter d; dm_ch := ch; dm_err := dm_err d;
     dm_deletes := dm_deletes d; dm_taken := dm_taken d |}.
Definition dm_take (c : ClientStream) (ch : list ClientStream) (d : demux) : demux :=
  {| dm_id := dm_id d; dm_owner := dm_owner d; dm_filter := dm_filter d; dm_ch := ch; dm_err := dm_err d;
     dm_deletes := dm_deletes d; dm_taken := dm_taken d ++ [c] |}.
Definition dm_cancel (e : error) (d : demux) : demux :=
  {| dm_id := dm_id d; dm_owner := dm_owner d; dm_filter := dm_filter d; dm_ch := dm_ch d; dm_err := Some e;
     dm_deletes := dm_deletes d; dm_taken := dm_taken d |}.

Definition sg_set_recvCh (l : list ClientStream) (s : stage) : stage :=
  {| sg_filter := sg_filter s; sg_recvCh := l; sg_demux := sg_demux s; sg_pc := sg_pc s; sg_log := sg_log s |}.
Definition sg_set_demux (m : gmap string nat) (s : stage) : stage :=
  {| sg_filter := sg_filter s; sg_recvCh := sg_recvCh s; sg_demux := m; sg_pc := sg_pc s; sg_log := sg_log s |}.
Definition sg_set_pc (p : stage_pc) (s : stage) : stage :=
  {| sg_filter := sg_filter s; sg_recvCh := sg_recvCh s; sg_demux := sg_demux s; sg_pc := p; sg_log := sg_log s |}.
Definition sg_add_log (x : ClientStream * outcome) (s : stage) : stage :=
  {| sg_filter := sg_filter s; sg_recvCh := sg_recvCh s; sg_demux := sg_demux s; sg_pc := sg_pc s;
     sg_log := sg_log s ++ [x] |}.

Definition set_receiver (r : recv_pc) (p : pipeline) : pipeline :=
  {| raw := raw p; receiver := r; stages := stages p; demuxes := demuxes p; sendCh := sendCh p;
     sender_done := sender_done p; cancelled := cancelled p; consumed := consumed p; sent := sent p; pushed := pushed p |}.
Definition take_raw (rest : list (res ClientStream)) (c : option ClientStream) (p : pipeline) : pipeline :=
  {| raw := rest; receiver := receiver p; stages := stages p; demuxes := demuxes p; sendCh := sendCh p;
     sender_done := sender_done p; cancelled := cancelled p; consumed := consumed p ++ option_list c;
     sent := sent p; pushed := pushed p |}.
Definition set_stages (l : list stage) (p : pipeline) : pipeline :=
  {| raw := raw p; receiver := receiver p; stages := l; demuxes := demuxes p; sendCh := sendCh p;
     sender_done := sender_done p; cancelled := cancelled p; consumed := consumed p; sent := sent p; pushed := pushed p |}.
Definition set_demuxes (l : list demux) (p : pipeline) : pipeline :=
  {| raw := raw p; receiver := receiver p; stages := stages p; demuxes := l; sendCh := sendCh p;
     sender_done := sender_done p; cancelled := cancelled p; consumed := consumed p; sent := sent p; pushed := pushed p |}.
Definition set_cancelled (p : pipeline) : pipeline :=
  {| raw := raw p; receiver := receiver p; stages := stages p; demuxes := demuxes p; sendCh := sendCh p;
     sender_done := sender_done p; cancelled := true; consumed := consumed p; sent := sent p; pushed := pushed p |}.
Definition set_sender_done (p : pipeline) : pipeline :=
  {| raw := raw p; receiver := receiver p; stages := stages p; demuxes := demuxes p; sendCh := sendCh p;
     sender_done := true; cancelled := cancelled p; consumed := consumed p; sent := sent p; pushed := pushed p |}.
Definition set_send (ch snt psh : list ServerStream) (p : pipeline) : pipeline :=
  {| raw := raw p; receiver := receiver p; stages := stages p; demuxes := demuxes p; sendCh := ch;
     sender_done := sender_done p; cancelled := cancelled p; consumed := consumed p; sent := snt; pushed := psh |}.

(** ** The pipeline ([pipeline.go]) *)

(** [NewPipeline] *)
Definition NewPipeline (input : list (res ClientStream)) (filters : list FilterFn) : pipeline :=
  {| raw := input; receiver := RRecv;
     stages := (λ f, {| sg_filter := f; sg_recvCh := []; sg_demux := ∅; sg_pc := SIdle; sg_log := [] |}) <$> filters;
     demuxes := []; sendCh := []; sender_done := false; cancelled := false; consumed := []; sent := []; pushed := [] |}.

(** [dispatch] up to the call of [Process]: the first stage whose filter returns nil; an
    error, [ErrIgnorePacket] or another one, moves on to the next stage. *)
Fixpoint dispatch (filters : list FilterFn) (packet : ClientStream) : option nat :=
  match filters with
  | [] => None
  | f :: filters =>
      match f packet with
      | None => Some 0
      | Some _ => S <$> dispatch filters packet
      end
  end.

Definition filters_of (p : pipeline) : list FilterFn := sg_filter <$> stages p.

(** The error is logged unless the stream ended or was cancelled; the pipeline stops. *)
Definition handleReceiveError (err : error) (p : pipeline) : pipeline := set_cancelled p.

(** One iteration of [receivePackets], up to the blocking send of [Process]. *)
Definition step_recv (p : pipeline) : option pipeline :=
  match receiver p, raw p with
  | RRecv, Ok packet :: rest =>
      Some (set_receiver (match dispatch (filters_of p) packet with Some i => RProcess i packet | None => RRecv end)
              (take_raw rest (Some packet) p))
  | RRecv, Err err :: rest => Some (set_receiver RDone (handleReceiveError err (take_raw rest None p)))
  | _, _ => None
  end.

(** [Process]: [b.recvCh <- c] *)
Definition step_process (p : pipeline) : option pipeline :=
  match receiver p with
  | RProcess i c =>
      s ← stages p !! i;
      if bool_decide (length (sg_recvCh s) < recv_cap)
      then Some (set_receiver RRecv (set_stages (<[i := sg_set_recvCh (sg_recvCh s ++ [c]) s]> (stages p)) p))
      else None
  | _ => None
  end.

(** One iteration of [sendPackets]; [err] is what [raw.Send] returns. *)
Definition step_send (err : option error) (p : pipeline) : option pipeline :=
  if sender_done p then None
  else match sendCh p with
       | [] => None
       | m :: rest =>
           let p := set_send rest (sent p ++ [m]) (pushed p) p in
           Some (match err with None => p | Some _ => set_sender_done (set_cancelled p) end)
       end.

Definition step_send_stop (p : pipeline) : option pipeline :=
  if sender_done p then None else if cancelled p then Some (set_sender_done p) else None.

(** ** The stages ([stage.go]) *)

(** The loop of [Run] takes a packet and looks up its handler; an open handler whose
    filter passes is left in the [select] of [Accept]. *)
Definition handle (ds : list demux) (c : ClientStream) (s : stage) : stage :=
  match sg_demux s !! c_BuildId c with
  | None => sg_add_log (c, NoHandler) s
  | Some h =>
      match ds !! h with
      | None => sg_add_log (c, NoHandler) s
      | Some d =>
          match dm_err d with
          | Some _ => sg_add_log (c, HandlerClosed) (sg_set_demux (delete (dm_id d) (sg_demux s)) s)
          | None =>
              match dm_filter d c with
              | Some e => sg_add_log (c, Refused e) s
              | None => sg_set_pc (SAccept h c) s
              end
          end
      end
  end.

Definition step_stage (i : nat) (p : pipeline) : option pipeline :=
  s ← stages p !! i;
  match sg_pc s, sg_recvCh s with
  | SIdle, c :: rest => Some (set_stages (<[i := handle (demuxes p) c (sg_set_recvCh rest s)]> (stages p)) p)
  | _, _ => None
  end.

(** [Accept], the case [d.ch <- c] *)
Definition step_accept (i : nat) (p : pipeline) : option pipeline :=
  s ← stages p !! i;
  match sg_pc s with
  | SAccept h c =>
      d ← demuxes p !! h;
      if bool_decide (length (dm_ch d) < demux_cap)
      then Some (set_demuxes (<[h := dm_set_ch (dm_ch d ++ [c]) d]> (demuxes p))
             (set_stages (<[i := sg_set_pc SIdle (sg_add_log (c, Delivered h) s)]> (stages p)) p))
      else None
  | _ => None
  end.

(** [closeFn(id)] of a demultiplexer *)
Definition run_closeFn (d : demux) (l : list stage) : list stage :=
  if dm_deletes d then alter (λ s, sg_set_demux (delete (dm_id d) (sg_demux s)) s) (dm_owner d) l else l.

(** [Accept], the case [<-d.ctx.Done()] *)
Definition step_refuse (i : nat) (p : pipeline) : option pipeline :=
  s ← stages p !! i;
  match sg_pc s with
  | SAccept h c =>
      d ← demuxes p !! h;
      e ← dm_err d;
      Some (set_stages (run_closeFn d (<[i := sg_set_pc SIdle (sg_add_log (c, Refused e) s)]> (stages p))) p)
  | _ => None
  end.

(** [Run], the case [<-ctx.Done()] *)
Definition step_stop (i : nat) (p : pipeline) : option pipeline :=
  s ← stages p !! i;
  match sg_pc s with
  | SIdle => if cancelled p then Some (set_stages (<[i := sg_set_pc SStopped (sg_set_demux ∅ s)]> (stages p)) p) else None
  | _ => None
  end.

(** ** The clients of the stages *)

Definition NewDemuxWithContext (i : nat) (id : string) (filter : FilterFn) (deletes : bool) : demux :=
  {| dm_id := id; dm_owner := i; dm_filter := filter; dm_ch := []; dm_err := None; dm_deletes := deletes; dm_taken := [] |}.

(** [NewDemuxWithContext] and [RegisterDemux] *)
Definition step_register (i : nat) (id : string) (filter : FilterFn) (deletes : bool) (p : pipeline) : option pipeline :=
  s ← stages p !! i;
  Some (set_demuxes (demuxes p ++ [NewDemuxWithContext i id filter deletes])
          (set_stages (<[i := sg_set_demux (<[id := length (demuxes p)]> (sg_demux s)) s]> (stages p)) p)).

(** [b.demux.Delete(id)] *)
Definition step_delete (i : nat) (id : string) (p : pipeline) : option pipeline :=
  s ← stages p !! i;
  Some (set_stages (<[i := sg_set_demux (delete id (sg_demux s)) s]> (stages p)) p).

(** [Demultiplexer.Recv], the case [c := <-d.ch] *)
Definition step_take (h : nat) (p : pipeline) : option pipeline :=
  d ← demuxes p !! h;
  match dm_ch d with
  | [] => None
  | c :: rest => Some (set_demuxes (<[h := dm_take c rest d]> (demuxes p)) p)
  end.

(** [Demultiplexer.Recv], the case [<-d.ctx.Done()] *)
Definition step_take_err (h : nat) (p : pipeline) : option pipeline :=
  d ← demuxes p !! h;
  match dm_err d with
  | None => None
  | Some _ => Some (set_stages (run_closeFn d (stages p)) p)
  end.

(** The context of a request ends. *)
Definition step_close (h : nat) (e : error) (p : pipeline) : option pipeline :=
  d ← demuxes p !! h;
  match dm_err d with Some _ => None | None => Some (set_demuxes (<[h := dm_cancel e d]> (demuxes p)) p) end.

(** [UnimplementedBaseStage.Send]: the packet is queued, or after five seconds with the
    queue full the caller gets [ErrSendStreamBlocked]. *)
Definition Send (m : ServerStream) (p : pipeline) : pipeline * option error :=
  if bool_decide (length (sendCh p) < send_cap)
  then (set_send (sendCh p ++ [m]) (sent p) (pushed p ++ [m]) p, None)
  else (p, Some ErrSendStreamBlocked).

Inductive label :=
| LRecv | LProcess
| LSend (err : option error) | LSendStop
| LStage (i : nat) | LAccept (i : nat) | LRefuse (i : nat) | LStop (i : nat)
| LRegister (i : nat) (id : string) (filter : FilterFn) (deletes : bool)
| LDelete (i : nat) (id : string)
| LTake (h : nat) | LTakeErr (h : nat) | LClose (h : nat) (e : error)
| LPush (m : ServerStream)
| LCancel.

Definition step (l : label) (p : pipeline) : option pipeline :=
  match l with
  | LRecv => step_recv p
  | LProcess => step_process p
  | LSend err => step_send err p
  | LSendStop => step_send_stop p
  | LStage i => step_stage i p
  | LAccept i => step_accept i p
  | LRefuse i => step_refuse i p
  | LStop i => step_stop i p
  | LRegister i id f d => step_register i id f d p
  | LDelete i id => step_delete i id p
  | LTake h => step_take h p
  | LTakeErr h => step_take_err h p
  | LClose h e => step_close h e p
  | LPush m => Some (Send m p).1
  | LCancel => Some (set_cancelled p)
  end.

Fixpoint run (ls : list label) (p : pipeline) : option pipeline :=
  match ls with [] => Some p | l :: ls => p' ← step l p; run ls p' end.

(** ** Requests *)

(** [Request] up to its final [dm.Recv()]: the handle of the demultiplexer to receive
    from.  The demultiplexer is registered before the request is sent. *)
Definition Request (i : nat) (s : ServerStream) (id : string) (filter : string → FilterFn) (p : pipeline) :
    pipeline * res nat :=
  match stages p !! i with
  | None => (p, Err (UninitializedStageErr "stage"))
  | Some stg =>
      match sg_demux stg !! id with
      | Some h => (p, Ok h)
      | None =>
          match step_register i id (filter id) true p with
          | None => (p, Err (UninitializedStageErr "stage"))
          | Some p1 =>
              match Send s p1 with
              | (p2, None) => (p2, Ok (length (demuxes p)))
              | (p2, Some e) => (default p2 (step_delete i id p2), Err e)
              end
          end
      end
  end.

Definition RecvFilter (i : nat) (id : string) (filter : string → FilterFn) (p : pipeline) : pipeline * res nat :=
  match stages p !! i with
  | None => (p, Err (UninitializedStageErr "stage"))
  | Some stg =>
      match sg_demux stg !! id with
      | Some h => (p, Ok h)
      | None => (default p (step_register i id (filter id) true p), Ok (length (demuxes p)))
      end
  end.

(** ** Invariants *)

Definition accepting (pc : stage_pc) : list ClientStream := match pc with SAccept _ c => [c] | _ => [] end.
Definition processing (i : nat) (r : recv_pc) : list ClientStream :=
  match r with RProcess j c => if bool_decide (j = i) then [c] else [] | _ => [] end.
Definition delivered_to (h : nat) (x : ClientStream * outcome) : option ClientStream :=
  match x.2 with Delivered h' => if bool_decide (h' = h) then Some x.1 else None | _ => None end.
Definition ok_of {A} (r : res A) : option A := match r with Ok a => Some a | Err _ => None end.

(** The packets of stage [i] so far, in order: logged, being accepted, queued, being queued. *)
Definition flow (filters : list FilterFn) (p : pipeline) : Prop :=
  filters_of p = filters ∧
  ∀ i s, stages p !! i = Some s →
    filter (λ c, dispatch filters c = Some i) (consumed p) =
    (sg_log s).*1 ++ accepting (sg_pc s) ++ sg_recvCh s ++ processing i (receiver p).

Definition caps (p : pipeline) : Prop :=
  Forall (λ s, length (sg_recvCh s) ≤ recv_cap) (stages p) ∧
  Forall (λ d, length (dm_ch d) ≤ demux_cap) (demuxes p) ∧
  length (sendCh p) ≤ send_cap ∧ sent p ++ sendCh p = pushed p.

(** A change of the stages that keeps every stage's own packets. *)
Definition same_flow (s s' : stage) : Prop :=
  sg_filter s' = sg_filter s ∧
  (sg_log s').*1 ++ accepting (sg_pc s') ++ sg_recvCh s' = (sg_log s).*1 ++ accepting (sg_pc s) ++ sg_recvCh s.

#[export] Instance same_flow_preorder : PreOrder same_flow.
Proof. split; [done|]. intros s1 s2 s3 [E1 F1] [E2 F2]. split; [by rewrite E2|by rewrite F2]. Qed.

Lemma Forall2_insert_r {A} (R : A → A → Prop) (l : list A) i x y :
  (∀ z, R z z) → l !! i = Some x → R x y → Forall2 R l (<[i := y]> l).
Proof.
  intros Hr Hx Hxy. rewrite <-(list_insert_id l i x Hx) at 1. apply Forall2_insert; [|done].
  apply Forall2_same_length_lookup_2; [done|]. intros j a b Ha Hb. rewrite Ha in Hb. by injection Hb as ->.
Qed.

Lemma flow_same filters p p' :
  flow filters p → Forall2 same_flow (stages p) (stages p') → consumed p' = consumed p → receiver p' = receiver p →
  flow filters p'.
Proof.
  intros [Hf Hfl] HF Hc Hr. split.
  - rewrite <-Hf. unfold filters_of. symmetry. apply list_eq_Forall2, Forall2_fmap.
    eapply Forall2_impl; [exact HF|]. intros s s' [E _]. by rewrite E.
  - intros i s' Hs'. destruct (Forall2_lookup_r _ _ _ _ _ HF Hs') as (s & Hs & _ & E).
    rewrite Hc, Hr, (Hfl i s Hs). rewrite !app_assoc. f_equal. by rewrite <-!app_assoc.
Qed.

Lemma handle_flow ds c s rest :
  sg_pc s = SIdle → sg_recvCh s = c :: rest → same_flow s (handle ds c (sg_set_recvCh rest s)).
Proof.
  intros Hpc Hr. unfold same_flow, handle. rewrite Hpc, Hr. simpl.
  repeat case_match; simpl; (split; [done|]); rewrite ?fmap_app, ?Hpc; simpl; by rewrite <-?app_assoc.
Qed.

Lemma run_closeFn_flow d l : Forall2 same_flow l (run_closeFn d l).
Proof.
  unfold run_closeFn. destruct (dm_deletes d); [|by apply Forall_Forall2_diag, Forall_true].
  apply Forall2_same_length_lookup_2; [by rewrite length_alter|]. intros i s s' Hs Hs'.
  destruct (decide (i = dm_owner d)) as [->|Hne].
  - rewrite list_lookup_alter_eq, Hs in Hs'. by injection Hs' as <-.
  - rewrite list_lookup_alter_ne in Hs' by done. rewrite Hs in Hs'. by injection Hs' as <-.
Qed.

Lemma same_flow_trans l1 l2 l3 : Forall2 same_flow l1 l2 → Forall2 same_flow l2 l3 → Forall2 same_flow l1 l3.
Proof.
  intros H12 H23. apply (transitivity H12 H23).
Qed.

Lemma dispatch_lt filters c i : dispatch filters c = Some i → i < length filters.
Proof.
  revert i. induction filters as [|f filters IH]; intros i; simpl; [done|].
  destruct (f c); [|intros [= <-]; lia]. destruct (dispatch filters c); [|done].
  intros [= <-]. specialize (IH n eq_refl). lia.
Qed.

(** Steps that do not touch the receiver keep each stage's packets in order. *)
Lemma stages_step_flow l p p' :
  step l p = Some p' → l ≠ LRecv → l ≠ LProcess →
  Forall2 same_flow (stages p) (stages p') ∧ consumed p' = consumed p ∧ receiver p' = receiver p ∧ raw p' = raw p.
Proof.
  assert (Hrefl : ∀ l, Forall2 same_flow l l) by (intros l0; by apply Forall_Forall2_diag, Forall_true).
  intros Hs H1 H2. destruct l; try done; simpl in Hs.
  - unfold step_send in Hs. destruct (sender_done p); [done|]. destruct (sendCh p); [done|].
    injection Hs as <-. by destruct err.
  - unfold step_send_stop in Hs. repeat case_match; by simplify_eq.
  - unfold step_stage in Hs. destruct (stages p !! i) as [s|] eqn:Ei; [|done]. simpl in Hs.
    destruct (sg_pc s) eqn:Ep; [|done..]. destruct (sg_recvCh s) as [|c rest] eqn:Er; [done|]. injection Hs as <-.
    split; [|done]. eapply Forall2_insert_r; [done|done|by apply handle_flow].
  - unfold step_accept in Hs. destruct (stages p !! i) as [s|] eqn:Ei; [|done]. simpl in Hs.
    destruct (sg_pc s) as [|h c|] eqn:Ep; try done. destruct (demuxes p !! h) as [d|]; [|done]. simpl in Hs.
    case_bool_decide; [|done]. injection Hs as <-. split; [|done]. eapply Forall2_insert_r; [done|done|].
    split; [done|]. simpl. rewrite Ep, fmap_app. simpl. by rewrite <-app_assoc.
  - unfold step_refuse in Hs. destruct (stages p !! i) as [s|] eqn:Ei; [|done]. simpl in Hs.
    destruct (sg_pc s) as [|h c|] eqn:Ep; try done. destruct (demuxes p !! h) as [d|]; [|done]. simpl in Hs.
    destruct (dm_err d) as [e|]; [|done]. simpl in Hs. injection Hs as <-. split; [|done]. simpl.
    eapply same_flow_trans; [|apply run_closeFn_flow]. eapply Forall2_insert_r; [done|done|].
    split; [done|]. simpl. rewrite Ep, fmap_app. simpl. by rewrite <-app_assoc.
  - unfold step_stop in Hs. destruct (stages p !! i) as [s|] eqn:Ei; [|done]. simpl in Hs.
    destruct (sg_pc s) eqn:Ep; [|done..]. destruct (cancelled p); [|done]. injection Hs as <-. split; [|done].
    eapply Forall2_insert_r; [done|done|]. split; [done|]. simpl. by rewrite Ep.
  - unfold step_register in Hs. destruct (stages p !! i) as [s|] eqn:Ei; [|done]. simpl in Hs. injection Hs as <-.
    split; [|done]. by eapply Forall2_insert_r.
  - unfold step_delete in Hs. destruct (stages p !! i) as [s|] eqn:Ei; [|done]. simpl in Hs. injection Hs as <-.
    split; [|done]. by eapply Forall2_insert_r.
  - unfold step_take in Hs. destruct (demuxes p !! h) as [d|]; [|done]. simpl in Hs. destruct (dm_ch d); by simplify_eq.
  - unfold step_take_err in Hs. destruct (demuxes p !! h) as [d|]; [|done]. simpl in Hs.
    destruct (dm_err d); [|done]. injection Hs as <-. split; [|done]. apply run_closeFn_flow.
  - unfold step_close in Hs. destruct (demuxes p !! h) as [d|]; [|done]. simpl in Hs. destruct (dm_err d); by simplify_eq.
  - injection Hs as <-. unfold Send. by case_bool_decide.
  - by injection Hs as <-.
Qed.

Lemma filter_dispatch_snoc filters i l c :
  filter (λ c, dispatch filters c = Some i) (l ++ [c]) =
  filter (λ c, dispatch filters c = Some i) l ++ (if bool_decide (dispatch filters c = Some i) then [c] else []).
Proof. rewrite filter_app. f_equal. rewrite filter_cons. case_bool_decide; [by rewrite decide_True|by rewrite decide_False]. Qed.

Lemma flow_recv filters p p' : flow filters p → step_recv p = Some p' → flow filters p'.
Proof.
  intros [Hf Hfl] Hs. unfold step_recv in Hs. destruct (receiver p) eqn:Er; try done.
  destruct (raw p) as [|[c|e] rest]; [done|..]; injection Hs as <-; (split; [done|]); simpl; intros i s Hi.
  - rewrite filter_dispatch_snoc, (Hfl i s Hi), Hf. rewrite !app_assoc. f_equal; [by rewrite app_nil_r|].
    destruct (dispatch filters c) as [j|]; [|by rewrite bool_decide_false].
    simpl. rewrite (bool_decide_ext (Some j = Some i) (j = i)) by naive_solver. done.
  - rewrite app_nil_r. by rewrite (Hfl i s Hi).
Qed.

Lemma flow_process filters p p' : flow filters p → step_process p = Some p' → flow filters p'.
Proof.
  intros [Hf Hfl] Hs. unfold step_process in Hs. destruct (receiver p) as [|j c|] eqn:Er; try done.
  destruct (stages p !! j) as [s|] eqn:Ej; [|done]. simpl in Hs. case_bool_decide; [|done]. injection Hs as <-.
  split.
  - rewrite <-Hf. unfold filters_of. simpl. apply list_eq. intros i. rewrite !list_lookup_fmap.
    destruct (decide (i = j)) as [->|Hij]; [|by rewrite list_lookup_insert_ne].
    rewrite list_lookup_insert_eq by (by eapply lookup_lt_Some). by rewrite Ej.
  - simpl. intros i s' Hi. destruct (decide (i = j)) as [->|Hij].
    + rewrite list_lookup_insert_eq in Hi by (by eapply lookup_lt_Some). injection Hi as <-. simpl.
      rewrite (Hfl j s Ej). simpl. rewrite bool_decide_true by done. by rewrite app_nil_r.
    + rewrite list_lookup_insert_ne in Hi by done. rewrite (Hfl i s' Hi). simpl. by rewrite bool_decide_false.
Qed.

Lemma flow_step filters l p p' : flow filters p → step l p = Some p' → flow filters p'.
Proof.
  intros Hfl Hs. destruct l; [by eapply flow_recv|by eapply flow_process|..].
  all: edestruct (stages_step_flow _ _ _ Hs) as (HF & Hc & Hr & _); [done..|]; by eapply flow_same.
Qed.

(** Opens the step of a stage or of a demultiplexer. *)
Ltac open_step Hs :=
  repeat match type of Hs with
  | context [?l !! ?i] => destruct (l !! i) eqn:?; [|done]; simpl in Hs
  end.

Lemma fits_insert p i s s' : Forall (λ s, length (sg_recvCh s) ≤ recv_cap) (stages p) → stages p !! i = Some s →
  length (sg_recvCh s') ≤ length (sg_recvCh s) → Forall (λ s, length (sg_recvCh s) ≤ recv_cap) (<[i := s']> (stages p)).
Proof.
  intros H1 Hi Hle. apply Forall_insert; [done|]. rewrite Forall_lookup in H1. specialize (H1 _ _ Hi). simpl in *. lia.
Qed.

Lemma fits_closeFn d l : Forall (λ s, length (sg_recvCh s) ≤ recv_cap) l →
  Forall (λ s, length (sg_recvCh s) ≤ recv_cap) (run_closeFn d l).
Proof. intros Hl. unfold run_closeFn. destruct (dm_deletes d); [|done]. by apply Forall_alter. Qed.

Lemma caps_stages l p p' : Forall (λ s, length (sg_recvCh s) ≤ recv_cap) (stages p) → step l p = Some p' →
  Forall (λ s, length (sg_recvCh s) ≤ recv_cap) (stages p').
Proof.
  intros H1 Hs. destruct l; simpl in Hs.
  - unfold step_recv in Hs. repeat case_match; by simplify_eq.
  - unfold step_process in Hs. destruct (receiver p) as [|j c|]; try done. open_step Hs. case_bool_decide; [|done].
    injection Hs as <-. apply Forall_insert; [done|]. simpl. rewrite length_app. simpl. lia.
  - unfold step_send in Hs. repeat case_match; by simplify_eq.
  - unfold step_send_stop in Hs. repeat case_match; by simplify_eq.
  - unfold step_stage in Hs. open_step Hs. destruct (sg_pc s); [|done..]. destruct (sg_recvCh s) as [|c rest] eqn:Er; [done|].
    injection Hs as <-. eapply fits_insert; [done|done|]. rewrite Er. unfold handle. simpl. repeat case_match; simpl; lia.
  - unfold step_accept in Hs. open_step Hs. destruct (sg_pc s) as [|h c|]; try done. open_step Hs.
    case_bool_decide; [|done]. injection Hs as <-. by eapply fits_insert.
  - unfold step_refuse in Hs. open_step Hs. destruct (sg_pc s) as [|h c|]; try done. open_step Hs.
    destruct (dm_err d) as [e|]; [|done]. injection Hs as <-. apply fits_closeFn. by eapply fits_insert.
  - unfold step_stop in Hs. open_step Hs. destruct (sg_pc s); [|done..]. destruct (cancelled p); [|done].
    injection Hs as <-. by eapply fits_insert.
  - unfold step_register in Hs. open_step Hs. injection Hs as <-. by eapply fits_insert.
  - unfold step_delete in Hs. open_step Hs. injection Hs as <-. by eapply fits_insert.
  - unfold step_take in Hs. open_step Hs. destruct (dm_ch d); by simplify_eq.
  - unfold step_take_err in Hs. open_step Hs. destruct (dm_err d); [|done]. injection Hs as <-. by apply fits_closeFn.
  - unfold step_close in Hs. open_step Hs. destruct (dm_err d); by simplify_eq.
  - injection Hs as <-. unfold Send. by case_bool_decide.
  - by injection Hs as <-.
Qed.

Lemma caps_demuxes l p p' : Forall (λ d, length (dm_ch d) ≤ demux_cap) (demuxes p) → step l p = Some p' →
  Forall (λ d, length (dm_ch d) ≤ demux_cap) (demuxes p').
Proof.
  intros H2 Hs.
  assert (Hch : ∀ h d, demuxes p !! h = Some d → length (dm_ch d) ≤ demux_cap).
  { intros h d Hd. rewrite Forall_lookup in H2. by apply (H2 h). }
  destruct l; simpl in Hs.
  - unfold step_recv in Hs. repeat case_match; by simplify_eq.
  - unfold step_process in Hs. repeat case_match; try done. open_step Hs. case_bool_decide; by simplify_eq.
  - unfold step_send in Hs. repeat case_match; by simplify_eq.
  - unfold step_send_stop in Hs. repeat case_match; by simplify_eq.
  - unfold step_stage in Hs. open_step Hs. repeat case_match; by simplify_eq.
  - unfold step_accept in Hs. open_step Hs. destruct (sg_pc s) as [|h c|]; try done. open_step Hs.
    case_bool_decide; [|done]. injection Hs as <-. apply Forall_insert; [done|]. simpl. rewrite length_app. simpl. lia.
  - unfold step_refuse in Hs. open_step Hs. destruct (sg_pc s) as [|h c|]; try done. open_step Hs.
    destruct (dm_err d); by simplify_eq/=.
  - unfold step_stop in Hs. open_step Hs. repeat case_match; by simplify_eq.
  - unfold step_register in Hs. open_step Hs. injection Hs as <-. apply Forall_app. split; [done|]. apply Forall_singleton. simpl. lia.
  - unfold step_delete in Hs. open_step Hs. by injection Hs as <-.
  - unfold step_take in Hs. destruct (demuxes p !! h) as [d|] eqn:Eh; [|done]. simpl in Hs. specialize (Hch _ _ Eh).
    destruct (dm_ch d); [done|]. injection Hs as <-. apply Forall_insert; [done|]. simpl in *. lia.
  - unfold step_take_err in Hs. open_step Hs. destruct (dm_err d); by simplify_eq.
  - unfold step_close in Hs. destruct (demuxes p !! h) as [d|] eqn:Eh; [|done]. simpl in Hs. specialize (Hch _ _ Eh).
    destruct (dm_err d); [done|]. injection Hs as <-. by apply Forall_insert.
  - injection Hs as <-. unfold Send. by case_bool_decide.
  - by injection Hs as <-.
Qed.

(** Only the sender and [Send] touch the queue to the host. *)
Lemma send_kept l p p' : step l p = Some p' → (∀ e, l ≠ LSend e) → (∀ m, l ≠ LPush m) →
  sendCh p' = sendCh p ∧ sent p' = sent p ∧ pushed p' = pushed p.
Proof.
  intros Hs H1 H2. destruct l; try (by destruct (H1 err)); try (by destruct (H2 m)); simpl in Hs;
    unfold step_recv, step_process, step_send_stop, step_stage, step_accept, step_refuse, step_stop, step_register, step_delete,
      step_take, step_take_err, step_close, mbind, option_bind in Hs;
    repeat match type of Hs with context [match ?x with _ => _ end] => destruct x; try discriminate Hs end; by injection Hs as <-.
Qed.

Lemma caps_step l p p' : caps p → step l p = Some p' → caps p'.
Proof.
  intros (H1 & H2 & H3 & H4) Hs.
  split; [by eapply caps_stages|]. split; [by eapply caps_demuxes|]. clear H1 H2.
  destruct l; try (destruct (send_kept _ _ _ Hs) as (-> & -> & ->); done); simpl in Hs.
  - unfold step_send in Hs. destruct (sender_done p); [done|]. destruct (sendCh p) as [|m rest]; [done|]. simpl in H3.
    assert (E : sendCh p' = rest ∧ sent p' = sent p ++ [m] ∧ pushed p' = pushed p) by (destruct err; by injection Hs as <-).
    destruct E as (-> & -> & ->). split; [lia|]. by rewrite <-app_assoc.
  - injection Hs as <-. unfold Send. case_bool_decide; simpl; [|done]. rewrite length_app, app_assoc, H4. simpl. split; [lia|done].
Qed.

(** ** Delivery *)

(** The packet is one of the demultiplexer's: it is registered with stage [i] under the
    packet's build id, and its filter passes the packet. *)
Definition addressed (d : demux) (i : nat) (c : ClientStream) : Prop :=
  dm_owner d = i ∧ dm_id d = c_BuildId c ∧ dm_filter d c = None.

Record wired (p : pipeline) : Prop := {
  w_reg i s id h : stages p !! i = Some s → sg_demux s !! id = Some h →
    ∃ d, demuxes p !! h = Some d ∧ dm_owner d = i ∧ dm_id d = id;
  w_acc i s h c : stages p !! i = Some s → sg_pc s = SAccept h c →
    ∃ d, demuxes p !! h = Some d ∧ addressed d i c;
  w_log i s h c : stages p !! i = Some s → c ∈ omap (delivered_to h) (sg_log s) →
    ∃ d, demuxes p !! h = Some d ∧ addressed d i c;
  w_got h d : demuxes p !! h = Some d →
    ∃ s, stages p !! dm_owner d = Some s ∧ dm_taken d ++ dm_ch d = omap (delivered_to h) (sg_log s);
}.

(** A stage forgets handlers, gives up or starts accepting an addressed packet. *)
Definition stage_le (p : pipeline) (i : nat) (s s' : stage) : Prop :=
  (∀ h, omap (delivered_to h) (sg_log s') = omap (delivered_to h) (sg_log s)) ∧
  sg_demux s' ⊆ sg_demux s ∧
  (∀ h c, sg_pc s' = SAccept h c → sg_pc s = SAccept h c ∨ ∃ d, demuxes p !! h = Some d ∧ addressed d i c).

Lemma wired_stages p p' :
  wired p → demuxes p' = demuxes p → length (stages p') = length (stages p) →
  (∀ i s s', stages p !! i = Some s → stages p' !! i = Some s' → stage_le p i s s') → wired p'.
Proof.
  intros [W1 W2 W3 W4] Hd Hlen Hle.
  assert (Hpre : ∀ i s', stages p' !! i = Some s' → ∃ s, stages p !! i = Some s ∧ stage_le p i s s').
  { intros i s' Hi. destruct (lookup_lt_is_Some_2 (stages p) i) as [s Hs].
    { rewrite <-Hlen. by eapply lookup_lt_Some. }
    exists s. split; [done|]. by eapply Hle. }
  split; rewrite ?Hd.
  - intros i s' id h (s & Hs & _ & Hsub & _)%Hpre Hid. eapply W1; [done|]. by eapply lookup_weaken.
  - intros i s' h c (s & Hs & _ & _ & Hpc)%Hpre Hc. destruct (Hpc _ _ Hc); eauto.
  - intros i s' h c (s & Hs & Hl & _)%Hpre. rewrite Hl. eauto.
  - intros h d Hh. destruct (W4 h d Hh) as (s & Hs & Hg).
    destruct (lookup_lt_is_Some_2 (stages p') (dm_owner d)) as [s' Hs'].
    { rewrite Hlen. by eapply lookup_lt_Some. }
    exists s'. split; [done|]. destruct (Hle _ _ _ Hs Hs') as [Hl _]. by rewrite Hl.
Qed.

Lemma stage_le_refl p i s : stage_le p i s s.
Proof. split_and!; try done. by left. Qed.

Lemma stage_le_trans p i s1 s2 s3 : stage_le p i s1 s2 → stage_le p i s2 s3 → stage_le p i s1 s3.
Proof.
  intros (A1 & B1 & C1) (A2 & B2 & C2). split_and!.
  - intros h. by rewrite A2.
  - by etrans.
  - intros h c H. destruct (C2 _ _ H) as [H'|]; [|by right]. by apply C1.
Qed.

(** The demultiplexers change without losing packets or their address. *)
Definition demux_le (d d' : demux) : Prop :=
  dm_id d' = dm_id d ∧ dm_owner d' = dm_owner d ∧ dm_filter d' = dm_filter d ∧
  dm_taken d' ++ dm_ch d' = dm_taken d ++ dm_ch d.

Lemma wired_demux p h d d' :
  wired p → demuxes p !! h = Some d → demux_le d d' → wired (set_demuxes (<[h := d']> (demuxes p)) p).
Proof.
  intros [W1 W2 W3 W4] Hd (E1 & E2 & E3 & E4).
  assert (Hup : ∀ (P : demux → Prop) k, (P d → P d') → (∃ x, demuxes p !! k = Some x ∧ P x) →
    ∃ x, <[h := d']> (demuxes p) !! k = Some x ∧ P x).
  { intros P k HP (x & Hx & Px). destruct (decide (k = h)) as [->|Hne].
    - exists d'. rewrite list_lookup_insert_eq by (by eapply lookup_lt_Some). rewrite Hd in Hx. injection Hx as <-. auto.
    - exists x. by rewrite list_lookup_insert_ne. }
  split; simpl.
  - intros i s id k Hs Hid. apply Hup; [by rewrite E1, E2|]. by eapply W1.
  - intros i s k c Hs Hpc. apply Hup; [unfold addressed; by rewrite E1, E2, E3|]. by eapply W2.
  - intros i s k c Hs Hc. apply Hup; [unfold addressed; by rewrite E1, E2, E3|]. by eapply W3.
  - intros k x Hx. destruct (decide (k = h)) as [->|Hne].
    + rewrite list_lookup_insert_eq in Hx by (by eapply lookup_lt_Some). injection Hx as <-.
      rewrite E2, E4. by apply W4.
    + rewrite list_lookup_insert_ne in Hx by done. by apply W4.
Qed.

Lemma delivered_snoc h (l : list (ClientStream * outcome)) x :
  omap (delivered_to h) (l ++ [x]) = omap (delivered_to h) l ++ option_list (delivered_to h x).
Proof. rewrite omap_app. simpl. by destruct (delivered_to h x). Qed.

Lemma delivered_to_eq h c : delivered_to h (c, Delivered h) = Some c.
Proof. unfold delivered_to. simpl. by rewrite bool_decide_true. Qed.

Lemma delivered_to_ne h h' c : h' ≠ h → delivered_to h (c, Delivered h') = None.
Proof. intros. unfold delivered_to. simpl. by rewrite bool_decide_false. Qed.

Lemma handle_le p i s c rest :
  wired p → stages p !! i = Some s → sg_pc s = SIdle →
  stage_le p i s (handle (demuxes p) c (sg_set_recvCh rest s)).
Proof.
  intros Hw Hs Hpc. unfold handle, stage_le. simpl.
  destruct (sg_demux s !! c_BuildId c) as [h|] eqn:Eh; simpl.
  2:{ split_and!; try done; [|by rewrite Hpc]. intros h'. rewrite delivered_snoc. simpl. by rewrite app_nil_r. }
  destruct (w_reg p Hw _ _ _ _ Hs Eh) as (d & Hd & Ho & Hid). rewrite Hd. simpl.
  destruct (dm_err d); simpl.
  { split_and!; [|apply delete_subseteq|by rewrite Hpc]. intros h'. rewrite delivered_snoc. simpl. by rewrite app_nil_r. }
  destruct (dm_filter d c) eqn:Ef; simpl.
  { split_and!; try done; [|by rewrite Hpc]. intros h'. rewrite delivered_snoc. simpl. by rewrite app_nil_r. }
  split_and!; try done. intros h' c' [= <- <-]. right. exists d. done.
Qed.

Lemma wired_insert p p' i s s' :
  wired p → demuxes p' = demuxes p → stages p' = <[i := s']> (stages p) →
  stages p !! i = Some s → stage_le p i s s' → wired p'.
Proof.
  intros Hw Hd Hs Hi Hle. eapply wired_stages; [done|done|by rewrite Hs, length_insert|].
  rewrite Hs. intros j x x' Hx Hx'. destruct (decide (j = i)) as [->|Hne].
  - rewrite list_lookup_insert_eq in Hx' by (by eapply lookup_lt_Some). by simplify_eq.
  - rewrite list_lookup_insert_ne in Hx' by done. simplify_eq. apply stage_le_refl.
Qed.

Lemma run_closeFn_le p d l :
  (∀ i s s', stages p !! i = Some s → l !! i = Some s' → stage_le p i s s') →
  ∀ i s s', stages p !! i = Some s → run_closeFn d l !! i = Some s' → stage_le p i s s'.
Proof.
  intros Hl i s s' Hs Hs'. unfold run_closeFn in Hs'. destruct (dm_deletes d); [|by eapply Hl].
  destruct (decide (i = dm_owner d)) as [->|Hne]; [|rewrite list_lookup_alter_ne in Hs' by done; by eapply Hl].
  rewrite list_lookup_alter_eq in Hs'. destruct (l !! dm_owner d) as [x|] eqn:Ex; [|done]. injection Hs' as <-.
  eapply stage_le_trans; [by eapply Hl|]. split_and!; simpl; [done|apply delete_subseteq|by left].
Qed.

Lemma length_run_closeFn d l : length (run_closeFn d l) = length l.
Proof. unfold run_closeFn. destruct (dm_deletes d); [by rewrite length_alter|done]. Qed.

Lemma wired_accept p p' i : wired p → step_accept i p = Some p' → wired p'.
Proof.
  intros Hw Hs. unfold step_accept in Hs. destruct (stages p !! i) as [s|] eqn:Ei; [|done]. simpl in Hs.
  destruct (sg_pc s) as [|h c|] eqn:Ep; try done.
  destruct (w_acc p Hw _ _ _ _ Ei Ep) as (d & Hd & Had). rewrite Hd in Hs. simpl in Hs.
  case_bool_decide; [|done]. injection Hs as <-. destruct Hw as [W1 W2 W3 W4].
  assert (Hlt : h < length (demuxes p)) by (by eapply lookup_lt_Some).
  assert (Hli : i < length (stages p)) by (by eapply lookup_lt_Some).
  assert (Hup : ∀ (P : demux → Prop) k, (P d → P (dm_set_ch (dm_ch d ++ [c]) d)) → (∃ x, demuxes p !! k = Some x ∧ P x) →
    ∃ x, <[h := dm_set_ch (dm_ch d ++ [c]) d]> (demuxes p) !! k = Some x ∧ P x).
  { intros P k HP (x & Hx & Px). destruct (decide (k = h)) as [->|Hne].
    - eexists. rewrite list_lookup_insert_eq by done. rewrite Hd in Hx. injection Hx as <-. eauto.
    - exists x. by rewrite list_lookup_insert_ne. }
  split; simpl.
  - intros j x id k Hj Hid. apply Hup; [done|]. destruct (decide (j = i)) as [->|Hne].
    + rewrite list_lookup_insert_eq in Hj by done. injection Hj as <-. by eapply W1.
    + rewrite list_lookup_insert_ne in Hj by done. by eapply W1.
  - intros j x k c' Hj Hpc. apply Hup; [done|]. destruct (decide (j = i)) as [->|Hne].
    + rewrite list_lookup_insert_eq in Hj by done. by injection Hj as <-.
    + rewrite list_lookup_insert_ne in Hj by done. by eapply W2.
  - intros j x k c' Hj Hin. apply Hup; [done|]. destruct (decide (j = i)) as [->|Hne].
    + rewrite list_lookup_insert_eq in Hj by done. injection Hj as <-. simpl in Hin.
      rewrite delivered_snoc, elem_of_app in Hin. destruct Hin as [Hin|Hin]; [by eapply W3|].
      destruct (decide (k = h)) as [->|Hkh]; [|rewrite delivered_to_ne in Hin by done; by apply elem_of_nil in Hin].
      rewrite delivered_to_eq in Hin. apply list_elem_of_singleton in Hin as ->. eauto.
    + rewrite list_lookup_insert_ne in Hj by done. by eapply W3.
  - intros k x Hx. destruct (decide (k = h)) as [->|Hne].
    + rewrite list_lookup_insert_eq in Hx by done. injection Hx as <-. simpl. destruct Had as [-> _].
      rewrite list_lookup_insert_eq by done. eexists. split; [done|]. simpl.
      destruct (W4 h d Hd) as (s' & Hs' & Hg). destruct (W2 i s h c Ei Ep) as (d' & Hd' & Ho & _).
      rewrite Hd in Hd'. injection Hd' as <-. rewrite Ho, Ei in Hs'. injection Hs' as <-.
      by rewrite delivered_snoc, app_assoc, Hg, delivered_to_eq.
    + rewrite list_lookup_insert_ne in Hx by done. destruct (W4 k x Hx) as (s' & Hs' & Hg).
      destruct (decide (dm_owner x = i)) as [E|Hne'].
      * rewrite E in *. rewrite list_lookup_insert_eq by done. eexists. split; [done|]. simpl.
        rewrite delivered_snoc, delivered_to_ne by done. simpl. rewrite app_nil_r. rewrite Ei in Hs'. by injection Hs' as <-.
      * rewrite list_lookup_insert_ne by done. eauto.
Qed.

Lemma wired_register p p' i id f b : wired p → step_register i id f b p = Some p' → wired p'.
Proof.
  intros Hw Hs. unfold step_register in Hs. destruct (stages p !! i) as [s|] eqn:Ei; [|done]. simpl in Hs.
  injection Hs as <-. pose proof Hw as [W1 W2 W3 W4].
  assert (Hli : i < length (stages p)) by (by eapply lookup_lt_Some).
  assert (Hup : ∀ (P : demux → Prop) d k, (∃ x, demuxes p !! k = Some x ∧ P x) → ∃ x, (demuxes p ++ [d]) !! k = Some x ∧ P x).
  { intros P d k (x & Hx & Px). exists x. by rewrite lookup_app_l by (by eapply lookup_lt_Some). }
  split; simpl.
  - intros j x id' k Hj Hid. destruct (decide (j = i)) as [->|Hne].
    + rewrite list_lookup_insert_eq in Hj by done. injection Hj as <-. simpl in Hid.
      apply lookup_insert_Some in Hid as [[<- <-]|[_ Hid]].
      * eexists. rewrite lookup_app_r, Nat.sub_diag by done. done.
      * apply Hup. by eapply W1.
    + rewrite list_lookup_insert_ne in Hj by done. apply Hup. by eapply W1.
  - intros j x k c' Hj Hpc. apply Hup. destruct (decide (j = i)) as [->|Hne].
    + rewrite list_lookup_insert_eq in Hj by done. injection Hj as <-. by eapply W2.
    + rewrite list_lookup_insert_ne in Hj by done. by eapply W2.
  - intros j x k c' Hj Hin. apply Hup. destruct (decide (j = i)) as [->|Hne].
    + rewrite list_lookup_insert_eq in Hj by done. injection Hj as <-. by eapply W3.
    + rewrite list_lookup_insert_ne in Hj by done. by eapply W3.
  - assert (Hst : ∀ j x, stages p !! j = Some x → ∃ x', <[i := sg_set_demux (<[id := length (demuxes p)]> (sg_demux s)) s]> (stages p) !! j = Some x' ∧ sg_log x' = sg_log x).
    { intros j x Hx. destruct (decide (j = i)) as [->|Hne].
      - rewrite list_lookup_insert_eq by done. eexists. split; [done|]. by simplify_eq.
      - rewrite list_lookup_insert_ne by done. eauto. }
    intros k x [Hx|[Hk Hx]]%lookup_app_Some.
    + destruct (W4 k x Hx) as (s' & Hs' & Hg). destruct (Hst _ _ Hs') as (s2 & Hs2 & El). exists s2. by rewrite El.
    + apply list_lookup_singleton_Some in Hx as [Hk' <-]. simpl. destruct (Hst _ _ Ei) as (s2 & Hs2 & El).
      exists s2. split; [done|]. rewrite El. symmetry. apply elem_of_nil_inv. intros c Hin.
      destruct (W3 i s k c Ei Hin) as (d & Hd & _). apply lookup_lt_Some in Hd. lia.
Qed.

Lemma wired_step l p p' : wired p → step l p = Some p' → wired p'.
Proof.
  intros Hw Hs. destruct l; simpl in Hs.
  - unfold step_recv in Hs. destruct Hw. repeat case_match; simplify_eq; by split.
  - unfold step_process in Hs. destruct (receiver p) as [|j c|]; try done.
    destruct (stages p !! j) as [s|] eqn:Ej; [|done]. simpl in Hs. case_bool_decide; [|done]. injection Hs as <-.
    eapply wired_insert; [done|done|done|done|]. split_and!; try done. by left.
  - unfold step_send in Hs. destruct (sender_done p); [done|]. destruct (sendCh p) as [|m rest]; [done|].
    injection Hs as <-. destruct Hw. destruct err; by split.
  - unfold step_send_stop in Hs. destruct Hw. repeat case_match; simplify_eq; by split.
  - unfold step_stage in Hs. destruct (stages p !! i) as [s|] eqn:Ei; [|done]. simpl in Hs.
    destruct (sg_pc s) eqn:Ep; [|done..]. destruct (sg_recvCh s) as [|c rest] eqn:Er; [done|]. injection Hs as <-.
    eapply wired_insert; [done|done|done|done|]. by apply handle_le.
  - by eapply wired_accept.
  - unfold step_refuse in Hs. destruct (stages p !! i) as [s|] eqn:Ei; [|done]. simpl in Hs.
    destruct (sg_pc s) as [|h c|]; try done. destruct (demuxes p !! h) as [d|] eqn:Eh; [|done]. simpl in Hs.
    destruct (dm_err d) as [e|]; [|done]. simpl in Hs. injection Hs as <-.
    eapply wired_stages; [done|done|simpl; by rewrite length_run_closeFn, length_insert|]. simpl.
    apply run_closeFn_le. intros j x x' Hx Hx'. destruct (decide (j = i)) as [->|Hne].
    + rewrite list_lookup_insert_eq in Hx' by (by eapply lookup_lt_Some). simplify_eq. split_and!; simpl; try done.
      intros h'. rewrite delivered_snoc. simpl. by rewrite app_nil_r.
    + rewrite list_lookup_insert_ne in Hx' by done. simplify_eq. apply stage_le_refl.
  - unfold step_stop in Hs. destruct (stages p !! i) as [s|] eqn:Ei; [|done]. simpl in Hs.
    destruct (sg_pc s); [|done..]. destruct (cancelled p); [|done]. injection Hs as <-.
    eapply wired_insert; [done|done|done|done|]. split_and!; simpl; try done. apply map_empty_subseteq.
  - by eapply wired_register.
  - unfold step_delete in Hs. destruct (stages p !! i) as [s|] eqn:Ei; [|done]. simpl in Hs. injection Hs as <-.
    eapply wired_insert; [done|done|done|done|]. split_and!; simpl; [done|apply delete_subseteq|by left].
  - unfold step_take in Hs. destruct (demuxes p !! h) as [d|] eqn:Eh; [|done]. simpl in Hs.
    destruct (dm_ch d) as [|c rest] eqn:Ec; [done|]. injection Hs as <-. eapply wired_demux; [done|done|].
    split_and!; try done. simpl. rewrite Ec. by rewrite <-app_assoc.
  - unfold step_take_err in Hs. destruct (demuxes p !! h) as [d|] eqn:Eh; [|done]. simpl in Hs.
    destruct (dm_err d); [|done]. injection Hs as <-.
    eapply wired_stages; [done|done|simpl; by rewrite length_run_closeFn|]. simpl. apply run_closeFn_le.
    intros j x x' Hx Hx'. simplify_eq. apply stage_le_refl.
  - unfold step_close in Hs. destruct (demuxes p !! h) as [d|] eqn:Eh; [|done]. simpl in Hs.
    destruct (dm_err d); [done|]. injection Hs as <-. by eapply wired_demux.
  - injection Hs as <-. unfold Send. destruct Hw. case_bool_decide; by split.
  - injection Hs as <-. destruct Hw. by split.
Qed.

(** ** Reachable states *)

(** What holds of every state a pipeline goes through. *)
Record good_pipeline (input : list (res ClientStream)) (filters : list FilterFn) (p : pipeline) : Prop := {
  gp_raw : omap ok_of input = consumed p ++ omap ok_of (raw p);
  gp_flow : flow filters p;
  gp_caps : caps p;
  gp_wired : wired p;
}.

Lemma good_init input filters : good_pipeline input filters (NewPipeline input filters).
Proof.
  assert (Hst : ∀ i s, stages (NewPipeline input filters) !! i = Some s →
    sg_recvCh s = [] ∧ sg_demux s = ∅ ∧ sg_pc s = SIdle ∧ sg_log s = []).
  { intros i s Hs. simpl in Hs. rewrite list_lookup_fmap in Hs. apply fmap_Some in Hs as (f & _ & ->). done. }
  split; [done| | |].
  - split.
    + unfold filters_of. simpl. rewrite <-list_fmap_compose. by rewrite list_fmap_id.
    + intros i s Hs. apply Hst in Hs as (-> & _ & -> & ->). done.
  - split_and!; simpl; try done; [|unfold send_cap; lia]. apply Forall_lookup. intros i s Hs.
    apply Hst in Hs as (-> & _). simpl. lia.
  - split.
    + intros i s id h (_ & -> & _)%Hst. by rewrite lookup_empty.
    + by intros i s h c (_ & _ & -> & _)%Hst.
    + intros i s h c (_ & _ & _ & ->)%Hst. by intros ?%elem_of_nil.
    + done.
Qed.

Lemma raw_step l p p' : step l p = Some p' → consumed p' ++ omap ok_of (raw p') = consumed p ++ omap ok_of (raw p).
Proof.
  intros Hs. destruct l; [| |edestruct (stages_step_flow _ _ _ Hs) as (_ & -> & _ & ->); done..].
  - simpl in Hs. unfold step_recv in Hs. destruct (receiver p); try done.
    destruct (raw p) as [|[c|e] rest]; [done|..]; injection Hs as <-; simpl.
    + by rewrite <-app_assoc.
    + by rewrite app_nil_r.
  - simpl in Hs. unfold step_process in Hs. destruct (receiver p); try done. destruct (stages p !! i); [|done].
    simpl in Hs. by case_bool_decide; simplify_eq.
Qed.

Lemma good_run input filters ls p p' :
  good_pipeline input filters p → run ls p = Some p' → good_pipeline input filters p'.
Proof.
  revert p. induction ls as [|l ls IH]; intros p Hg; simpl; [by intros [= <-]|].
  destruct (step l p) as [p1|] eqn:E; [|done]. simpl. apply IH. destruct Hg as [G1 G2 G3 G4]. split.
  - by rewrite (raw_step _ _ _ E).
  - by eapply flow_step.
  - by eapply caps_step.
  - by eapply wired_step.
Qed.

Lemma omap_delivered_sublist h (l : list (ClientStream * outcome)) : omap (delivered_to h) l `sublist_of` l.*1.
Proof.
  induction l as [|[c o] l IH]; simpl; [done|]. unfold delivered_to at 1. simpl.
  destruct o; try by apply sublist_cons. case_bool_decide; [by apply sublist_skip|by apply sublist_cons].
Qed.

Lemma sublist_filter {A} (P : A → Prop) `{!∀ x, Decision (P x)} (l k : list A) :
  l `sublist_of` k → Forall P l → l `sublist_of` filter P k.
Proof.
  induction 1 as [|x l k _ IH|x l k _ IH]; intros HF; [done|..].
  - apply Forall_cons in HF as [Hx HF]. rewrite filter_cons_True by done. by apply sublist_skip, IH.
  - rewrite filter_cons. destruct (decide (P x)); [by apply sublist_cons, IH|by apply IH].
Qed.

#[export] Instance addressed_dec d i c : Decision (addressed d i c).
Proof. unfold addressed. apply _. Defined.

(** ** Properties *)

(** C10. Routing is exact.  In every state of every run: packets are taken from the stream
    in order; the packets for a stage (the first one whose filter passes) are, in order and
    without loss or repetition, those it has handled, is handing over, has queued, or is
    being given; and what a demultiplexer has received or holds is, in order and without
    repetition, some of the packets that are for its stage, carry its id and pass its
    filter. *)
Theorem pipeline_routing (input : list (res ClientStream)) (filters : list FilterFn) (ls : list label) (p : pipeline) :
  run ls (NewPipeline input filters) = Some p →
  omap ok_of input = consumed p ++ omap ok_of (raw p) ∧
  (∀ i s, stages p !! i = Some s →
     filter (λ c, dispatch filters c = Some i) (consumed p) =
     (sg_log s).*1 ++ accepting (sg_pc s) ++ sg_recvCh s ++ processing i (receiver p)) ∧
  (∀ h d, demuxes p !! h = Some d →
     dm_taken d ++ dm_ch d `sublist_of`
       filter (λ c, addressed d (dm_owner d) c)
         (filter (λ c, dispatch filters c = Some (dm_owner d)) (consumed p))).
Proof.
  intros Hr. destruct (good_run _ _ _ _ _ (good_init input filters) Hr) as [G1 [_ G2] _ [_ _ W3 W4]].
  split; [done|]. split; [done|]. intros h d Hd. destruct (W4 h d Hd) as (s & Hs & ->).
  apply sublist_filter.
  - rewrite (G2 _ _ Hs). apply sublist_inserts_r, omap_delivered_sublist.
  - apply Forall_forall. intros c Hc. destruct (W3 _ _ _ _ Hs Hc) as (d' & Hd' & Ha). by simplify_eq.
Qed.

(** The channels stay within their capacities, and the server packets leave in the
    order the stages sent them. *)
Theorem pipeline_bounded (input : list (res ClientStream)) (filters : list FilterFn) (ls : list label) (p : pipeline) :
  run ls (NewPipeline input filters) = Some p →
  Forall (λ s, length (sg_recvCh s) ≤ 4) (stages p) ∧ Forall (λ d, length (dm_ch d) ≤ 32) (demuxes p) ∧
  length (sendCh p) ≤ 64 ∧ sent p ++ sendCh p = pushed p.
Proof. intros Hr. apply (good_run _ _ _ _ _ (good_init input filters) Hr). Qed.

(** [dispatch] gives a packet to the first stage whose filter returns nil, whatever
    errors the stages before it returned, and drops it only when no filter passes. *)
Theorem dispatch_first (filters : list FilterFn) (c : ClientStream) :
  match dispatch filters c with
  | Some i => (∃ f, filters !! i = Some f ∧ f c = None) ∧
              ∀ j g, j < i → filters !! j = Some g → g c ≠ None
  | None => Forall (λ f, f c ≠ None) filters
  end.
Proof.
  induction filters as [|f filters IH]; simpl; [done|]. destruct (f c) as [e|] eqn:Ef.
  - destruct (dispatch filters c) as [i|]; simpl.
    + destruct IH as [(g & Hg & Hc) Hlt]. split; [by exists g|]. intros [|j] h Hj Hh; [by simplify_eq/=; rewrite Ef|].
      eapply (Hlt j); [lia|done].
    + constructor; [by rewrite Ef|done].
  - split; [by exists f|]. intros j g Hj. lia.
Qed.

(** A request is either answered for or undone.  When [Request] goes on to receive,
    the demultiplexer it will receive from is registered under the id (before the packet
    can reach the wire); when it fails, the queue was full, nothing was sent, and no new
    handler stays registered. *)
Theorem Request_registers (i : nat) (m : ServerStream) (id : string) (flt : string → FilterFn) (p : pipeline) (stg : stage) :
  stages p !! i = Some stg →
  let '(p', r) := Request i m id flt p in
  match r with
  | Ok h => ∃ stg', stages p' !! i = Some stg' ∧ sg_demux stg' !! id = Some h ∧
            (sg_demux stg !! id = None → pushed p' = pushed p ++ [m])
  | Err e => e = ErrSendStreamBlocked ∧ length (sendCh p) = length (sendCh p') ∧ pushed p' = pushed p ∧
             ∃ stg', stages p' !! i = Some stg' ∧ sg_demux stg' = sg_demux stg
  end.
Proof.
  intros Hi. assert (Hlt : i < length (stages p)) by (by eapply lookup_lt_Some).
  unfold Request. rewrite Hi. destruct (sg_demux stg !! id) as [h|] eqn:Eid; [by exists stg|].
  unfold step_register. rewrite Hi. cbn [mbind option_bind]. unfold Send. cbn [sendCh set_demuxes set_stages].
  case_bool_decide; cbn [fst snd].
  - eexists. simpl. rewrite list_lookup_insert_eq by done. split; [done|]. simpl. by rewrite lookup_insert_eq.
  - unfold step_delete. simpl. rewrite list_lookup_insert_eq by done. simpl. split_and!; try done.
    rewrite list_insert_insert_eq, list_lookup_insert_eq by done. eexists. split; [done|]. simpl.
    rewrite delete_insert_eq. by rewrite delete_id.
Qed.

(** A stopped stage with a full queue, and the receiver about to give it a packet. *)
Definition wedged (i : nat) (c : ClientStream) (p : pipeline) : Prop :=
  receiver p = RProcess i c ∧
  ∃ s, stages p !! i = Some s ∧ sg_pc s = SStopped ∧ recv_cap ≤ length (sg_recvCh s).

Lemma wedged_insert i c p l s s' j :
  wedged i c p → stages p !! j = Some s → sg_pc s ≠ SStopped ∨ (sg_pc s' = sg_pc s ∧ sg_recvCh s' = sg_recvCh s) →
  l = <[j := s']> (stages p) → wedged i c (set_stages l p).
Proof.
  intros [Hr (x & Hx & Hpc & Hlen)] Hj Hs ->. split; [done|]. simpl. destruct (decide (i = j)) as [->|Hne].
  - rewrite Hx in Hj. injection Hj as ->. destruct Hs as [|[E1 E2]]; [done|]. exists s'.
    rewrite list_lookup_insert_eq by (by eapply lookup_lt_Some). by rewrite E1, E2.
  - exists x. by rewrite list_lookup_insert_ne.
Qed.

Lemma wedged_pair i c p p' : wedged i c p → receiver p' = receiver p → stages p' = stages p → wedged i c p'.
Proof. unfold wedged. by intros ? -> ->. Qed.

Lemma wedged_closeFn i c p d : wedged i c p → wedged i c (set_stages (run_closeFn d (stages p)) p).
Proof.
  intros Hw. pose proof Hw as [Hr (x & Hx & Hpc & Hlen)]. unfold run_closeFn. destruct (dm_deletes d); [|by split; eauto].
  split; [done|]. simpl. destruct (decide (i = dm_owner d)) as [->|Hne].
  - rewrite list_lookup_alter_eq, Hx. simpl. by eexists.
  - rewrite list_lookup_alter_ne by done. eauto.
Qed.

Lemma wedged_step i c l p p' : wedged i c p → step l p = Some p' → wedged i c p'.
Proof.
  intros Hw Hs. pose proof Hw as [Hr (x & Hx & Hpc & Hlen)]. destruct l as [| |err| |j|j|j|j|j ? ? ?|j ?|h|h|h ?|m|]; simpl in Hs.
  - unfold step_recv in Hs. by rewrite Hr in Hs.
  - unfold step_process in Hs. rewrite Hr, Hx in Hs. simpl in Hs. case_bool_decide; [lia|done].
  - unfold step_send in Hs. repeat case_match; simplify_eq; split; simpl; eauto.
  - unfold step_send_stop in Hs. repeat case_match; simplify_eq; split; simpl; eauto.
  - unfold step_stage in Hs. destruct (stages p !! j) as [s|] eqn:Ej; [|done]. simpl in Hs.
    destruct (sg_pc s) eqn:Ep; [|done..]. destruct (sg_recvCh s); [done|]. injection Hs as <-.
    eapply (wedged_insert _ _ _ _ s _ j); [done|done|left; by rewrite Ep|done].
  - unfold step_accept in Hs. destruct (stages p !! j) as [s|] eqn:Ej; [|done]. simpl in Hs.
    destruct (sg_pc s) as [|h' c'|] eqn:Ep; try done. destruct (demuxes p !! h'); [|done]. simpl in Hs.
    case_bool_decide; [|done]. injection Hs as <-.
    eapply (wedged_pair _ _ (set_stages _ p)); [|done|done].
    eapply (wedged_insert _ _ _ _ s _ j); [done|done|left; by rewrite Ep|done].
  - unfold step_refuse in Hs. destruct (stages p !! j) as [s|] eqn:Ej; [|done]. simpl in Hs.
    destruct (sg_pc s) as [|h' c'|] eqn:Ep; try done. destruct (demuxes p !! h') as [d|]; [|done]. simpl in Hs.
    destruct (dm_err d) as [e|]; [|done]. simpl in Hs. injection Hs as <-.
    set (l := <[j := _]> (stages p)).
    eapply (wedged_pair _ _ (set_stages (run_closeFn d l) (set_stages l p))); [|done|done].
    apply (wedged_closeFn _ _ (set_stages l p)). subst l.
    eapply (wedged_insert _ _ _ _ s _ j); [done|done|left; by rewrite Ep|done].
  - unfold step_stop in Hs. destruct (stages p !! j) as [s|] eqn:Ej; [|done]. simpl in Hs.
    destruct (sg_pc s) eqn:Ep; [|done..]. destruct (cancelled p); [|done]. injection Hs as <-.
    eapply (wedged_insert _ _ _ _ s _ j); [done|done|left; by rewrite Ep|done].
  - unfold step_register in Hs. destruct (stages p !! j) as [s|] eqn:Ej; [|done]. simpl in Hs. injection Hs as <-.
    set (l := <[j := _]> (stages p)). apply (wedged_pair _ _ (set_stages l p)); [|done|done]. eapply (wedged_insert _ _ _ _ s _ j); [done|done| |reflexivity]; by right.
  - unfold step_delete in Hs. destruct (stages p !! j) as [s|] eqn:Ej; [|done]. simpl in Hs. injection Hs as <-.
    eapply (wedged_insert _ _ _ _ s _ j); [done|done| |reflexivity]; by right.
  - unfold step_take in Hs. destruct (demuxes p !! h) as [d|]; [|done]. simpl in Hs.
    destruct (dm_ch d); [done|]. injection Hs as <-. split; simpl; eauto.
  - unfold step_take_err in Hs. destruct (demuxes p !! h) as [d|]; [|done]. simpl in Hs.
    destruct (dm_err d); [|done]. injection Hs as <-. by apply wedged_closeFn.
  - unfold step_close in Hs. destruct (demuxes p !! h) as [d|]; [|done]. simpl in Hs.
    destruct (dm_err d); [done|]. injection Hs as <-. split; simpl; eauto.
  - injection Hs as <-. unfold Send. case_bool_decide; split; simpl; eauto.
  - injection Hs as <-. split; simpl; eauto.
Qed.

(** C28. [Process] has no way out: once a stage has stopped with its queue full, the
    receiver that is about to give it a packet stays there whatever happens afterwards,
    also when the stream ends, so [StreamPipeline.Run] never returns from waiting for it. *)
Theorem receiver_wedged_forever (i : nat) (c : ClientStream) (p p' : pipeline) (ls : list label) :
  wedged i c p → run ls p = Some p' → wedged i c p' ∧ receiver p' ≠ RDone.
Proof.
  revert p. induction ls as [|l ls IH]; intros p Hw; cbn [run].
  - intros [= <-]. split; [done|]. destruct Hw as [-> _]. done.
  - destruct (step l p) as [p1|] eqn:E; [|done]. apply IH. by eapply wedged_step.
Qed.

(** *** A run of two stages *)

Definition ex_packet (id stage data : string) : ClientStream :=
  {| c_BuildId := id;
     c_PacketType := Some (CBuildTransfer {| bt_Id := id; bt_Direction := INTO; bt_Source := None; bt_Destination := None;
       bt_Data := bytes_of data; bt_Complete := true; bt_IsDirectory := false; bt_Metadata := {[ "stage" := stage ]} |}) |}.

Definition ex_stage_filter (name : string) : FilterFn := λ c,
  match GetBuildTransfer c with
  | Some bt => if bool_decide (mget (bt_Metadata bt) "stage" = name) then None else Some ErrIgnorePacket
  | None => Some ErrIgnorePacket
  end.

Definition ex_filters : list FilterFn := [ex_stage_filter "a"; ex_stage_filter "b"].
Definition ex_input : list (res ClientStream) :=
  [Ok (ex_packet "1" "b" "x"); Ok (ex_packet "2" "a" "y"); Ok (ex_packet "1" "b" "z"); Err EOF].
Definition ex_labels : list label :=
  [LRegister 1 "1" (FilterByBuildID "1") true; LRecv; LProcess; LRecv; LProcess; LStage 1; LAccept 1; LRecv; LProcess;
   LTake 0; LStage 1; LAccept 1; LStage 0; LRecv].

Lemma pipeline_routing_witness :
  ∃ p, run ex_labels (NewPipeline ex_input ex_filters) = Some p ∧
    (λ d, (dm_taken d, dm_ch d)) <$> demuxes p = [([ex_packet "1" "b" "x"], [ex_packet "1" "b" "z"])] ∧
    omap ok_of ex_input = consumed p ++ omap ok_of (raw p).
Proof.
  destruct (run ex_labels (NewPipeline ex_input ex_filters)) as [p|] eqn:E; [|by vm_compute in E].
  exists p. split; [done|]. split; [|by apply (pipeline_routing ex_input ex_filters ex_labels p)].
  assert (H : (λ p, (λ d, (dm_taken d, dm_ch d)) <$> demuxes p) <$> run ex_labels (NewPipeline ex_input ex_filters) =
    Some [([ex_packet "1" "b" "x"], [ex_packet "1" "b" "z"])]) by (vm_compute; reflexivity).
  rewrite E in H. by injection H.
Defined.

Lemma pipeline_bounded_witness :
  ∃ p, run ex_labels (NewPipeline ex_input ex_filters) = Some p ∧ Forall (λ s, length (sg_recvCh s) ≤ 4) (stages p).
Proof.
  destruct (run ex_labels (NewPipeline ex_input ex_filters)) as [p|] eqn:E; [|by vm_compute in E].
  exists p. split; [done|]. by apply (pipeline_bounded ex_input ex_filters ex_labels p).
Defined.

Definition ex_request : ServerStream := {| s_BuildId := "9"; s_PacketType := None |}.

Lemma Request_registers_witness :
  ∃ stg', stages (Request 1 ex_request "9" FilterByBuildID (NewPipeline ex_input ex_filters)).1 !! 1 = Some stg' ∧
          sg_demux stg' !! "9" = Some 0.
Proof.
  pose proof (Request_registers 1 ex_request "9" FilterByBuildID (NewPipeline ex_input ex_filters)
    {| sg_filter := ex_stage_filter "b"; sg_recvCh := []; sg_demux := ∅; sg_pc := SIdle; sg_log := [] |} eq_refl) as H.
  assert (Hr : (Request 1 ex_request "9" FilterByBuildID (NewPipeline ex_input ex_filters)).2 = Ok 0) by (vm_compute; reflexivity).
  destruct (Request _ _ _ _ _) as [p' r]. simpl in *. subst r. destruct H as (s & ? & ? & _). eauto.
Defined.

(** The pipeline is cancelled while the client keeps sending: five packets later it is wedged. *)
Definition ex_flood : list (res ClientStream) := Ok <$> replicate 5 (ex_packet "1" "a" "x").
Definition ex_flood_labels : list label :=
  [LCancel; LStop 0; LRecv; LProcess; LRecv; LProcess; LRecv; LProcess; LRecv; LProcess; LRecv].

Lemma receiver_wedged_forever_witness :
  ∃ p, run ex_flood_labels (NewPipeline ex_flood ex_filters) = Some p ∧
    ∀ ls p', run ls p = Some p' → receiver p' ≠ RDone.
Proof.
  destruct (run ex_flood_labels (NewPipeline ex_flood ex_filters)) as [p|] eqn:E; [|by vm_compute in E].
  exists p. split; [done|]. intros ls p' Hr.
  apply (receiver_wedged_forever 0 (ex_packet "1" "a" "x") p p' ls); [|exact Hr].
  assert (H : (λ p, (receiver p, (λ s, (sg_pc s, length (sg_recvCh s))) <$> stages p !! 0)) <$>
    run ex_flood_labels (NewPipeline ex_flood ex_filters) = Some (RProcess 0 (ex_packet "1" "a" "x"), Some (SStopped, 4)))
    by (vm_compute; reflexivity).
  rewrite E in H. injection H as H1 H2. apply fmap_Some in H2 as (s & Hs & H2). injection H2 as H2 H3.
  split; [done|]. exists s. split; [done|]. split; [done|]. rewrite <-H3. unfold recv_cap. lia.
Defined.
