(* ===== verification/Exchange.v ===== *)
(** * Requests and their replies over the pipeline

    [Stream.v] shows that a demultiplexer receives nothing but packets addressed to it.  Here is
    the other half: while a request waits under a fresh id (every proxy draws a UUID per
    request), its demultiplexer gets every packet that carries the id, in the order of the
    stream, whatever the other stages and requests do.  This is what the proxies rely on when
    they treat the host as a function from requests to replies. *)

From S2P Require Import Prelude GoStrings Api Stream.

Lemma run_app ls1 ls2 p : run (ls1 ++ ls2) p = run ls1 p ≫= run ls2.
Proof. revert p. induction ls1 as [|l ls1 IH]; intros p; simpl; [done|]. by destruct (step l p); simpl. Qed.

Section exchange.
Context (i : nat) (id : string) (f : FilterFn) (h : nat).

(** A packet the request waits for, among those of its stage. *)
Definition is_reply (c : ClientStream) : Prop := c_BuildId c = id ∧ f c = None.

#[export] Instance is_reply_dec c : Decision (is_reply c).
Proof. unfold is_reply. apply _. Defined.

(** What others do while the request waits: nobody takes its id over, its own context does not
    end, and its stage is not told to stop.  Everything else may happen. *)
Definition undisturbed (l : label) : bool :=
  match l with
  | LRegister j id' _ _ | LDelete j id' => negb (bool_decide (j = i ∧ id' = id))
  | LClose h' _ => negb (bool_decide (h' = h))
  | LStop j => negb (bool_decide (j = i))
  | _ => true
  end.

(** ** The invariant *)

(** The demultiplexer is open and the only one with its id at its stage. *)
Definition claimed (ds : list demux) : Prop :=
  (∃ d, ds !! h = Some d ∧ dm_owner d = i ∧ dm_id d = id ∧ dm_filter d = f ∧ dm_err d = None) ∧
  ∀ h' d, ds !! h' = Some d → dm_owner d = i → dm_id d = id → h' = h.

Definition accepting_for (pc : stage_pc) : list ClientStream :=
  match pc with SAccept h' c => if bool_decide (h' = h) then [c] else [] | _ => [] end.

(** Of the packets the stage has looked up since the registration, exactly the replies went to
    the demultiplexer or are about to. *)
Definition hears (seen : list ClientStream) (s : stage) : Prop :=
  sg_demux s !! id = Some h ∧ ∃ handled,
    (sg_log s).*1 ++ accepting (sg_pc s) = seen ++ handled ∧
    omap (delivered_to h) (sg_log s) ++ accepting_for (sg_pc s) = filter is_reply handled.

Record listening (seen : list ClientStream) (p : pipeline) : Prop := {
  li_claimed : claimed (demuxes p);
  li_hears : ∃ s, stages p !! i = Some s ∧ hears seen s;
}.

Lemma claimed_insert ds k x x' : claimed ds → ds !! k = Some x →
  dm_owner x' = dm_owner x → dm_id x' = dm_id x → dm_filter x' = dm_filter x → (k = h → dm_err x' = dm_err x) →
  claimed (<[k := x']> ds).
Proof.
  intros [(d & Hd & E1 & E2 & E3 & E4) Hu] Hx O I F He. assert (Hlt : k < length ds) by (by eapply lookup_lt_Some). split.
  - destruct (decide (k = h)) as [->|Hne]; [|exists d; by rewrite list_lookup_insert_ne].
    exists x'. rewrite list_lookup_insert_eq by done. simplify_eq. rewrite O, I, F, He by done. done.
  - intros k' y Hy Ho Hi. destruct (decide (k = k')) as [<-|Hne].
    + rewrite list_lookup_insert_eq in Hy by done. simplify_eq. eapply Hu; [exact Hx|congruence|congruence].
    + rewrite list_lookup_insert_ne in Hy by done. by eapply Hu.
Qed.

Lemma claimed_app ds d : claimed ds → ¬ (dm_owner d = i ∧ dm_id d = id) → claimed (ds ++ [d]).
Proof.
  intros [(x & Hx & E) Hu] Hn. split.
  - exists x. split; [|done]. rewrite lookup_app_l; [done|by eapply lookup_lt_Some].
  - intros k y [Hy|[_ Hy]]%lookup_app_Some Ho Hi; [by eapply Hu|].
    apply list_lookup_singleton_Some in Hy as [_ <-]. tauto.
Qed.

(** A closed demultiplexer is another one, so its [closeFn] deletes another registration. *)
Lemma claimed_closed ds k d e : claimed ds → ds !! k = Some d → dm_err d = Some e → ¬ (dm_owner d = i ∧ dm_id d = id).
Proof. intros [(x & Hx & _ & _ & _ & Hn) Hu] Hd He [Ho Hi]. rewrite (Hu k d Hd Ho Hi) in Hd. congruence. Qed.

(** Changes of a stage that leave the registration and what was handled alone. *)
Lemma hears_same seen s s' : hears seen s → sg_demux s' !! id = Some h → sg_log s' = sg_log s → sg_pc s' = sg_pc s → hears seen s'.
Proof. intros [_ H] Hd El Ep. split; [done|]. by rewrite El, Ep. Qed.

(** A packet leaves the [select] of [Accept], or was dropped at once. *)
Lemma hears_log seen s s' c o : hears seen s → sg_demux s' !! id = Some h → sg_log s' = sg_log s ++ [(c, o)] → sg_pc s' = SIdle →
  (∃ k, sg_pc s = SAccept k c ∧ option_list (delivered_to h (c, o)) = accepting_for (sg_pc s)) ∨
  (sg_pc s = SIdle ∧ delivered_to h (c, o) = None ∧ ¬ is_reply c) → hears seen s'.
Proof.
  intros [_ (hd & E1 & E2)] Hd El Ep Hc. split; [done|]. rewrite El, Ep, fmap_app, delivered_snoc. cbn [accepting accepting_for].
  rewrite !app_nil_r. destruct Hc as [(k & Ek & Eo)|(Ek & Eo & Hn)].
  - exists hd. rewrite Eo. split; [|exact E2]. rewrite Ek in E1. exact E1.
  - rewrite Ek in *. rewrite Eo. simpl in *. rewrite !app_nil_r in *. exists (hd ++ [c]). rewrite E1, E2, app_assoc, filter_app. split; [done|].
    rewrite filter_cons, decide_False by done. by rewrite app_nil_r.
Qed.

(** The loop of [Run] takes the next packet. *)
Lemma hears_handle seen ds s c rest : claimed ds → hears seen s → sg_pc s = SIdle →
  (∀ k d, sg_demux s !! c_BuildId c = Some k → ds !! k = Some d → dm_owner d = i ∧ dm_id d = c_BuildId c) →
  hears seen (handle ds c (sg_set_recvCh rest s)).
Proof.
  intros Hcl Hh Hpc Hw. pose proof Hcl as [(x & Hx & _ & Hxi & Hf & Hn) Hu]. pose proof Hh as [Hreg (hd & E1 & E2)].
  unfold handle. simpl. destruct (decide (c_BuildId c = id)) as [Hid|Hid].
  - rewrite Hid, Hreg, Hx, Hn, Hf. simpl. destruct (f c) as [e|] eqn:Ef.
    + eapply hears_log; [exact Hh|done|done|done|]. right. split_and!; [done|done|]. intros [_ ?]. congruence.
    + split; [done|]. exists (hd ++ [c]). simpl. rewrite Hpc in *. simpl in *. rewrite !app_nil_r in *.
      rewrite E1, E2, app_assoc, filter_app, filter_cons, decide_True, bool_decide_true by done. done.
  - assert (Hnr : ¬ is_reply c) by (by intros [? _]).
    destruct (sg_demux s !! c_BuildId c) as [k|] eqn:Ek; [destruct (ds !! k) as [d|] eqn:Ed|].
    + destruct (Hw k d eq_refl Ed) as [Ho Hi]. destruct (dm_err d); [|destruct (dm_filter d c)].
      * eapply hears_log; [exact Hh|simpl; by rewrite lookup_delete_ne by congruence|done|done|by right].
      * eapply hears_log; [exact Hh|done|done|done|by right].
      * split; [done|]. simpl. exists (hd ++ [c]). rewrite Hpc in *. simpl in *. rewrite !app_nil_r in *.
        rewrite bool_decide_false by (intros ->; congruence). rewrite E1, E2, app_assoc, filter_app, filter_cons, decide_False by done.
        by rewrite !app_nil_r.
    + eapply hears_log; [exact Hh|done|done|done|by right].
    + eapply hears_log; [exact Hh|done|done|done|by right].
Qed.

(** A step replaces one stage. *)
Lemma listening_insert seen p p' j s s' : listening seen p → stages p !! j = Some s → stages p' = <[j := s']> (stages p) →
  claimed (demuxes p') → (j = i → hears seen s → hears seen s') → listening seen p'.
Proof.
  intros [_ (x & Hx & Hh)] Hs Hst Hcl Hk. split; [done|]. rewrite Hst. destruct (decide (j = i)) as [->|Hne].
  - exists s'. rewrite list_lookup_insert_eq by (by eapply lookup_lt_Some). simplify_eq. auto.
  - exists x. by rewrite list_lookup_insert_ne.
Qed.

Lemma listening_demuxes seen p p' : listening seen p → stages p' = stages p → claimed (demuxes p') → listening seen p'.
Proof. intros [_ H] Hs Hcl. split; [done|by rewrite Hs]. Qed.

Lemma hears_closeFn seen l d : ¬ (dm_owner d = i ∧ dm_id d = id) → (∃ s, l !! i = Some s ∧ hears seen s) →
  ∃ s, run_closeFn d l !! i = Some s ∧ hears seen s.
Proof.
  intros Hn (s & Hs & Hh). unfold run_closeFn. destruct (dm_deletes d); [|eauto].
  destruct (decide (dm_owner d = i)) as [E|Hne]; [|exists s; by rewrite list_lookup_alter_ne].
  rewrite E, list_lookup_alter_eq, Hs. eexists. split; [done|]. eapply hears_same; [exact Hh| |done|done].
  simpl. rewrite lookup_delete_ne; [apply Hh|]. intros E'. by apply Hn.
Qed.

(** ** Every step keeps it *)

Lemma listening_stage seen p j p' : listening seen p → wired p → step_stage j p = Some p' → listening seen p'.
Proof.
  intros Hl Hw. unfold step_stage. destruct (stages p !! j) as [s|] eqn:Ej; [|done]. simpl.
  destruct (sg_pc s) eqn:Ep; [|done..]. destruct (sg_recvCh s) as [|c rest]; [done|]. intros [= <-].
  eapply listening_insert; [exact Hl|exact Ej|done|apply Hl|]. intros -> Hh.
  apply hears_handle; [apply Hl|done|done|]. intros k d Hk Hd.
  destruct (w_reg p Hw _ _ _ _ Ej Hk) as (d' & Hd' & Ho & Hi). rewrite Hd in Hd'. by injection Hd' as <-.
Qed.

Lemma listening_accept seen p j p' : listening seen p → step_accept j p = Some p' → listening seen p'.
Proof.
  intros Hl. unfold step_accept. destruct (stages p !! j) as [s|] eqn:Ej; [|done]. simpl.
  destruct (sg_pc s) as [|k c|] eqn:Ep; try done. destruct (demuxes p !! k) as [d|] eqn:Ed; [|done]. simpl.
  case_bool_decide; [|done]. intros [= <-]. eapply listening_insert; [exact Hl|exact Ej|done| |].
  - eapply claimed_insert; [apply Hl|exact Ed|done..].
  - intros -> Hh. eapply hears_log; [exact Hh|apply Hh|done|done|]. left. exists k. split; [done|].
    rewrite Ep. unfold delivered_to. simpl. by case_bool_decide.
Qed.

Lemma listening_refuse seen p j p' : listening seen p → step_refuse j p = Some p' → listening seen p'.
Proof.
  intros Hl. unfold step_refuse. destruct (stages p !! j) as [s|] eqn:Ej; [|done]. simpl.
  destruct (sg_pc s) as [|k c|] eqn:Ep; try done. destruct (demuxes p !! k) as [d|] eqn:Ed; [|done]. simpl.
  destruct (dm_err d) as [e|] eqn:Ee; [|done]. simpl. intros [= <-]. split; [apply Hl|]. simpl.
  apply hears_closeFn; [eapply claimed_closed; [apply Hl|exact Ed|exact Ee]|].
  eapply (li_hears seen (set_stages _ p)), (listening_insert seen p _ j s); [exact Hl|exact Ej|done|apply Hl|].
  intros -> Hh. eapply hears_log; [exact Hh|apply Hh|done|done|]. left. exists k. split; [done|]. rewrite Ep. simpl.
  rewrite bool_decide_false; [done|]. intros ->. destruct (li_claimed _ _ Hl) as [(x & Hx & _ & _ & _ & Hn) _]. congruence.
Qed.

Lemma listening_step seen p l p' : listening seen p → wired p → undisturbed l = true → step l p = Some p' → listening seen p'.
Proof.
  intros Hl Hw Hq. pose proof Hl as [Hcl Hhs]. destruct l as [| |err| |j|j|j|j|j k g b|j k|k|k|k e|m|]; simpl in Hq |- *.
  - unfold step_recv. destruct (receiver p); try done. destruct (raw p) as [|[]]; [done|..]; intros [= <-]; by split.
  - unfold step_process. destruct (receiver p) as [|j c|]; try done. destruct (stages p !! j) as [s|] eqn:Ej; [|done]. simpl.
    case_bool_decide; [|done]. intros [= <-]. eapply listening_insert; [exact Hl|exact Ej|done|done|].
    intros _ Hh. eapply hears_same; [exact Hh|apply Hh|done|done].
  - unfold step_send. destruct (sender_done p); [done|]. destruct (sendCh p); [done|]. intros [= <-]. destruct err; by split.
  - unfold step_send_stop. repeat case_match; intros; simplify_eq; by split.
  - by apply listening_stage.
  - by apply listening_accept.
  - by apply listening_refuse.
  - unfold step_stop. destruct (stages p !! j) as [s|] eqn:Ej; [|done]. simpl. destruct (sg_pc s); [|done..].
    destruct (cancelled p); [|done]. intros [= <-]. eapply listening_insert; [exact Hl|exact Ej|done|done|].
    intros ->. by rewrite bool_decide_true in Hq.
  - unfold step_register. destruct (stages p !! j) as [s|] eqn:Ej; [|done]. simpl. intros [= <-].
    apply negb_true_iff, bool_decide_eq_false in Hq. eapply listening_insert; [exact Hl|exact Ej|done|by apply claimed_app|].
    intros -> Hh. eapply hears_same; [exact Hh| |done|done]. simpl. rewrite lookup_insert_ne; [apply Hh|naive_solver].
  - unfold step_delete. destruct (stages p !! j) as [s|] eqn:Ej; [|done]. simpl. intros [= <-].
    apply negb_true_iff, bool_decide_eq_false in Hq. eapply listening_insert; [exact Hl|exact Ej|done|done|].
    intros -> Hh. eapply hears_same; [exact Hh| |done|done]. simpl. rewrite lookup_delete_ne; [apply Hh|naive_solver].
  - unfold step_take. destruct (demuxes p !! k) as [d|] eqn:Ek; [|done]. simpl. destruct (dm_ch d); [done|]. intros [= <-].
    eapply listening_demuxes; [exact Hl|done|]. by eapply claimed_insert.
  - unfold step_take_err. destruct (demuxes p !! k) as [d|] eqn:Ek; [|done]. simpl. destruct (dm_err d) as [e|] eqn:Ee; [|done].
    intros [= <-]. split; [done|]. simpl. apply hears_closeFn; [by eapply claimed_closed|done].
  - unfold step_close. destruct (demuxes p !! k) as [d|] eqn:Ek; [|done]. simpl. destruct (dm_err d); [done|]. intros [= <-].
    apply negb_true_iff, bool_decide_eq_false in Hq. eapply listening_demuxes; [exact Hl|done|]. by eapply claimed_insert.
  - intros [= <-]. unfold Send. case_bool_decide; by split.
  - intros [= <-]. by split.
Qed.

Lemma listening_run seen ls p p' : listening seen p → wired p → forallb undisturbed ls = true → run ls p = Some p' → listening seen p'.
Proof.
  revert p. induction ls as [|l ls IH]; intros p Hl Hw; simpl; [by intros _ [= <-]|]. intros [Hq Hqs]%andb_prop.
  destruct (step l p) as [p1|] eqn:Hs; [|done]. simpl. apply IH; [by eapply listening_step|by eapply wired_step|done].
Qed.

(** A registration under a fresh id starts it. *)
Lemma listening_register p0 s0 b p1 : wired p0 → stages p0 !! i = Some s0 → h = length (demuxes p0) →
  Forall (λ d, ¬ (dm_owner d = i ∧ dm_id d = id)) (demuxes p0) → step_register i id f b p0 = Some p1 →
  listening ((sg_log s0).*1 ++ accepting (sg_pc s0)) p1.
Proof.
  intros Hw Hs Hh Hfresh. unfold step_register. rewrite Hs. simpl. intros [= <-].
  assert (Hnone : ∀ d, demuxes p0 !! h ≠ Some d) by (intros d Hd%lookup_lt_Some; lia). split; simpl.
  - split.
    + eexists. rewrite lookup_app_r, Hh, Nat.sub_diag by lia. done.
    + intros k d [Hd|[Hk Hd]]%lookup_app_Some Ho Hi; [|apply list_lookup_singleton_Some in Hd as [? _]; lia].
      rewrite Forall_lookup in Hfresh. by destruct (Hfresh k d Hd).
  - eexists. rewrite list_lookup_insert_eq by (by eapply lookup_lt_Some). split; [done|]. split; simpl; [by rewrite Hh, lookup_insert_eq|].
    exists []. rewrite app_nil_r. split; [done|].
    assert (E1 : omap (delivered_to h) (sg_log s0) = []).
    { apply elem_of_nil_inv. intros c Hc. destruct (w_log p0 Hw _ _ _ _ Hs Hc) as (d & Hd & _). by apply (Hnone d). }
    assert (E2 : accepting_for (sg_pc s0) = []).
    { destruct (sg_pc s0) as [|k c|] eqn:Ep; [done| |done]. destruct (w_acc p0 Hw _ _ _ _ Hs Ep) as (d & Hd & _). simpl.
      rewrite bool_decide_false; [done|]. intros ->. by apply (Hnone d). }
    by rewrite E1, E2.
Qed.

(** ** Rest *)

(** The steps of the receiver and of the stages. *)
Definition moves (l : label) : bool :=
  match l with LRecv | LProcess | LStage _ | LAccept _ | LRefuse _ => true | _ => false end.

Definition rests (p : pipeline) : Prop := ∀ l, moves l = true → step l p = None.

(** A stage that has stopped, or hands a packet to a client that has left 32 packets unread. *)
Definition stuck (ds : list demux) (s : stage) : bool :=
  match sg_pc s with
  | SIdle => false
  | SStopped => true
  | SAccept k _ => match ds !! k with Some d => bool_decide (demux_cap ≤ length (dm_ch d)) | None => false end
  end.

Definition blocked (p : pipeline) : bool := existsb (stuck (demuxes p)) (stages p).

Lemma rests_idle p j s : wired p → rests p → blocked p = false → stages p !! j = Some s → sg_pc s = SIdle ∧ sg_recvCh s = [].
Proof.
  intros Hw Hr Hb Hs.
  assert (Hn : stuck (demuxes p) s = false).
  { apply not_true_iff_false. intros Ht. apply not_true_iff_false in Hb. apply Hb, existsb_exists. exists s. split; [|done].
    apply list_elem_of_In. by eapply list_elem_of_lookup_2. }
  pose proof (Hr (LStage j) eq_refl) as H1. pose proof (Hr (LAccept j) eq_refl) as H2. simpl in H1, H2.
  unfold step_stage, step_accept in *. rewrite Hs in *. simpl in *. unfold stuck in Hn.
  destruct (sg_pc s) as [|k c|] eqn:Ep; [|exfalso|done].
  - by destruct (sg_recvCh s).
  - destruct (w_acc p Hw _ _ _ _ Hs Ep) as (d & Hd & _). rewrite Hd in *. simpl in H2.
    apply bool_decide_eq_false in Hn. rewrite bool_decide_true in H2 by lia. done.
Qed.

(** The receiver only ever blocks on a stage there is. *)
Definition in_range (p : pipeline) : Prop := ∀ j c, receiver p = RProcess j c → j < length (stages p).

Lemma in_range_step l p p' : in_range p → step l p = Some p' → in_range p'.
Proof.
  intros Hi Hs. destruct l; [| |edestruct (stages_step_flow _ _ _ Hs) as (HF & _ & E & _); [done..|];
    intros j c; rewrite E, <-(Forall2_length _ _ _ HF); apply Hi..]; simpl in Hs.
  - unfold step_recv in Hs. destruct (receiver p); try done. destruct (raw p) as [|[c|]]; [done|..]; injection Hs as <-; [|done].
    intros j c'. simpl. destruct (dispatch (filters_of p) c) as [k|] eqn:Ed; [|done]. intros [= <- <-].
    apply dispatch_lt in Ed. unfold filters_of in Ed. by rewrite length_fmap in Ed.
  - unfold step_process in Hs. destruct (receiver p) as [|j c|] eqn:Er; try done. destruct (stages p !! j); [|done].
    simpl in Hs. case_bool_decide; [|done]. by injection Hs as <-.
Qed.

Lemma in_range_run ls p p' : in_range p → run ls p = Some p' → in_range p'.
Proof.
  revert p. induction ls as [|l ls IH]; intros p Hi; simpl; [by intros [= <-]|].
  destruct (step l p) as [p1|] eqn:Hs; [|done]. simpl. apply IH. by eapply in_range_step.
Qed.

Lemma rests_receiver p : wired p → in_range p → rests p → blocked p = false →
  (raw p = [] ∨ receiver p = RDone) ∧ ∀ j, processing j (receiver p) = [].
Proof.
  intros Hw Hi Hr Hb. pose proof (Hr LRecv eq_refl) as H1. pose proof (Hr LProcess eq_refl) as H2.
  simpl in H1, H2. unfold step_recv, step_process in *. destruct (receiver p) as [|j c|] eqn:Er.
  - destruct (raw p) as [|[]]; [|done..]. split; [by left|done].
  - destruct (lookup_lt_is_Some_2 (stages p) j (Hi _ _ Er)) as [s Hs].
    destruct (rests_idle p j s Hw Hr Hb Hs) as [_ Hq]. rewrite Hs in H2. simpl in H2. by rewrite Hq in H2.
  - split; [by right|done].
Qed.

(** C13. Replies are complete.  Let a client register a demultiplexer under an id that is new at
    its stage, at any moment of any run, and let anything follow that does not end its context,
    reuse its id or stop its stage.  Then of the packets that its stage has looked up since, what
    the client received, what waits for it and what is being handed to it are exactly those that
    carry the id and pass the filter, in the order of the stream.  When receiver and stages can
    do no more, either a stage is blocked (stopped, or on a client that has left 32 packets
    unread), or the stream is at its end and the client has got or can get every such reply. *)
Theorem replies_complete input filters ls0 p0 s0 deletes p1 ls p :
  run ls0 (NewPipeline input filters) = Some p0 → stages p0 !! i = Some s0 → h = length (demuxes p0) →
  Forall (λ d, ¬ (dm_owner d = i ∧ dm_id d = id)) (demuxes p0) → step_register i id f deletes p0 = Some p1 →
  forallb undisturbed ls = true → run ls p1 = Some p →
  ∃ s d handled, stages p !! i = Some s ∧ demuxes p !! h = Some d ∧
    filter (λ c, dispatch filters c = Some i) (consumed p) =
      (sg_log s0).*1 ++ accepting (sg_pc s0) ++ handled ++ sg_recvCh s ++ processing i (receiver p) ∧
    dm_taken d ++ dm_ch d ++ accepting_for (sg_pc s) = filter is_reply handled ∧
    (rests p → blocked p = true ∨
      (raw p = [] ∨ receiver p = RDone) ∧
      filter (λ c, dispatch filters c = Some i) (consumed p) = (sg_log s0).*1 ++ accepting (sg_pc s0) ++ handled ∧
      dm_taken d ++ dm_ch d = filter is_reply handled).
Proof.
  intros Hr0 Hs0 Hh Hfresh Hreg Hq Hr. pose proof (good_run _ _ _ _ _ (good_init input filters) Hr0) as G0.
  assert (Hr1 : run (ls0 ++ LRegister i id f deletes :: ls) (NewPipeline input filters) = Some p) by (rewrite run_app, Hr0; simpl; by rewrite Hreg).
  destruct (good_run _ _ _ _ _ (good_init input filters) Hr1) as [_ [_ G2] _ G4].
  assert (Hi : in_range p) by (eapply in_range_run; [|exact Hr1]; done).
  pose proof (listening_register _ _ _ _ (gp_wired _ _ _ G0) Hs0 Hh Hfresh Hreg) as Hl.
  eapply listening_run in Hl as [[(d & Hd & Ho & _) _] (s & Hs & _ & handled & E1 & E2)]; [|by eapply (wired_step (LRegister _ _ _ _)), Hreg; apply G0|done|exact Hr].
  destruct (w_got p G4 h d Hd) as (s' & Hs' & Eg). rewrite Ho, Hs in Hs'. injection Hs' as <-. rewrite <-Eg, <-app_assoc in E2.
  assert (Ef : filter (λ c, dispatch filters c = Some i) (consumed p) =
    (sg_log s0).*1 ++ accepting (sg_pc s0) ++ handled ++ sg_recvCh s ++ processing i (receiver p)).
  { rewrite (G2 i s Hs), (app_assoc (sg_log s).*1), E1. by rewrite <-!app_assoc. }
  exists s, d, handled. split_and!; [done..|]. intros Hrest. destruct (blocked p) eqn:Hb; [by left|right].
  destruct (rests_idle p i s G4 Hrest Hb Hs) as [Ep Eq]. destruct (rests_receiver p G4 Hi Hrest Hb) as [He Hproc].
  rewrite Ef, Eq, Hproc. rewrite Ep in E2. simpl in E2. rewrite !app_nil_r in *. done.
Qed.

(** The demultiplexer of an answered request is not removed: the deferred cancellation of the
    request ends its context, but the entry stays until another packet with the id arrives or
    the stage stops. *)
Lemma answered_stays_registered seen p e p' : listening seen p → step (LClose h e) p = Some p' →
  ∃ s, stages p' !! i = Some s ∧ sg_demux s !! id = Some h.
Proof.
  intros [_ (s & Hs & Hh)]. simpl. unfold step_close. destruct (demuxes p !! h) as [d|]; [|done]. simpl.
  destruct (dm_err d); [done|]. intros [= <-]. exists s. split; [done|apply Hh].
Qed.
End exchange.

(** [Request] under a new id is a registration and a [Send]. *)
Lemma Request_steps i m id flt p p' h s : stages p !! i = Some s → sg_demux s !! id = None →
  Request i m id flt p = (p', Ok h) → h = length (demuxes p) ∧ run [LRegister i id (flt id) true; LPush m] p = Some p'.
Proof.
  intros Hs Hd. unfold Request. rewrite Hs, Hd. simpl. destruct (step_register i id (flt id) true p) as [p1|]; [|done]. simpl.
  destruct (Send m p1) as [p2 [e|]]; [done|]. by intros [= <- <-].
Qed.

(** ** A request between the packets of others *)

Definition ex_exchange : list (res ClientStream) :=
  [Ok (ex_packet "8" "b" "x"); Ok (ex_packet "9" "a" "u"); Ok (ex_packet "9" "b" "y"); Ok (ex_packet "9" "b" "z")].
Definition ex_after : list label :=
  [LPush ex_request; LSend None; LRecv; LProcess; LRecv; LProcess; LStage 1; LRecv; LProcess; LStage 1; LAccept 1; LTake 0;
   LRecv; LProcess; LStage 0; LStage 1; LAccept 1].

(** The packets of the demultiplexer, and what is being handed to it. *)
Definition ex_view (p : pipeline) : option (list ClientStream * option (list ClientStream)) :=
  (λ d, (dm_taken d ++ dm_ch d, (λ s, accepting_for 0 (sg_pc s)) <$> stages p !! 1)) <$> demuxes p !! 0.

Lemma replies_complete_witness :
  ∃ p d, run (LRegister 1 "9" (FilterByBuildID "9") true :: ex_after) (NewPipeline ex_exchange ex_filters) = Some p ∧
    demuxes p !! 0 = Some d ∧ dm_taken d ++ dm_ch d = [ex_packet "9" "b" "y"; ex_packet "9" "b" "z"] ∧
    dm_taken d ++ dm_ch d `sublist_of` consumed p.
Proof.
  assert (H : ex_view <$> (step_register 1 "9" (FilterByBuildID "9") true (NewPipeline ex_exchange ex_filters) ≫= run ex_after) =
    Some (Some ([ex_packet "9" "b" "y"; ex_packet "9" "b" "z"], Some []))) by (vm_compute; reflexivity).
  destruct (step_register 1 "9" (FilterByBuildID "9") true (NewPipeline ex_exchange ex_filters)) as [p1|] eqn:E1; [|done].
  change (ex_view <$> run ex_after p1 = Some (Some ([ex_packet "9" "b" "y"; ex_packet "9" "b" "z"], Some []))) in H.
  destruct (run ex_after p1) as [p|] eqn:E2; [|done]. injection H as H. unfold ex_view in H.
  destruct (replies_complete 1 "9" (FilterByBuildID "9") 0 ex_exchange ex_filters [] _ _ true p1 ex_after p
    eq_refl eq_refl eq_refl (Forall_nil_2 _) E1 eq_refl E2) as (s & d & handled & Hs & Hd & Hf & Hg & _).
  exists p, d. rewrite Hd, Hs in H. simpl in H. injection H as H1 H2. rewrite H2, app_nil_r in Hg.
  split; [change (step_register 1 "9" (FilterByBuildID "9") true (NewPipeline ex_exchange ex_filters) ≫= run ex_after = Some p); by rewrite E1|].
  split; [done|]. split; [done|]. rewrite Hg.
  etrans; [apply list.sublist_filter|]. etrans; [|apply (list.sublist_filter (λ c, dispatch ex_filters c = Some 1))].
  rewrite Hf. by apply sublist_inserts_l, sublist_inserts_l, sublist_inserts_r.
Defined.
