(* ===== verification/Calls.v ===== *)
(** * Calls of [Request] over the pipeline

    The proxies call [Request] with an id of their own and wait for one packet.  Here any number
    of such calls run at once over one pipeline, with a host that answers each packet it gets,
    in any order and at any moment.  The system is a step system over the steps of [Stream.v];
    a call is a program counter.  The result is the specification that the proxies of
    [Content.v], [FsFile.v] and [Stdio.v] are written against: a call is an application of the
    host's function. *)

From S2P Require Import Prelude GoStrings Api Stream Exchange.

(** The host: what it answers to the content of a packet; the answer carries the packet's id. *)
Class Host := host_reply : option ServerPacket → option ClientPacket.

Definition answer `{Host} (m : ServerStream) : ClientStream :=
  {| c_BuildId := s_BuildId m; c_PacketType := host_reply (s_PacketType m) |}.

(** [Request] after the registration: in [Send], in [dm.Recv], or back with its result. *)
Inductive call_pc := CSend | CRecv | CDone (r : res ClientStream).

Record call := { ca_stage : nat; ca_msg : ServerStream; ca_pc : call_pc }.

Definition ca_id (c : call) : string := s_BuildId (ca_msg c).
Definition set_pc (pc : call_pc) (c : call) : call := {| ca_stage := ca_stage c; ca_msg := ca_msg c; ca_pc := pc |}.

(** The pipeline, the calls (the demultiplexer of a call has its index) and the packets the host
    has received and not answered. *)
Record net := { np : pipeline; calls : list call; todo : list ServerStream }.

Definition push_raw (r : res ClientStream) (p : pipeline) : pipeline :=
  {| raw := raw p ++ [r]; receiver := receiver p; stages := stages p; demuxes := demuxes p; sendCh := sendCh p;
     sender_done := sender_done p; cancelled := cancelled p; consumed := consumed p; sent := sent p; pushed := pushed p |}.

Inductive net_label :=
| NPipe (l : label)                       (* the receiver and the stages *)
| NWire                                   (* the sender hands a packet to the host *)
| NHost (k : nat)                         (* the host answers one of its packets *)
| NCall (i : nat) (m : ServerStream)      (* a proxy calls [Request] with a new id *)
| NSend (h : nat) | NRecv (h : nat) | NRecvErr (h : nat)
| NCancel (h : nat) (e : error).          (* the context of a call ends *)

Section calls.
Context {HO : Host}.

(** [Request] up to [RegisterDemux]: under a new id [demux.Load] finds nothing. *)
Definition n_call (i : nat) (m : ServerStream) (n : net) : option net :=
  if bool_decide (s_BuildId m ∈ ca_id <$> calls n) then None
  else p ← step_register i (s_BuildId m) (FilterByBuildID (s_BuildId m)) true (np n);
       Some {| np := p; calls := calls n ++ [{| ca_stage := i; ca_msg := m; ca_pc := CSend |}]; todo := todo n |}.

(** [b.Send(s)], and [b.demux.Delete(id)] when it fails. *)
Definition n_send (h : nat) (n : net) : option net :=
  c ← calls n !! h;
  match ca_pc c with
  | CSend =>
      match Send (ca_msg c) (np n) with
      | (p, None) => Some {| np := p; calls := <[h := set_pc CRecv c]> (calls n); todo := todo n |}
      | (p, Some e) =>
          p ← step_delete (ca_stage c) (ca_id c) p;
          Some {| np := p; calls := <[h := set_pc (CDone (Err e)) c]> (calls n); todo := todo n |}
      end
  | _ => None
  end.

(** [dm.Recv()], its two cases. *)
Definition n_recv (h : nat) (n : net) : option net :=
  c ← calls n !! h;
  d ← demuxes (np n) !! h;
  match ca_pc c, dm_ch d with
  | CRecv, x :: _ =>
      p ← step_take h (np n);
      Some {| np := p; calls := <[h := set_pc (CDone (Ok x)) c]> (calls n); todo := todo n |}
  | _, _ => None
  end.

Definition n_recv_err (h : nat) (n : net) : option net :=
  c ← calls n !! h;
  d ← demuxes (np n) !! h;
  match ca_pc c, dm_err d with
  | CRecv, Some e =>
      p ← step_take_err h (np n);
      Some {| np := p; calls := <[h := set_pc (CDone (Err e)) c]> (calls n); todo := todo n |}
  | _, _ => None
  end.

Definition nstep (l : net_label) (n : net) : option net :=
  match l with
  | NPipe l => if moves l then p ← step l (np n); Some {| np := p; calls := calls n; todo := todo n |} else None
  | NWire =>
      m ← head (sendCh (np n));
      p ← step_send None (np n);
      Some {| np := p; calls := calls n; todo := todo n ++ [m] |}
  | NHost k =>
      m ← todo n !! k;
      Some {| np := push_raw (Ok (answer m)) (np n); calls := calls n; todo := delete k (todo n) |}
  | NCall i m => n_call i m n
  | NSend h => n_send h n
  | NRecv h => n_recv h n
  | NRecvErr h => n_recv_err h n
  | NCancel h e => p ← step_close h e (np n); Some {| np := p; calls := calls n; todo := todo n |}
  end.

Fixpoint nrun (ls : list net_label) (n : net) : option net :=
  match ls with [] => Some n | l :: ls => n' ← nstep l n; nrun ls n' end.

Definition ninit (filters : list FilterFn) : net := {| np := NewPipeline [] filters; calls := []; todo := [] |}.

(** ** The invariant *)

Definition owns (c : call) (d : demux) : Prop :=
  dm_owner d = ca_stage c ∧ dm_id d = ca_id c ∧ dm_filter d = FilterByBuildID (ca_id c).

(** What a call has received, and why it may have failed. *)
Definition call_ok (c : call) (d : demux) : Prop :=
  owns c d ∧
  match ca_pc c with
  | CSend | CRecv => dm_taken d = []
  | CDone (Ok x) => dm_taken d = [x]
  | CDone (Err e) => dm_taken d = [] ∧ (e = ErrSendStreamBlocked ∨ dm_err d = Some e)
  end.

Definition failed (c : call) : bool := match ca_pc c with CDone (Err _) => true | _ => false end.

(** The pipeline is in order, and nothing of it stops: the stream brings no error, nobody
    cancels. *)
Record sound (filters : list FilterFn) (p : pipeline) : Prop := {
  so_flow : flow filters p;
  so_caps : caps p;
  so_wired : wired p;
  so_range : in_range p;
  so_raw : Forall (λ r, is_ok r = true) (raw p);
  so_recv : receiver p ≠ RDone;
  so_sender : sender_done p = false;
  so_stages : Forall (λ s, sg_pc s ≠ SStopped) (stages p);
}.

(** The calls have distinct ids, and each has sent its packet at most once. *)
Record calls_ok (n : net) : Prop := {
  co_calls : Forall2 call_ok (calls n) (demuxes (np n));
  co_ids : NoDup (ca_id <$> calls n);
  co_pushed : ∀ m, m ∈ pushed (np n) → ∃ c, c ∈ calls n ∧ ca_msg c = m ∧ ca_pc c ≠ CSend;
  co_asked : ∀ c, c ∈ calls n → ca_pc c = CRecv → ca_msg c ∈ pushed (np n);
  co_once : NoDup (s_BuildId <$> pushed (np n));
}.

Record net_ok (filters : list FilterFn) (n : net) : Prop := {
  no_sound : sound filters (np n);
  no_calls : calls_ok n;
  (* what the host has sent or will send *)
  no_host : answer <$> sent (np n) ≡ₚ consumed (np n) ++ omap ok_of (raw (np n)) ++ (answer <$> todo n);
  (* a call that waits, or has been answered, still listens *)
  no_listen : ∀ h c d, calls n !! h = Some c → demuxes (np n) !! h = Some d → dm_err d = None → failed c = false →
    ∃ seen, listening (ca_stage c) (ca_id c) (FilterByBuildID (ca_id c)) h seen (np n) ∧ Forall (λ x, c_BuildId x ≠ ca_id c) seen;
}.

(** ** The pipeline under the calls *)

(** The steps of the pipeline that calls take. *)
Definition calm (l : label) : bool :=
  match l with LSend (Some _) | LSendStop | LStop _ | LCancel => false | _ => true end.

(** A step of the system is a step of the pipeline, or the host's. *)
Definition pipe_label (l : net_label) (n : net) : option label :=
  match l with
  | NPipe l => Some l
  | NWire => Some (LSend None)
  | NHost _ => None
  | NCall i m => Some (LRegister i (s_BuildId m) (FilterByBuildID (s_BuildId m)) true)
  | NSend h =>
      c ← calls n !! h;
      Some (match Send (ca_msg c) (np n) with (_, None) => LPush (ca_msg c) | _ => LDelete (ca_stage c) (ca_id c) end)
  | NRecv h => Some (LTake h)
  | NRecvErr h => Some (LTakeErr h)
  | NCancel h e => Some (LClose h e)
  end.

Lemma Send_full m p p' e : Send m p = (p', Some e) → p' = p ∧ e = ErrSendStreamBlocked.
Proof. unfold Send. case_bool_decide; [done|]. by intros [= <- <-]. Qed.

Lemma moves_calm l : moves l = true → calm l = true.
Proof. by destruct l as [| |[]| | | | | | | | | | | |]. Qed.

Lemma nstep_pipe l n n' : nstep l n = Some n' →
  match pipe_label l n with
  | Some pl => calm pl = true ∧ step pl (np n) = Some (np n')
  | None => ∃ k m, l = NHost k ∧ todo n !! k = Some m ∧ n' = {| np := push_raw (Ok (answer m)) (np n); calls := calls n; todo := delete k (todo n) |}
  end.
Proof.
  destruct l as [l| |k|i m|h|h|h|h e]; simpl.
  - destruct (moves l) eqn:Hm; [|done]. destruct (step l (np n)) as [p|]; [|done]. intros [= <-]. by split; [apply moves_calm|].
  - destruct (head (sendCh (np n))); [|done]. simpl. destruct (step_send None (np n)); [|done]. by intros [= <-].
  - destruct (todo n !! k) as [m|] eqn:Hk; [|done]. intros [= <-]. eauto.
  - unfold n_call. case_bool_decide; [done|]. destruct (step_register _ _ _ _ _); [|done]. by intros [= <-].
  - unfold n_send. destruct (calls n !! h) as [c|]; [|done]. simpl. destruct (ca_pc c); [|done..].
    destruct (Send (ca_msg c) (np n)) as [p [e|]] eqn:Es.
    + apply Send_full in Es as [-> ->]. destruct (step_delete _ _ _) as [p1|] eqn:Ed; [|done]. by intros [= <-].
    + intros [= <-]. simpl. by rewrite Es.
  - unfold n_recv. destruct (calls n !! h) as [c|]; [|done]. simpl. destruct (demuxes (np n) !! h) as [d|]; [|done]. simpl.
    destruct (ca_pc c); try done. destruct (dm_ch d); [done|]. destruct (step_take h (np n)); [|done]. by intros [= <-].
  - unfold n_recv_err. destruct (calls n !! h) as [c|]; [|done]. simpl. destruct (demuxes (np n) !! h) as [d|]; [|done]. simpl.
    destruct (ca_pc c); try done. destruct (dm_err d); [|done]. destruct (step_take_err h (np n)); [|done]. by intros [= <-].
  - destruct (step_close h e (np n)); [|done]. by intros [= <-].
Qed.

Lemma running_insert i s s' (l : list stage) : Forall (λ s, sg_pc s ≠ SStopped) l → l !! i = Some s →
  (sg_pc s ≠ SStopped → sg_pc s' ≠ SStopped) → Forall (λ s, sg_pc s ≠ SStopped) (<[i := s']> l).
Proof. intros Hl Hi Hs. apply Forall_insert; [done|]. rewrite Forall_lookup in Hl. apply Hs. by eapply Hl. Qed.

Lemma running_closeFn d l : Forall (λ s, sg_pc s ≠ SStopped) l → Forall (λ s, sg_pc s ≠ SStopped) (run_closeFn d l).
Proof. intros Hl. unfold run_closeFn. destruct (dm_deletes d); [|done]. by apply Forall_alter. Qed.

Lemma running_step l p p' : calm l = true → Forall (λ s, sg_pc s ≠ SStopped) (stages p) → step l p = Some p' →
  Forall (λ s, sg_pc s ≠ SStopped) (stages p').
Proof.
  intros Hc Hl Hs. destruct l; try done; simpl in Hs.
  - unfold step_recv in Hs. repeat case_match; by simplify_eq.
  - unfold step_process in Hs. destruct (receiver p); try done. open_step Hs. case_bool_decide; [|done]. injection Hs as <-.
    by eapply running_insert.
  - unfold step_send in Hs. repeat case_match; by simplify_eq.
  - unfold step_stage in Hs. open_step Hs. destruct (sg_pc s) eqn:Ep; [|done..]. destruct (sg_recvCh s) as [|c rest]; [done|].
    injection Hs as <-. eapply running_insert; [done|done|]. intros _. unfold handle. simpl. repeat case_match; simpl; congruence.
  - unfold step_accept in Hs. open_step Hs. destruct (sg_pc s); try done. open_step Hs. case_bool_decide; [|done]. injection Hs as <-.
    by eapply running_insert.
  - unfold step_refuse in Hs. open_step Hs. destruct (sg_pc s); try done. open_step Hs. destruct (dm_err d); [|done]. injection Hs as <-.
    apply running_closeFn. by eapply running_insert.
  - unfold step_register in Hs. open_step Hs. injection Hs as <-. by eapply running_insert.
  - unfold step_delete in Hs. open_step Hs. injection Hs as <-. by eapply running_insert.
  - unfold step_take in Hs. open_step Hs. destruct (dm_ch d); by simplify_eq.
  - unfold step_take_err in Hs. open_step Hs. destruct (dm_err d); [|done]. injection Hs as <-. by apply running_closeFn.
  - unfold step_close in Hs. open_step Hs. destruct (dm_err d); by simplify_eq.
  - injection Hs as <-. unfold Send. by case_bool_decide.
Qed.

(** The receiver and the sender go on. *)
Lemma alive_step l p p' : calm l = true → step l p = Some p' → Forall (λ r, is_ok r = true) (raw p) → receiver p ≠ RDone → sender_done p = false →
  Forall (λ r, is_ok r = true) (raw p') ∧ receiver p' ≠ RDone ∧ sender_done p' = false.
Proof.
  intros Hc Hs Hr Hv Hd. assert (E : sender_done p' = false).
  { destruct l as [| |[]| | | | | | | | | | | |]; try done; simpl in Hs;
      unfold step_recv, step_process, step_send, step_stage, step_accept, step_refuse, step_register, step_delete,
        step_take, step_take_err, step_close, mbind, option_bind, Send in Hs; rewrite ?Hd in Hs;
      repeat match type of Hs with context [match ?x with _ => _ end] => destruct x; try discriminate Hs end; by injection Hs as <-. }
  split_and!; [..|done]; (destruct l; [| |edestruct (stages_step_flow _ _ _ Hs) as (_ & _ & E1 & E2); [done..|]; by rewrite ?E1, ?E2..]); simpl in Hs.
  - unfold step_recv in Hs. destruct (receiver p); try done. destruct (raw p) as [|[c|] rest]; try done; injection Hs as <-; by inversion Hr.
  - unfold step_process in Hs. destruct (receiver p); try done. open_step Hs. case_bool_decide; by simplify_eq.
  - unfold step_recv in Hs. destruct (receiver p); try done. destruct (raw p) as [|[c|] rest]; try done; injection Hs as <-; simpl.
    + by destruct (dispatch _ _).
    + by inversion Hr.
  - unfold step_process in Hs. destruct (receiver p); try done. open_step Hs. case_bool_decide; by simplify_eq.
Qed.

Lemma sound_step filters l p p' : calm l = true → sound filters p → step l p = Some p' → sound filters p'.
Proof.
  intros Hc [S1 S2 S3 S4 S5 S6 S7 S8] Hs. destruct (alive_step l p p' Hc Hs S5 S6 S7) as (A1 & A2 & A3).
  split; [by eapply flow_step|by eapply caps_step|by eapply wired_step|by eapply in_range_step|done..|by eapply running_step].
Qed.

Lemma sound_push filters c p : sound filters p → sound filters (push_raw (Ok c) p).
Proof.
  intros [S1 S2 [W1 W2 W3 W4] S4 S5 S6 S7 S8]. split; try done. simpl. apply Forall_app. split; [done|by apply Forall_singleton].
Qed.

Lemma sound_nstep filters l n n' : sound filters (np n) → nstep l n = Some n' → sound filters (np n').
Proof.
  intros Hs Hn. apply nstep_pipe in Hn. destruct (pipe_label l n) as [pl|].
  - destruct Hn as [Hc Hn]. by eapply sound_step.
  - destruct Hn as (k & m & _ & _ & ->). by apply sound_push.
Qed.

(** ** The host *)

Lemma host_nstep filters l n n' : net_ok filters n → nstep l n = Some n' →
  answer <$> sent (np n') ≡ₚ consumed (np n') ++ omap ok_of (raw (np n')) ++ (answer <$> todo n').
Proof.
  intros Hok Hn. pose proof (no_host _ _ Hok) as Hh. pose proof (nstep_pipe _ _ _ Hn) as Hp.
  assert (Hsame : ∀ pl, step pl (np n) = Some (np n') → sent (np n') = sent (np n) → todo n' = todo n →
    answer <$> sent (np n') ≡ₚ consumed (np n') ++ omap ok_of (raw (np n')) ++ (answer <$> todo n')).
  { intros pl Hs -> ->. rewrite Hh, !app_assoc. by rewrite (raw_step _ _ _ Hs). }
  destruct l as [l| |k|i m|h|h|h|h e]; simpl in Hn; cbn [pipe_label] in Hp.
  - destruct (moves l) eqn:Hm; [|done]. destruct (step l (np n)) as [p|] eqn:Hs; [|done]. injection Hn as <-. cbn [np todo] in *.
    apply (Hsame l); [done| |done]. by apply (send_kept l); [done|destruct l..].
  - unfold step_send in Hn. rewrite (so_sender _ _ (no_sound _ _ Hok)) in Hn. destruct (sendCh (np n)) as [|m rest]; [done|].
    injection Hn as <-. simpl. rewrite !fmap_app, Hh. simpl. by rewrite <-!app_assoc.
  - destruct (todo n !! k) as [m|] eqn:Hk; [|done]. injection Hn as <-. simpl. rewrite Hh, omap_app. simpl. rewrite <-!app_assoc.
    do 2 f_equiv. simpl. change (answer m :: (answer <$> delete k (todo n))) with (answer <$> (m :: delete k (todo n))).
    f_equiv. by apply delete_Permutation.
  - destruct Hp as [_ Hp]. apply (Hsame _ Hp); [by apply (send_kept _ _ _ Hp)|]. unfold n_call in Hn.
    case_bool_decide; [done|]. destruct (step_register _ _ _ _ _); [|done]. by injection Hn as <-.
  - unfold n_send in Hn. destruct (calls n !! h) as [c|]; [|done]. simpl in Hn. cbn [mbind option_bind] in Hp.
    destruct Hp as [_ Hp]. apply (Hsame _ Hp).
    + destruct (Send (ca_msg c) (np n)) as [p [e|]] eqn:Es; [by apply (send_kept _ _ _ Hp)|].
      simpl in Hp. injection Hp as <-. unfold Send. by case_bool_decide.
    + destruct (ca_pc c); [|done..]. destruct (Send _ _) as [p [e|]]; [|by injection Hn as <-].
      destruct (step_delete _ _ _); [|done]. by injection Hn as <-.
  - destruct Hp as [_ Hp]. apply (Hsame _ Hp); [by apply (send_kept _ _ _ Hp)|]. unfold n_recv in Hn. simpl in Hn.
    unfold mbind, option_bind in Hn. repeat case_match; by simplify_eq/=.
  - destruct Hp as [_ Hp]. apply (Hsame _ Hp); [by apply (send_kept _ _ _ Hp)|]. unfold n_recv_err in Hn. simpl in Hn.
    unfold mbind, option_bind in Hn. repeat case_match; by simplify_eq/=.
  - destruct Hp as [_ Hp]. apply (Hsame _ Hp); [by apply (send_kept _ _ _ Hp)|]. destruct (step_close _ _ _); [|done]. by injection Hn as <-.
Qed.

(** ** The calls *)

Lemma same_call (l : list call) c c' : NoDup (ca_id <$> l) → c ∈ l → c' ∈ l → ca_id c = ca_id c' → c = c'.
Proof.
  intros Hn [j Hj]%list_elem_of_lookup_1 [k Hk]%list_elem_of_lookup_1 E.
  assert (j = k); [|subst; congruence]. eapply (NoDup_lookup _ j k (ca_id c) Hn); rewrite list_lookup_fmap.
  - by rewrite Hj.
  - by rewrite Hk, E.
Qed.

(** The step of a call moves its program counter. *)
Lemma calls_set n h c pc p' td : calls_ok n → calls n !! h = Some c → pc ≠ CSend →
  Forall2 call_ok (<[h := set_pc pc c]> (calls n)) (demuxes p') →
  (pushed p' = pushed (np n) ∧ pc ≠ CRecv) ∨ (pushed p' = pushed (np n) ++ [ca_msg c] ∧ ca_pc c = CSend) →
  calls_ok {| np := p'; calls := <[h := set_pc pc c]> (calls n); todo := td |}.
Proof.
  intros [C1 C2 C3 C4 C5] Hc Hpc HF Hp. assert (Hlt : h < length (calls n)) by (by eapply lookup_lt_Some).
  assert (Hin : c ∈ calls n) by (by eapply list_elem_of_lookup_2).
  assert (Hnew : set_pc pc c ∈ <[h := set_pc pc c]> (calls n)) by (eapply list_elem_of_lookup_2; by apply list_lookup_insert_eq).
  assert (Hkeep : ∀ m, m ∈ pushed (np n) → ∃ c', c' ∈ <[h := set_pc pc c]> (calls n) ∧ ca_msg c' = m ∧ ca_pc c' ≠ CSend).
  { intros m (c' & [k Hk]%list_elem_of_lookup_1 & Em & Ep)%C3. destruct (decide (h = k)) as [<-|Hne].
    - exists (set_pc pc c). split; [done|]. simplify_eq. done.
    - exists c'. split; [|done]. eapply list_elem_of_lookup_2. by rewrite list_lookup_insert_ne. }
  split; simpl; [done| |..].
  - rewrite list_fmap_insert. rewrite list_insert_id; [done|]. by rewrite list_lookup_fmap, Hc.
  - destruct Hp as [[-> _]|[-> _]]; [done|]. intros m [Hm|Hm]%elem_of_app; [by apply Hkeep|].
    apply list_elem_of_singleton in Hm as ->. by exists (set_pc pc c).
  - intros x Hx Ex. assert (Hsub : x ∈ calls n ∨ x = set_pc pc c).
    { apply list_elem_of_lookup_1 in Hx as [k Hk]. destruct (decide (h = k)) as [<-|Hne].
      - rewrite list_lookup_insert_eq in Hk by done. right. congruence.
      - rewrite list_lookup_insert_ne in Hk by done. left. by eapply list_elem_of_lookup_2. }
    destruct Hp as [[-> Hr]|[-> Hr]]; destruct Hsub as [Hs| ->].
    + by apply C4.
    + by destruct Hr.
    + apply elem_of_app. left. by apply C4.
    + apply elem_of_app. right. by apply list_elem_of_singleton.
  - destruct Hp as [[-> _]|[-> Hr]]; [done|]. rewrite fmap_app. apply NoDup_app. split; [done|]. split; [|by apply NoDup_singleton].
    simpl. intros x (m & -> & Hm)%list_elem_of_fmap Hx. apply list_elem_of_singleton in Hx. destruct (C3 m Hm) as (c' & Hc' & <- & Ep).
    rewrite (same_call (calls n) c' c) in Ep; [done|done|done|done|done].
Qed.

(** A step that leaves the calls alone changes a demultiplexer at most in its queue. *)
Lemma calls_same n p' td : calls_ok n → pushed p' = pushed (np n) → Forall2 call_ok (calls n) (demuxes p') →
  calls_ok {| np := p'; calls := calls n; todo := td |}.
Proof. intros [C1 C2 C3 C4 C5] Hp HF. split; simpl; rewrite ?Hp; done. Qed.

Lemma Forall2_insert_2 {A B} (R : A → B → Prop) l k h d d' : Forall2 R l k → k !! h = Some d → (∀ x, R x d → R x d') → Forall2 R l (<[h := d']> k).
Proof.
  intros HF Hd Hk. destruct (Forall2_lookup_r _ _ _ _ _ HF Hd) as (x & Hx & Hr). rewrite <-(list_insert_id l h x Hx).
  apply Forall2_insert; [done|auto].
Qed.

Lemma moves_demuxes l p p' : moves l = true → step l p = Some p' →
  demuxes p' = demuxes p ∨ ∃ h d ch, demuxes p !! h = Some d ∧ demuxes p' = <[h := dm_set_ch ch d]> (demuxes p).
Proof.
  intros Hm Hs. destruct l; try done; simpl in Hs.
  - unfold step_recv in Hs. repeat case_match; simplify_eq; by left.
  - unfold step_process in Hs. destruct (receiver p); try done. open_step Hs. case_bool_decide; simplify_eq. by left.
  - unfold step_stage in Hs. open_step Hs. repeat case_match; simplify_eq; by left.
  - unfold step_accept in Hs. open_step Hs. destruct (sg_pc s) as [|h c|]; try done. destruct (demuxes p !! h) as [d|] eqn:Ed; [|done].
    simpl in Hs. case_bool_decide; [|done]. injection Hs as <-. right. eauto.
  - unfold step_refuse in Hs. open_step Hs. destruct (sg_pc s); try done. open_step Hs. destruct (dm_err d); simplify_eq/=. by left.
Qed.

Lemma calls_call filters i m n n' : net_ok filters n → n_call i m n = Some n' → calls_ok n'.
Proof.
  intros Hok. pose proof (no_calls _ _ Hok) as [C1 C2 C3 C4 C5]. unfold n_call. case_bool_decide as Hf; [done|].
  destruct (step_register _ _ _ _ _) as [p|] eqn:Hs; [|done]. intros [= <-].
  assert (Ep : pushed p = pushed (np n) ∧ demuxes p = demuxes (np n) ++ [NewDemuxWithContext i (s_BuildId m) (FilterByBuildID (s_BuildId m)) true]).
  { unfold step_register in Hs. open_step Hs. by injection Hs as <-. }
  destruct Ep as [Ep Ed]. split; simpl; rewrite ?Ep, ?Ed.
  - apply Forall2_app; [done|]. by repeat constructor.
  - rewrite fmap_app. apply NoDup_app. split; [done|]. split; [|by apply NoDup_singleton].
    simpl. intros x Hx ->%list_elem_of_singleton. done.
  - intros m' (c & Hc & E)%C3. exists c. split; [|done]. apply elem_of_app. by left.
  - intros c [Hc|Hc]%elem_of_app; [by apply C4|]. apply list_elem_of_singleton in Hc as ->. done.
  - done.
Qed.

Lemma calls_send filters h n n' : net_ok filters n → n_send h n = Some n' → calls_ok n'.
Proof.
  intros Hok. pose proof (no_calls _ _ Hok) as Hco. unfold n_send. destruct (calls n !! h) as [c|] eqn:Hc; [|done]. simpl.
  destruct (ca_pc c) eqn:Epc; [|done..]. destruct (Forall2_lookup_l _ _ _ _ _ (co_calls _ Hco) Hc) as (d & Hd & Ho & Ht). rewrite Epc in Ht.
  assert (HF : ∀ pc, match pc with CSend | CRecv => True | CDone (Ok _) => False | CDone (Err e) => e = ErrSendStreamBlocked end →
    Forall2 call_ok (<[h := set_pc pc c]> (calls n)) (demuxes (np n))).
  { intros pc Hpc. rewrite <-(list_insert_id (demuxes (np n)) h d Hd). apply Forall2_insert; [apply Hco|].
    split; [done|]. simpl. destruct pc as [| |[]]; naive_solver. }
  destruct (Send (ca_msg c) (np n)) as [p [e|]] eqn:Es.
  - apply Send_full in Es as [-> ->]. unfold step_delete. destruct (stages (np n) !! ca_stage c) as [s|]; [|done]. simpl. intros [= <-].
    eapply calls_set; [done|done|done|by apply HF|by left].
  - unfold Send in Es. case_bool_decide; [|done]. injection Es as <-. intros [= <-].
    eapply calls_set; [done|done|done|by apply HF|by right].
Qed.

Lemma calls_recv filters h n n' : net_ok filters n → n_recv h n = Some n' ∨ n_recv_err h n = Some n' → calls_ok n'.
Proof.
  intros Hok Hn. pose proof (no_calls _ _ Hok) as Hco. unfold n_recv, n_recv_err in Hn.
  destruct (calls n !! h) as [c|] eqn:Hc; [|by destruct Hn]. simpl in Hn.
  destruct (demuxes (np n) !! h) as [d|] eqn:Hd; [|by destruct Hn]. simpl in Hn.
  destruct (Forall2_lookup_l _ _ _ _ _ (co_calls _ Hco) Hc) as (d' & Hd' & Ho & Ht). rewrite Hd in Hd'. injection Hd' as <-.
  destruct (ca_pc c) eqn:Epc; [by destruct Hn| |by destruct Hn]. destruct Hn as [Hn|Hn].
  - destruct (dm_ch d) as [|x rest] eqn:Ex; [done|]. unfold step_take in Hn. rewrite Hd in Hn. simpl in Hn. rewrite Ex in Hn.
    injection Hn as <-. eapply calls_set; [done|done|done| |by left]. simpl. apply Forall2_insert; [apply Hco|].
    split; [done|]. simpl. by rewrite Ht.
  - destruct (dm_err d) as [e|] eqn:Ee; [|done]. unfold step_take_err in Hn. rewrite Hd in Hn. simpl in Hn. rewrite Ee in Hn.
    injection Hn as <-. eapply calls_set; [done|done|done| |by left]. simpl.
    rewrite <-(list_insert_id (demuxes (np n)) h d Hd). apply Forall2_insert; [apply Hco|]. split; [done|]. simpl. auto.
Qed.

Lemma calls_nstep filters l n n' : net_ok filters n → nstep l n = Some n' → calls_ok n'.
Proof.
  intros Hok Hn. pose proof (no_calls _ _ Hok) as Hco. pose proof (co_calls _ Hco) as HF. destruct l as [l| |k|i m|h|h|h|h e]; simpl in Hn.
  - destruct (moves l) eqn:Hm; [|done]. destruct (step l (np n)) as [p|] eqn:Hs; [|done]. injection Hn as <-.
    apply calls_same; [done|by apply (send_kept l); [done|destruct l..]|].
    destruct (moves_demuxes l _ _ Hm Hs) as [->|(h & d & ch & Hd & ->)]; [done|].
    by eapply Forall2_insert_2.
  - unfold step_send in Hn. rewrite (so_sender _ _ (no_sound _ _ Hok)) in Hn. destruct (sendCh (np n)) as [|m rest]; [done|].
    injection Hn as <-. by apply calls_same.
  - destruct (todo n !! k) as [m|]; [|done]. injection Hn as <-. by apply calls_same.
  - by eapply calls_call.
  - by eapply calls_send.
  - eapply calls_recv; [done|by left].
  - eapply calls_recv; [done|by right].
  - destruct (step_close h e (np n)) as [p|] eqn:Hs; [|done]. injection Hn as <-.
    apply calls_same; [done|by apply (send_kept (LClose h e))|]. unfold step_close in Hs.
    destruct (demuxes (np n) !! h) as [d|] eqn:Hd; [|done]. simpl in Hs. destruct (dm_err d) eqn:Ee; [done|]. injection Hs as <-.
    eapply Forall2_insert_2; [done|done|]. intros c [Ho Ht]. split; [done|]. simpl. destruct (ca_pc c) as [| |[x|e']]; try done.
    destruct Ht as [? [?|?]]; [auto|congruence].
Qed.

(** ** Listening *)

(** A context that has ended stays so, and a call that has failed. *)
Lemma err_mono l p p' h d : step l p = Some p' → demuxes p' !! h = Some d → dm_err d = None → h < length (demuxes p) →
  ∃ d0, demuxes p !! h = Some d0 ∧ dm_err d0 = None.
Proof.
  intros Hs Hd He Hlt. assert (Hsame : demuxes p' = demuxes p → ∃ d0, demuxes p !! h = Some d0 ∧ dm_err d0 = None).
  { intros E. rewrite E in Hd. eauto. }
  assert (Hins : ∀ k x x', demuxes p !! k = Some x → demuxes p' = <[k := x']> (demuxes p) → (dm_err x' = None → dm_err x = None) →
    ∃ d0, demuxes p !! h = Some d0 ∧ dm_err d0 = None).
  { intros k x x' Hx E Hk. rewrite E in Hd. destruct (decide (k = h)) as [->|Hne].
    - rewrite list_lookup_insert_eq in Hd by done. injection Hd as <-. eauto.
    - rewrite list_lookup_insert_ne in Hd by done. eauto. }
  destruct (moves l) eqn:Hm.
  { destruct (moves_demuxes l _ _ Hm Hs) as [?|(k & x & ch & Hx & E)]; [by apply Hsame|by eapply Hins]. }
  destruct l; try done; simpl in Hs.
  - unfold step_send in Hs. apply Hsame. repeat case_match; by simplify_eq.
  - unfold step_send_stop in Hs. apply Hsame. repeat case_match; by simplify_eq.
  - unfold step_stop in Hs. open_step Hs. apply Hsame. repeat case_match; by simplify_eq.
  - unfold step_register in Hs. open_step Hs. injection Hs as <-. simpl in Hd. rewrite lookup_app_l in Hd by done. eauto.
  - unfold step_delete in Hs. open_step Hs. apply Hsame. by injection Hs as <-.
  - unfold step_take in Hs. destruct (demuxes p !! h0) as [x|] eqn:Hx; [|done]. simpl in Hs. destruct (dm_ch x); [done|].
    injection Hs as <-. by eapply Hins.
  - unfold step_take_err in Hs. apply Hsame. open_step Hs. destruct (dm_err d0); by simplify_eq.
  - unfold step_close in Hs. destruct (demuxes p !! h0) as [x|] eqn:Hx; [|done]. simpl in Hs. destruct (dm_err x) eqn:Ex; [done|].
    injection Hs as <-. by eapply Hins.
  - apply Hsame. injection Hs as <-. unfold Send. by case_bool_decide.
  - apply Hsame. by injection Hs as <-.
Qed.

Lemma calls_mono l n n' h c : nstep l n = Some n' → calls n' !! h = Some c → h < length (calls n) →
  ∃ c0, calls n !! h = Some c0 ∧ ca_msg c0 = ca_msg c ∧ ca_stage c0 = ca_stage c ∧ (failed c = false → failed c0 = false).
Proof.
  intros Hn Hc Hlt. assert (Hset : ∀ k x pc, calls n !! k = Some x → failed x = false → calls n' = <[k := set_pc pc x]> (calls n) →
    ∃ c0, calls n !! h = Some c0 ∧ ca_msg c0 = ca_msg c ∧ ca_stage c0 = ca_stage c ∧ (failed c = false → failed c0 = false)).
  { intros k x pc Hx Hf E. rewrite E in Hc. destruct (decide (k = h)) as [->|Hne].
    - rewrite list_lookup_insert_eq in Hc by done. injection Hc as <-. by exists x.
    - rewrite list_lookup_insert_ne in Hc by done. by exists c. }
  destruct l as [l| |k|i m|k|k|k|k e]; simpl in Hn; unfold n_call, n_send, n_recv, n_recv_err, mbind, option_bind in Hn.
  - exists c. by repeat case_match; simplify_eq/=.
  - exists c. by repeat case_match; simplify_eq/=.
  - exists c. by repeat case_match; simplify_eq/=.
  - exists c. repeat case_match; simplify_eq/=. by rewrite lookup_app_l in Hc.
  - destruct (calls n !! k) as [x|] eqn:Hx; [|done]. destruct (ca_pc x) eqn:Ex; [|done..].
    assert (Hf : failed x = false) by (unfold failed; by rewrite Ex). repeat case_match; simplify_eq/=; by eapply (Hset k x).
  - destruct (calls n !! k) as [x|] eqn:Hx; [|done]. destruct (demuxes (np n) !! k); [|done]. destruct (ca_pc x) eqn:Ex; [done| |done].
    assert (Hf : failed x = false) by (unfold failed; by rewrite Ex). repeat case_match; simplify_eq/=; by eapply (Hset k x).
  - destruct (calls n !! k) as [x|] eqn:Hx; [|done]. destruct (demuxes (np n) !! k); [|done]. destruct (ca_pc x) eqn:Ex; [done| |done].
    assert (Hf : failed x = false) by (unfold failed; by rewrite Ex). repeat case_match; simplify_eq/=; by eapply (Hset k x).
  - exists c. by repeat case_match; simplify_eq/=.
Qed.

(** Whatever came from the host answers a packet of a call. *)
Lemma from_host filters n x : net_ok filters n → x ∈ consumed (np n) → ∃ c, c ∈ calls n ∧ x = answer (ca_msg c) ∧ ca_pc c ≠ CSend.
Proof.
  intros Hok Hx. assert (Hin : x ∈ answer <$> sent (np n)) by (rewrite (no_host _ _ Hok); apply elem_of_app; by left).
  apply list_elem_of_fmap in Hin as (m & -> & Hm). destruct (so_caps _ _ (no_sound _ _ Hok)) as (_ & _ & _ & Ep).
  destruct (co_pushed _ (no_calls _ _ Hok) m) as (c & Hc & Em & Epc); [rewrite <-Ep; apply elem_of_app; by left|].
  exists c. by rewrite Em.
Qed.

(** What a stage has looked up came from the host. *)
Lemma looked_up filters p i s x : flow filters p → stages p !! i = Some s → x ∈ (sg_log s).*1 ++ accepting (sg_pc s) →
  x ∈ consumed p ∧ dispatch filters x = Some i.
Proof.
  intros [_ Hf] Hs Hx. cut (x ∈ filter (λ c, dispatch filters c = Some i) (consumed p)); [intros [? ?]%list_elem_of_filter; done|].
  rewrite (Hf i s Hs), app_assoc. apply elem_of_app. by left.
Qed.

(** A new call starts to listen before its packet is sent. *)
Lemma listen_call filters i m n n' : net_ok filters n → n_call i m n = Some n' →
  ∃ seen, listening i (s_BuildId m) (FilterByBuildID (s_BuildId m)) (length (calls n)) seen (np n') ∧ Forall (λ x, c_BuildId x ≠ s_BuildId m) seen.
Proof.
  intros Hok Hn. unfold n_call in Hn. case_bool_decide as Hf; [done|]. pose proof (no_sound _ _ Hok) as Hso.
  destruct (step_register _ _ _ _ _) as [p|] eqn:Hs; [|done]. injection Hn as <-.
  destruct (stages (np n) !! i) as [s|] eqn:Hi; [|by unfold step_register in Hs; rewrite Hi in Hs].
  exists ((sg_log s).*1 ++ accepting (sg_pc s)). split.
  - eapply (listening_register _ _ _ _ (np n) s true); [apply Hso|done|by eapply Forall2_length, no_calls| |done].
    apply Forall_lookup. intros h d Hd [_ E]. destruct (Forall2_lookup_r _ _ _ _ _ (co_calls _ (no_calls _ _ Hok)) Hd) as (c & Hc & (_ & Ei & _) & _).
    apply Hf. rewrite <-E, Ei. apply list_elem_of_fmap. exists c. split; [done|by eapply list_elem_of_lookup_2].
  - apply Forall_forall. intros x Hx. destruct (looked_up _ _ _ _ _ (so_flow _ _ Hso) Hi Hx) as [Hc _].
    destruct (from_host _ _ _ Hok Hc) as (c & Hin & -> & _). intros E. apply Hf, list_elem_of_fmap. by exists c.
Qed.

(** No step touches the registration of another call. *)
Lemma nstep_undisturbed filters l n n' pl h c : net_ok filters n → nstep l n = Some n' → pipe_label l n = Some pl →
  calls n !! h = Some c → (∀ e, l = NCancel h e → False) → (∀ p e, l = NSend h → Send (ca_msg c) (np n) = (p, Some e) → False) →
  undisturbed (ca_stage c) (ca_id c) h pl = true.
Proof.
  intros Hok Hn Hpl Hc Hcan Hfail. destruct l as [l| |k|i m|k|k|k|k e]; simpl in Hn, Hpl; try (injection Hpl as <-); try done.
  - destruct (moves l) eqn:Hm; [|done]. by destruct l.
  - unfold n_call in Hn. case_bool_decide as Hf; [done|]. simpl. apply negb_true_iff, bool_decide_eq_false. intros [_ E].
    apply Hf. rewrite E. apply list_elem_of_fmap. exists c. split; [done|by eapply list_elem_of_lookup_2].
  - unfold n_send in Hn. destruct (calls n !! k) as [x|] eqn:Hx; [|done]. simpl in Hn, Hpl. injection Hpl as <-.
    destruct (Send (ca_msg x) (np n)) as [p [e|]] eqn:Es; [|done]. simpl. apply negb_true_iff, bool_decide_eq_false. intros [_ E].
    assert (x = c) as -> by (eapply (same_call (calls n)); [apply (no_calls _ _ Hok)|by eapply list_elem_of_lookup_2..|done]).
    assert (k = h) as ->; [|by eapply Hfail]. eapply (NoDup_lookup _ k h (ca_id c) (co_ids _ (no_calls _ _ Hok))); by rewrite list_lookup_fmap, ?Hx, ?Hc.
  - simpl. apply negb_true_iff, bool_decide_eq_false. intros ->. by eapply Hcan.
Qed.

Lemma listen_nstep filters l n n' h c d : net_ok filters n → nstep l n = Some n' →
  calls n' !! h = Some c → demuxes (np n') !! h = Some d → dm_err d = None → failed c = false →
  ∃ seen, listening (ca_stage c) (ca_id c) (FilterByBuildID (ca_id c)) h seen (np n') ∧ Forall (λ x, c_BuildId x ≠ ca_id c) seen.
Proof.
  intros Hok Hn Hc Hd He Hf. pose proof (Forall2_length _ _ _ (co_calls _ (no_calls _ _ Hok))) as Hlen.
  destruct (decide (h < length (calls n))) as [Hlt|Hge].
  - destruct (calls_mono _ _ _ _ _ Hn Hc Hlt) as (c0 & Hc0 & Em & Es & Hf0). unfold ca_id. rewrite <-Em, <-Es.
    pose proof (nstep_pipe _ _ _ Hn) as Hp. destruct (pipe_label l n) as [pl|] eqn:Epl.
    + destruct Hp as [_ Hp]. destruct (err_mono pl _ _ _ _ Hp Hd He) as (d0 & Hd0 & He0); [by rewrite <-Hlen|].
      destruct (no_listen _ _ Hok h c0 d0 Hc0 Hd0 He0 (Hf0 Hf)) as (seen & Hl & Hseen). exists seen. split; [|done].
      eapply listening_step; [exact Hl|apply (no_sound _ _ Hok)| |exact Hp].
      eapply nstep_undisturbed; [exact Hok|exact Hn|done|done|..].
      * intros e ->. simpl in Hn. unfold step_close in Hn. rewrite Hd0 in Hn. simpl in Hn. rewrite He0 in Hn. injection Hn as <-.
        simpl in Hd. rewrite list_lookup_insert_eq in Hd by (by eapply lookup_lt_Some). by injection Hd as <-.
      * intros p e -> Hs. simpl in Hn. unfold n_send in Hn. rewrite Hc0 in Hn. simpl in Hn. rewrite Hs in Hn.
        destruct (ca_pc c0); [|done..]. destruct (step_delete _ _ _); [|done]. injection Hn as <-.
        simpl in Hc. rewrite list_lookup_insert_eq in Hc by done. by injection Hc as <-.
    + destruct Hp as (k & m & -> & _ & ->). simpl in *. destruct (no_listen _ _ Hok h c0 d Hc0 Hd He (Hf0 Hf)) as (seen & Hl & Hseen).
      exists seen. split; [|done]. eapply listening_demuxes; [exact Hl|done|apply Hl].
  - assert (∃ i m, l = NCall i m) as (i & m & ->).
    { destruct l as [l| |k|i m|k|k|k|k e]; [..|eauto| | | |]; exfalso; simpl in Hn; unfold n_send, n_recv, n_recv_err, mbind, option_bind in Hn;
        apply lookup_lt_Some in Hc; repeat case_match; simplify_eq/=; rewrite ?length_insert in Hc; lia. }
    simpl in Hn. pose proof (listen_call _ _ _ _ _ Hok Hn) as Hl. unfold n_call in Hn. case_bool_decide; [done|].
    destruct (step_register _ _ _ _ _); [|done]. injection Hn as <-. simpl in *.
    rewrite lookup_app_r in Hc by lia. apply list_lookup_singleton_Some in Hc as [Hh <-].
    assert (h = length (calls n)) as -> by lia. done.
Qed.

Lemma net_ok_init filters : net_ok filters (ninit filters).
Proof.
  destruct (good_init [] filters) as [_ G2 G3 G4]. split; simpl; [|split; simpl|done|done].
  - split; try done. apply Forall_forall. intros s (f & -> & _)%list_elem_of_fmap. done.
  - constructor.
  - constructor.
  - intros m Hm. by apply elem_of_nil in Hm.
  - intros c Hc. by apply elem_of_nil in Hc.
  - constructor.
Qed.

Lemma net_ok_run filters ls n n' : net_ok filters n → nrun ls n = Some n' → net_ok filters n'.
Proof.
  revert n. induction ls as [|l ls IH]; intros n Hok; simpl; [by intros [= <-]|].
  destruct (nstep l n) as [n1|] eqn:Hs; [|done]. simpl. apply IH. split.
  - eapply sound_nstep; [apply (no_sound _ _ Hok)|exact Hs].
  - by eapply calls_nstep.
  - by eapply host_nstep.
  - intros h c d. by eapply listen_nstep.
Qed.

(** ** What a call returns *)

(** A packet in the demultiplexer of a call is the answer to its own packet. *)
Lemma own_answer filters n h c d x : net_ok filters n → calls n !! h = Some c → demuxes (np n) !! h = Some d →
  x ∈ dm_taken d ++ dm_ch d → x = answer (ca_msg c) ∧ x ∈ consumed (np n).
Proof.
  intros Hok Hc Hd Hx. pose proof (no_sound _ _ Hok) as Hso. pose proof (no_calls _ _ Hok) as Hco.
  destruct (w_got _ (so_wired _ _ Hso) h d Hd) as (s & Hs & Eg). rewrite Eg in Hx.
  destruct (w_log _ (so_wired _ _ Hso) _ _ _ _ Hs Hx) as (d' & Hd' & _ & Hi & _). rewrite Hd in Hd'. injection Hd' as <-.
  assert (Hin : x ∈ consumed (np n)).
  { eapply (looked_up filters (np n) _ s); [apply Hso|exact Hs|]. apply elem_of_app. left.
    apply list_elem_of_omap in Hx as ([y o] & Hy & E). apply list_elem_of_fmap. exists (y, o). split; [|done].
    unfold delivered_to in E. simpl in *. destruct o; try done. by case_bool_decide; simplify_eq. }
  split; [|done]. destruct (from_host _ _ _ Hok Hin) as (c' & Hc' & -> & _).
  destruct (Forall2_lookup_r _ _ _ _ _ (co_calls _ Hco) Hd) as (c0 & Hc0 & (_ & Ei & _) & _). rewrite Hc in Hc0. injection Hc0 as <-.
  f_equal. f_equal. eapply (same_call (calls n)); [apply Hco|done|by eapply list_elem_of_lookup_2|].
  unfold ca_id in *. simpl in Hi. congruence.
Qed.

(** It holds one packet at most. *)
Lemma one_answer filters n h c d : net_ok filters n → calls n !! h = Some c → demuxes (np n) !! h = Some d →
  length (dm_taken d ++ dm_ch d) ≤ 1.
Proof.
  intros Hok Hc Hd. pose proof (no_sound _ _ Hok) as Hso. destruct (w_got _ (so_wired _ _ Hso) h d Hd) as (s & Hs & Eg).
  assert (Hall : Forall (λ x, x = answer (ca_msg c)) (dm_taken d ++ dm_ch d)).
  { apply Forall_forall. intros x Hx. by eapply own_answer. }
  assert (Hnd : NoDup (c_BuildId <$> consumed (np n))).
  { destruct (so_caps _ _ Hso) as (_ & _ & _ & Ep). pose proof (co_once _ (no_calls _ _ Hok)) as H1. rewrite <-Ep, fmap_app in H1.
    apply NoDup_app in H1 as [H1 _]. assert (E : s_BuildId <$> sent (np n) = c_BuildId <$> (answer <$> sent (np n))).
    { rewrite <-list_fmap_compose. done. }
    rewrite E, (no_host _ _ Hok), fmap_app in H1. by apply NoDup_app in H1 as [H1 _]. }
  assert (Hsub : dm_taken d ++ dm_ch d `sublist_of` consumed (np n)).
  { rewrite Eg. etrans; [apply omap_delivered_sublist|]. etrans; [|apply (list.sublist_filter (λ c, dispatch filters c = Some (dm_owner d)))].
    destruct (so_flow _ _ Hso) as [_ Hf]. rewrite (Hf _ _ Hs). by apply sublist_inserts_r. }
  apply (fmap_sublist c_BuildId) in Hsub. pose proof (sublist_NoDup _ _ Hnd Hsub) as Hn.
  destruct (dm_taken d ++ dm_ch d) as [|x [|y l]]; simpl; [lia|lia|]. exfalso. simpl in Hn.
  rewrite Forall_cons, Forall_cons in Hall. destruct Hall as (-> & -> & _). apply NoDup_cons in Hn as [Hn _]. apply Hn, list_elem_of_here.
Qed.

(** ** Rest *)

(** The steps of the shim and of the host, not those by which calls begin or are given up. *)
Definition internal (l : net_label) : bool := match l with NCall _ _ | NCancel _ _ => false | _ => true end.

Definition quiet (n : net) : Prop := ∀ l, internal l = true → nstep l n = None.

(** Rest can be decided: these are the steps to try. *)
Definition candidates (n : net) : list net_label :=
  [NPipe LRecv; NPipe LProcess; NWire; NHost 0] ++
  flat_map (λ i, [NPipe (LStage i); NPipe (LAccept i); NPipe (LRefuse i)]) (seq 0 (length (stages (np n)))) ++
  flat_map (λ h, [NSend h; NRecv h; NRecvErr h]) (seq 0 (length (calls n))).

Definition settled (n : net) : bool := forallb (λ l, match nstep l n with None => true | Some _ => false end) (candidates n).

Lemma settled_quiet n : settled n = true → quiet n.
Proof.
  unfold settled. rewrite forallb_forall. intros Hs.
  assert (Hno : ∀ l, In l (candidates n) → nstep l n = None) by (intros l Hl%Hs; by destruct (nstep l n)).
  assert (Hst : ∀ i pl, pl = LStage i ∨ pl = LAccept i ∨ pl = LRefuse i → nstep (NPipe pl) n = None).
  { intros i pl Hpl. destruct (decide (i < length (stages (np n)))) as [Hlt|Hge].
    - apply Hno, in_or_app. right. apply in_or_app. left. apply in_flat_map. exists i. split; [apply in_seq; lia|]. simpl. naive_solver.
    - apply not_lt, lookup_ge_None_2 in Hge.
      destruct Hpl as [->|[->| ->]]; simpl; unfold step_stage, step_accept, step_refuse; by rewrite Hge. }
  assert (Hca : ∀ h l, l = NSend h ∨ l = NRecv h ∨ l = NRecvErr h → nstep l n = None).
  { intros h l Hl. destruct (decide (h < length (calls n))) as [Hlt|Hge].
    - apply Hno, in_or_app. right. apply in_or_app. right. apply in_flat_map. exists h. split; [apply in_seq; lia|]. simpl. naive_solver.
    - apply not_lt, lookup_ge_None_2 in Hge. destruct Hl as [->|[->| ->]]; simpl; unfold n_send, n_recv, n_recv_err; by rewrite Hge. }
  intros [l| |k|i m|h|h|h|h e] Hi; try done.
  - destruct l; try done; [apply Hno; by left|apply Hno; by right; left|eapply Hst; eauto..].
  - apply Hno. do 2 right. by left.
  - assert (H0 : nstep (NHost 0) n = None) by (apply Hno; do 3 right; by left). simpl in *. by destruct (todo n).
  - eapply Hca; eauto.
  - eapply Hca; eauto.
  - eapply Hca; eauto.
Qed.

(** No stage is ever blocked by a call: there is room for its one answer. *)
Lemma never_blocked filters n : net_ok filters n → blocked (np n) = false.
Proof.
  intros Hok. pose proof (no_sound _ _ Hok) as Hso. apply not_true_iff_false. intros (s & Hin & Hst)%existsb_exists.
  apply list_elem_of_In, list_elem_of_lookup_1 in Hin as [i Hs]. unfold stuck in Hst. destruct (sg_pc s) as [|k x|] eqn:Ep; [done| |].
  - destruct (demuxes (np n) !! k) as [d|] eqn:Hd; [|done]. apply bool_decide_eq_true in Hst.
    destruct (Forall2_lookup_r _ _ _ _ _ (co_calls _ (no_calls _ _ Hok)) Hd) as (c & Hc & _).
    pose proof (one_answer _ _ _ _ _ Hok Hc Hd) as H1. rewrite length_app in H1. unfold demux_cap in Hst. lia.
  - pose proof (so_stages _ _ Hso) as Hr. rewrite Forall_lookup in Hr. by apply (Hr i s).
Qed.

(** When nothing moves any more, everything the host got was answered and looked up. *)
Lemma quiet_settled filters n m : net_ok filters n → quiet n → m ∈ pushed (np n) → answer m ∈ consumed (np n) ∧
  ∀ i s, stages (np n) !! i = Some s → sg_pc s = SIdle ∧ sg_recvCh s = [] ∧ processing i (receiver (np n)) = [].
Proof.
  intros Hok Hq Hm. pose proof (no_sound _ _ Hok) as Hso. destruct (so_caps _ _ Hso) as (_ & _ & _ & Ep).
  assert (Hrest : rests (np n)).
  { intros l Hl. pose proof (Hq (NPipe l) eq_refl) as H1. simpl in H1. rewrite Hl in H1. by destruct (step l (np n)). }
  pose proof (never_blocked _ _ Hok) as Hb.
  destruct (rests_receiver _ (so_wired _ _ Hso) (so_range _ _ Hso) Hrest Hb) as [[Hraw|Hdone] Hproc]; [|by destruct (so_recv _ _ Hso)].
  split.
  - pose proof (Hq NWire eq_refl) as Hw. simpl in Hw. unfold step_send in Hw. rewrite (so_sender _ _ Hso) in Hw.
    destruct (sendCh (np n)) as [|m' rest] eqn:Es; [|done]. rewrite app_nil_r in Ep. rewrite <-Ep in Hm.
    assert (Ht : todo n = []).
    { pose proof (Hq (NHost 0) eq_refl) as Hh. simpl in Hh. by destruct (todo n). }
    pose proof (no_host _ _ Hok) as Hp. rewrite Ht, Hraw in Hp. simpl in Hp. rewrite app_nil_r in Hp. rewrite <-Hp.
    apply list_elem_of_fmap. by exists m.
  - intros i s Hs. destruct (rests_idle _ _ _ (so_wired _ _ Hso) Hrest Hb Hs). by split_and!.
Qed.

Lemma quiet_done filters n h c : net_ok filters n → quiet n → calls n !! h = Some c →
  dispatch filters (answer (ca_msg c)) = Some (ca_stage c) → ∃ r, ca_pc c = CDone r.
Proof.
  intros Hok Hq Hc Hdis. pose proof (no_sound _ _ Hok) as Hso. pose proof (no_calls _ _ Hok) as Hco.
  destruct (Forall2_lookup_l _ _ _ _ _ (co_calls _ Hco) Hc) as (d & Hd & (Ho & _) & Ht).
  destruct (w_got _ (so_wired _ _ Hso) h d Hd) as (s & Hs & Eg). rewrite Ho in Hs.
  destruct (ca_pc c) as [| |r] eqn:Epc; [exfalso|exfalso|by exists r].
  - pose proof (Hq (NSend h) eq_refl) as H1. simpl in H1. unfold n_send in H1. rewrite Hc in H1. simpl in H1. rewrite Epc in H1.
    destruct (Send _ _) as [p [e|]] eqn:Es; [|done]. apply Send_full in Es as [-> _]. unfold step_delete in H1. by rewrite Hs in H1.
  - pose proof (Hq (NRecv h) eq_refl) as H1. pose proof (Hq (NRecvErr h) eq_refl) as H2. simpl in H1, H2. unfold n_recv, n_recv_err in *.
    unfold step_take, step_take_err in *. rewrite Hc, Hd in *. simpl in *. rewrite Epc in *.
    destruct (dm_err d) eqn:Ee; [done|]. destruct (dm_ch d) as [|x rest] eqn:Ex; [|done].
    destruct (no_listen _ _ Hok h c d Hc Hd Ee) as (seen & [_ (s' & Hs' & _ & handled & E1 & E2)] & Hseen); [unfold failed; by rewrite Epc|].
    rewrite Hs in Hs'. injection Hs' as <-.
    destruct (quiet_settled _ _ (ca_msg c) Hok Hq) as [Hin Hidle]; [apply Hco; [by eapply list_elem_of_lookup_2|done]|].
    destruct (Hidle _ _ Hs) as (Ep & Er & Epr). destruct (so_flow _ _ Hso) as [_ Hf]. pose proof (Hf _ _ Hs) as Hfl.
    rewrite Ep, Er, Epr in *. simpl in *. rewrite !app_nil_r in *. rewrite <-Eg, Ht in E2. simpl in E2.
    assert (Ha : answer (ca_msg c) ∈ seen ++ handled) by (rewrite <-E1, <-Hfl; by apply list_elem_of_filter).
    apply elem_of_app in Ha as [Ha|Ha].
    + rewrite Forall_forall in Hseen. by apply (Hseen _ Ha).
    + assert (answer (ca_msg c) ∈ filter (is_reply (ca_id c) (FilterByBuildID (ca_id c))) handled) as Hr.
      { apply list_elem_of_filter. split; [|done]. split; [done|]. unfold FilterByBuildID. by rewrite bool_decide_true. }
      rewrite <-E2 in Hr. by apply elem_of_nil in Hr.
Qed.

(** ** Progress *)

(** How far the packets and the calls are from their end. *)
Definition stage_load (s : stage) : nat := 2 * length (sg_recvCh s) + length (accepting (sg_pc s)).
Definition call_load (c : call) : nat := match ca_pc c with CSend => 8 | CRecv => 1 | CDone _ => 0 end.
Definition recv_load (r : recv_pc) : nat := match r with RProcess _ _ => 3 | _ => 0 end.
Definition load (n : net) : nat :=
  sum_list_with call_load (calls n) + 6 * length (sendCh (np n)) + 5 * length (todo n) + 4 * length (raw (np n)) +
  recv_load (receiver (np n)) + sum_list_with stage_load (stages (np n)).

Lemma sum_insert {A} (f : A → nat) l i x y : l !! i = Some x → sum_list_with f (<[i := y]> l) + f x = sum_list_with f l + f y.
Proof. revert i. induction l as [|z l IH]; intros [|i]; simpl; try done; [intros [= ->]; lia|]. intros Hx%IH. lia. Qed.

Lemma closeFn_load d l : sum_list_with stage_load (run_closeFn d l) = sum_list_with stage_load l.
Proof.
  unfold run_closeFn. destruct (dm_deletes d); [|done]. generalize (dm_owner d). induction l as [|s l IH]; intros [|i]; simpl; try done.
  f_equal. apply IH.
Qed.

(** The part of the load that is in the receiver and the stages. *)
Definition pipe_load (p : pipeline) : nat :=
  4 * length (raw p) + recv_load (receiver p) + sum_list_with stage_load (stages p).

Lemma moves_load l p p' : moves l = true → step l p = Some p' → pipe_load p' < pipe_load p.
Proof.
  intros Hm Hs. unfold pipe_load. destruct l; try done; simpl in Hs.
  - unfold step_recv in Hs. destruct (receiver p); try done. destruct (raw p) as [|[c|] rest]; try done; injection Hs as <-; simpl; [|lia].
    destruct (dispatch _ _); simpl; lia.
  - unfold step_process in Hs. destruct (receiver p) as [|i c|]; try done. destruct (stages p !! i) as [s|] eqn:Ei; [|done]. simpl in Hs.
    case_bool_decide; [|done]. injection Hs as <-. simpl. pose proof (sum_insert stage_load _ _ _ (sg_set_recvCh (sg_recvCh s ++ [c]) s) Ei) as E.
    unfold stage_load in E at 2 4. simpl in E. rewrite length_app in E. simpl in *. lia.
  - unfold step_stage in Hs. destruct (stages p !! i) as [s|] eqn:Ei; [|done]. simpl in Hs. destruct (sg_pc s) eqn:Ep; [|done..].
    destruct (sg_recvCh s) as [|c rest] eqn:Er; [done|]. injection Hs as <-. simpl.
    pose proof (sum_insert stage_load _ _ _ (handle (demuxes p) c (sg_set_recvCh rest s)) Ei) as E.
    assert (stage_load (handle (demuxes p) c (sg_set_recvCh rest s)) < stage_load s); [|lia].
    unfold handle, stage_load. rewrite Er, Ep. simpl. repeat case_match; simpl; rewrite ?Ep; simpl; lia.
  - unfold step_accept in Hs. destruct (stages p !! i) as [s|] eqn:Ei; [|done]. simpl in Hs. destruct (sg_pc s) as [|k c|] eqn:Ep; try done.
    open_step Hs. case_bool_decide; [|done]. injection Hs as <-. simpl.
    pose proof (sum_insert stage_load _ _ _ (sg_set_pc SIdle (sg_add_log (c, Delivered k) s)) Ei) as E.
    unfold stage_load in E at 2 4. simpl in E. rewrite Ep in E. simpl in E. lia.
  - unfold step_refuse in Hs. destruct (stages p !! i) as [s|] eqn:Ei; [|done]. simpl in Hs. destruct (sg_pc s) as [|k c|] eqn:Ep; try done.
    open_step Hs. destruct (dm_err d) as [e|]; [|done]. injection Hs as <-. simpl. rewrite closeFn_load.
    pose proof (sum_insert stage_load _ _ _ (sg_set_pc SIdle (sg_add_log (c, Refused e) s)) Ei) as E.
    unfold stage_load in E at 2 4. simpl in E. rewrite Ep in E. simpl in E. lia.
Qed.

(** Registering, deleting and receiving leave it. *)
Lemma pipe_load_same l p p' : match l with LRegister _ _ _ _ | LDelete _ _ | LTake _ | LTakeErr _ | LClose _ _ => True | _ => False end →
  step l p = Some p' → pipe_load p' = pipe_load p ∧ sendCh p' = sendCh p.
Proof.
  intros Hl Hs. assert (Hk : sendCh p' = sendCh p) by (by apply (send_kept l); [done|destruct l..]). split; [|done].
  unfold pipe_load. destruct l; try done; simpl in Hs.
  - unfold step_register in Hs. destruct (stages p !! i) as [s|] eqn:Ei; [|done]. simpl in Hs. injection Hs as <-. simpl.
    pose proof (sum_insert stage_load _ _ _ (sg_set_demux (<[id:=length (demuxes p)]> (sg_demux s)) s) Ei) as E.
    unfold stage_load in E at 2 4. simpl in E. lia.
  - unfold step_delete in Hs. destruct (stages p !! i) as [s|] eqn:Ei; [|done]. simpl in Hs. injection Hs as <-. simpl.
    pose proof (sum_insert stage_load _ _ _ (sg_set_demux (delete id (sg_demux s)) s) Ei) as E. unfold stage_load in E at 2 4. simpl in E. lia.
  - unfold step_take in Hs. open_step Hs. destruct (dm_ch d); by simplify_eq.
  - unfold step_take_err in Hs. open_step Hs. destruct (dm_err d); [|done]. injection Hs as <-. simpl. by rewrite closeFn_load.
  - unfold step_close in Hs. open_step Hs. destruct (dm_err d); by simplify_eq.
Qed.

Lemma load_eq n : load n = sum_list_with call_load (calls n) + 6 * length (sendCh (np n)) + 5 * length (todo n) + pipe_load (np n).
Proof. unfold load, pipe_load. lia. Qed.

Lemma set_pc_load l h c pc : l !! h = Some c →
  sum_list_with call_load (<[h := set_pc pc c]> l) + match ca_pc c with CSend => 8 | CRecv => 1 | CDone _ => 0 end =
  sum_list_with call_load l + match pc with CSend => 8 | CRecv => 1 | CDone _ => 0 end.
Proof. exact (sum_insert call_load l h c (set_pc pc c)). Qed.

(** A step brings the end nearer by one; only a new call adds to what is left, eight steps. *)
Lemma load_nstep l n n' : nstep l n = Some n' →
  (if internal l then 1 else 0) + load n' ≤ load n + 8 * (length (calls n') - length (calls n)) ∧ length (calls n) ≤ length (calls n').
Proof.
  intros Hn. rewrite !load_eq. destruct l as [l| |k|i m|h|h|h|h e]; simpl in Hn.
  - destruct (moves l) eqn:Hm; [|done]. destruct (step l (np n)) as [p|] eqn:Hs; [|done]. injection Hn as <-. simpl.
    pose proof (moves_load l _ _ Hm Hs). assert (sendCh p = sendCh (np n)) as -> by (by apply (send_kept l); [done|destruct l..]). lia.
  - unfold step_send in Hn. destruct (sendCh (np n)) as [|m rest] eqn:Es; [done|]. simpl in Hn. destruct (sender_done (np n)); [done|].
    injection Hn as <-. simpl. rewrite length_app. unfold pipe_load. simpl. lia.
  - destruct (todo n !! k) as [m|] eqn:Hk; [|done]. injection Hn as <-. simpl. unfold pipe_load. simpl. rewrite length_app. simpl.
    apply delete_Permutation in Hk. apply Permutation_length in Hk. simpl in Hk. lia.
  - unfold n_call in Hn. case_bool_decide; [done|]. destruct (step_register _ _ _ _ _) as [p|] eqn:Hs; [|done]. injection Hn as <-. simpl.
    destruct (pipe_load_same (LRegister i (s_BuildId m) (FilterByBuildID (s_BuildId m)) true) _ _ I Hs) as [-> ->].
    rewrite sum_list_with_app, length_app. change (sum_list_with call_load [_]) with 8. simpl length. lia.
  - unfold n_send in Hn. destruct (calls n !! h) as [c|] eqn:Hc; [|done]. simpl in Hn. destruct (ca_pc c) eqn:Epc; [|done..].
    destruct (Send (ca_msg c) (np n)) as [p [e|]] eqn:Es.
    + apply Send_full in Es as [-> ->]. destruct (step_delete _ _ _) as [p|] eqn:Hs; [|done]. injection Hn as <-. simpl. rewrite length_insert.
      destruct (pipe_load_same (LDelete (ca_stage c) (ca_id c)) _ _ I Hs) as [-> ->].
      pose proof (set_pc_load _ _ _ (CDone (Err ErrSendStreamBlocked)) Hc) as H1. rewrite Epc in H1. lia.
    + unfold Send in Es. case_bool_decide; [|done]. injection Es as <-. injection Hn as <-. simpl. rewrite length_insert, length_app. unfold pipe_load. simpl.
      pose proof (set_pc_load _ _ _ CRecv Hc) as H1. rewrite Epc in H1. lia.
  - unfold n_recv in Hn. destruct (calls n !! h) as [c|] eqn:Hc; [|done]. simpl in Hn. destruct (demuxes (np n) !! h) as [d|]; [|done]. simpl in Hn.
    destruct (ca_pc c) eqn:Epc; try done. destruct (dm_ch d) as [|x rest]; [done|]. destruct (step_take h (np n)) as [p|] eqn:Hs; [|done].
    injection Hn as <-. simpl. rewrite length_insert. destruct (pipe_load_same (LTake h) _ _ I Hs) as [-> ->].
    pose proof (set_pc_load _ _ _ (CDone (Ok x)) Hc) as H1. rewrite Epc in H1. lia.
  - unfold n_recv_err in Hn. destruct (calls n !! h) as [c|] eqn:Hc; [|done]. simpl in Hn. destruct (demuxes (np n) !! h) as [d|]; [|done]. simpl in Hn.
    destruct (ca_pc c) eqn:Epc; try done. destruct (dm_err d) as [e|]; [|done]. destruct (step_take_err h (np n)) as [p|] eqn:Hs; [|done].
    injection Hn as <-. simpl. rewrite length_insert. destruct (pipe_load_same (LTakeErr h) _ _ I Hs) as [-> ->].
    pose proof (set_pc_load _ _ _ (CDone (Err e)) Hc) as H1. rewrite Epc in H1. lia.
  - destruct (step_close h e (np n)) as [p|] eqn:Hs; [|done]. injection Hn as <-. simpl.
    destruct (pipe_load_same (LClose h e) _ _ I Hs) as [-> ->]. lia.
Qed.

Lemma load_nrun ls n n' : nrun ls n = Some n' →
  length (filter (λ l, internal l = true) ls) + load n' ≤ load n + 8 * (length (calls n') - length (calls n)) ∧ length (calls n) ≤ length (calls n').
Proof.
  revert n. induction ls as [|l ls IH]; intros n; simpl; [intros [= <-]; lia|].
  destruct (nstep l n) as [n1|] eqn:Hs; [|done]. simpl. intros Hr. destruct (IH n1 Hr) as [H1 H2]. destruct (load_nstep l n n1 Hs) as [H3 H4].
  rewrite filter_cons. destruct (decide (internal l = true)) as [E|E]; simpl; [rewrite E in H3; lia|].
  apply not_true_iff_false in E. rewrite E in H3. lia.
Qed.

Lemma load_init filters : load (ninit filters) = 0.
Proof. unfold load. simpl. induction filters as [|f filters IH]; [done|exact IH]. Qed.

(** What a call may have as its result. *)
Definition result_ok (c : call) (d : demux) : Prop :=
  match ca_pc c with
  | CDone (Ok x) => x = answer (ca_msg c)
  | CDone (Err e) => e = ErrSendStreamBlocked ∨ dm_err d = Some e
  | _ => True
  end.

Lemma results_ok filters n : net_ok filters n → Forall2 result_ok (calls n) (demuxes (np n)).
Proof.
  intros Hok. apply Forall2_same_length_lookup_2; [apply (Forall2_length _ _ _ (co_calls _ (no_calls _ _ Hok)))|].
  intros h c d Hc Hd. pose proof (co_calls _ (no_calls _ _ Hok)) as HF.
  destruct (Forall2_lookup_lr _ _ _ _ _ _ HF Hc Hd) as [_ Ht]. unfold result_ok. destruct (ca_pc c) as [| |[x|e]]; try done.
  - eapply (own_answer _ _ _ _ _ x Hok Hc Hd). rewrite Ht. apply list_elem_of_here.
  - by destruct Ht.
Qed.

(** C11. Calls refine function application.  Let any number of calls of [Request] with distinct
    ids, over any stages, run at once, and let their contexts end at any moment.  Under every
    schedule of the goroutines and of the host, which answers in any order: a call that returns
    a packet returns the host's answer to its own packet; one that fails was refused by the full
    send queue or has had its context ended; and no schedule has more than eight steps per call
    besides the beginnings and cancellations.  When nothing can move any more, every call whose
    answer is addressed to its stage has returned. *)
Theorem calls_answered (filters : list FilterFn) (ls : list net_label) (n : net) : nrun ls (ninit filters) = Some n →
  length (filter (λ l, internal l = true) ls) ≤ 8 * length (calls n) ∧
  Forall2 result_ok (calls n) (demuxes (np n)) ∧
  (quiet n → Forall (λ c, dispatch filters (answer (ca_msg c)) = Some (ca_stage c) → ∃ r, ca_pc c = CDone r) (calls n)).
Proof.
  intros Hr. pose proof (net_ok_run _ _ _ _ (net_ok_init filters) Hr) as Hok. split; [|split].
  - destruct (load_nrun _ _ _ Hr) as [Hl _]. rewrite load_init in Hl. simpl in Hl. lia.
  - by eapply results_ok.
  - intros Hq. apply Forall_lookup. intros h c Hc Hd. by eapply quiet_done.
Qed.
End calls.

(** ** Two calls that cross *)

(** A host that sends a build transfer back. *)
#[export] Instance ex_echo : Host := λ m,
  match m with Some (SBuildTransfer bt) => Some (CBuildTransfer bt) | _ => None end.

Definition ex_message (id stage : string) : ServerStream :=
  {| s_BuildId := id;
     s_PacketType := Some (SBuildTransfer {| bt_Id := id; bt_Direction := OUTOF; bt_Source := None; bt_Destination := None;
       bt_Data := []; bt_Complete := false; bt_IsDirectory := false; bt_Metadata := {[ "stage" := stage ]} |}) |}.

Definition ex_calls : list net_label :=
  [NCall 0 (ex_message "1" "a"); NSend 0; NCall 1 (ex_message "2" "b"); NCall 1 (ex_message "3" "b"); NSend 2; NWire; NSend 1; NWire; NWire;
   NHost 1; NCancel 1 Canceled; NHost 1; NHost 0; NPipe LRecv; NPipe LProcess; NPipe LRecv; NPipe LProcess; NPipe LRecv; NPipe LProcess;
   NPipe (LStage 1); NPipe (LAccept 1); NPipe (LStage 1); NRecvErr 1; NPipe (LStage 0); NPipe (LAccept 0); NRecv 2; NRecv 0].

Lemma calls_answered_witness : ∃ n, nrun ex_calls (ninit ex_filters) = Some n ∧
  ca_pc <$> calls n = [CDone (Ok (answer (ex_message "1" "a"))); CDone (Err Canceled); CDone (Ok (answer (ex_message "3" "b")))] ∧
  Forall2 result_ok (calls n) (demuxes (np n)) ∧
  Forall (λ c, dispatch ex_filters (answer (ca_msg c)) = Some (ca_stage c) → ∃ r, ca_pc c = CDone r) (calls n).
Proof.
  assert (Hq : match nrun ex_calls (ninit ex_filters) with Some n => settled n | None => false end = true) by (vm_compute; reflexivity).
  assert (Hv : (λ n, ca_pc <$> calls n) <$> nrun ex_calls (ninit ex_filters) =
    Some [CDone (Ok (answer (ex_message "1" "a"))); CDone (Err Canceled); CDone (Ok (answer (ex_message "3" "b")))]) by (vm_compute; reflexivity).
  destruct (nrun ex_calls (ninit ex_filters)) as [n|] eqn:E; [|done]. exists n. split; [done|]. split; [by injection Hv|].
  destruct (calls_answered ex_filters ex_calls n E) as (_ & H2 & H3). split; [done|]. by apply H3, settled_quiet.
Defined.
