(* ===== verification/PrefetchCache.v ===== *)
(** * The chunk cache of the prefetcher ([pkg/prefetch/cache.go])

    Every operation runs under the cache's mutex, so it is a function on the cache.  Times
    are a counter; the order in which Go ranges over a map is the argument [range].  The
    interval tree keeps the chunks as they were inserted: the only field that changes later,
    [lastUsed], is never read through the tree. *)

From Stdlib Require Import Sorting.Sorted.
From stdpp Require Import sorting.
From S2P Require Import Prelude GoStrings.

Local Open Scope Z_scope.

Record chunk := { index : Z; data : bytes; size : Z; lastUsed : Z }.

#[export] Instance chunk_eq_dec : EqDecision chunk.
Proof. solve_decision. Defined.

(** [*intervalNode]; [TNil] is nil. *)
Inductive intervalNode :=
| TNil
| TNode (start fin : Z) (chunks : gmap Z chunk) (left right : intervalNode) (mx : Z).

Record chunkCache := {
  cacheChunkSize : Z;
  intervalTree : intervalNode;
  chunkMap : gmap Z chunk;
  maxCacheSize : Z;
  evictCount : Z;
  minIndex : Z;
}.

Definition newChunkCache (chunkSize : Z) : chunkCache :=
  {| cacheChunkSize := chunkSize; intervalTree := TNil; chunkMap := ∅; maxCacheSize := 1024;
     evictCount := Z.quot 1024 10; minIndex := 0 |}.

Definition set_tree (t : intervalNode) (c : chunkCache) : chunkCache :=
  {| cacheChunkSize := cacheChunkSize c; intervalTree := t; chunkMap := chunkMap c; maxCacheSize := maxCacheSize c;
     evictCount := evictCount c; minIndex := minIndex c |}.
Definition set_map (m : gmap Z chunk) (c : chunkCache) : chunkCache :=
  {| cacheChunkSize := cacheChunkSize c; intervalTree := intervalTree c; chunkMap := m; maxCacheSize := maxCacheSize c;
     evictCount := evictCount c; minIndex := minIndex c |}.
Definition set_minIndex (i : Z) (c : chunkCache) : chunkCache :=
  {| cacheChunkSize := cacheChunkSize c; intervalTree := intervalTree c; chunkMap := chunkMap c;
     maxCacheSize := maxCacheSize c; evictCount := evictCount c; minIndex := i |}.

Definition touch (now : Z) (ch : chunk) : chunk :=
  {| index := index ch; data := data ch; size := size ch; lastUsed := now |}.

Definition hasChunk (c : chunkCache) (i : Z) : bool := bool_decide (is_Some (chunkMap c !! i)).

Definition getChunk (now : Z) (i : Z) (c : chunkCache) : chunkCache * option chunk :=
  match chunkMap c !! i with
  | Some ch => (set_map (<[i := touch now ch]> (chunkMap c)) c, Some (touch now ch))
  | None => (c, None)
  end.

(** ** The interval tree *)

Definition leaf (start fin : Z) (ch : chunk) : intervalNode := TNode start fin {[ index ch := ch ]} TNil TNil fin.

(** [insertInterval] on a node and [insertChild] on nil. *)
Fixpoint insertInterval (node : intervalNode) (start fin : Z) (ch : chunk) : intervalNode :=
  match node with
  | TNil => leaf start fin ch
  | TNode s e cs l r mx =>
      let '(l, r) := if start <=? s then (insertInterval l start fin ch, r) else (l, insertInterval r start fin ch) in
      let mx := if mx <? fin then fin else mx in
      let cs := if (fin <? s) || (e <? start) then cs else <[index ch := ch]> cs in
      TNode s e cs l r mx
  end.

Fixpoint findOverlapsRecursive (node : intervalNode) (start fin : Z) : list chunk :=
  match node with
  | TNil => []
  | TNode s e cs l r mx =>
      if mx <? start then []
      else
        findOverlapsRecursive l start fin ++
        (if (fin <? s) || (e <? start) then []
         else filter (λ ch, start ≤ index ch ≤ fin) (map_to_list cs).*2) ++
        (if s <=? fin then findOverlapsRecursive r start fin else [])
  end.

Definition findOverlappingChunks (c : chunkCache) (start fin : Z) : list chunk :=
  findOverlapsRecursive (intervalTree c) start fin.

Definition rebuildIntervalTree (range : gmap Z chunk → list chunk) (c : chunkCache) : chunkCache :=
  set_tree (foldl (λ t ch, insertInterval t (index ch) (index ch) ch) TNil (range (chunkMap c))) c.

(** ** Eviction *)

(** The insertion of [chunks[i]] into the sorted part before it; the part is kept with
    its end first, the direction the inner loop runs in. *)
Fixpoint shift_in (key : chunk) (before : list chunk) : list chunk :=
  match before with
  | [] => [key]
  | x :: before => if lastUsed key <? lastUsed x then x :: shift_in key before else key :: x :: before
  end.

Definition sort_by_age (chunks : list chunk) : list chunk :=
  reverse (foldl (λ before key, shift_in key before) [] chunks).

Definition zlen {A} (l : list A) : Z := Z.of_nat (length l).
Definition map_len {A} (m : gmap Z A) : Z := Z.of_nat (base.size m).

Definition evictOldest (range : gmap Z chunk → list chunk) (c : chunkCache) : chunkCache :=
  if map_len (chunkMap c) <=? maxCacheSize c - evictCount c then c
  else
    let chunks := sort_by_age (range (chunkMap c)) in
    let n := if zlen chunks <? evictCount c then zlen chunks else evictCount c in
    let c := set_map (foldl (λ m ch, delete (index ch) m) (chunkMap c) (take (Z.to_nat n) chunks)) c in
    (* [float64(len)/float64(max) < 0.5] *)
    if 2 * map_len (chunkMap c) <? maxCacheSize c then rebuildIntervalTree range c else c.

Definition addChunk (range : gmap Z chunk → list chunk) (now : Z) (ch : chunk) (c : chunkCache) : chunkCache :=
  if index ch <? minIndex c then c
  else
    let ch := touch now ch in
    let c := set_map (<[index ch := ch]> (chunkMap c)) c in
    let c := set_tree (insertInterval (intervalTree c) (index ch) (index ch) ch) c in
    if maxCacheSize c <? map_len (chunkMap c) then evictOldest range c else c.

Definition evictBefore (minIdx : Z) (c : chunkCache) : chunkCache :=
  if minIdx <=? minIndex c then c
  else set_map (filter (λ kc, minIdx ≤ kc.1) (chunkMap c)) (set_minIndex minIdx c).

Definition clear (c : chunkCache) : chunkCache := set_tree TNil (set_map ∅ c).

(** ** Well-formed caches *)

Record cache_wf (c : chunkCache) : Prop := {
  cw_max : maxCacheSize c = 1024;
  cw_evict : evictCount c = 102;
  cw_size : map_len (chunkMap c) ≤ 1024;
  cw_keys i ch : chunkMap c !! i = Some ch → index ch = i ∧ minIndex c ≤ i;
}.

(** Ranging over a map yields its values, in some order. *)
Definition is_range (range : gmap Z chunk → list chunk) : Prop := ∀ m, range m ≡ₚ (map_to_list m).*2.

Lemma shift_in_perm key l : shift_in key l ≡ₚ key :: l.
Proof.
  induction l as [|x l IH]; simpl; [done|]. case_match; [|done]. rewrite IH. apply Permutation_swap.
Qed.

Lemma fold_shift_perm l acc : foldl (λ before key, shift_in key before) acc l ≡ₚ l ++ acc.
Proof.
  revert acc. induction l as [|x l IH]; intros acc; simpl; [done|].
  rewrite IH, shift_in_perm. by rewrite Permutation_middle.
Qed.

Lemma sort_by_age_perm l : sort_by_age l ≡ₚ l.
Proof. unfold sort_by_age. rewrite reverse_Permutation, fold_shift_perm. by rewrite app_nil_r. Qed.

Definition younger_first (a b : chunk) : Prop := lastUsed b ≤ lastUsed a.

Lemma shift_in_sorted key l : StronglySorted younger_first l → StronglySorted younger_first (shift_in key l).
Proof.
  induction 1 as [|x l Hs IH HF]; simpl; [repeat constructor|].
  destruct (Z.ltb_spec (lastUsed key) (lastUsed x)).
  - constructor; [done|]. rewrite shift_in_perm. constructor; [|done]. unfold younger_first. lia.
  - constructor; [by constructor|]. constructor; [done|].
    eapply Forall_impl; [exact HF|]. unfold younger_first. intros y Hy. lia.
Qed.

(** The insertion sort of [evictOldest] sorts from the least to the most recently used. *)
Lemma sort_by_age_sorted l : StronglySorted (λ a b, lastUsed a ≤ lastUsed b) (sort_by_age l).
Proof.
  unfold sort_by_age.
  assert (Hs : ∀ l acc, StronglySorted younger_first acc →
    StronglySorted younger_first (foldl (λ before key, shift_in key before) acc l)).
  { clear l. induction l as [|x l IH]; intros acc Ha; simpl; [done|]. by apply IH, shift_in_sorted. }
  specialize (Hs l [] (SSorted_nil _)). revert Hs. generalize (foldl (λ before key, shift_in key before) [] l).
  clear l. induction l as [|x l IH]; intros Hs; [constructor|]. rewrite reverse_cons. apply StronglySorted_cons in Hs as [HF Hs].
  apply StronglySorted_app_2; [|by apply IH|repeat constructor].
  intros a b Ha Hb. apply list_elem_of_singleton in Hb as ->. rewrite elem_of_reverse in Ha.
  rewrite Forall_forall in HF. by apply HF.
Qed.

Lemma foldl_delete_lookup (l : list chunk) (m : gmap Z chunk) i :
  foldl (λ m ch, delete (index ch) m) m l !! i = if bool_decide (i ∈ index <$> l) then None else m !! i.
Proof.
  revert m. induction l as [|x l IH]; intros m; cbn [foldl fmap list_fmap].
  - by rewrite bool_decide_false by set_solver.
  - rewrite IH. destruct (decide (i ∈ index <$> l)) as [Hin|Hin].
    + rewrite !bool_decide_true; [done|by apply list_elem_of_further|done].
    + rewrite (bool_decide_false _ Hin). destruct (decide (i = index x)) as [->|Hne].
      * rewrite lookup_delete_eq, bool_decide_true; [done|apply list_elem_of_here].
      * rewrite lookup_delete_ne by done. rewrite bool_decide_false; [done|]. rewrite elem_of_cons. naive_solver.
Qed.

Lemma range_keys range (m : gmap Z chunk) ch :
  is_range range → ch ∈ range m ↔ ∃ i, m !! i = Some ch.
Proof.
  intros Hr. rewrite (Hr m), list_elem_of_fmap. split.
  - intros ([i x] & -> & Hin%elem_of_map_to_list). eauto.
  - intros [i Hi]. exists (i, ch). split; [done|]. by apply elem_of_map_to_list.
Qed.

(** Evicting the first [n] of the sorted values deletes exactly [n] keys. *)
Lemma size_foldl_delete (l : list chunk) (m : gmap Z chunk) :
  NoDup (index <$> l) → (∀ ch, ch ∈ l → is_Some (m !! index ch)) →
  map_len (foldl (λ m ch, delete (index ch) m) m l) = map_len m - zlen l.
Proof.
  revert m. induction l as [|x l IH]; intros m Hn Hin; cbn [foldl]; [unfold zlen; simpl; lia|].
  cbn [fmap list_fmap] in Hn. apply NoDup_cons in Hn as [Hx Hn]. rewrite IH; [|done|].
  - destruct (Hin x) as [ch Hch]; [apply list_elem_of_here|].
    unfold map_len, zlen. rewrite map_size_delete, Hch. cbn [length].
    assert (base.size m ≠ 0)%nat.
    { intros H0. apply map_size_empty_inv in H0. subst. by rewrite lookup_empty in Hch. }
    lia.
  - intros ch Hc. rewrite lookup_delete_ne; [apply Hin; by apply list_elem_of_further|].
    intros E. apply Hx. rewrite E. apply list_elem_of_fmap. by exists ch.
Qed.

(** What [evictOldest] deletes, and that it is the least recently used part. *)
Lemma evictOldest_spec range c :
  is_range range → (∀ i ch, chunkMap c !! i = Some ch → index ch = i) →
  evictCount c = 102 → maxCacheSize c = 1024 → map_len (chunkMap c) = 1025 →
  let c' := evictOldest range c in
  map_len (chunkMap c') = 923 ∧ chunkMap c' ⊆ chunkMap c ∧ minIndex c' = minIndex c ∧
  maxCacheSize c' = 1024 ∧ evictCount c' = 102 ∧ intervalTree c' = intervalTree c ∧
  (∀ i ch j ch', chunkMap c !! i = Some ch → chunkMap c' !! i = None → chunkMap c' !! j = Some ch' →
     lastUsed ch ≤ lastUsed ch').
Proof.
  intros Hr Hk He Hmx Hlen. unfold evictOldest. rewrite He, Hmx, Hlen. cbn [Z.leb Z.compare Z.sub].
  set (l := sort_by_age (range (chunkMap c))).
  assert (Hperm : l ≡ₚ (map_to_list (chunkMap c)).*2) by (unfold l; by rewrite sort_by_age_perm).
  assert (Hl : zlen l = 1025).
  { unfold zlen. rewrite Hperm, length_fmap, length_map_to_list. exact Hlen. }
  rewrite Hl. change (1025 <? 102) with false. cbv iota. change (Z.to_nat 102) with 102%nat.
  assert (Hnd : NoDup (index <$> l)).
  { rewrite Hperm. assert (index <$> (map_to_list (chunkMap c)).*2 = (map_to_list (chunkMap c)).*1) as ->.
    { rewrite <-list_fmap_compose. apply list_fmap_ext. intros k [i ch] Hin. simpl.
      apply list_elem_of_lookup_2 in Hin. apply elem_of_map_to_list in Hin. by apply Hk. }
    apply NoDup_fst_map_to_list. }
  assert (Hinl : ∀ ch, ch ∈ l → chunkMap c !! index ch = Some ch).
  { intros ch. rewrite Hperm, list_elem_of_fmap. intros ([i x] & -> & Hx%elem_of_map_to_list). simpl.
    by rewrite (Hk i x Hx). }
  set (m' := foldl (λ m ch, delete (index ch) m) (chunkMap c) (take 102 l)).
  assert (Hm' : map_len m' = 923).
  { unfold m'. rewrite size_foldl_delete.
    - rewrite Hlen. unfold zlen in *. rewrite length_take. lia.
    - rewrite <-(take_drop 102 l), fmap_app in Hnd. by apply NoDup_app in Hnd as [? _].
    - intros ch Hin. rewrite Hinl; [eauto|]. rewrite <-(take_drop 102 l). apply elem_of_app. by left. }
  cbn [chunkMap set_map]. rewrite Hm'. change (2 * 923 <? maxCacheSize (set_map m' c)) with (1846 <? maxCacheSize c).
  rewrite Hmx. change (1846 <? 1024) with false. cbv iota. cbn [chunkMap set_map minIndex maxCacheSize evictCount intervalTree].
  assert (Hlook : ∀ i, m' !! i = if bool_decide (i ∈ index <$> take 102 l) then None else chunkMap c !! i)
    by (intros i; apply foldl_delete_lookup).
  split_and!; try done.
  - apply map_subseteq_spec. intros i ch. rewrite Hlook. by case_bool_decide.
  - intros i ch j ch' Hi Hi' Hj. rewrite Hlook in Hi', Hj.
    destruct (decide (i ∈ index <$> take 102 l)) as [Hin|Hin]; [|rewrite bool_decide_false in Hi' by done; congruence].
    destruct (decide (j ∈ index <$> take 102 l)) as [Hjn|Hjn]; [by rewrite bool_decide_true in Hj by done|].
    rewrite bool_decide_false in Hj by done.
    assert (ch ∈ take 102 l) as Hc.
    { apply list_elem_of_fmap in Hin as (x & -> & Hx). assert (x ∈ l) as Hxl.
      { rewrite <-(take_drop 102 l). apply elem_of_app. by left. }
      rewrite (Hinl x Hxl) in Hi. by injection Hi as ->. }
    assert (ch' ∈ drop 102 l) as Hc'.
    { assert (ch' ∈ l) as Hl'.
      { rewrite Hperm. apply list_elem_of_fmap. exists (j, ch'). split; [done|]. by apply elem_of_map_to_list. }
      rewrite <-(take_drop 102 l) in Hl'. apply elem_of_app in Hl' as [Ht|]; [|done].
      destruct Hjn. apply list_elem_of_fmap. exists ch'. split; [|done]. symmetry. by apply Hk. }
    pose proof (sort_by_age_sorted (range (chunkMap c))) as Hs. fold l in Hs. rewrite <-(take_drop 102 l) in Hs.
    by eapply StronglySorted_app_1_elem_of in Hs.
Qed.

Lemma map_len_insert (m : gmap Z chunk) i ch : map_len (<[i := ch]> m) ≤ map_len m + 1.
Proof. unfold map_len. rewrite map_size_insert. destruct (m !! i); unfold id; lia. Qed.

Lemma cache_wf_new n : cache_wf (newChunkCache n).
Proof. split; simpl; [done|done|done|]. intros i ch H. by rewrite lookup_empty in H. Qed.

Lemma cache_wf_get now i c : cache_wf c → cache_wf (getChunk now i c).1.
Proof.
  intros [H1 H2 H3 H4]. unfold getChunk. destruct (chunkMap c !! i) as [ch|] eqn:E; [|by split].
  split; simpl; try done.
  - unfold map_len in *. rewrite map_size_insert, E. done.
  - intros j x [[<- <-]|[_ Hj]]%lookup_insert_Some; [simpl; by apply (H4 _ ch)|by apply H4].
Qed.

(** The state of [addChunk] before it looks at the size. *)
Definition added (now : Z) (ch : chunk) (c : chunkCache) : chunkCache :=
  set_tree (insertInterval (intervalTree c) (index ch) (index ch) (touch now ch))
    (set_map (<[index ch := touch now ch]> (chunkMap c)) c).

Lemma addChunk_cases range now ch c :
  addChunk range now ch c =
  if index ch <? minIndex c then c
  else if maxCacheSize c <? map_len (chunkMap (added now ch c)) then evictOldest range (added now ch c)
  else added now ch c.
Proof. done. Qed.

Lemma added_keys now ch c :
  cache_wf c → minIndex c ≤ index ch →
  ∀ i x, chunkMap (added now ch c) !! i = Some x → index x = i ∧ minIndex c ≤ i.
Proof.
  intros [H1 H2 H3 H4] Hm i x. simpl. intros [[<- <-]|[_ Hi]]%lookup_insert_Some; [done|by apply H4].
Qed.

Lemma cache_wf_add range now ch c : is_range range → cache_wf c → cache_wf (addChunk range now ch c).
Proof.
  intros Hr Hw. rewrite addChunk_cases. pose proof Hw as [H1 H2 H3 H4].
  destruct (Z.ltb_spec (index ch) (minIndex c)); [done|].
  assert (Hk := added_keys now ch c Hw ltac:(lia)).
  assert (Hl : map_len (chunkMap (added now ch c)) ≤ 1025).
  { simpl. pose proof (map_len_insert (chunkMap c) (index ch) (touch now ch)). lia. }
  rewrite H1. destruct (Z.ltb_spec 1024 (map_len (chunkMap (added now ch c)))); [|by split].
  destruct (evictOldest_spec range (added now ch c) Hr (λ i x H, proj1 (Hk i x H)) H2 H1 ltac:(lia))
    as (E1 & E2 & E3 & E4 & E5 & _).
  split; [done|done|lia|]. intros i x Hi. rewrite E3. apply Hk. by eapply lookup_weaken.
Qed.

Lemma cache_wf_evictBefore i c : cache_wf c → cache_wf (evictBefore i c).
Proof.
  intros [H1 H2 H3 H4]. unfold evictBefore. destruct (Z.leb_spec i (minIndex c)); [by split|].
  split; simpl; try done.
  - assert (filter (λ kc : Z * chunk, i ≤ kc.1) (chunkMap c) ⊆ chunkMap c) as Hs by apply map_filter_subseteq.
    apply map_subseteq_size in Hs. unfold map_len in *. lia.
  - intros j ch [Hj Hle]%map_lookup_filter_Some. simpl in Hle. split; [by apply H4|done].
Qed.

Lemma cache_wf_clear c : cache_wf c → cache_wf (clear c).
Proof. intros [H1 H2 H3 H4]. split; simpl; [done|done|done|]. intros i ch H. by rewrite lookup_empty in H. Qed.

(** ** The tree *)

Fixpoint tree_all (P : Z → Prop) (t : intervalNode) : Prop :=
  match t with
  | TNil => True
  | TNode s _ _ l r _ => P s ∧ tree_all P l ∧ tree_all P r
  end.

(** A tree is ordered by [start], its nodes hold single points, and [mx] bounds what is
    below. *)
Fixpoint tree_ok (t : intervalNode) : Prop :=
  match t with
  | TNil => True
  | TNode s e cs l r mx =>
      e = s ∧ (∀ i ch, cs !! i = Some ch → i = s ∧ index ch = s) ∧ is_Some (cs !! s) ∧ s ≤ mx ∧
      tree_ok l ∧ tree_ok r ∧ tree_all (λ i, i ≤ s ∧ i ≤ mx) l ∧ tree_all (λ i, s < i ∧ i ≤ mx) r
  end.

(** The indices a tree was given. *)
Fixpoint tree_indices (t : intervalNode) : list Z :=
  match t with TNil => [] | TNode s _ _ l r _ => s :: tree_indices l ++ tree_indices r end.

Fixpoint tree_nodes (t : intervalNode) : nat :=
  match t with TNil => 0 | TNode _ _ _ l r _ => S (tree_nodes l + tree_nodes r) end.

Lemma tree_all_impl (P Q : Z → Prop) t : (∀ i, P i → Q i) → tree_all P t → tree_all Q t.
Proof. intros H. induction t; simpl; naive_solver. Qed.

Lemma tree_all_insert (P : Z → Prop) t i ch :
  P i → tree_all P t → tree_all P (insertInterval t i i ch).
Proof.
  intros Hi. induction t as [|s e cs l IHl r IHr mx]; simpl; [done|]. intros (? & ? & ?).
  destruct (i <=? s); simpl; auto.
Qed.

Lemma tree_all_elem P t i : tree_all P t → i ∈ tree_indices t → P i.
Proof.
  induction t as [|s e cs l IHl r IHr mx]; simpl; [by intros _ ?%elem_of_nil|].
  intros (? & ? & ?) [->|[?|?]%elem_of_app]%elem_of_cons; auto.
Qed.

Lemma tree_ok_insert t ch : tree_ok t → tree_ok (insertInterval t (index ch) (index ch) ch).
Proof.
  induction t as [|s e cs l IHl r IHr mx]; simpl.
  - intros _. split_and!; try done; try lia.
    + intros i x [<- <-]%lookup_singleton_Some. done.
    + rewrite lookup_singleton_eq. eauto.
  - intros (-> & Hcs & Hs & Hmx & Hl & Hr & Al & Ar).
    set (mx' := if mx <? index ch then index ch else mx).
    assert (mx ≤ mx' ∧ index ch ≤ mx') as [M1 M2] by (unfold mx'; destruct (Z.ltb_spec mx (index ch)); lia).
    set (cs' := if (index ch <? s) || (s <? index ch) then cs else <[index ch := ch]> cs).
    assert ((∀ i x, cs' !! i = Some x → i = s ∧ index x = s) ∧ is_Some (cs' !! s)) as [C1 C2].
    { unfold cs'. destruct (Z.ltb_spec (index ch) s), (Z.ltb_spec s (index ch)); simpl; try done.
      assert (index ch = s) as E by lia. rewrite E. split; [|rewrite lookup_insert_eq; eauto].
      intros i x [[<- <-]|[_ ?]]%lookup_insert_Some; [done|by apply Hcs]. }
    destruct (Z.leb_spec (index ch) s); simpl; fold mx' cs'; split_and!; try done; try lia; auto.
    + apply tree_all_insert; [lia|]. eapply tree_all_impl; [|exact Al]. simpl. lia.
    + eapply tree_all_impl; [|exact Ar]. simpl. lia.
    + eapply tree_all_impl; [|exact Al]. simpl. lia.
    + apply tree_all_insert; [lia|]. eapply tree_all_impl; [|exact Ar]. simpl. lia.
Qed.

Lemma tree_indices_insert t ch i :
  i ∈ tree_indices (insertInterval t (index ch) (index ch) ch) ↔ i = index ch ∨ i ∈ tree_indices t.
Proof.
  induction t as [|s e cs l IHl r IHr mx]; simpl.
  - rewrite list_elem_of_singleton, elem_of_nil. tauto.
  - destruct (index ch <=? s); simpl; rewrite !elem_of_cons, !elem_of_app, ?IHl, ?IHr; tauto.
Qed.

Lemma tree_nodes_insert t ch : tree_nodes (insertInterval t (index ch) (index ch) ch) = S (tree_nodes t).
Proof. induction t as [|s e cs l IHl r IHr mx]; simpl; [done|]. destruct (index ch <=? s); simpl; lia. Qed.

(** The search misses nothing in the range and finds nothing outside it. *)
Lemma find_spec t start fin i :
  tree_ok t →
  (∃ ch, ch ∈ findOverlapsRecursive t start fin ∧ index ch = i) ↔ i ∈ tree_indices t ∧ start ≤ i ≤ fin.
Proof.
  induction t as [|s e cs l IHl r IHr mx]; simpl.
  { intros _. split; [intros (ch & Hc & _); by apply elem_of_nil in Hc|intros [Hi _]; by apply elem_of_nil in Hi]. }
  intros (-> & Hcs & [c0 Hc0] & Hmx & Hl & Hr & Al & Ar). specialize (IHl Hl). specialize (IHr Hr).
  rewrite elem_of_cons, elem_of_app. destruct (Z.ltb_spec mx start).
  { split; [intros (ch & Hc & _); by apply elem_of_nil in Hc|].
    intros [[->|[Hi|Hi]] ?]; [lia|..].
    - apply (tree_all_elem _ _ _ Al) in Hi. lia.
    - apply (tree_all_elem _ _ _ Ar) in Hi. lia. }
  assert (Hmid : (∃ ch, ch ∈ (if (fin <? s) || (s <? start) then [] else filter (λ ch, start ≤ index ch ≤ fin) (map_to_list cs).*2)
      ∧ index ch = i) ↔ i = s ∧ start ≤ i ≤ fin).
  { destruct (Z.ltb_spec fin s), (Z.ltb_spec s start); simpl;
      try (split; [intros (ch & Hc & _); by apply elem_of_nil in Hc|lia]).
    split.
    - intros (ch & [Hrg Hin]%list_elem_of_filter & <-). apply list_elem_of_fmap in Hin as ([k x] & -> & Hk%elem_of_map_to_list).
      destruct (Hcs _ _ Hk) as [-> E]. simpl in *. rewrite E in *. done.
    - intros [-> Hrg]. exists c0. destruct (Hcs _ _ Hc0) as [_ E]. split; [|done].
      apply list_elem_of_filter. rewrite E. split; [done|]. apply list_elem_of_fmap. exists (s, c0).
      split; [done|]. by apply elem_of_map_to_list. }
  assert (Hright : (∃ ch, ch ∈ (if s <=? fin then findOverlapsRecursive r start fin else []) ∧ index ch = i) ↔
    i ∈ tree_indices r ∧ start ≤ i ≤ fin).
  { destruct (Z.leb_spec s fin); [done|]. split; [intros (ch & Hc & _); by apply elem_of_nil in Hc|].
    intros [Hi ?]. apply (tree_all_elem _ _ _ Ar) in Hi. lia. }
  set (mid := if _ || _ then _ else _) in *. set (rgt := if s <=? fin then _ else _) in *.
  transitivity ((∃ ch, ch ∈ findOverlapsRecursive l start fin ∧ index ch = i) ∨
    (∃ ch, ch ∈ mid ∧ index ch = i) ∨ (∃ ch, ch ∈ rgt ∧ index ch = i)).
  - setoid_rewrite elem_of_app. setoid_rewrite elem_of_app. naive_solver.
  - rewrite IHl, Hmid, Hright. tauto.
Qed.

(** ** Sequences of operations *)

(** What the goroutines of a prefetcher do to the cache, each under the mutex. *)
Inductive cache_op :=
| OpGet (i : Z)
| OpAdd (ch : chunk)
| OpEvictBefore (i : Z)
| OpClear.

Definition apply_op (range : gmap Z chunk → list chunk) (now : Z) (op : cache_op) (c : chunkCache) : chunkCache :=
  match op with
  | OpGet i => (getChunk now i c).1
  | OpAdd ch => addChunk range now ch c
  | OpEvictBefore i => evictBefore i c
  | OpClear => clear c
  end.

Fixpoint apply_ops (range : gmap Z chunk → list chunk) (now : Z) (ops : list cache_op) (c : chunkCache) : chunkCache :=
  match ops with [] => c | op :: ops => apply_ops range (now + 1) ops (apply_op range now op c) end.

Lemma cache_wf_op range now op c : is_range range → cache_wf c → cache_wf (apply_op range now op c).
Proof.
  intros Hr Hw. destruct op; simpl; auto using cache_wf_get, cache_wf_add, cache_wf_evictBefore, cache_wf_clear.
Qed.

Lemma cache_wf_ops range now ops c : is_range range → cache_wf c → cache_wf (apply_ops range now ops c).
Proof. intros Hr. revert now c. induction ops; intros now c Hw; simpl; auto using cache_wf_op. Qed.

(** The tree and the map together: the tree is in order and holds every mapped index. *)
Definition tree_covers (c : chunkCache) : Prop :=
  tree_ok (intervalTree c) ∧ ∀ i, is_Some (chunkMap c !! i) → i ∈ tree_indices (intervalTree c).

Lemma tree_covers_op range now op c :
  is_range range → cache_wf c → tree_covers c → tree_covers (apply_op range now op c).
Proof.
  intros Hr Hw [Ht Hc]. destruct op as [i|ch|i|]; simpl.
  - unfold getChunk. destruct (chunkMap c !! i) as [x|] eqn:E; [|done]. split; [done|]. simpl.
    intros j [y Hj]. apply Hc. apply lookup_insert_Some in Hj as [[<- _]|[_ Hj]]; eauto.
  - rewrite addChunk_cases. destruct (Z.ltb_spec (index ch) (minIndex c)); [done|].
    assert (tree_covers (added now ch c)) as Ha.
    { split; simpl; [by apply (tree_ok_insert _ (touch now ch))|]. intros j [y Hj].
      apply (tree_indices_insert _ (touch now ch)). simpl.
      apply lookup_insert_Some in Hj as [[<- _]|[_ Hj]]; [by left|right; apply Hc; eauto]. }
    destruct (Z.ltb_spec (maxCacheSize c) (map_len (chunkMap (added now ch c)))); [|done].
    pose proof Hw as [H1 H2 H3 H4].
    assert (map_len (chunkMap (added now ch c)) ≤ 1025).
    { simpl. pose proof (map_len_insert (chunkMap c) (index ch) (touch now ch)). lia. }
    assert (Hk := added_keys now ch c Hw ltac:(lia)).
    destruct (evictOldest_spec range (added now ch c) Hr (λ i x H, proj1 (Hk i x H)) H2 H1 ltac:(lia))
      as (_ & E2 & _ & _ & _ & E6 & _).
    destruct Ha as [Ha1 Ha2]. split; [by rewrite E6|]. rewrite E6. intros j [y Hj]. apply Ha2.
    exists y. by eapply lookup_weaken.
  - unfold evictBefore. destruct (Z.leb_spec i (minIndex c)); [done|]. split; [done|]. simpl.
    intros j [y [Hj _]%map_lookup_filter_Some]. apply Hc. eauto.
  - split; [done|]. simpl. intros j [y Hj]. by rewrite lookup_empty in Hj.
Qed.

Lemma tree_covers_ops range now ops c :
  is_range range → cache_wf c → tree_covers c → tree_covers (apply_ops range now ops c).
Proof.
  intros Hr. revert now c. induction ops; intros now c Hw Ht; simpl; auto using tree_covers_op, cache_wf_op.
Qed.

(** ** Properties *)

(** C29. The cache stays within its bound: after any sequence of operations it holds at most
    1024 chunks, each under its own index, none below the lowest index still wanted. *)
Theorem cache_bounded (range : gmap Z chunk → list chunk) (ops : list cache_op) (n : Z) :
  is_range range →
  let c := apply_ops range 0 ops (newChunkCache n) in
  map_len (chunkMap c) ≤ 1024 ∧ ∀ i ch, chunkMap c !! i = Some ch → index ch = i ∧ minIndex c ≤ i.
Proof.
  intros Hr c. destruct (cache_wf_ops range 0 ops _ Hr (cache_wf_new n)) as [_ _ H1 H2]. done.
Qed.

(** Eviction is least-recently-used: when a chunk makes the map too large, 102 chunks go,
    and none of them was used more recently than one that stays, whatever order Go ranges
    over the map in. *)
Theorem addChunk_evicts_oldest (range : gmap Z chunk → list chunk) (now : Z) (ch : chunk) (c : chunkCache) :
  is_range range → cache_wf c → minIndex c ≤ index ch →
  map_len (<[index ch := ch]> (chunkMap c)) = 1025 →
  let c' := addChunk range now ch c in
  map_len (chunkMap c') = 923 ∧
  ∀ i x j y, chunkMap (added now ch c) !! i = Some x → chunkMap c' !! i = None → chunkMap c' !! j = Some y →
    lastUsed x ≤ lastUsed y.
Proof.
  intros Hr Hw Hm Hl c'. subst c'. rewrite addChunk_cases. pose proof Hw as [H1 H2 H3 H4].
  destruct (Z.ltb_spec (index ch) (minIndex c)); [lia|].
  assert (map_len (chunkMap (added now ch c)) = 1025) as Hl'.
  { rewrite <-Hl. simpl. unfold map_len. by rewrite !map_size_insert. }
  rewrite H1, Hl'. change (1024 <? 1025) with true. cbv iota.
  assert (Hk := added_keys now ch c Hw Hm).
  destruct (evictOldest_spec range (added now ch c) Hr (λ i x H, proj1 (Hk i x H)) H2 H1 Hl')
    as (E1 & _ & _ & _ & _ & _ & E7). done.
Qed.

(** The interval tree answers a range query without missing a cached chunk: every index
    of the map in the range is found, and everything found is in the range. *)
Theorem findOverlappingChunks_complete (range : gmap Z chunk → list chunk) (ops : list cache_op) (n start fin : Z) :
  is_range range →
  let c := apply_ops range 0 ops (newChunkCache n) in
  (∀ i, is_Some (chunkMap c !! i) → start ≤ i ≤ fin →
     ∃ ch, ch ∈ findOverlappingChunks c start fin ∧ index ch = i) ∧
  (∀ ch, ch ∈ findOverlappingChunks c start fin → start ≤ index ch ≤ fin).
Proof.
  intros Hr c. assert (tree_covers c) as [Ht Hc].
  { apply tree_covers_ops; [done|apply cache_wf_new|]. split; [done|]. intros i [x Hx]. simpl in Hx; by rewrite lookup_empty in Hx. }
  split.
  - intros i Hi Hrg. apply find_spec; [done|]. split; [by apply Hc|done].
  - intros ch Hin. eapply (find_spec _ start fin (index ch)); [exact Ht|]. eauto.
Qed.

(** The tree never shrinks: adding a chunk adds a node even when the chunk replaces one
    or others are evicted, and dropping the chunks before an index removes none, so the data
    of evicted chunks stays referenced until the prefetcher is closed. *)
Theorem intervalTree_only_grows (range : gmap Z chunk → list chunk) (now : Z) (ch : chunk) (i : Z) (c : chunkCache) :
  is_range range → cache_wf c → minIndex c ≤ index ch →
  tree_nodes (intervalTree (addChunk range now ch c)) = S (tree_nodes (intervalTree c)) ∧
  intervalTree (evictBefore i c) = intervalTree c.
Proof.
  intros Hr Hw Hm. split; [|unfold evictBefore; by case_match].
  rewrite addChunk_cases. pose proof Hw as [H1 H2 H3 H4]. destruct (Z.ltb_spec (index ch) (minIndex c)); [lia|].
  assert (tree_nodes (intervalTree (added now ch c)) = S (tree_nodes (intervalTree c))) as Hn
    by apply (tree_nodes_insert _ (touch now ch)).
  destruct (Z.ltb_spec (maxCacheSize c) (map_len (chunkMap (added now ch c)))); [|done].
  assert (map_len (chunkMap (added now ch c)) ≤ 1025).
  { simpl. pose proof (map_len_insert (chunkMap c) (index ch) (touch now ch)). lia. }
  assert (Hk := added_keys now ch c Hw Hm).
  destruct (evictOldest_spec range (added now ch c) Hr (λ i x H, proj1 (Hk i x H)) H2 H1 ltac:(lia))
    as (_ & _ & _ & _ & _ & -> & _). done.
Qed.

(** *** A concrete cache *)

Definition ex_range (m : gmap Z chunk) : list chunk := (map_to_list m).*2.
Definition ex_chunk (i : Z) : chunk := {| index := i; data := bytes_of "x"; size := 1; lastUsed := 0 |}.
Definition ex_ops : list cache_op := (λ n, OpAdd (ex_chunk (Z.of_nat n))) <$> seq 0 1024.
Definition ex_full : chunkCache := apply_ops ex_range 0 ex_ops (newChunkCache 10).

Lemma ex_is_range : is_range ex_range.
Proof. by intros m. Qed.

Lemma cache_bounded_witness : map_len (chunkMap ex_full) ≤ 1024.
Proof. unfold ex_full. destruct (cache_bounded ex_range ex_ops 10 ex_is_range) as [H _]. exact H. Defined.

Lemma addChunk_evicts_oldest_witness :
  map_len (chunkMap (addChunk ex_range 5000 (ex_chunk 2000) ex_full)) = 923.
Proof.
  apply (addChunk_evicts_oldest ex_range 5000 (ex_chunk 2000) ex_full).
  - exact ex_is_range.
  - apply cache_wf_ops; [exact ex_is_range|apply cache_wf_new].
  - vm_compute. discriminate.
  - vm_compute. reflexivity.
Defined.

Lemma findOverlappingChunks_complete_witness :
  index <$> findOverlappingChunks (apply_ops ex_range 0 (OpAdd ∘ ex_chunk <$> [1; 2; 3; 5; 10]) (newChunkCache 10)) 2 5 = [2; 3; 5] ∧
  ∃ ch, ch ∈ findOverlappingChunks (apply_ops ex_range 0 (OpAdd ∘ ex_chunk <$> [1; 2; 3; 5; 10]) (newChunkCache 10)) 2 5 ∧ index ch = 3.
Proof.
  split; [vm_compute; reflexivity|].
  apply (findOverlappingChunks_complete ex_range (OpAdd ∘ ex_chunk <$> [1; 2; 3; 5; 10]) 10 2 5 ex_is_range); [|lia].
  by eexists.
Defined.

Lemma intervalTree_only_grows_witness :
  tree_nodes (intervalTree (addChunk ex_range 1 (ex_chunk 3) (addChunk ex_range 0 (ex_chunk 3) (newChunkCache 10)))) = 2%nat.
Proof.
  rewrite (proj1 (intervalTree_only_grows ex_range 1 (ex_chunk 3) 0 (addChunk ex_range 0 (ex_chunk 3) (newChunkCache 10))
    ex_is_range ltac:(apply cache_wf_add; [exact ex_is_range|apply cache_wf_new]) ltac:(vm_compute; discriminate))).
  reflexivity.
Defined.
