(* ===== verification/Prefetch.v ===== *)
(** * The prefetching reader ([pkg/prefetch/prefetch.go])

    [ReadAt] and everything below it on the chunk cache.  The underlying reader is a
    parameter that obeys [io.ReaderAt] for some file; the other goroutines (read-ahead,
    parallel readers, eviction) act on the cache between any two steps of a read, and every
    attempt to read may time out or fail.  The theorems hold for all of these. *)

From S2P Require Import Prelude GoStrings PrefetchCache.

Local Open Scope Z_scope.

Definition ErrOffsetOutOfRange : error := Sentinel "ErrOffsetOutOfRange".
Definition ErrReadFailed : error := Sentinel "ErrReadFailed".
Definition ErrPrefetcherClosed : error := Sentinel "ErrPrefetcherClosed".

(** ** Configuration; durations are in nanoseconds. *)

Record Config := {
  WindowSize : Z;
  ChunkSize : Z;
  MaxParallelReads : Z;
  ReadTimeout : Z;
  RetryInterval : Z;
  MaxRetries : Z;
}.

Definition DefaultConfig : Config :=
  {| WindowSize := Z.shiftl 1 20; ChunkSize := Z.shiftl 1 16; MaxParallelReads := 4;
     ReadTimeout := Z.shiftl 1 63 - 1; RetryInterval := 500 * 1000000; MaxRetries := 3 |}.

(** The defaulting of [New]. *)
Definition normalize (configs : list Config) : Config :=
  let config := match configs with c :: _ => c | [] => DefaultConfig end in
  let pos (f : Config → Z) := if f config <=? 0 then f DefaultConfig else f config in
  let cs := pos ChunkSize in
  let ws := pos WindowSize in
  {| WindowSize := if ws <? cs then cs else ws;
     ChunkSize := cs;
     MaxParallelReads := pos MaxParallelReads;
     ReadTimeout := pos ReadTimeout;
     RetryInterval := pos RetryInterval;
     MaxRetries := if MaxRetries config <? 0 then MaxRetries DefaultConfig else MaxRetries config |}.

Record prefetcher := { psize : Z; config : Config; closed : bool }.

(** [New]; [reader] tells whether there is one. *)
Definition New (reader : bool) (sz : Z) (configs : list Config) : res (prefetcher * chunkCache) :=
  if negb reader then Err (Errorf "reader cannot be nil" [])
  else let config := normalize configs in
       Ok ({| psize := sz; config := config; closed := false |}, newChunkCache (ChunkSize config)).

(** ** Reading a chunk from the underlying reader *)

(** One call of [reader.ReadAt]: it is overtaken by the timeout, or returns the bytes it
    put into the buffer and an error. *)
Inductive attempt := Timeout | Done (d : bytes) (err : option error).

Definition zeros (n : Z) : bytes := replicate (Z.to_nat n) (Ascii.ascii_of_nat 0).

(** The buffer of [n] bytes after [d] was read into it. *)
Definition fill (n : Z) (d : bytes) : bytes := d ++ zeros (n - zlen d).

Definition readChunkOnce (p : prefetcher) (a : attempt) : bytes * Z * option error :=
  match a with
  | Timeout => (zeros (ChunkSize (config p)), 0, Some ErrReadFailed)
  | Done d err => (fill (ChunkSize (config p)) d, zlen d, err)
  end.

(** [waitForRetry]: which case of the [select] was taken. *)
Inductive retry_wait := RetryClosed | RetryElapsed.
Definition waitForRetry (w : retry_wait) : bool := match w with RetryClosed => false | RetryElapsed => true end.

Definition p_Size (p : prefetcher) : Z := psize p.

(** The attempts from number [k] on, [n] of them; [wait k] is [waitForRetry] before the
    [k]th; the error of the prefetcher's context, which only [Close] ends, is
    [context.Canceled]. *)
Fixpoint retry_loop (p : prefetcher) (attempts : nat → attempt) (wait : nat → retry_wait)
    (n k : nat) (last : bytes * Z * option error) : bytes * Z * option error :=
  match n with
  | O => last
  | S n =>
      if (negb (Nat.eqb k 0)) && negb (waitForRetry (wait k)) then ([], 0, Some Canceled)
      else
        let r := readChunkOnce p (attempts k) in
        match r.2 with
        | None => r
        | Some e => if bool_decide (e = EOF) then r else retry_loop p attempts wait n (S k) r
        end
  end.

Definition readChunkWithRetries (p : prefetcher) (attempts : nat → attempt) (wait : nat → retry_wait) :
    bytes * Z * option error :=
  retry_loop p attempts wait (Z.to_nat (MaxRetries (config p) + 1)) 0 ([], 0, None).

(** ** Fetching a chunk *)

(** How the [select] on the semaphore ends. *)
Inductive acquire := Acquired | CtxDone | AcquireTimeout.

(** What happens around one [fetchChunk]: a concurrent flight for the same chunk whose
    result is shared, or the own flight. *)
Record fetch_env := {
  fe_shared : option (res chunk);
  fe_acquire : acquire;
  fe_attempts : nat → attempt;
  fe_wait : nat → retry_wait;
}.

Section read.
Context (range : gmap Z chunk → list chunk) (now : Z).

Definition fetchChunk (p : prefetcher) (env : fetch_env) (chunkIdx : Z) (c : chunkCache) : chunkCache * res chunk :=
  match fe_shared env with
  | Some r => (c, r)
  | None =>
      match getChunk now chunkIdx c with
      | (c, Some ch) => (c, Ok ch)
      | (c, None) =>
          match fe_acquire env with
          | CtxDone => (c, Err Canceled)
          | AcquireTimeout => (c, Err ErrReadFailed)
          | Acquired =>
              match readChunkWithRetries p (fe_attempts env) (fe_wait env) with
              | (buffer, n, err) =>
                  if match err with None => true | Some e => bool_decide (e = EOF) end
                  then let ch := {| index := chunkIdx; data := buffer; size := n; lastUsed := now |} in
                       (addChunk range now ch c, Ok ch)
                  else (c, Err ErrReadFailed)
              end
          end
      end
  end.

Definition p_getChunk (p : prefetcher) (env : fetch_env) (chunkIdx : Z) (c : chunkCache) : chunkCache * res chunk :=
  match getChunk now chunkIdx c with
  | (c, Some ch) => (c, Ok ch)
  | (c, None) => fetchChunk p env chunkIdx c
  end.

Definition minimumInt (first second : Z) : Z := if first <? second then first else second.

(** What surrounds the read of one chunk: the actions of other goroutines before the cache
    is looked up, and between that and the fetch. *)
Record step_env := { se_before : list cache_op; se_fetch : fetch_env }.

(** The loop of [copyChunks], from [idx]; [out] is what is in the buffer already.  [n]
    bounds the iterations: it is the number of chunks up to [endChunk]. *)
Fixpoint copy_loop (p : prefetcher) (envs : Z → step_env) (buflen offset startChunk : Z) (n : nat) (idx : Z)
    (out : bytes) (c : chunkCache) : chunkCache * bytes * option error :=
  match n with
  | O => (c, out, None)
  | S n =>
      if buflen <=? zlen out then (c, out, None)
      else
        let c := apply_ops range now (se_before (envs idx)) c in
        match p_getChunk p (se_fetch (envs idx)) idx c with
        | (c, Err err) => (c, out, Some err)
        | (c, Ok cachedChunk) =>
            let chunkOffset := if idx =? startChunk then Z.rem offset (ChunkSize (config p)) else 0 in
            let available := size cachedChunk - chunkOffset in
            if available <=? 0 then (c, out, None)
            else
              let count := minimumInt available (buflen - zlen out) in
              let piece := take (Z.to_nat count) (drop (Z.to_nat chunkOffset) (data cachedChunk)) in
              copy_loop p envs buflen offset startChunk n (idx + 1) (out ++ piece) c
        end
  end.

Definition copyChunks (p : prefetcher) (envs : Z → step_env) (buflen offset startChunk endChunk : Z) (c : chunkCache) :
    chunkCache * bytes * option error :=
  copy_loop p envs buflen offset startChunk (Z.to_nat (endChunk - startChunk + 1)) startChunk [] c.

(** ** [ReadAt] *)

Definition validateRead (p : prefetcher) (buflen offset : Z) : option error :=
  if offset <? 0 then Some ErrOffsetOutOfRange
  else if buflen =? 0 then None
  else if psize p =? 0 then Some EOF
  else if (0 <? psize p) && (psize p <=? offset) then Some ErrOffsetOutOfRange
  else None.

(** The read of [buflen] bytes at [off]: the bytes that were put into the buffer. *)
Definition ReadAt (p : prefetcher) (envs : Z → step_env) (buflen off : Z) (c : chunkCache) :
    chunkCache * bytes * option error :=
  if closed p then (c, [], Some ErrPrefetcherClosed)
  else match validateRead p buflen off with
  | Some e => (c, [], Some e)
  | None =>
      if buflen =? 0 then (c, [], None)
      else
        let startChunkIdx := Z.quot off (ChunkSize (config p)) in
        let fin := wrap64 (off + buflen) in
        let endChunkIdx := Z.quot (wrap64 (fin - 1)) (ChunkSize (config p)) in
        let c := evictBefore startChunkIdx c in
        if (0 <? psize p) && (psize p <? fin) && (startChunkIdx =? endChunkIdx) then (c, [], Some EOF)
        else
          let '(c, out, err) := copyChunks p envs buflen off startChunkIdx endChunkIdx c in
          (c, out, match err with
                   | Some e => Some e
                   | None => if (0 <? psize p) && (psize p <=? wrap64 (off + zlen out)) then Some EOF else None
                   end)
  end.
End read.

(** ** Scheduling *)

Definition windowEndChunk (p : prefetcher) (startChunk : Z) : Z :=
  let chunkSize := ChunkSize (config p) in
  let windowChunks := Z.quot (wrap64 (wrap64 (WindowSize (config p) + chunkSize) - 1)) chunkSize in
  let windowChunks := if windowChunks <? 1 then 1 else windowChunks in
  let windowEnd := wrap64 (wrap64 (startChunk + windowChunks) - 1) in
  if 0 <? psize p then
    let maxChunk := Z.quot (psize p - 1) chunkSize in
    if maxChunk <? windowEnd then maxChunk else windowEnd
  else windowEnd.

(** The chunks [scheduleRequiredChunks] starts a goroutine for. *)
Definition scheduleRequiredChunks (p : prefetcher) (c : chunkCache) (startChunk endChunk : Z) : list Z :=
  if closed p then []
  else filter (λ i, hasChunk c i = false) (seqZ startChunk (endChunk - startChunk + 1)).

(** The chunks [scheduleReadAhead] starts a goroutine for. *)
Fixpoint ahead_loop (c : chunkCache) (limit : Z) (scheduled : Z) (l : list Z) : list Z :=
  match l with
  | [] => []
  | i :: l =>
      if scheduled <? limit then
        if hasChunk c i then ahead_loop c limit scheduled l else i :: ahead_loop c limit (scheduled + 1) l
      else []
  end.

Definition scheduleReadAhead (p : prefetcher) (c : chunkCache) (endChunk windowEnd : Z) : list Z :=
  if closed p then []
  else
    let limit := Z.quot (WindowSize (config p)) (ChunkSize (config p)) in
    let limit := if 1000 <? limit then 1000 else limit in
    ahead_loop c limit 0 (seqZ (endChunk + 1) (windowEnd - endChunk)).

(** What [readAhead] does to the cache: nothing when the prefetcher is closing, the chunk is
    there or the semaphore is taken. *)
Definition readAhead (p : prefetcher) (now i : Z) (ctxDone semaphoreFree : bool) (d : bytes) (err : option error)
    (c : chunkCache) : list cache_op :=
  if ctxDone || hasChunk c i || negb semaphoreFree then []
  else if match err with None => true | Some e => bool_decide (e = EOF) end
  then [OpAdd {| index := i; data := fill (ChunkSize (config p)) d; size := zlen d; lastUsed := now |}]
  else [].

(** ** What the reads rely on *)

Definition config_ok (cfg : Config) : Prop :=
  0 < ChunkSize cfg ∧ ChunkSize cfg ≤ WindowSize cfg ∧ 0 < MaxParallelReads cfg ∧
  0 < ReadTimeout cfg ∧ 0 < RetryInterval cfg ∧ 0 ≤ MaxRetries cfg.

(** The contract of [io.ReaderAt] for a call with a buffer of [len] bytes at [off], without its
    demand of an error for a read that is short at the end of the file. *)
Definition read_ok (file : bytes) (len off : Z) (a : attempt) : Prop :=
  match a with
  | Timeout => True
  | Done d err =>
      zlen d ≤ len ∧ d = take (length d) (drop (Z.to_nat off) file) ∧
      match err with
      | None => zlen d = len ∨ zlen file ≤ off + zlen d
      | Some e => e = EOF → zlen file ≤ off + zlen d
      end
  end.

(** A chunk holds the bytes of the file at its place, and is short only at the end. *)
Definition valid_chunk (file : bytes) (cs : Z) (ch : chunk) : Prop :=
  0 ≤ size ch ≤ cs ∧
  take (Z.to_nat (size ch)) (data ch) = take (Z.to_nat (size ch)) (drop (Z.to_nat (index ch * cs)) file) ∧
  length (take (Z.to_nat (size ch)) (data ch)) = Z.to_nat (size ch) ∧
  (size ch = cs ∨ zlen file ≤ index ch * cs + size ch).

Definition cache_valid (file : bytes) (cs : Z) (c : chunkCache) : Prop :=
  ∀ i ch, chunkMap c !! i = Some ch → index ch = i ∧ valid_chunk file cs ch.

Definition op_ok (file : bytes) (cs : Z) (op : cache_op) : Prop :=
  match op with OpAdd ch => valid_chunk file cs ch | _ => True end.

(** A shared flight gives what a flight of its own would: a valid chunk or one of the errors
    of [fetchChunk]. *)
Definition fetch_ok (file : bytes) (cs i : Z) (env : fetch_env) : Prop :=
  match fe_shared env with
  | Some (Ok ch) => index ch = i ∧ valid_chunk file cs ch
  | Some (Err e) => e = Canceled ∨ e = ErrReadFailed
  | None => True
  end ∧ ∀ k, read_ok file cs (i * cs) (fe_attempts env k).

Definition env_ok (file : bytes) (cs : Z) (envs : Z → step_env) : Prop :=
  ∀ i, 0 ≤ i → Forall (op_ok file cs) (se_before (envs i)) ∧ fetch_ok file cs i (se_fetch (envs i)).

Lemma normalize_ok configs : config_ok (normalize configs).
Proof.
  assert (Hpos : ∀ f cfg, 0 < f DefaultConfig → 0 < (if f cfg <=? 0 then f DefaultConfig else f cfg)).
  { intros f cfg Hd. destruct (Z.leb_spec (f cfg) 0); lia. }
  unfold normalize. set (cfg := match configs with c :: _ => c | [] => DefaultConfig end).
  repeat split; cbn [ChunkSize WindowSize MaxParallelReads ReadTimeout RetryInterval MaxRetries];
    try (by apply Hpos).
  - destruct (Z.ltb_spec (if WindowSize cfg <=? 0 then WindowSize DefaultConfig else WindowSize cfg)
      (if ChunkSize cfg <=? 0 then ChunkSize DefaultConfig else ChunkSize cfg)); lia.
  - destruct (Z.ltb_spec (MaxRetries cfg) 0); [done|lia].
Qed.

Lemma zlen_nonneg {A} (l : list A) : 0 ≤ zlen l.
Proof. unfold zlen. lia. Qed.

Lemma zlen_app {A} (l k : list A) : zlen (l ++ k) = zlen l + zlen k.
Proof. unfold zlen. rewrite length_app. lia. Qed.

(** What was read into the buffer makes a valid chunk. *)
Lemma filled_valid file cs i d err t :
  read_ok file cs (i * cs) (Done d err) → (err = None ∨ err = Some EOF) →
  valid_chunk file cs {| index := i; data := fill cs d; size := zlen d; lastUsed := t |}.
Proof.
  intros (Hlen & Hd & He) Herr. unfold valid_chunk, fill. cbn [size data index].
  assert (Hn : Z.to_nat (zlen d) = length d) by (unfold zlen; lia). rewrite Hn.
  rewrite take_app_length. split; [split; [apply zlen_nonneg|done]|]. split; [done|]. split; [done|].
  destruct Herr as [->| ->]; [destruct He; [by left|by right]|right; by apply He].
Qed.

Lemma retry_loop_ok p file cs i attempts wait n k last :
  ChunkSize (config p) = cs → (∀ k, read_ok file cs (i * cs) (attempts k)) →
  let r := retry_loop p attempts wait n k last in
  r = last ∨
  ((r.2 = None ∨ r.2 = Some EOF) →
   ∀ t, valid_chunk file cs {| index := i; data := r.1.1; size := r.1.2; lastUsed := t |}).
Proof.
  intros Hcs Hr. revert k last. induction n as [|n IH]; intros k last; cbn [retry_loop]; [by left|].
  destruct (negb (Nat.eqb k 0) && negb (waitForRetry (wait k))).
  { right. simpl. intros [|]; done. }
  assert (Hv : ∀ x, x = readChunkOnce p (attempts k) → (x.2 = None ∨ x.2 = Some EOF) →
    ∀ t, valid_chunk file cs {| index := i; data := x.1.1; size := x.1.2; lastUsed := t |}).
  { intros x -> Hx t. specialize (Hr k). unfold readChunkOnce in *. destruct (attempts k) as [|d err]; simpl in *.
    - destruct Hx; done.
    - rewrite Hcs. by eapply filled_valid. }
  specialize (Hv _ eq_refl). destruct (readChunkOnce p (attempts k)) as [[b m] [e|]]; simpl in *.
  - case_bool_decide as He.
    + right. exact Hv.
    + destruct (IH (S k) (b, m, Some e)) as [->|Hv']; [|by right].
      right. simpl. intros [|[= ->]]; done.
  - right. exact Hv.
Qed.

Lemma readChunkWithRetries_ok p file cs i attempts wait b m err t :
  config_ok (config p) → ChunkSize (config p) = cs → (∀ k, read_ok file cs (i * cs) (attempts k)) →
  readChunkWithRetries p attempts wait = (b, m, err) → (err = None ∨ err = Some EOF) →
  valid_chunk file cs {| index := i; data := b; size := m; lastUsed := t |}.
Proof.
  intros (_ & _ & _ & _ & _ & Hm) Hcs Hr. unfold readChunkWithRetries.
  replace (Z.to_nat (MaxRetries (config p) + 1)) with (S (Z.to_nat (MaxRetries (config p)))) by lia.
  cbn [retry_loop Nat.eqb negb andb].
  assert (Hv : ∀ x, x = readChunkOnce p (attempts 0%nat) → (x.2 = None ∨ x.2 = Some EOF) →
    valid_chunk file cs {| index := i; data := x.1.1; size := x.1.2; lastUsed := t |}).
  { intros x -> Hx. specialize (Hr 0%nat). unfold readChunkOnce in *. destruct (attempts 0%nat) as [|d e]; simpl in *.
    - destruct Hx; done.
    - rewrite Hcs. by eapply filled_valid. }
  specialize (Hv _ eq_refl). destruct (readChunkOnce p (attempts 0%nat)) as [[b0 m0] [e|]]; simpl in *.
  - case_bool_decide as He; [intros [= -> -> <-]; subst; auto|].
    intros Hl Herr. destruct (retry_loop_ok p file cs i attempts wait (Z.to_nat (MaxRetries (config p))) 1 (b0, m0, Some e) Hcs Hr) as [E|E].
    + rewrite Hl in E. injection E as -> -> ->. destruct Herr as [|[= ->]]; done.
    + rewrite Hl in E. by apply E.
  - intros [= -> -> <-]. auto.
Qed.

(** ** The cache only ever holds valid chunks *)

Lemma valid_touch file cs now ch : valid_chunk file cs ch → valid_chunk file cs (touch now ch).
Proof. done. Qed.

Lemma evictOldest_sub range c : chunkMap (evictOldest range c) ⊆ chunkMap c.
Proof.
  unfold evictOldest. case_match; [done|].
  set (m := foldl _ _ _). assert (m ⊆ chunkMap c).
  { apply map_subseteq_spec. intros i ch. unfold m. rewrite foldl_delete_lookup. by case_bool_decide. }
  case_match; done.
Qed.

Section validity.
Context (file : bytes) (cs : Z) (range : gmap Z chunk → list chunk).

Lemma cache_valid_sub c c' : cache_valid file cs c → chunkMap c' ⊆ chunkMap c → cache_valid file cs c'.
Proof. intros Hv Hs i ch Hi. apply Hv. by eapply lookup_weaken. Qed.

Lemma cache_valid_add now ch c :
  cache_valid file cs c → valid_chunk file cs ch → cache_valid file cs (addChunk range now ch c).
Proof.
  intros Hv Hc. rewrite addChunk_cases. case_match; [done|].
  assert (cache_valid file cs (added now ch c)) as Ha.
  { intros i x Hi. cbn [chunkMap added set_tree set_map] in Hi.
    apply lookup_insert_Some in Hi as [[<- <-]|[_ Hi]]; [done|by apply Hv]. }
  case_match; [|done]. eapply cache_valid_sub; [done|apply evictOldest_sub].
Qed.

Lemma cache_valid_get now i c ch c' :
  cache_valid file cs c → getChunk now i c = (c', ch) →
  cache_valid file cs c' ∧ match ch with Some ch => index ch = i ∧ valid_chunk file cs ch | None => True end.
Proof.
  intros Hv. unfold getChunk. destruct (chunkMap c !! i) as [x|] eqn:E; intros [= <- <-]; [|done].
  destruct (Hv _ _ E) as [Hi Hx]. split; [|done].
  intros j y Hj. cbn [chunkMap set_map] in Hj.
  apply lookup_insert_Some in Hj as [[<- <-]|[_ Hj]]; [done|by apply Hv].
Qed.

Lemma cache_valid_op now op c :
  op_ok file cs op → cache_valid file cs c → cache_valid file cs (apply_op range now op c).
Proof.
  intros Ho Hv. destruct op as [i|ch|i|]; simpl.
  - destruct (getChunk now i c) as [c' ch] eqn:E. by eapply cache_valid_get in E as [? _].
  - by apply cache_valid_add.
  - unfold evictBefore. case_match; [done|]. eapply cache_valid_sub; [done|]. apply map_filter_subseteq.
  - intros i ch Hi. simpl in Hi. by rewrite lookup_empty in Hi.
Qed.

Lemma cache_valid_ops now ops c :
  Forall (op_ok file cs) ops → cache_valid file cs c → cache_valid file cs (apply_ops range now ops c).
Proof.
  intros Ho. revert now c. induction Ho as [|op ops Hop _ IH]; intros now c Hv; simpl; [done|].
  apply IH. by apply cache_valid_op.
Qed.

Definition fetch_error (e : error) : Prop := e = Canceled ∨ e = ErrReadFailed.

Lemma p_getChunk_ok now p env i c c' r :
  config_ok (config p) → ChunkSize (config p) = cs → fetch_ok file cs i env → cache_valid file cs c →
  p_getChunk range now p env i c = (c', r) →
  cache_valid file cs c' ∧
  match r with Ok ch => index ch = i ∧ valid_chunk file cs ch | Err e => fetch_error e end.
Proof.
  intros Hcfg Hcs [Hsh Hat] Hv. unfold p_getChunk. destruct (getChunk now i c) as [c1 [ch|]] eqn:E.
  { destruct (cache_valid_get _ _ _ _ _ Hv E). by intros [= <- <-]. }
  destruct (cache_valid_get _ _ _ _ _ Hv E) as [Hv1 _]. unfold fetchChunk.
  destruct (fe_shared env) as [[ch|e]|]; [by intros [= <- <-]|by intros [= <- <-]|]. clear Hsh.
  destruct (getChunk now i c1) as [c2 [ch|]] eqn:E2; destruct (cache_valid_get _ _ _ _ _ Hv1 E2) as [Hv2 Hch].
  { by intros [= <- <-]. }
  destruct (fe_acquire env); [|intros [= <- <-]; split; [done|by left]|intros [= <- <-]; split; [done|by right]].
  destruct (readChunkWithRetries p (fe_attempts env) (fe_wait env)) as [[b m] err] eqn:Er.
  destruct (match err with None => true | Some e => bool_decide (e = EOF) end) eqn:Eerr.
  - assert (err = None ∨ err = Some EOF) as Herr.
    { destruct err as [e|]; [right; f_equal; by apply bool_decide_eq_true in Eerr|by left]. }
    assert (valid_chunk file cs {| index := i; data := b; size := m; lastUsed := now |}) as Hvc
      by (by eapply readChunkWithRetries_ok).
    intros [= <- <-]. split; [by apply cache_valid_add|done].
  - intros [= <- <-]. split; [done|by right].
Qed.

(** The part of a valid chunk a read takes is the part of the file. *)
Lemma valid_piece ch o n :
  valid_chunk file cs ch → 0 < cs → 0 ≤ index ch → 0 ≤ o → 0 ≤ n → o + n ≤ size ch →
  let piece := take (Z.to_nat n) (drop (Z.to_nat o) (data ch)) in
  piece = take (Z.to_nat n) (drop (Z.to_nat (index ch * cs + o)) file) ∧ zlen piece = n.
Proof.
  intros (Hs & Hd & Hl & _) Hcs Hi Ho Hn Hle piece.
  assert (piece = take (Z.to_nat n) (drop (Z.to_nat o) (take (Z.to_nat (size ch)) (data ch)))) as Hp.
  { unfold piece. rewrite skipn_firstn_comm, take_take. f_equal. lia. }
  split.
  - rewrite Hp, Hd, skipn_firstn_comm, take_take, drop_drop. f_equal; [lia|]. f_equal. nia.
  - rewrite Hp. unfold zlen. rewrite length_take, length_drop, Hl. lia.
Qed.

(** A chunk that starts at or after the end of the file is empty. *)
Lemma valid_past_end ch :
  valid_chunk file cs ch → 0 ≤ index ch * cs → zlen file ≤ index ch * cs → size ch = 0.
Proof.
  intros (Hs & Hd & Hl & _) Hi Hf. rewrite Hd in Hl. rewrite drop_ge in Hl by (unfold zlen in Hf; lia).
  rewrite take_nil in Hl. simpl in Hl. lia.
Qed.

Section copy.
Context (p : prefetcher) (now : Z) (envs : Z → step_env) (buflen off : Z).
Context (Hcfg : config_ok (config p)) (Hcs : ChunkSize (config p) = cs) (Henv : env_ok file cs envs).
Context (Hoff : 0 ≤ off).

Abbreviation start := (Z.quot off cs).

(** Where the next chunk continues what is in the buffer. *)
Definition at_position (idx : Z) (out : bytes) : Prop :=
  off + zlen out = idx * cs + (if idx =? start then Z.rem off cs else 0) ∨
  (zlen file ≤ off + zlen out ∧ off + zlen out ≤ idx * cs ∧ idx ≠ start) ∨
  buflen ≤ zlen out.

Lemma copy_loop_ok n idx out c c' out' err :
  start ≤ idx → 0 ≤ start → off + buflen ≤ (idx + Z.of_nat n) * cs → zlen out ≤ buflen →
  out = take (length out) (drop (Z.to_nat off) file) → at_position idx out → cache_valid file cs c →
  copy_loop range now p envs buflen off start n idx out c = (c', out', err) →
  cache_valid file cs c' ∧ out' = take (length out') (drop (Z.to_nat off) file) ∧ zlen out' ≤ buflen ∧
  match err with
  | None => zlen out' = buflen ∨ zlen file ≤ off + zlen out'
  | Some e => fetch_error e
  end.
Proof.
  assert (Hcs0 : 0 < cs) by (destruct Hcfg; lia).
  revert idx out c. induction n as [|n IH]; intros idx out c Hidx Hst Hend Hlen Hout Hpos Hv; cbn [copy_loop].
  - intros [= <- <- <-]. split_and!; try done. pose proof (zlen_nonneg out).
    pose proof (Z.rem_bound_pos off cs Hoff Hcs0). destruct Hpos as [Hp|[(Hp1 & Hp2 & _)|Hp]].
    + left. destruct (Z.eqb_spec idx start); lia.
    + by right.
    + left. lia.
  - destruct (Z.leb_spec buflen (zlen out)); [intros [= <- <- <-]; split_and!; try done; left; lia|].
    set (c1 := apply_ops range now (se_before (envs idx)) c).
    assert (Hv1 : cache_valid file cs c1) by (apply cache_valid_ops; [apply Henv; lia|done]).
    destruct (p_getChunk range now p (se_fetch (envs idx)) idx c1) as [c2 r] eqn:Eg.
    destruct (p_getChunk_ok now p _ _ _ _ _ Hcfg Hcs (proj2 (Henv idx ltac:(lia))) Hv1 Eg) as [Hv2 Hr].
    destruct r as [ch|e]; [|by intros [= <- <- <-]]. destruct Hr as [Hi Hch].
    set (co := if idx =? start then Z.rem off (ChunkSize (config p)) else 0).
    pose proof (Z.rem_bound_pos off cs Hoff Hcs0) as Hrem.
    assert (Hco : 0 ≤ co < cs) by (unfold co; rewrite Hcs; destruct (idx =? start); lia).
    assert (Hidx0 : 0 ≤ idx * cs) by nia.
    pose proof Hch as (Hs & _ & _ & Hshort). rewrite Hi in Hshort.
    assert (Hcase : (off + zlen out = idx * cs + co) ∨ (size ch = 0 ∧ zlen file ≤ off + zlen out)).
    { destruct Hpos as [Hp|[(Hp1 & Hp2 & Hp3)|Hp]]; [| |lia].
      - left. unfold co. by rewrite Hcs.
      - right. split; [|done]. apply valid_past_end; [done|by rewrite Hi|rewrite Hi; lia]. }
    destruct (Z.leb_spec (size ch - co) 0) as [Hav|Hav].
    + intros [= <- <- <-]. split_and!; try done. right. destruct Hcase as [Hp|[_ ?]]; [|done]. lia.
    + destruct Hcase as [Hp|[Hz _]]; [|lia].
      set (count := minimumInt (size ch - co) (buflen - zlen out)).
      assert (Hcount : 0 < count ∧ count ≤ size ch - co ∧ count ≤ buflen - zlen out ∧
        (count = size ch - co ∨ count = buflen - zlen out)).
      { unfold count, minimumInt. destruct (Z.ltb_spec (size ch - co) (buflen - zlen out)); lia. }
      destruct (valid_piece ch co count Hch Hcs0 ltac:(lia) ltac:(lia) ltac:(lia) ltac:(lia)) as [Hpc Hpl].
      set (piece := take (Z.to_nat count) (drop (Z.to_nat co) (data ch))) in *.
      assert (Hlen' : zlen (out ++ piece) = zlen out + count) by (rewrite zlen_app; lia).
      apply IH; [lia|done|lia|lia| | |done].
      * rewrite length_app, <-take_take_drop. f_equal; [done|]. rewrite drop_drop.
        replace (Z.to_nat off + length out)%nat with (Z.to_nat (index ch * cs + co)) by (rewrite Hi, <-Hp; unfold zlen; lia).
        rewrite Hpc at 1. f_equal. unfold zlen in Hpl. lia.
      * unfold at_position. rewrite Hlen'. assert (idx + 1 =? start = false) as -> by (apply Z.eqb_neq; lia).
        destruct Hcount as (C1 & C2 & C3 & [C4|C4]); [|right; right; lia].
        destruct Hshort as [Hfull|Hsh]; [left; lia|]. destruct (decide (size ch = cs)) as [|Hns]; [left; lia|].
        right; left. split_and!; lia.
Qed.
End copy.
End validity.

(** ** Properties *)

(** What a read gives back: the file's bytes at the offset, and when which error. *)
Definition read_spec (file : bytes) (p : prefetcher) (buflen off : Z) (x : chunkCache * bytes * option error) : Prop :=
  let '(c', out, err) := x in
  cache_valid file (ChunkSize (config p)) c' ∧ zlen out ≤ buflen ∧ out = take (length out) (drop (Z.to_nat off) file) ∧
  match err with
  | None => zlen out = buflen
  | Some e =>
      (e = EOF ∧ (zlen file ≤ off + zlen out ∨
                  (zlen file < off + buflen ∧ Z.quot off (ChunkSize (config p)) = Z.quot (off + buflen - 1) (ChunkSize (config p))))) ∨
      e = Canceled ∨ e = ErrReadFailed ∨
      (e = ErrPrefetcherClosed ∧ closed p = true) ∨ (e = ErrOffsetOutOfRange ∧ (off < 0 ∨ zlen file ≤ off))
  end.

Lemma ReadAt_spec (file : bytes) (range : gmap Z chunk → list chunk) (now : Z) (p : prefetcher)
    (envs : Z → step_env) (buflen off : Z) (c : chunkCache) :
  config_ok (config p) → psize p = zlen file → env_ok file (ChunkSize (config p)) envs → cache_valid file (ChunkSize (config p)) c →
  0 ≤ buflen → off + buflen ≤ max_int64 →
  read_spec file p buflen off (ReadAt range now p envs buflen off c).
Proof.
  set (cs := ChunkSize (config p)). intros Hcfg Hsz Henv Hv Hb Hmax.
  destruct (ReadAt range now p envs buflen off c) as [[c' out] err] eqn:E. revert E. unfold read_spec. fold cs. pose proof Hcfg as (Hcs & _). fold cs in Hcs. unfold ReadAt.
  pose proof (zlen_nonneg file) as Hfile.
  destruct (closed p) eqn:Ecl; [intros [= <- <- <-]; split_and!; try done; naive_solver|].
  unfold validateRead. rewrite Hsz.
  destruct (Z.ltb_spec off 0); [intros [= <- <- <-]; split_and!; try done; naive_solver|].
  destruct (Z.eqb_spec buflen 0) as [->|Hb0]; [intros [= <- <- <-]; by split_and!|].
  destruct (Z.eqb_spec (zlen file) 0) as [Hz|Hz].
  { intros [= <- <- <-]. split_and!; try done. left. split; [done|left; unfold zlen in *; simpl; lia]. }
  assert (0 <? zlen file = true) as -> by (apply Z.ltb_lt; lia). cbn [andb].
  destruct (Z.leb_spec (zlen file) off); [intros [= <- <- <-]; split_and!; try done; naive_solver|].
  fold cs. assert (Hmx : max_int64 = 2^63 - 1) by done. assert (Hmn : min_int64 = -2^63) by done.
  rewrite (wrap64_id (off + buflen)) by (unfold in_int64; lia).
  rewrite (wrap64_id (off + buflen - 1)) by (unfold in_int64; lia).
  assert (Hev : cache_valid file cs (evictBefore (Z.quot off cs) c)).
  { apply (cache_valid_op file cs range now (OpEvictBefore (Z.quot off cs)) c I Hv). }
  destruct ((zlen file <? off + buflen) && (Z.quot off cs =? Z.quot (off + buflen - 1) cs)) eqn:Etail.
  { apply andb_true_iff in Etail as [E1%Z.ltb_lt E2%Z.eqb_eq]. intros [= <- <- <-]. split_and!; try done. auto. }
  destruct (copyChunks _ _ _ _ _ _ _ _ _) as [[c1 out1] err1] eqn:Ec. unfold copyChunks in Ec.
  assert (Hq : Z.quot off cs ≤ Z.quot (off + buflen - 1) cs) by (apply Z.quot_le_mono; lia).
  assert (Hq0 : 0 ≤ Z.quot off cs) by (apply Z.quot_pos; lia).
  pose proof (Z.quot_rem' off cs) as Hqr. pose proof (Z.quot_rem' (off + buflen - 1) cs) as Hqe.
  pose proof (Z.rem_bound_pos (off + buflen - 1) cs ltac:(lia) Hcs).
  apply (copy_loop_ok file cs range p now envs buflen off Hcfg eq_refl Henv) in Ec as (Hv1 & Ho & Hl & He);
    [|lia|done|done|nia|unfold zlen; simpl; lia|done| |done].
  2:{ left. rewrite Z.eqb_refl. unfold zlen. simpl. lia. }
  intros [= <- <- <-]. split_and!; try done.
  destruct err1 as [e|]; [destruct He; naive_solver|].
  rewrite wrap64_id by (pose proof (zlen_nonneg out1); unfold in_int64; lia).
  destruct (Z.leb_spec (zlen file) (off + zlen out1)); [auto|]. destruct He; lia.
Qed.

(** C5. A read returns the right bytes whatever else happens.  For a reader that obeys
    [io.ReaderAt], any interference of other goroutines with the cache, any timeouts, failed
    attempts and shared flights: what is put into the buffer is the file's content at the
    offset; without an error the buffer is full and the read stops before the end; with
    [io.EOF] the read reached the end or asked for more than its last chunk has; the other
    errors are the documented ones; and the cache holds only valid chunks afterwards. *)
Theorem ReadAt_correct (file : bytes) (range : gmap Z chunk → list chunk) (now : Z) (p : prefetcher)
    (envs : Z → step_env) (buflen off : Z) (c c' : chunkCache) (out : bytes) (err : option error) :
  let cs := ChunkSize (config p) in
  config_ok (config p) → psize p = zlen file → env_ok file cs envs → cache_valid file cs c →
  0 ≤ buflen → off + buflen ≤ max_int64 →
  ReadAt range now p envs buflen off c = (c', out, err) →
  cache_valid file cs c' ∧ zlen out ≤ buflen ∧ out = take (length out) (drop (Z.to_nat off) file) ∧
  match err with
  | None => zlen out = buflen
  | Some e =>
      (e = EOF ∧ (zlen file ≤ off + zlen out ∨
                  (zlen file < off + buflen ∧ Z.quot off cs = Z.quot (off + buflen - 1) cs))) ∨ e = Canceled ∨ e = ErrReadFailed ∨
      (e = ErrPrefetcherClosed ∧ closed p = true) ∨ (e = ErrOffsetOutOfRange ∧ (off < 0 ∨ zlen file ≤ off))
  end.
Proof.
  intros cs Hcfg Hsz Henv Hv Hb Hmax E. pose proof (ReadAt_spec file range now p envs buflen off c Hcfg Hsz Henv Hv Hb Hmax) as H.
  by rewrite E in H.
Qed.

(** An attempt is retried when its error is neither nil nor [io.EOF]. *)
Definition failed (p : prefetcher) (a : attempt) : bool :=
  match (readChunkOnce p a).2 with None => false | Some e => negb (bool_decide (e = EOF)) end.

Lemma retry_loop_first p attempts wait n k d last :
  (∀ j, waitForRetry (wait j) = true) → (d < n)%nat →
  (∀ j, (j < d)%nat → failed p (attempts (k + j)%nat) = true) → failed p (attempts (k + d)%nat) = false →
  retry_loop p attempts wait n k last = readChunkOnce p (attempts (k + d)%nat).
Proof.
  intros Hw. revert n k last. induction d as [|d IH]; intros [|n] k last Hd Hf Hs; try lia; cbn [retry_loop];
    rewrite Hw, andb_false_r.
  - rewrite Nat.add_0_r in *. unfold failed in Hs. destruct (readChunkOnce p (attempts k)) as [x [e|]]; simpl in *; [|done].
    by rewrite (negb_false_iff _) in Hs; rewrite Hs.
  - specialize (Hf 0%nat ltac:(lia)) as H0. rewrite Nat.add_0_r in H0. unfold failed in H0.
    destruct (readChunkOnce p (attempts k)) as [x [e|]]; simpl in *; [|done].
    apply negb_true_iff in H0. rewrite H0. rewrite IH; [by rewrite Nat.add_succ_r|lia| |by rewrite Nat.add_succ_l, <-Nat.add_succ_r].
    intros j Hj. rewrite Nat.add_succ_l, <-Nat.add_succ_r. apply Hf. lia.
Qed.

Lemma retry_loop_all p attempts wait n k last :
  (∀ j, waitForRetry (wait j) = true) → (∀ j, (j < n)%nat → failed p (attempts (k + j)%nat) = true) →
  retry_loop p attempts wait n k last = if n then last else readChunkOnce p (attempts (k + (n - 1))%nat).
Proof.
  intros Hw. revert k last. induction n as [|n IH]; intros k last Hf; cbn [retry_loop]; [done|].
  rewrite Hw, andb_false_r. specialize (Hf 0%nat ltac:(lia)) as H0. rewrite Nat.add_0_r in H0. unfold failed in H0.
  destruct (readChunkOnce p (attempts k)) as [x [e|]] eqn:E; simpl in *; [|done].
  apply negb_true_iff in H0. rewrite H0, IH.
  - destruct n as [|n]; [by rewrite Nat.add_0_r|]. do 2 f_equal. lia.
  - intros j Hj. rewrite Nat.add_succ_l, <-Nat.add_succ_r. apply Hf. lia.
Qed.

(** Retries: unless the prefetcher is closed meanwhile, a chunk read returns the first
    attempt that succeeds or hits the end of the file among [MaxRetries + 1], and the last
    failure when there is none. *)
Theorem readChunkWithRetries_spec (p : prefetcher) (attempts : nat → attempt) (wait : nat → retry_wait) :
  config_ok (config p) → (∀ j, waitForRetry (wait j) = true) →
  let m := Z.to_nat (MaxRetries (config p)) in
  (∀ k, (k ≤ m)%nat → (∀ j, (j < k)%nat → failed p (attempts j) = true) → failed p (attempts k) = false →
     readChunkWithRetries p attempts wait = readChunkOnce p (attempts k)) ∧
  ((∀ j, (j ≤ m)%nat → failed p (attempts j) = true) →
     readChunkWithRetries p attempts wait = readChunkOnce p (attempts m)).
Proof.
  intros (_ & _ & _ & _ & _ & Hm) Hw m. unfold readChunkWithRetries.
  replace (Z.to_nat (MaxRetries (config p) + 1)) with (S m) by lia. split.
  - intros k Hk Hf Hs. by rewrite (retry_loop_first _ _ _ _ 0 k) by (try done; lia).
  - intros Hf. rewrite retry_loop_all; [|done|intros j Hj; apply Hf; lia]. do 2 f_equal. simpl. lia.
Qed.

(** Whatever configuration [New] is given, the one it uses has positive sizes, limits and
    timeouts, and a window of at least one chunk. *)
Theorem New_config_ok (reader : bool) (sz : Z) (configs : list Config) :
  match New reader sz configs with
  | Ok (p, c) => config_ok (config p) ∧ psize p = sz ∧ closed p = false ∧ cache_wf c ∧ chunkMap c = ∅
  | Err _ => reader = false
  end.
Proof. unfold New. destruct reader; simpl; [|done]. split_and!; try done. apply normalize_ok. Qed.

Lemma ahead_loop_spec c limit k l :
  0 ≤ k → zlen (ahead_loop c limit k l) ≤ Z.max 0 (limit - k) ∧
  ∀ i, i ∈ ahead_loop c limit k l → i ∈ l ∧ hasChunk c i = false.
Proof.
  revert k. induction l as [|x l IH]; intros k Hk; cbn [ahead_loop].
  { split; [unfold zlen; simpl; lia|]. by intros i ?%elem_of_nil. }
  destruct (Z.ltb_spec k limit); [|split; [unfold zlen; simpl; lia|by intros i ?%elem_of_nil]].
  destruct (hasChunk c x) eqn:Ex.
  - destruct (IH k Hk) as [H1 H2]. split; [done|]. intros i Hi. split; [apply list_elem_of_further|]; by apply H2.
  - destruct (IH (k + 1) ltac:(lia)) as [H1 H2]. split.
    + unfold zlen in *. cbn [length]. lia.
    + intros i [->|Hi]%elem_of_cons; [split; [apply list_elem_of_here|done]|].
      split; [apply list_elem_of_further|]; by apply H2.
Qed.

(** Read-ahead is bounded: at most 1000 goroutines are started, only for chunks after the
    ones read, inside the window and the file, that are not cached. *)
Theorem scheduleReadAhead_bounded (p : prefetcher) (c : chunkCache) (startChunk endChunk : Z) :
  config_ok (config p) → 0 < psize p →
  let l := scheduleReadAhead p c endChunk (windowEndChunk p startChunk) in
  zlen l ≤ 1000 ∧
  ∀ i, i ∈ l → endChunk < i ≤ windowEndChunk p startChunk ∧ i * ChunkSize (config p) < psize p ∧ hasChunk c i = false.
Proof.
  intros (Hcs & Hws & _) Hsz l. unfold l, scheduleReadAhead.
  destruct (closed p); [split; [done|by intros i ?%elem_of_nil]|].
  set (lim := if 1000 <? _ then 1000 else _).
  assert (lim ≤ 1000) by (unfold lim; destruct (Z.ltb_spec 1000 (Z.quot (WindowSize (config p)) (ChunkSize (config p)))); lia).
  destruct (ahead_loop_spec c lim 0 (seqZ (endChunk + 1) (windowEndChunk p startChunk - endChunk)) ltac:(lia)) as [H1 H2].
  split; [lia|]. intros i Hi. apply H2 in Hi as [Hin Hh]. apply elem_of_seqZ in Hin.
  split; [lia|]. split; [|done].
  assert (windowEndChunk p startChunk ≤ Z.quot (psize p - 1) (ChunkSize (config p))) as Hwe.
  { unfold windowEndChunk. assert (0 <? psize p = true) as -> by (apply Z.ltb_lt; lia). case_match; lia. }
  pose proof (Z.quot_rem' (psize p - 1) (ChunkSize (config p))).
  pose proof (Z.rem_bound_pos (psize p - 1) (ChunkSize (config p)) ltac:(lia) Hcs). nia.
Qed.

(** ** Shutdown *)

(** [closed], [wg], where the [Close] that started the shutdown is, and the reads of the underlying
    reader, which run in goroutines of their own that the wait group does not count. *)
Record life := {
  l_closed : bool;
  l_wg : nat;                 (* the [WaitGroup] counter: operations under way *)
  l_reads : nat;              (* [reader.ReadAt] goroutines of [readChunkOnce] *)
  l_waiting : bool;           (* the first [Close] is in [wg.Wait()] *)
  l_finished : bool;          (* the first [Close] has returned *)
  l_early : nat;              (* how many later calls of [Close] have returned *)
  l_cache : chunkCache;
}.

Inductive life_label :=
| LBegin                      (* [beginOperation] *)
| LEnd                        (* [wg.Done()] of an operation under way *)
| LCache (op : cache_op)      (* an operation under way acts on the cache *)
| LRead                       (* an operation under way starts a read in [readChunkOnce] *)
| LReadDone                   (* the underlying read returns into its own buffer *)
| LClose                      (* [Close]: up to [wg.Wait()], or at once when it is not the first *)
| LWait.                      (* [wg.Wait()] returns and [Close] clears the cache *)

Definition life_step (range : gmap Z chunk → list chunk) (l : life_label) (s : life) : option life :=
  match l with
  | LBegin =>
      if l_closed s then Some s
      else Some {| l_closed := l_closed s; l_wg := S (l_wg s); l_reads := l_reads s; l_waiting := l_waiting s;
                   l_finished := l_finished s; l_early := l_early s; l_cache := l_cache s |}
  | LEnd =>
      match l_wg s with
      | O => None
      | S n => Some {| l_closed := l_closed s; l_wg := n; l_reads := l_reads s; l_waiting := l_waiting s;
                       l_finished := l_finished s; l_early := l_early s; l_cache := l_cache s |}
      end
  | LCache op =>
      match l_wg s with
      | O => None
      | S _ => Some {| l_closed := l_closed s; l_wg := l_wg s; l_reads := l_reads s; l_waiting := l_waiting s;
                       l_finished := l_finished s; l_early := l_early s; l_cache := apply_op range 0 op (l_cache s) |}
      end
  | LRead =>
      match l_wg s with
      | O => None
      | S _ => Some {| l_closed := l_closed s; l_wg := l_wg s; l_reads := S (l_reads s); l_waiting := l_waiting s;
                       l_finished := l_finished s; l_early := l_early s; l_cache := l_cache s |}
      end
  | LReadDone =>
      match l_reads s with
      | O => None
      | S n => Some {| l_closed := l_closed s; l_wg := l_wg s; l_reads := n; l_waiting := l_waiting s;
                       l_finished := l_finished s; l_early := l_early s; l_cache := l_cache s |}
      end
  | LClose =>
      if l_closed s
      then Some {| l_closed := l_closed s; l_wg := l_wg s; l_reads := l_reads s; l_waiting := l_waiting s;
                   l_finished := l_finished s; l_early := S (l_early s); l_cache := l_cache s |}
      else Some {| l_closed := true; l_wg := l_wg s; l_reads := l_reads s; l_waiting := true; l_finished := false;
                   l_early := l_early s; l_cache := l_cache s |}
  | LWait =>
      if l_waiting s && Nat.eqb (l_wg s) 0
      then Some {| l_closed := l_closed s; l_wg := l_wg s; l_reads := l_reads s; l_waiting := false; l_finished := true;
                   l_early := l_early s; l_cache := clear (l_cache s) |}
      else None
  end.

Fixpoint life_run (range : gmap Z chunk → list chunk) (ls : list life_label) (s : life) : option life :=
  match ls with [] => Some s | l :: ls => s' ← life_step range l s; life_run range ls s' end.

Definition life_init (c : chunkCache) : life :=
  {| l_closed := false; l_wg := 0; l_reads := 0; l_waiting := false; l_finished := false; l_early := 0; l_cache := c |}.

Definition life_ok (s : life) : Prop :=
  (l_waiting s = true → l_closed s = true) ∧
  (l_finished s = true → l_closed s = true ∧ l_waiting s = false ∧ l_wg s = 0%nat ∧
     chunkMap (l_cache s) = ∅ ∧ intervalTree (l_cache s) = TNil).

Lemma life_ok_step range l s s' : life_ok s → life_step range l s = Some s' → life_ok s'.
Proof.
  intros [H1 H2]. destruct s as [cl wg rd wt fi ea ca]; simpl in *. unfold life_ok. destruct l; simpl.
  - destruct cl; intros [= <-]; simpl; [done|]. split; [done|]. intros Hf. by destruct (H2 Hf).
  - destruct wg; [done|]. intros [= <-]. simpl. split; [done|]. intros Hf. by destruct (H2 Hf) as (_ & _ & ? & _).
  - destruct wg; [done|]. intros [= <-]. simpl. split; [done|]. intros Hf. by destruct (H2 Hf) as (_ & _ & ? & _).
  - destruct wg; [done|]. intros [= <-]. simpl. split; [done|]. intros Hf. by destruct (H2 Hf) as (_ & _ & ? & _).
  - destruct rd; [done|]. intros [= <-]. done.
  - destruct cl; intros [= <-]; simpl; [done|]. by split.
  - destruct wt; [|done]. destruct (Nat.eqb_spec wg 0) as [->|]; [|done]. intros [= <-]. simpl.
    split; [done|]. intros _. split_and!; auto.
Qed.

(** After the first [Close] has returned nothing starts any more. *)
Lemma life_finished_step range l s s' : life_ok s → l_finished s = true → life_step range l s = Some s' →
  l_finished s' = true ∧ (l_reads s' ≤ l_reads s)%nat.
Proof.
  intros [_ Ho] Hf E. destruct (Ho Hf) as (Hc & Hw & Hg & _). destruct l; simpl in E; rewrite ?Hg, ?Hc, ?Hw in E; simplify_eq/=; auto with lia.
  destruct (l_reads s); simplify_eq/=. auto with lia.
Qed.


(** *** A concrete reader *)

Definition ex_file : bytes := bytes_of "ABCDEFGHIJKLMNO".
Definition ex_config : Config := normalize [{| WindowSize := 20; ChunkSize := 10; MaxParallelReads := 0; ReadTimeout := 0;
  RetryInterval := 0; MaxRetries := 1 |}].
Definition ex_prefetcher : prefetcher := {| psize := zlen ex_file; config := ex_config; closed := false |}.

(** The first attempt times out, the second one reads; meanwhile the cache is cleared. *)
Definition ex_attempts (i : Z) (k : nat) : attempt :=
  match k with
  | O => Timeout
  | _ => let d := take 10 (drop (Z.to_nat (i * 10)) ex_file) in Done d (if zlen d <? 10 then Some EOF else None)
  end.
Definition ex_envs (i : Z) : step_env :=
  {| se_before := [OpClear]; se_fetch := {| fe_shared := None; fe_acquire := Acquired; fe_attempts := ex_attempts i;
                                           fe_wait := λ _, RetryElapsed |} |}.

Lemma ex_env_ok : env_ok ex_file 10 ex_envs.
Proof.
  intros i Hi. split; [by repeat constructor|]. split; [done|]. intros [|k]; [done|]. simpl.
  set (l := drop (Z.to_nat (i * 10)) ex_file). split_and!.
  - unfold zlen. rewrite length_take. lia.
  - rewrite length_take. destruct (decide (10 ≤ length l)%nat); [by rewrite Nat.min_l|].
    rewrite Nat.min_r by lia. by rewrite !take_ge by lia.
  - destruct (Z.ltb_spec (zlen (take 10 l)) 10) as [Hlt|Hge].
    + intros _. unfold zlen in *. rewrite length_take in *. assert (length l < 10)%nat by lia.
      unfold l in *. rewrite length_drop in *. lia.
    + unfold zlen in *. rewrite length_take in *. lia.
Qed.

Lemma ReadAt_correct_witness :
  ∃ c', ReadAt ex_range 0 ex_prefetcher ex_envs 10 5 (newChunkCache 10) = (c', bytes_of "FGHIJKLMNO", Some EOF) ∧
    cache_valid ex_file 10 c'.
Proof.
  destruct (ReadAt ex_range 0 ex_prefetcher ex_envs 10 5 (newChunkCache 10)) as [[c' out] err] eqn:E.
  assert (H : (λ x, (x.1.2, x.2)) (ReadAt ex_range 0 ex_prefetcher ex_envs 10 5 (newChunkCache 10)) =
    (bytes_of "FGHIJKLMNO", Some EOF)) by (vm_compute; reflexivity).
  rewrite E in H. injection H as -> ->. exists c'. split; [done|].
  apply (ReadAt_correct ex_file ex_range 0 ex_prefetcher ex_envs 10 5 (newChunkCache 10) c' (bytes_of "FGHIJKLMNO") (Some EOF)).
  - apply normalize_ok.
  - done.
  - exact ex_env_ok.
  - intros i ch Hi. simpl in Hi. by rewrite lookup_empty in Hi.
  - done.
  - done.
  - exact E.
Defined.

Lemma readChunkWithRetries_spec_witness :
  readChunkWithRetries ex_prefetcher (ex_attempts 0) (λ _, RetryElapsed) = readChunkOnce ex_prefetcher (ex_attempts 0 1).
Proof.
  destruct (readChunkWithRetries_spec ex_prefetcher (ex_attempts 0) (λ _, RetryElapsed) (normalize_ok _) ltac:(done)) as [Hs _].
  apply (Hs 1%nat); [exact (le_n 1)| |vm_compute; reflexivity].
  intros [|j] Hj; [reflexivity|lia].
Defined.

Lemma scheduleReadAhead_bounded_witness :
  scheduleReadAhead ex_prefetcher (newChunkCache 10) 0 (windowEndChunk ex_prefetcher 0) = [1] ∧
  zlen (scheduleReadAhead ex_prefetcher (newChunkCache 10) 0 (windowEndChunk ex_prefetcher 0)) ≤ 1000.
Proof.
  split; [vm_compute; reflexivity|].
  apply (scheduleReadAhead_bounded ex_prefetcher (newChunkCache 10) 0 0); [apply normalize_ok|vm_compute; reflexivity].
Defined.

(** A second [Close] returns while an operation of the first is still under way, and a read that
    timed out outlives the shutdown. *)
Lemma Close_second_at_once (range : gmap Z chunk → list chunk) (c : chunkCache) :
  (∃ s, life_run range [LBegin; LClose; LClose] (life_init c) = Some s ∧ l_early s = 1%nat ∧ l_wg s = 1%nat ∧ l_finished s = false) ∧
  (∃ s, life_run range [LBegin; LRead; LClose; LEnd; LWait] (life_init c) = Some s ∧ l_finished s = true ∧ l_reads s = 1%nat).
Proof. split; by eexists. Qed.

Definition ex_life : list life_label := [LBegin; LRead; LClose; LCache (OpAdd (ex_chunk 1)); LClose; LEnd; LWait].

