(* ===== verification/FsWalk.v ===== *)
(** * The context walk BuildKit sees ([pkg/fssync/walk.go], [pkg/fssync/fs.go])

    The request metadata, the Dockerfile entries that are merged into the walk of the cached
    context, and the exclude patterns.  The merge is modelled on the callbacks it makes: the
    walker's state is the position in its list of synthetic entries. *)

From Stdlib Require Import Ascii Sorting.Sorted.
From stdpp Require Import sorting.
From S2P Require Import Prelude GoStrings GoPath Api OsFs TarUnpack FileInfo ContextWalk.

(** ** Request metadata *)

Inductive TransferMode := ModeJSON | ModeTAR.

Record WalkMetadata := {
  IncludePatterns : string;
  ExcludedPatterns : list string;
  FollowPaths : string;
  DirName : string;
  Mode : TransferMode;
}.

(** [metadata.FromIncomingContext]: the values of each key, when there is metadata. *)
Definition md_get (m : gmap string (list string)) (k : string) : list string := default [] (m !! k).

Definition unmarshalWalkMetadata (md : option (gmap string (list string))) : res WalkMetadata :=
  match md with
  | None => Ok {| IncludePatterns := ""; ExcludedPatterns := []; FollowPaths := ""; DirName := ""; Mode := ModeTAR |}
  | Some m =>
      let modeStr := Join "," (md_get m "mode") in
      if bool_decide (modeStr = "") || bool_decide (modeStr = "tar")
      then Ok {| IncludePatterns := Join "," (md_get m "include-patterns");
                 ExcludedPatterns := md_get m "exclude-patterns";
                 FollowPaths := Join "," (md_get m "followpaths");
                 DirName := Join "," (md_get m "dir-name"); Mode := ModeTAR |}
      else Err (Errorf "invalid walk mode: %s" [modeStr])
  end.

(** ** The Dockerfile entries *)

Definition DockerfilePath : string := path_Join [DockerfileStaging; "Dockerfile"].
Definition DockerignorePath : string := path_Join [DockerfileStaging; "Dockerfile.dockerignore"].

(** What [FSSyncProxy] holds of the build request. *)
Record FSSyncProxy := {
  contextDir : string;
  basePath : string;
  addedGlobs : list string;
  dockerfile : bytes;
  dockerignore : bytes;
}.

Definition NewFSSyncProxy (contextDir basePath : string) (addedGlobs : list string) (dockerfile dockerignore : bytes) : FSSyncProxy :=
  {| contextDir := contextDir; basePath := path_Join [basePath; "fssync"]; addedGlobs := addedGlobs;
     dockerfile := dockerfile; dockerignore := dockerignore |}.

Definition requestedSyntheticDockerfilePaths (followPaths : string) : gset string :=
  list_to_set (filter (λ path, path = DockerfilePath ∨ path = DockerignorePath)
    ((λ path, Clean (TrimSpace path)) <$> Split ","%char followPaths)).

Record syntheticDockerfileEntry := { se_path : string; se_data : bytes }.

Definition synthetic_files (proxy : FSSyncProxy) : list syntheticDockerfileEntry :=
  [{| se_path := DockerfilePath; se_data := dockerfile proxy |};
   {| se_path := DockerignorePath; se_data := dockerignore proxy |}].

(** The entries of [newSyntheticDockerfileWalker]. *)
Definition newSyntheticDockerfileWalker (proxy : option FSSyncProxy) (requested : gset string) : list syntheticDockerfileEntry :=
  match proxy with
  | None => []
  | Some proxy =>
      if bool_decide (requested = ∅) then []
      else
        let files := filter (λ file, se_path file ∈ requested ∧ se_data file ≠ []) (synthetic_files proxy) in
        if bool_decide (files = []) then []
        else {| se_path := DockerfileStaging; se_data := [] |} :: files
  end.

(** [emit]: the callback's arguments for a synthetic entry. *)
Definition emit (entry : syntheticDockerfileEntry) : string * FileInfo :=
  if bool_decide (se_path entry = DockerfileStaging)
  then (DockerfileStaging, {| NameVal := DockerfileStaging; SizeVal := 0; ModeVal := Z.lor ModeDir 493; ModTimeVal := zero_time;
                              IsDirVal := true; Uid := 0; Gid := 0; LinkName := "" |})
  else (se_path entry, {| NameVal := se_path entry; SizeVal := Z.of_nat (length (se_data entry)); ModeVal := 420;
                          ModTimeVal := zero_time; IsDirVal := false; Uid := 0; Gid := 0; LinkName := "" |}).

(** Go's [<] on strings. *)
Definition string_lt (a b : string) : bool := match String.compare a b with Lt => true | _ => false end.

Section walker.
Context {S : Type} (fn : string → FileInfo → S → S * option error).

(** The loop of [Walk]: the entries from [next] on, smaller than [path]. *)
Fixpoint emit_before (path : string) (entries : list syntheticDockerfileEntry) (s : S) :
    list syntheticDockerfileEntry * S * option error :=
  match entries with
  | entry :: rest =>
      if string_lt (se_path entry) path then
        match fn (emit entry).1 (emit entry).2 s with
        | (s, Some e) => (entries, s, Some e)
        | (s, None) => emit_before path rest s
        end
      else (entries, s, None)
  | [] => ([], s, None)
  end.

(** [syntheticDockerfileWalker.Walk] as the callback of the walk; its state is the entries
    still to come and the state of [fn]. *)
Definition synthetic_Walk (path : string) (info : FileInfo) (x : list syntheticDockerfileEntry * S) :
    (list syntheticDockerfileEntry * S) * option error :=
  match emit_before path x.1 x.2 with
  | (rest, s, Some e) => ((rest, s), Some e)
  | (rest, s, None) => let '(s, err) := fn path info s in ((rest, s), err)
  end.

Fixpoint synthetic_Finish (entries : list syntheticDockerfileEntry) (s : S) : S * option error :=
  match entries with
  | [] => (s, None)
  | entry :: rest =>
      match fn (emit entry).1 (emit entry).2 s with
      | (s, Some e) => (s, Some e)
      | (s, None) => synthetic_Finish rest s
      end
  end.

(** The walk of the listing [l] followed by [Finish], as in [FS.Walk]. *)
Definition merged_walk (entries : list syntheticDockerfileEntry) (l : list (string * FileInfo)) (s : S) : S * option error :=
  match visit_all (λ x, synthetic_Walk x.1 x.2) l (entries, s) with
  | ((rest, s), Some e) => (s, Some e)
  | ((rest, s), None) => synthetic_Finish rest s
  end.
End walker.

(** The request that [FS.Walk] sends: the directory name and the follow paths. *)
Definition walk_request (proxy : FSSyncProxy) (walkMeta : WalkMetadata) (root id : string) : BuildTransfer :=
  let followPaths := if bool_decide (FollowPaths walkMeta = "") then Join "," (addedGlobs proxy) else FollowPaths walkMeta in
  let synthetic := requestedSyntheticDockerfilePaths followPaths in
  let dirName := if bool_decide (synthetic = ∅) then DirName walkMeta else "context" in
  {| bt_Id := id; bt_Direction := OUTOF; bt_Source := Some root; bt_Destination := None; bt_Data := [];
     bt_Complete := false; bt_IsDirectory := false;
     bt_Metadata := {[ "os" := "linux"; "stage" := "fssync"; "method" := "Walk"; "dir-name" := dirName;
                       "include-patterns" := IncludePatterns walkMeta; "followpaths" := followPaths;
                       "mode" := match Mode walkMeta with ModeTAR => "tar" | ModeJSON => "json" end ]} |}.

(** ** Exclude patterns ([diffcopy.go]) *)

Definition excludePatternsForWalk (walkMeta : WalkMetadata) (proxy : option FSSyncProxy) : list string :=
  if bool_decide (ExcludedPatterns walkMeta = []) then []
  else
    let followPaths :=
      match proxy with
      | Some proxy => if bool_decide (FollowPaths walkMeta = "") then Join "," (addedGlobs proxy) else FollowPaths walkMeta
      | None => FollowPaths walkMeta
      end in
    let requested := requestedSyntheticDockerfilePaths followPaths in
    ExcludedPatterns walkMeta ++
    ((λ path, "!" +:+ path) <$> filter (λ path, path ∈ requested) [DockerfilePath; DockerignorePath]).

(** ** The merged sequence *)

(** The entries smaller than [path] at the front, and the rest. *)
Fixpoint span_before (path : string) (entries : list syntheticDockerfileEntry) :
    list syntheticDockerfileEntry * list syntheticDockerfileEntry :=
  match entries with
  | entry :: rest =>
      if string_lt (se_path entry) path then let '(a, b) := span_before path rest in (entry :: a, b) else ([], entries)
  | [] => ([], [])
  end.

Fixpoint merge (entries : list syntheticDockerfileEntry) (l : list (string * FileInfo)) : list (string * FileInfo) :=
  match l with
  | [] => emit <$> entries
  | x :: l => let '(a, b) := span_before x.1 entries in (emit <$> a) ++ x :: merge b l
  end.

Section merged.
Context {S : Type} (fn : string → FileInfo → S → S * option error).

Abbreviation call := (λ x : string * FileInfo, fn x.1 x.2).

Lemma Finish_visits entries s : synthetic_Finish fn entries s = visit_all call (emit <$> entries) s.
Proof. revert s. induction entries as [|e l IH]; intros s; simpl; [done|]. destruct (fn _ _ s) as [s1 [err|]]; auto. Qed.

Lemma emit_before_visits path entries s :
  match visit_all call (emit <$> (span_before path entries).1) s with
  | (s', None) => emit_before fn path entries s = ((span_before path entries).2, s', None)
  | (s', Some e) => ∃ rest, emit_before fn path entries s = (rest, s', Some e)
  end.
Proof.
  revert s. induction entries as [|e l IH]; intros s; simpl; [done|].
  destruct (string_lt (se_path e) path); simpl; [|done].
  destruct (span_before path l) as [a b] eqn:E. simpl in *.
  destruct (fn _ _ s) as [s1 [err|]]; [eauto|apply IH].
Qed.

Lemma merged_walk_visits entries l s : merged_walk fn entries l s = visit_all call (merge entries l) s.
Proof.
  unfold merged_walk. revert entries s. induction l as [|x l IH]; intros entries s; cbn [visit_all merge].
  { by rewrite Finish_visits. }
  unfold synthetic_Walk at 1. cbn [fst snd]. pose proof (emit_before_visits x.1 entries s) as H.
  destruct (span_before x.1 entries) as [a b] eqn:E. cbn [fst snd] in H. rewrite visit_all_app.
  destruct (visit_all call (emit <$> a) s) as [s1 [e|]].
  - destruct H as [rest ->]. done.
  - rewrite H. cbn [visit_all]. destruct (fn x.1 x.2 s1) as [s2 [e|]]; [done|apply IH].
Qed.
End merged.

Lemma span_before_app path entries : (span_before path entries).1 ++ (span_before path entries).2 = entries.
Proof.
  induction entries as [|e l IH]; simpl; [done|]. destruct (string_lt (se_path e) path); [|done].
  destruct (span_before path l) as [a b]; simpl in *. by rewrite IH.
Qed.

Lemma merge_perm entries l : merge entries l ≡ₚ (emit <$> entries) ++ l.
Proof.
  revert entries. induction l as [|x l IH]; intros entries; simpl; [by rewrite app_nil_r|].
  pose proof (span_before_app x.1 entries) as E. destruct (span_before x.1 entries) as [a b]. simpl in E.
  rewrite <-E, fmap_app, IH, <-app_assoc. by rewrite Permutation_middle.
Qed.

Lemma merge_sublist entries l : l `sublist_of` merge entries l.
Proof.
  revert entries. induction l as [|x l IH]; intros entries; simpl; [apply sublist_nil_l|].
  destruct (span_before x.1 entries) as [a b]. apply sublist_inserts_l, sublist_skip, IH.
Qed.

(** ** Order *)

Definition comps (x : string * FileInfo) : path := Split slash x.1.
Definition in_order (l : list (string * FileInfo)) : Prop := StronglySorted path_lt (comps <$> l).

(** The merge keeps the order when the byte order the walker compares with agrees with the
    component order on the entries of the context. *)
Definition agrees (entries : list syntheticDockerfileEntry) (x : string * FileInfo) : Prop :=
  Forall (λ e, if string_lt (se_path e) x.1 then path_lt (Split slash (se_path e)) (comps x)
               else path_lt (comps x) (Split slash (se_path e))) entries.

Lemma emit_path e : (emit e).1 = se_path e.
Proof. unfold emit. by case_bool_decide. Qed.

Lemma path_lt_trans a b c : path_lt a b → path_lt b c → path_lt a c.
Proof.
  unfold path_lt. revert b c. induction a as [|x a IH]; intros [|y b] [|z c]; simpl; try done.
  destruct (decide (x = y)) as [->|Hxy]; [rewrite (bool_decide_true (y = y)) by done|rewrite (bool_decide_false (x = y)) by done].
  - case_bool_decide; [|done]. apply IH.
  - intros Hle. apply bool_decide_eq_true in Hle. destruct (decide (y = z)) as [->|Hyz].
    + rewrite (bool_decide_true (z = z)) by done. intros _. rewrite (bool_decide_false (x = z)) by done. by apply bool_decide_eq_true.
    + rewrite (bool_decide_false (y = z)) by done. intros Hle'. apply bool_decide_eq_true in Hle'.
      assert (x ≠ z) by (intros ->; apply Hxy; by apply (anti_symm String.le)).
      rewrite bool_decide_false by done. apply bool_decide_eq_true. by etrans.
Qed.

Lemma merge_in_order entries l :
  StronglySorted path_lt ((λ e, Split slash (se_path e)) <$> entries) → in_order l → Forall (agrees entries) l →
  in_order (merge entries l).
Proof.
  unfold in_order. revert entries. induction l as [|x l IH]; intros entries He Hl Ha; cbn [merge].
  { rewrite <-list_fmap_compose. erewrite list_fmap_ext; [exact He|]. intros _ e _. unfold comps. simpl. by rewrite emit_path. }
  cbn [fmap list_fmap] in Hl. apply StronglySorted_cons in Hl as [HF Hl]. apply Forall_cons in Ha as [Hx Ha].
  assert (Hspan : ∀ a b, span_before x.1 entries = (a, b) →
    entries = a ++ b ∧ Forall (λ e, path_lt (Split slash (se_path e)) (comps x)) a ∧
    Forall (λ e, path_lt (comps x) (Split slash (se_path e))) b).
  { clear IH HF Hl Ha l. unfold agrees in Hx. revert He Hx. induction entries as [|e es IHe]; intros He Hx a b; simpl.
    - by intros [= <- <-].
    - apply Forall_cons in Hx as [H1 H2]. cbn [fmap list_fmap] in He. apply StronglySorted_cons in He as [HFe He].
      destruct (string_lt (se_path e) x.1).
      + destruct (span_before x.1 es) as [a' b'] eqn:E. intros [= <- <-].
        destruct (IHe He H2 a' b' eq_refl) as (-> & ? & ?). split; [done|]. split; [by constructor|done].
      + intros [= <- <-]. split; [done|]. split; [done|]. constructor; [done|].
        rewrite Forall_fmap in HFe. eapply Forall_impl; [exact HFe|]. simpl. intros y. by apply path_lt_trans. }
  destruct (span_before x.1 entries) as [a b] eqn:E. destruct (Hspan a b eq_refl) as (-> & Hlo & Hhi).
  assert (Hfa : comps <$> (emit <$> a) = (λ e, Split slash (se_path e)) <$> a).
  { rewrite <-list_fmap_compose. apply list_fmap_ext. intros _ e _. unfold comps. simpl. by rewrite emit_path. }
  rewrite fmap_app in He. pose proof (StronglySorted_app_1_l _ _ _ He) as Hea.
  pose proof (StronglySorted_app_1_r _ _ _ He) as Heb.
  assert (Hm : StronglySorted path_lt (comps <$> merge b l)).
  { apply IH; [done|done|]. eapply Forall_impl; [exact Ha|]. unfold agrees. intros y Hy.
    by apply Forall_app in Hy as [_ ?]. }
  assert (Hxm : Forall (path_lt (comps x)) (comps <$> merge b l)).
  { rewrite merge_perm, fmap_app. apply Forall_app. split; [|done].
    rewrite Forall_fmap, Forall_fmap. eapply Forall_impl; [exact Hhi|]. intros e He'. simpl. unfold comps. simpl. by rewrite emit_path. }
  rewrite fmap_app. cbn [fmap list_fmap]. rewrite Hfa. apply StronglySorted_app_2; [|done|by constructor].
  intros u v Hu Hv. apply list_elem_of_fmap in Hu as (e & -> & Hin). rewrite Forall_forall in Hlo.
  specialize (Hlo _ Hin). apply elem_of_cons in Hv as [->|Hv]; [done|].
  rewrite Forall_forall in Hxm. eapply path_lt_trans; [done|by apply Hxm].
Qed.

(** A name that does not start with [".com"] compares with everything that does by its first
    four bytes, and so does every path below it. *)
Definition dot_com (u : string) : string := String "." (String "c" (String "o" (String "m" u))).

Lemma compare_cons a s b t :
  String.compare (String a s) (String b t) = match Ascii.compare a b with Eq => String.compare s t | c => c end.
Proof. done. Qed.

Lemma ascii_compare_eq a b : Ascii.compare a b = Eq → a = b.
Proof. apply Ascii.compare_eq_iff. Qed.

Lemma compare_dot_com h y u v :
  good h → HasPrefix h ".com" = false → (y = "" ∨ ∃ z, y = String slash z) →
  String.compare (dot_com u) (h +:+ y) = String.compare (dot_com v) h ∧ String.compare (dot_com v) h ≠ Eq.
Proof.
  intros (H1 & H2 & _) Hp Hy. unfold dot_com.
  destruct h as [|a h]; [done|]. rewrite string_app_cons, !compare_cons.
  destruct (Ascii.compare "."%char a) eqn:Ea; [|by split..]. apply ascii_compare_eq in Ea as <-.
  destruct h as [|b h]; [done|]. rewrite string_app_cons, !compare_cons.
  destruct (Ascii.compare "c"%char b) eqn:Eb; [|by split..]. apply ascii_compare_eq in Eb as <-.
  destruct h as [|c h]; [by destruct Hy as [->|[z ->]]; split|]. rewrite string_app_cons, !compare_cons.
  destruct (Ascii.compare "o"%char c) eqn:Ec; [|by split..]. apply ascii_compare_eq in Ec as <-.
  destruct h as [|d h]; [by destruct Hy as [->|[z ->]]; split|]. rewrite string_app_cons, !compare_cons.
  destruct (Ascii.compare "m"%char d) eqn:Ed; [|by split..]. apply ascii_compare_eq in Ed as <-.
  exfalso. assert (HasPrefix (String "." (String "c" (String "o" (String "m" h)))) ".com" = true); [|congruence].
  apply HasPrefix_spec. by exists h.
Qed.

Lemma rel_path_head h t : ∃ y, rel_path (h :: t) = h +:+ y ∧ (y = "" ∨ ∃ z, y = String slash z).
Proof.
  unfold rel_path. destruct t as [|h' t]; [exists ""; split; [by rewrite string_app_nil_r|by left]|].
  rewrite Join_cons by done. eexists. split; [done|]. right. by eexists.
Qed.

Lemma agrees_plain entries h t info :
  Forall good (h :: t) → HasPrefix h ".com" = false →
  Forall (λ e, ∃ u cs, se_path e = dot_com u ∧ Split slash (se_path e) = DockerfileStaging :: cs) entries →
  agrees entries (rel_path (h :: t), info).
Proof.
  intros Hg Hp HF. unfold agrees. eapply Forall_impl; [exact HF|]. intros e (u & cs & Hu & Hsp). cbn [fst comps].
  assert (Hr : Split slash (rel_path (h :: t)) = h :: t) by by apply (Split_ups 0).
  unfold comps. cbn [fst]. rewrite Hr, Hsp. destruct (rel_path_head h t) as (y & -> & Hy). rewrite Hu.
  apply Forall_cons in Hg as [Hh _].
  destruct (compare_dot_com h y u ".apple.container" Hh Hp Hy) as [E Hne].
  change (dot_com ".apple.container") with DockerfileStaging in *. unfold string_lt. rewrite E. unfold path_lt. cbn [path_ltb].
  assert (h ≠ DockerfileStaging) as Hd.
  { intros ->. apply Hne. reflexivity. }
  rewrite (bool_decide_false (h = DockerfileStaging)), (bool_decide_false (DockerfileStaging = h)) by done. unfold String.le, String.leb.
  rewrite (String.compare_antisym h). destruct (String.compare DockerfileStaging h); [done|..]; by apply bool_decide_eq_true.
Qed.

Lemma synthetic_shape proxy requested :
  let entries := newSyntheticDockerfileWalker proxy requested in
  Forall (λ e, ∃ u cs, se_path e = dot_com u ∧ Split slash (se_path e) = DockerfileStaging :: cs) entries ∧
  StronglySorted path_lt ((λ e, Split slash (se_path e)) <$> entries).
Proof.
  unfold newSyntheticDockerfileWalker. destruct proxy as [proxy|]; [|by split; constructor].
  case_bool_decide; [by split; constructor|]. case_bool_decide as Hfs; [by split; constructor|].
  assert (E0 : Split slash DockerfileStaging = [DockerfileStaging]) by (vm_compute; reflexivity).
  assert (E1 : Split slash DockerfilePath = [DockerfileStaging; "Dockerfile"]) by (vm_compute; reflexivity).
  assert (E2 : Split slash DockerignorePath = [DockerfileStaging; "Dockerfile.dockerignore"]) by (vm_compute; reflexivity).
  assert (P0 : ∃ u, DockerfileStaging = dot_com u) by (by exists ".apple.container").
  assert (P1 : ∃ u, DockerfilePath = dot_com u) by (by exists ".apple.container/Dockerfile").
  assert (P2 : ∃ u, DockerignorePath = dot_com u) by (by exists ".apple.container/Dockerfile.dockerignore").
  destruct P0 as [u0 P0], P1 as [u1 P1], P2 as [u2 P2].
  unfold synthetic_files in *. rewrite !filter_cons, filter_nil in *. clear Hfs. split.
  - constructor; [simpl; eauto|]. repeat case_decide; repeat constructor; simpl; eauto.
  - repeat case_decide; cbn [fmap list_fmap se_path]; rewrite ?E0, ?E1, ?E2; repeat constructor.
Qed.

(** ** Properties *)

(** The walk BuildKit sees is a merge in path order.  When no name at the top of the
    context starts with [".com"], walking the cached context and finishing calls back with
    every context entry and every requested Dockerfile entry exactly once, the context's in
    their order, and the whole strictly in the order of the paths' components, which
    BuildKit's receiver requires. *)
Theorem synthetic_merge_sorted (proxy : option FSSyncProxy) (requested : gset string)
    (l : list (path * FileInfo)) {S : Type} (fn : string → FileInfo → S → S * option error) (s : S) :
  StronglySorted path_lt l.*1 →
  Forall (λ x, Forall good x.1 ∧ ∃ h t, x.1 = h :: t ∧ HasPrefix h ".com" = false) l →
  let entries := newSyntheticDockerfileWalker proxy requested in
  let ctx := (λ x, (rel_path x.1, x.2)) <$> l in
  ∃ m, merged_walk fn entries ctx s = visit_all (λ x, fn x.1 x.2) m s ∧
    m ≡ₚ (emit <$> entries) ++ ctx ∧ ctx `sublist_of` m ∧ in_order m.
Proof.
  intros Hs Hg entries ctx. exists (merge entries ctx).
  split; [apply merged_walk_visits|]. split; [apply merge_perm|]. split; [apply merge_sublist|].
  destruct (synthetic_shape proxy requested) as [Hsh Hso]. apply merge_in_order; [done| |].
  - unfold in_order, ctx. rewrite <-list_fmap_compose.
    rewrite (list_fmap_ext _ fst); [exact Hs|]. intros i x Hx. rewrite Forall_lookup in Hg.
    destruct (Hg _ _ Hx) as (Hgood & h & t & E & _). unfold comps. simpl. rewrite E in *. by apply (Split_ups 0).
  - unfold ctx. apply Forall_fmap. eapply Forall_impl; [exact Hg|]. intros [r i] (Hgood & h & t & E & Hp). simpl in *.
    subst r. by apply agrees_plain.
Qed.

(** A test for the order of neighbours. *)
Fixpoint neighbours_lt (l : list path) : bool :=
  match l with
  | a :: l => match l with b :: _ => path_ltb a b && neighbours_lt l | [] => true end
  | [] => true
  end.

Lemma not_in_order l : neighbours_lt (comps <$> l) = false → ¬ in_order l.
Proof.
  unfold in_order. intros Hn Hs. assert (neighbours_lt (comps <$> l) = true); [|congruence]. clear Hn.
  induction Hs as [|a k Hs IH HF]; [done|]. destruct k as [|b k]; [done|].
  apply andb_true_iff. split; [|done]. by apply Forall_cons in HF as [? _].
Qed.

Definition ex_info : FileInfo :=
  {| NameVal := ""; SizeVal := 0; ModeVal := 0; ModTimeVal := 0; IsDirVal := false; Uid := 0; Gid := 0; LinkName := "" |}.
Definition ex_proxy : FSSyncProxy :=
  NewFSSyncProxy "/src" "/var/cache" [DockerfilePath] (bytes_of "FROM scratch") [].

(** The merge compares whole paths bytewise, not by components, so contexts with such
    names are sent out of order: with a file next to the staging name that continues it with
    a byte below ['/'], or with a file in a directory [".com"], the context walk is in order
    and the merged one is not. *)
Theorem synthetic_merge_out_of_order :
  let entries := newSyntheticDockerfileWalker (Some ex_proxy) (requestedSyntheticDockerfilePaths DockerfilePath) in
  let walk l := (merge entries ((λ r, (rel_path r, ex_info)) <$> l)).*1 in
  walk [[".com.apple.container-x"]] = [DockerfileStaging; ".com.apple.container-x"; DockerfilePath] ∧
  walk [[".com"]; [".com"; "x"]] = [".com"; DockerfileStaging; DockerfilePath; ".com/x"] ∧
  ¬ in_order (merge entries [(rel_path [".com.apple.container-x"], ex_info)]) ∧
  StronglySorted path_lt [[".com"]; [".com"; "x"]] ∧
  ¬ in_order (merge entries [(rel_path [".com"], ex_info); (rel_path [".com"; "x"], ex_info)]).
Proof.
  split; [vm_compute; reflexivity|]. split; [vm_compute; reflexivity|].
  split; [apply not_in_order; vm_compute; reflexivity|].
  split; [repeat constructor|apply not_in_order; vm_compute; reflexivity].
Qed.

Lemma synthetic_merge_sorted_witness :
  ∃ m, merged_walk ex_collect (newSyntheticDockerfileWalker (Some ex_proxy) (requestedSyntheticDockerfilePaths " .com.apple.container//Dockerfile, x"))
         [("-a", ex_info); ("b", ex_info); ("b/c", ex_info)] []
       = visit_all (λ x, ex_collect x.1 x.2) m [] ∧
       m ≡ₚ (emit <$> newSyntheticDockerfileWalker (Some ex_proxy) (requestedSyntheticDockerfilePaths " .com.apple.container//Dockerfile, x"))
            ++ [("-a", ex_info); ("b", ex_info); ("b/c", ex_info)] ∧
       [("-a", ex_info); ("b", ex_info); ("b/c", ex_info)] `sublist_of` m ∧ in_order m.
Proof.
  apply (synthetic_merge_sorted (Some ex_proxy) (requestedSyntheticDockerfilePaths " .com.apple.container//Dockerfile, x")
    [(["-a"], ex_info); (["b"], ex_info); (["b"; "c"], ex_info)] ex_collect []).
  - repeat constructor.
  - repeat constructor; try (by apply (bool_decide_unpack _)); by eexists _, _.
Defined.
