(* ===== verification/DiffCopy.v ===== *)
(** * Sending files to BuildKit ([pkg/fssync/diffcopy.go], [pkg/fssync/fs.go])

    The sender of [DiffCopy]: the walk goroutine announces entries and registers the ids of
    regular files, the receive loop turns requests into handles on a bounded queue, and a pool
    of workers sends the contents, all interleaved in every way over one connection whose
    sends are atomic.  Every send, read and receive may fail, the walk may fail, and the
    goroutines form an [errgroup]: the first error that is returned ends the context that the
    loop and the workers look at, as does the end of the stream's own context.

    Assumed of the connection is only that a send takes effect or fails. *)

From Stdlib Require Import Ascii.
From S2P Require Import Prelude GoStrings GoPath Api OsFs TarUnpack FileInfo ContextWalk FsWalk.

Inductive packet :=
| PACKET_STAT (st : option Stat)
| PACKET_REQ (id : Z)
| PACKET_DATA (id : Z) (d : bytes)
| PACKET_FIN
| PACKET_ERR (msg : string).

Definition ModeType : Z := 2401763328.   (* Dir, Symlink, NamedPipe, Socket, Device, CharDevice, Irregular *)

Definition fileCanRequestData (m : Z) : bool := bool_decide (Z.land m ModeType = 0)%Z.

(** [io.CopyBuffer] through the one-mebibyte buffer: full buffers and a last shorter one. *)
Fixpoint pieces (fuel : nat) (n : nat) (d : bytes) : list bytes :=
  match fuel, d with
  | S fuel, _ :: _ => take n d :: pieces fuel n (drop n d)
  | _, _ => []
  end.

Definition buf_size : nat := Z.to_nat (Z.shiftl 1 20).
Definition copy_pieces (d : bytes) : list bytes := pieces (length d) buf_size d.
(** A [bytes.Reader] writes itself in one piece; [fileSender.Write] drops an empty one. *)
Definition write_to (d : bytes) : list bytes := match d with [] => [] | _ => [d] end.

(** [FS.Open] on the cached tree: [os.Open] of the path below the entry, read to its end. *)
Definition open_cached (fs : fsys) (fsPath checksum path : string) : res bytes :=
  os_ReadFile fs (path_Join [fsPath; checksum; path]).

(** The pieces [sendFile] writes for a path. *)
Definition sendFile (proxy : option FSSyncProxy) (open : string → res bytes) (path : string) : res (list bytes) :=
  match proxy with
  | Some proxy =>
      if bool_decide (path = DockerfilePath) then Ok (write_to (dockerfile proxy))
      else if bool_decide (path = DockerignorePath) then Ok (write_to (dockerignore proxy))
      else copy_pieces <$> open path
  | None => copy_pieces <$> open path
  end.

(** ** The sender *)

Inductive walk_pc :=
| WNext
| WSend (st : Stat)                   (* the entry is counted, its stat is to be sent *)
| WFail (err : error)                 (* [walk] returned this error: the error packet is to be sent *)
| WDone (err : option error).         (* the goroutine returned *)

Inductive loop_pc :=
| RLoop                               (* before the context check *)
| RRecv                               (* in [RecvMsg] *)
| RQueue (id : Z) (path : string)     (* in [queue], at the channel send *)
| RFin                                (* answering [PACKET_FIN] *)
| RStop (err : option error).         (* returned, the channel is closed *)

Inductive phase :=
| PTaken (path : string)              (* the handle is received, before the context check *)
| POpen (path : string)               (* in [sendFile], before the file is opened *)
| PCopy (rest : list bytes).

Inductive worker := WIdle | WBusy (id : Z) (ph : phase) | WExit (err : option error).

Record sender := {
  pending : list Stat;                (* the entries the walk will call back with *)
  walk_at : walk_pc;
  published : bool;                   (* [FS.Walk] has set the checksum *)
  next_id : Z;
  files : gmap Z string;
  incoming : list (res packet);       (* what [RecvMsg] will return *)
  loop_at : loop_pc;
  sendpipeline : list (Z * string);   (* capacity 128 *)
  workers : list worker;
  done : option error;                (* [ctx.Err()] of the group's context *)
  gerr : option error;                (* the error of the group: the first one *)
  log : list packet;                  (* what was sent, in order *)
}.

Definition pipe_cap : nat := 128.

Definition new_sender (entries : list Stat) (requests : list (res packet)) : sender :=
  {| pending := entries; walk_at := WNext; published := false; next_id := 0; files := ∅; incoming := requests; loop_at := RLoop;
     sendpipeline := []; workers := replicate 64 WIdle; done := None; gerr := None; log := [] |}.

Definition upd_walk (s : sender) (l : list Stat) (w : walk_pc) (i : Z) (f : gmap Z string) (ps : list packet) : sender :=
  {| pending := l; walk_at := w; published := published s; next_id := i; files := f; incoming := incoming s; loop_at := loop_at s;
     sendpipeline := sendpipeline s; workers := workers s; done := done s; gerr := gerr s; log := log s ++ ps |}.
Definition upd_loop (s : sender) (inc : list (res packet)) (l : loop_pc) (f : gmap Z string) (q : list (Z * string)) (ps : list packet) : sender :=
  {| pending := pending s; walk_at := walk_at s; published := published s; next_id := next_id s; files := f; incoming := inc; loop_at := l;
     sendpipeline := q; workers := workers s; done := done s; gerr := gerr s; log := log s ++ ps |}.
Definition upd_worker (s : sender) (k : nat) (w : worker) (q : list (Z * string)) (ps : list packet) : sender :=
  {| pending := pending s; walk_at := walk_at s; published := published s; next_id := next_id s; files := files s; incoming := incoming s;
     loop_at := loop_at s; sendpipeline := q; workers := <[k := w]> (workers s); done := done s; gerr := gerr s; log := log s ++ ps |}.
Definition upd_group (s : sender) (pub : bool) (dn e : option error) : sender :=
  {| pending := pending s; walk_at := walk_at s; published := pub; next_id := next_id s; files := files s; incoming := incoming s;
     loop_at := loop_at s; sendpipeline := sendpipeline s; workers := workers s; done := dn; gerr := e; log := log s |}.

(** The errors the goroutines of the group have returned. *)
Definition exit_err (w : worker) : option error := match w with WExit e => e | _ => None end.
Definition failures (s : sender) : list error :=
  option_list (match walk_at s with WDone e => e | _ => None end) ++
  option_list (match loop_at s with RStop e => e | _ => None end) ++ omap exit_err (workers s).

Section steps.
(** [sendFile] on the paths of this run, given whether [FS.Open] finds the checksum: before the
    walk has ended it does not, and asks the host for the file. *)
Context (content : bool → string → res (list bytes)).
Context (err_text : error → string).             (* [err.Error()] *)

(** The walk goroutine, with the outcome [e] of the send it is at.  The callback of [walk]
    registers the id of a regular file, counts, then sends the stat; the end of the walk is the
    empty stat, a failure the error packet of [run]. *)
Definition step_walk (e : option error) (s : sender) : option sender :=
  match walk_at s, pending s, e with
  | WNext, st :: rest, None =>
      let f := if fileCanRequestData (st_Mode st) then <[next_id s := st_Path st]> (files s) else files s in
      Some (upd_walk s rest (WSend st) (u32 (next_id s + 1)) f [])
  | WNext, [], None =>
      if published s then Some (upd_walk s [] (WDone None) (next_id s) (files s) [PACKET_STAT None]) else None
  | WNext, [], Some e =>
      if published s then Some (upd_walk s [] (WFail (Wrapf "failed to send last stat: %w" [] e)) (next_id s) (files s) []) else None
  | WSend st, rest, None => Some (upd_walk s rest WNext (next_id s) (files s) [PACKET_STAT (Some st)])
  | WSend st, rest, Some e =>
      Some (upd_walk s rest (WFail (Wrapf "failed to send stat %s: %w" [st_Path st] e)) (next_id s) (files s) [])
  | WFail err, rest, None => Some (upd_walk s rest (WDone (Some err)) (next_id s) (files s) [PACKET_ERR (err_text err)])
  | WFail err, rest, Some e =>
      Some (upd_walk s rest (WDone (Some (Wrapf "walk failed with %v and sending the error packet failed: %w" [err_text err] e)))
              (next_id s) (files s) [])
  | _, _, _ => None
  end.

(** [FS.Walk] fails: the transfer, the cached tree, or its context has ended. *)
Definition step_abort (e : error) (s : sender) : option sender :=
  match walk_at s, published s with
  | WNext, false => Some (upd_walk s (pending s) (WFail e) (next_id s) (files s) [])
  | _, _ => None
  end.

(** The end of a successful [FS.Walk]. *)
Definition step_publish (s : sender) : option sender :=
  match walk_at s, pending s, published s with
  | WNext, [], false => Some (upd_group s true (done s) (gerr s))
  | _, _, _ => None
  end.

(** [queue] up to its send. *)
Definition queue (id : Z) (s : sender) : sender :=
  match files s !! id with
  | None => upd_loop s (tail (incoming s)) (RStop (Some (Errorf "invalid file id %d" [FormatInt id]))) (files s) (sendpipeline s) []
  | Some p => upd_loop s (tail (incoming s)) (RQueue id p) (delete id (files s)) (sendpipeline s) []
  end.

(** The receive loop, with the outcome [e] of the send it is at. *)
Definition step_loop (e : option error) (s : sender) : option sender :=
  match loop_at s, incoming s, e with
  | RLoop, inc, None => Some (upd_loop s inc (if done s is Some err then RStop (Some err) else RRecv) (files s) (sendpipeline s) [])
  | RRecv, Err err :: rest, None => Some (upd_loop s rest (RStop (Some err)) (files s) (sendpipeline s) [])
  | RRecv, Ok (PACKET_REQ id) :: _, None => Some (queue id s)
  | RRecv, Ok (PACKET_ERR msg) :: rest, None =>
      Some (upd_loop s rest (RStop (Some (Errorf "error from receiver: %s" [msg]))) (files s) (sendpipeline s) [])
  | RRecv, Ok PACKET_FIN :: rest, None => Some (upd_loop s rest RFin (files s) (sendpipeline s) [])
  | RRecv, Ok _ :: rest, None => Some (upd_loop s rest RLoop (files s) (sendpipeline s) [])
  | RFin, inc, None => Some (upd_loop s inc (RStop None) (files s) (sendpipeline s) [PACKET_FIN])
  | RFin, inc, Some e => Some (upd_loop s inc (RStop (Some e)) (files s) (sendpipeline s) [])
  | _, _, _ => None
  end.

(** The channel send of [queue], which waits for room and for nothing else. *)
Definition step_enqueue (s : sender) : option sender :=
  match loop_at s with
  | RQueue id p =>
      if bool_decide (length (sendpipeline s) < pipe_cap)
      then Some (upd_loop s (incoming s) RLoop (files s) (sendpipeline s ++ [(id, p)]) [])
      else None
  | _ => None
  end.

(** Worker [k]: take a handle, look at the context, open the file, send a piece or the empty
    packet that ends the file.  [e] is the failure of the read or of the send it is at. *)
Definition step_worker (k : nat) (e : option error) (s : sender) : option sender :=
  w ← workers s !! k;
  match w, e with
  | WIdle, None =>
      match sendpipeline s, loop_at s with
      | (id, p) :: q, _ => Some (upd_worker s k (WBusy id (PTaken p)) q [])
      | [], RStop _ => Some (upd_worker s k (WExit None) [] [])
      | [], _ => None
      end
  | WBusy id (PTaken p), None =>
      Some (upd_worker s k (if done s is Some err then WExit (Some err) else WBusy id (POpen p)) (sendpipeline s) [])
  | WBusy id (POpen p), None =>
      match content (published s) p with
      | Ok ps => Some (upd_worker s k (WBusy id (PCopy ps)) (sendpipeline s) [])
      | Err e => Some (upd_worker s k (WExit (Some (Wrapf "failed to open requested file %s: %w" [p] e))) (sendpipeline s) [])
      end
  | WBusy id (PCopy (d :: rest)), None => Some (upd_worker s k (WBusy id (PCopy rest)) (sendpipeline s) [PACKET_DATA id d])
  | WBusy id (PCopy []), None => Some (upd_worker s k WIdle (sendpipeline s) [PACKET_DATA id []])
  | WBusy id (PCopy _), Some e => Some (upd_worker s k (WExit (Some e)) (sendpipeline s) [])
  | _, _ => None
  end.

(** [errgroup]: the first error that is returned is kept and ends the context. *)
Definition step_fail (e : error) (s : sender) : option sender :=
  if bool_decide (gerr s = None ∧ e ∈ failures s) then Some (upd_group s (published s) (Some (default Canceled (done s))) (Some e)) else None.

Inductive sync_label :=
| SWalk (e : option error)
| SAbort (e : error)
| SPublish
| SLoop (e : option error)
| SEnqueue
| SWorker (k : nat) (e : option error)
| SFail (e : error)
| SParent (e : error).                (* the context of the stream ends *)

Definition sync_step (l : sync_label) (s : sender) : option sender :=
  match l with
  | SWalk e => step_walk e s
  | SAbort e => step_abort e s
  | SPublish => step_publish s
  | SLoop e => step_loop e s
  | SEnqueue => step_enqueue s
  | SWorker k e => step_worker k e s
  | SFail e => step_fail e s
  | SParent e => if done s then None else Some (upd_group s (published s) (Some e) (gerr s))
  end.

Fixpoint sync_run (ls : list sync_label) (s : sender) : option sender :=
  match ls with [] => Some s | l :: ls => s' ← sync_step l s; sync_run ls s' end.

(** What the goroutines can do by themselves. *)
Definition resting (s : sender) : Prop := ∀ l, (∀ e, l ≠ SParent e) → sync_step l s = None.
End steps.

(** [g.Wait]: every goroutine has returned and its error is recorded. *)
Definition exited (w : worker) : bool := match w with WExit _ => true | _ => false end.
Definition run_result (s : sender) : option (option error) :=
  match walk_at s, loop_at s with
  | WDone _, RStop _ =>
      if forallb exited (workers s) && (bool_decide (failures s = []) || bool_decide (gerr s ≠ None)) then Some (gerr s) else None
  | _, _ => None
  end.

(** ** What was sent for an id *)

Definition data_of (id : Z) (p : packet) : option bytes :=
  match p with PACKET_DATA i d => if bool_decide (i = id) then Some d else None | _ => None end.
Definition sent_data (id : Z) (l : list packet) : list bytes := omap (data_of id) l.
Definition stat_of (p : packet) : option (option Stat) := match p with PACKET_STAT st => Some st | _ => None end.

Lemma sent_data_app id l k : sent_data id (l ++ k) = sent_data id l ++ sent_data id k.
Proof. apply omap_app. Qed.

Definition loop_handle (l : loop_pc) : list (Z * string) := match l with RQueue id p => [(id, p)] | _ => [] end.
(** The handles between the receive loop and the workers, in order. *)
Definition handles (s : sender) : list (Z * string) := sendpipeline s ++ loop_handle (loop_at s).

(** The stats that went out after the walk has counted the entries [ann]. *)
Definition told (w : walk_pc) (ann : list Stat) (l : list (option Stat)) : Prop :=
  match w with
  | WNext => l = Some <$> ann
  | WSend st => l ++ [Some st] = Some <$> ann
  | WDone None => l = (Some <$> ann) ++ [None]
  | WFail _ | WDone (Some _) => l `prefix_of` (Some <$> ann)
  end.

Section invariant.
Context (entries : list Stat) (Hsmall : (Z.of_nat (length entries) < 2^32)%Z).
(** What a worker read when it opened the file of an id. *)
Context (O : Z → string → list bytes → Prop).

(** The entry announced under an id, if BuildKit may request its data. *)
Definition entry_at (id : Z) (p : string) : Prop :=
  ∃ st, (0 ≤ id)%Z ∧ entries !! Z.to_nat id = Some st ∧ fileCanRequestData (st_Mode st) = true ∧ st_Path st = p.

(** A beginning of the file under an id was sent. *)
Definition settled (id : Z) (l : list bytes) : Prop :=
  l = [] ∨ ∃ p ps, entry_at id p ∧ O id p ps ∧ l `prefix_of` ps ++ [[]].

Definition phase_ok (id : Z) (ph : phase) (l : list bytes) : Prop :=
  match ph with
  | PTaken p | POpen p => entry_at id p ∧ l = []
  | PCopy rest => ∃ p pre, entry_at id p ∧ O id p (pre ++ rest) ∧ l = pre
  end.

Definition busy (id : Z) (s : sender) : Prop := ∃ k ph, workers s !! k = Some (WBusy id ph).

Record sync_ok (s : sender) : Prop := {
  so_walk : ∃ ann, entries = ann ++ pending s ∧ next_id s = Z.of_nat (length ann) ∧
    told (walk_at s) ann (omap stat_of (log s)) ∧ (walk_at s = WDone None → pending s = []);
  so_files id p : files s !! id = Some p → entry_at id p ∧ (id < next_id s)%Z ∧ sent_data id (log s) = [] ∧
    id ∉ (handles s).*1 ∧ ¬ busy id s;
  so_handles id p : (id, p) ∈ handles s → entry_at id p ∧ (id < next_id s)%Z ∧ sent_data id (log s) = [] ∧ ¬ busy id s;
  so_nodup : NoDup (handles s).*1;
  so_workers k id ph : workers s !! k = Some (WBusy id ph) →
    (id < next_id s)%Z ∧ phase_ok id ph (sent_data id (log s)) ∧ ∀ j ph', workers s !! j = Some (WBusy id ph') → j = k;
  so_settled id : ¬ busy id s → settled id (sent_data id (log s));
  so_fresh id : (next_id s ≤ id)%Z → sent_data id (log s) = [];
}.

Lemma sync_ok_init requests : sync_ok (new_sender entries requests).
Proof.
  assert (Hw : ∀ k id ph, workers (new_sender entries requests) !! k ≠ Some (WBusy id ph)).
  { intros k id ph H. cbn [workers new_sender] in H. apply lookup_replicate in H as [H _]. done. }
  split.
  - exists []. done.
  - intros id p H. simpl in H. by rewrite lookup_empty in H.
  - intros id p H. by apply elem_of_nil in H.
  - constructor.
  - intros k id ph H. by apply Hw in H.
  - intros id _. by left.
  - done.
Qed.

(** A step that moves no id, no handle and no file content. *)
Lemma sync_ok_same s s' :
  sync_ok s → files s' = files s → next_id s' = next_id s → handles s' = handles s →
  (∀ k id ph, workers s' !! k = Some (WBusy id ph) ↔ workers s !! k = Some (WBusy id ph)) →
  (∀ id, sent_data id (log s') = sent_data id (log s)) →
  (∃ ann, entries = ann ++ pending s' ∧ next_id s' = Z.of_nat (length ann) ∧
     told (walk_at s') ann (omap stat_of (log s')) ∧ (walk_at s' = WDone None → pending s' = [])) →
  sync_ok s'.
Proof.
  intros [H1 H2 H3 H4 H5 H6 H7] Hf Hn Hh Hw Hd Hwalk.
  assert (Hb : ∀ i, busy i s' ↔ busy i s) by (intros i; unfold busy; by setoid_rewrite Hw).
  split; [done|..]; rewrite ?Hf, ?Hn, ?Hh; try setoid_rewrite Hd; try setoid_rewrite Hb; try done.
  intros k id ph. rewrite Hw. intros Hk. destruct (H5 k id ph Hk) as (? & ? & ?). split_and!; [done..|].
  intros j ph'. rewrite Hw. by eauto.
Qed.

(** The walk goroutine sends, fails or ends. *)
Lemma sync_walk_same s w ps :
  sync_ok s → (∀ id, sent_data id ps = []) →
  (∀ ann, told (walk_at s) ann (omap stat_of (log s)) → told w ann (omap stat_of (log s) ++ omap stat_of ps)) →
  (w = WDone None → pending s = []) →
  sync_ok (upd_walk s (pending s) w (next_id s) (files s) ps).
Proof.
  intros Hok Hps Ht Hp. apply (sync_ok_same s); try done.
  - intros id. simpl. by rewrite sent_data_app, Hps, app_nil_r.
  - destruct (so_walk s Hok) as (ann & ? & ? & ? & ?). exists ann. simpl. rewrite omap_app. by split_and!; auto.
Qed.

Lemma sync_walk_register s st rest :
  sync_ok s → walk_at s = WNext → pending s = st :: rest →
  sync_ok (upd_walk s rest (WSend st) (u32 (next_id s + 1))
    (if fileCanRequestData (st_Mode st) then <[next_id s := st_Path st]> (files s) else files s) []).
Proof.
  intros [(ann & Hd & Hn & Hl & _) H2 H3 H4 H5 H6 H7] Ew Ep. rewrite Ew in Hl. rewrite Ep in Hd.
  assert (Hnext : u32 (next_id s + 1) = (next_id s + 1)%Z).
  { unfold u32. apply Z.mod_small. rewrite Hd, length_app in Hsmall. simpl in Hsmall. lia. }
  assert (Hent : fileCanRequestData (st_Mode st) = true → entry_at (next_id s) (st_Path st)).
  { intros Hr. exists st. split; [lia|]. split; [|done]. rewrite Hn, Nat2Z.id, Hd.
    rewrite lookup_app_r by lia. by rewrite Nat.sub_diag. }
  assert (Hfree : next_id s ∉ (handles s).*1 ∧ ¬ busy (next_id s) s).
  { split.
    - intros ([i p] & E & Hin)%list_elem_of_fmap. simpl in E. subst i. apply H3 in Hin as (_ & ? & _). lia.
    - intros (k & ph & Hk). apply H5 in Hk as [? _]. lia. }
  split; simpl; rewrite ?app_nil_r, ?Hnext.
  - exists (ann ++ [st]). split; [by rewrite <-app_assoc|]. split; [rewrite length_app; simpl; lia|].
    split; [|done]. rewrite fmap_app. simpl in *. by rewrite Hl.
  - intros id p Hf. assert (files s !! id = Some p ∨ (fileCanRequestData (st_Mode st) = true ∧ id = next_id s ∧ p = st_Path st)) as [Hf'|(Hr & -> & ->)].
    { destruct (fileCanRequestData (st_Mode st)); [|by left].
      apply lookup_insert_Some in Hf as [[<- <-]|[_ ?]]; [by right|by left]. }
    + destruct (H2 id p Hf') as (? & ? & ? & ? & ?). split_and!; try done. lia.
    + destruct Hfree. split_and!; [by apply Hent|lia|apply H7; lia|done|done].
  - intros id p Hf. destruct (H3 id p Hf) as (? & ? & ? & ?). split_and!; try done. lia.
  - done.
  - intros k id ph Hk. destruct (H5 k id ph Hk) as (? & ? & ?). split_and!; try done. lia.
  - done.
  - intros id Hi. apply H7. lia.
Qed.

Lemma sync_walk err_text e s s' : sync_ok s → step_walk err_text e s = Some s' → sync_ok s'.
Proof.
  intros Hok Hs. unfold step_walk in Hs.
  destruct (walk_at s) as [|st|err|?] eqn:Ew; [destruct (pending s) as [|st rest] eqn:Ep| | |by destruct (pending s)].
  - destruct (published s); [|by destruct e].
    destruct e as [e|]; injection Hs as <-; rewrite <-Ep; apply sync_walk_same; try done; rewrite Ew; simpl; intros ann ->.
    + by rewrite app_nil_r.
    + done.
  - destruct e as [e|]; [done|]. injection Hs as <-. by apply sync_walk_register.
  - destruct e as [e|]; injection Hs as <-; apply sync_walk_same; try done; rewrite Ew; simpl; intros ann H; [|done].
    rewrite app_nil_r, <-H. by apply prefix_app_r.
  - destruct e as [e|]; injection Hs as <-; apply sync_walk_same; try done; rewrite Ew; simpl; intros ann H; by rewrite app_nil_r.
Qed.

Lemma sync_abort e s s' : sync_ok s → step_abort e s = Some s' → sync_ok s'.
Proof.
  intros Hok Hs. unfold step_abort in Hs. destruct (walk_at s) eqn:Ew, (published s); try done. injection Hs as <-.
  apply sync_walk_same; try done. rewrite Ew. simpl. intros ann ->. by rewrite app_nil_r.
Qed.

Lemma sync_group s pub dn e : sync_ok s → sync_ok (upd_group s pub dn e).
Proof. intros Hok. apply (sync_ok_same s); try done. apply (so_walk s Hok). Qed.

(** The loop sends nothing but [PACKET_FIN], and moves ids from the map to the handles. *)
Lemma sync_loop_same s inc l q ps :
  sync_ok s → handles (upd_loop s inc l (files s) q ps) = handles s → (∀ id, sent_data id ps = []) →
  omap stat_of ps = [] → sync_ok (upd_loop s inc l (files s) q ps).
Proof.
  intros Hok Hh Hps Hst. apply (sync_ok_same s); try done.
  - intros id. simpl. by rewrite sent_data_app, Hps, app_nil_r.
  - simpl. rewrite omap_app, Hst, app_nil_r. apply (so_walk s Hok).
Qed.

Lemma sync_loop_queue s rest id p :
  sync_ok s → loop_handle (loop_at s) = [] → files s !! id = Some p →
  sync_ok (upd_loop s rest (RQueue id p) (delete id (files s)) (sendpipeline s) []).
Proof.
  intros [H1 H2 H3 H4 H5 H6 H7] El Ef. destruct (H2 id p Ef) as (F1 & F2 & F3 & F4 & F5).
  set (s' := upd_loop s rest (RQueue id p) (delete id (files s)) (sendpipeline s) []).
  assert (Hhs : handles s' = handles s ++ [(id, p)]).
  { unfold handles. simpl. rewrite El. by rewrite app_nil_r. }
  assert (Hlog : log s' = log s) by apply app_nil_r.
  assert (Hb : ∀ i, busy i s' ↔ busy i s) by done.
  split; rewrite ?Hlog, ?Hhs; try done.
  - intros i q Hq. cbn in Hq. apply lookup_delete_Some in Hq as [Hne Hq]. destruct (H2 i q Hq) as (? & ? & ? & ? & ?). split_and!; try done.
    rewrite fmap_app. intros [?|Hin]%elem_of_app; [done|]. apply list_elem_of_singleton in Hin. naive_solver.
  - intros i q [Hin|Hin]%elem_of_app; [by apply H3|].
    apply list_elem_of_singleton in Hin. injection Hin as -> ->. done.
  - rewrite fmap_app. apply NoDup_app. split; [done|]. split; [|apply NoDup_singleton].
    intros x Hx Hin. apply list_elem_of_singleton in Hin. by subst.
Qed.

Lemma sync_loop e s s' : sync_ok s → step_loop e s = Some s' → sync_ok s'.
Proof.
  intros Hok Hs. unfold step_loop in Hs.
  assert (Hh : loop_handle (loop_at s) = [] → ∀ l, loop_handle l = [] →
    ∀ inc ps, handles (upd_loop s inc l (files s) (sendpipeline s) ps) = handles s).
  { intros E l Hl inc ps. unfold handles. simpl. by rewrite E, Hl. }
  assert (Hsame : loop_handle (loop_at s) = [] → ∀ inc l ps, loop_handle l = [] → (∀ id, sent_data id ps = []) → omap stat_of ps = [] →
    sync_ok (upd_loop s inc l (files s) (sendpipeline s) ps)).
  { intros E inc l ps Hl Hps Hst. apply sync_loop_same; [done|by apply Hh|done|done]. }
  destruct (loop_at s) eqn:El; [| |done| |done].
  - destruct e; [done|]. injection Hs as <-. apply Hsame; try done. by destruct (done s).
  - destruct (incoming s) as [|[[st|id|id d| |msg]|err] rest] eqn:Ei; [done|..]; destruct e; try done;
      try (injection Hs as <-; by apply Hsame).
    injection Hs as <-. unfold queue. destruct (files s !! id) as [p|] eqn:Ef; [|by apply Hsame].
    apply sync_loop_queue; [done|by rewrite El|done].
  - destruct e; injection Hs as <-; by apply Hsame.
Qed.

Lemma sync_enqueue s s' : sync_ok s → step_enqueue s = Some s' → sync_ok s'.
Proof.
  intros Hok Hs. unfold step_enqueue in Hs. destruct (loop_at s) as [| |id p| |] eqn:El; try done.
  case_bool_decide; [|done]. injection Hs as <-. apply sync_loop_same; [done| |done|done].
  unfold handles. simpl. rewrite El. simpl. by rewrite app_nil_r.
Qed.

Lemma sync_worker_take s k id p q :
  sync_ok s → workers s !! k = Some WIdle → sendpipeline s = (id, p) :: q →
  sync_ok (upd_worker s k (WBusy id (PTaken p)) q []).
Proof.
  intros [H1 H2 H3 H4 H5 H6 H7] Hk Hq.
  assert (Hh : handles s = (id, p) :: q ++ loop_handle (loop_at s)) by (unfold handles; by rewrite Hq).
  destruct (H3 id p) as (F1 & F2 & F3 & F4); [rewrite Hh; apply list_elem_of_here|].
  rewrite Hh, fmap_cons, NoDup_cons in H4. destruct H4 as [Hnin Hnd].
  assert (Hlt : k < length (workers s)) by by eapply lookup_lt_Some.
  set (w := PTaken p). set (s' := upd_worker s k (WBusy id w) q []).
  assert (Hlog : log s' = log s) by apply app_nil_r.
  assert (Hw : ∀ j i r, workers s' !! j = Some (WBusy i r) → (j = k ∧ i = id ∧ r = w) ∨ (j ≠ k ∧ workers s !! j = Some (WBusy i r))).
  { intros j i r Hj. simpl in Hj. destruct (decide (j = k)) as [->|Hne].
    - rewrite list_lookup_insert_eq in Hj by done. left. naive_solver.
    - rewrite list_lookup_insert_ne in Hj by done. by right. }
  assert (Hb : ∀ i, i ≠ id → ¬ busy i s → ¬ busy i s').
  { intros i Hi Hn (j & r & Hj). destruct (Hw j i r Hj) as [(_ & ? & _)|[_ Hj']]; [done|]. apply Hn. by exists j, r. }
  split; rewrite ?Hlog.
  - exact H1.
  - intros i x Hf. destruct (H2 i x Hf) as (? & ? & ? & Hni & ?). rewrite Hh in Hni. split_and!; try done.
    + intros Hin. apply Hni. rewrite fmap_cons. by apply list_elem_of_further.
    + apply Hb; [|done]. intros ->. apply Hni. rewrite fmap_cons. apply list_elem_of_here.
  - intros i x Hin. destruct (H3 i x) as (? & ? & ? & ?); [rewrite Hh; by apply list_elem_of_further|].
    split_and!; try done. apply Hb; [|done]. intros ->. apply Hnin. apply list_elem_of_fmap. by exists (id, x).
  - exact Hnd.
  - intros j i r Hj. destruct (Hw j i r Hj) as [(-> & -> & ->)|[Hne Hj']].
    + split; [exact F2|]. split; [by split|]. intros j' r' Hj'.
      destruct (Hw _ _ _ Hj') as [[? _]|[_ Hb']]; [done|]. destruct F4. by exists j', r'.
    + destruct (H5 j i r Hj') as (? & ? & Hu). split_and!; try done. intros j' r' Hj2.
      destruct (Hw _ _ _ Hj2) as [(-> & -> & _)|[_ Hb']]; [|by eapply Hu]. destruct F4. by exists j, r.
  - intros i Hn. destruct (decide (i = id)) as [->|Hne].
    + destruct Hn. exists k, w. simpl. by apply list_lookup_insert_eq.
    + apply H6. intros (j & r & Hj). apply Hn. exists j, r. simpl. rewrite list_lookup_insert_ne; [done|]. naive_solver.
  - exact H7.
Qed.

(** A worker goes on with its file, or is through with it. *)
Definition next_ok (id : Z) (w : worker) (l : list bytes) : Prop :=
  match w with WBusy i ph => i = id ∧ phase_ok id ph l | _ => settled id l end.

Lemma sync_worker_move s k id ph w ps :
  sync_ok s → workers s !! k = Some (WBusy id ph) → omap stat_of ps = [] → (∀ i, i ≠ id → sent_data i ps = []) →
  next_ok id w (sent_data id (log s ++ ps)) → sync_ok (upd_worker s k w (sendpipeline s) ps).
Proof.
  intros [H1 H2 H3 H4 H5 H6 H7] Hk Hst Hps Hw'. destruct (H5 k id ph Hk) as (F1 & F2 & F3).
  assert (Hlt : k < length (workers s)) by by eapply lookup_lt_Some.
  set (s' := upd_worker s k w (sendpipeline s) ps).
  assert (Hsd : ∀ i, i ≠ id → sent_data i (log s') = sent_data i (log s)).
  { intros i Hi. simpl. by rewrite sent_data_app, Hps, app_nil_r. }
  assert (Hw : ∀ j i x, workers s' !! j = Some (WBusy i x) → (j = k ∧ i = id ∧ w = WBusy id x) ∨ (i ≠ id ∧ workers s !! j = Some (WBusy i x))).
  { intros j i x Hj. simpl in Hj. destruct (decide (j = k)) as [->|Hne].
    - rewrite list_lookup_insert_eq in Hj by done. left. injection Hj as ->. by destruct Hw' as [-> _].
    - rewrite list_lookup_insert_ne in Hj by done. right. split; [|done]. intros ->. by apply F3 in Hj. }
  assert (Hbusy : busy id s) by by exists k, ph.
  assert (Hb : ∀ i, i ≠ id → busy i s' ↔ busy i s).
  { intros i Hi. split; intros (j & x & Hj).
    - destruct (Hw j i x Hj) as [(_ & ? & _)|[_ ?]]; [done|]. by exists j, x.
    - exists j, x. simpl. rewrite list_lookup_insert_ne; [done|]. naive_solver. }
  split.
  - simpl. rewrite omap_app, Hst, app_nil_r. exact H1.
  - intros i x Hf. destruct (H2 i x Hf) as (? & ? & ? & ? & ?). assert (i ≠ id) by congruence.
    rewrite Hsd, Hb by done. done.
  - intros i x Hf. destruct (H3 i x Hf) as (? & ? & ? & ?). assert (i ≠ id) by congruence.
    rewrite Hsd, Hb by done. done.
  - exact H4.
  - intros j i x Hj. destruct (Hw j i x Hj) as [(-> & -> & ->)|[Hne Hj']].
    + split; [done|]. split; [by destruct Hw'|].
      intros j' x' Hj'. destruct (Hw _ _ _ Hj') as [[? _]|[? _]]; [done|congruence].
    + destruct (H5 j i x Hj') as (? & ? & Hu). rewrite Hsd by done. split_and!; try done.
      intros j' x' Hj2. destruct (Hw _ _ _ Hj2) as [(_ & ? & _)|[_ ?]]; [done|]. by eapply Hu.
  - intros i Hn. destruct (decide (i = id)) as [->|Hne]; [|rewrite Hsd by done; apply H6; by rewrite <-Hb].
    destruct w as [|i' x|]; [done| |done]. destruct Hw' as [-> _]. destruct Hn. exists k, x. simpl. by apply list_lookup_insert_eq.
  - intros i Hi. cbn [next_id upd_worker s'] in Hi. rewrite Hsd by lia. by apply H7.
Qed.

Lemma phase_settled id ph l : phase_ok id ph l → settled id l.
Proof.
  destruct ph as [p|p|rest]; [intros [_ ->]; by left..|]. intros (p & pre & ? & ? & ->). right. exists p, (pre ++ rest).
  split_and!; try done. rewrite <-app_assoc. by apply prefix_app_r.
Qed.

Lemma sync_worker content k e s s' :
  sync_ok s → step_worker content k e s = Some s' →
  (∀ id p ps, workers s !! k = Some (WBusy id (POpen p)) → content (published s) p = Ok ps → O id p ps) → sync_ok s'.
Proof.
  intros Hok Hs HO. unfold step_worker in Hs. destruct (workers s !! k) as [w|] eqn:Hk; simpl in Hs; [|done].
  assert (Hmove : ∀ id ph, w = WBusy id ph → phase_ok id ph (sent_data id (log s)) ∧
    ∀ w' ps, omap stat_of ps = [] → (∀ i, i ≠ id → sent_data i ps = []) → next_ok id w' (sent_data id (log s ++ ps)) →
      sync_ok (upd_worker s k w' (sendpipeline s) ps)).
  { intros id ph ->. split; [by eapply so_workers|]. intros. by eapply sync_worker_move. }
  destruct w as [|id ph|]; [| |by destruct e].
  { destruct e; [done|]. destruct (sendpipeline s) as [|[id p] q] eqn:Hq; [|injection Hs as <-; by apply sync_worker_take].
    destruct (loop_at s) eqn:El; try done. injection Hs as <-. apply (sync_ok_same s); try done.
    - unfold handles. simpl. by rewrite Hq, El.
    - intros j i ph. simpl. destruct (decide (j = k)) as [->|Hne]; [|by rewrite list_lookup_insert_ne].
      rewrite list_lookup_insert_eq by by eapply lookup_lt_Some. rewrite Hk. done.
    - intros id. simpl. by rewrite app_nil_r.
    - simpl. rewrite app_nil_r. apply (so_walk s Hok). }
  destruct (Hmove id ph eq_refl) as [Hph Hm]. pose proof (phase_settled _ _ _ Hph) as Hset.
  destruct ph as [p|p|[|d rest]], e as [e|]; try done.
  - injection Hs as <-. apply Hm; [done..|]. rewrite app_nil_r. by destruct (done s).
  - destruct Hph as [Hent Hnil]. destruct (content (published s) p) as [ps|err] eqn:Hc; injection Hs as <-; apply Hm; try done; rewrite app_nil_r; [|done].
    split; [done|]. exists p, []. rewrite Hnil. split_and!; try done. by eapply HO.
  - injection Hs as <-. apply Hm; [done..|]. by rewrite app_nil_r.
  - injection Hs as <-. apply Hm; [done|intros i Hi; simpl; by rewrite bool_decide_false by congruence|].
    destruct Hph as (p & pre & ? & HO' & Hpre). right. exists p, pre. rewrite app_nil_r in HO'. split_and!; try done.
    rewrite sent_data_app, Hpre. simpl. by rewrite bool_decide_true.
  - injection Hs as <-. apply Hm; [done..|]. by rewrite app_nil_r.
  - injection Hs as <-. apply Hm; [done|intros i Hi; simpl; by rewrite bool_decide_false by congruence|].
    destruct Hph as (p & pre & ? & HO' & Hpre). split; [done|]. exists p, (pre ++ [d]). rewrite <-app_assoc. split_and!; try done.
    rewrite sent_data_app, Hpre. simpl. by rewrite bool_decide_true.
Qed.

Lemma sync_step_ok content err_text l s s' :
  sync_ok s → sync_step content err_text l s = Some s' →
  (∀ k id p ps, l = SWorker k None → workers s !! k = Some (WBusy id (POpen p)) → content (published s) p = Ok ps → O id p ps) →
  sync_ok s'.
Proof.
  intros Hok Hs HO. destruct l as [e|e| |e| |k e|e|e]; simpl in Hs.
  - by eapply sync_walk.
  - by eapply sync_abort.
  - unfold step_publish in Hs. destruct (walk_at s), (pending s), (published s); try done. injection Hs as <-. by apply sync_group.
  - by eapply sync_loop.
  - by eapply sync_enqueue.
  - eapply sync_worker; [done|done|]. intros id p ps Hk Hc. eapply HO; [|done|done].
    unfold step_worker in Hs. rewrite Hk in Hs. simpl in Hs. by destruct e.
  - unfold step_fail in Hs. case_bool_decide; [|done]. injection Hs as <-. by apply sync_group.
  - destruct (done s); [done|]. injection Hs as <-. by apply sync_group.
Qed.

(** Everything sent under an id is a prefix of the one transfer of the file announced there. *)
Definition copies (id : Z) (w : worker) : Prop := match w with WBusy i _ => i = id | _ => False end.
#[local] Instance copies_dec id w : Decision (copies id w).
Proof. destruct w; simpl; apply _. Defined.

Lemma sent_settled s id : sync_ok s → settled id (sent_data id (log s)).
Proof.
  intros Hok. destruct (decide (Exists (copies id) (workers s))) as [Hb|Hn].
  - apply Exists_exists in Hb as (w & Hin & Hw). destruct w as [|i ph|]; [done| |done]. simpl in Hw. subst i.
    apply list_elem_of_lookup in Hin as [k Hk]. destruct (so_workers s Hok k id ph Hk) as (_ & Hph & _). by eapply phase_settled.
  - apply (so_settled s Hok). intros (k & ph & Hk). apply Hn. apply Exists_exists. exists (WBusy id ph). split; [|done].
    by eapply list_elem_of_lookup_2.
Qed.
End invariant.

Lemma sync_ok_mono entries (O O' : Z → string → list bytes → Prop) s :
  (∀ id p ps, O id p ps → O' id p ps) → sync_ok entries O s → sync_ok entries O' s.
Proof.
  intros HO [H1 H2 H3 H4 H5 H6 H7]. split; try done.
  - intros k id ph Hk. destruct (H5 k id ph Hk) as (? & Hph & ?). split_and!; try done.
    destruct ph as [| |rest]; [done|done|]. destruct Hph as (p & pre & ? & ? & ?). exists p, pre. auto.
  - intros id Hb. destruct (H6 id Hb) as [?|(p & ps & ? & ? & ?)]; [by left|]. right. exists p, ps. auto.
Qed.

(** ** Failures and exits *)

Lemma elem_failures e s : e ∈ failures s ↔
  walk_at s = WDone (Some e) ∨ loop_at s = RStop (Some e) ∨ ∃ k, workers s !! k = Some (WExit (Some e)).
Proof.
  unfold failures. rewrite !elem_of_app, list_elem_of_omap.
  assert (Ho : ∀ o : option error, e ∈ option_list o ↔ o = Some e).
  { intros [x|]; simpl; [rewrite list_elem_of_singleton; naive_solver|]. split; [by intros ?%elem_of_nil|done]. }
  rewrite !Ho. f_equiv; [by destruct (walk_at s); naive_solver|]. f_equiv; [by destruct (loop_at s); naive_solver|]. split.
  - intros (w & [k Hk]%list_elem_of_lookup & Hw). exists k. destruct w; try done. simpl in Hw. by subst.
  - intros [k Hk]. exists (WExit (Some e)). split; [by eapply list_elem_of_lookup_2|done].
Qed.

(** A goroutine of the group returned an error. *)
Definition hurt (s : sender) : Prop := ∃ e, e ∈ failures s.

(** The workers leave in peace only when the channel is closed and empty, and the loop only
    after it has answered the last packet. *)
Record exits_ok (s : sender) : Prop := {
  ex_worker k : workers s !! k = Some (WExit None) → sendpipeline s = [] ∧ ∃ e, loop_at s = RStop e;
  ex_fin : loop_at s = RStop None → PACKET_FIN ∈ log s;
  ex_count : length (workers s) = 64;
}.

Ltac open_sync Hs :=
  unfold step_walk, step_abort, step_publish, step_loop, queue, step_enqueue, step_worker, step_fail in Hs;
  repeat (case_match; simplify_eq/=); try done.

Lemma worker_insert s k w w' q ps j x :
  workers s !! k = Some w → workers (upd_worker s k w' q ps) !! j = Some x → (j = k ∧ x = w') ∨ (j ≠ k ∧ workers s !! j = Some x).
Proof.
  intros Hk Hj. simpl in Hj. destruct (decide (j = k)) as [->|Hne].
  - rewrite list_lookup_insert_eq in Hj by by eapply lookup_lt_Some. left. naive_solver.
  - rewrite list_lookup_insert_ne in Hj by done. by right.
Qed.

Lemma worker_kept s k w w' q ps j x :
  workers s !! k = Some w → w ≠ x → workers s !! j = Some x → workers (upd_worker s k w' q ps) !! j = Some x.
Proof. intros Hk Hne Hj. simpl. rewrite list_lookup_insert_ne; [done|]. congruence. Qed.

Section lives.
Context (content : bool → string → res (list bytes)) (err_text : error → string).

(** What a step of worker [k] does, whatever it is at. *)
Lemma step_worker_shape k e s s' : step_worker content k e s = Some s' →
  ∃ w w' q ps, workers s !! k = Some w ∧ (∀ x, w ≠ WExit x) ∧ s' = upd_worker s k w' q ps ∧
    (q = sendpipeline s ∨ ∃ h, sendpipeline s = h :: q) ∧
    (w' = WExit None → sendpipeline s = [] ∧ ∃ x, loop_at s = RStop x).
Proof.
  intros Hs. unfold step_worker in Hs. destruct (workers s !! k) as [w|] eqn:Hk; simpl in Hs; [|done].
  assert (Hg : ∀ w' q ps, Some (upd_worker s k w' q ps) = Some s' → (∀ x, w ≠ WExit x) →
    (q = sendpipeline s ∨ ∃ h, sendpipeline s = h :: q) → (w' = WExit None → sendpipeline s = [] ∧ ∃ x, loop_at s = RStop x) →
    ∃ w0 w' q ps, Some w = Some w0 ∧ (∀ x, w0 ≠ WExit x) ∧ s' = upd_worker s k w' q ps ∧
    (q = sendpipeline s ∨ ∃ h, sendpipeline s = h :: q) ∧ (w' = WExit None → sendpipeline s = [] ∧ ∃ x, loop_at s = RStop x)).
  { intros w' q ps [= <-] ???. by exists w, w', q, ps. }
  destruct w as [|id ph|]; [| |by destruct e].
  - destruct e; [done|]. destruct (sendpipeline s) as [|h q] eqn:Hq.
    + destruct (loop_at s); try done. eapply Hg; [done|done|by left|by eauto].
    + destruct h. eapply Hg; [done|done|by right; eauto|done].
  - destruct ph as [p|p|[|d rest]], e as [e|]; try done; repeat case_match; eapply Hg; eauto; try done; intros ?; simplify_eq; repeat case_match; done.
Qed.

Lemma hurt_step l s s' : sync_step content err_text l s = Some s' → hurt s → hurt s'.
Proof.
  intros Hs [x Hx]. exists x. apply elem_failures. apply elem_failures in Hx. destruct l as [e|e| |e| |k e|e|e]; simpl in Hs.
  6: { apply step_worker_shape in Hs as (w & w' & q & ps & Hk & Hw & -> & _). destruct Hx as [?|[?|[j Hj]]]; [by left|by right; left|].
       right; right. exists j. by eapply worker_kept. }
  all: open_sync Hs; destruct Hx as [Hx|[Hx|Hx]]; simpl in *; try (rewrite Hx in *; done); try congruence; eauto.
Qed.

Lemma exits_step l s s' : sync_step content err_text l s = Some s' → exits_ok s → exits_ok s'.
Proof.
  intros Hs [Hw Hf Hc]. destruct l as [e|e| |e| |k e|e|e]; simpl in Hs.
  6: { apply step_worker_shape in Hs as (w & w' & q & ps & Hk & _ & -> & Hq & Hw'). split.
       - intros j Hj. destruct (worker_insert _ _ _ _ _ _ _ _ Hk Hj) as [[-> <-]|[_ Hj']].
         + destruct (Hw' eq_refl) as [E ?]. rewrite E in Hq. split; [|done]. by destruct Hq as [?|[? ?]].
         + destruct (Hw j Hj') as [E ?]. rewrite E in Hq. split; [|done]. by destruct Hq as [?|[? ?]].
       - intros E. simpl. apply elem_of_app. left. by apply Hf.
       - simpl. by rewrite length_insert. }
  all: open_sync Hs; split; simpl; try done.
  all: try (intros j Hj; destruct (Hw j Hj) as [? [? ?]]; try (split; [done|by eauto]); congruence).
  all: try (intros E; apply elem_of_app; left; by auto).
  all: try (intros _; apply elem_of_app; right; by apply list_elem_of_singleton).
  all: intros; congruence.
Qed.
End lives.
(** ** Completion *)

Section completion.
Context (entries : list Stat) (requests : list (res packet)).
Context (Hsmall : (Z.of_nat (length entries) < 2^32)%Z).
Context (content : bool → string → res (list bytes)) (err_text : error → string).
Context (O : Z → string → list bytes → Prop).

Definition delivered (id : Z) (s : sender) : Prop :=
  ∃ p ps, entry_at entries id p ∧ O id p ps ∧ sent_data id (log s) = ps ++ [[]].

(** A request the loop took is one of an announced file that is no longer in the map, and a
    file that is no longer in the map is a handle, in a worker or delivered. *)
Definition taken (id : Z) (s : sender) : Prop := files s !! id = None ∧ (id < next_id s)%Z ∧ ∃ p, entry_at entries id p.
Definition placed (id : Z) (s : sender) : Prop := id ∈ (handles s).*1 ∨ busy id s ∨ delivered id s.

Record sync_live (s : sender) : Prop := {
  sl_ok : sync_ok entries O s;
  sl_exits : exits_ok s;
  sl_req : ∃ consumed, requests = consumed ++ incoming s ∧ ∀ id, Ok (PACKET_REQ id) ∈ consumed → hurt s ∨ taken id s;
  sl_placed id : taken id s → hurt s ∨ placed id s;
}.

Lemma sync_live_init : sync_live (new_sender entries requests).
Proof.
  split.
  - apply sync_ok_init.
  - split; try done. intros k H. cbn [workers new_sender] in H. apply lookup_replicate in H as [H _]. done.
  - exists []. split; [done|]. intros id H. by apply elem_of_nil in H.
  - intros id (_ & Hlt & p & st & Hge & _). simpl in Hlt. lia.
Qed.

(** A step that leaves the registered files and the input alone. *)
Lemma live_same s s' :
  sync_live s → sync_ok entries O s' → exits_ok s' → (hurt s → hurt s') →
  incoming s' = incoming s → files s' = files s → next_id s' = next_id s →
  (∀ id, placed id s → hurt s' ∨ placed id s') → sync_live s'.
Proof.
  intros [_ _ (cs & Hcs & Hreq) Hpl] Hok Hex Hh Hi Hf Hn Hp.
  assert (Ht : ∀ id, taken id s' ↔ taken id s) by (intros id; unfold taken; by rewrite Hf, Hn).
  split; [done|done| |].
  - exists cs. rewrite Hi. split; [done|]. intros id Hin. rewrite Ht. destruct (Hreq id Hin); auto.
  - intros id. rewrite Ht. intros Hid. destruct (Hpl id Hid); auto.
Qed.

Lemma placed_same id s s' :
  handles s' = handles s → workers s' = workers s → sent_data id (log s') = sent_data id (log s) → placed id s → placed id s'.
Proof. intros Hh Hw Hd. unfold placed, busy, delivered. by rewrite Hh, Hw, Hd. Qed.

Lemma live_register s st rest :
  sync_live s → walk_at s = WNext → pending s = st :: rest →
  sync_live (upd_walk s rest (WSend st) (u32 (next_id s + 1))
    (if fileCanRequestData (st_Mode st) then <[next_id s := st_Path st]> (files s) else files s) []).
Proof.
  intros [Hok Hex (cs & Hcs & Hreq) Hpl] Ew Ep.
  assert (Hstep : sync_step content err_text (SWalk None) s = Some (upd_walk s rest (WSend st) (u32 (next_id s + 1))
    (if fileCanRequestData (st_Mode st) then <[next_id s := st_Path st]> (files s) else files s) [])).
  { simpl. unfold step_walk. by rewrite Ew, Ep. }
  assert (Hok' := sync_walk_register entries Hsmall O s st rest Hok Ew Ep).
  destruct (so_walk _ _ _ Hok) as (ann & Hd & Hn & _ & _). rewrite Ep in Hd.
  assert (Hnext : u32 (next_id s + 1) = (next_id s + 1)%Z).
  { unfold u32. apply Z.mod_small. rewrite Hd, length_app in Hsmall. simpl in Hsmall. lia. }
  set (f := if fileCanRequestData (st_Mode st) then <[next_id s := st_Path st]> (files s) else files s) in *.
  assert (Hf : ∀ id, (id < next_id s)%Z → f !! id = files s !! id).
  { intros id Hid. unfold f. destruct (fileCanRequestData (st_Mode st)); [|done]. rewrite lookup_insert_ne by lia. done. }
  split; [done|by eapply exits_step| |].
  - exists cs. split; [done|]. intros id Hin. destruct (Hreq id Hin) as [?|(T1 & T2 & T3)]; [left; by eapply hurt_step|]. right.
    split; [simpl; rewrite <-T1; by apply Hf|]. split; [simpl; lia|done].
  - intros id (T1 & T2 & T3). cbn [files next_id upd_walk] in T1, T2. rewrite Hnext in T2.
    assert (Hne : id ≠ next_id s).
    { intros ->. destruct T3 as (p & st' & _ & Hst & Hreg & _). rewrite Hn, Nat2Z.id, Hd in Hst.
      rewrite lookup_app_r, Nat.sub_diag in Hst by lia. simpl in Hst. injection Hst as <-.
      unfold f in T1; rewrite Hreg in T1. rewrite lookup_insert_eq in T1. done. }
    destruct (Hpl id) as [?|Hp]; [split; [rewrite <-T1; symmetry; apply Hf; lia|split; [lia|done]]|left; by eapply hurt_step|].
    right. apply (placed_same id s); [done|done| |done]. simpl. by rewrite app_nil_r.
Qed.

(** The loop takes a packet that is not a valid request. *)
Lemma live_consume s s' r rest :
  sync_live s → sync_ok entries O s' → exits_ok s' → (hurt s → hurt s') → incoming s = r :: rest → incoming s' = rest →
  files s' = files s → next_id s' = next_id s → (∀ id, placed id s → hurt s' ∨ placed id s') →
  (∀ id, r = Ok (PACKET_REQ id) → hurt s') → sync_live s'.
Proof.
  intros [_ _ (cs & Hcs & Hreq) Hpl] Hok Hex Hh Ei Ei' Hf Hn Hp Hr.
  assert (Ht : ∀ id, taken id s' ↔ taken id s) by (intros id; unfold taken; by rewrite Hf, Hn).
  split; [done|done| |].
  - exists (cs ++ [r]). rewrite Ei'. split; [by rewrite <-app_assoc, Hcs, Ei|].
    intros id [Hin|Hin]%elem_of_app; rewrite Ht.
    + destruct (Hreq id Hin); auto.
    + apply list_elem_of_singleton in Hin. left. by eapply Hr.
  - intros id. rewrite Ht. intros Hid. destruct (Hpl id Hid); auto.
Qed.

Lemma live_queue s id p rest :
  sync_live s → loop_at s = RRecv → incoming s = Ok (PACKET_REQ id) :: rest → files s !! id = Some p →
  sync_live (upd_loop s rest (RQueue id p) (delete id (files s)) (sendpipeline s) []).
Proof.
  intros [Hok Hex (cs & Hcs & Hreq) Hpl] El Ei Ef.
  assert (Hstep : sync_step content err_text (SLoop None) s = Some (upd_loop s rest (RQueue id p) (delete id (files s)) (sendpipeline s) [])).
  { simpl. unfold step_loop. rewrite El, Ei. unfold queue. by rewrite Ef, Ei. }
  destruct (so_files _ _ _ Hok id p Ef) as (F1 & F2 & _).
  split; [apply sync_loop_queue; [done|by rewrite El|done]|by eapply exits_step| |].
  - exists (cs ++ [Ok (PACKET_REQ id)]). split; [by rewrite <-app_assoc, Hcs, Ei|]. intros i Hin.
    assert (Hi : i = id ∨ hurt s ∨ taken i s).
    { apply elem_of_app in Hin as [Hin|Hin]; [right; by apply Hreq|].
      apply list_elem_of_singleton in Hin. left. congruence. }
    destruct Hi as [->|[Hi|(T1 & T2 & T3)]]; [|left; by eapply hurt_step|].
    + right. split; [apply lookup_delete_eq|]. split; [done|by exists p].
    + right. split; [simpl; by apply lookup_delete_None; right|done].
  - intros i (T1 & T2 & T3).
    assert (Hh : handles (upd_loop s rest (RQueue id p) (delete id (files s)) (sendpipeline s) []) = handles s ++ [(id, p)]).
    { unfold handles. simpl. rewrite El. simpl. by rewrite app_nil_r. }
    unfold placed. rewrite Hh, fmap_app. destruct (decide (i = id)) as [->|Hne].
    { right. left. apply elem_of_app. right. by apply list_elem_of_singleton. }
    destruct (Hpl i) as [?|[?|[?|(p' & x & ? & ? & ?)]]]; [|left; by eapply hurt_step|..].
    + split; [|done]. simpl in T1. by rewrite lookup_delete_ne in T1 by done.
    + right; left. apply elem_of_app. by left.
    + right; right; by left.
    + right; right; right. exists p', x. simpl. by rewrite app_nil_r.
Qed.

(** A worker that goes on leaves the other files alone. *)
Lemma placed_other s k w w' ps i :
  workers s !! k = Some w → (∀ ph, w ≠ WBusy i ph) → sent_data i ps = [] →
  placed i s → placed i (upd_worker s k w' (sendpipeline s) ps).
Proof.
  intros Hk Hw Hps [?|[(j & ph & Hj)|(p & x & ? & ? & ?)]]; [by left|right; left|right; right].
  - exists j, ph. eapply worker_kept; [done|apply Hw|done].
  - exists p, x. split_and!; try done. simpl. by rewrite sent_data_app, Hps, app_nil_r.
Qed.

Lemma exit_hurt s k w e q ps : workers s !! k = Some w → hurt (upd_worker s k (WExit (Some e)) q ps).
Proof.
  intros Hk. exists e. apply elem_failures. right; right. exists k. simpl. apply list_lookup_insert_eq. by eapply lookup_lt_Some.
Qed.

(** A worker keeps its file, delivers it or fails. *)
Lemma worker_placed k e s s' i :
  sync_ok entries O s → step_worker content k e s = Some s' → placed i s → hurt s' ∨ placed i s'.
Proof.
  intros Hok Hs Hp. unfold step_worker in Hs. destruct (workers s !! k) as [w|] eqn:Hk; simpl in Hs; [|done].
  assert (Hlt : k < length (workers s)) by by eapply lookup_lt_Some.
  assert (Hset : ∀ w' q ps, workers (upd_worker s k w' q ps) !! k = Some w').
  { intros. simpl. by apply list_lookup_insert_eq. }
  destruct w as [|id ph|]; [| |by destruct e].
  - destruct e; [done|]. destruct (sendpipeline s) as [|[id p] q] eqn:Hq.
    + destruct (loop_at s) eqn:El; try done. injection Hs as <-. right. rewrite <-Hq. by eapply placed_other.
    + injection Hs as <-. right. destruct Hp as [Hin|Hp].
      * unfold handles in Hin. rewrite Hq in Hin. simpl in Hin.
        apply elem_of_cons in Hin as [->|Hin]; [right; left; by eexists k, _|by left].
      * assert (Hp' : placed i (upd_worker s k (WBusy id (PTaken p)) (sendpipeline s) [])) by (eapply placed_other; try done; by right).
        destruct Hp' as [Hin|Hp']; [|by right]. destruct Hp as [(j & ph & Hj)|(p' & x & ? & ? & Hd)].
        -- right; left. exists j, ph. eapply worker_kept; [done| |done]. done.
        -- right; right. exists p', x. split_and!; try done. simpl. by rewrite app_nil_r.
  - destruct (so_workers _ _ _ Hok k id ph Hk) as (_ & Hph & _).
    assert (Hother : ∀ w' ps, (∀ j, j ≠ id → sent_data j ps = []) → i ≠ id → placed i (upd_worker s k w' (sendpipeline s) ps)).
    { intros w' ps Hps Hne. eapply placed_other; [done|congruence|by apply Hps|done]. }
    assert (Hgo : ∀ ph' ps, (∀ j, j ≠ id → sent_data j ps = []) → placed i (upd_worker s k (WBusy id ph') (sendpipeline s) ps)).
    { intros ph' ps Hps. destruct (decide (i = id)) as [->|]; [right; left; by eexists k, _|by apply Hother]. }
    assert (Hdata : ∀ d j, j ≠ id → sent_data j [PACKET_DATA id d] = []).
    { intros d j Hj. simpl. by rewrite bool_decide_false by congruence. }
    destruct ph as [p|p|[|d rest]], e as [e|]; try done.
    + injection Hs as <-. destruct (done s); [left; by eapply exit_hurt|right; by apply Hgo].
    + destruct (content (published s) p); injection Hs as <-; [right; by apply Hgo|left; by eapply exit_hurt].
    + injection Hs as <-. left. by eapply exit_hurt.
    + injection Hs as <-. right. destruct (decide (i = id)) as [->|Hne]; [|apply Hother; [apply Hdata|done]].
      right; right. destruct Hph as (p & pre & ? & HO & Hpre). rewrite app_nil_r in HO. exists p, pre. split_and!; try done.
      simpl. rewrite sent_data_app, Hpre. simpl. by rewrite bool_decide_true.
    + injection Hs as <-. left. by eapply exit_hurt.
    + injection Hs as <-. right. apply Hgo, Hdata.
Qed.

Lemma sync_step_live l s s' :
  sync_live s → sync_step content err_text l s = Some s' →
  (∀ k id p ps, l = SWorker k None → workers s !! k = Some (WBusy id (POpen p)) → content (published s) p = Ok ps → O id p ps) →
  sync_live s'.
Proof.
  intros Hl Hs HO. assert (Hok' := sync_step_ok entries Hsmall O content err_text l s s' (sl_ok s Hl) Hs HO).
  assert (Hex' := exits_step content err_text l s s' Hs (sl_exits s Hl)). assert (Hh := hurt_step content err_text l s s' Hs).
  assert (Hsame : incoming s' = incoming s → files s' = files s → next_id s' = next_id s → handles s' = handles s →
    workers s' = workers s → (∀ id, sent_data id (log s') = sent_data id (log s)) → sync_live s').
  { intros. apply (live_same s); try done. intros id Hp. right. by apply (placed_same id s). }
  assert (Htake : ∀ r, incoming s = r :: incoming s' → (∀ id, r = Ok (PACKET_REQ id) → hurt s') → files s' = files s → next_id s' = next_id s →
    handles s' = handles s → workers s' = workers s → (∀ id, sent_data id (log s') = sent_data id (log s)) → sync_live s').
  { intros r Ei Hr ? ? ? ? ?. apply (live_consume s s' r (incoming s')); try done. intros id Hp. right. by apply (placed_same id s). }
  destruct l as [e|e| |e| |k e|e|e]; simpl in Hs.
  - unfold step_walk in Hs. destruct (walk_at s) as [|st|err|?] eqn:Ew; [destruct (pending s) as [|st rest] eqn:Ep| | |by destruct (pending s)].
    2: { destruct e; [done|]. injection Hs as <-. by apply live_register. }
    all: repeat case_match; simplify_eq; apply Hsame; try done; intros id; simpl; rewrite sent_data_app; apply app_nil_r.
  - unfold step_abort in Hs. repeat case_match; simplify_eq. apply Hsame; try done. intros id. simpl. by rewrite app_nil_r.
  - unfold step_publish in Hs. repeat case_match; simplify_eq. by apply Hsame.
  - unfold step_loop in Hs. destruct (loop_at s) eqn:El; [| |done| |done].
    + destruct e; [done|]. injection Hs as <-. apply Hsame; try done; [|intros id; simpl; by rewrite app_nil_r].
      unfold handles. simpl. rewrite El. by destruct (done s).
    + destruct (incoming s) as [|r rest] eqn:Ei; [by destruct e|].
      assert (Hq : ∀ inc l, loop_handle l = [] → handles (upd_loop s inc l (files s) (sendpipeline s) []) = handles s).
      { intros inc l E. unfold handles. simpl. by rewrite El, E. }
      assert (Hn : ∀ inc l id, sent_data id (log (upd_loop s inc l (files s) (sendpipeline s) [])) = sent_data id (log s)).
      { intros. simpl. by rewrite app_nil_r. }
      destruct r as [[st|id|id d| |msg]|err]; destruct e; try done; injection Hs as <-; try (by eapply Htake; [done|done|..]; auto).
      destruct (files s !! id) as [p|] eqn:Ef; unfold queue in *; rewrite Ef, Ei in *; cbn [tail] in *; [by apply live_queue|].
      eapply Htake; [done| |auto..]; try done. intros _ _. eexists. apply elem_failures. right; left. done.
    + destruct e; injection Hs as <-; apply Hsame; try done; try (unfold handles; simpl; by rewrite El);
        intros id; simpl; rewrite sent_data_app; apply app_nil_r.
  - unfold step_enqueue in Hs. destruct (loop_at s) as [| |id p| |] eqn:El; try done. case_bool_decide; [|done]. injection Hs as <-.
    apply Hsame; try done; [unfold handles; simpl; rewrite El; simpl; by rewrite app_nil_r|intros i; simpl; by rewrite app_nil_r].
  - pose proof (worker_placed k e s s') as Hp. destruct (step_worker_shape content k e s s' Hs) as (w & w' & q & ps & _ & _ & -> & _).
    apply (live_same s); try done. intros i. by apply Hp, Hs; apply sl_ok.
  - unfold step_fail in Hs. case_bool_decide; [|done]. injection Hs as <-. by apply Hsame.
  - destruct (done s); [done|]. injection Hs as <-. by apply Hsame.
Qed.
End completion.

(** ** Runs *)

Section runs.
Context (content : bool → string → res (list bytes)) (err_text : error → string).

(** In the run [ls] from [s0], a worker opened the file [p] of [id] at a moment at which
    [FS.Open] gave the pieces [ps]: from the cache if the walk had published its checksum by
    then, from the host otherwise. *)
Definition opened (s0 : sender) (ls : list sync_label) (id : Z) (p : string) (ps : list bytes) : Prop :=
  ∃ ls1 k ls2 s1, ls = ls1 ++ SWorker k None :: ls2 ∧ sync_run content err_text ls1 s0 = Some s1 ∧
    workers s1 !! k = Some (WBusy id (POpen p)) ∧ content (published s1) p = Ok ps.

Lemma sync_run_snoc ls l s s' : sync_run content err_text (ls ++ [l]) s = Some s' →
  ∃ s1, sync_run content err_text ls s = Some s1 ∧ sync_step content err_text l s1 = Some s'.
Proof.
  revert s. induction ls as [|l' ls IH]; intros s Hr; simpl in Hr.
  - destruct (sync_step content err_text l s) as [s1|] eqn:Hs; [|done]. exists s. split; [done|]. by rewrite Hs.
  - destruct (sync_step content err_text l' s) as [s1|] eqn:Hs; simpl in Hr; [|done].
    destruct (IH s1 Hr) as (s2 & H1 & H2). exists s2. split; [|done]. simpl. by rewrite Hs.
Qed.

Lemma opened_more s0 ls l id p ps : opened s0 ls id p ps → opened s0 (ls ++ [l]) id p ps.
Proof.
  intros (ls1 & k & ls2 & s1 & -> & ?). exists ls1, k, (ls2 ++ [l]), s1. by rewrite <-app_assoc.
Qed.

Lemma sync_live_mono entries requests (O O' : Z → string → list bytes → Prop) s :
  (∀ id p ps, O id p ps → O' id p ps) → sync_live entries requests O s → sync_live entries requests O' s.
Proof.
  intros HO [Hok Hex Hreq Hpl]. split; [by eapply sync_ok_mono|done|done|].
  intros id Ht. destruct (Hpl id Ht) as [?|[?|[?|(p & ps & ? & ? & ?)]]]; [by left|by right; left|by right; right; left|].
  right; right; right. exists p, ps. auto.
Qed.

Lemma sync_run_live entries requests ls s :
  (Z.of_nat (length entries) < 2^32)%Z → sync_run content err_text ls (new_sender entries requests) = Some s →
  sync_live entries requests (opened (new_sender entries requests) ls) s.
Proof.
  intros Hsmall. revert s. induction ls as [|l ls IH] using rev_ind; intros s Hr.
  { injection Hr as <-. apply sync_live_init. }
  apply sync_run_snoc in Hr as (s1 & Hr & Hs).
  eapply (sync_step_live entries requests Hsmall content err_text); [|done|].
  - eapply sync_live_mono; [|by apply IH]. intros. by apply opened_more.
  - intros k id p ps -> Hk Hc. by exists ls, k, [], s1.
Qed.

(** Where nothing can move: the walk is over, and every worker is waiting or gone. *)
Lemma rest_walk s : resting content err_text s → ∃ e, walk_at s = WDone e.
Proof.
  intros Hrest. pose proof (Hrest (SWalk None)) as H1. pose proof (Hrest (SAbort Canceled)) as H2.
  pose proof (Hrest SPublish) as H3. simpl in *. unfold step_walk, step_abort, step_publish in *.
  destruct (walk_at s) as [| | |e]; [|by discriminate H1|by discriminate H1|by exists e].
  destruct (pending s), (published s); (by discriminate H1) || (by discriminate H2).
Qed.

Lemma rest_worker s k w : resting content err_text s → workers s !! k = Some w →
  (w = WIdle ∧ sendpipeline s = [] ∧ ∀ e, loop_at s ≠ RStop e) ∨ ∃ e, w = WExit e.
Proof.
  intros Hrest Hk. pose proof (Hrest (SWorker k None)) as Hs. simpl in Hs. unfold step_worker in Hs. rewrite Hk in Hs. simpl in Hs.
  destruct w as [|id ph|e]; [left|exfalso|by right; eauto].
  - destruct (sendpipeline s) as [|[id p] q]; [|by discriminate Hs]. split_and!; try done. intros e E. rewrite E in Hs. by discriminate Hs.
  - destruct ph as [p|p|[|d rest]]; try (by discriminate Hs). by destruct (content (published s) p); discriminate Hs.
Qed.

Lemma rest_loop s : resting content err_text s →
  (loop_at s = RRecv ∧ incoming s = []) ∨ (∃ e, loop_at s = RStop e) ∨
  ∃ id p, loop_at s = RQueue id p ∧ pipe_cap ≤ length (sendpipeline s).
Proof.
  intros Hrest. pose proof (Hrest (SLoop None)) as H1. pose proof (Hrest SEnqueue) as H2. simpl in *. unfold step_loop, step_enqueue in *.
  destruct (loop_at s) as [| |id p| |e]; [by discriminate H1| | |by discriminate H1|by right; left; eauto].
  - left. split; [done|]. destruct (incoming s) as [|[[]|] ?]; [done|by discriminate H1..].
  - right; right. exists id, p. split; [done|]. case_bool_decide; [by discriminate H2|]. lia.
Qed.

Lemma rest_failures s e : resting content err_text s → e ∈ failures s → gerr s ≠ None.
Proof.
  intros Hrest He Hg. pose proof (Hrest (SFail e)) as Hs. simpl in Hs. unfold step_fail in Hs.
  rewrite bool_decide_true in Hs by done. by discriminate Hs.
Qed.

(** The group returns, or its loop waits for BuildKit, or it waits for a worker that is gone. *)
Lemma rest_cases s : exits_ok s → resting content err_text s →
  run_result s = Some (gerr s) ∨ (loop_at s = RRecv ∧ incoming s = []) ∨
  (∃ id p, loop_at s = RQueue id p ∧ pipe_cap ≤ length (sendpipeline s) ∧ Forall (λ w, ∃ e, w = WExit (Some e)) (workers s)).
Proof.
  intros Hex Hrest. destruct (rest_loop s Hrest) as [?|[[e El]|(id & p & El & Hfull)]]; [by right; left|left|right; right].
  - destruct (rest_walk s Hrest) as [ew Ew]. unfold run_result. rewrite Ew, El.
    assert (Hall : forallb exited (workers s) = true).
    { apply forallb_forall. intros w Hw. apply list_elem_of_In, list_elem_of_lookup in Hw as [k Hk].
      destruct (rest_worker s k w Hrest Hk) as [(_ & _ & Hn)|[x ->]]; [by destruct (Hn e)|done]. }
    rewrite Hall. simpl. destruct (failures s) as [|x l] eqn:Ef; [done|].
    rewrite (bool_decide_true (gerr s ≠ None)), orb_true_r; [done|]. apply (rest_failures s x Hrest). rewrite Ef. apply list_elem_of_here.
  - exists id, p. split_and!; try done. apply Forall_lookup. intros k w Hk.
    destruct (rest_worker s k w Hrest Hk) as [(_ & E & _)|[[x|] ->]]; [|by eauto|].
    + rewrite E in Hfull. unfold pipe_cap in Hfull. simpl in Hfull. lia.
    + destruct (ex_worker s Hex k Hk) as [E _]. rewrite E in Hfull. unfold pipe_cap in Hfull. simpl in Hfull. lia.
Qed.

(** Where no goroutine has failed, nothing is left over. *)
Lemma rest_clean s : exits_ok s → resting content err_text s → gerr s = None →
  ¬ hurt s ∧ walk_at s = WDone None ∧ (loop_at s = RRecv ∨ loop_at s = RStop None) ∧ handles s = [] ∧ (∀ id, ¬ busy id s).
Proof.
  intros Hex Hrest Hg. assert (Hnh : ¬ hurt s) by (intros [e He]; by apply (rest_failures s e Hrest He)).
  assert (Hf : ∀ e, e ∉ failures s) by (intros e He; apply Hnh; by exists e). setoid_rewrite elem_failures in Hf.
  assert (Hpipe : sendpipeline s = []).
  { destruct (lookup_lt_is_Some_2 (workers s) 0) as [w Hw]; [rewrite (ex_count s Hex); lia|].
    destruct (rest_worker s 0 w Hrest Hw) as [(_ & ? & _)|[[x|] ->]]; [done|destruct (Hf x); eauto|by apply (ex_worker s Hex) in Hw as [? _]]. }
  assert (Hl : loop_at s = RRecv ∨ loop_at s = RStop None).
  { destruct (rest_loop s Hrest) as [[? _]|[[[e|] ?]|(id & p & _ & Hfull)]]; [by left|destruct (Hf e); by auto|by right|].
    rewrite Hpipe in Hfull. unfold pipe_cap in Hfull. simpl in Hfull. lia. }
  split_and!; [done| |done| |].
  - destruct (rest_walk s Hrest) as [[e|] Ew]; [destruct (Hf e); by left|done].
  - unfold handles. rewrite Hpipe. by destruct Hl as [-> | ->].
  - intros id (k & ph & Hk). by destruct (rest_worker s k _ Hrest Hk) as [[? _]|[? ?]].
Qed.
End runs.

(** C4. Under every interleaving of the walk, the receive loop and the 64 workers, with every send,
    read and receive failing or not, whenever the context ends, and however far the run has
    come: the stats sent are a prefix of the walk's entries in order, closed by the empty
    stat, and what was sent as data under an id is a prefix of one transfer (the content in
    order, then one empty packet) of the regular file that was announced under that id, with
    the content that a worker found when it opened the file: the cache's if the walk had
    published its checksum at that moment, the host's otherwise.  So a file is never sent
    twice, never under another id and never mixed with another. *)
Theorem DiffCopy_sound entries requests content err_text ls s :
  (Z.of_nat (length entries) < 2^32)%Z →
  sync_run content err_text ls (new_sender entries requests) = Some s →
  omap stat_of (log s) `prefix_of` (Some <$> entries) ++ [None] ∧
  ∀ id, sent_data id (log s) = [] ∨
    ∃ p ps, entry_at entries id p ∧ opened content err_text (new_sender entries requests) ls id p ps ∧
      sent_data id (log s) `prefix_of` ps ++ [[]].
Proof.
  intros Hsmall Hr. destruct (sync_run_live content err_text entries requests ls s Hsmall Hr) as [Hok _ _ _].
  split; [|intros id; by apply (sent_settled entries _ s)].
  destruct (so_walk _ _ _ Hok) as (ann & -> & _ & Hl & Hp). rewrite fmap_app, <-app_assoc.
  destruct (walk_at s) as [|st|e|[e|]]; simpl in Hl.
  - rewrite Hl. by apply prefix_app_r.
  - rewrite <-Hl, <-app_assoc. by apply prefix_app_r.
  - by apply prefix_app_r.
  - by apply prefix_app_r.
  - by rewrite Hl, (Hp eq_refl).
Qed.

(** C18. When no goroutine of the sender can move any more, its group has returned, or its receive
    loop waits for BuildKit to send something, or it waits for room in the queue although all
    64 workers have failed.  And unless the group recorded an error, the walk has announced
    every entry and the end, the loop waits for BuildKit or has answered [PACKET_FIN], and
    the file of every request that was read was sent completely, as it was opened. *)
Theorem DiffCopy_complete entries requests content err_text ls s :
  (Z.of_nat (length entries) < 2^32)%Z →
  sync_run content err_text ls (new_sender entries requests) = Some s →
  resting content err_text s →
  (run_result s = Some (gerr s) ∨ (loop_at s = RRecv ∧ incoming s = []) ∨
   (∃ id p, loop_at s = RQueue id p ∧ pipe_cap ≤ length (sendpipeline s) ∧ Forall (λ w, ∃ e, w = WExit (Some e)) (workers s))) ∧
  (gerr s = None →
   omap stat_of (log s) = (Some <$> entries) ++ [None] ∧
   (loop_at s = RRecv ∨ (loop_at s = RStop None ∧ PACKET_FIN ∈ log s)) ∧
   ∃ consumed, requests = consumed ++ incoming s ∧
     ∀ id, Ok (PACKET_REQ id) ∈ consumed → delivered entries (opened content err_text (new_sender entries requests) ls) id s).
Proof.
  intros Hsmall Hr Hrest. destruct (sync_run_live content err_text entries requests ls s Hsmall Hr) as [Hok Hex (cs & Hcs & Hreq) Hpl].
  split; [by apply (rest_cases content err_text)|]. intros Hg.
  destruct (rest_clean content err_text s Hex Hrest Hg) as (Hnh & Ew & El & Hh & Hb). split_and!.
  - destruct (so_walk _ _ _ Hok) as (ann & -> & _ & Hl & Hp). rewrite Ew in Hl. by rewrite Hl, (Hp Ew), app_nil_r.
  - destruct El as [?|El]; [by left|right]. split; [done|by apply (ex_fin s Hex)].
  - exists cs. split; [done|]. intros id Hin. destruct (Hreq id Hin) as [?|Ht]; [done|].
    destruct (Hpl id Ht) as [?|[Hx|[Hx|?]]]; [done| |by apply Hb in Hx|done]. rewrite Hh in Hx. by apply elem_of_nil in Hx.
Qed.

(** ** Pieces *)

Lemma pieces_spec n d fuel : n ≠ 0 → length d ≤ fuel →
  concat (pieces fuel n d) = d ∧ Forall (λ x, x ≠ [] ∧ length x ≤ n) (pieces fuel n d).
Proof.
  intros Hn. revert d. induction fuel as [|fuel IH]; intros d Hd.
  { destruct d; [|simpl in Hd; lia]. by split. }
  destruct d as [|b d]; [by split|]. cbn [pieces].
  destruct (IH (drop n (b :: d))) as [IH1 IH2]; [rewrite length_drop; simpl in *; lia|].
  split; [simpl; rewrite IH1; apply take_drop|]. constructor; [|done].
  split; [by destruct n|]. rewrite length_take. lia.
Qed.

(** C31. What [sendFile] writes for a path is, in order and in nonempty pieces, exactly the bytes
    of the file: the synthetic Dockerfile or ignore file of the request when the path names
    one, and otherwise the file of the cached tree, in pieces of at most a mebibyte. *)
Theorem sendFile_content proxy open path ps : sendFile proxy open path = Ok ps →
  Forall (λ d, d ≠ []) ps ∧
  match proxy with
  | Some px => if bool_decide (path = DockerfilePath) then concat ps = dockerfile px
               else if bool_decide (path = DockerignorePath) then concat ps = dockerignore px
               else open path = Ok (concat ps) ∧ Forall (λ d, length d ≤ buf_size) ps
  | None => open path = Ok (concat ps) ∧ Forall (λ d, length d ≤ buf_size) ps
  end.
Proof.
  assert (Hb : buf_size ≠ 0) by (unfold buf_size; rewrite Z.shiftl_1_l; lia).
  assert (Hcopy : copy_pieces <$> open path = Ok ps → Forall (λ d, d ≠ []) ps ∧ open path = Ok (concat ps) ∧ Forall (λ d, length d ≤ buf_size) ps).
  { destruct (open path) as [d|e]; [|done]. intros [= <-].
    destruct (pieces_spec buf_size d (length d) Hb) as [E Hall]; [done|]. unfold copy_pieces. rewrite E.
    split_and!; [|done|]; (eapply Forall_impl; [exact Hall|]; naive_solver). }
  assert (Hone : ∀ d, (Ok (write_to d) : res (list bytes)) = Ok ps → Forall (λ d, d ≠ []) ps ∧ concat ps = d).
  { intros d [= <-]. destruct d; simpl; [done|]. rewrite app_nil_r. split; [by repeat constructor|done]. }
  unfold sendFile. destruct proxy as [px|]; [|exact Hcopy].
  case_bool_decide; [apply Hone|]. case_bool_decide; [apply Hone|exact Hcopy].
Qed.

(** ** Runs *)

Definition ex_stat (path : string) (mode : Z) : Stat :=
  {| st_Path := path; st_Mode := mode; st_Uid := 0; st_Gid := 0; st_ModTime := 0; st_Linkname := "" |}.
Definition ex_entries : list Stat :=
  [ex_stat ".com.apple.container" (Z.lor 2147483648 493); ex_stat DockerfilePath 420; ex_stat "b" 420].
Definition ex_open (path : string) : res bytes :=
  if bool_decide (path = "b") then Ok (bytes_of "AB") else Err (Errorf "open %s" [path]).
Definition ex_content (cached : bool) : string → res (list bytes) :=
  sendFile (Some ex_proxy) (if cached then ex_open else λ _, Ok (bytes_of "AB")).
Definition ex_requests : list (res packet) := [Ok (PACKET_REQ 2); Ok (PACKET_REQ 1); Ok PACKET_FIN].
Definition ex_text (e : error) : string := match e with Errorf f _ | Wrapf f _ _ => f | _ => "error" end.

Definition go (l : option error → sync_label) : sync_label := l None.
Definition w3 : sync_label := SWorker 3 None.
Definition w0 : sync_label := SWorker 0 None.
(** Two workers interleave their packets, the walk ends after them, and all goroutines return. *)
Definition ex_schedule : list sync_label :=
  [go SWalk; go SWalk; go SWalk; go SWalk; go SWalk; go SLoop; go SLoop; SEnqueue; go SLoop; go SLoop; w3; w3; SEnqueue; w3; w0; w0; w3; w0; w0;
   go SWalk; w0; SPublish; w3; go SLoop; go SLoop; go SLoop; go SWalk] ++ ((λ k, SWorker k None) <$> seq 0 64).

(** Nothing can move. *)
Definition quiet (s : sender) : bool :=
  (if walk_at s is WDone _ then true else false) &&
  match loop_at s with
  | RRecv => if incoming s is [] then true else false
  | RQueue _ _ => bool_decide (pipe_cap ≤ length (sendpipeline s))
  | RStop _ => true
  | _ => false
  end &&
  forallb (λ w, match w with
    | WIdle => (if sendpipeline s is [] then true else false) && (if loop_at s is RStop _ then false else true)
    | WExit _ => true
    | _ => false
    end) (workers s) && (bool_decide (gerr s ≠ None) || bool_decide (failures s = [])).

Lemma quiet_rest content err_text s : quiet s = true → resting content err_text s.
Proof.
  intros Hq l Hl. unfold quiet in Hq. rewrite !andb_true_iff, orb_true_iff, !bool_decide_eq_true in Hq.
  destruct Hq as [[[Hw Hlp] Hwk] Hg]. destruct l as [e|e| |e| |k e|e|e]; simpl.
  - unfold step_walk. by destruct (walk_at s).
  - unfold step_abort. by destruct (walk_at s).
  - unfold step_publish. by destruct (walk_at s).
  - unfold step_loop. destruct (loop_at s); try done; by destruct (incoming s).
  - unfold step_enqueue. destruct (loop_at s); try done. rewrite bool_decide_eq_true in Hlp. rewrite bool_decide_false by lia. done.
  - unfold step_worker. destruct (workers s !! k) as [w|] eqn:Hk; [|done]. simpl. rewrite forallb_forall in Hwk.
    specialize (Hwk w). rewrite <-list_elem_of_In in Hwk. specialize (Hwk (list_elem_of_lookup_2 _ _ _ Hk)).
    destruct w as [|id ph|]; [|done|by destruct e]. destruct e; [done|]. destruct (sendpipeline s); [|done]. by destruct (loop_at s).
  - unfold step_fail. rewrite bool_decide_false; [done|]. intros [E He]. destruct Hg as [Hg|Hg]; [done|]. rewrite Hg in He. by apply elem_of_nil in He.
  - by destruct (Hl e).
Qed.

Definition ex_final : sender :=
  default (new_sender [] []) (sync_run ex_content ex_text ex_schedule (new_sender ex_entries ex_requests)).
Definition came_to_rest (o : option sender) : bool :=
  match o with
  | Some s => quiet s && bool_decide (gerr s = None) && bool_decide (run_result s = Some None)
  | None => false
  end.

Lemma came_to_rest_spec o d : came_to_rest o = true →
  o = Some (default d o) ∧ quiet (default d o) = true ∧ gerr (default d o) = None ∧ run_result (default d o) = Some None.
Proof. destruct o as [s|]; [|done]. simpl. rewrite !andb_true_iff, !bool_decide_eq_true. naive_solver. Qed.

Lemma ex_final_run : sync_run ex_content ex_text ex_schedule (new_sender ex_entries ex_requests) = Some ex_final ∧
  quiet ex_final = true ∧ gerr ex_final = None ∧ run_result ex_final = Some None.
Proof. unfold ex_final. apply came_to_rest_spec. vm_compute. reflexivity. Qed.

Lemma DiffCopy_sound_witness :
  omap stat_of (log ex_final) `prefix_of` (Some <$> ex_entries) ++ [None] ∧
  ∀ id, sent_data id (log ex_final) = [] ∨
    ∃ p ps, entry_at ex_entries id p ∧ opened ex_content ex_text (new_sender ex_entries ex_requests) ex_schedule id p ps ∧
      sent_data id (log ex_final) `prefix_of` ps ++ [[]].
Proof. apply DiffCopy_sound; [vm_compute; reflexivity|apply ex_final_run]. Defined.

Lemma DiffCopy_complete_witness :
  omap stat_of (log ex_final) = (Some <$> ex_entries) ++ [None] ∧
  ∃ consumed, ex_requests = consumed ++ incoming ex_final ∧
    ∀ id, Ok (PACKET_REQ id) ∈ consumed →
      delivered ex_entries (opened ex_content ex_text (new_sender ex_entries ex_requests) ex_schedule) id ex_final.
Proof.
  destruct ex_final_run as (Hr & Hq & Hg & _).
  destruct (DiffCopy_complete ex_entries ex_requests ex_content ex_text ex_schedule ex_final) as [_ H];
    [vm_compute; reflexivity|exact Hr|by apply quiet_rest|]. destruct (H Hg) as (? & _ & ?). by split.
Defined.

(** The third resting state is reached: 64 workers take a file, the queue behind them is full and
    the loop waits for room, then every worker fails to send and the group never returns. *)
Definition many : nat := 64 + pipe_cap + 1.
Definition hang_entries : list Stat := replicate many (ex_stat "b" 420).
Definition hang_requests : list (res packet) := (λ k, Ok (PACKET_REQ (Z.of_nat k))) <$> seq 0 many.
Definition hang_worker (k : nat) : list sync_label := [go SLoop; go SLoop; SEnqueue; SWorker k None; SWorker k None; SWorker k None].
Definition hang_schedule : list sync_label :=
  concat (replicate many [go SWalk; go SWalk]) ++ [SPublish; go SWalk] ++ concat (hang_worker <$> seq 0 64) ++
  concat (replicate pipe_cap [go SLoop; go SLoop; SEnqueue]) ++ [go SLoop; go SLoop] ++
  ((λ k, SWorker k (Some EOF)) <$> seq 0 64) ++ [SFail EOF].

Definition hung (o : option sender) : bool :=
  match o with
  | Some s => quiet s && bool_decide (run_result s = None) && bool_decide (gerr s = Some EOF) && bool_decide (done s = Some Canceled)
  | None => false
  end.

Lemma hung_rest o : hung o = true → ∃ s, o = Some s ∧
  resting ex_content ex_text s ∧ run_result s = None ∧ gerr s = Some EOF ∧ done s = Some Canceled.
Proof.
  destruct o as [s|]; [|done]. simpl. rewrite !andb_true_iff, !bool_decide_eq_true.
  intros [[[Hq ?] ?] ?]. exists s. split_and!; try done. by apply quiet_rest.
Qed.

Lemma DiffCopy_hangs : ∃ s, sync_run ex_content ex_text hang_schedule (new_sender hang_entries hang_requests) = Some s ∧
  resting ex_content ex_text s ∧ run_result s = None ∧ gerr s = Some EOF ∧ done s = Some Canceled.
Proof. apply hung_rest. vm_compute. reflexivity. Qed.

Lemma sendFile_content_witness :
  Forall (λ d, d ≠ []) [bytes_of "AB"] ∧
  ex_open "b" = Ok (concat [bytes_of "AB"]) ∧ Forall (λ d, length d ≤ buf_size) [bytes_of "AB"].
Proof. apply (sendFile_content (Some ex_proxy) ex_open "b" [bytes_of "AB"]). vm_compute. reflexivity. Defined.
