(* ===== verification/SyncWalk.v ===== *)
(** * The context from the host to BuildKit ([pkg/fssync/walk.go], [FS.Walk])

    [FS.Walk] composes the transfer of the context ([TarReceive]) with the synthetic
    Dockerfile entries ([FsWalk]): the merge is the callback of the walk that [Receive] makes.
    What it announces and what [sendFile] reads afterwards ([DiffCopy]) fit together. *)

From Stdlib Require Import Ascii Sorting.Sorted.
From S2P Require Import Prelude GoStrings GoPath Api OsFs TarUnpack FileInfo TarCache DiskTree ContextWalk TarReceive FsWalk DiffCopy.

(** ** [FS] *)

Record FS := { fs_proxy : FSSyncProxy; fs_root : string; fs_fsPath : string; fs_checksum : string }.

Definition NewFS (proxy : FSSyncProxy) (root fsPath : string) : FS :=
  {| fs_proxy := proxy; fs_root := root; fs_fsPath := fsPath; fs_checksum := "" |}.

Definition set_checksum (c : string) (f : FS) : FS :=
  {| fs_proxy := fs_proxy f; fs_root := fs_root f; fs_fsPath := fs_fsPath f; fs_checksum := c |}.

Definition walk_followPaths (proxy : FSSyncProxy) (walkMeta : WalkMetadata) : string :=
  if bool_decide (FollowPaths walkMeta = "") then Join "," (addedGlobs proxy) else FollowPaths walkMeta.

(** [FS.Walk] up to [Receive]: the request it sends and the entries of its walker; [send] is
    the error of sending the request. *)
Definition FS_Walk_begin (f : FS) (md : option (gmap string (list string))) (id : string) (send : option error) :
    res (BuildTransfer * list syntheticDockerfileEntry) :=
  walkMeta ← unmarshalWalkMetadata md;
  match send with
  | Some e => Err (Wrapf "failed sending walk request: %w" [] e)
  | None =>
      match Mode walkMeta with
      | ModeTAR =>
          Ok (walk_request (fs_proxy f) walkMeta (fs_root f) id,
              newSyntheticDockerfileWalker (Some (fs_proxy f))
                (requestedSyntheticDockerfilePaths (walk_followPaths (fs_proxy f) walkMeta)))
      | ModeJSON => Err (Errorf "unsupported walk mode: %q" ["json"])
      end
  end.

Section walk.
Context {S : Type} (fn : string → FileInfo → S → S * option error).

(** [FS.Walk] from the return of [Receive] on, with the state [Receive] leaves: [Finish] and
    the checksum. *)
Definition FS_Walk_end (f : FS) (s : TarReceive.state (S := list syntheticDockerfileEntry * S)) : option (FS * S * option error) :=
  match cons s with
  | CReturn (Err e) => Some (f, (cb s).2, Some e)
  | CReturn (Ok checksum) =>
      match synthetic_Finish fn (cb s).1 (cb s).2 with
      | (k, Some e) => Some (f, k, Some e)
      | (k, None) => Some (set_checksum checksum f, k, None)
      end
  | _ => None
  end.
End walk.

(** ** [DiffCopy] up to the sender *)

Definition ErrFailedProtocolNegotiation : error := Sentinel "failed to negotiate protocol".
Definition TarStream : option error := Some ErrFailedProtocolNegotiation.

Section diffcopy.
(** The filter of [fsutil], and the entries that the walk of a filtered [FS] calls back with. *)
Context {FilteredFS : Type} (NewFilterFS : FS → list string → res FilteredFS) (walk_entries : FilteredFS → list Stat).

Definition filteredFS (md : option (gmap string (list string))) (proxy : FSSyncProxy) (inner : FS) : res FilteredFS :=
  walkMeta ← unmarshalWalkMetadata md;
  NewFilterFS inner (excludePatternsForWalk walkMeta (Some proxy)).

Definition FSSync_DiffCopy (md : option (gmap string (list string))) (f : FSSyncProxy) (requests : list (res packet)) : res sender :=
  fs ← filteredFS md f (NewFS f (contextDir f) (basePath f));
  Ok (new_sender (walk_entries fs) requests).
End diffcopy.

(** ** The listing on a disk with the same entry *)

Lemma visit_all_fmap {A B S} (g : A → B) (f : B → S → S * option error) l s :
  visit_all f (g <$> l) s = visit_all (λ x, f (g x)) l s.
Proof. revert s. induction l as [|x l IH]; intros s; [done|]. cbn. destruct (f (g x) s) as [s1 [e|]]; [done|apply IH]. Qed.

Lemma entry_info_same mtime dir_size fs fs' cd x :
  inodes fs' = inodes fs → entry_info mtime dir_size fs' cd x = entry_info mtime dir_size fs cd x.
Proof. intros E. unfold entry_info, info_size, info_mode. by rewrite E. Qed.

Lemma synthetic_no_skip {S} (fn : string → FileInfo → S → S * option error) :
  (∀ p i s, (fn p i s).2 ≠ Some SkipDir ∧ (fn p i s).2 ≠ Some SkipAll) →
  ∀ p i s, (synthetic_Walk fn p i s).2 ≠ Some SkipDir ∧ (synthetic_Walk fn p i s).2 ≠ Some SkipAll.
Proof.
  intros Hfn p i [es k]. unfold synthetic_Walk. simpl.
  assert (Hb : (emit_before fn p es k).2 ≠ Some SkipDir ∧ (emit_before fn p es k).2 ≠ Some SkipAll).
  { revert k. induction es as [|e es IH]; intros k; simpl; [done|]. destruct (string_lt _ _); [|done].
    pose proof (Hfn (emit e).1 (emit e).2 k) as He. destruct (fn _ _ k) as [k1 [x|]]; [done|apply IH]. }
  destruct (emit_before fn p es k) as [[rest k1] [e|]]; [done|].
  pose proof (Hfn p i k1) as He. by destruct (fn p i k1).
Qed.

(** What BuildKit may ask for is a regular file. *)
Lemma mode_bit_no_data m n : Z.testbit m n = true → Z.testbit ModeType n = true → (n < 32)%Z → fileCanRequestData (u32 m) = false.
Proof.
  intros Hm Ht Hn. apply bool_decide_eq_false. intros E. apply (f_equal (λ z, Z.testbit z n)) in E.
  rewrite Z.land_spec, Ht, Z.bits_0, andb_true_r in E. unfold u32 in E. rewrite Z.mod_pow2_bits_low in E by done. congruence.
Qed.

Lemma requestable_regular mtime dir_size fs cd r d :
  d ≠ DOther → fileCanRequestData (st_Mode (Sys (entry_info mtime dir_size fs cd (r, d)))) = true → ∃ ino, d = DFile ino.
Proof.
  intros Hd. unfold Sys, entry_info. simpl. destruct d as [m|ino|t|]; [|by eexists| |done]; simpl.
  - rewrite (mode_bit_no_data _ 31); [done| |done|done]. rewrite Z.lor_spec. done.
  - rewrite (mode_bit_no_data _ 27); [done| |done|done]. rewrite Z.lor_spec. done.
Qed.

(** ** Reading back *)

Lemma open_cached_file fs bs sum r ino :
  wf_disk fs → bs ≠ [] → r ≠ [] → names fs !! ((bs ++ [sum]) ++ r) = Some (DFile ino) →
  ∃ m data, inodes fs !! ino = Some (m, data) ∧ open_cached fs (abs_path bs) sum (rel_path r) = Ok data.
Proof.
  intros Hwf Hne Hr Hn. destruct (wf_good _ Hwf _ _ Hn) as [_ Hg]. destruct (wf_ino _ Hwf _ _ Hn) as [[[m data] Hi] _].
  exists m, data. split; [done|]. apply Forall_app in Hg as [[Hbs [Hs _]%Forall_cons]%Forall_app Hg].
  unfold open_cached. rewrite path_Join_cached by done.
  destruct r as [|c r _] using rev_ind; [done|]. rewrite app_assoc in *. apply Forall_app in Hg as [Hg [Hc _]%Forall_cons].
  eapply ReadFile_in_real; [|done| |done|done].
  - rewrite !Forall_app. auto.
  - destruct (wf_parent _ Hwf _ _ _ Hn) as [m' Hm']. by eapply wf_real_dir.
Qed.

(** ** Properties *)

Section composed.
Context {FL : FileLock} (error_text : error → string) (unicode_lower : string → string) (sha256 : bytes → bytes).
Context (tar_read : bytes → archive) (mtime dir_size : string → Z) (tar_rnds dir_rnds : list string).
Context (order1 order2 : list path) (polls : nat → option error).
Context {S : Type} (fn : string → FileInfo → S → S * option error).

Definition context_entry (fs : fsys) (cd : path) (x : path * dentry) : string * FileInfo :=
  (rel_path x.1, entry_info mtime dir_size fs cd x).

(** The entry of the context at [cd], as a listing in path order. *)
Definition lists (fs : fsys) (cd : path) (l : list (path * dentry)) : Prop :=
  StronglySorted path_lt l.*1 ∧
  ∀ r d, (r, d) ∈ l ↔ r ≠ [] ∧ names fs !! (cd ++ r) = Some d ∧ d ≠ DOther ∧ r ≠ [cacheCompletionMarker].

(** No name at the top of the context starts like the staging directory. *)
Definition plain_top (l : list (path * dentry)) : Prop :=
  Forall (λ x, ∃ h t, x.1 = h :: t ∧ HasPrefix h ".com" = false) l.

(** The walk of the cached context with the merge as its callback, then [Finish]. *)
Definition walk_and_finish (entries : list syntheticDockerfileEntry) (fs : fsys) (cd : path) (l : list (path * dentry)) (k0 : S) : S * option error :=
  match visit_skip (λ x, synthetic_Walk fn (rel_path x.1) (entry_info mtime dir_size fs cd x)) l (entries, k0) with
  | ((rest, k), None) => synthetic_Finish fn rest k
  | ((_, k), Some e) => (k, Some e)
  end.

Lemma visit_from_ext {T} (f g : path * dentry → T → T * option error) l sk s :
  (∀ x s, f x s = g x s) → visit_from f l sk s = visit_from g l sk s.
Proof.
  intros E. revert sk s. induction l as [|x l IH]; intros sk s; [done|]. cbn [visit_from]. rewrite E.
  destruct (pruned sk x.1); [apply IH|]. destruct (g x s) as [s1 [e|]]; [|apply IH]. case_bool_decide; [apply IH|done].
Qed.

Lemma walked_merge entries k0 k rest fs bs sum :
  bs ≠ [] → wf_disk fs → complete (bs ++ [sum]) fs →
  walked mtime dir_size (synthetic_Walk fn) bs (entries, k0) sum fs (rest, k) →
  ∃ l, lists fs (bs ++ [sum]) l ∧ synthetic_Finish fn rest k = walk_and_finish entries fs (bs ++ [sum]) l k0.
Proof.
  intros Hne Hwf (m & _ & _ & Hcd & _) (fsw & Hw & Hwfw & Hi & Hn). set (cd := bs ++ [sum]) in *.
  assert (Hcdw : names fsw !! cd = Some (DDir m)) by (rewrite <-Hcd, <-(app_nil_r cd); apply Hn).
  rewrite (walkCachedContext_skips mtime dir_size _ fsw cd m) in Hw; [|done|subst cd; by destruct bs|done].
  exists (listing fsw cd). split; [split; [apply listing_sorted|]|].
  - intros r d. rewrite elem_of_listing by done. by rewrite Hn.
  - unfold walk_and_finish. replace (visit_skip _ (listing fsw cd) (entries, k0)) with (((rest, k), None) : (list syntheticDockerfileEntry * S) * option error); [done|].
    rewrite <-Hw. unfold visit_skip. rewrite (visit_from_ext (λ x, synthetic_Walk fn (rel_path x.1) (entry_info mtime dir_size fs cd x))
      (λ x, synthetic_Walk fn (rel_path x.1) (entry_info mtime dir_size fsw cd x))); [done|].
    intros x s. by rewrite (entry_info_same mtime dir_size fs fsw).
Qed.

(** With a callback that skips nothing, it is called with the merged sequence. *)
Lemma walk_and_finish_merge entries fs cd l k0 :
  (∀ p i s, (fn p i s).2 ≠ Some SkipDir ∧ (fn p i s).2 ≠ Some SkipAll) →
  walk_and_finish entries fs cd l k0 = visit_all (λ x, fn x.1 x.2) (merge entries (context_entry fs cd <$> l)) k0.
Proof.
  intros Hfn. rewrite <-merged_walk_visits. unfold merged_walk, walk_and_finish.
  rewrite visit_skip_all by (intros; by apply synthetic_no_skip). rewrite visit_all_fmap. unfold context_entry. cbn [fst snd].
  by destruct (visit_all _ l (entries, k0)) as [[rest k] [e|]].
Qed.

(** The merged walk of a plain context is in order. *)
Lemma merge_plain fs cd proxy requested l :
  wf_disk fs → lists fs cd l → plain_top l →
  in_order (merge (newSyntheticDockerfileWalker proxy requested) (context_entry fs cd <$> l)).
Proof.
  intros Hwf [Hs Hl] Hp. destruct (synthetic_shape proxy requested) as [Hsh Hso].
  assert (Hg : ∀ r d, (r, d) ∈ l → r ≠ [] ∧ Forall good r).
  { intros r d (Hr & Hn & _)%Hl. split; [done|]. destruct (wf_good _ Hwf _ _ Hn) as [_ H]. by apply Forall_app in H as [_ ?]. }
  apply merge_in_order; [done| |].
  - unfold in_order. rewrite <-list_fmap_compose. rewrite (list_fmap_ext _ fst); [exact Hs|]. intros i [r d] Hx. simpl.
    apply list_elem_of_lookup_2 in Hx. destruct (Hg _ _ Hx) as [Hr Hgr]. by apply (Split_ups 0).
  - apply Forall_fmap, Forall_forall. intros [r d] Hx. destruct (Hg _ _ Hx) as [_ Hgr]. unfold plain_top in Hp; rewrite Forall_forall in Hp.
    destruct (Hp _ Hx) as (h & t & E & Hh). simpl in *. subst r. by apply agrees_plain.
Qed.

(** A name at the top that does not start with [".com"] is none of the synthetic ones. *)
Lemma plain_not_synthetic h t : good h → HasPrefix h ".com" = false →
  rel_path (h :: t) ≠ DockerfilePath ∧ rel_path (h :: t) ≠ DockerignorePath.
Proof.
  intros Hg Hh. destruct (rel_path_head h t) as (y & -> & Hy).
  assert (Hx : ∀ u, h +:+ y ≠ dot_com u).
  { intros u E. destruct (compare_dot_com h y u u Hg Hh Hy) as [Ec Hne]. rewrite E in Ec. rewrite <-Ec in Hne.
    pose proof (String.compare_antisym (dot_com u) (dot_com u)) as Ha. by destruct (String.compare (dot_com u) (dot_com u)). }
  split; [exact (Hx ".apple.container/Dockerfile")|exact (Hx ".apple.container/Dockerfile.dockerignore")].
Qed.

Lemma write_to_concat d : concat (write_to d) = d.
Proof. destruct d; [done|]. simpl. by rewrite app_nil_r. Qed.

Lemma copy_pieces_concat d : concat (copy_pieces d) = d.
Proof. apply pieces_spec; [|done]. unfold buf_size. rewrite Z.shiftl_1_l. lia. Qed.

(** Everything that is announced as a regular file can be sent, in its announced size. *)
Lemma announced_served fs bs sum proxy requested l x :
  bs ≠ [] → wf_disk fs → lists fs (bs ++ [sum]) l → plain_top l →
  x ∈ merge (newSyntheticDockerfileWalker (Some proxy) requested) (context_entry fs (bs ++ [sum]) <$> l) →
  fileCanRequestData (st_Mode (Sys x.2)) = true →
  ∃ ps, sendFile (Some proxy) (open_cached fs (abs_path bs) sum) x.1 = Ok ps ∧ Z.of_nat (length (concat ps)) = SizeVal x.2.
Proof.
  intros Hne Hwf [_ Hl] Hp Hx Hreq. rewrite merge_perm in Hx. apply elem_of_app in Hx as [Hx|Hx].
  - apply list_elem_of_fmap in Hx as (e & -> & He). rewrite emit_path. unfold emit in *.
    destruct (bool_decide (se_path e = DockerfileStaging)) eqn:Ed; [done|]. apply bool_decide_eq_false in Ed. simpl.
    assert (e ∈ synthetic_files proxy) as Hin.
    { unfold newSyntheticDockerfileWalker in He. case_bool_decide; [by apply elem_of_nil in He|].
      case_bool_decide; [by apply elem_of_nil in He|]. apply elem_of_cons in He as [->|He]; [done|].
      by apply list_elem_of_filter in He as [_ ?]. }
    unfold sendFile, synthetic_files in *. apply elem_of_cons in Hin as [->|Hin]; simpl.
    + exists (write_to (dockerfile proxy)). by rewrite write_to_concat.
    + apply list_elem_of_singleton in Hin as ->. simpl. exists (write_to (dockerignore proxy)). by rewrite write_to_concat.
  - apply list_elem_of_fmap in Hx as ([r d] & -> & Hx). pose proof Hx as (Hr & Hn & Hd & _)%Hl. simpl in *.
    destruct (requestable_regular mtime dir_size fs (bs ++ [sum]) r d Hd Hreq) as [ino ->].
    destruct (open_cached_file fs bs sum r ino Hwf Hne Hr Hn) as (m & data & Hi & Ho).
    unfold plain_top in Hp; rewrite Forall_forall in Hp. destruct (Hp _ Hx) as (h & t & E & Hh). simpl in E. subst r.
    destruct (wf_good _ Hwf _ _ Hn) as [_ [_ [Hgh _]%Forall_cons]%Forall_app].
    destruct (plain_not_synthetic h t Hgh Hh) as [H1 H2]. unfold sendFile. rewrite !bool_decide_false by done. rewrite Ho.
    eexists. split; [done|]. rewrite copy_pieces_concat. unfold info_size. by rewrite Hi.
Qed.

(** C3. [FS.Walk] as a whole.  When it returns without an error, whatever the interleaving of the
    transfer: the checksum it leaves in [FS] is a valid digest whose cache entry is complete,
    and was so before or is the unpacked archive of that digest the host sent; the callback was
    called by the walk of exactly the entries of that cached context with the requested
    Dockerfile entries merged in and finished, leaving out only what the callback skipped; a
    callback that skips nothing (no directory is pruned by the exclude patterns) accepted
    exactly the merged sequence; and if no name at the top of the context starts with [".com"],
    that sequence is in path order and everything in it that is announced as a regular file can
    be sent to BuildKit from the cache or the request, in exactly the announced size. *)
Theorem FS_Walk_sound f md id request entries bs pkts w0 k0 s f' k :
  bs ≠ [] → Forall good bs → fs_fsPath f = abs_path bs →
  Forall (λ r, contains_byte slash r = false) tar_rnds → Forall (λ r, contains_byte slash r = false) dir_rnds →
  wf_disk (disk w0) → real_dir (disk w0) bs →
  FS_Walk_begin f md id None = Ok (request, entries) →
  reaches error_text unicode_lower sha256 tar_read mtime dir_size (synthetic_Walk fn) tar_rnds dir_rnds order1 order2 polls
    (fs_fsPath f) (init pkts w0 (entries, k0)) s →
  FS_Walk_end fn f s = Some (f', k, None) →
  let fs := disk (wd s) in
  ∃ sum l, f' = set_checksum sum f ∧ validateContextDigest unicode_lower sum = Ok tt ∧ complete (bs ++ [sum]) fs ∧
    (complete (bs ++ [sum]) (disk w0) ∨ transferred error_text sha256 tar_read bs pkts sum fs) ∧
    lists fs (bs ++ [sum]) l ∧
    walk_and_finish entries fs (bs ++ [sum]) l k0 = (k, None) ∧
    let m := merge entries (context_entry fs (bs ++ [sum]) <$> l) in
    ((∀ p i s, (fn p i s).2 ≠ Some SkipDir ∧ (fn p i s).2 ≠ Some SkipAll) → visit_all (λ x, fn x.1 x.2) m k0 = (k, None)) ∧
    (plain_top l → in_order m ∧
       ∀ x, x ∈ m → fileCanRequestData (st_Mode (Sys x.2)) = true →
         ∃ ps, sendFile (Some (fs_proxy f)) (open_cached fs (abs_path bs) sum) x.1 = Ok ps ∧
               Z.of_nat (length (concat ps)) = SizeVal x.2).
Proof.
  intros Hne Hbs Hp Ht Hd Hwf Hr Hb Hs He fs. unfold FS_Walk_end in He.
  assert (∃ requested, entries = newSyntheticDockerfileWalker (Some (fs_proxy f)) requested) as [requested ->].
  { unfold FS_Walk_begin in Hb. apply result_bind_ok in Hb as (wm & _ & Hb). destruct (Mode wm); [done|].
    injection Hb as _ <-. by eexists. }
  pose proof (disk_reaches error_text unicode_lower sha256 tar_read mtime dir_size (synthetic_Walk fn) tar_rnds dir_rnds order1 order2
    polls (fs_fsPath f) bs Hne Hbs Hp Ht Hd pkts w0 _ Hwf Hr s Hs) as Hok. unfold disk_ok in Hok.
  destruct (cons s) as [| | | | |[sum|e]]; try done.
  destruct Hok as (Hv & Hwfs & Hc & Hwalk & Hor). destruct (cb s) as [rest k1] eqn:Ecb. cbn [fst snd] in He.
  destruct (walked_merge _ _ _ _ _ _ _ Hne Hwfs Hc Hwalk) as (l & Hl & Hm).
  destruct (synthetic_Finish fn rest k1) as [k2 [e|]] eqn:Ef; [done|]. injection He as <- <-.
  exists sum, l. split_and!; try done. cbv zeta.
  split; [intros Hfn; rewrite <-walk_and_finish_merge by done; symmetry; exact Hm|]. intros Hplain. split; [by apply merge_plain|].
  intros x Hx Hreq. by eapply announced_served.
Qed.
End composed.

(** *** A walk with a Dockerfile that is not in the context *)

Definition ex_fs : FS := NewFS ex_proxy "/src" "/c".
Definition ex_synthetic : list syntheticDockerfileEntry :=
  [{| se_path := DockerfileStaging; se_data := [] |}; {| se_path := DockerfilePath; se_data := bytes_of "FROM scratch" |}].

Definition ex_walk : option TarReceive.state :=
  run (FL := ex_lock) (λ _, "") (λ s, s) ex_sha ex_good (λ _, 0%Z) (λ _, 0%Z) (synthetic_Walk ex_collect) ["1"] ["7"] [] [] ex_ctx "/c"
    TarReceive.ex_schedule (init ex_packets ex_cache_world (ex_synthetic, [])).

Definition ex_callbacks : list (string * string) :=
  [(DockerfileStaging, ""); (DockerfilePath, ""); ("b.go", ""); ("l", "src"); ("src", ""); ("src/a.go", "")].

Lemma ex_walk_ends :
  ∃ s, ex_walk = Some s ∧ FS_Walk_end ex_collect ex_fs s = Some (set_checksum ex_digest ex_fs, ex_callbacks, None).
Proof.
  assert (H : (s ← ex_walk; FS_Walk_end ex_collect ex_fs s) = Some (set_checksum ex_digest ex_fs, ex_callbacks, None))
    by (vm_compute; reflexivity).
  apply bind_Some in H. exact H.
Qed.

Lemma FS_Walk_sound_witness :
  ∃ s l, ex_walk = Some s ∧ lists (disk (wd s)) ["c"; ex_digest] l ∧
    visit_all (λ x, ex_collect x.1 x.2)
      (merge ex_synthetic (context_entry (λ _, 0%Z) (λ _, 0%Z) (disk (wd s)) ["c"; ex_digest] <$> l)) [] = (ex_callbacks, None).
Proof.
  destruct ex_walk_ends as (s & Hs & He). exists s.
  assert (Hb : ∃ request, FS_Walk_begin ex_fs None "i" None = Ok (request, ex_synthetic)) by (eexists; vm_compute; reflexivity).
  destruct Hb as [request Hb].
  destruct (FS_Walk_sound (FL := ex_lock) (λ _, "") (λ s, s) ex_sha ex_good (λ _, 0%Z) (λ _, 0%Z) ["1"] ["7"] [] [] ex_ctx ex_collect
    ex_fs None "i" request ex_synthetic ["c"] ex_packets ex_cache_world [] s (set_checksum ex_digest ex_fs) ex_callbacks)
    as (sum & l & E & _ & _ & _ & Hl & _ & Hv & _).
  - done.
  - by repeat constructor; apply (bool_decide_unpack _).
  - done.
  - by repeat constructor.
  - by repeat constructor.
  - apply wf_check. vm_compute. reflexivity.
  - intros [|[|n]] Hn; [by eexists|by eexists|simpl in Hn; lia].
  - exact Hb.
  - eapply run_reaches; [apply reaches_refl|exact Hs].
  - exact He.
  - specialize (Hv ltac:(intros p i x; cbn [ex_collect snd]; split; discriminate)).
    apply (f_equal fs_checksum) in E. cbn [fs_checksum set_checksum] in E. cbn [app] in Hl, Hv. rewrite <-E in Hl, Hv.
    exists l. split; [exact Hs|]. split; [exact Hl|exact Hv].
Defined.
