(* ===== verification/FsFile.v ===== *)
(** * Files that are not cached ([pkg/fssync/file.go], [FS.Open] of [fs.go])

    Without a cached tree, [FS.Open] asks the host for the file information and returns a
    [File] whose reads are requests of a byte range each.  The host is a function from requests
    to replies, [None] standing for a reply of another packet type; [None] as a result is the
    nil dereference that follows. *)

From Stdlib Require Import Ascii.
From S2P Require Import Prelude GoStrings GoPath Api OsFs TarUnpack FileInfo FsWalk DiffCopy.

(** [io.ReadSeekCloser], of which [File.rs] is one; the code never sets that field. *)
Class ReadSeeker (R : Type) := {
  rs_Read : R → nat → R * (bytes * option error);
  rs_Seek : R → Z → R * res Z;   (* with [io.SeekCurrent] *)
}.

Section file.
Context {R : Type} `{ReadSeeker R}.
Context (host : BuildTransfer → res (option BuildTransfer)).

Record File := { f_id : string; info : FileInfo; index : Z; rs : option R; buf : option bytes }.

Definition set_index (f : File) (i : Z) : File :=
  {| f_id := f_id f; info := info f; index := i; rs := rs f; buf := buf f |}.
Definition set_rs (f : File) (r : R) : File :=
  {| f_id := f_id f; info := info f; index := index f; rs := Some r; buf := buf f |}.

Definition packetReadAt (f : File) (offset length : Z) : BuildTransfer :=
  {| bt_Id := f_id f; bt_Direction := OUTOF; bt_Source := Some (NameVal (info f)); bt_Destination := None;
     bt_Data := []; bt_Complete := false; bt_IsDirectory := false;
     bt_Metadata := {[ "os" := "linux"; "stage" := "fssync"; "method" := "Read";
                       "offset" := FormatInt offset; "length" := FormatInt length ]} |}.

(** [Close]; [rs_Close] is the result of closing the reader behind the file. *)
Definition File_Close (rs_Close : R → option error) (f : File) : option error :=
  match rs f with Some r => rs_Close r | None => None end.

(** [FSSyncProxy.request]: the packet travels under an id of its own. *)
Definition with_id (id : string) (packet : BuildTransfer) : BuildTransfer :=
  {| bt_Id := id; bt_Direction := bt_Direction packet; bt_Source := bt_Source packet; bt_Destination := bt_Destination packet;
     bt_Data := bt_Data packet; bt_Complete := bt_Complete packet; bt_IsDirectory := bt_IsDirectory packet;
     bt_Metadata := bt_Metadata packet |}.
Definition request (uuid : string) (packet : BuildTransfer) : res (option BuildTransfer) := host (with_id uuid packet).

(** The bytes of a reply, or its error. *)
Definition reply_data (uuid : string) (packet : BuildTransfer) : option (res bytes) :=
  match request uuid packet with
  | Err e => Some (Err e)
  | Ok None => None
  | Ok (Some resp) =>
      match bt_Metadata resp !! "error" with
      | Some msg => Some (Err (Errorf "%s" [msg]))
      | None => Some (Ok (bt_Data resp))
      end
  end.

(** [Read] and [ReadAt] return what they put at the start of a buffer of [n] bytes. *)
Definition Read (uuid : string) (f : File) (n : nat) : option (File * (bytes * option error)) :=
  match rs f with
  | Some r => let '(r', (d, e)) := rs_Read r n in Some (set_index (set_rs f r') (wrap64 (index f + Z.of_nat (length d))), (d, e))
  | None =>
      match buf f with
      | Some b =>
          let d := take n (drop (Z.to_nat (index f)) b) in
          Some (f, match d with [] => ([], Some EOF) | _ => (d, None) end)
      | None =>
          r ← reply_data uuid (packetReadAt f (index f) (Z.of_nat n));
          Some match r with
               | Err e => (f, ([], Some e))
               | Ok data =>
                   match take n data with
                   | [] => (f, ([], Some EOF))
                   | d => (set_index f (wrap64 (index f + Z.of_nat (length d))), (d, None))
                   end
               end
      end
  end.

Definition File_ReadAt (uuid : string) (f : File) (n : nat) (off : Z) : option (File * (bytes * option error)) :=
  match rs f with
  | Some r =>
      match rs_Seek r off with
      | (r1, Err e) => Some (set_rs f r1, ([], Some e))
      | (r1, Ok _) => let '(r', (d, e)) := rs_Read r1 n in Some (set_index (set_rs f r') (wrap64 (index f + Z.of_nat (length d))), (d, e))
      end
  | None =>
      match buf f with
      | Some b =>
          if bool_decide (Z.of_nat (length b) ≤ off)%Z then Some (f, ([], Some EOF))
          else if bool_decide (off < 0)%Z then None
          else let d := take n (drop (Z.to_nat off) b) in
               Some (f, (d, if bool_decide (length d < n) then Some EOF else None))
      | None =>
          r ← reply_data uuid (packetReadAt f off (Z.of_nat n));
          Some (f, match r with
                   | Err e => ([], Some e)
                   | Ok data =>
                       match take n data with
                       | [] => ([], Some EOF)
                       | d => (d, if bool_decide (length d < n) then Some EOF else None)
                       end
                   end)
      end
  end.

(** The checks of the new offset. *)
Definition seek_to (f : File) (i : Z) : File * res Z :=
  if bool_decide (i < 0)%Z then (f, Err (Errorf "negative seek offset: %d" [FormatInt i]))
  else if bool_decide (0 < SizeVal (info f))%Z && bool_decide (SizeVal (info f) < i)%Z
       then (f, Err (Errorf "seek beyond end of file: %d" [FormatInt i]))
  else (set_index f i, Ok i).

Definition Seek (f : File) (offset whence : Z) : File * res Z :=
  match rs f with
  | Some r => let '(r', x) := rs_Seek r offset in (set_rs f r', x)
  | None =>
      let newIndex :=
        if bool_decide (whence = 0)%Z then Ok offset
        else if bool_decide (whence = 1)%Z then Ok (wrap64 (index f + offset))
        else if bool_decide (whence = 2)%Z then Ok (wrap64 (SizeVal (info f) + offset))
        else Err (Errorf "invalid whence value: %d" [FormatInt whence]) in
      match newIndex with Err e => (f, Err e) | Ok i => seek_to f i end
  end.

(** [FS.Open] on a tree that was not received: the [Info] request. *)
Definition info_request (id path : string) : BuildTransfer :=
  {| bt_Id := id; bt_Direction := OUTOF; bt_Source := Some path; bt_Destination := None; bt_Data := [];
     bt_Complete := false; bt_IsDirectory := false;
     bt_Metadata := {[ "os" := "linux"; "stage" := "fssync"; "method" := "Info" ]} |}.

Context (parse_time : string → res Z).

Definition open_remote (id path : string) : option (res File) :=
  match host (info_request id path) with
  | Err e => Some (Err (Wrapf "failed requesting file info for %s: %w" [path] e))
  | Ok None => None
  | Ok (Some resp) =>
      match bt_Metadata resp !! "error" with
      | Some msg => Some (Err (Errorf "server error getting file info for %s: %s" [path; msg]))
      | None =>
          match TransformIntoFileInfo parse_time resp with
          | None => None
          | Some (Err e) => Some (Err e)
          | Some (Ok i) => Some (Ok {| f_id := id; info := i; index := 0; rs := None; buf := None |})
          end
      end
  end.

(** [FS.Open]: the cached file once the walk has set the checksum, a wire file before. *)
Inductive opened := Cached (content : bytes) | Remote (f : File).

Definition FS_Open (fs : fsys) (fsPath checksum id path : string) : option (res opened) :=
  if bool_decide (checksum = "")
  then match open_remote id path with
       | None => None
       | Some (Err e) => Some (Err e)
       | Some (Ok f) => Some (Ok (Remote f))
       end
  else Some (Cached <$> open_cached fs fsPath checksum path).

(** ** Reading to the end *)

(** A reader's loop: buffers of [n] bytes until an error. *)
Fixpoint read_all (fuel : nat) (uuid : nat → string) (f : File) (n : nat) : option (File * bytes * option error) :=
  match fuel with
  | 0 => Some (f, [], None)
  | S fuel =>
      x ← Read (uuid fuel) f n;
      match x with
      | (f', (d, Some e)) => Some (f', d, Some e)
      | (f', (d, None)) => y ← read_all fuel uuid f' n;
                           Some (y.1.1, d ++ y.1.2, y.2)
      end
  end.

(** The host serves byte ranges of a file: the reply to a [Read] request has no error and the
    bytes of the range, whatever the ids. *)
Definition serves (name : string) (content : bytes) : Prop :=
  ∀ id (f : File) (off len : nat), NameVal (info f) = name → (Z.of_nat off < 2^63)%Z → (Z.of_nat len < 2^63)%Z →
    ∃ resp, host (with_id id (packetReadAt f (Z.of_nat off) (Z.of_nat len))) = Ok (Some resp) ∧ bt_Metadata resp !! "error" = None ∧
            bt_Data resp = take len (drop off content).

Lemma Read_serves name content uuid f n :
  serves name content → NameVal (info f) = name → rs f = None → buf f = None →
  (0 ≤ index f ≤ Z.of_nat (length content))%Z → (Z.of_nat (length content) < 2^63)%Z → (Z.of_nat n < 2^63)%Z →
  Read uuid f n = Some (let d := take n (drop (Z.to_nat (index f)) content) in
    match d with [] => (f, ([], Some EOF)) | _ => (set_index f (index f + Z.of_nat (length d)), (d, None)) end).
Proof.
  intros Hs Hn Hr Hb Hi Hlen Hn63. unfold Read. rewrite Hr, Hb. unfold reply_data, request.
  destruct (Hs uuid f (Z.to_nat (index f)) n Hn ltac:(lia) Hn63) as (resp & Hh & He & Hd).
  rewrite Z2Nat.id in Hh by lia. rewrite Hh, He. simpl. rewrite Hd, take_take, Nat.min_id.
  set (d := take n (drop (Z.to_nat (index f)) content)).
  assert (Hld : d ≠ [] → (index f + Z.of_nat (length d) ≤ Z.of_nat (length content))%Z).
  { intros Hne. assert (length (drop (Z.to_nat (index f)) content) ≠ 0).
    { intros H0. apply length_zero_iff_nil in H0. apply Hne. unfold d. by rewrite H0, take_nil. }
    rewrite length_drop in *. unfold d. rewrite length_take, length_drop. lia. }
  clearbody d. destruct d as [|a d]; [done|]. rewrite wrap64_id; [done|].
  specialize (Hld ltac:(done)). simpl in Hld. unfold in_int64, min_int64, max_int64. lia.
Qed.

Lemma read_all_loop name content uuid n fuel f :
  serves name content → NameVal (info f) = name → rs f = None → buf f = None → n ≠ 0 →
  (0 ≤ index f ≤ Z.of_nat (length content))%Z → (Z.of_nat (length content) < 2^63)%Z → (Z.of_nat n < 2^63)%Z →
  length (drop (Z.to_nat (index f)) content) < fuel →
  ∃ f', read_all fuel uuid f n = Some (f', drop (Z.to_nat (index f)) content, Some EOF).
Proof.
  intros Hs. revert f. induction fuel as [|fuel IH]; intros f Hn Hr Hb Hn0 Hi Hlen Hn63 Hf; [lia|]. cbn [read_all].
  rewrite (Read_serves name content) by done. cbn beta zeta. set (rest := drop (Z.to_nat (index f)) content) in *.
  destruct (take n rest) as [|a d] eqn:Et.
  { simpl. exists f. destruct rest; [done|]. by destruct n. }
  simpl mbind. cbn beta iota. set (f1 := set_index f (index f + Z.of_nat (length (a :: d)))).
  assert (Hidx : drop (Z.to_nat (index f1)) content = drop n rest).
  { unfold f1, rest. simpl. rewrite drop_drop. destruct (decide (n ≤ length (drop (Z.to_nat (index f)) content))) as [Hle|Hgt].
    - apply (f_equal length) in Et. rewrite length_take in Et. simpl in Et. fold rest in Hle. f_equal. lia.
    - apply (f_equal length) in Et. rewrite length_take in Et. simpl in Et. unfold rest in Et. rewrite length_drop in Et, Hgt.
      rewrite !drop_ge by lia. done. }
  destruct (IH f1) as [f' Hf']; [done..| |done|done| |].
  { apply (f_equal length) in Et. unfold rest in Et. rewrite length_take, length_drop in Et. simpl in Et |- *. lia. }
  { rewrite Hidx, length_drop. apply (f_equal length) in Et. rewrite length_take in Et. simpl in Et. lia. }
  exists f'. rewrite Hidx in Hf'. unfold f1 in Hf'. simpl length in *. rewrite Hf'. simpl. by rewrite app_comm_cons, <-Et, take_drop.
Qed.
End file.

(** C32. A file that [FS.Open] opened over the wire reads to exactly the host's content, with
    any nonempty buffer: some number of reads return it in order, and the next one is [EOF]. *)
Theorem File_reads_content `{ReadSeeker R} host parse_time id path content i resp uuid n :
  serves (R := R) host path content → host (info_request id path) = Ok (Some resp) →
  bt_Metadata resp !! "error" = None → TransformIntoFileInfo parse_time resp = Some (Ok i) → bt_Source resp = Some path →
  n ≠ 0 → (Z.of_nat n < 2^63)%Z → (Z.of_nat (length content) < 2^63)%Z →
  ∃ f f', open_remote (R := R) host parse_time id path = Some (Ok f) ∧
    read_all host (S (length content)) uuid f n = Some (f', content, Some EOF).
Proof.
  intros Hs Hh He Ht Hsrc Hn Hn63 Hlen. unfold open_remote. rewrite Hh, He, Ht. simpl. eexists. 
  destruct (read_all_loop host path content uuid n (S (length content))
    {| f_id := id; info := i; index := 0; rs := None; buf := None |} Hs) as [f' Hf']; try done.
  - unfold TransformIntoFileInfo in Ht. repeat case_match; simplify_eq/=; by rewrite Hsrc in *; simplify_eq/=.
  - simpl. lia.
  - rewrite length_drop. lia.
  - exists f'. done.
Qed.

Definition origin `{ReadSeeker R} (f : File (R := R)) (whence : Z) : Z := nth (Z.to_nat whence) [0; index f; SizeVal (info f)]%Z 0%Z.

Definition seek_ok `{ReadSeeker R} (f : File (R := R)) (offset whence : Z) (x : File (R := R) * res Z) : Prop :=
  match x with
  | (f', Ok i) => f' = set_index f i ∧ (whence = 0 ∨ whence = 1 ∨ whence = 2)%Z ∧ (0 ≤ i)%Z ∧ in_int64 i ∧
      ((0 < SizeVal (info f))%Z → (i ≤ SizeVal (info f))%Z) ∧
      (in_int64 (origin f whence + offset) → i = origin f whence + offset)%Z
  | (f', Err _) => f' = f ∧
      ((whence = 0 ∨ whence = 1 ∨ whence = 2)%Z → in_int64 (origin f whence + offset) →
       (origin f whence + offset < 0 ∨ (0 < SizeVal (info f) ∧ SizeVal (info f) < origin f whence + offset))%Z)
  end.

Lemma seek_to_ok `{ReadSeeker R} (f : File (R := R)) offset w i : (w = 0 ∨ w = 1 ∨ w = 2)%Z → in_int64 i →
  (in_int64 (origin f w + offset) → i = (origin f w + offset)%Z) → seek_ok f offset w (seek_to f i).
Proof.
  intros Hw Hi He. unfold seek_to. repeat case_bool_decide; simpl; split_and!; try done; try lia; intros _ ?%He; lia.
Qed.

(** [Seek] on a wire file: it succeeds exactly for the three origins with a resulting
    offset that is not negative and, when the size is known, not past the end; it then moves
    the file there and returns the offset, and otherwise changes nothing. *)
Theorem Seek_spec `{ReadSeeker R} (f : File (R := R)) offset whence :
  rs f = None → in_int64 offset → in_int64 (index f) → in_int64 (SizeVal (info f)) →
  seek_ok f offset whence (Seek f offset whence).
Proof.
  intros Hr H1 H2 H3. unfold Seek. rewrite Hr.
  case_bool_decide; [subst; apply seek_to_ok; [by left|done|unfold origin; simpl; lia]|].
  case_bool_decide; [subst; apply seek_to_ok; [by right; left|apply wrap64_range|unfold origin; simpl; apply wrap64_id]|].
  case_bool_decide; [subst; apply seek_to_ok; [by right; right|apply wrap64_range|unfold origin; simpl; apply wrap64_id]|].
  simpl. split; [done|]. naive_solver.
Qed.

(** ** A host *)

Definition no_reader : Type := Empty_set.
#[export] Instance no_reader_rs : ReadSeeker no_reader :=
  {| rs_Read (r : Empty_set) _ := match r with end; rs_Seek (r : Empty_set) _ := match r with end |}.

Definition ex_served : bytes := bytes_of "hello world".
(** A host with one file: it answers [Read] with the range and anything else with the metadata. *)
Definition ex_host (bt : BuildTransfer) : res (option BuildTransfer) :=
  let md := bt_Metadata bt in
  let range := off ← ParseInt (mget md "offset"); len ← ParseInt (mget md "length");
               Ok (take (Z.to_nat len) (drop (Z.to_nat off) ex_served)) in
  let data := if bool_decide (mget md "method" = "Read") then range else Ok [] in
  (λ d, Some {| bt_Id := bt_Id bt; bt_Direction := INTO; bt_Source := bt_Source bt; bt_Destination := None; bt_Data := d;
                bt_Complete := true; bt_IsDirectory := false; bt_Metadata := {[ "size" := "11" ]} |}) <$> data.

Lemma ex_host_serves name : serves (R := no_reader) ex_host name ex_served.
Proof.
  intros id f off len Hn Ho Hl. set (bt := with_id id (packetReadAt f (Z.of_nat off) (Z.of_nat len))).
  assert (Hm : mget (bt_Metadata bt) "method" = "Read") by reflexivity.
  assert (H1 : mget (bt_Metadata bt) "offset" = FormatInt (Z.of_nat off)) by reflexivity.
  assert (H2 : mget (bt_Metadata bt) "length" = FormatInt (Z.of_nat len)) by reflexivity.
  unfold ex_host. rewrite Hm, H1, H2, bool_decide_true by done.
  rewrite !ParseInt_FormatInt by (unfold in_int64, min_int64, max_int64; lia).
  simpl. rewrite !Nat2Z.id. eexists. split; [reflexivity|]. done.
Qed.

Lemma File_reads_content_witness :
  ∃ f f', open_remote (R := no_reader) ex_host sample_time "1" "a/b" = Some (Ok f) ∧
    read_all ex_host (S (length ex_served)) (λ _, "id") f 4 = Some (f', ex_served, Some EOF).
Proof.
  eapply (File_reads_content (R := no_reader) ex_host sample_time "1" "a/b" ex_served);
    [apply ex_host_serves|vm_compute; reflexivity|vm_compute; reflexivity|vm_compute; reflexivity|reflexivity|done|simpl; lia|simpl; lia].
Defined.

Definition ex_file : File (R := no_reader) := {| f_id := "1"; info := sample_info; index := 10; rs := None; buf := None |}.

Lemma Seek_spec_witness : seek_ok ex_file (-4) 2 (Seek ex_file (-4) 2) ∧ Seek ex_file (-4) 2 = (set_index ex_file 1230, Ok 1230%Z).
Proof.
  split; [|vm_compute; reflexivity].
  apply (Seek_spec ex_file); [reflexivity|unfold in_int64, min_int64, max_int64; simpl; lia..].
Defined.
