(* ===== verification/BuildUtils.v ===== *)
(** * Helpers of the build ([pkg/build/utils]): the getter over a map and the capabilities

    [NewMapGetter] hands a map of build arguments to the shell lexer through the interface
    [MapGetter].  [Caps] is the table of LLB capabilities the frontend declares; the list
    type of BuildKit it is kept in ([CapList], [CapSet], [Supports]) is modelled from its
    vendored source. *)

From stdpp Require Import sorting.
From S2P Require Import Prelude GoStrings Api.

(** ** Sorting strings: [sort.Strings], [slices.SortFunc] on a string key *)

Definition sort_Strings (l : list string) : list string := merge_sort String.le l.

(** The result does not depend on the order in which a Go map was ranged over. *)
Lemma sort_Strings_order l1 l2 : l1 ≡ₚ l2 → sort_Strings l1 = sort_Strings l2.
Proof.
  intros H. unfold sort_Strings.
  apply (StronglySorted_unique String.le).
  - apply (StronglySorted_merge_sort String.le).
  - apply (StronglySorted_merge_sort String.le).
  - by rewrite !(merge_sort_Permutation String.le).
Qed.

Lemma elem_of_sort_Strings x l : x ∈ sort_Strings l ↔ x ∈ l.
Proof. unfold sort_Strings. by rewrite merge_sort_Permutation. Qed.

Lemma sort_Strings_strict l : NoDup l → StronglySorted (λ a b, String.le a b ∧ a ≠ b) (sort_Strings l).
Proof.
  intros Hl. assert (Hn : NoDup (sort_Strings l)) by (unfold sort_Strings; by rewrite merge_sort_Permutation).
  pose proof (StronglySorted_merge_sort String.le l) as Hs. fold (sort_Strings l) in Hs.
  induction Hs as [|a l' Hs IH HF]; [constructor|]. apply NoDup_cons in Hn as [Ha Hn].
  constructor; [by apply IH|]. rewrite Forall_forall in HF |- *. intros b Hb. split; [by apply HF|]. by intros ->.
Qed.

(** ** The getter over a map ([map_getter.go]) *)

(** The interface: what the shell lexer may ask. *)
Record MapGetter := { Keys : list string; Get : string → option string }.

Definition mapGetter_Keys (m : smap) : list string := sort_Strings (map_to_list m).*1.
Definition mapGetter_Get (m : smap) (key : string) : option string := m !! key.
Definition NewMapGetter (m : smap) : MapGetter := {| Keys := mapGetter_Keys m; Get := mapGetter_Get m |}.

Lemma NewMapGetter_Keys m order : order ≡ₚ (map_to_list m).*1 → Keys (NewMapGetter m) = sort_Strings order.
Proof. intros H. symmetry. by apply sort_Strings_order. Qed.

Lemma elem_of_Keys m k : k ∈ Keys (NewMapGetter m) ↔ is_Some (Get (NewMapGetter m) k).
Proof.
  cbn. unfold mapGetter_Keys, mapGetter_Get. rewrite elem_of_sort_Strings, list_elem_of_fmap. split.
  - intros ([k' v] & -> & H). apply elem_of_map_to_list in H. by exists v.
  - intros [v H]. exists (k, v). split; [done|]. by apply elem_of_map_to_list.
Qed.

Lemma Keys_strict m : StronglySorted (λ a b, String.le a b ∧ a ≠ b) (Keys (NewMapGetter m)).
Proof. apply sort_Strings_strict. apply NoDup_fst_map_to_list. Qed.

(** Two maps that answer every query alike are the same getter. *)
Lemma NewMapGetter_inj m1 m2 : (∀ k, Get (NewMapGetter m1) k = Get (NewMapGetter m2) k) → m1 = m2.
Proof. intros H. apply map_eq. exact H. Qed.

(** ** Capability lists ([apicaps]) *)

Inductive CapStatus := CapStatusStable | CapStatusExperimental | CapStatusPrerelease.

Record Cap := {
  c_ID : string; c_Name : string; c_Status : CapStatus; c_Enabled : bool; c_Deprecated : bool;
  c_SupportedHint : smap;
  c_DisabledReason : string; c_DisabledReasonMsg : string; c_DisabledAlternative : string;
}.

(** [pb.APICap] *)
Record APICap := {
  a_ID : string; a_Enabled : bool; a_Deprecated : bool;
  a_DisabledReason : string; a_DisabledReasonMsg : string; a_DisabledAlternative : string;
}.

Abbreviation CapList := (gmap string Cap).

Definition Init (l : CapList) (cc : list Cap) : CapList := foldl (λ l c, <[c_ID c := c]> l) l cc.

Definition APICap_of (c : Cap) : APICap :=
  {| a_ID := c_ID c; a_Enabled := c_Enabled c; a_Deprecated := c_Deprecated c;
     a_DisabledReason := c_DisabledReason c; a_DisabledReasonMsg := c_DisabledReasonMsg c;
     a_DisabledAlternative := c_DisabledAlternative c |}.

(** [CapList.All]: in the order of the identifiers, which are the keys. *)
Definition All (l : CapList) : list APICap :=
  omap (λ id, APICap_of <$> l !! id) (sort_Strings (map_to_list l).*1).

Record CapSet := { cs_list : CapList; cs_set : gmap string APICap }.

Definition CapSet_of (l : CapList) (caps : list APICap) : CapSet :=
  {| cs_list := l;
     cs_set := foldl (λ m c, if bool_decide (a_ID c ≠ "") then <[a_ID c := c]> m else m) ∅ caps |}.

Record CapError := { ce_ID : string; ce_Definition : option Cap; ce_State : option APICap }.

Definition Supports (s : CapSet) (id : string) : result CapError unit :=
  match cs_list s !! id with
  | None => Err {| ce_ID := id; ce_Definition := None; ce_State := None |}
  | Some c =>
      match cs_set s !! id with
      | None => Err {| ce_ID := id; ce_Definition := Some c; ce_State := None |}
      | Some state =>
          if a_Enabled state then Ok tt
          else Err {| ce_ID := id; ce_Definition := Some c; ce_State := Some state |}
      end
  end.

(** ** The table ([caps.go]) *)

Definition CapSourceOCILayout : string := "source.ocilayout".
Definition CapSourceImageResolveMode : string := "source.image.resolvemode".
Definition CapSourceImageLayerLimit : string := "source.image.layerlimit".
Definition CapSourceLocal : string := "source.local".
Definition CapSourceLocalUnique : string := "source.local.unique".
Definition CapSourceLocalSessionID : string := "source.local.sessionid".
Definition CapSourceLocalIncludePatterns : string := "source.local.includepatterns".
Definition CapSourceLocalFollowPaths : string := "source.local.followpaths".
Definition CapSourceLocalExcludePatterns : string := "source.local.excludepatterns".
Definition CapSourceLocalSharedKeyHint : string := "source.local.sharedkeyhint".
Definition CapSourceLocalDiffer : string := "source.local.differ".
Definition CapSourceGit : string := "source.git".
Definition CapSourceGitKeepDir : string := "source.git.keepgitdir".
Definition CapSourceGitFullURL : string := "source.git.fullurl".
Definition CapSourceGitHTTPAuth : string := "source.git.httpauth".
Definition CapSourceGitKnownSSHHosts : string := "source.git.knownsshhosts".
Definition CapSourceGitMountSSHSock : string := "source.git.mountsshsock".
Definition CapSourceGitSubdir : string := "source.git.subdir".
Definition CapSourceHTTP : string := "source.http".
Definition CapSourceHTTPChecksum : string := "source.http.checksum".
Definition CapSourceHTTPPerm : string := "source.http.perm".
Definition CapSourceHTTPUIDGID : string := "soruce.http.uidgid".
Definition CapBuildOpLLBFileName : string := "source.buildop.llbfilename".
Definition CapExecMetaBase : string := "exec.meta.base".
Definition CapExecMetaCgroupParent : string := "exec.meta.cgroup.parent".
Definition CapExecMetaProxy : string := "exec.meta.proxyenv".
Definition CapExecMetaNetwork : string := "exec.meta.network".
Definition CapExecMetaSetsDefaultPath : string := "exec.meta.setsdefaultpath".
Definition CapExecMetaSecurity : string := "exec.meta.security".
Definition CapExecMetaSecurityDeviceWhitelistV1 : string := "exec.meta.security.devices.v1".
Definition CapExecMetaUlimit : string := "exec.meta.ulimit".
Definition CapExecMountBind : string := "exec.mount.bind".
Definition CapExecMountBindReadWriteNoOutput : string := "exec.mount.bind.readwrite-nooutput".
Definition CapExecMountCache : string := "exec.mount.cache".
Definition CapExecMountCacheSharing : string := "exec.mount.cache.sharing".
Definition CapExecMountSelector : string := "exec.mount.selector".
Definition CapExecMountTmpfs : string := "exec.mount.tmpfs".
Definition CapExecMountTmpfsSize : string := "exec.mount.tmpfs.size".
Definition CapExecMountSecret : string := "exec.mount.secret".
Definition CapExecMountSSH : string := "exec.mount.ssh".
Definition CapExecCgroupsMounted : string := "exec.cgroup".
Definition CapExecSecretEnv : string := "exec.secretenv".
Definition CapFileBase : string := "file.base".
Definition CapFileRmWildcard : string := "file.rm.wildcard".
Definition CapFileRmNoFollowSymlink : string := "file.rm.nofollowsymlink".
Definition CapFileCopyIncludeExcludePatterns : string := "file.copy.includeexcludepatterns".
Definition CapConstraints : string := "constraints".
Definition CapPlatform : string := "platform".
Definition CapMetaIgnoreCache : string := "meta.ignorecache".
Definition CapMetaDescription : string := "meta.description".
Definition CapMetaExportCache : string := "meta.exportcache".
Definition CapRemoteCacheGHA : string := "cache.gha".
Definition CapRemoteCacheS3 : string := "cache.s3".
Definition CapRemoteCacheAzBlob : string := "cache.azblob".
Definition CapMergeOp : string := "mergeop".
Definition CapDiffOp : string := "diffop".
Definition CapAnnotations : string := "exporter.image.annotations".
Definition CapAttestations : string := "exporter.image.attestations".
Definition CapSourceDateEpoch : string := "exporter.sourcedateepoch".
Definition CapSourcePolicy : string := "source.policy".

(** [apicaps.Cap{ID: id, Enabled: true, Status: apicaps.CapStatusExperimental}] *)
Definition experimental (id : string) : Cap :=
  {| c_ID := id; c_Name := ""; c_Status := CapStatusExperimental; c_Enabled := true; c_Deprecated := false;
     c_SupportedHint := ∅; c_DisabledReason := ""; c_DisabledReasonMsg := ""; c_DisabledAlternative := "" |}.

(** The sources: images, local directories, Git and HTTP. *)
Definition caps_source : list Cap :=
  [ experimental CapSourceOCILayout;
    experimental CapSourceImageResolveMode;
    experimental CapSourceImageLayerLimit;
    experimental CapSourceLocal;
    experimental CapSourceLocalUnique;
    experimental CapSourceLocalSessionID;
    experimental CapSourceLocalIncludePatterns;
    experimental CapSourceLocalFollowPaths;
    experimental CapSourceLocalExcludePatterns;
    experimental CapSourceLocalSharedKeyHint;
    experimental CapSourceLocalDiffer;
    experimental CapSourceGit;
    experimental CapSourceGitKeepDir;
    experimental CapSourceGitFullURL;
    experimental CapSourceGitHTTPAuth;
    experimental CapSourceGitKnownSSHHosts;
    experimental CapSourceGitMountSSHSock;
    experimental CapSourceGitSubdir;
    experimental CapSourceHTTP;
    experimental CapSourceHTTPChecksum;
    experimental CapSourceHTTPPerm;
    experimental CapSourceOCILayout;
    experimental CapSourceHTTPUIDGID;
    experimental CapBuildOpLLBFileName ].

(** Running commands: metadata, mounts, secrets. *)
Definition caps_exec : list Cap :=
  [ experimental CapExecMetaBase;
    experimental CapExecMetaCgroupParent;
    experimental CapExecMetaProxy;
    experimental CapExecMetaNetwork;
    experimental CapExecMetaSetsDefaultPath;
    experimental CapExecMetaSecurity;
    experimental CapExecMetaSecurityDeviceWhitelistV1;
    experimental CapExecMetaUlimit;
    experimental CapExecMountBind;
    experimental CapExecMountBindReadWriteNoOutput;
    experimental CapExecMountCache;
    experimental CapExecMountCacheSharing;
    experimental CapExecMountSelector;
    experimental CapExecMountTmpfs;
    experimental CapExecMountTmpfsSize;
    experimental CapExecMountSecret;
    experimental CapExecMountSSH;
    experimental CapExecCgroupsMounted;
    experimental CapExecSecretEnv ].

(** File operations, constraints, metadata, remote caches and exporters. *)
Definition caps_file_and_meta : list Cap :=
  [ {| c_ID := CapFileBase; c_Name := ""; c_Status := CapStatusPrerelease; c_Enabled := true; c_Deprecated := false;
      c_SupportedHint := {[ "docker" := "Docker v19.03"; "buildkit" := "BuildKit v0.5.0" ]};
      c_DisabledReason := ""; c_DisabledReasonMsg := ""; c_DisabledAlternative := "" |};
    experimental CapFileRmWildcard;
    experimental CapFileRmNoFollowSymlink;
    experimental CapFileCopyIncludeExcludePatterns;
    experimental CapConstraints;
    experimental CapPlatform;
    experimental CapMetaIgnoreCache;
    experimental CapMetaDescription;
    experimental CapMetaExportCache;
    experimental CapRemoteCacheGHA;
    experimental CapRemoteCacheS3;
    experimental CapRemoteCacheAzBlob;
    experimental CapMergeOp;
    experimental CapDiffOp;
    experimental CapAnnotations;
    experimental CapAttestations;
    {| c_ID := CapSourceDateEpoch; c_Name := "source date epoch"; c_Status := CapStatusExperimental; c_Enabled := true;
      c_Deprecated := false; c_SupportedHint := ∅; c_DisabledReason := ""; c_DisabledReasonMsg := ""; c_DisabledAlternative := "" |};
    experimental CapSourcePolicy ].

Definition Caps : CapList := foldl (λ l c, Init l [c]) ∅ (caps_source ++ caps_exec ++ caps_file_and_meta).

(** ** What the table offers *)

(** The identifiers of the table. *)
Definition offered : list string := c_ID <$> (caps_source ++ caps_exec ++ caps_file_and_meta).

(** Every entry of a list that was filled by [Init] sits under its identifier, and comes from
    the definitions it was filled with. *)
Definition filled (cc : list Cap) (l : CapList) : Prop :=
  (∀ id c, l !! id = Some c → c_ID c = id ∧ c ∈ cc) ∧ (∀ c, c ∈ cc → is_Some (l !! c_ID c)).

Lemma Init_filled cc cc' l : filled cc l → filled (cc ++ cc') (foldl (λ l c, Init l [c]) l cc').
Proof.
  revert cc l. induction cc' as [|c cc' IH]; intros cc l [H1 H2]; simpl; [by rewrite app_nil_r|].
  rewrite cons_middle, app_assoc. apply IH. split.
  - intros id c' [[<- <-]|[_ H]]%lookup_insert_Some; [set_solver|]. apply H1 in H as [? ?]. set_solver.
  - intros c' [H|H]%elem_of_app; [|apply list_elem_of_singleton in H as ->; rewrite lookup_insert_eq; by eexists].
    destruct (decide (c_ID c = c_ID c')) as [->|]; [rewrite lookup_insert_eq; by eexists|].
    rewrite lookup_insert_ne by done. by apply H2.
Qed.

Lemma Caps_filled : filled (caps_source ++ caps_exec ++ caps_file_and_meta) Caps.
Proof. apply (Init_filled []). split; [intros id c H; by rewrite lookup_empty in H|by intros c ?%not_elem_of_nil]. Qed.

(** The identifiers of [All] are the keys of the list, in order. *)
Lemma All_IDs cc l : filled cc l → a_ID <$> All l = sort_Strings (map_to_list l).*1.
Proof.
  intros [Hl _]. unfold All. assert (H : ∀ id, id ∈ sort_Strings (map_to_list l).*1 → is_Some (l !! id)).
  { intros id Hid. by apply (elem_of_sort_Strings id), list_elem_of_fmap in Hid as ([? v] & -> & ?%elem_of_map_to_list); exists v. }
  induction (sort_Strings (map_to_list l).*1) as [|id ids IH]; [done|].
  destruct (H id) as [c Hc]; [left|]. csimpl. rewrite Hc. csimpl. rewrite (proj1 (Hl id c Hc)). f_equal.
  apply IH. intros id' ?. apply H. by right.
Qed.

(** The set of a [CapSet] over [All l] holds the state of every entry of [l]. *)
Lemma CapSet_of_All cc l known : filled cc l → Forall (λ c, c_ID c ≠ "") cc → ∀ id,
  cs_set (CapSet_of known (All l)) !! id = APICap_of <$> l !! id.
Proof.
  intros Hf Hne id. simpl. unfold All.
  assert (H : ∀ ids (m : gmap string APICap),
    foldl (λ m c, if bool_decide (a_ID c ≠ "") then <[a_ID c := c]> m else m) m (omap (λ id, APICap_of <$> l !! id) ids) !! id =
    if bool_decide (id ∈ ids ∧ is_Some (l !! id)) then APICap_of <$> l !! id else m !! id).
  { intros ids. induction ids as [|x ids IH]; intros m; [by rewrite bool_decide_false by set_solver|csimpl].
    destruct (l !! x) as [c|] eqn:Hx; csimpl.
    - destruct (proj1 Hf x c Hx) as [<- Hc]. rewrite bool_decide_true by exact (proj1 (Forall_forall _ _) Hne c Hc).
      rewrite IH. destruct (decide (id = c_ID c)) as [->|Hn].
      + rewrite (bool_decide_true (c_ID c ∈ c_ID c :: ids ∧ _)) by (split; [left|by rewrite Hx]).
        case_bool_decide; [done|]. by rewrite lookup_insert_eq, Hx.
      + rewrite lookup_insert_ne by done. erewrite bool_decide_ext; [done|]. set_solver.
    - rewrite IH. erewrite bool_decide_ext; [done|]. rewrite elem_of_cons. split; [naive_solver|].
      intros [[->|?] [? ?]]; [congruence|]. split; [done|by eexists]. }
  rewrite H, lookup_empty. case_bool_decide as Hd; [done|]. destruct (l !! id) as [c|] eqn:E; [|done].
  destruct Hd. split; [|by eexists]. apply elem_of_sort_Strings, list_elem_of_fmap. exists (id, c).
  split; [done|]. by apply elem_of_map_to_list.
Qed.

Lemma table_enabled : Forall (λ c, c_ID c ≠ "" ∧ c_Enabled c = true) (caps_source ++ caps_exec ++ caps_file_and_meta).
Proof. apply Forall_forall. intros c Hc. unfold caps_source, caps_exec, caps_file_and_meta in Hc. repeat (apply elem_of_cons in Hc as [->|Hc]; [by split|]). by apply not_elem_of_nil in Hc. Qed.

(** A capability that the Dockerfile converter asks for is granted exactly when BuildKit
    knows it and the table of [Caps] names it; the only errors are an unknown capability and
    one the table leaves out, never a disabled one.  The table is passed on with every
    identifier once and in order, although [CapSourceOCILayout] is initialised twice. *)
Theorem Caps_offered (known : CapList) (id : string) :
  Supports (CapSet_of known (All Caps)) id =
    match known !! id with
    | None => Err {| ce_ID := id; ce_Definition := None; ce_State := None |}
    | Some c => if decide (id ∈ offered) then Ok tt
                else Err {| ce_ID := id; ce_Definition := Some c; ce_State := None |}
    end ∧
  a_ID <$> All Caps = sort_Strings (remove_dups offered) ∧ length (All Caps) = 60 ∧ length offered = 61.
Proof.
  pose proof Caps_filled as Hf. pose proof table_enabled as Ht. split.
  - unfold Supports. rewrite (CapSet_of_All _ _ known Hf) by (eapply Forall_impl; [exact Ht|by intros c [? _]]).
    change (cs_list (CapSet_of known (All Caps))) with known. destruct (known !! id) as [c|]; [|done].
    destruct (Caps !! id) as [x|] eqn:E; simpl.
    + destruct (proj1 Hf id x E) as [<- Hx]. rewrite Forall_forall in Ht. rewrite (proj2 (Ht x Hx)).
      rewrite decide_True; [done|]. by apply list_elem_of_fmap_2.
    + rewrite decide_False; [done|]. intros (x & -> & Hx)%list_elem_of_fmap.
      apply (proj2 Hf) in Hx as [? Hx]. congruence.
  - rewrite (All_IDs _ _ Hf). split; [|split; vm_compute; reflexivity].
    apply sort_Strings_order, NoDup_Permutation; [apply NoDup_fst_map_to_list|apply NoDup_remove_dups|].
    intros x. rewrite elem_of_remove_dups. split.
    + intros ([? c] & -> & [<- Hc]%elem_of_map_to_list%(proj1 Hf))%list_elem_of_fmap.
      by apply (list_elem_of_fmap_2 c_ID).
    + intros (c & -> & [c' Hc]%(proj2 Hf))%list_elem_of_fmap. apply list_elem_of_fmap. exists (c_ID c, c').
      split; [done|]. by apply elem_of_map_to_list.
Qed.
