(* ===== verification/Stdio.v ===== *)
(** * The progress stream ([pkg/stdio])

    [StdioProxy] is the file that BuildKit's progress printer writes to: every write becomes
    an [IO] packet on the stream of the build and waits for its acknowledgement.  The other
    way the host sends terminal commands, which the filter of the stage carries out.  The
    pseudo terminal and the JSON decoder are parameters. *)

From Stdlib Require Import Ascii.
From S2P Require Import Prelude GoStrings Api Stream.

Record TerminalCommand := { CommandType : string; Code : string; Rows : Z; Cols : Z }.
Record WinSize := { Height : Z; Width : Z }.

(** A [console.Console]: what its methods return. *)
Record Console := { con_Resize : WinSize → option error; con_Fd : Z; con_Close : option error }.

Definition ErrNotATTY : error := Sentinel "not a tty".
Definition ErrWriteOnlyStream : error := Sentinel "stdio stream is write-only".

(** The length of the buffer, [1<<20]. *)
Definition stdio_buf : nat := Z.to_nat (Z.shiftl 1 20).

(** [sp_buf] is the part of the buffer that was written; the rest of its [stdio_buf] bytes
    is zero. *)
Record StdioProxy := { sp_console : option Console; sp_s : string; sp_buf : bytes }.

Definition NewStdioProxy (NewPty : res (Console * string)) (tty : bool) : res StdioProxy :=
  if tty then
    match NewPty with
    | Err e => Err e
    | Ok (c, s) => Ok {| sp_console := Some c; sp_s := s; sp_buf := [] |}
    end
  else Ok {| sp_console := None; sp_s := ""; sp_buf := [] |}.

(** ** Terminal commands *)

Section stdio.
Context (json_Unmarshal : bytes → res TerminalCommand).

Definition decodeTerminalCommand (encoded : string) : res TerminalCommand :=
  payload ← RawStdDecodeString encoded; json_Unmarshal payload.

(** The result, and the sizes the console was set to. *)
Definition resizeTerminal (r : StdioProxy) (rows columns : Z) : option error * list WinSize :=
  match sp_console r with
  | None => (Some ErrNotATTY, [])
  | Some c =>
      if bool_decide (rows ≤ 0)%Z || bool_decide (columns ≤ 0)%Z then (None, [])
      else let size := {| Height := u16 rows; Width := u16 columns |} in (con_Resize c size, [size])
  end.

Definition handleTerminalCommand (r : StdioProxy) (command : TerminalCommand) : option error * list WinSize :=
  if bool_decide (Code command = "winch") then resizeTerminal r (Rows command) (Cols command)
  else if bool_decide (Code command = "ack") then (None, [])
  else (Some (Errorf "invalid terminal command: %s" [Code command]), []).

Definition stdio_filter_effect (r : StdioProxy) (c : ClientStream) : option error * list WinSize :=
  match GetCommand c with
  | None => (Some ErrIgnorePacket, [])
  | Some command =>
      match decodeTerminalCommand (run_Command command) with
      | Err _ => (Some ErrIgnorePacket, [])
      | Ok t => if bool_decide (CommandType t = "terminal") then handleTerminalCommand r t else (Some ErrIgnorePacket, [])
      end
  end.

(** [StdioProxy.Filter]: [None] for acceptance. *)
Definition stdio_Filter (r : StdioProxy) : FilterFn := λ c, (stdio_filter_effect r c).1.

(** A packet that the stage takes is a terminal command; it is an acknowledgement, or a
    change of size on a console. *)
Lemma stdio_Filter_accepts r c : stdio_Filter r c = None →
  ∃ cmd t, GetCommand c = Some cmd ∧ decodeTerminalCommand (run_Command cmd) = Ok t ∧ CommandType t = "terminal" ∧
    (Code t = "ack" ∨ Code t = "winch" ∧ is_Some (sp_console r)).
Proof.
  unfold stdio_Filter, stdio_filter_effect. destruct (GetCommand c) as [cmd|]; [|done].
  destruct (decodeTerminalCommand (run_Command cmd)) as [t|] eqn:Ed; [|done]. case_bool_decide as Ht; [|done].
  intros H. exists cmd, t. do 3 (split; [done|]). unfold handleTerminalCommand, resizeTerminal in H.
  case_bool_decide as Hw; [right; split; [done|]; by destruct (sp_console r)|]. case_bool_decide; [by left|done].
Qed.

(** Sizes given to the console fit 16 bits, and only positive sizes are given. *)
Lemma resize_sizes r c size : size ∈ (stdio_filter_effect r c).2 →
  (0 ≤ Height size < 2^16 ∧ 0 ≤ Width size < 2^16)%Z ∧ is_Some (sp_console r).
Proof.
  unfold stdio_filter_effect, handleTerminalCommand, resizeTerminal.
  repeat case_match; simpl; try set_solver. intros ->%list_elem_of_singleton. split; [|by eexists].
  split; apply Z.mod_pos_bound; lia.
Qed.
End stdio.

(** ** The file *)

Definition stdio_Read (r : StdioProxy) (p : bytes) : nat * option error := (0, Some ErrWriteOnlyStream).

Definition io_packet (id : string) (data : bytes) : ServerStream :=
  {| s_BuildId := id; s_PacketType := Some (SIo {| io_Type := STDERR; io_Data := data |}) |}.

(** [Write] with the fresh [id]: the packet holds the slice [r.buf[0:len(p)]], which the next
    write overwrites; [request] is the result of [Request], which returns without an error
    only after the acknowledgement, when the packet has left.  [None] is the slice out of
    range. *)
Definition stdio_Write (request : ServerStream → option error) (id : string) (r : StdioProxy) (p : bytes) :
    option (StdioProxy * ServerStream * (nat * option error)) :=
  let buf := take stdio_buf p ++ drop (length p) (sp_buf r) in
  let r' := {| sp_console := sp_console r; sp_s := sp_s r; sp_buf := buf |} in
  if bool_decide (length p ≤ stdio_buf) then
    let data := take (length p) buf in
    let m := io_packet id data in
    Some (r', m, match request m with Some e => (0, Some e) | None => (length data, None) end)
  else None.

Definition stdio_String : string := "stdio".
Definition stdio_Name : string := stdio_String.
Definition stdio_Fd (r : StdioProxy) : Z := match sp_console r with Some c => con_Fd c | None => 0 end.
Definition stdio_Close (r : StdioProxy) : option error := match sp_console r with Some c => con_Close c | None => None end.

(** A printer that writes [ws] and stops at the first error: the packets it handed to [Request]. *)
Fixpoint stdio_print (request : ServerStream → option error) (uuid : nat → string) (k : nat) (r : StdioProxy) (ws : list bytes) :
    option (list ServerStream * option error) :=
  match ws with
  | [] => Some ([], None)
  | p :: ws =>
      match stdio_Write request (uuid k) r p with
      | None => None
      | Some (_, m, (_, Some e)) => Some ([m], Some e)
      | Some (r', m, (_, None)) =>
          match stdio_print request uuid (S k) r' ws with
          | Some (ms, e) => Some (m :: ms, e)
          | None => None
          end
      end
  end.

(** One write sends its own bytes, whatever the buffer held, and reports them all; only a
    write of more than the buffer fails to. *)
Lemma stdio_Write_spec request id r p :
  match stdio_Write request id r p with
  | None => stdio_buf < length p
  | Some (_, m, (n, e)) => length p ≤ stdio_buf ∧ m = io_packet id p ∧ e = request m ∧ (e = None → n = length p)
  end.
Proof.
  unfold stdio_Write. case_bool_decide as Hl; [|lia].
  assert (Ht : take (length p) (take stdio_buf p ++ drop (length p) (sp_buf r)) = p).
  { rewrite (take_ge p stdio_buf) by done. by rewrite take_app_length. }
  rewrite Ht. by destruct (request (io_packet id p)) eqn:E.
Qed.

(** C39. Progress output is requested as it was printed, whatever [Request] returns for each packet
    and whatever the buffer held before.  A printer that gets through all its writes has requested
    exactly one [STDERR] packet per write, in order, with the bytes of that write and none of an
    earlier one, and the host has acknowledged each of them.  One that stops with an error has
    done so for the writes before, each acknowledged, and the error is that of the request of the
    next one, its last.  It panics exactly at a write of more than one mebibyte, if the host has
    acknowledged the writes before it. *)
Theorem stdio_print_exact (request : ServerStream → option error) (uuid : nat → string) (r : StdioProxy) (k : nat) (ws : list bytes) :
  let packet i p := io_packet (uuid (k + i)) p in
  let acknowledged done := Forall (λ p, length p ≤ stdio_buf) done ∧ Forall (λ m, request m = None) (imap packet done) in
  match stdio_print request uuid k r ws with
  | Some (ms, None) => acknowledged ws ∧ ms = imap packet ws
  | Some (ms, Some e) => ∃ done p rest, ws = done ++ p :: rest ∧ acknowledged done ∧ length p ≤ stdio_buf ∧
      request (packet (length done) p) = Some e ∧ ms = imap packet (done ++ [p])
  | None => ∃ done p rest, ws = done ++ p :: rest ∧ acknowledged done ∧ stdio_buf < length p
  end.
Proof.
  revert r k. induction ws as [|p ws IH]; intros r k; simpl; [done|].
  pose proof (stdio_Write_spec request (uuid k) r p) as Hw.
  destruct (stdio_Write _ (uuid k) r p) as [[[r' m] [n e]]|]; [|by exists [], p, ws].
  destruct Hw as (Hp & -> & He & _).
  assert (Hk : ∀ l : list bytes, imap (λ i p, io_packet (uuid (S k + i)) p) l = imap (λ i p, io_packet (uuid (k + S i)) p) l).
  { intros l. apply imap_ext. intros i x _. simpl. by rewrite Nat.add_succ_r. }
  destruct e as [e|].
  { exists [], p, ws. simpl. rewrite Nat.add_0_r. by split_and!. }
  assert (Hcons : ∀ l, Forall (λ p, length p ≤ stdio_buf) l ∧ Forall (λ m, request m = None) (imap (λ i p, io_packet (uuid (S k + i)) p) l) →
    Forall (λ p, length p ≤ stdio_buf) (p :: l) ∧ Forall (λ m, request m = None) (imap (λ i p, io_packet (uuid (k + i)) p) (p :: l))).
  { intros l [H1 H2]. split; [by constructor|]. rewrite imap_cons, Nat.add_0_r. constructor; [done|]. rewrite Hk in H2. exact H2. }
  specialize (IH r' (S k)). cbv zeta in IH. destruct (stdio_print _ uuid (S k) r' ws) as [[ms [e|]]|].
  - destruct IH as (dn & p' & rest & -> & Hack & Hp' & Hreq & ->). exists (p :: dn), p', rest. split_and!; [done|by apply Hcons..|done| |].
    + simpl. by rewrite Nat.add_succ_r.
    + rewrite Hk. simpl. by rewrite Nat.add_0_r.
  - destruct IH as [Hack ->]. split; [by apply Hcons|]. by rewrite Nat.add_0_r, Hk.
  - destruct IH as (dn & p' & rest & -> & Hack & Hp'). exists (p :: dn), p', rest. split_and!; [done|by apply Hcons..|done].
Qed.
