(* ===== verification/BuildOpts.v ===== *)
(** * The build request ([pkg/build/buildopts.go], [pkg/build/utils])

    The metadata of a [PerformBuild] call (a list of values per key) is validated and turned
    into [BOpts].  The parsers of BuildKit, containerd and the Dockerfile frontend are the
    fields of [BuildLibs]; everything around them is the code's own. *)

From Stdlib Require Import Ascii.
From S2P Require Import Prelude GoStrings GoPath Api TarUnpack Stream BuildUtils Stdio FsWalk.

Abbreviation metadata := (gmap string (list string)).

(** A parsed Dockerfile, as far as the code looks into it: its escape character, the value of
    each node of the AST and of the node after it, the stages, and the [ARG]s before the first
    [FROM]. *)
Record Mount := { m_Type : string; m_Source : string; m_From : string }.

(** The stages of a parsed Dockerfile. *)
Inductive Command := CopyCommand (From : string) | OtherCommand.
Record Stage := { s_Name : string; s_BaseName : string; s_Platform : string; s_Commands : list Command }.
Abbreviation ArgCommand := (list (string * string)).

Class BuildLibs := {
  unicode_lower : string → string;                     (* strings.ToLower outside ASCII *)
  platforms_Parse : string → res Platform;
  DefaultSpec : Platform;
  entitlements_Parse : string → res unit;
  attestations_Parse : smap → res unit;
  Node : Type;
  node_Value : Node → string;
  node_Next : Node → option string;                    (* [node.Next.Value] *)
  RunCommand : Type;
  ParseInstruction : Node → res (option RunCommand);   (* [None]: another command *)
  Expand : (string → res string) → RunCommand → res RunCommand;
  GetMounts : RunCommand → list Mount;
  parser_Parse : bytes → res (ascii * list Node);      (* the escape token and the AST's children *)
  instructions_Parse : list Node → res (list Stage * list ArgCommand);
  ProcessWordWithMatches : ascii → string → MapGetter → res string; (* of [shell.NewLex] with an escape token *)
  NewPty : res (Console * string);
  NewPrinter : StdioProxy → string → option error;     (* an unknown mode, a terminal that does not open *)
}.

(** ** The keys of the metadata *)

Definition KeyContentStoreName : string := "container".
Definition KeyDockerfile : string := "dockerfile".
Definition KeyDockerignore : string := "dockerignore".
Definition KeyTag : string := "tag".
Definition KeyPlatforms : string := "platforms".
Definition KeyProgress : string := "progress".
Definition KeyNoCache : string := "no-cache".
Definition KeyContext : string := "context".
Definition KeyTarget : string := "target".
Definition KeyLabels : string := "labels".
Definition KeyBuildArgs : string := "build-args".
Definition KeyBuildContexts : string := "build-contexts".
Definition KeySecrets : string := "secrets".
Definition KeySSH : string := "ssh".
Definition KeyEntitlements : string := "entitlements".
Definition KeyAddHosts : string := "add-hosts".
Definition KeyNetwork : string := "network".
Definition KeyPrivileged : string := "privileged".
Definition KeyShmSize : string := "shm-size".
Definition KeyUlimit : string := "ulimit".
Definition KeyCacheIn : string := "cache-in".
Definition KeyCacheOut : string := "cache-out".
Definition KeyOutput : string := "outputs".
Definition KeyCheck : string := "check".
Definition KeyBuildID : string := "build-id".
Definition KeyAttestProvenance : string := "attest-provenance".
Definition KeyAttestSBOM : string := "attest-sbom".
Definition KeyFrontendAttestProvenance : string := "attest:provenance".
Definition KeyFrontendAttestSBOM : string := "attest:sbom".

Definition EntitlementNetworkHost : string := "network.host".
Definition EntitlementSecurityInsecure : string := "security.insecure".
Definition GlobalExportPath : string := "/var/lib/container-builder-shim/exports".

Definition ErrMissingBuildID : error := Sentinel "build ID is missing".
Definition ErrMissingContextRef : error := Sentinel "ref missing in build context".
Definition ErrMissingContextDockerfile : error := Sentinel "dockerfile missing in build context".
Definition ErrInvalidProgress : error := Sentinel "build arg progress value is invalid".
Definition ErrInvalidBuildContext : error := Sentinel "build context must use name=source".
Definition ErrInvalidNetworkMode : error := Sentinel "build network mode is invalid".
Definition ErrUnsupportedSSH : error := Sentinel "build arg ssh value is not supported".

(** ** Values of a key *)

(** [contextMap[key]]: no values when the key is absent. *)
Definition values (m : metadata) (key : string) : list string := default [] (m !! key).

Definition firstMetadataValue (m : metadata) (key : string) : option string := head (values m key).
Definition lastMetadataValue (l : list string) : string := default "" (last l).
Definition hasMetadataFlag (m : metadata) (key : string) : bool := bool_decide (is_Some (m !! key)).

(** ** SSH agents *)

Record AgentConfig := { ac_ID : string; ac_Paths : list string }.

#[export] Instance AgentConfig_eq_dec : EqDecision AgentConfig.
Proof. solve_decision. Defined.

Definition socketDirectory : string := "/var/host-services/".

Definition isForwardedSSHSocketPath (path : string) : bool :=
  if HasPrefix path socketDirectory then
    let name := TrimPrefix path socketDirectory in
    if bool_decide (name = "") || Contains name "/" then false
    else HasPrefix name "ssh-auth" && HasSuffix name ".sock"
  else false.

(** One value: its agent, unless it is not supported. *)
Definition ssh_agent (value : string) : option AgentConfig :=
  let value := TrimSpace value in
  if bool_decide (value = "default") then Some {| ac_ID := "default"; ac_Paths := [] |}
  else
    let '(id, path, hasPath) := Cut value "=" in
    let id := TrimSpace id in
    let path := TrimSpace path in
    if negb hasPath || bool_decide (id = "") || negb (isForwardedSSHSocketPath path) then None
    else Some {| ac_ID := id; ac_Paths := [path] |}.

Fixpoint ssh_loop (l : list string) (seenIDs : gset string) (agentConfigs : list AgentConfig) : res (list AgentConfig) :=
  match l with
  | [] => Ok agentConfigs
  | value :: l =>
      match ssh_agent value with
      | None => Err ErrUnsupportedSSH
      | Some config =>
          if decide (ac_ID config ∈ seenIDs) then Err ErrUnsupportedSSH
          else ssh_loop l ({[ac_ID config]} ∪ seenIDs) (agentConfigs ++ [config])
      end
  end.

Definition extractSSHAgentConfigs (l : list string) : res (list AgentConfig) := ssh_loop l ∅ [].

(** ** Maps *)

Fixpoint contexts_loop (l : list string) (contexts : smap) : res smap :=
  match l with
  | [] => Ok contexts
  | value :: l =>
      let '(name, source, ok) := Cut value "=" in
      let name := TrimSpace name in
      let source := TrimSpace source in
      if negb ok || bool_decide (name = "") || bool_decide (source = "") then Err ErrInvalidBuildContext
      else contexts_loop l (<[name := source]> contexts)
  end.
Definition extractBuildContexts (l : list string) : res smap := contexts_loop l ∅.

Definition extractStringMap (l : list string) : smap :=
  foldl (λ result value, let '(key, mappedValue, _) := Cut value "=" in <[key := mappedValue]> result) ∅ l.

Fixpoint base64_loop (l : list string) (result : gmap string bytes) : res (gmap string bytes) :=
  match l with
  | [] => Ok result
  | value :: l =>
      let '(key, encoded, found) := Cut value "=" in
      if found then decoded ← StdDecodeString encoded; base64_loop l (<[key := decoded]> result)
      else base64_loop l (<[key := []]> result)
  end.
Definition extractBase64Map (l : list string) : res (gmap string bytes) := base64_loop l ∅.

(** ** The Dockerfile and its ignore file *)

Definition decodeDockerfileInputs (m : metadata) : res (bytes * bytes) :=
  match firstMetadataValue m KeyDockerfile with
  | None => Err ErrMissingContextDockerfile
  | Some encodedDockerfile =>
      dockerfile ← StdDecodeString encodedDockerfile;
      match firstMetadataValue m KeyDockerignore with
      | None => Ok (dockerfile, bytes_of DockerfileStaging)
      | Some encodedIgnore =>
          dockerignore ← StdDecodeString encodedIgnore;
          Ok (dockerfile, dockerignore ++ byte 10 :: bytes_of DockerfileStaging)
      end
  end.

Definition parseProgress (m : metadata) : res string :=
  match firstMetadataValue m KeyProgress with
  | None => Ok "auto"
  | Some progress =>
      if bool_decide (progress ∈ ["auto"; "tty"; "plain"]) then Ok progress else Err ErrInvalidProgress
  end.

Section libs.
Context {BL : BuildLibs}.

Definition normalizedNetworkMode (value : string) : res string :=
  let mode := ToLower unicode_lower (TrimSpace value) in
  if bool_decide (mode ∈ [""; "default"]) then Ok ""
  else if bool_decide (mode ∈ ["none"; "host"; "sandbox"]) then Ok mode
  else Err ErrInvalidNetworkMode.

(** ** Entitlements *)

Fixpoint entitlements_loop (l : list string) (seen : gset string) (result : list string) : res (list string) :=
  match l with
  | [] => Ok result
  | raw :: l =>
      let value := TrimSpace raw in
      if bool_decide (value = "") then entitlements_loop l seen result
      else
        match entitlements_Parse value with
        | Err e => Err e
        | Ok _ =>
            if decide (value ∈ seen) then entitlements_loop l seen result
            else entitlements_loop l ({[value]} ∪ seen) (result ++ [value])
        end
  end.

Definition implied (network : string) (privileged : bool) : list string :=
  (if bool_decide (network = "host") then [EntitlementNetworkHost] else []) ++
  (if privileged then [EntitlementSecurityInsecure] else []).

Definition extractEntitlements (l : list string) (network : string) (privileged : bool) : res (list string) :=
  entitlements_loop (l ++ implied network privileged) ∅ [].

(** ** Attestations: the two metadata keys are visited in the order [keys] of the Go map *)

Definition attestation_keys : list (string * string) :=
  [(KeyAttestProvenance, KeyFrontendAttestProvenance); (KeyAttestSBOM, KeyFrontendAttestSBOM)].

Definition attestation_values (keys : list (string * string)) (m : metadata) : smap :=
  foldl (λ acc k, match last (values m k.1) with Some v => <[k.2 := v]> acc | None => acc end) ∅ keys.

Definition extractAttestations (keys : list (string * string)) (m : metadata) : res smap :=
  let vals := attestation_values keys m in
  if bool_decide (vals = ∅) then Ok ∅ else _ ← attestations_Parse vals; Ok vals.

Definition parseTargetPlatforms (l : list string) : res (list Platform) :=
  match l with [] => Ok [DefaultSpec] | _ => res_map platforms_Parse l end.

(** ** The features *)

Record parsedBuildFeatures := {
  pf_noCache : option string;
  pf_labels : smap;
  pf_buildArgs : smap;
  pf_buildContexts : smap;
  pf_secrets : gmap string bytes;
  pf_ssh : list AgentConfig;
  pf_entitlements : list string;
  pf_attestations : smap;
  pf_network : string;
}.

Definition parseBuildFeatures (keys : list (string * string)) (m : metadata) : res parsedBuildFeatures :=
  buildContexts ← extractBuildContexts (values m KeyBuildContexts);
  secrets ← extractBase64Map (values m KeySecrets);
  ssh ← extractSSHAgentConfigs (values m KeySSH);
  network ← normalizedNetworkMode (lastMetadataValue (values m KeyNetwork));
  entitlementValues ← extractEntitlements (values m KeyEntitlements) network (hasMetadataFlag m KeyPrivileged);
  attestations ← extractAttestations keys m;
  Ok {| pf_noCache := lastMetadataValue <$> m !! KeyNoCache;
        pf_labels := extractStringMap (values m KeyLabels); pf_buildArgs := extractStringMap (values m KeyBuildArgs);
        pf_buildContexts := buildContexts; pf_secrets := secrets; pf_ssh := ssh;
        pf_entitlements := entitlementValues; pf_attestations := attestations; pf_network := network |}.

(** ** Platforms ([utils.BuildPlatforms]) *)

Fixpoint insert_stable {A} (less : A → A → bool) (x : A) (l : list A) : list A :=
  match l with
  | [] => [x]
  | y :: l' => if less y x then y :: insert_stable less x l' else x :: l
  end.
(** [sort.SliceStable] *)
Definition SliceStable {A} (less : A → A → bool) (l : list A) : list A := foldr (insert_stable less) [] l.

Definition linux (arch variant : string) : Platform :=
  {| p_Architecture := arch; p_OS := "linux"; p_OSVersion := ""; p_OSFeatures := []; p_Variant := variant |}.

Definition platform_list : list Platform :=
  [linux "arm64" "v8"; linux "arm" "v7"; linux "arm" "v6"; linux "amd64" ""; linux "mips64" "";
   linux "mips64el" ""; linux "ppc64le" ""; linux "riscv64" ""; linux "s390x" ""].

Fixpoint rank_in (order : list string) (architecture : string) : nat :=
  match order with
  | [] => 0
  | candidate :: order => if bool_decide (architecture = candidate) then 0 else S (rank_in order architecture)
  end.

Definition platformRank (architecture currentArchitecture : string) : nat :=
  let order :=
    if bool_decide (currentArchitecture = "arm64")
    then ["arm64"; "arm"; "amd64"; "mips64"; "mips64el"; "ppc64le"; "riscv64"; "s390x"]
    else ["amd64"; "arm64"; "arm"; "mips64"; "mips64el"; "ppc64le"; "riscv64"; "s390x"] in
  rank_in order architecture.

Definition BuildPlatforms (currentPlatform : Platform) : list Platform :=
  let arch := p_Architecture currentPlatform in
  SliceStable (λ a b,
    if bool_decide (arch ≠ "amd64") && bool_decide (arch ≠ "arm64")
    then string_lt (p_Architecture a) (p_Architecture b)
    else bool_decide (platformRank (p_Architecture a) arch < platformRank (p_Architecture b) arch)) platform_list.

(** ** The request *)

Record parsedBuildRequest := {
  pr_buildID : string; pr_tag : string; pr_contextDir : string; pr_target : string; pr_progress : string;
  pr_dockerfile : bytes; pr_dockerignore : bytes;
  pr_buildPlatforms : list Platform; pr_platforms : list Platform;
  pr_features : parsedBuildFeatures;
  pr_check : bool;
}.

(** The value of a key that must be present. *)
Definition required (m : metadata) (key : string) (e : error) : res string :=
  match firstMetadataValue m key with Some v => Ok v | None => Err e end.

Definition parseBuildRequest (keys : list (string * string)) (m : metadata) : res parsedBuildRequest :=
  buildID ← required m KeyBuildID ErrMissingBuildID;
  tag ← required m KeyTag ErrMissingContextRef;
  inputs ← decodeDockerfileInputs m;
  progress ← parseProgress m;
  platformValues ← parseTargetPlatforms (values m KeyPlatforms);
  features ← parseBuildFeatures keys m;
  let buildPlatforms := match BuildPlatforms DefaultSpec with [] => [DefaultSpec] | l => l end in
  let contextDir := default "" (firstMetadataValue m KeyContext) in
  Ok {| pr_buildID := buildID; pr_tag := tag;
        pr_contextDir := if bool_decide (contextDir = "") then "." else contextDir;
        pr_target := default "" (firstMetadataValue m KeyTarget); pr_progress := progress;
        pr_dockerfile := inputs.1; pr_dockerignore := inputs.2;
        pr_buildPlatforms := buildPlatforms; pr_platforms := platformValues; pr_features := features;
        pr_check := bool_decide (is_Some (firstMetadataValue m KeyCheck)) |}.

(** ** The services *)

Definition backslash : ascii := byte 92.

(** The arguments before the first [FROM]; the map is the request's own, updated in place. *)
Fixpoint metaArgs_loop (args : list (string * string)) (buildArgs : smap) : res smap :=
  match args with
  | [] => Ok buildArgs
  | (key, value) :: args =>
      if decide (is_Some (buildArgs !! key)) then metaArgs_loop args buildArgs
      else resolved ← ProcessWordWithMatches backslash value (NewMapGetter buildArgs); metaArgs_loop args (<[key := resolved]> buildArgs)
  end.
Definition applyDockerfileMetaArgs (metaArgs : list ArgCommand) (buildArgs : smap) : res smap :=
  metaArgs_loop (concat metaArgs) buildArgs.

Definition runMountGlobs (node : Node) : res (list string) :=
  match ParseInstruction node with
  | Err _ | Ok None => Ok []
  | Ok (Some runCommand) =>
      runCommand ← Expand (λ word, Ok (Clean (TrimPrefix word "/"))) runCommand;
      Ok (m_Source <$> filter (λ mount, m_Type mount = "bind" ∧ m_Source mount ≠ "" ∧ m_From mount = "") (GetMounts runCommand))
  end.

(** [None] is the nil dereference of a [COPY] or [ADD] node without a next node. *)
Fixpoint dockerfileAddedGlobs (nodes : list Node) : option (res (list string)) :=
  match nodes with
  | [] => Some (Ok [])
  | node :: nodes =>
      let copy := EqualFold (node_Value node) "COPY" || EqualFold (node_Value node) "ADD" in
      match (if copy then (λ s, [s]) <$> node_Next node else Some []) with
      | None => None
      | Some globs =>
          match (if EqualFold (node_Value node) "RUN" then runMountGlobs node else Ok []) with
          | Err e => Some (Err e)
          | Ok mountGlobs =>
              match dockerfileAddedGlobs nodes with
              | Some (Ok rest) => Some (Ok (globs ++ mountGlobs ++ rest))
              | r => r
              end
          end
      end
  end.

(** A printer of BuildKit: its output and its mode. *)
Record Writer := { w_out : StdioProxy; w_mode : string }.

(** The proxies of the content store and of the resolver have no state but their stage. *)
Record ContentStoreProxy := content_proxy { }.
Record ResolverProxy := resolver_proxy { }.
Definition NewContentStoreProxy : res ContentStoreProxy := Ok content_proxy.
Definition NewResolverProxy : ResolverProxy := resolver_proxy.

Record buildServices := {
  bs_stdio : StdioProxy;
  bs_progress : Writer;
  bs_fssync : FSSyncProxy;
  bs_content : ContentStoreProxy;
}.

(** The services, and the build arguments with the Dockerfile's defaults: the map of the
    request is updated in place. *)
Definition createBuildServices (basePath : string) (request : parsedBuildRequest) : option (res (buildServices * smap)) :=
  match
    stdioProxy ← NewStdioProxy NewPty (bool_decide (pr_progress request = "tty"));
    dockerfile ← parser_Parse (pr_dockerfile request);
    parsed ← instructions_Parse dockerfile.2;
    buildArgs ← applyDockerfileMetaArgs parsed.2 (pf_buildArgs (pr_features request));
    match NewPrinter stdioProxy (pr_progress request) with
    | Some e => Err e
    | None => Ok (stdioProxy, {| w_out := stdioProxy; w_mode := pr_progress request |}, dockerfile.2, buildArgs)
    end
  with
  | Err e => Some (Err e)
  | Ok (stdioProxy, progress, dockerfile, buildArgs) =>
      match dockerfileAddedGlobs dockerfile with
      | None => None
      | Some (Err e) => Some (Err e)
      | Some (Ok addedGlobs) =>
          let fssyncProxy := NewFSSyncProxy "." basePath addedGlobs (pr_dockerfile request) (pr_dockerignore request) in
          Some (contentProxy ← NewContentStoreProxy;
                Ok ({| bs_stdio := stdioProxy; bs_progress := progress; bs_fssync := fssyncProxy; bs_content := contentProxy |}, buildArgs))
      end
  end.

Record BOpts := {
  BuildID : string;
  Dockerfile : bytes;
  Dockerignore : bytes;
  Tag : string;
  ContextDir : string;
  BOBuildPlatforms : list Platform;
  Platforms : list Platform;
  NoCache : option string;
  Target : string;
  BuildArgs : smap;
  BuildContexts : smap;
  Secrets : gmap string bytes;
  SSH : list AgentConfig;
  Entitlements : list string;
  Attestations : smap;
  AddHosts : list string;
  Network : string;
  ShmSize : string;
  Ulimits : list string;
  CacheIn : list string;
  CacheOut : list string;
  Outputs : list string;
  Labels : smap;
  CheckOnly : bool;
  ProgressWriter : option Writer;
  ContentStore : ContentStoreProxy;
  Resolver : ResolverProxy;
  FSSync : FSSyncProxy;
  BOStdio : StdioProxy;
  bo_basePath : string;
}.

Definition NewBuildOpts (keys : list (string * string)) (base : string) (m : metadata) : option (res BOpts) :=
  match parseBuildRequest keys m with
  | Err e => Some (Err e)
  | Ok request =>
      match createBuildServices base request with
      | None => None
      | Some (Err e) => Some (Err e)
      | Some (Ok (services, buildArgs)) =>
          let f := pr_features request in
          Some (Ok {| BuildID := pr_buildID request; Dockerfile := pr_dockerfile request; Dockerignore := pr_dockerignore request;
            Tag := pr_tag request; ContextDir := pr_contextDir request; BOBuildPlatforms := pr_buildPlatforms request;
            Platforms := pr_platforms request; NoCache := pf_noCache f; Target := pr_target request; BuildArgs := buildArgs;
            BuildContexts := pf_buildContexts f; Secrets := pf_secrets f; SSH := pf_ssh f; Entitlements := pf_entitlements f;
            Attestations := pf_attestations f; AddHosts := values m KeyAddHosts; Network := pf_network f;
            ShmSize := lastMetadataValue (values m KeyShmSize); Ulimits := values m KeyUlimit; CacheIn := values m KeyCacheIn;
            CacheOut := values m KeyCacheOut; Outputs := values m KeyOutput; Labels := pf_labels f; CheckOnly := pr_check request;
            ProgressWriter := Some (bs_progress services); ContentStore := bs_content services; Resolver := NewResolverProxy;
            FSSync := bs_fssync services; BOStdio := bs_stdio services; bo_basePath := path_Join [base; pr_buildID request] |})
      end
  end.

(** ** Frontend attributes *)

Definition opt_attr (c : bool) (k v : string) (m : smap) : smap := if c then <[k := v]> m else m.

Definition context_attrs (contexts : smap) (m : smap) : smap :=
  map_fold (λ name source m, <["context:" +:+ name := source]> m) m contexts.

Definition dockerfileFrontendAttrs (b : BOpts) : smap :=
  match NoCache b with Some v => <["no-cache" := v]> | None => id end
  (opt_attr (bool_decide (Ulimits b ≠ [])) "ulimit" (Join "," (Ulimits b))
  (opt_attr (bool_decide (ShmSize b ≠ "")) "shm-size" (ShmSize b)
  (opt_attr (bool_decide (Network b ≠ "")) "force-network-mode" (Network b)
  (opt_attr (bool_decide (AddHosts b ≠ [])) "add-hosts" (Join "," (AddHosts b))
  (context_attrs (BuildContexts b) {[ "filename" := DockerfilePath ]}))))).
End libs.

(** ** The options in a context *)

(** What [ctx.Value(keyBOpts)] can be: nothing, the options, or a value of another type. *)
Inductive ctx_value := NoValue | BOptsValue (b : BOpts) | OtherValue.

Definition ErrMissingContext : error := Sentinel "context missing".
Definition ErrTypeAssertionFail : error := Sentinel "type assertion failed".

Definition BOpts_Context (b : BOpts) (parent : ctx_value) : ctx_value := BOptsValue b.

Definition newBOptsFromContext (ctx : ctx_value) : res BOpts :=
  match ctx with
  | NoValue => Err ErrMissingContext
  | BOptsValue b => Ok b
  | OtherValue => Err ErrTypeAssertionFail
  end.

(** ** SSH agents *)

Lemma ssh_loop_spec l seen acc :
  match ssh_loop l seen acc with
  | Ok r => ∃ cfgs, r = acc ++ cfgs ∧ Forall2 (λ v c, ssh_agent v = Some c) l cfgs ∧ NoDup (ac_ID <$> cfgs) ∧
              Forall (λ c, ac_ID c ∉ seen) cfgs
  | Err e => e = ErrUnsupportedSSH ∧
              ¬ ∃ cfgs, Forall2 (λ v c, ssh_agent v = Some c) l cfgs ∧ NoDup (ac_ID <$> cfgs) ∧ Forall (λ c, ac_ID c ∉ seen) cfgs
  end.
Proof.
  revert seen acc. induction l as [|v l IH]; intros seen acc; simpl.
  { exists []. rewrite app_nil_r. repeat split; constructor. }
  destruct (ssh_agent v) as [c|] eqn:Ev.
  2: { split; [done|]. intros (cfgs & HF & _). inversion HF; congruence. }
  destruct (decide (ac_ID c ∈ seen)) as [Hin|Hnin].
  { split; [done|]. intros (cfgs & HF & _ & Hs). inversion HF as [|? c' ? ? Hc]; subst.
    rewrite Ev in Hc. injection Hc as <-. apply Forall_cons in Hs as [? _]. done. }
  assert (Heq : ∀ cs, NoDup (ac_ID <$> c :: cs) ∧ Forall (λ c, ac_ID c ∉ seen) (c :: cs) ↔
    NoDup (ac_ID <$> cs) ∧ Forall (λ c', ac_ID c' ∉ {[ac_ID c]} ∪ seen) cs).
  { intros cs. rewrite fmap_cons, NoDup_cons, Forall_cons, !Forall_forall. setoid_rewrite not_elem_of_union.
    setoid_rewrite not_elem_of_singleton. rewrite list_elem_of_fmap. naive_solver. }
  specialize (IH ({[ac_ID c]} ∪ seen) (acc ++ [c])). destruct (ssh_loop l _ _) as [r|e].
  - destruct IH as (cs & -> & HF & Hrest). exists (c :: cs). rewrite <-app_assoc. split; [done|].
    split; [by constructor|]. by apply Heq.
  - destruct IH as [-> Hno]. split; [done|]. intros (cfgs & HF & Hrest).
    inversion HF as [|? c' ? cs Hc HF']; subst. rewrite Ev in Hc. injection Hc as <-. apply Hno. exists cs. split; [done|]. by apply Heq.
Qed.

(** A path the shim accepts: a socket file directly in the forwarding directory. *)
Definition forwarded_socket (path : string) : Prop :=
  ∃ name, path = socketDirectory +:+ name ∧ contains_byte slash name = false ∧
          HasPrefix name "ssh-auth" = true ∧ HasSuffix name ".sock" = true.

Lemma isForwarded_socket path : isForwardedSSHSocketPath path = true ↔ forwarded_socket path.
Proof.
  unfold isForwardedSSHSocketPath, forwarded_socket. destruct (HasPrefix path socketDirectory) eqn:Hp.
  - apply HasPrefix_spec in Hp as [name ->]. rewrite TrimPrefix_app. change "/" with (String slash "").
    rewrite Contains_byte. split.
    + case_bool_decide; simpl; [done|]. destruct (contains_byte slash name) eqn:Hc; [done|].
      intros [? ?]%andb_true_iff. by exists name.
    + intros (name' & E & Hc & H1 & H2). apply (f_equal (drop_prefix socketDirectory)) in E.
      rewrite !(proj2 (drop_prefix_Some _ _ _) eq_refl) in E. injection E as <-.
      rewrite bool_decide_false by (intros ->; done). by rewrite Hc, H1, H2.
  - split; [done|]. intros (name & -> & _). assert (HasPrefix (socketDirectory +:+ name) socketDirectory = true) by (apply HasPrefix_spec; by eexists). congruence.
Qed.

Lemma ssh_agent_shape v c : ssh_agent v = Some c →
  (ac_ID c = "default" ∧ ac_Paths c = []) ∨ (ac_ID c ≠ "" ∧ ∃ path, ac_Paths c = [path] ∧ forwarded_socket path).
Proof.
  unfold ssh_agent. case_bool_decide; [intros [= <-]; by left|].
  destruct (Cut _ _) as [[id path] hasPath]. destruct hasPath; [|done]. simpl. case_bool_decide; [done|]. simpl.
  destruct (isForwardedSSHSocketPath _) eqn:E; [|done]. intros [= <-]. right. split; [done|].
  eexists. split; [done|]. by apply isForwarded_socket.
Qed.

(** C33. The [ssh] values of a request are accepted exactly when each names an agent and no two
    have the same id; the agents are then in the order of the values, and each is the default
    agent or one socket directly in the host's forwarding directory, so no other path of the
    builder can be named.  Everything else is [ErrUnsupportedSSH]. *)
Theorem extractSSHAgentConfigs_spec l :
  match extractSSHAgentConfigs l with
  | Ok cfgs => Forall2 (λ v c, ssh_agent v = Some c) l cfgs ∧ NoDup (ac_ID <$> cfgs) ∧
      Forall (λ c, (ac_ID c = "default" ∧ ac_Paths c = []) ∨
                   (ac_ID c ≠ "" ∧ ∃ path, ac_Paths c = [path] ∧ forwarded_socket path)) cfgs
  | Err e => e = ErrUnsupportedSSH ∧
      ¬ ∃ cfgs, Forall2 (λ v c, ssh_agent v = Some c) l cfgs ∧ NoDup (ac_ID <$> cfgs)
  end.
Proof.
  unfold extractSSHAgentConfigs. pose proof (ssh_loop_spec l ∅ []) as H. destruct (ssh_loop l ∅ []) as [r|e].
  - destruct H as (cfgs & -> & HF & Hnd & _). simpl. split_and!; [done|done|].
    clear Hnd. induction HF as [|v c l cs Hv HF IH]; constructor; [by eapply ssh_agent_shape|done].
  - destruct H as [-> Hno]. split; [done|]. intros (cfgs & HF & Hnd). apply Hno. exists cfgs.
    split_and!; try done. apply Forall_forall. set_solver.
Qed.

(** ** Entitlements *)

Section entitlements.
Context {BL : BuildLibs}.

Definition allowed (raw : string) : Prop := TrimSpace raw = "" ∨ entitlements_Parse (TrimSpace raw) = Ok tt.

Lemma entitlements_loop_spec l seen acc : (∀ x, x ∈ acc → x ∈ seen) → (∀ x, x ∈ seen → x ∈ acc) → NoDup acc →
  match entitlements_loop l seen acc with
  | Ok r => NoDup r ∧ Forall allowed l ∧ ∀ x, x ∈ r ↔ x ∈ acc ∨ (x ≠ "" ∧ x ∈ TrimSpace <$> l)
  | Err e => ∃ pre raw post, l = pre ++ raw :: post ∧ Forall allowed pre ∧ TrimSpace raw ≠ "" ∧ entitlements_Parse (TrimSpace raw) = Err e
  end.
Proof.
  revert seen acc. induction l as [|raw l IH]; intros seen acc H1 H2 Hnd; simpl.
  { split; [done|]. split; [done|]. set_solver. }
  assert (Hstep : ∀ seen' acc', (∀ x, x ∈ acc' → x ∈ seen') → (∀ x, x ∈ seen' → x ∈ acc') → NoDup acc' → allowed raw →
    (∀ x, x ∈ acc' ↔ x ∈ acc ∨ (x ≠ "" ∧ x = TrimSpace raw)) →
    match entitlements_loop l seen' acc' with
    | Ok r => NoDup r ∧ Forall allowed (raw :: l) ∧ ∀ x, x ∈ r ↔ x ∈ acc ∨ (x ≠ "" ∧ x ∈ TrimSpace raw :: (TrimSpace <$> l))
    | Err e => ∃ pre v post, raw :: l = pre ++ v :: post ∧ Forall allowed pre ∧ TrimSpace v ≠ "" ∧ entitlements_Parse (TrimSpace v) = Err e
    end).
  { intros seen' acc' S1 S2 S3 Ha Hacc. specialize (IH seen' acc' S1 S2 S3). destruct (entitlements_loop l seen' acc') as [r|e].
    - destruct IH as (? & ? & Hr). split; [done|]. split; [by constructor|]. intros x. rewrite Hr, Hacc, elem_of_cons. naive_solver.
    - destruct IH as (pre & v & post & -> & Hpre & Hv). exists (raw :: pre), v, post. split; [done|]. split; [by constructor|done]. }
  case_bool_decide as Hz; [apply Hstep; try done; [by left|]; rewrite Hz; naive_solver|].
  destruct (entitlements_Parse (TrimSpace raw)) as [[]|e] eqn:Hp; [|by exists [], raw, l].
  destruct (decide (TrimSpace raw ∈ seen)) as [Hin|Hnin]; apply Hstep; try done; try by right.
  - intros x. split; [by left|]. intros [?|[_ ->]]; [done|by apply H2].
  - intros x. rewrite elem_of_app, list_elem_of_singleton. set_solver.
  - intros x. rewrite elem_of_app, list_elem_of_singleton. set_solver.
  - apply NoDup_app. split; [done|]. split; [|apply NoDup_singleton].
    intros x Hx Hs. apply list_elem_of_singleton in Hs as ->. by apply Hnin, H1.
  - intros x. rewrite elem_of_app, list_elem_of_singleton. naive_solver.
Qed.

Lemma implied_members network privileged x : x ∈ TrimSpace <$> implied network privileged ↔
  (network = "host" ∧ x = EntitlementNetworkHost) ∨ (privileged = true ∧ x = EntitlementSecurityInsecure).
Proof.
  unfold implied. rewrite fmap_app, elem_of_app. case_bool_decide; destruct privileged; simpl;
    rewrite ?list_elem_of_singleton, ?elem_of_nil; naive_solver.
Qed.

(** The granted entitlements. *)
Lemma entitlements_members l network privileged r : extractEntitlements l network privileged = Ok r →
  NoDup r ∧ Forall allowed (l ++ implied network privileged) ∧
  ∀ x, x ∈ r ↔ (x ≠ "" ∧ x ∈ TrimSpace <$> l) ∨ (network = "host" ∧ x = EntitlementNetworkHost) ∨
               (privileged = true ∧ x = EntitlementSecurityInsecure).
Proof.
  unfold extractEntitlements. intros Hl. pose proof (entitlements_loop_spec (l ++ implied network privileged) ∅ []) as H.
  specialize (H ltac:(set_solver) ltac:(set_solver) ltac:(constructor)). rewrite Hl in H.
  destruct H as (Hnd & Hall & Hr). split_and!; [done|done|]. intros x. rewrite Hr, fmap_app, elem_of_app, implied_members, elem_of_nil.
  unfold EntitlementNetworkHost, EntitlementSecurityInsecure. naive_solver.
Qed.

(** The entitlements a build is granted are, without repetition, exactly the trimmed
    nonempty values of the request and those its host network or its privileged flag imply,
    all of them accepted by BuildKit's parser; a request with a value the parser refuses is
    refused with the parser's error for the first such value. *)
Theorem extractEntitlements_spec l network privileged :
  match extractEntitlements l network privileged with
  | Ok r => NoDup r ∧ Forall allowed (l ++ implied network privileged) ∧
      (∀ x, x ∈ r ↔ (x ≠ "" ∧ x ∈ TrimSpace <$> l) ∨ (network = "host" ∧ x = EntitlementNetworkHost) ∨
                    (privileged = true ∧ x = EntitlementSecurityInsecure))
  | Err e => ∃ pre raw post, l ++ implied network privileged = pre ++ raw :: post ∧ Forall allowed pre ∧
      TrimSpace raw ≠ "" ∧ entitlements_Parse (TrimSpace raw) = Err e
  end.
Proof.
  destruct (extractEntitlements l network privileged) as [r|e] eqn:E; [by apply entitlements_members|].
  pose proof (entitlements_loop_spec (l ++ implied network privileged) ∅ []) as H.
  unfold extractEntitlements in E. rewrite E in H. apply H; [set_solver|set_solver|constructor].
Qed.
End entitlements.

(** ** What a parsed request guarantees *)

Section wellformed.
Context {BL : BuildLibs}.

Lemma metaArgs_keep args buildArgs r : metaArgs_loop args buildArgs = Ok r →
  buildArgs ⊆ r ∧ Forall (λ a, is_Some (r !! a.1)) args.
Proof.
  revert buildArgs. induction args as [|[k v] args IH]; intros ba; simpl; [by intros [= <-]|].
  destruct (decide (is_Some (ba !! k))) as [Hk|Hk].
  - intros H. destruct (IH _ H) as [Hs HF]. split; [done|]. constructor; [|done]. simpl.
    destruct Hk as [x Hx]. exists x. by eapply lookup_weaken.
  - intros (x & _ & H)%result_bind_ok. destruct (IH _ H) as [Hs HF]. split.
    + etrans; [|exact Hs]. apply insert_subseteq. by apply eq_None_not_Some.
    + constructor; [|done]. exists x. eapply lookup_weaken; [apply lookup_insert_eq|done].
Qed.

Lemma normalized_mode v mode : normalizedNetworkMode v = Ok mode → mode ∈ [""; "none"; "host"; "sandbox"].
Proof. unfold normalizedNetworkMode. repeat case_bool_decide; intros [= <-]; set_solver. Qed.

Lemma parseTargetPlatforms_nonempty l r : parseTargetPlatforms l = Ok r → r ≠ [].
Proof.
  destruct l; [by intros [= <-]|]. intros H%res_map_ok ->. inversion H.
Qed.

(** The lines of a file. *)
Definition lines_of (b : bytes) : list string := Split (byte 10) (string_of b).

Lemma Split_app_any c x s : Split c (x +:+ String c s) = Split c x ++ Split c s.
Proof.
  induction x as [|a x IH]; simpl; [by rewrite decide_True|]. case_decide; [by rewrite IH|]. rewrite IH.
  destruct (Split c x) as [|h t] eqn:E; [by apply Split_not_nil in E|done].
Qed.

Lemma string_of_app a b : string_of (a ++ b) = string_of a +:+ string_of b.
Proof.
  induction a as [|x a IH]; [done|]. change (String x (string_of (a ++ b)) = String x (string_of a +:+ string_of b)). by rewrite IH.
Qed.

Lemma lines_append d : lines_of (d ++ byte 10 :: bytes_of DockerfileStaging) = lines_of d ++ [DockerfileStaging].
Proof.
  unfold lines_of. rewrite string_of_app.
  change (string_of (byte 10 :: bytes_of DockerfileStaging)) with (String (byte 10) (string_of (bytes_of DockerfileStaging))).
  rewrite string_of_bytes_of, Split_app_any. f_equal.
Qed.

(** The ignore file of the request, line by line, and the staging directory as a line of its own. *)
Definition ignores_staging (m : metadata) (i : bytes) : Prop :=
  match firstMetadataValue m KeyDockerignore with
  | None => lines_of i = [DockerfileStaging]
  | Some encodedIgnore => ∃ d, StdDecodeString encodedIgnore = Ok d ∧ lines_of i = lines_of d ++ [DockerfileStaging]
  end.

Lemma decoded_ignore m d i : decodeDockerfileInputs m = Ok (d, i) → ignores_staging m i.
Proof.
  unfold decodeDockerfileInputs, ignores_staging. destruct (firstMetadataValue m KeyDockerfile); [|done].
  intros (d' & _ & H)%result_bind_ok. destruct (firstMetadataValue m KeyDockerignore) as [e|].
  - apply result_bind_ok in H as (ig & Hig & [= <- <-]). exists ig. split; [done|apply lines_append].
  - injection H as <- <-. reflexivity.
Qed.

Record opts_wf (m : metadata) (o : BOpts) : Prop := {
  wf_id : firstMetadataValue m KeyBuildID = Some (BuildID o);
  wf_tag : firstMetadataValue m KeyTag = Some (Tag o);
  wf_platforms : Platforms o ≠ [];
  wf_build_platforms : BOBuildPlatforms o ≠ [];
  wf_context : ContextDir o ≠ "";
  wf_network : Network o ∈ [""; "none"; "host"; "sandbox"];
  wf_host : Network o = "host" → EntitlementNetworkHost ∈ Entitlements o;
  wf_privileged : is_Some (m !! KeyPrivileged) → EntitlementSecurityInsecure ∈ Entitlements o;
  wf_entitlements : NoDup (Entitlements o);
  wf_ssh : NoDup (ac_ID <$> SSH o);
  wf_args : extractStringMap (values m KeyBuildArgs) ⊆ BuildArgs o;
  wf_ignore : ignores_staging m (Dockerignore o);
  wf_fssync : dockerfile (FSSync o) = Dockerfile o ∧ dockerignore (FSSync o) = Dockerignore o;
}.

(** C14. Whatever the metadata, a request that [NewBuildOpts] accepts is well formed: its id and
    tag are the first values of their keys, there is a target and a build platform (the
    frontend indexes both lists at 0), the network mode is one BuildKit knows, host network
    and privileged builds hold their entitlement, SSH ids are distinct, no [ARG] default of the
    Dockerfile replaced a build argument of the request, the lines of the ignore file are those
    of the request's (if it has one) followed by the name of the staging directory as a line of
    its own, and the file synchronisation serves the same Dockerfile and ignore file. *)
Theorem NewBuildOpts_wf keys base m o : NewBuildOpts keys base m = Some (Ok o) → opts_wf m o.
Proof.
  unfold NewBuildOpts. destruct (parseBuildRequest keys m) as [r|] eqn:Hr; [|done].
  destruct (createBuildServices base r) as [[[sv ba]|]|] eqn:Hs; [|done..]. intros [= <-].
  unfold parseBuildRequest in Hr.
  apply result_bind_ok in Hr as (id & Hid & Hr). apply result_bind_ok in Hr as (tag & Htag & Hr).
  apply result_bind_ok in Hr as ([d ig] & Hin & Hr). apply result_bind_ok in Hr as (pg & _ & Hr).
  apply result_bind_ok in Hr as (pls & Hpls & Hr). apply result_bind_ok in Hr as (f & Hf & Hr).
  injection Hr as <-. unfold parseBuildFeatures in Hf.
  apply result_bind_ok in Hf as (cx & _ & Hf). apply result_bind_ok in Hf as (sec & _ & Hf).
  apply result_bind_ok in Hf as (ssh & Hssh & Hf). apply result_bind_ok in Hf as (net & Hnet & Hf).
  apply result_bind_ok in Hf as (ent & Hent & Hf). apply result_bind_ok in Hf as (att & _ & Hf). injection Hf as <-.
  unfold createBuildServices in Hs. cbn [pr_features pf_buildArgs pr_dockerfile pr_dockerignore pr_progress] in Hs.
  match type of Hs with match ?x with _ => _ end = _ => destruct x as [[[[io pw] nodes] ba']|] eqn:Hx; [|done] end.
  destruct (dockerfileAddedGlobs nodes) as [[gl|]|]; [|done..]. injection Hs as <- <-.
  apply result_bind_ok in Hx as (io' & _ & Hx). apply result_bind_ok in Hx as (ns & _ & Hx).
  apply result_bind_ok in Hx as (ma & _ & Hx). apply result_bind_ok in Hx as (ba & Hba & Hx).
  destruct (NewPrinter io' pg); [done|]. injection Hx as -> <- <- ->.
  pose proof (ssh_loop_spec (values m KeySSH) ∅ []) as Hsh. unfold extractSSHAgentConfigs in Hssh. rewrite Hssh in Hsh.
  destruct Hsh as (cfgs & -> & _ & Hsh & _). destruct (entitlements_members _ _ _ _ Hent) as (He1 & _ & He2).
  split; cbn -[BuildPlatforms].
  - unfold required in Hid. destruct (firstMetadataValue m KeyBuildID); by simplify_eq.
  - unfold required in Htag. destruct (firstMetadataValue m KeyTag); by simplify_eq.
  - by eapply parseTargetPlatforms_nonempty.
  - by destruct (BuildPlatforms DefaultSpec).
  - by case_bool_decide.
  - by eapply normalized_mode.
  - intros ->. apply He2. by right; left.
  - intros Hp. apply He2. right; right. split; [by apply bool_decide_eq_true|done].
  - done.
  - exact Hsh.
  - by eapply metaArgs_keep.
  - by eapply decoded_ignore.
  - done.
Qed.
End wellformed.

(** ** Base64 *)

(** [base64.StdEncoding.EncodeToString], what the host sends. *)
Definition b64_char (n : N) : ascii :=
  if bool_decide (n < 26)%N then byte (n + 65)
  else if bool_decide (n < 52)%N then byte (n + 71)
  else if bool_decide (n < 62)%N then byte (n - 4)
  else if bool_decide (n = 62)%N then byte 43 else byte 47.

Fixpoint b64_encode (l : bytes) : bytes :=
  match l with
  | a :: b :: c :: l =>
      let '(x, y, z) := (N_of_ascii a, N_of_ascii b, N_of_ascii c) in
      b64_char (x / 4) :: b64_char (x mod 4 * 16 + y / 16) :: b64_char (y mod 16 * 4 + z / 64) :: b64_char (z mod 64) :: b64_encode l
  | [a; b] =>
      let '(x, y) := (N_of_ascii a, N_of_ascii b) in
      [b64_char (x / 4); b64_char (x mod 4 * 16 + y / 16); b64_char (y mod 16 * 4); "="%char]
  | [a] => let x := N_of_ascii a in [b64_char (x / 4); b64_char (x mod 4 * 16); "="%char; "="%char]
  | [] => []
  end.
Definition StdEncodeToString (l : bytes) : string := string_of (b64_encode l).

Lemma b64_char_spec n : (n < 64)%N → b64_val (b64_char n) = Some n ∧ b64_char n ≠ byte 10 ∧ b64_char n ≠ byte 13.
Proof.
  intros Hn.
  assert (H : bool_decide (b64_val (b64_char n) = Some n) && bool_decide (b64_char n ≠ byte 10) && bool_decide (b64_char n ≠ byte 13) = true).
  { revert n Hn. apply (forall_N_below _ 64). vm_compute. reflexivity. }
  apply andb_true_iff in H as [[H1 H2]%andb_true_iff H3]. by rewrite !bool_decide_eq_true in *.
Qed.

Lemma byte_eq a n : n = N_of_ascii a → byte n = a.
Proof. intros ->. apply byte_N_of_ascii. Qed.

Lemma list_ind3 {A} (P : list A → Prop) :
  P [] → (∀ a, P [a]) → (∀ a b, P [a; b]) → (∀ a b c l, P l → P (a :: b :: c :: l)) → ∀ l, P l.
Proof.
  intros H0 H1 H2 H3. fix IH 1. intros [|a [|b [|c l]]]; [apply H0|apply H1|apply H2|]. apply H3, IH.
Qed.

(** The arithmetic of a quantum: four six-bit digits of three bytes, and back. *)
Lemma b64_quantum x y z : (x < 256)%N → (y < 256)%N → (z < 256)%N →
  (x / 4 < 64 ∧ x mod 4 * 16 + y / 16 < 64 ∧ y mod 16 * 4 + z / 64 < 64 ∧ z mod 64 < 64 ∧ x mod 4 * 16 < 64 ∧ y mod 16 * 4 < 64 ∧
   x / 4 * 4 + (x mod 4 * 16 + y / 16) / 16 = x ∧
   (x mod 4 * 16 + y / 16) mod 16 * 16 + (y mod 16 * 4 + z / 64) / 4 = y ∧
   (y mod 16 * 4 + z / 64) mod 4 * 64 + z mod 64 = z)%N.
Proof. intros. split_and!; zify; Z.to_euclidean_division_equations; lia. Qed.

Lemma b64_roundtrip l : b64_decode true (b64_encode l) = Ok l ∧ Forall (λ a, a ≠ byte 10 ∧ a ≠ byte 13) (b64_encode l).
Proof.
  induction l as [|a|a b|a b c l [IH1 IH2]] using list_ind3.
  - by split.
  - pose proof (b64_quantum (N_of_ascii a) 0 0 (N_of_ascii_lt a) ltac:(done) ltac:(done)) as Hq.
    destruct Hq as (Q1 & _ & _ & _ & Q5 & _ & Q7 & _). rewrite N.add_0_r in Q7.
    destruct (b64_char_spec _ Q1) as (V1 & ? & ?), (b64_char_spec _ Q5) as (V2 & ? & ?).
    split; [|by repeat constructor]. simpl. rewrite V1, V2. simpl. f_equal. f_equal. by apply byte_eq.
  - pose proof (b64_quantum (N_of_ascii a) (N_of_ascii b) 0 (N_of_ascii_lt a) (N_of_ascii_lt b) ltac:(done)) as Hq.
    destruct Hq as (Q1 & Q2 & _ & _ & _ & Q6 & Q7 & Q8 & _). rewrite N.add_0_r in Q8.
    destruct (b64_char_spec _ Q1) as (V1 & ? & ?), (b64_char_spec _ Q2) as (V2 & ? & ?), (b64_char_spec _ Q6) as (V3 & ? & ?).
    split; [|by repeat constructor]. simpl. rewrite V1, V2, V3. simpl. f_equal. f_equal; [by apply byte_eq|]. f_equal. by apply byte_eq.
  - pose proof (b64_quantum (N_of_ascii a) (N_of_ascii b) (N_of_ascii c) (N_of_ascii_lt a) (N_of_ascii_lt b) (N_of_ascii_lt c)) as Hq.
    destruct Hq as (Q1 & Q2 & Q3 & Q4 & _ & _ & Q7 & Q8 & Q9).
    destruct (b64_char_spec _ Q1) as (V1 & ? & ?), (b64_char_spec _ Q2) as (V2 & ? & ?),
      (b64_char_spec _ Q3) as (V3 & ? & ?), (b64_char_spec _ Q4) as (V4 & ? & ?).
    split; [|by repeat constructor]. cbn [b64_encode b64_decode]. rewrite V1, V2, V3, V4, IH1. simpl.
    f_equal. f_equal; [by apply byte_eq|]. f_equal; [by apply byte_eq|]. f_equal. by apply byte_eq.
Qed.

Lemma StdDecode_Encode l : StdDecodeString (StdEncodeToString l) = Ok l.
Proof.
  unfold StdDecodeString, StdEncodeToString, b64_strip. rewrite bytes_of_string_of.
  destruct (b64_roundtrip l) as [H1 H2]. rewrite <-H1. f_equal. clear H1.
  induction H2 as [|a k Ha Hk IH]; [done|]. rewrite filter_cons_True by done. by f_equal.
Qed.

(** A host that encodes the Dockerfile, its ignore file and the secrets gets them back
    byte for byte: the decoded ignore file is followed by a line for the staging directory,
    and a secret is bound under the name before the first ["="]. *)
Theorem request_inputs_roundtrip (m : metadata) (file ignore secret : bytes) (name : string) :
  firstMetadataValue m KeyDockerfile = Some (StdEncodeToString file) →
  firstMetadataValue m KeyDockerignore = Some (StdEncodeToString ignore) →
  contains_byte "="%char name = false →
  decodeDockerfileInputs m = Ok (file, ignore ++ byte 10 :: bytes_of DockerfileStaging) ∧
  extractBase64Map [name +:+ "=" +:+ StdEncodeToString secret] = Ok {[ name := secret ]}.
Proof.
  intros H1 H2 Hn. unfold decodeDockerfileInputs. rewrite H1, H2, !StdDecode_Encode. split; [done|].
  unfold extractBase64Map. cbn [base64_loop]. rewrite string_app_cons, string_app_nil_l, Cut_byte_app by done.
  by rewrite StdDecode_Encode.
Qed.

(** ** A request *)

Definition ex_stages : list Stage :=
  [{| s_Name := "build"; s_BaseName := "golang"; s_Platform := ""; s_Commands := [OtherCommand] |};
   {| s_Name := "test"; s_BaseName := "build"; s_Platform := ""; s_Commands := [CopyCommand "tools:latest"; CopyCommand "0"] |};
   {| s_Name := ""; s_BaseName := "scratch"; s_Platform := ""; s_Commands := [CopyCommand "build"; CopyCommand ""] |}].

(** A frontend library whose Dockerfiles are lists of instructions, one node per line. *)
#[export] Instance ex_libs : BuildLibs := {|
  unicode_lower s := s; platforms_Parse s := Ok (linux s ""); DefaultSpec := linux "arm64" "v8";
  entitlements_Parse s := if bool_decide (s ∈ ["network.host"; "security.insecure"]) then Ok tt else Err (Errorf "unknown entitlement %s" [s]);
  attestations_Parse _ := Ok tt; Node := list string; node_Value n := default "" (head n); node_Next n := n !! 1;
  RunCommand := unit; ParseInstruction _ := Ok None; Expand _ r := Ok r; GetMounts _ := [];
  parser_Parse d := Ok (backslash, Split " "%char <$> Split (byte 10) (string_of d)); instructions_Parse _ := Ok (ex_stages, [[("BASE", "alpine"); ("TAG", "3")]]);
  ProcessWordWithMatches _ w _ := Ok w; NewPty := Err (Errno ENOENT); NewPrinter _ _ := None |}.

Definition ex_metadata : metadata :=
  {[ "build-id" := ["b1"]; "tag" := ["app:latest"]; "dockerfile" := [StdEncodeToString (bytes_of ("ARG BASE" +:+ string_of [byte 10] +:+ "copy a b"))];
     "dockerignore" := [StdEncodeToString (bytes_of "*.log")];
     "network" := ["none"; " Host "]; "ssh" := ["default"; "k=/var/host-services/ssh-auth.1.sock"]; "privileged" := [];
     "build-args" := ["TAG=4"]; "entitlements" := [""; " network.host"] ]}.
Definition ex_opts : option (res BOpts) := NewBuildOpts attestation_keys "/var/lib/shim" ex_metadata.

Lemma NewBuildOpts_wf_witness : ∃ o, ex_opts = Some (Ok o) ∧ opts_wf ex_metadata o ∧
  Entitlements o = ["network.host"; "security.insecure"] ∧ addedGlobs (FSSync o) = ["a"] ∧ BuildArgs o !! "TAG" = Some "4".
Proof.
  eexists. split; [vm_compute; reflexivity|]. split; [|split; [|split]; vm_compute; reflexivity].
  apply (NewBuildOpts_wf attestation_keys "/var/lib/shim"). vm_compute. reflexivity.
Defined.

Lemma request_inputs_roundtrip_witness :
  decodeDockerfileInputs ex_metadata = Ok (bytes_of ("ARG BASE" +:+ string_of [byte 10] +:+ "copy a b"),
    bytes_of "*.log" ++ byte 10 :: bytes_of DockerfileStaging) ∧
  extractBase64Map ["token" +:+ "=" +:+ StdEncodeToString (bytes_of "s3cr=t")] = Ok {[ "token" := bytes_of "s3cr=t" ]}.
Proof. apply request_inputs_roundtrip; [vm_compute; reflexivity|vm_compute; reflexivity|reflexivity]. Defined.
