(* ===== verification/BuildOutput.v ===== *)
(** * Exports and solve options ([pkg/build/build.go])

    What a build writes and where, and the request it makes of BuildKit.  The CSV splitter and
    the printer of platforms are parameters; the temporary file that buffers an archive is a
    small state machine of its own. *)

From Stdlib Require Import Ascii.
From S2P Require Import Prelude GoStrings GoPath Api Stdio FsWalk BuildOpts.

(** ** Output specifications *)

Record ExportEntry := {
  ex_Type : string;
  ex_Attrs : smap;
  ex_OutputDir : string;
  ex_Output : option nat;   (* the writer its [Output] function returns *)
}.

Section outputs.
Context {BL : BuildLibs} (csv_Fields : string → res (list string)).

Definition supported (t : string) : bool := bool_decide (t ∈ ["oci"; "tar"; "local"]).

Fixpoint fields_loop (fields : list string) (entry : ExportEntry) : res ExportEntry :=
  match fields with
  | [] => Ok entry
  | field :: fields =>
      let '(key, value, ok) := Cut field "=" in
      if ok then
        let key := ToLower unicode_lower (TrimSpace key) in
        let value := TrimSpace value in
        fields_loop fields
          (if bool_decide (key = "type")
           then {| ex_Type := value; ex_Attrs := ex_Attrs entry; ex_OutputDir := ex_OutputDir entry; ex_Output := ex_Output entry |}
           else {| ex_Type := ex_Type entry; ex_Attrs := <[key := value]> (ex_Attrs entry);
                   ex_OutputDir := ex_OutputDir entry; ex_Output := ex_Output entry |})
      else Err (Errorf "invalid field format: %s (expected key=value)" [field])
  end.

Definition parseOutputCSV (output : string) : res ExportEntry :=
  match csv_Fields output with
  | Err e => Err (Wrapf "failed to parse CSV: %w" [] e)
  | Ok fields =>
      entry ← fields_loop fields {| ex_Type := ""; ex_Attrs := ∅; ex_OutputDir := ""; ex_Output := None |};
      if bool_decide (ex_Type entry = "") then Err (Errorf "output type is required (type=<type>)" [])
      else if supported (ex_Type entry) then Ok entry
      else Err (Errorf "unsupported output type: %s (supported: oci, tar, local)" [ex_Type entry])
  end.

Definition parseOutput (outputs : list string) : res (list ExportEntry) := res_map parseOutputCSV outputs.

(** ** Configuring the exports *)

Definition imageNameAnnotation : string := "annotation-index-descriptor.com.apple.containerization.image.name".

Definition set_default (k v : string) (m : smap) : smap := match m !! k with Some _ => m | None => <[k := v]> m end.
Definition setDefaultExportAttributes (attributes : smap) (tag : string) : smap :=
  set_default imageNameAnnotation tag (set_default "name" tag attributes).

Definition localDest (o : BOpts) : string := path_Join [GlobalExportPath; BuildID o; "local"].
Definition outTar (o : BOpts) : string := path_Join [GlobalExportPath; BuildID o; "out.tar"].

Context (CreateTemp : res nat) (MkdirAll : string → res unit).

Definition configureExport (export : ExportEntry) (o : BOpts) (writer : option nat) : res ExportEntry :=
  if bool_decide (ex_Type export = "local") then
    _ ← MkdirAll (localDest o);
    Ok {| ex_Type := ex_Type export;
          ex_Attrs := setDefaultExportAttributes (<["dest" := localDest o]> (ex_Attrs export)) (Tag o);
          ex_OutputDir := if bool_decide (ex_OutputDir export = "") then localDest o else ex_OutputDir export;
          ex_Output := ex_Output export |}
  else
    Ok {| ex_Type := ex_Type export;
          ex_Attrs := setDefaultExportAttributes (<["output" := outTar o]> (ex_Attrs export)) (Tag o);
          ex_OutputDir := ex_OutputDir export; ex_Output := writer |}.

(** The writer of the first export that is not a local one. *)
Definition exportWriter (exports : list ExportEntry) : res (option nat) :=
  if decide (Exists (λ e, ex_Type e ≠ "local") exports) then Some <$> CreateTemp else Ok None.

(** The writer's file is closed and removed; [temps] are the temporary files. *)
Definition discardExportWriter (writer : option nat) (temps : gset nat) : gset nat :=
  match writer with None => temps | Some f => temps ∖ {[f]} end.

(** The temporary files after [exportWriter] returned [writer]. *)
Definition with_writer (writer : option nat) (temps : gset nat) : gset nat :=
  match writer with None => temps | Some f => {[f]} ∪ temps end.

(** The exports and their writer, and the temporary files. *)
Definition configuredExports (o : BOpts) (temps : gset nat) : res (list ExportEntry * option nat) * gset nat :=
  if CheckOnly o then (Ok ([], None), temps) else
  match parseOutput (Outputs o) with
  | Err e => (Err e, temps)
  | Ok exports =>
      let exports := match exports with
                     | [] => [{| ex_Type := "oci"; ex_Attrs := ∅; ex_OutputDir := ""; ex_Output := None |}]
                     | _ => exports end in
      match exportWriter exports with
      | Err e => (Err e, temps)
      | Ok wf =>
          match res_map (λ e, configureExport e o wf) exports with
          | Err e => (Err e, discardExportWriter wf (with_writer wf temps))
          | Ok configured => (Ok (configured, wf), with_writer wf temps)
          end
      end
  end.

(** ** Solve options *)

(** [FrontendAttrs] of [newSolveOptions]; [format] is [platforms.Format] after [Normalize]. *)
Definition FrontendAttrs (format : Platform → string) (o : BOpts) : smap :=
  let attrs := prefixed "build-arg:" (BuildArgs o) (dockerfileFrontendAttrs o) in
  let attrs := opt_attr (bool_decide (Platforms o ≠ [])) "platform" (Join "," (format <$> Platforms o)) attrs in
  let attrs := opt_attr (bool_decide (1 < length (Platforms o))) "multi-platform" "true" attrs in
  let attrs := opt_attr (bool_decide (Target o ≠ "")) "target" (Target o) attrs in
  let attrs := prefixed "label:" (Labels o) attrs in
  Attestations o ∪ attrs.

(** What is attached to the session of the build. *)
Inductive Attachable :=
| AttachFSSync (proxy : FSSyncProxy)
| AttachSecrets (secrets : gmap string bytes)
| AttachSSH (agents : list AgentConfig).

Record SolveOpt := {
  so_Exports : list ExportEntry;
  so_CacheImports : list string;
  so_CacheExports : list string;
  so_FrontendAttrs : smap;
  so_AllowedEntitlements : list string;
  so_Frontend : string;
  so_OCIStores : gmap string ContentStoreProxy;
  so_Session : list Attachable;
}.

Context (ParseImportCache ParseExportCache : list string → res (list string)) (NewSSHAgentProvider : list AgentConfig → res unit).

Definition newSolveOptions (format : Platform → string) (o : BOpts) (exports : list ExportEntry) : res SolveOpt :=
  cacheImports ← ParseImportCache (CacheIn o);
  cacheExports ← ParseExportCache (CacheOut o);
  ssh ← (match SSH o with [] => Ok [] | _ => _ ← NewSSHAgentProvider (SSH o); Ok [AttachSSH (SSH o)] end);
  Ok {| so_Exports := exports; so_CacheImports := cacheImports; so_CacheExports := cacheExports;
        so_FrontendAttrs := FrontendAttrs format o; so_AllowedEntitlements := Entitlements o; so_Frontend := "dockerfile.v1";
        so_OCIStores := {[ KeyContentStoreName := ContentStore o ]};
        so_Session := [AttachFSSync (FSSync o); AttachSecrets (Secrets o)] ++ ssh |}.
End outputs.

(** ** The buffered archive ([wrappedWriteCloser]) *)

Record tmpfile := { tf_data : bytes; tf_pos : nat; tf_open : bool; tf_present : bool }.
Definition new_tmp : tmpfile := {| tf_data := []; tf_pos := 0; tf_open := true; tf_present := true |}.

Inductive close_op := OpSync | OpSeek | OpCreate | OpCopy.
Definition ErrClosed : error := Sentinel "file already closed".

(** [os.File.Write] at the position of the file. *)
Definition wwc_Write (w : tmpfile) (p : bytes) : tmpfile * res nat :=
  if tf_open w
  then ({| tf_data := take (tf_pos w) (tf_data w) ++ p ++ drop (tf_pos w + length p) (tf_data w);
           tf_pos := tf_pos w + length p; tf_open := true; tf_present := tf_present w |}, Ok (length p))
  else (w, Err ErrClosed).

(** [f.Seek(0, io.SeekStart)] and [io.CopyBuffer] to the end of the file. *)
Definition seek_start (w : tmpfile) : tmpfile :=
  {| tf_data := tf_data w; tf_pos := 0; tf_open := tf_open w; tf_present := tf_present w |}.
Definition read_rest (w : tmpfile) : bytes := drop (tf_pos w) (tf_data w).

(** [Close]; [fail] are the I/O errors of the run ([copied] bytes were copied when the copy
    failed), [dest] is the content of the destination before and after.  The deferred calls
    remove and close the temporary file on every path. *)
Definition wwc_Close (fail : close_op → option error) (copied : nat) (w : tmpfile) (dest : option bytes) :
    tmpfile * option bytes * option error :=
  let gone := {| tf_data := tf_data w; tf_pos := tf_pos w; tf_open := false; tf_present := false |} in
  if negb (tf_open w) then (gone, dest, Some ErrClosed) else
  match fail OpSync with
  | Some e => (gone, dest, Some e)
  | None =>
      match fail OpSeek with
      | Some e => (gone, dest, Some e)
      | None =>
          let w := seek_start w in
          match fail OpCreate with
          | Some e => (gone, dest, Some e)
          | None =>
              match fail OpCopy with
              | Some e => (gone, Some (take copied (read_rest w)), Some e)
              | None => (gone, Some (read_rest w), None)
              end
          end
      end
  end.

(** ** What the exports are *)

Section exports.
Context {BL : BuildLibs} (csv_Fields : string → res (list string)) (CreateTemp : res nat) (MkdirAll : string → res unit).

Lemma fields_loop_plain fields e e' : fields_loop fields e = Ok e' →
  ex_OutputDir e' = ex_OutputDir e ∧ ex_Output e' = ex_Output e.
Proof.
  revert e. induction fields as [|f fs IH]; intros e; simpl; [by intros [= <-]|].
  destruct (Cut f "=") as [[k v] ok]. destruct ok; [|done]. intros H%IH. by case_bool_decide.
Qed.

Lemma parseOutputCSV_ok output e : parseOutputCSV csv_Fields output = Ok e →
  supported (ex_Type e) = true ∧ ex_OutputDir e = "" ∧ ex_Output e = None.
Proof.
  unfold parseOutputCSV. destruct (csv_Fields output) as [fs|]; [|done].
  intros (e' & Hf & H)%result_bind_ok. case_bool_decide; [done|]. destruct (supported (ex_Type e')) eqn:E; [|done].
  injection H as <-. apply fields_loop_plain in Hf as [-> ->]. done.
Qed.

Lemma set_default_keep k v k' m x : m !! k' = Some x → set_default k v m !! k' = Some x.
Proof.
  unfold set_default. intros H. destruct (m !! k) eqn:E; [done|]. rewrite lookup_insert_ne; [done|]. congruence.
Qed.
Lemma set_default_name k v m : set_default k v m !! k = Some (default v (m !! k)).
Proof. unfold set_default. destruct (m !! k) eqn:E; simpl; [by rewrite E|apply lookup_insert_eq]. Qed.

Lemma default_attributes m tag k x : m !! k = Some x → setDefaultExportAttributes m tag !! k = Some x.
Proof. intros H. unfold setDefaultExportAttributes. by do 2 apply set_default_keep. Qed.
Lemma default_name m tag : setDefaultExportAttributes m tag !! "name" = Some (default tag (m !! "name")).
Proof. unfold setDefaultExportAttributes. apply set_default_keep, set_default_name. Qed.

(** How an export of the request ends up configured. *)
Definition configured_as (o : BOpts) (wf : option nat) (e e' : ExportEntry) : Prop :=
  ex_Type e' = ex_Type e ∧ supported (ex_Type e') = true ∧
  ex_Attrs e' !! "name" = Some (default (Tag o) (ex_Attrs e !! "name")) ∧
  (∀ k v, k ∉ ["dest"; "output"] → ex_Attrs e !! k = Some v → ex_Attrs e' !! k = Some v) ∧
  if bool_decide (ex_Type e = "local")
  then ex_Output e' = None ∧ ex_OutputDir e' = localDest o ∧ ex_Attrs e' !! "dest" = Some (localDest o)
  else is_Some wf ∧ ex_Output e' = wf ∧ ex_Attrs e' !! "output" = Some (outTar o).

Lemma configureExport_as o wf e e' : supported (ex_Type e) = true → ex_OutputDir e = "" → ex_Output e = None →
  (ex_Type e ≠ "local" → is_Some wf) → configureExport MkdirAll e o wf = Ok e' → configured_as o wf e e'.
Proof.
  intros Hs Hd Ho Hw. unfold configureExport, configured_as.
  case_bool_decide as Ht.
  - intros (_ & _ & [= <-])%result_bind_ok. simpl. rewrite !bool_decide_true by done.
    split_and!; try done.
    + by rewrite default_name, lookup_insert_ne.
    + intros k v Hk Hv. apply default_attributes. rewrite lookup_insert_ne; [done|]. set_solver.
    + apply default_attributes, lookup_insert_eq.
  - intros [= <-]. simpl. split_and!; try done; [..|by apply Hw|].
    + by rewrite default_name, lookup_insert_ne.
    + intros k v Hk Hv. apply default_attributes. rewrite lookup_insert_ne; [done|]. set_solver.
    + apply default_attributes, lookup_insert_eq.
Qed.

Definition oci_default : ExportEntry := {| ex_Type := "oci"; ex_Attrs := ∅; ex_OutputDir := ""; ex_Output := None |}.

(** The export root, by its components. *)
Definition export_root : list string := ["var"; "lib"; "container-builder-shim"; "exports"].

(** A build id that is one plain name stays below the export root. *)
Lemma export_below o name : good (BuildID o) → good name →
  path_Join [GlobalExportPath; BuildID o; name] = abs_path (export_root ++ [BuildID o; name]).
Proof.
  intros Hid Hn. pose proof (path_Join_cached export_root (BuildID o) [name]) as H. change (abs_path export_root) with GlobalExportPath in H.
  change (rel_path [name]) with name in H. rewrite H; [done|done|done| |done|by constructor].
  by repeat constructor; apply (bool_decide_unpack _).
Qed.

End exports.

(** A build id with [".."] puts the exports outside the export root. *)
Lemma export_escapes `{BL : BuildLibs} o : BuildID o = "../../x" → localDest o = "/var/lib/x/local" ∧ outTar o = "/var/lib/x/out.tar".
Proof. intros E. unfold localDest, outTar. rewrite E. split; vm_compute; reflexivity. Qed.

(** ** Solve attributes *)

Lemma opt_attr_lookup c k v m key : opt_attr c k v m !! key = if c && bool_decide (key = k) then Some v else m !! key.
Proof.
  unfold opt_attr. destruct c; [|done]. simpl. case_bool_decide; [subst; apply lookup_insert_eq|]. by rewrite lookup_insert_ne.
Qed.

(** A prefix in front of an unknown rest: found, or different from a known key. *)
Ltac own_prefix := repeat match goal with
  | |- context [drop_prefix ?p (?p +:+ ?k)] => rewrite (proj2 (drop_prefix_Some p (p +:+ k) k) eq_refl)
  | |- context [drop_prefix ?p ?s] => replace (drop_prefix p s) with (@None string) by reflexivity
  end.
Ltac fixed_keys := repeat match goal with
  | |- context [bool_decide (@eq string ?a ?b)] => first
      [replace (bool_decide (@eq string a b)) with false by reflexivity|replace (bool_decide (@eq string a b)) with true by reflexivity]
  end.

Section attrs.
Context {BL : BuildLibs}.

Lemma singleton_attr (k v key : string) : ({[ k := v ]} : smap) !! key = if bool_decide (key = k) then Some v else None.
Proof. case_bool_decide; [subst; apply lookup_singleton_eq|]. by rewrite lookup_singleton_ne. Qed.

Lemma frontendAttrs_lookup o key : dockerfileFrontendAttrs o !! key =
  match (if bool_decide (key = "no-cache") then NoCache o else None) with
  | Some v => Some v
  | None =>
      if bool_decide (Ulimits o ≠ []) && bool_decide (key = "ulimit") then Some (Join "," (Ulimits o))
      else if bool_decide (ShmSize o ≠ "") && bool_decide (key = "shm-size") then Some (ShmSize o)
      else if bool_decide (Network o ≠ "") && bool_decide (key = "force-network-mode") then Some (Network o)
      else if bool_decide (AddHosts o ≠ []) && bool_decide (key = "add-hosts") then Some (Join "," (AddHosts o))
      else match drop_prefix "context:" key with
           | Some k => match BuildContexts o !! k with Some v => Some v | None => if bool_decide (key = "filename") then Some DockerfilePath else None end
           | None => if bool_decide (key = "filename") then Some DockerfilePath else None end
  end.
Proof.
  unfold dockerfileFrontendAttrs. change (context_attrs (BuildContexts o)) with (prefixed "context:" (BuildContexts o)).
  destruct (NoCache o) as [v|].
  - destruct (decide (key = "no-cache")) as [->|Hne]; [by rewrite lookup_insert_eq|]. rewrite lookup_insert_ne by done.
    rewrite (bool_decide_false (key = "no-cache")) by done.
    by rewrite !opt_attr_lookup, prefixed_lookup, singleton_attr.
  - unfold id. rewrite !opt_attr_lookup, prefixed_lookup, singleton_attr. by destruct (bool_decide (key = "no-cache")).
Qed.

Definition attestation_only (m : smap) : Prop := ∀ k, is_Some (m !! k) → k ∈ ["attest:provenance"; "attest:sbom"].

Lemma attestation_none m k : attestation_only m → k ∉ ["attest:provenance"; "attest:sbom"] → m !! k = None.
Proof. intros H Hk. apply eq_None_not_Some. intros Hs. by apply Hk, H. Qed.

(** The keys of [dockerfileFrontendAttrs] and of the attestations. *)
Lemma extractAttestations_only keys m r : keys ≡ₚ attestation_keys → extractAttestations keys m = Ok r → attestation_only r.
Proof.
  intros Hk He. assert (Hr : r = attestation_values keys m).
  { unfold extractAttestations in He. case_bool_decide as Hz; [simplify_eq; by rewrite Hz|].
    by apply result_bind_ok in He as (_ & _ & [= <-]). }
  subst r. clear He. unfold attestation_values, attestation_only.
  assert (Hgen : ∀ l (acc : smap), (∀ x, x ∈ l → x ∈ attestation_keys) → attestation_only acc →
    attestation_only (foldl (λ acc k, match last (values m k.1) with Some v => <[k.2 := v]> acc | None => acc end) acc l)).
  { induction l as [|x l IH]; intros acc Hl Hacc; [done|]. simpl. apply IH; [set_solver|].
    destruct (last (values m x.1)) as [v|]; [|done]. intros k [y Hy].
    apply lookup_insert_Some in Hy as [[<- _]|[_ Hy]]; [|apply Hacc; by eexists].
    assert (Hx : x ∈ attestation_keys) by (apply Hl; set_solver). unfold attestation_keys in Hx. set_solver. }
  apply Hgen; [intros x; by rewrite Hk|]. intros k [x Hx]. by rewrite lookup_empty in Hx.
Qed.

(** The frontend attributes of a build say exactly what the request said: a build argument,
    label or named context appears under its own prefixed key and nowhere else, and none of
    them, whatever its name, can displace the staged Dockerfile's file name, the platforms, the
    target, the network mode or another argument. *)
Theorem FrontendAttrs_lookup format o : attestation_only (Attestations o) →
  let attrs := FrontendAttrs format o in
  attrs !! "filename" = Some DockerfilePath ∧
  (∀ k, attrs !! ("build-arg:" +:+ k) = BuildArgs o !! k) ∧
  (∀ k, attrs !! ("label:" +:+ k) = Labels o !! k) ∧
  (∀ k, attrs !! ("context:" +:+ k) = BuildContexts o !! k) ∧
  attrs !! "platform" = (if bool_decide (Platforms o = []) then None else Some (Join "," (format <$> Platforms o))) ∧
  attrs !! "multi-platform" = (if bool_decide (1 < length (Platforms o)) then Some "true" else None) ∧
  attrs !! "target" = (if bool_decide (Target o = "") then None else Some (Target o)) ∧
  attrs !! "force-network-mode" = (if bool_decide (Network o = "") then None else Some (Network o)) ∧
  attrs !! "no-cache" = NoCache o ∧
  (∀ k, k ∈ ["attest:provenance"; "attest:sbom"] → attrs !! k = Attestations o !! k).
Proof.
  intros Ha. unfold FrontendAttrs. cbn zeta.
  assert (Hatt : ∀ key m, bool_decide (key ∈ ["attest:provenance"; "attest:sbom"]) = false → (Attestations o ∪ m) !! key = m !! key).
  { intros key m Hk%bool_decide_eq_false. apply lookup_union_r. by apply attestation_none. }
  split_and!; intros; try (rewrite Hatt by reflexivity; rewrite prefixed_lookup, !opt_attr_lookup, prefixed_lookup, frontendAttrs_lookup);
    try (own_prefix; fixed_keys; simpl; rewrite ?andb_false_r, ?andb_true_r).
  10: { assert (Hk : k = "attest:provenance" ∨ k = "attest:sbom") by set_solver. rewrite lookup_union.
       destruct Hk as [-> | ->]; rewrite prefixed_lookup, !opt_attr_lookup, prefixed_lookup, frontendAttrs_lookup;
         own_prefix; fixed_keys; simpl; rewrite !andb_false_r; by rewrite (right_id_L None _). }
  all: first [done|match goal with |- match ?x with Some _ => _ | None => _ end = _ => by destruct x end|idtac].
  all: repeat case_bool_decide; naive_solver.
Qed.
End attrs.

(** ** The buffered archive *)

Definition write_all (ws : list bytes) (w : tmpfile) : tmpfile := foldl (λ w p, (wwc_Write w p).1) w ws.

Lemma write_all_data ws w : tf_open w = true → tf_pos w = length (tf_data w) →
  tf_data (write_all ws w) = tf_data w ++ concat ws ∧ tf_open (write_all ws w) = true.
Proof.
  revert w. induction ws as [|p ws IH]; intros w Ho Hp; simpl; [by rewrite app_nil_r|].
  assert (E : tf_data (wwc_Write w p).1 = tf_data w ++ p ∧ tf_pos (wwc_Write w p).1 = tf_pos w + length p ∧ tf_open (wwc_Write w p).1 = true).
  { unfold wwc_Write. rewrite Ho. simpl. split_and!; try done. by rewrite take_ge, drop_ge, app_nil_r by lia. }
  destruct E as (E1 & E2 & E3). destruct (IH (wwc_Write w p).1) as [-> ->]; [done|rewrite E1, E2, length_app; lia|].
  by rewrite E1, app_assoc.
Qed.

(** C17. Closing a buffered archive, whatever was written to it: it returns the error of the first
    operation that fails (the sync, the seek, the creation of the destination or the copy), and
    none only if all of them succeed, when the destination holds exactly the written bytes.  An
    error before the destination is created leaves the destination as it was, a copy that fails
    leaves a beginning of the archive and is reported.  In every case the temporary file is
    removed and closed, and after that every write and every close is refused. *)
Theorem archive_close ws fail copied dest :
  let '(w, dest', err) := wwc_Close fail copied (write_all ws new_tmp) dest in
  tf_present w = false ∧ tf_open w = false ∧
  err = head (omap fail [OpSync; OpSeek; OpCreate; OpCopy]) ∧
  (err = None → dest' = Some (concat ws)) ∧
  (is_Some (fail OpSync) ∨ is_Some (fail OpSeek) ∨ is_Some (fail OpCreate) → dest' = dest) ∧
  (dest' = dest ∨ ∃ b, dest' = Some b ∧ b `prefix_of` concat ws) ∧
  (∀ p, wwc_Write w p = (w, Err ErrClosed)) ∧
  (∀ f n d, (wwc_Close f n w d).1.2 = d ∧ (wwc_Close f n w d).2 = Some ErrClosed).
Proof.
  destruct (write_all_data ws new_tmp eq_refl eq_refl) as [Hd Ho]. unfold wwc_Close at 1. rewrite Ho. simpl negb. cbv iota.
  unfold read_rest, seek_start. simpl in Hd. cbn [tf_pos tf_data omap list_omap]. rewrite drop_0, Hd.
  destruct (fail OpSync) eqn:E1; [|destruct (fail OpSeek) eqn:E2; [|destruct (fail OpCreate) eqn:E3; [|destruct (fail OpCopy) eqn:E4]]];
    (split_and!; [done|done|done|intros ?|intros Hf| |intros p; done|intros f n d; done]); try done; try (by left);
    try (by destruct Hf as [[]|[[]|[]]]); right; eexists; (split; [done|]); [apply prefix_take|done].
Qed.

(** Two exports that are not local get the same writer: a request for an OCI and a tar
    archive has both BuildKit exporters write into one temporary file and close it twice. *)
Theorem exports_share_writer `{BL : BuildLibs} csv_Fields CreateTemp MkdirAll o exports tmp temps i j e1 e2 :
  configuredExports csv_Fields CreateTemp MkdirAll o ∅ = (Ok (exports, tmp), temps) →
  exports !! i = Some e1 → exports !! j = Some e2 → ex_Type e1 ≠ "local" → ex_Type e2 ≠ "local" →
  ex_Output e1 = ex_Output e2 ∧ is_Some (ex_Output e1) ∧ ex_Attrs e1 !! "output" = ex_Attrs e2 !! "output".
Proof.
  intros Hc H1 H2 T1 T2. unfold configuredExports in Hc. destruct (CheckOnly o); [by simplify_eq|].
  destruct (parseOutput csv_Fields (Outputs o)) as [entries|]; [|done].
  destruct (exportWriter CreateTemp _) as [wf|] eqn:Hw; [|done]. destruct (res_map _ _) as [cfg|] eqn:Hm; [|done].
  injection Hc as <- <- _. apply res_map_ok in Hm.
  assert (Hone : ∀ i e, cfg !! i = Some e → ex_Type e ≠ "local" → ex_Output e = wf ∧ is_Some wf ∧ ex_Attrs e !! "output" = Some (outTar o)).
  { intros k e Hk Ht. destruct (Forall2_lookup_r _ _ _ _ _ Hm Hk) as (e0 & He0 & Hcfg). unfold configureExport in Hcfg.
    case_bool_decide as Hl; [apply result_bind_ok in Hcfg as (_ & _ & [= <-]); done|]. injection Hcfg as <-. simpl.
    split_and!; [done| |apply default_attributes, lookup_insert_eq].
    unfold exportWriter in Hw. destruct (decide _) as [_|Hno]; [destruct CreateTemp; simplify_eq/=; by eexists|].
    destruct Hno. apply Exists_exists. exists e0. split; [by eapply list_elem_of_lookup_2|done]. }
  destruct (Hone i e1 H1 T1) as (-> & ? & ->), (Hone j e2 H2 T2) as (-> & _ & ->). done.
Qed.

(** ** A build with three outputs *)

Definition ex_csv (s : string) : res (list string) := Ok (Split ","%char s).
Definition ex_stdio : StdioProxy := {| sp_console := None; sp_s := ""; sp_buf := [] |}.
Definition base_opts : BOpts :=
  match NewBuildOpts attestation_keys "/var/lib/shim" ex_metadata with Some (Ok o) => o | _ =>
    {| BuildID := ""; Dockerfile := []; Dockerignore := []; Tag := ""; ContextDir := ""; BOBuildPlatforms := []; Platforms := [];
       NoCache := None; Target := ""; BuildArgs := ∅; BuildContexts := ∅; Secrets := ∅; SSH := []; Entitlements := []; Attestations := ∅;
       AddHosts := []; Network := ""; ShmSize := ""; Ulimits := []; CacheIn := []; CacheOut := []; Outputs := []; Labels := ∅;
       CheckOnly := false; ProgressWriter := None; ContentStore := content_proxy; Resolver := resolver_proxy;
       BOStdio := ex_stdio; FSSync := ex_proxy; bo_basePath := "" |} end.
Definition three_outputs : BOpts :=
  {| BuildID := "b1"; Dockerfile := []; Dockerignore := []; Tag := "app"; ContextDir := "."; BOBuildPlatforms := [linux "arm64" "v8"]; Platforms := [];
     NoCache := None; Target := ""; BuildArgs := ∅; BuildContexts := ∅; Secrets := ∅; SSH := []; Entitlements := []; Attestations := ∅;
     AddHosts := []; Network := ""; ShmSize := ""; Ulimits := []; CacheIn := []; CacheOut := [];
     Outputs := ["type=oci"; "type=local,dest=/tmp/x"; " Type = tar ,name=other"]; Labels := ∅;
     CheckOnly := false; ProgressWriter := None; ContentStore := content_proxy; Resolver := resolver_proxy;
       BOStdio := ex_stdio; FSSync := ex_proxy; bo_basePath := "" |}.

Lemma FrontendAttrs_lookup_witness :
  FrontendAttrs p_Architecture base_opts !! "filename" = Some DockerfilePath ∧
  FrontendAttrs p_Architecture base_opts !! ("build-arg:" +:+ "TAG") = Some "4" ∧
  FrontendAttrs p_Architecture base_opts !! "force-network-mode" = Some "host".
Proof.
  assert (Ha : attestation_only (Attestations base_opts)).
  { intros k Hk. replace (Attestations base_opts) with (∅ : smap) in Hk by (vm_compute; reflexivity). by apply lookup_empty_is_Some in Hk. }
  destruct (FrontendAttrs_lookup p_Architecture base_opts Ha) as (H1 & H2 & _ & _ & _ & _ & _ & H3 & _).
  split; [exact H1|]. split; [rewrite H2; vm_compute; reflexivity|rewrite H3; vm_compute; reflexivity].
Defined.

Definition three_configured : list ExportEntry :=
  match configuredExports ex_csv (Ok 7) (λ _, Ok tt) three_outputs ∅ with (Ok (l, _), _) => l | _ => [] end.

Lemma exports_share_writer_witness : ∃ e1 e2,
  three_configured !! 0 = Some e1 ∧ three_configured !! 2 = Some e2 ∧
  ex_Output e1 = ex_Output e2 ∧ is_Some (ex_Output e1) ∧ ex_Attrs e1 !! "output" = ex_Attrs e2 !! "output".
Proof.
  eexists _, _. split; [vm_compute; reflexivity|]. split; [vm_compute; reflexivity|].
  apply (exports_share_writer ex_csv (Ok 7) (λ _, Ok tt) three_outputs three_configured (Some 7) {[7]} 0 2); vm_compute; try reflexivity; discriminate.
Defined.
