(* ===== verification/Frontend.v ===== *)
(** * The gateway frontend ([pkg/build/frontend.go])

    For every target platform a goroutine resolves the images a Dockerfile names into local
    states and solves the build; the references, the shell lexer, the LLB conversion and the
    solver are parameters.  The stage goroutines of one platform share the map of states, the
    platform goroutines the two channels of [frontend]. *)

From Stdlib Require Import Ascii.
From S2P Require Import Prelude GoStrings GoPath Api BuildUtils FsWalk BuildOpts BuildOutput.

(** The image and LLB libraries. *)
Class ImageLibs := {
  FoldEq : string → string → bool;                    (* strings.EqualFold of two names *)
  Reference : Type;
  ref_String : Reference → string;
  ref_Digested : Reference → bool;
  ParseAnyReference : string → res Reference;
  FamiliarName : string → res string;                 (* FamiliarString of ParseNormalizedNamed *)
  Normalize : Platform → Platform;
  FormatAll : Platform → string;
  Format : Platform → string;
  ResolveImageConfig : string → Platform → res (string * bytes);
  MarshalMeta : bytes → res bytes;                    (* the JSON of the image config key *)
}.

Definition ErrObjectRequired : error := Sentinel "object required".
Definition ErrNoBuildDirectives : error := Sentinel "no build directives".

(** An OCI layout state: the reference with a digest, and the platform. *)
Record State := { st_fqdn : string; st_platform : Platform }.
Record stateMeta := { state : State; imgMeta : bytes }.
Abbreviation states := (gmap string stateMeta).

Section frontend.
Context {BL : BuildLibs} {IL : ImageLibs}.

(** [platforms.FormatAll(platforms.Normalize(pl))], the name of a platform in results and states. *)
Definition plStr (pl : Platform) : string := FormatAll (Normalize pl).

(** [instructions.HasStage] *)
Fixpoint HasStage_from (i : nat) (l : list Stage) (name : string) : option nat :=
  match l with
  | [] => None
  | s :: l => if FoldEq (s_Name s) name then Some i else HasStage_from (S i) l name
  end.
Definition HasStage (l : list Stage) (name : string) : option nat := HasStage_from 0 l name.

Definition globalArgs (buildPlatform targetPlatform : Platform) (buildArgs : smap) (target : string) : MapGetter :=
  let target := if bool_decide (target = "") then "default" else target in
  NewMapGetter (buildArgs ∪
  {[ "BUILDPLATFORM" := Format buildPlatform; "BUILDOS" := p_OS buildPlatform; "BUILDOSVERSION" := p_OSVersion buildPlatform;
     "BUILDARCH" := p_Architecture buildPlatform; "BUILDVARIANT" := p_Variant buildPlatform;
     "TARGETPLATFORM" := FormatAll targetPlatform; "TARGETOS" := p_OS targetPlatform; "TARGETOSVERSION" := p_OSVersion targetPlatform;
     "TARGETARCH" := p_Architecture targetPlatform; "TARGETVARIANT" := p_Variant targetPlatform; "TARGETSTAGE" := target ]}).

(** ** Resolving an image name *)

Definition resolvedImageState (ref : Reference) (imageDigest : string) (image : bytes) (platform : Platform) : res (string * stateMeta) :=
  let fqdn := if ref_Digested ref then ref_String ref else ref_String ref +:+ "@" +:+ imageDigest in
  match FamiliarName (ref_String ref) with
  | Err _ => Err (Errorf "invalid context name %s %v" [ref_String ref])
  | Ok familiar =>
      metadata ← MarshalMeta image;
      Ok (TrimSuffix familiar ":latest" +:+ "::" +:+ plStr platform,
          {| state := {| st_fqdn := fqdn; st_platform := platform |}; imgMeta := metadata |})
  end.

(** [resolveImage]: the digest is empty when there is no object behind the name. *)
Definition resolveImage (name : string) (platform : Platform) : res (string * bytes) :=
  match ResolveImageConfig name platform with
  | Err e => if bool_decide (e = ErrObjectRequired) then Ok ("", []) else Err e
  | r => r
  end.

(** [resolve]: the state to add under its name, if there is one. *)
Definition resolve (name : string) (platform : Platform) : res (option (string * stateMeta)) :=
  if EqualFold name "scratch" || EqualFold name "context" then Ok None
  else
    match ParseAnyReference name with
    | Err e => if bool_decide (e = ErrObjectRequired) then Ok None else Err (Errorf "invalid ref: %s" [name])
    | Ok ref =>
        x ← resolveImage name platform;
        if bool_decide (x.1 = "") then Ok None
        else Some <$> resolvedImageState ref x.1 x.2 platform
    end.

Definition add_state (x : option (string * stateMeta)) (m : states) : states :=
  match x with Some (k, v) => <[k := v]> m | None => m end.

(** ** Stages *)

Definition resolvedStagePlatform (escapeToken : ascii) (stage : Stage) (global : MapGetter) (fallback : Platform) : res Platform :=
  if bool_decide (s_Platform stage = "") then Ok fallback
  else
    match ProcessWordWithMatches escapeToken (s_Platform stage) global with
    | Err e => Err (Errorf "invalid platform for stage[%s]: %v" [s_BaseName stage])
    | Ok value =>
        match platforms_Parse value with
        | Err e => Err (Errorf "invalid platform for stage[%s]: %v" [s_BaseName stage])
        | Ok parsed => Ok parsed
        end
    end.

(** The work of one stage's goroutine up to its change of the shared map. *)
Definition resolveDockerfileStage (escapeToken : ascii) (global : MapGetter) (l : list Stage) (index : nat) (stage : Stage) (platform : Platform) :
    res (option (string * stateMeta)) :=
  match ProcessWordWithMatches escapeToken (s_BaseName stage) global with
  | Err _ => Err (Errorf "invalid arg for stage[%s]: %v" [s_BaseName stage])
  | Ok baseName =>
      stagePlatform ← resolvedStagePlatform escapeToken stage global platform;
      match HasStage l baseName with
      | Some namedIndex => if bool_decide (namedIndex < index) then Ok None else resolve baseName stagePlatform
      | None => resolve baseName stagePlatform
      end
  end.

(** The goroutines finish in the order [done] (a permutation of the indices); each adds its
    state under the mutex or sends its error to the buffered channel, and the first error in
    that order is the result. *)
Fixpoint finish_stages (escapeToken : ascii) (global : MapGetter) (l : list Stage) (platform : Platform) (done : list nat) (m : states) (err : option error) :
    states * option error :=
  match done with
  | [] => (m, err)
  | i :: done =>
      match l !! i with
      | None => finish_stages escapeToken global l platform done m err
      | Some stage =>
          match resolveDockerfileStage escapeToken global l i stage platform with
          | Ok x => finish_stages escapeToken global l platform done (add_state x m) err
          | Err e => finish_stages escapeToken global l platform done m (match err with None => Some e | _ => err end)
          end
      end
  end.

Definition resolveDockerfileStages (escapeToken : ascii) (global : MapGetter) (l : list Stage) (platform : Platform) (done : list nat) : states * option error :=
  finish_stages escapeToken global l platform done ∅ None.

(** ** [COPY --from] *)

Definition copy_sources (l : list Stage) : list string :=
  s ← l; c ← s_Commands s; match c with CopyCommand f => [f] | OtherCommand => [] end.

(** Not empty, not a stage index, not a stage name. *)
Definition external (l : list Stage) (from : string) : bool :=
  bool_decide (from ≠ "") && negb (is_ok (Atoi from)) && bool_decide (HasStage l from = None).

Fixpoint preseed_loop (l : list Stage) (platform : Platform) (sources : list string) (m : states) : states * option error :=
  match sources with
  | [] => (m, None)
  | from :: sources =>
      if external l from then
        match resolve from platform with
        | Err e => (m, Some e)
        | Ok x => preseed_loop l platform sources (add_state x m)
        end
      else preseed_loop l platform sources m
  end.
Definition preseedCopyFromSources (l : list Stage) (platform : Platform) (m : states) : states * option error :=
  preseed_loop l platform (copy_sources l) m.

(** The arguments the stages see; a stage goroutine panics without a build platform. *)
Definition stage_args (o : BOpts) (l : list Stage) (platform : Platform) : option MapGetter :=
  match l, BOBuildPlatforms o with
  | [], _ => Some (NewMapGetter ∅)
  | _, bp :: _ => Some (globalArgs bp platform (BuildArgs o) (Target o))
  | _, [] => None
  end.

(** [resolveStates]; the goroutines of the stages finish in the order [done]. *)
Definition resolveStates (o : BOpts) (platform : Platform) (done : list nat) : option (res states) :=
  match (dockerfile ← parser_Parse (Dockerfile o); parsed ← instructions_Parse dockerfile.2; Ok (dockerfile.1, parsed.1)) with
  | Err e => Some (Err e)
  | Ok (escapeToken, l) =>
      global ← stage_args o l platform;
      Some (match resolveDockerfileStages escapeToken global l platform done with
            | (_, Some e) => Err e
            | (m, None) => match preseedCopyFromSources l platform m with
                           | (_, Some e) => Err e
                           | (m, None) => Ok m end
            end)
  end.

(** ** Options of the Dockerfile client *)

Definition frontendOpt (o : BOpts) (m : states) : smap :=
  map_fold (λ k v acc, <["input-metadata:" +:+ k := string_of (imgMeta v)]> (<["context:" +:+ k := "input:" +:+ k]> acc))
    (dockerfileFrontendAttrs o ∪ {[ "local.metadatatransfer" := "false"; "local.differ" := "none" ]}) m.

(** [frontendClient.BuildOpts] over the options in the order of a map iteration; the map of
    the client's options is updated in place. *)
Definition BuildOpts_loop (opts : smap) (kvs : list (string * string)) : smap :=
  foldl (λ opts kv,
    match opts !! kv.1 with
    | Some _ => opts
    | None =>
        let opts := <[kv.1 := kv.2]> opts in
        match SplitN2 kv.1 "::" with
        | [k; _] => <[k := kv.2]> opts
        | _ => opts
        end
    end) opts kvs.
End frontend.

(** ** Which states a Dockerfile has *)

Section resolving.
Context {BL : BuildLibs} {IL : ImageLibs}.

(** A map that holds, beside [m], only and all the names of some resolved states. *)
Definition extends (P : string → stateMeta → Prop) (m m' : states) : Prop :=
  (∀ k v, m' !! k = Some v → m !! k = Some v ∨ P k v) ∧
  (∀ k, is_Some (m !! k) → is_Some (m' !! k)) ∧ (∀ k v, P k v → is_Some (m' !! k)).

Lemma extends_refl m : extends (λ _ _, False) m m.
Proof. split_and!; [by left|done|done]. Qed.

Lemma extends_add (P Q : string → stateMeta → Prop) x m m' :
  extends P (add_state x m) m' → (∀ k v, Q k v ↔ x = Some (k, v) ∨ P k v) → extends Q m m'.
Proof.
  intros (H1 & H2 & H3) HQ.
  assert (Hx : ∀ k v, add_state x m !! k = Some v → m !! k = Some v ∨ x = Some (k, v)).
  { intros k v Hk. destruct x as [[k' v']|]; [|by left]. simpl in Hk.
    apply lookup_insert_Some in Hk as [[<- <-]|[_ ?]]; [by right|by left]. }
  assert (Hm : ∀ k, is_Some (m !! k) → is_Some (add_state x m !! k)).
  { intros k Hk. destruct x as [[k' v']|]; [|done]. simpl. apply lookup_insert_is_Some. destruct (decide (k' = k)); [by left|by right]. }
  split_and!.
  - intros k v Hv. destruct (H1 k v Hv) as [Hk|?]; [|right; apply HQ; by right].
    destruct (Hx k v Hk) as [?|?]; [by left|right; apply HQ; by left].
  - intros k Hk. by apply H2, Hm.
  - intros k v [->|?]%HQ; [|by eapply H3]. apply H2. simpl. rewrite lookup_insert_eq. by eexists.
Qed.

Lemma extends_ext P Q m m' : extends P m m' → (∀ k v, P k v ↔ Q k v) → extends Q m m'.
Proof. intros H HPQ. eapply (extends_add P Q None); [done|]. intros k v. rewrite HPQ. naive_solver. Qed.

Lemma extends_trans P Q m1 m2 m3 : extends P m1 m2 → extends Q m2 m3 → extends (λ k v, P k v ∨ Q k v) m1 m3.
Proof.
  intros (A1 & A2 & A3) (B1 & B2 & B3). split_and!.
  - intros k v [Hk|?]%B1; [|by right; right]. destruct (A1 k v Hk); [by left|by right; left].
  - intros k Hk. by apply B2, A2.
  - intros k v [?|?]; [by eapply B2, A3|by eapply B3].
Qed.

Lemma ex_cons {A} (P : A → Prop) x l : (∃ y, y ∈ x :: l ∧ P y) ↔ P x ∨ ∃ y, y ∈ l ∧ P y.
Proof.
  split.
  - intros (y & [->|Hy]%elem_of_cons & Hp); [by left|right; by exists y].
  - intros [Hp|(y & Hy & Hp)]; [exists x|exists y]; split; try done; [apply list_elem_of_here|by apply list_elem_of_further].
Qed.
Lemma none_cons {A B} (P : A → B → Prop) x l :
  (∀ y e, y ∈ x :: l → ¬ P y e) ↔ (∀ e, ¬ P x e) ∧ ∀ y e, y ∈ l → ¬ P y e.
Proof.
  split.
  - intros H. split; intros; apply H; [apply list_elem_of_here|by apply list_elem_of_further].
  - intros [H1 H2] y e [->|?]%elem_of_cons; [apply H1|by apply H2].
Qed.

Section stages.
Context (escapeToken : ascii) (global : MapGetter) (l : list Stage) (platform : Platform).

Definition stage_gives (i : nat) (r : res (option (string * stateMeta))) : Prop :=
  ∃ stage, l !! i = Some stage ∧ resolveDockerfileStage escapeToken global l i stage platform = r.

Lemma stage_gives_at i stage x : l !! i = Some stage → resolveDockerfileStage escapeToken global l i stage platform = x →
  ∀ r, stage_gives i r ↔ r = x.
Proof.
  intros Hi Hx r. split; [intros (s & Hs & <-); congruence|]. intros ->. by exists stage.
Qed.

Lemma finish_stages_spec dn m err m' err' : finish_stages escapeToken global l platform dn m err = (m', err') →
  (err' = None ↔ err = None ∧ ∀ i e, i ∈ dn → ¬ stage_gives i (Err e)) ∧
  (∀ e, err' = Some e → err = Some e ∨ ∃ i, i ∈ dn ∧ stage_gives i (Err e)) ∧
  extends (λ k v, ∃ i, i ∈ dn ∧ stage_gives i (Ok (Some (k, v)))) m m'.
Proof.
  revert m err. induction dn as [|i dn IH]; intros m err; simpl.
  { intros [= <- <-]. split_and!; [set_solver|naive_solver|]. eapply extends_ext; [apply extends_refl|]. set_solver. }
  destruct (l !! i) as [stage|] eqn:Hi.
  - destruct (resolveDockerfileStage escapeToken global l i stage platform) as [x|e] eqn:Hr; intros Hf;
      pose proof (stage_gives_at i stage _ Hi Hr) as Hg; destruct (IH _ _ Hf) as (A & B & C); split_and!.
    + rewrite A, none_cons. setoid_rewrite Hg. naive_solver.
    + intros e He. rewrite ex_cons. destruct (B e He); [by left|by right; right].
    + eapply extends_add; [exact C|]. intros k v. rewrite ex_cons, Hg. split; (intros [?|?]; [left; congruence|by right]).
    + rewrite A, none_cons. setoid_rewrite Hg. split; [intros [? _]; by destruct err|]. intros (_ & H & _). by destruct (H e).
    + intros e' He. rewrite ex_cons, Hg. destruct (B e' He) as [?|?]; [|by right; right]. destruct err; [by left|]. right; left. congruence.
    + eapply extends_ext; [exact C|]. intros k v. rewrite ex_cons, Hg. split; [by right|]. intros [?|?]; done.
  - intros Hf. assert (Hg : ∀ r, stage_gives i r ↔ False) by (intros r; split; [intros (s & Hs & _); congruence|done]).
    destruct (IH _ _ Hf) as (A & B & C). split_and!.
    + rewrite A, none_cons. setoid_rewrite Hg. naive_solver.
    + intros e He. rewrite ex_cons. destruct (B e He); [by left|by right; right].
    + eapply extends_ext; [exact C|]. intros k v. rewrite ex_cons, Hg. split; [by right|]. intros [?|?]; done.
Qed.

Definition copy_gives (from : string) (r : res (option (string * stateMeta))) : Prop :=
  external l from = true ∧ resolve from platform = r.

Lemma preseed_spec sources m m' err : preseed_loop l platform sources m = (m', err) →
  match err with
  | Some e => ∃ from, from ∈ sources ∧ copy_gives from (Err e)
  | None => (∀ from e, from ∈ sources → ¬ copy_gives from (Err e)) ∧
            extends (λ k v, ∃ from, from ∈ sources ∧ copy_gives from (Ok (Some (k, v)))) m m'
  end.
Proof.
  revert m. induction sources as [|from sources IH]; intros m; simpl.
  { intros [= <- <-]. split; [set_solver|]. eapply extends_ext; [apply extends_refl|]. set_solver. }
  destruct (external l from) eqn:He.
  - destruct (resolve from platform) as [x|e] eqn:Hr.
    + intros Hf%IH. assert (Hg : ∀ r, copy_gives from r ↔ r = Ok x) by (intros r; unfold copy_gives; rewrite He, Hr; split; [by intros [_ <-]|by intros ->]).
      destruct err as [e|]; [rewrite ex_cons; by right|]. destruct Hf as [A C]. split.
      * apply none_cons. split; [|done]. intros e. by rewrite Hg.
      * eapply extends_add; [exact C|]. intros k v. rewrite ex_cons, Hg. split; (intros [?|?]; [left; congruence|by right]).
    + intros [= <- <-]. rewrite ex_cons. by left.
  - intros Hf%IH. assert (Hg : ∀ r, copy_gives from r ↔ False) by (intros r; split; [intros [? _]; congruence|done]).
    destruct err as [e|]; [rewrite ex_cons; by right|]. destruct Hf as [A C]. split.
    + apply none_cons. split; [intros e Hc; by apply Hg in Hc|done].
    + eapply extends_ext; [exact C|]. intros k v. rewrite ex_cons, Hg. split; [by right|]. intros [?|?]; done.
Qed.
End stages.

(** With no stage the arguments do not matter. *)
Lemma stages_result o l platform dn escapeToken bp : head (BOBuildPlatforms o) = Some bp → ∀ r,
  (global ← stage_args o l platform;
   Some (match resolveDockerfileStages escapeToken global l platform dn with
         | (_, Some e) => Err e
         | (m, None) => match preseedCopyFromSources l platform m with (_, Some e) => Err e | (m, None) => Ok m end
         end)) = Some r →
  r = match resolveDockerfileStages escapeToken (globalArgs bp platform (BuildArgs o) (Target o)) l platform dn with
      | (_, Some e) => Err e
      | (m, None) => match preseedCopyFromSources l platform m with (_, Some e) => Err e | (m, None) => Ok m end
      end.
Proof.
  intros Hbp r. destruct l as [|s l]; simpl.
  - intros [= <-]. assert (Hnil : ∀ g m err, finish_stages escapeToken g [] platform dn m err = (m, err)).
    { intros g. induction dn as [|i dn IH]; intros m err; simpl; [done|]. apply IH. }
    unfold resolveDockerfileStages. by rewrite !Hnil.
  - destruct (BOBuildPlatforms o); [done|]. injection Hbp as ->. simpl. by intros [= <-].
Qed.

Lemma extends_empty P m : extends P ∅ m → (∀ k v, m !! k = Some v → P k v) ∧ (∀ k, is_Some (m !! k) ↔ ∃ v, P k v).
Proof.
  intros (H1 & _ & H3). assert (Hs : ∀ k v, m !! k = Some v → P k v).
  { intros k v Hv. destruct (H1 k v Hv) as [Hx|?]; [by rewrite lookup_empty in Hx|done]. }
  split; [done|]. intros k. split; [intros [v Hv]; exists v; by apply Hs|]. intros [v Hv]. by eapply H3.
Qed.

(** The result of [resolveStates] in terms of what its goroutines and its loop find. *)
Lemma resolveStates_sources o platform dn bp escapeToken ast l args m_err :
  parser_Parse (Dockerfile o) = Ok (escapeToken, ast) → instructions_Parse ast = Ok (l, args) →
  dn ≡ₚ seq 0 (length l) → head (BOBuildPlatforms o) = Some bp → resolveStates o platform dn = Some m_err →
  let global := globalArgs bp platform (BuildArgs o) (Target o) in
  let source r := (∃ i, stage_gives escapeToken global l platform i r) ∨
                  (∃ from, from ∈ copy_sources l ∧ copy_gives l platform from r) in
  match m_err with
  | Ok m => (∀ e, ¬ source (Err e)) ∧ (∀ k v, m !! k = Some v → source (Ok (Some (k, v)))) ∧
            (∀ k, is_Some (m !! k) ↔ ∃ v, source (Ok (Some (k, v))))
  | Err e => source (Err e)
  end.
Proof.
  intros Hpar Hins Hdn Hbp Hr global source. unfold resolveStates in Hr. rewrite Hpar in Hr. simpl in Hr. rewrite Hins in Hr. simpl in Hr.
  pose proof (stages_result o l platform dn escapeToken bp Hbp m_err Hr) as Hr'. clear Hr. fold global in Hr'. subst m_err.
  assert (Hin : ∀ i r, stage_gives escapeToken global l platform i r → i ∈ dn).
  { intros i r (s & Hs & _). rewrite Hdn. apply elem_of_seq. apply lookup_lt_Some in Hs. lia. }
  unfold resolveDockerfileStages. destruct (finish_stages escapeToken global l platform dn ∅ None) as [m1 err1] eqn:Hf.
  destruct (finish_stages_spec escapeToken global l platform _ _ _ _ _ Hf) as (A & B & C).
  destruct err1 as [e|]; [left; destruct (B e eq_refl) as [?|(i & _ & ?)]; [done|by exists i]|].
  destruct (proj1 A eq_refl) as [_ Hno]. unfold preseedCopyFromSources.
  destruct (preseed_loop l platform (copy_sources l) m1) as [m2 err2] eqn:Hp. apply preseed_spec in Hp.
  destruct err2 as [e|]; [right; naive_solver|]. destruct Hp as [Hno2 D].
  split.
  - intros e [[i Hi]|(from & ? & ?)]; [by eapply Hno; [eapply Hin|]|by eapply Hno2].
  - apply (extends_empty (λ k v, source (Ok (Some (k, v))))). eapply extends_ext; [by eapply extends_trans|].
    intros k v. unfold source. split; [naive_solver|]. intros [[i Hi]|?]; [|by right]. left. exists i. split; [by eapply Hin|done].
Qed.
(** *** The images of a Dockerfile *)

Section images.
Context (escapeToken : ascii) (global : MapGetter) (l : list Stage) (platform : Platform).

(** A stage is called [name], up to case. *)
Definition named (name : string) (s : Stage) : Prop := FoldEq (s_Name s) name = true.

(** The platform a stage asks for. *)
Inductive stage_on : Stage → Platform → Prop :=
| on_target s : s_Platform s = "" → stage_on s platform
| on_own s word pl : s_Platform s ≠ "" → ProcessWordWithMatches escapeToken (s_Platform s) global = Ok word →
    platforms_Parse word = Ok pl → stage_on s pl.

(** The images the Dockerfile needs: the base of a stage that is no stage before it, and the
    source of a [COPY --from] that is neither a stage nor a number. *)
Inductive needs : string → Platform → Prop :=
| needs_base i s name pl : l !! i = Some s → ProcessWordWithMatches escapeToken (s_BaseName s) global = Ok name →
    stage_on s pl → (∀ j s', j < i → l !! j = Some s' → ¬ named name s') → needs name pl
| needs_copy s name : s ∈ l → CopyCommand name ∈ s_Commands s → name ≠ "" → (∀ n, Atoi name ≠ Ok n) →
    (∀ s', s' ∈ l → ¬ named name s') → needs name platform.

(** What a stage can get wrong itself. *)
Inductive stage_wrong : error → Prop :=
| wrong_base s e : s ∈ l → ProcessWordWithMatches escapeToken (s_BaseName s) global = Err e →
    stage_wrong (Errorf "invalid arg for stage[%s]: %v" [s_BaseName s])
| wrong_platform s name e : s ∈ l → ProcessWordWithMatches escapeToken (s_BaseName s) global = Ok name → s_Platform s ≠ "" →
    (ProcessWordWithMatches escapeToken (s_Platform s) global = Err e ∨
     ∃ word, ProcessWordWithMatches escapeToken (s_Platform s) global = Ok word ∧ platforms_Parse word = Err e) →
    stage_wrong (Errorf "invalid platform for stage[%s]: %v" [s_BaseName s]).

(** Names that are no images. *)
Definition no_image (name : string) : Prop := EqualFold name "scratch" = true ∨ EqualFold name "context" = true.

(** The state an image resolves to, under its key. *)
Inductive image_state (name : string) (pl : Platform) : string → stateMeta → Prop :=
| image_resolved ref dgst image familiar meta : ¬ no_image name → ParseAnyReference name = Ok ref →
    ResolveImageConfig name pl = Ok (dgst, image) → dgst ≠ "" → FamiliarName (ref_String ref) = Ok familiar → MarshalMeta image = Ok meta →
    image_state name pl (TrimSuffix familiar ":latest" +:+ "::" +:+ FormatAll (Normalize pl))
      {| state := {| st_fqdn := if ref_Digested ref then ref_String ref else ref_String ref +:+ "@" +:+ dgst; st_platform := pl |};
         imgMeta := meta |}.

Inductive image_error (name : string) (pl : Platform) : error → Prop :=
| bad_reference e : ¬ no_image name → ParseAnyReference name = Err e → e ≠ ErrObjectRequired ->
    image_error name pl (Errorf "invalid ref: %s" [name])
| bad_image ref e : ¬ no_image name → ParseAnyReference name = Ok ref → ResolveImageConfig name pl = Err e → e ≠ ErrObjectRequired →
    image_error name pl e
| bad_name ref dgst image e : ¬ no_image name → ParseAnyReference name = Ok ref → ResolveImageConfig name pl = Ok (dgst, image) → dgst ≠ "" →
    FamiliarName (ref_String ref) = Err e → image_error name pl (Errorf "invalid context name %s %v" [ref_String ref])
| bad_meta ref dgst image familiar e : ¬ no_image name → ParseAnyReference name = Ok ref → ResolveImageConfig name pl = Ok (dgst, image) →
    dgst ≠ "" → FamiliarName (ref_String ref) = Ok familiar → MarshalMeta image = Err e → image_error name pl e.

Lemma resolve_gives name pl k v : resolve name pl = Ok (Some (k, v)) ↔ image_state name pl k v.
Proof.
  unfold resolve, resolveImage, resolvedImageState, plStr. split.
  - destruct (EqualFold name "scratch" || EqualFold name "context") eqn:En; [done|]. apply orb_false_iff in En as [E1 E2].
    assert (Hn : ¬ no_image name) by (intros [?|?]; congruence).
    destruct (ParseAnyReference name) as [ref|e] eqn:Ep; [|by case_bool_decide].
    destruct (ResolveImageConfig name pl) as [[dgst image]|e] eqn:Er; simpl; [|by case_bool_decide].
    case_bool_decide; [done|]. destruct (FamiliarName (ref_String ref)) as [fam|e] eqn:Ef; [|done]. simpl.
    destruct (MarshalMeta image) as [meta|e] eqn:Em; [|done]. simpl. intros [= <- <-]. by eapply image_resolved.
  - intros [ref dgst image fam meta Hn Ep Er Hd Ef Em].
    assert (EqualFold name "scratch" || EqualFold name "context" = false) as ->.
    { apply orb_false_iff. split; apply not_true_iff_false; intros ?; apply Hn; [by left|by right]. }
    rewrite Ep, Er. simpl. rewrite bool_decide_false by done. by rewrite Ef, Em.
Qed.

Lemma resolve_fails name pl e : resolve name pl = Err e ↔ image_error name pl e.
Proof.
  unfold resolve, resolveImage, resolvedImageState. split.
  - destruct (EqualFold name "scratch" || EqualFold name "context") eqn:En; [done|]. apply orb_false_iff in En as [E1 E2].
    assert (Hn : ¬ no_image name) by (intros [?|?]; congruence).
    destruct (ParseAnyReference name) as [ref|e'] eqn:Ep; [|case_bool_decide; [done|]; intros [= <-]; by eapply bad_reference].
    destruct (ResolveImageConfig name pl) as [[dgst image]|e'] eqn:Er; simpl; [|case_bool_decide; [done|]; intros [= <-]; by eapply bad_image].
    case_bool_decide; [done|]. destruct (FamiliarName (ref_String ref)) as [fam|e'] eqn:Ef; simpl; [|intros [= <-]; by eapply bad_name].
    destruct (MarshalMeta image) as [meta|e'] eqn:Em; simpl; [done|]. intros [= <-]. by eapply bad_meta.
  - assert (Hno : ¬ no_image name → EqualFold name "scratch" || EqualFold name "context" = false).
    { intros Hn. apply orb_false_iff. split; apply not_true_iff_false; intros ?; apply Hn; [by left|by right]. }
    intros [e' Hn Ep He|ref e' Hn Ep Er He|ref dgst image e' Hn Ep Er Hd Ef|ref dgst image fam e' Hn Ep Er Hd Ef Em];
      rewrite Hno by done; rewrite Ep, ?Er; simpl; rewrite ?bool_decide_false by done; simpl; rewrite ?Ef; simpl; rewrite ?Em; done.
Qed.

(** [HasStage] finds the first stage of a name. *)
Lemma HasStage_from_spec i k name :
  match HasStage_from i k name with
  | Some j => ∃ n s, j = i + n ∧ k !! n = Some s ∧ named name s ∧ ∀ n' s', n' < n → k !! n' = Some s' → ¬ named name s'
  | None => ∀ s, s ∈ k → ¬ named name s
  end.
Proof.
  revert i. induction k as [|s k IH]; intros i; simpl; [by intros s ?%elem_of_nil|].
  destruct (FoldEq (s_Name s) name) eqn:E.
  - exists 0, s. split_and!; [lia|done|done|lia].
  - specialize (IH (S i)). destruct (HasStage_from (S i) k name) as [j|].
    + destruct IH as (n & s' & -> & Hk & Hn & Hlt). exists (S n), s'. split_and!; [lia|done|done|].
      intros [|n'] s1 Hl Hs; [injection Hs as <-; unfold named; congruence|]. eapply Hlt; [|done]. lia.
    + intros s' [->|Hs]%elem_of_cons; [unfold named; congruence|by apply IH].
Qed.

Lemma HasStage_before name i : (∃ j, HasStage l name = Some j ∧ j < i) ↔ ∃ j s, j < i ∧ l !! j = Some s ∧ named name s.
Proof.
  pose proof (HasStage_from_spec 0 l name) as H. unfold HasStage. split.
  - intros (j & E & Hj). rewrite E in H. destruct H as (n & s & -> & ? & ? & _). by exists n, s.
  - intros (j & s & Hj & Hs & Hn). destruct (HasStage_from 0 l name) as [j'|].
    + destruct H as (n & s' & -> & _ & _ & Hlt). exists (0 + n). split; [done|]. simpl.
      destruct (decide (j < n)); [by destruct (Hlt j s)|lia].
    + destruct (H s); [by eapply list_elem_of_lookup_2|done].
Qed.

Lemma HasStage_none name : HasStage l name = None ↔ ∀ s, s ∈ l → ¬ named name s.
Proof.
  pose proof (HasStage_from_spec 0 l name) as H. unfold HasStage. destruct (HasStage_from 0 l name) as [j|]; [|done].
  split; [done|]. intros Hno. destruct H as (n & s & _ & Hs & Hn & _). destruct (Hno s); [by eapply list_elem_of_lookup_2|done].
Qed.

Lemma stage_platform_ok s pl : resolvedStagePlatform escapeToken s global platform = Ok pl ↔ stage_on s pl.
Proof.
  unfold resolvedStagePlatform. split.
  - case_bool_decide; [intros [= <-]; by apply on_target|].
    destruct (ProcessWordWithMatches escapeToken (s_Platform s) global) as [w|] eqn:Ew; [|done].
    destruct (platforms_Parse w) as [p|] eqn:Ep; [|done]. intros [= <-]. by eapply on_own.
  - intros [s' E|s' w p E Ew Ep]; [by rewrite bool_decide_true|]. rewrite bool_decide_false by done. by rewrite Ew, Ep.
Qed.

(** What a stage goroutine does with its base image. *)
Lemma stage_gives_iff i r : (∀ x, r = Ok x → is_Some x) →
  stage_gives escapeToken global l platform i r ↔
  (∃ s name pl, l !! i = Some s ∧ ProcessWordWithMatches escapeToken (s_BaseName s) global = Ok name ∧ stage_on s pl ∧
     (∀ j s', j < i → l !! j = Some s' → ¬ named name s') ∧ resolve name pl = r) ∨
  (∃ s e, l !! i = Some s ∧ r = Err e ∧ resolveDockerfileStage escapeToken global l i s platform = Err e ∧
     (is_ok (ProcessWordWithMatches escapeToken (s_BaseName s) global) = false ∨
      is_ok (resolvedStagePlatform escapeToken s global platform) = false)).
Proof.
  intros Hr. unfold stage_gives. split.
  - intros (s & Hs & <-). destruct (ProcessWordWithMatches escapeToken (s_BaseName s) global) as [name|e] eqn:Ew.
    2: { right. eexists s, _. unfold resolveDockerfileStage. rewrite Ew. split_and!; try done. by left. }
    destruct (resolvedStagePlatform escapeToken s global platform) as [pl|e] eqn:Ep.
    2: { right. eexists s, _. unfold resolveDockerfileStage. rewrite Ew, Ep. simpl. split_and!; try done. by right. }
    left. exists s, name, pl. apply stage_platform_ok in Ep as Hon. split_and!; try done.
    + intros j s' Hj Hs' Hn. destruct (proj2 (HasStage_before name i)) as (j' & Ej & Hlt); [by exists j, s'|].
      unfold resolveDockerfileStage in Hr. rewrite Ew, Ep in Hr. simpl in Hr. rewrite Ej, bool_decide_true in Hr by done.
      by destruct (Hr None eq_refl).
    + unfold resolveDockerfileStage in *. rewrite Ew, Ep in *. simpl in *. destruct (HasStage l name); [|done].
      case_bool_decide; [|done]. by destruct (Hr None eq_refl).
  - intros [(s & name & pl & Hs & Ew & Hon & Hbefore & <-)|(s & e & Hs & -> & ? & _)]; [|by exists s].
    exists s. split; [done|]. unfold resolveDockerfileStage. apply stage_platform_ok in Hon. rewrite Ew, Hon. simpl.
    destruct (HasStage l name) as [j|] eqn:Ej; [|done]. case_bool_decide; [|done].
    destruct (proj1 (HasStage_before name i)) as (j' & s' & ? & ? & ?); [by exists j|]. by destruct (Hbefore j' s').
Qed.

Lemma copy_sources_spec from : from ∈ copy_sources l ↔ ∃ s, s ∈ l ∧ CopyCommand from ∈ s_Commands s.
Proof.
  unfold copy_sources. rewrite list_elem_of_bind. split.
  - intros (s & (c & Hc & Hin)%list_elem_of_bind & Hs). exists s. split; [done|].
    destruct c; [|by apply elem_of_nil in Hc]. by apply list_elem_of_singleton in Hc as ->.
  - intros (s & Hs & Hc). exists s. split; [|done]. apply list_elem_of_bind. exists (CopyCommand from). split; [|done].
    by apply list_elem_of_singleton.
Qed.

Lemma external_spec from : external l from = true ↔ from ≠ "" ∧ (∀ n, Atoi from ≠ Ok n) ∧ ∀ s, s ∈ l → ¬ named from s.
Proof.
  unfold external. rewrite !andb_true_iff, !bool_decide_eq_true, negb_true_iff, HasStage_none.
  assert (is_ok (Atoi from) = false ↔ ∀ n, Atoi from ≠ Ok n) as ->; [|tauto]. destruct (Atoi from); simpl; naive_solver.
Qed.

Definition source (r : res (option (string * stateMeta))) : Prop :=
  (∃ i, stage_gives escapeToken global l platform i r) ∨ (∃ from, from ∈ copy_sources l ∧ copy_gives l platform from r).

Lemma source_state k v : source (Ok (Some (k, v))) ↔ ∃ name pl, needs name pl ∧ image_state name pl k v.
Proof.
  unfold source, copy_gives. setoid_rewrite stage_gives_iff; [|intros x [= <-]; by eexists]. split.
  - intros [(i & [(s & name & pl & ? & ? & ? & ? & ?%resolve_gives)|(s & e & _ & ? & _)])|(from & (s & ? & ?)%copy_sources_spec & (? & ? & ?)%external_spec & ?%resolve_gives)];
      [|done|].
    + exists name, pl. split; [by eapply needs_base|done].
    + exists from, platform. split; [by eapply needs_copy|done].
  - intros (name & pl & [i s name' pl' Hs Hw Hon Hb|s name' Hs Hc Hne Ha Hn] & Himg%resolve_gives).
    + left. exists i. left. by exists s, name', pl'.
    + right. exists name'. split; [apply copy_sources_spec; by exists s|]. split; [by apply external_spec|done].
Qed.

Lemma source_error e : source (Err e) ↔ stage_wrong e ∨ ∃ name pl, needs name pl ∧ image_error name pl e.
Proof.
  unfold source, copy_gives. setoid_rewrite stage_gives_iff; [|done]. split.
  - intros [(i & [(s & name & pl & ? & ? & ? & ? & ?%resolve_fails)|(s & e' & Hs & [= <-] & He & Hbad)])|(from & (s & ? & ?)%copy_sources_spec & (? & ? & ?)%external_spec & ?%resolve_fails)].
    + right. exists name, pl. split; [by eapply needs_base|done].
    + left. apply list_elem_of_lookup_2 in Hs. unfold resolveDockerfileStage in He.
      destruct (ProcessWordWithMatches escapeToken (s_BaseName s) global) as [name|e'] eqn:Ew; [|injection He as <-; by eapply wrong_base].
      destruct Hbad as [?|Hbad]; [done|]. destruct (resolvedStagePlatform escapeToken s global platform) as [pl|e'] eqn:Ep; [done|].
      simpl in He. injection He as <-. unfold resolvedStagePlatform in Ep. case_bool_decide; [done|].
      destruct (ProcessWordWithMatches escapeToken (s_Platform s) global) as [w|e0] eqn:Ew2.
      * destruct (platforms_Parse w) as [p|e0] eqn:Ep2; [done|]. injection Ep as <-. eapply wrong_platform; try done. right. by exists w.
      * injection Ep as <-. eapply wrong_platform; try done. by left.
    + right. exists from, platform. split; [by eapply needs_copy|done].
  - intros [[s e' Hs Ew|s name e' [i Hs]%list_elem_of_lookup Ew Hne Hbad]|(name & pl & [i s name' pl' Hs Hw Hon Hb|s name' Hs Hc Hne Ha Hn] & Himg%resolve_fails)].
    + apply list_elem_of_lookup in Hs as [i Hs]. left. exists i. right. eexists s, _. unfold resolveDockerfileStage. rewrite Ew.
      split_and!; try done. by left.
    + left. exists i. right. eexists s, _. unfold resolveDockerfileStage, resolvedStagePlatform. rewrite Ew, bool_decide_false by done.
      destruct Hbad as [Hb|(w & Hw & Hb)]; [rewrite Hb|rewrite Hw, Hb]; simpl; split_and!; try done; by right.
    + left. exists i. left. by exists s, name', pl'.
    + right. exists name'. split; [apply copy_sources_spec; by exists s|]. split; [by apply external_spec|done].
Qed.
End images.

(** C35. In whatever order the stage goroutines finish, resolving the sources of a Dockerfile
    for a platform fails only with the error of one of its base images, stage platforms or
    [COPY --from] images, and succeeds exactly when none of them is wrong.  The map then has a
    state under the key of each image it needs, with the reference, digest, platform and
    configuration that image resolved to, and no other.  Needed are the base of a stage, its
    arguments expanded and for the stage's own platform, unless an earlier stage has that name;
    and the source of a [COPY --from] that is not empty, not a number and not the name of a
    stage; names that are no images give no state. *)
Theorem resolveStates_spec o platform dn bp escapeToken ast l args m_err :
  parser_Parse (Dockerfile o) = Ok (escapeToken, ast) → instructions_Parse ast = Ok (l, args) →
  dn ≡ₚ seq 0 (length l) → head (BOBuildPlatforms o) = Some bp → resolveStates o platform dn = Some m_err →
  let global := globalArgs bp platform (BuildArgs o) (Target o) in
  let gives k v := ∃ name pl, needs escapeToken global l platform name pl ∧ image_state name pl k v in
  let wrong e := stage_wrong escapeToken global l e ∨ ∃ name pl, needs escapeToken global l platform name pl ∧ image_error name pl e in
  match m_err with
  | Ok m => (∀ e, ¬ wrong e) ∧ (∀ k v, m !! k = Some v → gives k v) ∧ (∀ k, is_Some (m !! k) ↔ ∃ v, gives k v)
  | Err e => wrong e
  end.
Proof.
  intros Hpar Hins Hdn Hbp Hr global gives wrong.
  pose proof (resolveStates_sources o platform dn bp escapeToken ast l args m_err Hpar Hins Hdn Hbp Hr) as H.
  cbv zeta in H. fold global in H.
  destruct m_err as [m|e]; [|by apply source_error].
  destruct H as (H1 & H2 & H3). split_and!.
  - intros e He%source_error. by apply (H1 e).
  - intros k v Hk. by apply source_state, H2.
  - intros k. rewrite H3. split; intros [v Hv]; exists v; by apply source_state.
Qed.
End resolving.

(** ** Solving one platform *)

(** The LLB, Dockerfile and gateway libraries: [Llb] is an [llb.State], [Def] a [pb.Definition]. *)
Class SolveLibs := {
  Llb : Type; Def : Type; Ref : Type; Image : Type; SourceMap : Type; LintResults : Type; Client : Type;
  MarshalState : State → res Def;
  NewDefinitionOp : Def → res Llb;                                    (* and the state of its output *)
  NewClient : smap → res (gmap string Llb) → res Client;              (* over the options and inputs of a gateway client *)
  ReadEntrypoint : Client → string → res (option SourceMap);          (* [None]: no source or no source map *)
  cl_ExtraHosts : Client → list (string * string);
  cl_NetworkMode : Client → Z;
  cl_ShmSize : Client → Z;
  cl_Ulimits : Client → list (string * Z * Z);
  PbCaps : CapList;                                                   (* BuildKit's own table *)
  Marshal : Llb → res Def;
  GetPlatform : Llb → res unit;
  ToState : Ref → res unit;
  MarshalImage : option Image → res bytes;
  metadataLayer : string → bytes → Platform → Llb;                    (* scratch with one file *)
  lint_warnings : LintResults → nat;
  lint_error : LintResults → bool;
  lint_errorText : LintResults → string;                              (* [PrintErrorTo] *)
  ToResult : LintResults → res (gmap string bytes);                   (* the metadata of the result *)
}.

(** [dockerfile2llb.ConvertOpt], the fields that are set. *)
Record ConvertOpt `{SL : SolveLibs} := {
  co_TargetPlatform : Platform;
  co_MetaResolver : ResolverProxy;
  co_LLBCaps : CapSet;
  co_Client : Client;
  co_SourceMap : SourceMap;
  co_BuildPlatforms : list Platform;
  co_TargetPlatforms : list Platform;
  co_BuildArgs : smap;
  co_Labels : smap;
  co_Target : string;
  co_MultiPlatformRequested : bool;
  co_ImageResolveMode : string;
  co_ExtraHosts : list (string * string);
  co_NetworkMode : Z;
  co_ShmSize : Z;
  co_Ulimits : list (string * Z * Z);
}.

Class ConvertLibs `{SL : SolveLibs} := {
  Dockerfile2LLB : bytes → ConvertOpt → res (Llb * option Image);
  DockerfileLint : bytes → ConvertOpt → res LintResults;
}.

Section solving.
Context {BL : BuildLibs} {SL : SolveLibs} {CL : ConvertLibs}.

(** A [gateway.Client]: its options, its inputs, and [Solve] with [SingleRef]. *)
Record gwClient := {
  gc_Opts : smap;
  gc_Inputs : res (gmap string Llb);
  gc_Solve : Def → smap → gmap string Def → res (option Ref);
}.

Record frontendClient := {
  fc_Client : gwClient;
  fc_frontendOpt : smap;
  fc_frontendInputs : gmap string Def;
}.

(** [order] is the iteration order of the inputs. *)
Definition Inputs_loop (order : list (string * Def)) (inputs : gmap string Llb) : res (gmap string Llb) :=
  res_fold (λ inputs kv,
    match inputs !! kv.1 with
    | Some _ => Ok inputs
    | None => state ← NewDefinitionOp kv.2; Ok (<[kv.1 := state]> inputs)
    end) inputs order.

Definition frontendClient_Inputs (fc : frontendClient) (order : list (string * Def)) : res (gmap string Llb) :=
  inputs ← gc_Inputs (fc_Client fc); Inputs_loop order inputs.

Definition frontendClient_BuildOpts (fc : frontendClient) (order : list (string * string)) : smap :=
  BuildOpts_loop (gc_Opts (fc_Client fc)) order.

(** The iteration orders of the maps of one call. *)
Record orders := {
  or_states : list (string * stateMeta);
  or_opts : smap → list (string * string);
  or_inputs : gmap string Def → list (string * Def);
}.

Definition marshal_states (order : list (string * stateMeta)) : res (gmap string Def) :=
  list_to_map <$> res_map (λ kv, d ← MarshalState (state kv.2); Ok (kv.1, d)) order.

Definition setDockerfileSourceMap (source : option SourceMap) : res SourceMap :=
  match source with None => Err (Errorf "dockerfile source map missing" []) | Some sm => Ok sm end.

Definition dockerfileConvertOpt (o : BOpts) (pl : Platform) (c : gwClient) (m : states) (order : orders) :
    res (ConvertOpt * smap * gmap string Def) :=
  let capset := CapSet_of PbCaps (All Caps) in
  let fopt := frontendOpt o m in
  inputs ← marshal_states (or_states order);
  let fc := {| fc_Client := c; fc_frontendOpt := fopt; fc_frontendInputs := inputs |} in
  cl ← NewClient (frontendClient_BuildOpts fc (or_opts order fopt)) (frontendClient_Inputs fc (or_inputs order inputs));
  source ← ReadEntrypoint cl "dockerfile";
  sm ← setDockerfileSourceMap source;
  Ok ({| co_TargetPlatform := pl; co_MetaResolver := Resolver o; co_LLBCaps := capset; co_Client := cl; co_SourceMap := sm;
         co_BuildPlatforms := BOBuildPlatforms o; co_TargetPlatforms := Platforms o; co_BuildArgs := BuildArgs o;
         co_Labels := Labels o; co_Target := Target o; co_MultiPlatformRequested := true; co_ImageResolveMode := "local";
         co_ExtraHosts := cl_ExtraHosts cl; co_NetworkMode := cl_NetworkMode cl; co_ShmSize := cl_ShmSize cl;
         co_Ulimits := cl_Ulimits cl |}, fopt, inputs).

Definition metadataOnlyMarker : string := "/.container-metadata-only".
Definition metadataOnlyText : bytes := bytes_of "# This image contains only metadata (ENV/ARG/LABEL)" ++ [byte 10].

(** The reference of the solved build, or of the layer that stands for a build without one. *)
Definition solve_ref (o : BOpts) (pl : Platform) (c : gwClient) (m : states) (order : orders) : res (option Ref * option Image) :=
  '(convertOpt, fopt, inputs) ← dockerfileConvertOpt o pl c m order;
  '(llb, image) ← Dockerfile2LLB (Dockerfile o) convertOpt;
  def ← Marshal llb;
  _ ← GetPlatform llb;
  ref ← gc_Solve c def fopt inputs;
  match ref with
  | Some ref => Ok (Some ref, image)
  | None =>
      match image with
      | None => Err ErrNoBuildDirectives
      | Some _ =>
          layerDef ← Marshal (metadataLayer metadataOnlyMarker metadataOnlyText pl);
          ref ← gc_Solve c layerDef fopt inputs;
          Ok (ref, image)
      end
  end.

(** [solvePlatform]; [None] is the panic of a method call on a nil reference. *)
Definition solvePlatform (o : BOpts) (pl : Platform) (c : gwClient) (m : states) (order : orders) : option (res (Ref * bytes)) :=
  match solve_ref o pl c m order with
  | Err e => Some (Err e)
  | Ok (None, _) => None
  | Ok (Some ref, image) => Some (_ ← ToState ref; cfgJSON ← MarshalImage image; Ok (ref, cfgJSON))
  end.

(** ** Checking without a build *)

Definition checkPlatform (o : BOpts) (pl : Platform) (c : gwClient) (resolved : res states) (order : orders) :
    res (LintResults * gmap string bytes) :=
  m ← resolved;
  '(convertOpt, _, _) ← dockerfileConvertOpt o pl c m order;
  results ← DockerfileLint (Dockerfile o) convertOpt;
  md ← ToResult results;
  Ok (results, md).

(** What is written to the progress writer. *)
Definition check_output (results : LintResults) (md : gmap string bytes) : list string :=
  (match md !! "result.txt" with Some (_ :: _ as text) => [string_of text] | _ => [] end) ++
  (if lint_error results
   then [(if bool_decide (0 < lint_warnings results) then string_of [byte 10] else "") +:+ lint_errorText results]
   else if bool_decide (lint_warnings results = 0)
   then ["Check complete, no warnings found." +:+ string_of [byte 10]] else []).

(** The result's metadata and the progress output; [None] is a panic, without a target platform or
    of [resolveStates]. *)
Definition checkBuild (o : BOpts) (c : gwClient) (resolve_for : Platform → option (res states)) (order : orders) :
    option (res (gmap string bytes) * list string) :=
  pl ← head (Platforms o);
  resolved ← resolve_for pl;
  Some (match checkPlatform o pl c resolved order with
        | Err e => (Err e, [])
        | Ok (results, md) =>
            let output := match ProgressWriter o with Some _ => check_output results md | None => [] end in
            if bool_decide (0 < lint_warnings results) || lint_error results
            then (Err (Errorf "build check failed" []), output)
            else (Ok md, output)
        end).
End solving.

(** ** The platform goroutines of [frontend] *)

Section platforms.
Context {S R : Type} (resolve_at : nat → res S) (solve_at : nat → option S → res R).

(** A goroutine that fails to resolve sends the error and goes on to solve without states. *)
Inductive plat_pc := PResolve | PSendResolve (e : error) | PSolve (st : option S) | PSendSolve (e : error) | PReturned | PDone.

Record fstate := { pcs : list plat_pc; slots : list (option R); returned : option (res (list (option R))) }.

Definition f_init (n : nat) : fstate := {| pcs := replicate n PResolve; slots := replicate n None; returned := None |}.

Inductive f_label := FGo (i : nat) | FErr (i : nat) | FDone.

Definition finished (p : plat_pc) : bool := match p with PReturned | PDone => true | _ => false end.

Definition f_step (l : f_label) (s : fstate) : option fstate :=
  match l with
  | FGo i =>
      pc ← pcs s !! i;
      match pc with
      | PResolve =>
          Some {| pcs := <[i := match resolve_at i with Ok st => PSolve (Some st) | Err e => PSendResolve e end]> (pcs s);
                  slots := slots s; returned := returned s |}
      | PSolve st =>
          match solve_at i st with
          | Ok r => Some {| pcs := <[i := PDone]> (pcs s); slots := <[i := Some r]> (slots s); returned := returned s |}
          | Err e => Some {| pcs := <[i := PSendSolve e]> (pcs s); slots := slots s; returned := returned s |}
          end
      | _ => None
      end
  | FErr i =>   (* the unbuffered send to [plErrCh] meets the select of [frontend] *)
      pc ← pcs s !! i;
      match returned s, pc with
      | None, PSendResolve e => Some {| pcs := <[i := PSolve None]> (pcs s); slots := slots s; returned := Some (Err e) |}
      | None, PSendSolve e => Some {| pcs := <[i := PReturned]> (pcs s); slots := slots s; returned := Some (Err e) |}
      | _, _ => None
      end
  | FDone =>
      match returned s with
      | None => if forallb finished (pcs s) then Some {| pcs := pcs s; slots := slots s; returned := Some (Ok (slots s)) |} else None
      | Some _ => None
      end
  end.

Fixpoint f_run (ls : list f_label) (s : fstate) : option fstate :=
  match ls with [] => Some s | l :: ls => s' ← f_step l s; f_run ls s' end.

Definition platform_fails (n : nat) (e : error) : Prop :=
  ∃ i, i < n ∧ (resolve_at i = Err e ∨ ∃ st, resolve_at i = Ok st ∧ solve_at i (Some st) = Err e).

(** What a goroutine's place says, [ret] telling whether [frontend] has returned. *)
Definition pc_ok (ret : bool) (i : nat) (slot : option R) (pc : plat_pc) : Prop :=
  match pc with
  | PResolve => True
  | PSendResolve e => resolve_at i = Err e
  | PSolve (Some st) => resolve_at i = Ok st
  | PSolve None => ret = true
  | PSendSolve e => ret = true ∨ ∃ st, resolve_at i = Ok st ∧ solve_at i (Some st) = Err e
  | PReturned => ret = true
  | PDone => ret = true ∨ ∃ st r, resolve_at i = Ok st ∧ solve_at i (Some st) = Ok r ∧ slot = Some r
  end.

Definition has_returned (s : fstate) : bool := match returned s with Some _ => true | None => false end.

Record f_ok (n : nat) (s : fstate) : Prop := {
  fo_len : length (pcs s) = n ∧ length (slots s) = n;
  fo_pcs i pc slot : pcs s !! i = Some pc → slots s !! i = Some slot → pc_ok (has_returned s) i slot pc;
  fo_ret : match returned s with
           | None => True
           | Some (Err e) => platform_fails n e
           | Some (Ok rs) => length rs = n ∧ ∀ i, i < n → ∃ st r, resolve_at i = Ok st ∧ solve_at i (Some st) = Ok r ∧ rs !! i = Some (Some r)
           end;
}.

Lemma pc_ok_returned ret i slot pc : pc_ok ret i slot pc → pc_ok true i slot pc.
Proof. by destruct pc as [| |[]| | |]; simpl; auto. Qed.

(** Changing one place (and perhaps its slot) keeps the others. *)
Lemma f_ok_update n s i pc slots' (ret : option (res (list (option R)))) : f_ok n s → length slots' = n → (∀ j, j ≠ i → slots' !! j = slots s !! j) →
  (∀ slot, slots' !! i = Some slot → pc_ok (if ret then true else has_returned s) i slot pc) →
  match ret with Some (Err e) => platform_fails n e | Some (Ok _) => False | None => True end →
  f_ok n {| pcs := <[i := pc]> (pcs s); slots := slots'; returned := match ret with Some r => Some r | None => returned s end |}.
Proof.
  intros [[L1 L2] Hp Hr] Hl Hsame Hnew Hret. split; simpl.
  - by rewrite length_insert.
  - intros j pc' sl Hj Hsl. destruct (decide (j = i)) as [->|Hne].
    + apply list_lookup_insert_Some in Hj as [(_ & <- & _)|[? _]]; [|done].
      specialize (Hnew _ Hsl). unfold has_returned in *. simpl. by destruct ret.
    + rewrite list_lookup_insert_ne in Hj by done. rewrite Hsame in Hsl by done.
      specialize (Hp j pc' sl Hj Hsl). unfold has_returned in *. simpl. destruct ret; [by eapply pc_ok_returned|done].
  - destruct ret as [[|]|]; [done|done|exact Hr].
Qed.

Lemma f_step_ok n l s s' : f_ok n s → f_step l s = Some s' → f_ok n s'.
Proof.
  intros Hok. pose proof Hok as [[L1 L2] Hp Hr]. destruct l as [i|i|]; simpl.
  - destruct (pcs s !! i) as [pc|] eqn:Hi; simpl; [|done].
    destruct (lookup_lt_is_Some_2 (slots s) i) as [sl Hsl]; [apply lookup_lt_Some in Hi; lia|].
    pose proof (Hp i pc sl Hi Hsl) as Hpc. destruct pc as [|e|st|e| |]; [|done| |done|done|done].
    + intros [= <-]. apply (f_ok_update n s i _ (slots s) None); [done|done|done| |done].
      intros slot _. by destruct (resolve_at i) eqn:E.
    + destruct (solve_at i st) as [r|e] eqn:Es; intros [= <-].
      * apply (f_ok_update n s i PDone _ None); [done|by rewrite length_insert|by intros; rewrite list_lookup_insert_ne| |done].
        intros slot Hslot. apply list_lookup_insert_Some in Hslot as [(_ & <- & _)|[? _]]; [|done].
        destruct st as [st|]; simpl in *; [|by left]. right. by exists st, r.
      * apply (f_ok_update n s i (PSendSolve e) (slots s) None); [done|done|done| |done].
        intros slot _. destruct st as [st|]; simpl in *; [|by left]. right. by exists st.
  - destruct (pcs s !! i) as [pc|] eqn:Hi; simpl; [|done]. destruct (returned s) eqn:Er; [done|].
    destruct (lookup_lt_is_Some_2 (slots s) i) as [sl Hsl]; [apply lookup_lt_Some in Hi; lia|].
    pose proof (Hp i pc sl Hi Hsl) as Hpc. assert (Hnr : has_returned s = false) by (unfold has_returned; by rewrite Er).
    assert (Hin : i < n) by (apply lookup_lt_Some in Hi; lia).
    rewrite Hnr in Hpc. destruct pc as [|e|st|e| |]; [done| |done| |done|done]; intros [= <-].
    + apply (f_ok_update n s i (PSolve None) (slots s) (Some (Err e))); [done|done|done|done|]. exists i. split; [done|]. by left.
    + apply (f_ok_update n s i PReturned (slots s) (Some (Err e))); [done|done|done|done|].
      destruct Hpc as [?|(st & ? & ?)]; [done|]. exists i. split; [done|]. right. by exists st.
  - destruct (returned s) eqn:Er; [done|]. destruct (forallb finished (pcs s)) eqn:Hf; [|done]. intros [= <-].
    assert (Hnr : has_returned s = false) by (unfold has_returned; by rewrite Er).
    split; simpl; [done| |].
    + intros i pc sl Hi Hsl. eapply pc_ok_returned. by apply Hp.
    + split; [done|]. intros i Hi. destruct (lookup_lt_is_Some_2 (pcs s) i) as [pc Hpc]; [lia|].
      destruct (lookup_lt_is_Some_2 (slots s) i) as [sl Hsl]; [lia|]. specialize (Hp i pc sl Hpc Hsl). rewrite Hnr in Hp.
      rewrite forallb_forall in Hf. assert (Hfin : finished pc = true) by (apply Hf, list_elem_of_In; by eapply list_elem_of_lookup_2).
      destruct pc; simpl in *; try done. destruct Hp as [?|(st & r & ? & ? & ->)]; [done|]. exists st, r. by rewrite Hsl.
Qed.

(** Every step brings a goroutine or the select nearer to its end. *)
Definition pc_rank (pc : plat_pc) : nat :=
  match pc with PResolve => 4 | PSendResolve _ => 3 | PSolve _ => 2 | PSendSolve _ => 1 | PReturned | PDone => 0 end.
Definition f_rank (s : fstate) : nat := sum_list (pc_rank <$> pcs s) + if has_returned s then 0 else 1.

Lemma sum_rank_insert (l : list plat_pc) i pc pc' : l !! i = Some pc →
  sum_list (pc_rank <$> <[i := pc']> l) + pc_rank pc = sum_list (pc_rank <$> l) + pc_rank pc'.
Proof.
  revert i. induction l as [|x l IH]; intros [|i] Hi; csimpl in *; try done; [injection Hi as ->; lia|]. specialize (IH i Hi). csimpl in IH. lia.
Qed.

Lemma f_step_rank l s s' : f_step l s = Some s' → f_rank s' < f_rank s.
Proof.
  unfold f_rank, has_returned. destruct l as [i|i|]; simpl.
  - destruct (pcs s !! i) as [pc|] eqn:Hi; simpl; [|done].
    destruct pc as [|e|st|e| |]; try done.
    + intros [= <-]. simpl. pose proof (sum_rank_insert _ _ _ (match resolve_at i with Ok st => PSolve (Some st) | Err e => PSendResolve e end) Hi) as H.
      destruct (resolve_at i); simpl in *; lia.
    + destruct (solve_at i st) as [r|e]; intros [= <-]; simpl;
        [pose proof (sum_rank_insert _ _ _ PDone Hi)|pose proof (sum_rank_insert _ _ _ (PSendSolve e) Hi)]; simpl in *; lia.
  - destruct (pcs s !! i) as [pc|] eqn:Hi; simpl; [|done]. destruct (returned s); [done|].
    destruct pc as [|e|st|e| |]; try done; intros [= <-]; simpl;
      [pose proof (sum_rank_insert _ _ _ (PSolve None) Hi)|pose proof (sum_rank_insert _ _ _ PReturned Hi)]; simpl in *; lia.
  - destruct (returned s); [done|]. destruct (forallb finished (pcs s)); [|done]. intros [= <-]. simpl. lia.
Qed.

Lemma f_run_rank ls s s' : f_run ls s = Some s' → length ls + f_rank s' ≤ f_rank s.
Proof.
  revert s. induction ls as [|l ls IH]; intros s; simpl; [by intros [= <-]|].
  destruct (f_step l s) as [s1|] eqn:Hs; simpl; [|done]. intros H%IH. apply f_step_rank in Hs. lia.
Qed.

Lemma f_rank_init n : f_rank (f_init n) = 4 * n + 1.
Proof.
  assert (H : sum_list (pc_rank <$> replicate n PResolve) = 4 * n); [|unfold f_rank; cbn [pcs f_init has_returned returned]; lia].
  induction n as [|n IH]; [done|]. csimpl. lia.
Qed.

Lemma f_run_ok n ls s s' : f_ok n s → f_run ls s = Some s' → f_ok n s'.
Proof.
  revert s. induction ls as [|l ls IH]; intros s Hok; simpl; [by intros [= <-]|].
  destruct (f_step l s) as [s1|] eqn:Hs; simpl; [|done]. apply IH. by eapply f_step_ok.
Qed.

Lemma f_ok_init n : f_ok n (f_init n).
Proof.
  split; simpl; [by rewrite !length_replicate| |done].
  intros i pc sl Hi _. apply lookup_replicate in Hi as [-> _]. done.
Qed.
End platforms.

(** C15. Under every interleaving of the platform goroutines and [frontend]'s select: a result
    has, for every platform of the request in its own place, what solving it with its resolved
    states gave; an error is the error of resolving or solving some platform; and as long as
    [frontend] has not returned some goroutine can move, and no run is longer than four steps
    per platform and one, so it does return. *)
Theorem frontend_sound {S R} (resolve_at : nat → res S) (solve_at : nat → option S → res R) n ls s :
  f_run resolve_at solve_at ls (f_init n) = Some s →
  length ls ≤ 4 * n + 1 ∧
  match returned s with
  | Some (Ok rs) => length rs = n ∧
      ∀ i, i < n → ∃ st r, resolve_at i = Ok st ∧ solve_at i (Some st) = Ok r ∧ rs !! i = Some (Some r)
  | Some (Err e) => platform_fails resolve_at solve_at n e
  | None => ∃ l, is_Some (f_step resolve_at solve_at l s)
  end.
Proof.
  intros Hr. split; [apply f_run_rank in Hr; rewrite f_rank_init in Hr; lia|].
  destruct (f_run_ok resolve_at solve_at n ls _ s (f_ok_init _ _ n) Hr) as [_ _ Hret].
  destruct (returned s) as [[rs|e]|] eqn:Er; [done|done|].
  destruct (forallb finished (pcs s)) eqn:Hf.
  - exists FDone. simpl. rewrite Er, Hf. by eexists.
  - assert (Hex : ∃ i pc, pcs s !! i = Some pc ∧ finished pc = false).
    { clear -Hf. induction (pcs s) as [|p l IH]; [done|]. simpl in Hf. destruct (finished p) eqn:E; [|by exists 0, p].
      destruct (IH Hf) as (i & pc & ? & ?). by exists (Datatypes.S i), pc. }
    destruct Hex as (i & pc & Hi & Hpc). destruct pc as [|e|st|e| |]; try done.
    + exists (FGo i). simpl. rewrite Hi. by eexists.
    + exists (FErr i). simpl. rewrite Hi, Er. by eexists.
    + exists (FGo i). simpl. rewrite Hi. simpl. destruct (solve_at i st); by eexists.
    + exists (FErr i). simpl. rewrite Hi, Er. by eexists.
Qed.

(** ** A Dockerfile with three stages *)

#[export] Instance ex_images : ImageLibs := {|
  FoldEq a b := bool_decide (a = b); Reference := string; ref_String r := r; ref_Digested _ := false;
  ParseAnyReference s := if bool_decide (s = "!") then Err (Errorf "bad" []) else Ok s;
  FamiliarName s := Ok s;
  Normalize p := if bool_decide (p_Architecture p = "arm64") then linux "arm64" "" else p;
  FormatAll p := p_OS p +:+ "/" +:+ p_Architecture p +:+ (if bool_decide (p_Variant p = "") then "" else "/" +:+ p_Variant p); Format p := p_OS p +:+ "/" +:+ p_Architecture p;
  ResolveImageConfig s _ := Ok ("sha256:1", bytes_of s); MarshalMeta b := Ok b |}.

Definition ex_pl : Platform := linux "arm64" "v8".
Definition ex_gives (k : string) (v : stateMeta) : Prop :=
  ∃ name pl, needs backslash (globalArgs ex_pl ex_pl ∅ "") ex_stages ex_pl name pl ∧ image_state name pl k v.
Definition ex_states : states :=
  match resolveStates three_outputs ex_pl [2; 0; 1] with Some (Ok m) => m | _ => ∅ end.

Lemma ex_states_ok : resolveStates three_outputs ex_pl [2; 0; 1] = Some (Ok ex_states).
Proof. vm_compute. reflexivity. Qed.

Lemma resolveStates_spec_witness :
  (map_to_list ex_states).*1 ≡ₚ ["golang::linux/arm64"; "tools::linux/arm64"] ∧
  (∀ k v, ex_states !! k = Some v → ex_gives k v) ∧ (∀ k, is_Some (ex_states !! k) ↔ ∃ v, ex_gives k v).
Proof.
  split; [apply (bool_decide_unpack _); vm_compute; exact I|].
  eapply (resolveStates_spec three_outputs ex_pl [2; 0; 1] ex_pl backslash _ ex_stages [[("BASE", "alpine"); ("TAG", "3")]] (Ok ex_states));
    [vm_compute; reflexivity|vm_compute; reflexivity|apply (bool_decide_unpack _); vm_compute; exact I|reflexivity|exact ex_states_ok].
Defined.

Definition ex_resolve (i : nat) : res nat := if bool_decide (i = 1) then Err EOF else Ok i.
Definition ex_solve (i : nat) (st : option nat) : res nat := match st with Some k => Ok (k + 10) | None => Err Canceled end.

(** The second platform fails while the first is still at work. *)
Lemma frontend_sound_witness : ∃ s, f_run ex_resolve ex_solve [FGo 1; FGo 0; FErr 1; FGo 1] (f_init 2) = Some s ∧
  returned s = Some (Err EOF) ∧ platform_fails ex_resolve ex_solve 2 EOF.
Proof.
  eexists. split; [vm_compute; reflexivity|]. split; [reflexivity|].
  eapply (proj2 (frontend_sound ex_resolve ex_solve 2 [FGo 1; FGo 0; FErr 1; FGo 1] _ eq_refl)).
Defined.
