(* ===== verification/BuildRun.v ===== *)
(** * A build from its options to its result ([frontend], [checkBuild], [Build])

    [Build] connects to buildkitd, configures exports and solve options and hands [frontend]
    to BuildKit, which calls it back with the options in its context.  The connection, the
    solver and the JSON encoder are parameters; the goroutines of [frontend] are the step
    system of [Frontend.v], here with the code they run. *)

From Stdlib Require Import Ascii.
From S2P Require Import Prelude GoStrings GoPath Api BuildUtils FsWalk BuildOpts BuildOutput Frontend.

(** ** The result of the frontend *)

Definition ExporterImageConfigKey : string := "containerimage.config".
Definition ExporterPlatformsKey : string := "refs.platforms".

(** [exptypes.Platform] *)
Record ExpPlatform := { ep_ID : string; ep_Platform : Platform }.

(** ** Platform goroutines that may panic *)

Section panics.
Context {S R : Type} (resolve : nat → option (res S)) (solve : nat → option S → option (res R)).

(** The step would run into a panic, which ends the process. *)
Definition dies (l : f_label) (s : fstate (S := S) (R := R)) : bool :=
  match l with
  | FGo i =>
      match pcs s !! i with
      | Some PResolve => match resolve i with None => true | Some _ => false end
      | Some (PSolve st) => match solve i st with None => true | Some _ => false end
      | _ => false
      end
  | _ => false
  end.

(** The goroutines of [Frontend.v]; the value for a call that panics is never used. *)
Definition or_else {A} (e : error) (x : option (res A)) : res A := default (Err e) x.
Fixpoint p_run (ls : list f_label) (s : fstate) : option fstate :=
  match ls with
  | [] => Some s
  | l :: ls => if dies l s then None else s' ← f_step (λ i, or_else EOF (resolve i)) (λ i st, or_else EOF (solve i st)) l s; p_run ls s'
  end.

Lemma step_or_else e l s : dies l s = false →
  f_step (λ i, or_else EOF (resolve i)) (λ i st, or_else EOF (solve i st)) l s =
  f_step (λ i, or_else e (resolve i)) (λ i st, or_else e (solve i st)) l s.
Proof.
  destruct l as [i|i|]; [|done..]. simpl. destruct (pcs s !! i) as [[|?|st|?| |]|]; simpl; try done.
  - by destruct (resolve i).
  - by destruct (solve i st).
Qed.

Lemma p_run_f_run e ls s s' : p_run ls s = Some s' →
  f_run (λ i, or_else e (resolve i)) (λ i st, or_else e (solve i st)) ls s = Some s'.
Proof.
  revert s. induction ls as [|l ls IH]; intros s; simpl; [done|]. destruct (dies l s) eqn:Hd; [done|].
  rewrite (step_or_else e) by done. destruct (f_step _ _ l s) as [s1|]; [apply IH|done].
Qed.

Lemma or_else_ok {A} e (x : option (res A)) a : or_else e x = Ok a → x = Some (Ok a).
Proof. by destruct x as [[]|]; simpl; [intros [= ->]|..]. Qed.
Lemma or_else_err {A} e e' (x : option (res A)) : e ≠ e' → or_else e x = Err e' → x = Some (Err e').
Proof. destruct x as [[]|]; simpl; [done|by intros _ [= ->]|by intros ? [= ->]]. Qed.

(** What [frontend_sound] says, for runs without a panic. *)
Lemma p_run_returned n ls s : p_run ls (f_init n) = Some s →
  match returned s with
  | None => True
  | Some (Ok rs) => length rs = n ∧
      ∀ i, i < n → ∃ st r, resolve i = Some (Ok st) ∧ solve i (Some st) = Some (Ok r) ∧ rs !! i = Some (Some r)
  | Some (Err e) => ∃ i, i < n ∧ (resolve i = Some (Err e) ∨ ∃ st, resolve i = Some (Ok st) ∧ solve i (Some st) = Some (Err e))
  end.
Proof.
  intros Hr. assert (Hok : ∀ e, f_ok (λ i, or_else e (resolve i)) (λ i st, or_else e (solve i st)) n s).
  { intros e. eapply f_run_ok; [apply f_ok_init|by apply p_run_f_run]. }
  destruct (returned s) as [[rs|e]|] eqn:Er; [| |done].
  - pose proof (fo_ret _ _ _ _ (Hok EOF)) as H. rewrite Er in H. destruct H as [? H]. split; [done|]. intros i Hi.
    destruct (H i Hi) as (st & r & H1%or_else_ok & H2%or_else_ok & ?). by exists st, r.
  - pose proof (fo_ret _ _ _ _ (Hok (Wrapf "" [] e))) as H. rewrite Er in H. destruct H as (i & Hi & H).
    assert (Hne : Wrapf "" [] e ≠ e) by (clear; intros E; induction e; try done; injection E as <- <- E; done).
    exists i. split; [done|]. destruct H as [H%or_else_err|(st & H1%or_else_ok & H2%or_else_err)]; [by left|done|right; by exists st|done].
Qed.
End panics.

Section run.
Context {BL : BuildLibs} {IL : ImageLibs} {SL : SolveLibs} {CL : ConvertLibs}.

Record GwResult := { Refs : gmap string Ref; Metadata : gmap string bytes }.
Definition NewResult : GwResult := {| Refs := ∅; Metadata := ∅ |}.
Definition AddRef (k : string) (ref : Ref) (r : GwResult) : GwResult := {| Refs := <[k := ref]> (Refs r); Metadata := Metadata r |}.
Definition AddMeta (k : string) (v : bytes) (r : GwResult) : GwResult := {| Refs := Refs r; Metadata := <[k := v]> (Metadata r) |}.

Context (c : gwClient) (MarshalPlatforms : list (option ExpPlatform) → res bytes).
(** The order in which the stage goroutines of a platform finish, and the iteration orders of
    the maps, for every platform. *)
Context (stage_order : Platform → list nat) (map_orders : Platform → states → orders).

(** [None] is the panic of a stage goroutine: there is no build platform. *)
Definition resolve_for (o : BOpts) (pl : Platform) : option (res states) := resolveStates o pl (stage_order pl).

(** The two calls of the goroutine of platform [i]; after a failed [resolveStates] it goes on
    with a nil map. *)
Definition resolve_at (o : BOpts) (i : nat) : option (res states) := pl ← Platforms o !! i; resolve_for o pl.
Definition solve_at (o : BOpts) (i : nat) (st : option states) : option (res (Ref * bytes)) :=
  pl ← Platforms o !! i; let m := default ∅ st in solvePlatform o pl c m (map_orders pl m).

(** What the goroutine of platform [i] adds to the result, in two calls that commute with those
    of a platform of another name. *)
Definition add_platform (pl : Platform) (r : Ref * bytes) (res : GwResult) : GwResult :=
  AddMeta (ExporterImageConfigKey +:+ "/" +:+ plStr pl) r.2 (AddRef (plStr pl) r.1 res).

Definition add_at (o : BOpts) (slots : list (option (Ref * bytes))) (res : GwResult) (i : nat) : GwResult :=
  match Platforms o !! i, slots !! i with
  | Some pl, Some (Some r) => add_platform pl r res
  | _, _ => res
  end.

Definition exp_platform (pl : Platform) (slot : option (Ref * bytes)) : option ExpPlatform :=
  match slot with Some _ => Some {| ep_ID := plStr pl; ep_Platform := pl |} | None => None end.

(** The end of [frontend], the results having been added in the order [added]. *)
Definition frontend_end (o : BOpts) (added : list nat) (slots : list (option (Ref * bytes))) : res GwResult :=
  dt ← MarshalPlatforms (zip_with exp_platform (Platforms o) slots);
  Ok (AddMeta ExporterPlatformsKey dt (foldl (add_at o slots) NewResult added)).

(** [frontend] under the schedule [ls] of its goroutines; [None] when it has not returned, or when
    the process has died of a panic. *)
Definition frontend (ctx : ctx_value) (ls : list f_label) (added : list nat) : option (res GwResult) :=
  match newBOptsFromContext ctx with
  | Err e => Some (Err e)
  | Ok o =>
      if CheckOnly o then
        match head (Platforms o) with
        | None => None
        | Some pl =>
            '(r, _) ← checkBuild o c (resolve_for o) (map_orders pl (match resolve_for o pl with Some (Ok m) => m | _ => ∅ end));
            Some (md ← r; Ok {| Refs := ∅; Metadata := md |})
        end
      else
        s ← p_run (resolve_at o) (solve_at o) ls (f_init (length (Platforms o)));
        match returned s with
        | None => None
        | Some (Err e) => Some (Err e)
        | Some (Ok slots) => Some (frontend_end o added slots)
        end
  end.

(** ** Its exact result *)

Definition config_key (pl : Platform) : string := ExporterImageConfigKey +:+ "/" +:+ plStr pl.

Lemma config_key_eq p q : config_key p = config_key q → plStr p = plStr q.
Proof. intros H. unfold config_key, ExporterImageConfigKey in H. cbn in H. by simplify_eq. Qed.

(** With distinct names the order of the additions does not matter. *)
Lemma added_lookup o slots added res0 i pl r :
  NoDup (plStr <$> Platforms o) → Platforms o !! i = Some pl → slots !! i = Some (Some r) →
  i ∈ added ∨ Refs res0 !! plStr pl = Some r.1 ∧ Metadata res0 !! config_key pl = Some r.2 →
  let res := foldl (add_at o slots) res0 added in
  Refs res !! plStr pl = Some r.1 ∧ Metadata res !! config_key pl = Some r.2.
Proof.
  intros Hn Hpl Hr. revert res0. induction added as [|j added IH]; intros res0 Hin; simpl; [by destruct Hin as [?%not_elem_of_nil|?]|].
  apply IH. rewrite elem_of_cons in Hin. destruct (decide (j = i)) as [->|Hji].
  { right. unfold add_at. rewrite Hpl, Hr. simpl. by rewrite !lookup_insert_eq. }
  destruct Hin as [[->|Hin]|[H1 H2]]; [done|by left|]. right. unfold add_at.
  destruct (Platforms o !! j) as [q|] eqn:Hq; [|done]. destruct (slots !! j) as [[r'|]|]; [|done..]. simpl.
  assert (Hne : plStr q ≠ plStr pl).
  { intros E. apply Hji. eapply (NoDup_lookup _ j i (plStr pl) Hn); rewrite list_lookup_fmap, ?Hq, ?Hpl; simpl; congruence. }
  rewrite !lookup_insert_ne; [done| |done]. by intros E%config_key_eq.
Qed.

(** Nothing else is in the result. *)
Lemma added_only o slots added res0 k : 
  let res := foldl (add_at o slots) res0 added in
  (is_Some (Refs res !! k) → is_Some (Refs res0 !! k) ∨ k ∈ plStr <$> Platforms o) ∧
  (is_Some (Metadata res !! k) → is_Some (Metadata res0 !! k) ∨ k ∈ config_key <$> Platforms o).
Proof.
  revert res0. induction added as [|j added IH]; intros res0; simpl; [tauto|].
  destruct (IH (add_at o slots res0 j)) as [H1 H2]. unfold add_at in *.
  destruct (Platforms o !! j) as [q|] eqn:Hq; [|done]. destruct (slots !! j) as [[r'|]|]; [|done..]. simpl in *.
  apply list_elem_of_lookup_2 in Hq. split; intros H.
  - destruct (H1 H) as [[<-|[_ ?]]%lookup_insert_is_Some|?]; [right; by apply list_elem_of_fmap_2|by left|by right].
  - destruct (H2 H) as [[<-|[_ ?]]%lookup_insert_is_Some|?]; [right; by apply (list_elem_of_fmap_2 config_key)|by left|by right].
Qed.

(** What one platform contributes to a result. *)
Definition contributes (o : BOpts) (r : GwResult) (pl : Platform) : Prop :=
  ∃ m ref cfg, resolve_for o pl = Some (Ok m) ∧ solvePlatform o pl c m (map_orders pl m) = Some (Ok (ref, cfg)) ∧
    Refs r !! plStr pl = Some ref ∧ Metadata r !! config_key pl = Some cfg.

(** Why a build may fail. *)
Definition build_fails (o : BOpts) (e : error) : Prop :=
  (∃ pl, pl ∈ Platforms o ∧ (resolve_for o pl = Some (Err e) ∨
     ∃ m, resolve_for o pl = Some (Ok m) ∧ solvePlatform o pl c m (map_orders pl m) = Some (Err e))) ∨
  MarshalPlatforms ((λ pl, Some {| ep_ID := plStr pl; ep_Platform := pl |}) <$> Platforms o) = Err e.

Lemma exp_platforms_all o (slots : list (option (Ref * bytes))) : length slots = length (Platforms o) →
  (∀ i, i < length (Platforms o) → ∃ r, slots !! i = Some (Some r)) →
  zip_with exp_platform (Platforms o) slots = (λ pl, Some {| ep_ID := plStr pl; ep_Platform := pl |}) <$> Platforms o.
Proof.
  intros Hl Hs. apply list_eq. intros i. rewrite lookup_zip_with, list_lookup_fmap.
  destruct (Platforms o !! i) as [pl|] eqn:Hpl; [|done]. simpl.
  destruct (Hs i) as [r Hr]; [by eapply lookup_lt_Some|]. by rewrite Hr.
Qed.
End run.


(** ** [Build] *)

Inductive CallOption := WaitForReady (b : bool) | MaxCallRecvMsgSize (n : Z) | MaxCallSendMsgSize (n : Z).

(** One [grpc.WithDefaultCallOptions] per element. *)
Definition grpcOpts : list (list CallOption) :=
  [[WaitForReady true]; [MaxCallRecvMsgSize (Z.shiftl 512 20); MaxCallSendMsgSize (Z.shiftl 512 20)]].

(** The connection, the parsers of cache options, the SSH provider, and a build by BuildKit: its
    error and the temporary files whose writer it closed. *)
Class BuildkitLibs := {
  Conn : Type;
  client_New : string → list (list CallOption) → res Conn;
  csv_Fields : string → res (list string);
  platform_Format : Platform → string;
  ParseImportCache : list string → res (list string);
  ParseExportCache : list string → res (list string);
  NewSSHAgentProvider : list AgentConfig → res unit;
  bk_Build : Conn → ctx_value → SolveOpt → option error * gset nat;
}.

Section build.
Context {BL : BuildLibs} {KL : BuildkitLibs} (CreateTemp : res nat) (MkdirAll : string → res unit).

Definition newBuildkitClient : res Conn := client_New "" grpcOpts.

(** What a call does to the outside, in order. *)
Inductive build_event := EvDial | EvBuild (ctx : ctx_value) (opt : SolveOpt) | EvClose.

(** A call: its error, what it did, and the temporary files there are. *)
Record build_run := { br_err : option error; br_events : list build_event; br_temps : gset nat }.

Definition br_did (ev : build_event) (r : build_run) : build_run :=
  {| br_err := br_err r; br_events := ev :: br_events r; br_temps := br_temps r |}.
(** [defer]: done after everything else, on whatever path the rest returns. *)
Definition br_defer (ev : build_event) (r : build_run) : build_run :=
  {| br_err := br_err r; br_events := br_events r ++ [ev]; br_temps := br_temps r |}.
Definition br_fail (e : error) (temps : gset nat) : build_run := {| br_err := Some e; br_events := []; br_temps := temps |}.

(** [Build] once it is connected. *)
Definition Build_connected (buildkit : Conn) (ctx : ctx_value) (o : BOpts) (temps : gset nat) : build_run :=
  match configuredExports csv_Fields CreateTemp MkdirAll o temps with
  | (Err e, temps) => br_fail e temps
  | (Ok (exports, _), temps) =>
      match newSolveOptions ParseImportCache ParseExportCache NewSSHAgentProvider platform_Format o exports with
      | Err e => br_fail e temps
      | Ok solveOpt =>
          let ctx := BOpts_Context o ctx in
          let '(err, closed) := bk_Build buildkit ctx solveOpt in
          br_did (EvBuild ctx solveOpt) {| br_err := err; br_events := []; br_temps := temps ∖ closed |}
      end
  end.

(** [Build]; the wait for the progress writer, which ends when BuildKit closes the status channel,
    changes nothing. *)
Definition Build (ctx : ctx_value) (o : BOpts) (temps : gset nat) : build_run :=
  match newBuildkitClient with
  | Err e => br_fail e temps
  | Ok buildkit => br_did EvDial (br_defer EvClose (Build_connected buildkit ctx o temps))
  end.

(** The connections a call opened and closed, and what it asked of BuildKit first. *)
Definition br_opened (r : build_run) : nat := length (omap (λ ev, match ev with EvDial => Some tt | _ => None end) (br_events r)).
Definition br_closed (r : build_run) : nat := length (omap (λ ev, match ev with EvClose => Some tt | _ => None end) (br_events r)).
Definition br_asked (r : build_run) : option (ctx_value * SolveOpt) :=
  head (omap (λ ev, match ev with EvBuild ctx opt => Some (ctx, opt) | _ => None end) (br_events r)).

(** The options that are asked of BuildKit. *)
Lemma newSolveOptions_spec o exports opt :
  newSolveOptions ParseImportCache ParseExportCache NewSSHAgentProvider platform_Format o exports = Ok opt →
  so_Exports opt = exports ∧ so_AllowedEntitlements opt = Entitlements o ∧ so_FrontendAttrs opt = FrontendAttrs platform_Format o ∧
  so_OCIStores opt = {[ KeyContentStoreName := ContentStore o ]} ∧
  so_Session opt = [AttachFSSync (FSSync o); AttachSecrets (Secrets o)] ++ (if decide (SSH o = []) then [] else [AttachSSH (SSH o)]) ∧
  ParseImportCache (CacheIn o) = Ok (so_CacheImports opt) ∧ ParseExportCache (CacheOut o) = Ok (so_CacheExports opt).
Proof.
  unfold newSolveOptions. intros (ci & H1 & (ce & H2 & (ssh & H3 & [= <-])%result_bind_ok)%result_bind_ok)%result_bind_ok.
  cbn [so_Exports so_AllowedEntitlements so_FrontendAttrs so_OCIStores so_Session so_CacheImports so_CacheExports].
  split_and!; try done. do 3 f_equal. destruct (SSH o) eqn:E; [by injection H3 as <-|].
  apply result_bind_ok in H3 as (_ & _ & [= <-]). done.
Qed.

(** What a call does: nothing if there is no connection; otherwise it ends with the close, and asks
    BuildKit before it exactly when the exports and the solve options are valid, with options
    from which the frontend reads the request back. *)
Lemma Build_events ctx o temps :
  let r := Build ctx o temps in
  match newBuildkitClient with
  | Err e => br_err r = Some e ∧ br_events r = []
  | Ok buildkit =>
      (∃ e, br_err r = Some e ∧ br_events r = [EvDial; EvClose] ∧
        ((configuredExports csv_Fields CreateTemp MkdirAll o temps).1 = Err e ∨
         ∃ exports wf, (configuredExports csv_Fields CreateTemp MkdirAll o temps).1 = Ok (exports, wf) ∧
           newSolveOptions ParseImportCache ParseExportCache NewSSHAgentProvider platform_Format o exports = Err e)) ∨
      (∃ opt exports wf, br_events r = [EvDial; EvBuild (BOpts_Context o ctx) opt; EvClose] ∧
         (configuredExports csv_Fields CreateTemp MkdirAll o temps).1 = Ok (exports, wf) ∧
         newSolveOptions ParseImportCache ParseExportCache NewSSHAgentProvider platform_Format o exports = Ok opt ∧
         br_err r = (bk_Build buildkit (BOpts_Context o ctx) opt).1)
  end.
Proof.
  unfold Build. destruct newBuildkitClient as [bk|e]; [|done]. unfold Build_connected.
  destruct (configuredExports csv_Fields CreateTemp MkdirAll o temps) as [[[exports wf]|e] temps'];
    [|left; exists e; split_and!; try done; by left].
  destruct (newSolveOptions _ _ _ _ o exports) as [opt|e] eqn:Hs.
  - right. exists opt, exports, wf. by destruct (bk_Build bk (BOpts_Context o ctx) opt).
  - left. exists e. split_and!; try done. right. by exists exports, wf.
Qed.
End build.

(** ** A build for two platforms *)

(** A solver that names its definitions by their text. *)
#[export] Instance ex_solve_libs : SolveLibs := {|
  Llb := string; Def := string; Ref := string; Image := string; SourceMap := unit; LintResults := nat; Client := smap;
  MarshalState st := Ok ("layout " +:+ st_fqdn st); NewDefinitionOp d := Ok d; NewClient opts _ := Ok opts;
  ReadEntrypoint _ _ := Ok (Some tt); cl_ExtraHosts _ := []; cl_NetworkMode _ := 0%Z; cl_ShmSize _ := 0%Z; cl_Ulimits _ := [];
  PbCaps := ∅; Marshal s := Ok s; GetPlatform _ := Ok tt; ToState _ := Ok tt; MarshalImage i := Ok (bytes_of (default "null" i));
  metadataLayer name _ _ := name; lint_warnings n := n; lint_error _ := false; lint_errorText _ := ""; ToResult _ := Ok ∅ |}.
#[export] Instance ex_convert : ConvertLibs := {|
  Dockerfile2LLB _ opt := Ok ("llb " +:+ plStr (co_TargetPlatform opt), Some (plStr (co_TargetPlatform opt)));
  DockerfileLint _ _ := Ok 0 |}.

Definition ex_gateway : gwClient := {| gc_Opts := ∅; gc_Inputs := Ok ∅; gc_Solve d _ _ := Ok (Some d) |}.
Definition ex_orders (pl : Platform) (m : states) : orders :=
  {| or_states := map_to_list m; or_opts := map_to_list; or_inputs := map_to_list |}.
Definition ex_marshal (l : list (option ExpPlatform)) : res bytes :=
  Ok (bytes_of (Join "," ((λ e, match e with Some e => ep_ID e | None => "" end) <$> l))).

Definition two_platforms : BOpts :=
  {| BuildID := "b2"; Dockerfile := []; Dockerignore := []; Tag := "app"; ContextDir := "."; BOBuildPlatforms := [linux "arm64" "v8"];
     Platforms := [linux "arm64" "v8"; linux "amd64" ""];
     NoCache := None; Target := ""; BuildArgs := ∅; BuildContexts := ∅; Secrets := ∅; SSH := []; Entitlements := []; Attestations := ∅;
     AddHosts := []; Network := ""; ShmSize := ""; Ulimits := []; CacheIn := ["?"]; CacheOut := []; Outputs := []; Labels := ∅;
     CheckOnly := false; ProgressWriter := None; ContentStore := content_proxy; Resolver := resolver_proxy;
     BOStdio := ex_stdio; FSSync := ex_proxy; bo_basePath := "" |}.

(** The second platform is resolved and solved first. *)
Definition ex_schedule : list f_label := [FGo 1; FGo 0; FGo 1; FGo 0; FDone].
Definition ex_frontend : option (res GwResult) :=
  frontend ex_gateway ex_marshal (λ _, [2; 0; 1]) ex_orders (BOpts_Context two_platforms NoValue) ex_schedule [1; 0].

Definition ex_result : GwResult := match ex_frontend with Some (Ok r) => r | _ => NewResult end.

Lemma ex_frontend_ok : ex_frontend = Some (Ok ex_result).
Proof.
  assert (H : match ex_frontend with Some (Ok _) => true | _ => false end = true) by (vm_compute; reflexivity).
  unfold ex_result. by destruct ex_frontend as [[r|]|].
Qed.


(** Nothing removes the temporary file of the archive when the solve options are refused after
    the exports were configured, here for an invalid cache source, or when BuildKit fails before
    an exporter closes its writer. *)
Definition ex_buildkit (cache : res (list string)) : BuildkitLibs := {|
  Conn := unit; client_New _ _ := Ok tt; csv_Fields s := Ok (Split ","%char s); platform_Format := p_Architecture;
  ParseImportCache _ := cache; ParseExportCache _ := Ok []; NewSSHAgentProvider _ := Ok tt;
  bk_Build _ _ _ := (Some (Errorf "failed to solve" []), ∅) |}.

Lemma Build_leaves_temporary_file :
  (let r := @Build _ (ex_buildkit (Err (Errorf "invalid cache" []))) (Ok 7) (λ _, Ok tt) NoValue two_platforms ∅ in
   is_Some (br_err r) ∧ br_asked r = None ∧ br_temps r = {[7]}) ∧
  (let r := @Build _ (ex_buildkit (Ok [])) (Ok 7) (λ _, Ok tt) NoValue two_platforms ∅ in
   is_Some (br_err r) ∧ br_temps r = {[7]}).
Proof. vm_compute. split; split; by eexists. Qed.
