(* ===== verification/Content.v ===== *)
(** * The content store and the image resolver ([pkg/content], [pkg/resolver])

    Both are request/reply proxies over the stream: the host is a function from requests to
    replies, [None] standing for a reply that is not an image transfer.  A blob is read in
    byte ranges through the prefetcher; [ReaderAt] composes the two. *)

From Stdlib Require Import Ascii.
From S2P Require Import Prelude GoStrings Api FileInfo PrefetchCache Prefetch.

Record Info := { i_Digest : string; i_Size : Z; i_CreatedAt : Z; i_UpdatedAt : Z; i_Labels : smap }.

Section content.
Context (host : ImageTransfer → res (option ImageTransfer)).
Context (parse_time : string → res Z) (format_time : Z → string).   (* RFC 3339 *)

Definition image_transfer (id : string) (dir : TransferDirection) (tag : string) (desc : option Descriptor) (md : smap) : ImageTransfer :=
  {| it_Id := id; it_Direction := dir; it_Tag := tag; it_Descriptor := desc; it_Data := []; it_Complete := false; it_Metadata := md |}.

Definition set_id (id : string) (it : ImageTransfer) : ImageTransfer :=
  {| it_Id := id; it_Direction := it_Direction it; it_Tag := it_Tag it; it_Descriptor := it_Descriptor it;
     it_Data := it_Data it; it_Complete := it_Complete it; it_Metadata := it_Metadata it |}.

(** [ContentStoreProxy.request] *)
Definition store_request (uuid : string) (packet : ImageTransfer) : res ImageTransfer :=
  match host (if bool_decide (it_Id packet = "") then set_id uuid packet else packet) with
  | Err e => Err e
  | Ok None => Err (Errorf "content store response missing image transfer" [])
  | Ok (Some it) => Ok it
  end.

(** The check of the ["error"] key that follows every request. *)
Definition checked (it : ImageTransfer) : res ImageTransfer :=
  match it_Metadata it !! "error" with Some msg => Err (Errorf "%s" [msg]) | None => Ok it end.

(** ** Blob information *)

Definition labelPrefix : string := "__label:".

Definition info_TransformSize (md : smap) : res Z := ParseInt (mget md "size").
Definition TransformTimestamp (key : string) (md : smap) : res Z :=
  if bool_decide (mget md key = "") then Ok zero_time else parse_time (mget md key).
Definition TransformCreatedTimestamp : smap → res Z := TransformTimestamp "created_at".
Definition TransformUpdatedTimestamp : smap → res Z := TransformTimestamp "updated_at".

Definition TransformLabels (md : smap) : smap :=
  map_fold (λ k v labels, if HasPrefix k labelPrefix then <[TrimPrefix k labelPrefix := v]> labels else labels) ∅ md.

Definition TransformIntoContentInfo (it : ImageTransfer) : res Info :=
  size ← info_TransformSize (it_Metadata it);
  createdAt ← TransformCreatedTimestamp (it_Metadata it);
  updatedAt ← TransformUpdatedTimestamp (it_Metadata it);
  Ok {| i_Digest := it_Tag it; i_Size := size; i_CreatedAt := createdAt; i_UpdatedAt := updatedAt;
        i_Labels := TransformLabels (it_Metadata it) |}.

Definition TransformFromContentInfo (info : Info) : ImageTransfer :=
  image_transfer "" INTO (i_Digest info) None
    (prefixed labelPrefix (i_Labels info)
       {[ "os" := "linux"; "size" := FormatInt (i_Size info);
          "created_at" := format_time (i_CreatedAt info); "updated_at" := format_time (i_UpdatedAt info) ]}).

Definition method_prefix : string := "/containerd.services.content.v1.Content/".
Definition store_metadata (method : string) : smap :=
  {[ "os" := "linux"; "stage" := "content-store"; "method" := method_prefix +:+ method ]}.

Definition store_Info (uuid dgst : string) : res Info :=
  resp ← store_request uuid (image_transfer "" OUTOF dgst None (store_metadata "Info"));
  resp ← checked resp;
  TransformIntoContentInfo resp.

Definition store_Delete (uuid dgst : string) : res unit :=
  resp ← store_request uuid (image_transfer "" INTO dgst None (store_metadata "Delete"));
  _ ← checked resp; Ok tt.

Definition update_packet (info : Info) (fieldpaths : list string) : ImageTransfer :=
  let packet := TransformFromContentInfo info in
  image_transfer "" INTO (it_Tag packet) None
    (<["fieldpaths" := Join "," fieldpaths]> (store_metadata "Update" ∪ it_Metadata packet)).

Definition store_Update (uuid : string) (info : Info) (fieldpaths : list string) : res Info :=
  resp ← store_request uuid (update_packet info fieldpaths);
  resp ← checked resp;
  TransformIntoContentInfo resp.

(** ** Reading a blob *)

Record readerAt := { ra_id : string; ra_descriptor : Descriptor; ra_index : Z; ra_size : Z }.

Definition packetReaderAt (r : readerAt) (offset length : Z) : ImageTransfer :=
  image_transfer (ra_id r) OUTOF "" (Some (ra_descriptor r))
    (<["offset" := FormatInt offset]> (<["length" := FormatInt length]> (store_metadata "ReaderAt"))).

Definition ra_init (uuid : string) (r : readerAt) : res readerAt :=
  resp ← store_request uuid (packetReaderAt r 0 0);
  resp ← checked resp;
  sz ← ParseInt (mget (it_Metadata resp) "size");
  Ok {| ra_id := ra_id r; ra_descriptor := ra_descriptor r; ra_index := ra_index r; ra_size := sz |}.

(** [ReadAt] into a buffer of [n] bytes. *)
Definition ra_ReadAt (uuid : string) (r : readerAt) (n : nat) (off : Z) : bytes * option error :=
  match (resp ← store_request uuid (packetReaderAt r off (Z.of_nat n)); checked resp) with
  | Err e => ([], Some e)
  | Ok resp => match take n (it_Data resp) with [] => ([], Some EOF) | d => (d, None) end
  end.

Definition ra_Read (uuid : string) (r : readerAt) (n : nat) : readerAt * (bytes * option error) :=
  match ra_ReadAt uuid r n (ra_index r) with
  | (d, Some e) => (r, (if bool_decide (e = EOF) then [] else d, Some e))
  | (d, None) => ({| ra_id := ra_id r; ra_descriptor := ra_descriptor r; ra_index := wrap64 (ra_index r + Z.of_nat (length d));
                     ra_size := ra_size r |}, (d, None))
  end.

Definition ra_Seek (r : readerAt) (offset whence : Z) : readerAt * res Z :=
  let newPos :=
    if bool_decide (whence = 0)%Z then Ok offset
    else if bool_decide (whence = 1)%Z then Ok (wrap64 (ra_index r + offset))
    else if bool_decide (whence = 2)%Z then Ok (wrap64 (ra_size r + offset))
    else Err (Errorf "invalid whence: %d" [FormatInt whence]) in
  match newPos with
  | Err e => (r, Err e)
  | Ok i =>
      if bool_decide (i < 0)%Z then (r, Err (Errorf "negative seek offset: %d" [FormatInt i]))
      else if bool_decide (ra_size r < i)%Z then (r, Err (Errorf "seek beyond end of file: %d" [FormatInt i]))
      else ({| ra_id := ra_id r; ra_descriptor := ra_descriptor r; ra_index := i; ra_size := ra_size r |}, Ok i)
  end.

Definition ra_Close (r : readerAt) : option error := None.
Definition ra_Size (r : readerAt) : Z := ra_size r.

Definition reader_config : Config :=
  {| WindowSize := Z.shiftl 8 20; ChunkSize := Z.shiftl 1 20; MaxParallelReads := 4; ReadTimeout := 30 * 1000000000;
     RetryInterval := 0; MaxRetries := 0 |}.

(** [ReaderAt]: the reader behind a prefetcher of its size. *)
Definition store_ReaderAt (id uuid : string) (desc : Descriptor) : res (readerAt * prefetcher * chunkCache) :=
  ra ← ra_init uuid {| ra_id := id; ra_descriptor := desc; ra_index := 0; ra_size := 0 |};
  x ← New true (ra_size ra) [reader_config];
  Ok (ra, x.1, x.2).

(** What the prefetcher sees of the reader when it reads the chunk at [off]. *)
Definition reader_attempt (uuid : string) (r : readerAt) (cs off : Z) : attempt :=
  let '(d, e) := ra_ReadAt uuid r (Z.to_nat cs) off in Done d e.

(** ** Resolving an image ([ResolverProxy]) *)

Definition resolver_request (uuid : string) (packet : ImageTransfer) : res (option ImageTransfer) := host (set_id uuid packet).

(** [None] is the nil dereference of a reply that is not an image transfer. *)
Definition ResolveImage (format : Platform → string) (uuid ref : string) (platform : Platform) : option (res (string * bytes)) :=
  match resolver_request uuid (image_transfer "" INTO "" None
          {[ "os" := "linux"; "stage" := "resolver"; "method" := "/resolve"; "ref" := ref; "platform" := format platform ]}) with
  | Err e => Some (Err e)
  | Ok None => None
  | Ok (Some resp) => Some (r ← checked resp; Ok (it_Tag r, it_Data r))
  end.
End content.

(** ** Ingestion *)

Definition ErrNotImplemented : error := Sentinel "not implemented".
Definition unsupportedContentIngestion (method : string) : error :=
  Wrapf "content store %s is not supported by read-through proxy: %w" [method] ErrNotImplemented.

Definition store_Writer {A} : res A := Err (unsupportedContentIngestion "Writer").
Definition store_Status {A} : res A := Err (unsupportedContentIngestion "Status").
Definition store_ListStatuses {A} : res (list A) := Err (unsupportedContentIngestion "ListStatuses").
Definition store_Abort : res unit := Err (unsupportedContentIngestion "Abort").

(** A caller that probes for ingestion sees that it is not implemented. *)
Lemma ingestion_not_implemented method : errors_Is (unsupportedContentIngestion method) ErrNotImplemented = true.
Proof. unfold unsupportedContentIngestion. cbn. by rewrite !orb_true_r. Qed.

(** ** Walking the store *)

Section walk.
Context (parse_time : string → res Z) (fn : Info → option error).

Inductive walk_prod := KRecv | KPut (i : Info) (complete : bool) | KErr (e : option error) | KEnd.

Record walk_state := {
  k_in : list (res ImageTransfer);      (* what the demultiplexer will deliver *)
  k_prod : walk_prod;
  k_ch : list Info;                     (* [infoCh], capacity 32 *)
  k_seen : list Info;                   (* the calls of [fn], in order *)
  k_ret : option (option error);
}.

(** The request of [Walk] and its start: with the demultiplexer registered, an error of [Send] ends
    the walk.  The filters of the call are not sent. *)
Definition walk_packet (id : string) : ServerStream :=
  {| s_BuildId := id; s_PacketType := Some (SImageTransfer (image_transfer id INTO "" None (store_metadata "Walk"))) |}.

Definition walk_init (replies : list (res ImageTransfer)) : walk_state :=
  {| k_in := replies; k_prod := KRecv; k_ch := []; k_seen := []; k_ret := None |}.

Definition store_Walk (send : ServerStream → option error) (id : string) (filters : list string) (replies : list (res ImageTransfer)) :
    walk_state :=
  match send (walk_packet id) with
  | Some e => {| k_in := replies; k_prod := KEnd; k_ch := []; k_seen := []; k_ret := Some (Some e) |}
  | None => walk_init replies
  end.

Definition decode_reply (r : res ImageTransfer) : res (Info * bool) :=
  it ← r; it ← checked it; i ← TransformIntoContentInfo parse_time it; Ok (i, it_Complete it).

Inductive walk_label := KProd | KTake | KFail.

Definition walk_step (l : walk_label) (s : walk_state) : option walk_state :=
  match l with
  | KProd =>
      match k_prod s, k_in s with
      | KRecv, r :: rest =>
          Some {| k_in := rest; k_prod := match decode_reply r with Ok (i, c) => KPut i c | Err e => KErr (Some e) end;
                  k_ch := k_ch s; k_seen := k_seen s; k_ret := k_ret s |}
      | KPut i c, _ =>
          if bool_decide (length (k_ch s) < 32)
          then Some {| k_in := k_in s; k_prod := if c then KErr None else KRecv; k_ch := k_ch s ++ [i]; k_seen := k_seen s; k_ret := k_ret s |}
          else None
      | _, _ => None
      end
  | KTake =>     (* the select takes an info and calls back *)
      match k_ret s, k_ch s with
      | None, i :: ch => Some {| k_in := k_in s; k_prod := k_prod s; k_ch := ch; k_seen := k_seen s ++ [i];
                                 k_ret := match fn i with Some e => Some (Some e) | None => None end |}
      | _, _ => None
      end
  | KFail =>     (* the unbuffered [errCh] *)
      match k_ret s, k_prod s with
      | None, KErr e => Some {| k_in := k_in s; k_prod := KEnd; k_ch := k_ch s; k_seen := k_seen s; k_ret := Some e |}
      | _, _ => None
      end
  end.

Fixpoint walk_run (ls : list walk_label) (s : walk_state) : option walk_state :=
  match ls with [] => Some s | l :: ls => s' ← walk_step l s; walk_run ls s' end.

Definition putting (s : walk_state) : list Info := match k_prod s with KPut i _ => [i] | _ => [] end.
Definition decodes (r : res ImageTransfer) (i : Info) : Prop := ∃ c, decode_reply r = Ok (i, c).

(** The last reply that was decoded, as far as the goroutine's place tells about it. *)
Definition last_ok (s : walk_state) (pre : list (res ImageTransfer)) : Prop :=
  match k_prod s with
  | KPut i c => ∃ p r, pre = p ++ [r] ∧ decode_reply r = Ok (i, c)
  | KErr None => ∃ p r i, pre = p ++ [r] ∧ decode_reply r = Ok (i, true)
  | KEnd => k_ret s = Some None → ∃ p r i, pre = p ++ [r] ∧ decode_reply r = Ok (i, true)
  | _ => True
  end.

Definition walk_failure (replies : list (res ImageTransfer)) (seen : list Info) (e : error) : Prop :=
  (∃ i, i ∈ seen ∧ fn i = Some e) ∨ ∃ r, r ∈ replies ∧ decode_reply r = Err e.

Record walk_ok (replies : list (res ImageTransfer)) (s : walk_state) : Prop := {
  wk_in : ∃ pre post, replies = pre ++ post ++ k_in s ∧ (k_prod s = KRecv → post = []) ∧
          (post ≠ [] → ∃ e, k_prod s = KErr (Some e) ∨ (k_prod s = KEnd ∧ k_ret s = Some (Some e))) ∧
          Forall2 decodes pre (k_seen s ++ k_ch s ++ putting s) ∧ last_ok s pre;
  wk_ret : match k_ret s with
           | Some (Some e) => walk_failure replies (k_seen s) e
           | Some None => k_prod s = KEnd
           | None => k_prod s ≠ KEnd end;
  wk_err e : k_prod s = KErr (Some e) → ∃ r, r ∈ replies ∧ decode_reply r = Err e;
  wk_cap : length (k_ch s) ≤ 32;
}.

Lemma walk_ok_init replies : walk_ok replies (walk_init replies).
Proof. split; simpl; [|done|done|lia]. exists [], []. by split_and!. Qed.

Lemma walk_prod_ok replies s s' : walk_ok replies s → walk_step KProd s = Some s' → walk_ok replies s'.
Proof.
  intros [(pre & post & Hin & Hp0 & Hpost & HF & Hl) Hret Herr Hcap]. unfold walk_step, last_ok, putting in *.
  destruct (k_prod s) as [|i c|e|] eqn:Ep; [| |done|done].
  - rewrite (Hp0 eq_refl), app_nil_l in Hin. destruct (k_in s) as [|r rest] eqn:Ei; [done|]. intros [= <-].
    destruct (decode_reply r) as [[i c]|e] eqn:Ed; split; simpl; try done.
    + exists (pre ++ [r]), []. split_and!; [by rewrite <-app_assoc|done|done| |by exists pre, r].
      rewrite app_nil_r in HF. rewrite app_assoc. apply Forall2_app; [done|]. constructor; [by exists c|constructor].
    + by destruct (k_ret s) as [[]|].
    + exists pre, [r]. split_and!; [done|done|by eexists; left|done|done].
    + by destruct (k_ret s) as [[]|].
    + intros e' [= <-]. exists r. split; [|done]. rewrite Hin. set_solver.
  - destruct post as [|x post']; [|destruct (Hpost ltac:(done)) as (e & [?|[? _]]); done].
    case_bool_decide; [|done]. intros [= <-]. split; simpl.
    + exists pre, []. split_and!; [done|done|done| |destruct c; [destruct Hl as (p & r & -> & ?); by exists p, r, i|done]].
      destruct c; rewrite app_nil_r; exact HF.
    + by destruct (k_ret s) as [[]|], c.
    + by destruct c.
    + rewrite length_app. simpl. lia.
Qed.

Lemma walk_main_ok replies l s s' : l ≠ KProd → walk_ok replies s → walk_step l s = Some s' → walk_ok replies s'.
Proof.
  intros Hl0 [(pre & post & Hin & Hp0 & Hpost & HF & Hl) Hret Herr Hcap] Hs. unfold walk_step, last_ok, putting in *.
  destruct l; [done| |].
  - destruct (k_ret s) eqn:Er; [done|]. destruct (k_ch s) as [|i ch] eqn:Ec; [done|]. injection Hs as <-. simpl in Hcap.
    split; simpl; [|destruct (fn i) eqn:Ef; [left; exists i; set_solver|done]|done|lia].
    exists pre, post. unfold last_ok, putting. simpl. split_and!; try done.
    + intros Hne. destruct (Hpost Hne) as (e & [?|[_ ?]]); [|done]. exists e. by left.
    + by rewrite <-app_assoc.
    + destruct (k_prod s) as [| |[]|]; done.
  - destruct (k_ret s) eqn:Er; [done|]. destruct (k_prod s) as [| |e|] eqn:Ep; try done. injection Hs as <-.
    split; simpl; [|destruct e; [right; by apply Herr|done]|done|done].
    exists pre, post. unfold last_ok, putting. simpl. split_and!; try done.
    + intros Hne. destruct (Hpost Hne) as (e' & [?|[? _]]); [|done]. exists e'. right. split; congruence.
    + by destruct e.
Qed.

Lemma walk_run_ok replies ls s s' : walk_ok replies s → walk_run ls s = Some s' → walk_ok replies s'.
Proof.
  revert s. induction ls as [|l ls IH]; intros s Hok; simpl; [by intros [= <-]|].
  destruct (walk_step l s) as [s1|] eqn:Hs; simpl; [|done]. apply IH.
  destruct l; [by eapply walk_prod_ok|by apply (walk_main_ok replies KTake s)|by apply (walk_main_ok replies KFail s)].
Qed.
End walk.

(** C36. [Walk] of the content store, under every interleaving of its goroutine and its select:
    the callback sees the infos the host sent, decoded, in order and each at most once; an
    error is the callback's, the stream's, the host's or a malformed info's; a walk that ends
    without an error has decoded everything up to the host's last packet, of which at most 32
    infos were not passed to the callback. *)
Theorem store_Walk_spec parse_time fn replies ls s :
  walk_run parse_time fn ls (walk_init replies) = Some s →
  ∃ pre lost, pre `prefix_of` replies ∧ Forall2 (decodes parse_time) pre (k_seen s ++ lost) ∧
  match k_ret s with
  | Some None => length lost ≤ 32 ∧ ∃ p r i, pre = p ++ [r] ∧ decode_reply parse_time r = Ok (i, true)
  | Some (Some e) => walk_failure parse_time fn replies (k_seen s) e
  | None => True
  end.
Proof.
  intros Hr. destruct (walk_run_ok parse_time fn replies ls _ s (walk_ok_init _ _ _) Hr) as [(pre & post & -> & _ & _ & HF & Hl) Hret _ Hcap].
  exists pre, (k_ch s ++ putting s). split; [by apply prefix_app_r|]. split; [done|].
  unfold last_ok, putting in *. destruct (k_ret s) as [[e|]|]; [done| |done]. rewrite Hret, app_nil_r in *. split; [done|by apply Hl].
Qed.

(** Infos do get lost: with one complete packet, the select may find both channels ready and
    take the end before the info. *)
Theorem store_Walk_loses parse_time fn it i :
  decode_reply parse_time (Ok it) = Ok (i, true) →
  ∃ s, walk_run parse_time fn [KProd; KProd; KFail] (walk_init [Ok it]) = Some s ∧ k_ret s = Some None ∧ k_seen s = [].
Proof. intros H. unfold walk_run, walk_init, walk_step. cbn [k_prod k_in]. rewrite H. simpl. by eexists. Qed.

(** ** Infos *)

Lemma TransformLabels_lookup md k : TransformLabels md !! k = md !! (labelPrefix +:+ k).
Proof.
  unfold TransformLabels. apply (map_fold_weak_ind (λ labels (md : smap), labels !! k = md !! (labelPrefix +:+ k))); [done|].
  intros i x m r Hi IH. destruct (HasPrefix i labelPrefix) eqn:Hp.
  - apply HasPrefix_spec in Hp as [t ->]. rewrite TrimPrefix_app. destruct (decide (t = k)) as [->|Hne].
    + by rewrite !lookup_insert_eq.
    + rewrite lookup_insert_ne by done. rewrite IH, lookup_insert_ne; [done|]. intros E.
      apply (f_equal (λ s, TrimPrefix s labelPrefix)) in E. by rewrite !TrimPrefix_app in E.
  - rewrite IH, lookup_insert_ne; [done|]. intros ->.
    assert (HasPrefix (labelPrefix +:+ k) labelPrefix = true) by (apply HasPrefix_spec; by eexists). congruence.
Qed.

(** C37. An info survives the wire: what [Update] sends for an info, with the stage, method and
    field paths added, decodes to that info again, labels included whatever their names, if its
    size fits 64 bits and its two times survive being formatted and parsed.  (RFC 3339 without
    fractions, the format the code uses, keeps whole seconds only: an info with nanoseconds does
    not come back as it was.) *)
Theorem info_roundtrip parse_time format_time info fieldpaths :
  in_int64 (i_Size info) →
  (∀ t, t = i_CreatedAt info ∨ t = i_UpdatedAt info → format_time t ≠ "" ∧ parse_time (format_time t) = Ok t) →
  TransformIntoContentInfo parse_time (update_packet format_time info fieldpaths) = Ok info.
Proof.
  intros Hsz Ht. set (md := it_Metadata (update_packet format_time info fieldpaths)).
  assert (Hmd : ∀ key, bool_decide (key ∈ ["fieldpaths"; "os"; "stage"; "method"]) = false →
    md !! key = it_Metadata (TransformFromContentInfo format_time info) !! key).
  { intros key Hk%bool_decide_eq_false. unfold md, update_packet. cbn [it_Metadata image_transfer].
    rewrite lookup_insert_ne by set_solver. apply lookup_union_r. unfold store_metadata.
    rewrite !lookup_insert_ne, lookup_singleton_ne by set_solver. done. }
  assert (Hbase : ∀ key v, drop_prefix labelPrefix key = None → bool_decide (key ∈ ["fieldpaths"; "os"; "stage"; "method"]) = false →
    ({[ "os" := "linux"; "size" := FormatInt (i_Size info); "created_at" := format_time (i_CreatedAt info);
        "updated_at" := format_time (i_UpdatedAt info) ]} : smap) !! key = Some v → mget md key = v).
  { intros key v Hp Hk Hv. unfold mget. rewrite Hmd by done. unfold TransformFromContentInfo. cbn [it_Metadata image_transfer].
    by rewrite prefixed_lookup, Hp, Hv. }
  unfold TransformIntoContentInfo. fold md. unfold info_TransformSize, TransformCreatedTimestamp, TransformUpdatedTimestamp, TransformTimestamp.
  rewrite (Hbase "size" (FormatInt (i_Size info))), ParseInt_FormatInt by done.
  rewrite (Hbase "created_at" (format_time (i_CreatedAt info))), (Hbase "updated_at" (format_time (i_UpdatedAt info))) by done.
  destruct (Ht (i_CreatedAt info)) as [N1 P1]; [by left|]. destruct (Ht (i_UpdatedAt info)) as [N2 P2]; [by right|].
  rewrite !(bool_decide_false _ N1), !(bool_decide_false _ N2), P1, P2. simpl.
  destruct info as [dg sz ca ua labels]. f_equal. f_equal. apply map_eq. intros k. rewrite TransformLabels_lookup.
  rewrite Hmd by reflexivity. unfold TransformFromContentInfo. cbn [it_Metadata image_transfer i_Labels i_Size i_CreatedAt i_UpdatedAt].
  rewrite prefixed_lookup. rewrite (proj2 (drop_prefix_Some labelPrefix _ k) eq_refl). destruct (labels !! k); [done|].
  by rewrite !lookup_insert_ne, lookup_singleton_ne by done.
Qed.

(** ** Reading through the prefetcher *)

Section reading.
Local Open Scope Z_scope.
Context (host : ImageTransfer → res (option ImageTransfer)) (desc : Descriptor) (content : bytes).

(** The host's side of the protocol: a reply without error, with the size of the blob and
    the bytes of the range that exist. *)
Definition serves_blob : Prop :=
  ∀ (r : readerAt) (off len : Z), ra_id r ≠ "" → ra_descriptor r = desc → 0 ≤ off ≤ max_int64 → 0 ≤ len ≤ max_int64 →
    ∃ resp, host (packetReaderAt r off len) = Ok (Some resp) ∧ it_Metadata resp !! "error" = None ∧
            it_Metadata resp !! "size" = Some (FormatInt (zlen content)) ∧
            it_Data resp = take (Z.to_nat len) (drop (Z.to_nat off) content).

Lemma reader_read_ok uuid r cs off : serves_blob → ra_id r ≠ "" → ra_descriptor r = desc → 0 < cs ≤ max_int64 → 0 ≤ off ≤ max_int64 →
  read_ok content cs off (reader_attempt host uuid r cs off).
Proof.
  intros Hs Hid Hd Hcs Hoff. destruct (Hs r off cs Hid Hd Hoff) as (resp & Hh & He & _ & Hdata); [lia|].
  unfold reader_attempt, ra_ReadAt, store_request. rewrite Z2Nat.id by lia.
  rewrite (bool_decide_false (it_Id (packetReaderAt r off cs) = "")) by done. rewrite Hh. cbn [mbind result_bind]. unfold checked. rewrite He.
  rewrite Hdata, take_take, Nat.min_id. set (rest := drop (Z.to_nat off) content).
  destruct (take (Z.to_nat cs) rest) as [|a d] eqn:E.
  - cbn. split; [unfold zlen; simpl; lia|]. split; [done|]. intros _.
    assert (rest = []) as Hr by (destruct rest; [done|]; destruct (Z.to_nat cs) eqn:?; [lia|done]).
    apply (f_equal length) in Hr. unfold rest in Hr. rewrite length_drop in Hr. simpl in Hr. unfold zlen. simpl. lia.
  - cbn [read_ok]. rewrite <-E. assert (Hlen : length (take (Z.to_nat cs) rest) = Nat.min (Z.to_nat cs) (length rest)) by apply length_take.
    split; [unfold zlen; lia|]. split.
    + rewrite Hlen. destruct (decide (Z.to_nat cs ≤ length rest)%nat); [by rewrite Nat.min_l|].
      rewrite Nat.min_r by lia. rewrite (take_ge rest (Z.to_nat cs)) by lia. fold rest. symmetry. by apply take_ge.
    + destruct (decide (Z.to_nat cs ≤ length rest)%nat); [left; unfold zlen; lia|right].
      unfold zlen. rewrite Hlen, Nat.min_r by lia. unfold rest. rewrite length_drop. lia.
Qed.

(** The surroundings of a read whose attempts are calls of the reader (or time out). *)
Definition from_reader (r : readerAt) (cs : Z) (envs : Z → step_env) : Prop :=
  ∀ i, 0 ≤ i → Forall (op_ok content cs) (se_before (envs i)) ∧
    match fe_shared (se_fetch (envs i)) with
    | Some (Ok ch) => index ch = i ∧ valid_chunk content cs ch
    | Some (Err e) => e = Canceled ∨ e = ErrReadFailed
    | None => True end ∧
    ∀ k, fe_attempts (se_fetch (envs i)) k = Timeout ∨
         (i * cs ≤ max_int64 ∧ ∃ uuid, fe_attempts (se_fetch (envs i)) k = reader_attempt host uuid r cs (i * cs)).

Lemma from_reader_ok r cs envs : serves_blob → ra_id r ≠ "" → ra_descriptor r = desc → 0 < cs ≤ max_int64 →
  from_reader r cs envs → env_ok content cs envs.
Proof.
  intros Hs Hid Hd Hcs Hf i Hi. destruct (Hf i Hi) as (H1 & H2 & H3). split; [done|]. split; [done|].
  intros k. destruct (H3 k) as [->|(Hmax & uuid & ->)]; [done|]. apply reader_read_ok; try done. nia.
Qed.
End reading.

(** C19. Reading a blob over the wire: for a host that serves the blob's ranges, [ReaderAt]
    succeeds with a reader of the blob's size, and every read through it, with any timeouts,
    read-ahead, shared flights and cache evictions, puts the blob's bytes at the offset into
    the buffer and ends as the prefetcher's contract says. *)
Theorem store_ReaderAt_correct host desc content id uuid (range : gmap Z chunk → list chunk) now envs buflen off :
  serves_blob host desc content → id ≠ "" → (zlen content ≤ max_int64)%Z → (0 ≤ buflen)%Z → (off + buflen ≤ max_int64)%Z →
  ∃ ra p c, store_ReaderAt host id uuid desc = Ok (ra, p, c) ∧ psize p = zlen content ∧ ra_descriptor ra = desc ∧ ra_id ra = id ∧
    (from_reader host content ra (ChunkSize (config p)) envs →
     read_spec content p buflen off (ReadAt range now p envs buflen off c)).
Proof.
  intros Hs Hid Hlen Hb Hmax. set (r0 := {| ra_id := id; ra_descriptor := desc; ra_index := 0; ra_size := 0 |}).
  destruct (Hs r0 0 0)%Z as (resp & Hh & He & Hsz & _); [done|done|unfold max_int64; lia..|].
  assert (Hz : in_int64 (zlen content)) by (pose proof (zlen_nonneg content); unfold in_int64, min_int64; lia).
  assert (Hi : ra_init host uuid r0 = Ok {| ra_id := id; ra_descriptor := desc; ra_index := 0; ra_size := zlen content |}).
  { unfold ra_init, store_request. rewrite (bool_decide_false (it_Id (packetReaderAt r0 0 0) = "")) by done.
    rewrite Hh. cbn [mbind result_bind]. unfold checked. rewrite He. cbn [mbind result_bind]. unfold mget. rewrite Hsz. simpl.
    by rewrite ParseInt_FormatInt. }
  unfold store_ReaderAt. fold r0. rewrite Hi. cbn -[normalize newChunkCache ReadAt]. eexists _, _, _. split_and!; try done.
  cbn [psize ra_descriptor ra_id config]. intros Hf.
  apply (ReadAt_spec content range now {| psize := zlen content; config := normalize [reader_config]; closed := false |});
    [apply normalize_ok|done| |intros i ch Hc; simpl in Hc; by rewrite lookup_empty in Hc|done|done].
  eapply from_reader_ok; [exact Hs| | | |exact Hf]; [done|done|]. vm_compute. split; [reflexivity|discriminate].
Qed.

(** ** Short replies *)

Definition ex_blob : bytes := bytes_of "ABCDEFGH".
Definition ex_desc : Descriptor :=
  {| d_MediaType := "application/octet-stream"; d_Digest := "sha256:0"; d_Size := 8; d_Urls := []; d_Annotations := ∅; d_Platform := None |}.

(** A host with one blob that sends at most [limit] bytes in a reply. *)
Definition blob_host (limit : nat) (it : ImageTransfer) : res (option ImageTransfer) :=
  match ParseInt (mget (it_Metadata it) "offset"), ParseInt (mget (it_Metadata it) "length") with
  | Ok off, Ok len =>
      Ok (Some {| it_Id := it_Id it; it_Direction := INTO; it_Tag := ""; it_Descriptor := it_Descriptor it;
                  it_Data := take limit (take (Z.to_nat len) (drop (Z.to_nat off) ex_blob)); it_Complete := true;
                  it_Metadata := {[ "size" := "8" ]} |})
  | _, _ => Ok None
  end.

Definition small_prefetcher : prefetcher :=
  {| psize := 8; config := {| WindowSize := 8; ChunkSize := 4; MaxParallelReads := 1; ReadTimeout := 1; RetryInterval := 1; MaxRetries := 0 |};
     closed := false |}.
Definition ex_reader : readerAt := {| ra_id := "r"; ra_descriptor := ex_desc; ra_index := 0; ra_size := 8 |}.
Definition reader_envs (host : ImageTransfer → res (option ImageTransfer)) (cs i : Z) : step_env :=
  {| se_before := []; se_fetch := {| fe_shared := None; fe_acquire := Acquired; fe_wait := λ _, RetryElapsed;
       fe_attempts := λ _, if bool_decide (i * cs ≤ max_int64)%Z then reader_attempt host "u" ex_reader cs (i * cs) else Timeout |} |}.

(** The wire format lets the host answer with fewer bytes than were asked for, and [readerAt]
    then reports a short read without an error, which [io.ReaderAt] forbids; the prefetcher
    takes the short chunk for a whole one and goes on with the next, so the read returns the
    wrong bytes and no error. *)
Theorem short_reply_shifts : ∃ c,
  ReadAt (λ m, (map_to_list m).*2) 0 small_prefetcher (reader_envs (blob_host 3) 4) 6 0 (newChunkCache 4) = (c, bytes_of "ABCEFG", None) ∧
  take 6 ex_blob = bytes_of "ABCDEF".
Proof.
  destruct (ReadAt _ _ _ _ _ _ _) as [[c out] err] eqn:E. exists c. split; [|reflexivity].
  assert (H : (λ x, (x.1.2, x.2)) (ReadAt (λ m, (map_to_list m).*2) 0 small_prefetcher (reader_envs (blob_host 3) 4) 6 0 (newChunkCache 4)) =
    (bytes_of "ABCEFG", None)) by (vm_compute; reflexivity).
  rewrite E in H. by injection H as -> ->.
Qed.

(** ** Witnesses *)

Lemma blob_host_serves : serves_blob (blob_host 8) ex_desc ex_blob.
Proof.
  intros r off len Hid Hd Hoff Hlen. unfold blob_host.
  change (mget (it_Metadata (packetReaderAt r off len)) "offset") with (FormatInt off).
  change (mget (it_Metadata (packetReaderAt r off len)) "length") with (FormatInt len).
  rewrite !ParseInt_FormatInt by (unfold in_int64, min_int64; lia). eexists. split; [reflexivity|].
  split; [reflexivity|]. split; [vm_compute; reflexivity|]. cbn [it_Data]. apply take_ge.
  rewrite length_take, length_drop. change (length ex_blob) with 8. lia.
Qed.

Definition mib : Z := Z.shiftl 1 20.

Lemma reader_envs_ok : from_reader (blob_host 8) ex_blob ex_reader mib (reader_envs (blob_host 8) mib).
Proof.
  intros i Hi. split; [constructor|]. split; [done|]. intros k. simpl. case_bool_decide as Hc; [|by left].
  right. split; [done|]. by exists "u".
Qed.

Lemma store_ReaderAt_correct_witness :
  ∃ p c, store_ReaderAt (blob_host 8) "r" "u" ex_desc = Ok (ex_reader, p, c) ∧
    read_spec ex_blob p 5 2 (ReadAt (λ m, (map_to_list m).*2) 0 p (reader_envs (blob_host 8) mib) 5 2 c).
Proof.
  destruct (store_ReaderAt_correct (blob_host 8) ex_desc ex_blob "r" "u" (λ m, (map_to_list m).*2) 0 (reader_envs (blob_host 8) mib) 5 2)
    as (ra & p & c & Hr & _ & _ & _ & Hspec);
    [exact blob_host_serves|done|vm_compute; discriminate|lia|vm_compute; discriminate|].
  assert (Hra : (λ x, (x.1.1, ChunkSize (config x.1.2))) <$> store_ReaderAt (blob_host 8) "r" "u" ex_desc = Ok (ex_reader, mib))
    by (vm_compute; reflexivity).
  rewrite Hr in Hra. injection Hra as -> Hcs. exists p, c. split; [exact Hr|]. apply Hspec. rewrite Hcs. exact reader_envs_ok.
Defined.

Definition ex_time (s : string) : res Z := ParseInt s.
Definition ex_info : Info := {| i_Digest := "sha256:0"; i_Size := 8; i_CreatedAt := 5; i_UpdatedAt := 7; i_Labels := {[ "size" := "x"; "" := "y" ]} |}.
Lemma info_roundtrip_witness : TransformIntoContentInfo ex_time (update_packet FormatInt ex_info ["labels"]) = Ok ex_info.
Proof.
  apply (info_roundtrip ex_time FormatInt ex_info ["labels"]); [unfold in_int64, min_int64, max_int64; simpl; lia|].
  intros t [->| ->]; (split; [discriminate|vm_compute; reflexivity]).
Defined.

Definition ex_reply (complete : bool) : res ImageTransfer :=
  Ok {| it_Id := "1"; it_Direction := INTO; it_Tag := "sha256:0"; it_Descriptor := None; it_Data := []; it_Complete := complete;
        it_Metadata := {[ "size" := "8" ]} |}.
Lemma store_Walk_spec_witness : ∃ s, walk_run ex_time (λ _, None) [KProd; KProd; KTake; KProd; KProd; KTake; KFail] (walk_init [ex_reply false; ex_reply true]) = Some s ∧
  length (k_seen s) = 2 ∧
  ∃ pre lost, pre `prefix_of` [ex_reply false; ex_reply true] ∧ Forall2 (decodes ex_time) pre (k_seen s ++ lost) ∧
    length lost ≤ 32 ∧ ∃ p r i, pre = p ++ [r] ∧ decode_reply ex_time r = Ok (i, true).
Proof.
  eexists. split; [vm_compute; reflexivity|]. split; [reflexivity|].
  eapply (store_Walk_spec ex_time (λ _, None) [ex_reply false; ex_reply true] [KProd; KProd; KTake; KProd; KProd; KTake; KFail]).
  vm_compute. reflexivity.
Defined.
