(* ===== verification/Services.v ===== *)
(** * The exporter and the Builder service

    The exporter and its buffer ([pkg/exporter]), and the methods and the listener of the
    Builder service ([pkg/server]); [PerformBuild] is in [Stages.v].  The listeners and the
    client of the stream are parameters. *)

From Stdlib Require Import Ascii.
From S2P Require Import Prelude GoStrings GoPath Api OsFs TarUnpack FileInfo TarCache Stream Stdio FsWalk BuildOpts.

(** ** The exporter *)

Record exporter := { e_log : list BuildTransfer; e_closed : bool }.
Definition NewExporterProxy : exporter := {| e_log := []; e_closed := false |}.

Definition export_packet (id : string) (data : bytes) (complete : bool) : BuildTransfer :=
  {| bt_Id := id; bt_Direction := OUTOF; bt_Source := None; bt_Destination := None; bt_Data := data; bt_Complete := complete;
     bt_IsDirectory := false; bt_Metadata := {[ "os" := "linux"; "stage" := "exporter"; "method" := "Write" ]} |}.

Section exporter.
(** The outcome of the request with number [n], and the ids. *)
Context (client : nat → option error) (uuid : nat → string).

Definition e_Write (e : exporter) (p : bytes) : exporter * (nat * option error) :=
  let k := length (e_log e) in
  let e' := {| e_log := e_log e ++ [export_packet (uuid k) p (bool_decide (p = []))]; e_closed := e_closed e |} in
  (e', match client k with Some err => (0, Some err) | None => (length p, None) end).

(** [Close]; [None] is the panic of closing the channel of [Done] twice. *)
Definition e_Close (e : exporter) : option (exporter * option error) :=
  match e_Write e [] with
  | (e', (_, Some err)) => Some (e', Some err)
  | (e', (_, None)) => if e_closed e' then None else Some ({| e_log := e_log e'; e_closed := true |}, None)
  end.
Definition e_Done (e : exporter) : bool := e_closed e.

(** [bufio.Writer] on the exporter *)
Record bufwriter := { bw_size : nat; bw_buf : bytes; bw_err : option error; bw_out : exporter }.

Definition NewBufferedWriteCloser (e : exporter) (size : Z) : bufwriter :=
  {| bw_size := Z.to_nat (if bool_decide (size ≤ 0)%Z then Z.shiftl 1 15 else size); bw_buf := []; bw_err := None; bw_out := e |}.

Definition set_out (b : bufwriter) (buf : bytes) (err : option error) (e : exporter) : bufwriter :=
  {| bw_size := bw_size b; bw_buf := buf; bw_err := err; bw_out := e |}.

Definition bw_Flush (b : bufwriter) : bufwriter * option error :=
  match bw_err b, bw_buf b with
  | Some e, _ => (b, Some e)
  | None, [] => (b, None)
  | None, buf =>
      match e_Write (bw_out b) buf with
      | (o, (n, Some e)) => (set_out b (drop n buf) (Some e) o, Some e)
      | (o, (n, None)) =>
          if bool_decide (n < length buf) then (set_out b (drop n buf) (Some (Sentinel "short write")) o, Some (Sentinel "short write"))
          else (set_out b [] None o, None)
      end
  end.

(** The loop of [Write] while the rest does not fit: a whole rest goes straight through when
    the buffer is empty, otherwise the buffer is filled and flushed. *)
Fixpoint bw_loop (fuel : nat) (b : bufwriter) (p : bytes) : bufwriter * bytes :=
  match fuel with
  | 0 => (b, p)
  | S fuel =>
      if bool_decide (bw_size b - length (bw_buf b) < length p) && bool_decide (bw_err b = None) then
        match bw_buf b with
        | [] => let '(o, (n, err)) := e_Write (bw_out b) p in bw_loop fuel (set_out b [] err o) (drop n p)
        | buf => let n := bw_size b - length buf in
                 bw_loop fuel (bw_Flush (set_out b (buf ++ take n p) (bw_err b) (bw_out b))).1 (drop n p)
        end
      else (b, p)
  end.

Definition bw_Write (b : bufwriter) (p : bytes) : bufwriter * option error :=
  let '(b, p) := bw_loop 3 b p in
  match bw_err b with
  | Some e => (b, Some e)
  | None => (set_out b (bw_buf b ++ p) None (bw_out b), None)
  end.

Definition bw_Close (b : bufwriter) : option (bufwriter * option error) :=
  match bw_Flush b with
  | (b, Some e) => Some (b, Some e)
  | (b, None) => '(o, err) ← e_Close (bw_out b); Some (set_out b (bw_buf b) (bw_err b) o, err)
  end.

Definition write_each (ws : list bytes) (b : bufwriter) : bufwriter := foldl (λ b p, (bw_Write b p).1) b ws.
End exporter.

(** ** The Builder service *)

Inductive status_code := InvalidArgument | Internal.

Definition LookupContext (unicode_lower : string → string) (fs : fsys) (path digest : string) : result status_code bool :=
  match CachedContextPresent unicode_lower fs (path_Join [path; "fssync"]) digest with
  | Ok present => Ok present
  | Err e => Err (if errors_Is e ErrInvalidContextDigest then InvalidArgument else Internal)
  end.

(** The other methods, and the interceptor: it logs a method and its error and hands on the
    handler's answer. *)
Definition Info : res unit := Ok tt.
Definition CreateBuild : res (option unit) := Ok None.

Definition debugGRPCLogger {Req Resp} (FullMethod : string) (handler : Req → res Resp) (req : Req) : res Resp * list string :=
  let resp := handler req in
  (resp, FullMethod :: match resp with Err _ => ["RPC failed: %v"] | Ok _ => [] end).

Record SocketConfig := { sc_Port : Z; sc_SocketPath : string; sc_SocketType : string }.
Definition SocketTypeUnix : string := "unix".
Definition SocketTypeVSock : string := "vsock".

Inductive listener := UnixListener (path : string) | VSockListener (port : Z).

(** [listenVSock]: up to 1000 attempts, the [k]th of which gives [attempts k]. *)
Fixpoint vsock_loop (n k : nat) (attempts : nat → option error) (err : option error) : option error :=
  match n with
  | 0 => err
  | S n => match attempts k with None => None | Some e => vsock_loop n (S k) attempts (Some e) end
  end.
Definition listenVSock (attempts : nat → option error) : option error := vsock_loop 1000 0 attempts None.

(** The listener of [Run]; [unix] and [vsock] are the results of the system. *)
Definition listen (socketConfig : SocketConfig) (unix : option error) (vsock : nat → option error) : res listener :=
  if bool_decide (sc_SocketType socketConfig = SocketTypeUnix)
  then match unix with Some e => Err e | None => Ok (UnixListener (sc_SocketPath socketConfig)) end
  else if bool_decide (sc_SocketType socketConfig = SocketTypeVSock)
  then match listenVSock vsock with Some e => Err e | None => Ok (VSockListener (sc_Port socketConfig)) end
  else Err (Errorf "unknown socket type: %s" [sc_SocketType socketConfig]).

(** A vsock listener is found within the thousand attempts or the last error is returned. *)
Lemma vsock_loop_spec n k attempts err :
  match vsock_loop n k attempts err with
  | None => n = 0 ∧ err = None ∨ ∃ i, k ≤ i < k + n ∧ attempts i = None
  | Some e => (∀ i, k ≤ i < k + n → attempts i ≠ None) ∧ (n = 0 ∧ err = Some e ∨ attempts (k + n - 1) = Some e)
  end.
Proof.
  revert k err. induction n as [|n IH]; intros k err; simpl.
  { destruct err; [split; [lia|by left]|by left]. }
  destruct (attempts k) as [e|] eqn:E; [|right; exists k; split; [lia|done]].
  specialize (IH (S k) (Some e)). destruct (vsock_loop n (S k) attempts (Some e)) as [e'|].
  - destruct IH as [H1 H2]. split.
    + intros i Hi. destruct (decide (i = k)) as [->|]; [by rewrite E|]. apply H1. lia.
    + right. destruct H2 as [[-> [= <-]]|H2]; [by replace (k + 1 - 1) with k by lia|]. by replace (k + S n - 1) with (S k + n - 1) by lia.
  - right. destruct IH as [[_ ?]|(i & ? & ?)]; [done|]. exists i. split; [lia|done].
Qed.

(** ** What the host receives from an export *)

Section export.
Context (uuid : nat → string).
Let good : nat → option error := λ _, None.

Definition sent (e : exporter) : bytes := concat (bt_Data <$> e_log e).
Definition data_packet (bt : BuildTransfer) : Prop := bt_Data bt ≠ [] ∧ bt_Complete bt = false.

(** Everything written so far was sent or is in the buffer. *)
Record bw_ok (b : bufwriter) (d : bytes) : Prop := {
  bo_err : bw_err b = None;
  bo_size : 0 < bw_size b ∧ length (bw_buf b) ≤ bw_size b;
  bo_log : Forall data_packet (e_log (bw_out b));
  bo_data : sent (bw_out b) ++ bw_buf b = d;
  bo_open : e_closed (bw_out b) = false;
}.

Lemma sent_snoc e id p c b : sent {| e_log := e_log e ++ [export_packet id p c]; e_closed := b |} = sent e ++ p.
Proof. unfold sent. simpl. rewrite fmap_app, concat_app. simpl. by rewrite app_nil_r. Qed.

(** A nonempty write sends one data packet with the bytes. *)
Lemma write_ok b d p : bw_ok b d → bw_buf b = [] → p ≠ [] →
  let '(o, (n, err)) := e_Write good uuid (bw_out b) p in n = length p ∧ err = None ∧ bw_ok (set_out b [] None o) (d ++ p).
Proof.
  intros [H1 [H2 H3] H4 H5 H6] Hb Hp. simpl. split_and!; try done. split; simpl; try done; [split; [done|lia]| |].
  - apply Forall_app. split; [done|]. apply Forall_singleton. split; [done|]. by apply bool_decide_eq_false.
  - rewrite sent_snoc, app_nil_r. rewrite Hb, app_nil_r in H5. by rewrite H5.
Qed.

Lemma flush_ok b d : bw_ok b d →
  (bw_Flush good uuid b).2 = None ∧ bw_ok (bw_Flush good uuid b).1 d ∧ bw_buf (bw_Flush good uuid b).1 = [] ∧
  bw_size (bw_Flush good uuid b).1 = bw_size b.
Proof.
  intros Hok. pose proof Hok as [H1 [H2 H3] H4 H5 H6]. unfold bw_Flush. rewrite H1.
  destruct (bw_buf b) as [|a buf] eqn:Eb; [done|].
  assert (Hok' : bw_ok (set_out b [] None (bw_out b)) (sent (bw_out b))).
  { split; simpl; try done; [split; [done|lia]|by rewrite app_nil_r]. }
  pose proof (write_ok _ _ (a :: buf) Hok' eq_refl ltac:(done)) as Hw. simpl bw_out in Hw.
  destruct (e_Write good uuid (bw_out b) (a :: buf)) as [o [n err]]. destruct Hw as (-> & -> & Hok2).
  rewrite bool_decide_false by lia. simpl. split_and!; try done. rewrite H5 in Hok2. exact Hok2.
Qed.

Lemma loop_ok b d p : bw_ok b d →
  let '(b', rest) := bw_loop good uuid 3 b p in
  ∃ d', bw_ok b' d' ∧ d' ++ rest = d ++ p ∧ length rest ≤ bw_size b' - length (bw_buf b').
Proof.
  (* with an empty buffer one write suffices *)
  assert (Hdirect : ∀ fuel b d p, bw_ok b d → bw_buf b = [] →
    let '(b', rest) := bw_loop good uuid (S (S fuel)) b p in
    ∃ d', bw_ok b' d' ∧ d' ++ rest = d ++ p ∧ length rest ≤ bw_size b' - length (bw_buf b')).
  { clear. intros fuel b d p Hok Hb. cbn [bw_loop]. rewrite Hb. simpl length. rewrite Nat.sub_0_r.
    rewrite (bool_decide_true (bw_err b = None)) by apply Hok. rewrite andb_true_r.
    case_bool_decide as Hlt; [|exists d; rewrite Hb; simpl; split_and!; [done|done|lia]].
    assert (Hp : p ≠ []) by (intros ->; simpl in Hlt; lia).
    pose proof (write_ok b d p Hok Hb Hp) as Hw. destruct (e_Write good uuid (bw_out b) p) as [o [n err]].
    destruct Hw as (-> & -> & Hok2). rewrite drop_all. cbn [bw_loop bw_size bw_buf set_out length].
    rewrite bool_decide_false by lia. cbn [andb]. exists (d ++ p). rewrite app_nil_r. split_and!; [done|done|simpl; lia]. }
  intros Hok. destruct (bw_buf b) as [|a buf] eqn:Eb; [by apply (Hdirect 1)|].
  pose proof Hok as [H1 [H2 H3] H4 H5 H6]. rewrite Eb in H3, H5. 
  change (bw_loop good uuid 3 b p) with (
    if bool_decide (bw_size b - length (bw_buf b) < length p) && bool_decide (bw_err b = None) then
      match bw_buf b with
      | [] => let '(o, (n, err)) := e_Write good uuid (bw_out b) p in bw_loop good uuid 2 (set_out b [] err o) (drop n p)
      | buf => let n := bw_size b - length buf in
               bw_loop good uuid 2 (bw_Flush good uuid (set_out b (buf ++ take n p) (bw_err b) (bw_out b))).1 (drop n p)
      end
    else (b, p)).
  rewrite (bool_decide_true (bw_err b = None)) by done. rewrite andb_true_r, Eb.
  case_bool_decide as Hlt; [|exists d; rewrite Eb; split_and!; [done|done|lia]].
  cbv zeta. set (n := bw_size b - length (a :: buf)) in *.
  assert (Hfill : bw_ok (set_out b ((a :: buf) ++ take n p) (bw_err b) (bw_out b)) (d ++ take n p)).
  { split; cbn [bw_err bw_size bw_buf bw_out set_out]; try done.
    - split; [done|]. rewrite length_app, length_take. lia.
    - by rewrite app_assoc, H5. }
  destruct (flush_ok _ _ Hfill) as (_ & Hfl & Hempty & Hsize).
  pose proof (Hdirect 0 _ _ (drop n p) Hfl Hempty) as Hd.
  destruct (bw_loop good uuid 2 _ (drop n p)) as [b' rest]. destruct Hd as (d' & ? & Hd' & ?). exists d'.
  split_and!; [done| |done]. by rewrite Hd', <-app_assoc, take_drop.
Qed.

Lemma bw_Write_ok b d p : bw_ok b d → bw_ok (bw_Write good uuid b p).1 (d ++ p).
Proof.
  intros Hok. unfold bw_Write. pose proof (loop_ok b d p Hok) as Hl. destruct (bw_loop good uuid 3 b p) as [b' rest].
  destruct Hl as (d' & [H1 [H2 H3] H4 H5 H6] & Hd & Hlen). rewrite H1. simpl. split; simpl; try done.
  - split; [done|]. rewrite length_app. lia.
  - by rewrite app_assoc, H5.
Qed.

Lemma write_each_ok ws b d : bw_ok b d → bw_ok (write_each good uuid ws b) (d ++ concat ws).
Proof.
  revert b d. induction ws as [|p ws IH]; intros b d Hok; simpl; [by rewrite app_nil_r|].
  rewrite app_assoc. by apply IH, bw_Write_ok.
Qed.
End export.

(** C38. An export through the buffered writer, with any buffer size and any sequence of
    writes, reaches the host completely when the host accepts every packet: nonempty packets
    whose data concatenates to what was written, then exactly one completion packet, which is
    the last; and the exporter is closed. *)
Theorem export_stream uuid (size : Z) (ws : list bytes) :
  ∃ b, bw_Close (λ _, None) uuid (write_each (λ _, None) uuid ws (NewBufferedWriteCloser NewExporterProxy size)) = Some (b, None) ∧
  e_Done (bw_out b) = true ∧
  ∃ packets id, e_log (bw_out b) = packets ++ [export_packet id [] true] ∧ Forall data_packet packets ∧
    concat (bt_Data <$> packets) = concat ws.
Proof.
  assert (Hinit : bw_ok (NewBufferedWriteCloser NewExporterProxy size) []).
  { split; simpl; try done. split; [|lia]. case_bool_decide; [|lia]. rewrite Z.shiftl_1_l. lia. }
  pose proof (write_each_ok uuid ws _ _ Hinit) as Hw. set (b := write_each _ _ _ _) in *. clearbody b.
  destruct (flush_ok uuid b _ Hw) as (Hf1 & Hf2 & Hf3 & _). unfold bw_Close.
  destruct (bw_Flush (λ _, None) uuid b) as [b' e]. simpl in *. subst e. unfold e_Close. simpl.
  destruct Hf2 as [_ _ H4 H5 H6]. rewrite Hf3, app_nil_r in H5. rewrite H6. eexists. split; [reflexivity|]. split; [done|].
  eexists _, _. split; [reflexivity|]. done.
Qed.

(** ** The context lookup *)

(** [LookupContext] and the builds of the same service use one cache: for any build the
    service accepts, the lookup asks for the digest in that build's cache directory, and its
    answer is the cache's, a malformed digest being an invalid argument and every other
    failure an internal error. *)
Theorem LookupContext_agrees `{BL : BuildLibs} ul fs keys path m o digest :
  NewBuildOpts keys path m = Some (Ok o) →
  LookupContext ul fs path digest =
    match CachedContextPresent ul fs (basePath (FSSync o)) digest with
    | Ok present => Ok present
    | Err e => Err (if errors_Is e ErrInvalidContextDigest then InvalidArgument else Internal)
    end ∧
  (validateContextDigest ul digest ≠ Ok tt → LookupContext ul fs path digest = Err InvalidArgument).
Proof.
  intros Ho. assert (Hb : basePath (FSSync o) = path_Join [path; "fssync"]).
  { unfold NewBuildOpts in Ho. destruct (parseBuildRequest keys m) as [r|]; [|done].
    destruct (createBuildServices path r) as [[[sv ba]|]|] eqn:Hs; [|done..]. injection Ho as <-. simpl.
    unfold createBuildServices in Hs. match type of Hs with match ?x with _ => _ end = _ => destruct x as [[[[io pw] nodes] ba']|]; [|done] end.
    destruct (dockerfileAddedGlobs nodes) as [[gl|]|]; [|done..]. by injection Hs as <- <-. }
  rewrite Hb. split; [done|]. intros Hv. unfold LookupContext, CachedContextPresent.
  destruct (validateContextDigest ul digest) as [[]|e] eqn:Ev; [done|]. simpl.
  assert (He : errors_Is e ErrInvalidContextDigest = true); [|by rewrite He].
  unfold validateContextDigest in Ev. repeat case_match; simplify_eq; reflexivity.
Qed.

Lemma LookupContext_agrees_witness : ∃ o, ex_opts = Some (Ok o) ∧
  LookupContext (λ s, s) ex_disk "/var/lib/shim" "xyz" =
    match CachedContextPresent (λ s, s) ex_disk (basePath (FSSync o)) "xyz" with
    | Ok present => Ok present
    | Err e => Err (if errors_Is e ErrInvalidContextDigest then InvalidArgument else Internal)
    end.
Proof.
  destruct ex_opts as [[o|]|] eqn:E; [|by vm_compute in E..]. exists o. split; [done|].
  exact (proj1 (LookupContext_agrees (λ s, s) ex_disk attestation_keys "/var/lib/shim" ex_metadata o "xyz" E)).
Defined.
