(* ===== verification/Stages.v ===== *)
(** * The stages of a build and [PerformBuild] ([pkg/server])

    A build attaches four stages to the stream of its call: the content store, the file
    synchronisation, the resolver and the progress stream.  Here are the filters by which they
    take their packets, the pipeline that [PerformBuild] builds from them, and the call as a
    whole. *)

From Stdlib Require Import Ascii.
From S2P Require Import Prelude GoStrings GoPath Api TarUnpack Stream BuildUtils Stdio FsWalk BuildOpts BuildOutput Frontend BuildRun.

(** ** The filters *)

Definition content_String : string := "content-store".
Definition resolver_String : string := "resolver".
Definition fssync_String : string := "fssync".
Definition exporter_String : string := "exporter".

Definition content_Filter : FilterFn := λ c,
  match GetImageTransfer c with
  | Some it => if bool_decide (mget (it_Metadata it) "stage" = content_String) then None else Some ErrIgnorePacket
  | None => Some ErrIgnorePacket
  end.

Definition resolver_Filter : FilterFn := λ c,
  match GetImageTransfer c with
  | Some it => if bool_decide (mget (it_Metadata it) "stage" = resolver_String) then None else Some ErrIgnorePacket
  | None => Some ErrIgnorePacket
  end.

Definition fssync_Filter : FilterFn := λ c,
  match GetBuildTransfer c with
  | Some bt => if bool_decide (mget (bt_Metadata bt) "stage" = fssync_String) then None else Some ErrIgnorePacket
  | None => Some ErrIgnorePacket
  end.

Definition exporter_Filter : FilterFn := λ c,
  match GetBuildTransfer c with
  | Some bt => if bool_decide (mget (bt_Metadata bt) "stage" = exporter_String) then None else Some ErrIgnorePacket
  | None => Some ErrIgnorePacket
  end.

(** ** The call *)

Definition ErrMetadataMissing : error := Sentinel "metadata missing in build request".

Section perform.
Context {BL : BuildLibs} {KL : BuildkitLibs} (json_Unmarshal : bytes → res TerminalCommand).
Context (CreateTemp : res nat) (MkdirAll : string → res unit).

Definition stages_of (o : BOpts) : list FilterFn :=
  [content_Filter; fssync_Filter; resolver_Filter; stdio_Filter json_Unmarshal (BOStdio o)].

(** A call that got as far as its pipeline, with the pipeline as it is created and what
    [build.Build] did. *)
Record performed := { pf_opts : BOpts; pf_pipeline : pipeline; pf_build : build_run }.

(** [PerformBuild]: [input] is what the host will send.  [None] is the panic of [NewBuildOpts]. *)
Definition PerformBuild (keys : list (string * string)) (path : string) (md : option metadata) (input : list (res ClientStream))
    (temps : gset nat) : option (option error * option performed) :=
  match md with
  | None => Some (Some ErrMetadataMissing, None)
  | Some md =>
      match NewBuildOpts keys path md with
      | None => None
      | Some (Err e) => Some (Some e, None)
      | Some (Ok opts) =>
          let pipeline := NewPipeline input (stages_of opts) in
          let b := Build CreateTemp MkdirAll NoValue opts temps in
          Some (br_err b, Some {| pf_opts := opts; pf_pipeline := pipeline; pf_build := b |})
      end
  end.

(** ** Where a packet goes *)

(** The packet's own address: its kind and the stage its metadata names. *)
Definition address (o : BOpts) (c : ClientStream) : option nat :=
  match c_PacketType c with
  | Some (CImageTransfer it) =>
      if bool_decide (mget (it_Metadata it) "stage" = "content-store") then Some 0
      else if bool_decide (mget (it_Metadata it) "stage" = "resolver") then Some 2 else None
  | Some (CBuildTransfer bt) => if bool_decide (mget (bt_Metadata bt) "stage" = "fssync") then Some 1 else None
  | Some (CCommand _) => match stdio_Filter json_Unmarshal (BOStdio o) c with None => Some 3 | Some _ => None end
  | _ => None
  end.

Lemma stdio_ignores r c : GetCommand c = None → stdio_Filter json_Unmarshal r c = Some ErrIgnorePacket.
Proof. intros H. unfold stdio_Filter, stdio_filter_effect. by rewrite H. Qed.

(** A packet passes the filter of its own stage and of no other. *)
Lemma filter_address o c i f : stages_of o !! i = Some f → (f c = None ↔ address o c = Some i).
Proof.
  unfold stages_of, address, content_Filter, fssync_Filter, resolver_Filter, GetImageTransfer, GetBuildTransfer,
    content_String, fssync_String, resolver_String.
  destruct c as [id [[sg|cmd|bt|it]|]]; destruct i as [|[|[|[|i]]]]; simpl; intros [= <-]; cbn [c_PacketType];
    try done; rewrite ?stdio_ignores by done; try done; try (repeat case_bool_decide; simplify_eq; try done; congruence).
  - by destruct (stdio_Filter json_Unmarshal (BOStdio o) _).
  - by destruct (stdio_Filter json_Unmarshal (BOStdio o) _).
  - by destruct (stdio_Filter json_Unmarshal (BOStdio o) _).
  - by destruct (stdio_Filter json_Unmarshal (BOStdio o) _).
Qed.

Lemma dispatch_address o c : dispatch (stages_of o) c = address o c.
Proof.
  assert (Hf : ∀ i f, stages_of o !! i = Some f → (f c = None ↔ address o c = Some i)) by (intros; by apply filter_address).
  assert (Ha : ∀ i, address o c = Some i → i < 4).
  { intros i. unfold address. repeat case_match; intros; simplify_eq; lia. }
  pose proof (Hf 0 _ eq_refl) as H0. pose proof (Hf 1 _ eq_refl) as H1. pose proof (Hf 2 _ eq_refl) as H2. pose proof (Hf 3 _ eq_refl) as H3.
  cbn [dispatch stages_of]. destruct (content_Filter c); [|symmetry; by apply H0].
  destruct (fssync_Filter c); [|symmetry; by apply H1]. destruct (resolver_Filter c); [|symmetry; by apply H2].
  destruct (stdio_Filter json_Unmarshal (BOStdio o) c); [|symmetry; by apply H3]. simpl.
  destruct (address o c) as [[|[|[|[|i]]]]|]; [naive_solver..| |done]. specialize (Ha _ eq_refl). lia.
Qed.

(** The exporter is no stage of a build: its packets are dropped. *)
Lemma exporter_unserved o c : exporter_Filter c = None → dispatch (stages_of o) c = None.
Proof.
  rewrite dispatch_address. unfold exporter_Filter, address, GetBuildTransfer.
  destruct c as [id [[sg|cmd|bt|it]|]]; simpl; try done. unfold exporter_String.
  case_bool_decide as H; [|done]. intros _. rewrite H. done.
Qed.

(** C22. The filters of the stages do not overlap: in whatever order the stages are attached, a
    packet goes to the one stage that its kind and the stage named in its metadata address, and
    is dropped exactly when it addresses none of them. *)
Theorem stages_disjoint (o : BOpts) (fs : list FilterFn) (c : ClientStream) : fs ≡ₚ stages_of o →
  match dispatch fs c, address o c with
  | Some i, Some j => fs !! i = stages_of o !! j
  | None, None => True
  | _, _ => False
  end.
Proof.
  intros Hp. pose proof (dispatch_first fs c) as Hd.
  destruct (dispatch fs c) as [i|], (address o c) as [j|] eqn:Ha; try done.
  - destruct Hd as [(f & Hf & Hc) _]. etrans; [exact Hf|]. assert (Hin : f ∈ stages_of o) by (rewrite <-Hp; by eapply list_elem_of_lookup_2).
    apply list_elem_of_lookup_1 in Hin as [k Hk]. apply (filter_address o c k f Hk) in Hc. by simplify_eq.
  - destruct Hd as [(f & Hf & Hc) _]. assert (Hin : f ∈ stages_of o) by (rewrite <-Hp; by eapply list_elem_of_lookup_2).
    apply list_elem_of_lookup_1 in Hin as [k Hk]. apply (filter_address o c k f Hk) in Hc. congruence.
  - assert (Hlt : j < 4) by (revert Ha; unfold address; repeat case_match; intros; simplify_eq; lia).
    destruct (lookup_lt_is_Some_2 (stages_of o) j Hlt) as [f Hf]. rewrite Forall_forall in Hd.
    apply (Hd f); [rewrite Hp; by eapply list_elem_of_lookup_2|]. by apply (filter_address o c j f Hf).
Qed.

(** C8. A whole call: without metadata or with a request that [NewBuildOpts] refuses it fails
    with that error and attaches nothing; otherwise its error is that of the build of these
    options, which reads them back from its context when it asks BuildKit, and during the build,
    under every schedule of the pipeline, the packets of the host that address a stage are, in
    order and without loss or repetition, those this stage has handled, is handing over, has
    queued or is being given. *)
Theorem PerformBuild_sound keys path md input temps err pf :
  PerformBuild keys path md input temps = Some (err, pf) →
  match pf with
  | None => md = None ∧ err = Some ErrMetadataMissing ∨
            ∃ m e, md = Some m ∧ NewBuildOpts keys path m = Some (Err e) ∧ err = Some e
  | Some p =>
      (∃ m, md = Some m ∧ NewBuildOpts keys path m = Some (Ok (pf_opts p))) ∧
      err = br_err (pf_build p) ∧ br_closed (pf_build p) = br_opened (pf_build p) ∧
      (∀ ctx opt, br_asked (pf_build p) = Some (ctx, opt) → newBOptsFromContext ctx = Ok (pf_opts p)) ∧
      (∀ ls q i s, run ls (pf_pipeline p) = Some q → stages q !! i = Some s →
         filter (λ c, address (pf_opts p) c = Some i) (consumed q) =
         (sg_log s).*1 ++ accepting (sg_pc s) ++ sg_recvCh s ++ processing i (receiver q))
  end.
Proof.
  unfold PerformBuild. destruct md as [m|]; [|intros [= <- <-]; by left].
  destruct (NewBuildOpts keys path m) as [[o|e]|] eqn:Hn; [|intros [= <- <-]; right; by exists m, e|done].
  intros [= <- <-]. cbn [pf_opts pf_build pf_pipeline]. split_and!; [by exists m|done|..].
  - unfold br_closed, br_opened. pose proof (Build_events CreateTemp MkdirAll NoValue o temps) as Hev. cbv zeta in Hev.
    destruct newBuildkitClient; [destruct Hev as [(e & _ & -> & _)|(opt & exports & wf & -> & _)]; done|by destruct Hev as [_ ->]].
  - intros ctx opt. unfold br_asked. pose proof (Build_events CreateTemp MkdirAll NoValue o temps) as Hev. cbv zeta in Hev.
    destruct newBuildkitClient; [destruct Hev as [(e & _ & -> & _)|(opt' & exports & wf & -> & _)]; [done|]|by destruct Hev as [_ ->]].
    by intros [= <- <-].
  - intros ls q i s Hr Hs. destruct (good_run _ _ _ _ _ (good_init input (stages_of o)) Hr) as [_ [_ G] _ _].
    rewrite <-(G i s Hs). apply list_filter_iff. intros c. by rewrite dispatch_address.
Qed.
End perform.

(** ** A call with one reply of the host *)

Definition ex_reply : ClientStream :=
  {| c_BuildId := "1"; c_PacketType := Some (CImageTransfer {| it_Id := "1"; it_Direction := INTO; it_Tag := ""; it_Descriptor := None;
     it_Data := []; it_Complete := true; it_Metadata := {[ "stage" := "resolver" ]} |}) |}.
Definition no_json (b : bytes) : res TerminalCommand := Err EOF.

Lemma stages_disjoint_witness :
  dispatch (reverse (stages_of no_json three_outputs)) ex_reply = Some 1 ∧
  reverse (stages_of no_json three_outputs) !! 1 = stages_of no_json three_outputs !! 2.
Proof.
  split; [reflexivity|].
  exact (stages_disjoint no_json three_outputs (reverse (stages_of no_json three_outputs)) ex_reply (reverse_Permutation _)).
Defined.

Definition ex_call : option (option error * option performed) :=
  @PerformBuild ex_libs (ex_buildkit (Ok [])) no_json (Ok 7) (λ _, Ok tt) attestation_keys "/var/lib/shim" (Some ex_metadata) [Ok ex_reply] ∅.

Lemma PerformBuild_sound_witness : ∃ p, ex_call = Some (Some (Errorf "failed to solve" []), Some p) ∧
  ∀ ls q s, run ls (pf_pipeline p) = Some q → stages q !! 2 = Some s →
    filter (λ c, address no_json (pf_opts p) c = Some 2) (consumed q) =
    (sg_log s).*1 ++ accepting (sg_pc s) ++ sg_recvCh s ++ processing 2 (receiver q).
Proof.
  assert (H : match ex_call with Some (e, Some _) => bool_decide (e = Some (Errorf "failed to solve" [])) | _ => false end = true)
    by (vm_compute; reflexivity).
  destruct ex_call as [[err [p|]]|] eqn:E; [|discriminate H..]. apply bool_decide_eq_true in H as He. exists p.
  split; [by rewrite He|]. intros ls q s.
  apply (@PerformBuild_sound ex_libs (ex_buildkit (Ok [])) no_json (Ok 7) (λ _, Ok tt) attestation_keys "/var/lib/shim" (Some ex_metadata) [Ok ex_reply] ∅ err (Some p) E).
Defined.
