(* ===== verification/Proxies.v ===== *)
(** * The proxies over the pipeline

    [Content.v] and [FsFile.v] describe the [request] methods of the content store, the resolver
    and the file synchronisation as applications of a host function.  Here the methods are what
    they are in the code, a message for [Request] and a treatment of what it returns, run as
    calls of [Calls.v] over the pipeline that [PerformBuild] builds; the theorem is that the two
    agree, so that what those files show of reads, files and images holds over the stream. *)

From S2P Require Import Prelude GoStrings Api TarUnpack Stream Exchange Calls Content Stdio FsWalk FsFile BuildOpts BuildOutput Stages.

(** A [request] method: the stage it belongs to, what it does to the packet before it sends it
    under the fresh id, how the packet is wrapped and the reply unwrapped, and what is made of a
    reply. *)
Record proxy (P R : Type) := {
  px_stage : nat;
  px_name : string;
  px_prepare : string → P → P;
  px_wrap : P → ServerPacket;
  px_get : option ClientPacket → option P;
  px_metadata : P → smap;
  px_finish : res (option P) → R;
}.
Arguments px_stage {_ _}.
Arguments px_name {_ _}.
Arguments px_prepare {_ _}.
Arguments px_wrap {_ _}.
Arguments px_get {_ _}.
Arguments px_metadata {_ _}.
Arguments px_finish {_ _}.

Definition image_of (c : option ClientPacket) : option ImageTransfer := match c with Some (CImageTransfer it) => Some it | _ => None end.
Definition build_of (c : option ClientPacket) : option BuildTransfer := match c with Some (CBuildTransfer bt) => Some bt | _ => None end.

(** [ContentStoreProxy.request] *)
Definition content_proxy : proxy ImageTransfer (res ImageTransfer) := {|
  px_stage := 0;
  px_name := content_String;
  px_prepare := λ id packet, if bool_decide (it_Id packet = "") then set_id id packet else packet;
  px_wrap := SImageTransfer;
  px_get := image_of;
  px_metadata := it_Metadata;
  px_finish := λ r,
    match r with
    | Err e => Err e
    | Ok None => Err (Errorf "content store response missing image transfer" [])
    | Ok (Some it) => Ok it
    end;
|}.

(** [FSSyncProxy.request] *)
Definition fssync_proxy : proxy BuildTransfer (res (option BuildTransfer)) := {|
  px_stage := 1;
  px_name := fssync_String;
  px_prepare := with_id;
  px_wrap := SBuildTransfer;
  px_get := build_of;
  px_metadata := bt_Metadata;
  px_finish := λ r, r;
|}.

(** [ResolverProxy.request] *)
Definition resolver_proxy : proxy ImageTransfer (res (option ImageTransfer)) := {|
  px_stage := 2;
  px_name := resolver_String;
  px_prepare := set_id;
  px_wrap := SImageTransfer;
  px_get := image_of;
  px_metadata := it_Metadata;
  px_finish := λ r, r;
|}.

(** What it hands to [Request], and what it makes of its result. *)
Definition px_message {P R} (X : proxy P R) (uuid : string) (packet : P) : ServerStream :=
  {| s_BuildId := uuid; s_PacketType := Some (px_wrap X (px_prepare X uuid packet)) |}.
Definition px_return {P R} (X : proxy P R) (r : res ClientStream) : R :=
  px_finish X (match r with Ok c => Ok (px_get X (c_PacketType c)) | Err e => Err e end).

(** The host as the proxy sees it, and a host that cannot be reached. *)
Definition host_of `{Host} {P R} (X : proxy P R) (packet : P) : res (option P) :=
  Ok (px_get X (host_reply (Some (px_wrap X packet)))).
Definition over `{Host} {P R} (X : proxy P R) (r : res ClientStream) : P → res (option P) :=
  match r with Ok _ => host_of X | Err e => λ _, Err e end.

(** The protocol: a transfer is answered by a transfer of the same kind for the same stage. *)
Class HostEchoes `{Host} : Prop := {
  echo_image : ∀ it, ∃ it', host_reply (Some (SImageTransfer it)) = Some (CImageTransfer it') ∧
    mget (it_Metadata it') "stage" = mget (it_Metadata it) "stage";
  echo_build : ∀ bt, ∃ bt', host_reply (Some (SBuildTransfer bt)) = Some (CBuildTransfer bt') ∧
    mget (bt_Metadata bt') "stage" = mget (bt_Metadata bt) "stage";
}.

Section proxies.
Context {HO : Host} {HE : HostEchoes} (json_Unmarshal : bytes → res TerminalCommand) (o : BOpts).

(** A call of a proxy: on its stage, with a packet that names the stage. *)
Definition calls_proxy {P R} (X : proxy P R) (uuid : string) (packet : P) (c : call) : Prop :=
  ca_stage c = px_stage X ∧ ca_msg c = px_message X uuid packet ∧ mget (px_metadata X packet) "stage" = px_name X.

(** The answer comes back to the stage of the proxy. *)
Lemma content_addressed uuid packet c : calls_proxy content_proxy uuid packet c →
  dispatch (stages_of json_Unmarshal o) (answer (ca_msg c)) = Some (ca_stage c).
Proof.
  intros (Es & Em & Hn). rewrite dispatch_address, Em, Es. unfold address, answer. cbn [c_PacketType s_PacketType px_message px_wrap content_proxy].
  destruct (echo_image (px_prepare content_proxy uuid packet)) as (it' & -> & E). rewrite E.
  rewrite bool_decide_true; [done|]. simpl. by case_bool_decide.
Qed.

Lemma fssync_addressed uuid packet c : calls_proxy fssync_proxy uuid packet c →
  dispatch (stages_of json_Unmarshal o) (answer (ca_msg c)) = Some (ca_stage c).
Proof.
  intros (Es & Em & Hn). rewrite dispatch_address, Em, Es. unfold address, answer. cbn [c_PacketType s_PacketType px_message px_wrap fssync_proxy].
  destruct (echo_build (px_prepare fssync_proxy uuid packet)) as (bt' & -> & E). rewrite E. by rewrite bool_decide_true.
Qed.

Lemma resolver_addressed uuid packet c : calls_proxy resolver_proxy uuid packet c →
  dispatch (stages_of json_Unmarshal o) (answer (ca_msg c)) = Some (ca_stage c).
Proof.
  intros (Es & Em & Hn). rewrite dispatch_address, Em, Es. unfold address, answer. cbn [c_PacketType s_PacketType px_message px_wrap resolver_proxy].
  destruct (echo_image (px_prepare resolver_proxy uuid packet)) as (it' & -> & E). rewrite E.
  change (mget (it_Metadata (px_prepare resolver_proxy uuid packet)) "stage") with (mget (px_metadata resolver_proxy packet) "stage").
  rewrite Hn. done.
Qed.

(** The call of a proxy at rest has the result of its method on the host's function, or on the
    error by which the call ended. *)
Lemma proxy_call {P R} (X : proxy P R) ls n h c uuid packet :
  nrun ls (ninit (stages_of json_Unmarshal o)) = Some n → quiet n → calls n !! h = Some c → calls_proxy X uuid packet c →
  dispatch (stages_of json_Unmarshal o) (answer (ca_msg c)) = Some (ca_stage c) →
  ∃ r, ca_pc c = CDone r ∧ px_return X r = px_finish X (over X r (px_prepare X uuid packet)) ∧
    (∀ e, r = Err e → e = ErrSendStreamBlocked ∨ ∃ d, demuxes (np n) !! h = Some d ∧ dm_err d = Some e).
Proof.
  intros Hr Hq Hc (Es & Em & Hn) Hd. pose proof (net_ok_run _ _ _ _ (net_ok_init _) Hr) as Hok.
  destruct (quiet_done _ _ _ _ Hok Hq Hc Hd) as [r Hpc]. exists r. split; [done|].
  destruct (Forall2_lookup_l _ _ _ _ _ (results_ok _ _ Hok) Hc) as (d & Hdm & Hres). unfold result_ok in Hres. rewrite Hpc in Hres.
  destruct r as [x|e].
  - split; [|done]. subst x. unfold px_return, over, host_of. by rewrite Em.
  - split; [done|]. intros e' [= <-]. destruct Hres; [by left|right; eauto].
Qed.

(** C12. The proxies over the stream.  In every run of any number of calls over the pipeline of a
    build, with a host that answers each transfer with one of the same kind for the same stage:
    once nothing can move, a call of the content store, of the resolver or of the file
    synchronisation has returned what its [request] is in terms of the host's function, or the
    error by which the call ended, that of the full send queue or of its own context. *)
Theorem proxies_refine (ls : list net_label) (n : net) (h : nat) (c : call) (uuid : string) :
  nrun ls (ninit (stages_of json_Unmarshal o)) = Some n → quiet n → calls n !! h = Some c →
  (∀ packet, calls_proxy content_proxy uuid packet c →
     ∃ r, ca_pc c = CDone r ∧ px_return content_proxy r = store_request (over content_proxy r) uuid packet) ∧
  (∀ packet, calls_proxy resolver_proxy uuid packet c →
     ∃ r, ca_pc c = CDone r ∧ px_return resolver_proxy r = resolver_request (over resolver_proxy r) uuid packet) ∧
  (∀ packet, calls_proxy fssync_proxy uuid packet c →
     ∃ r, ca_pc c = CDone r ∧ px_return fssync_proxy r = request (over fssync_proxy r) uuid packet) ∧
  (∀ e, ca_pc c = CDone (Err e) → e = ErrSendStreamBlocked ∨ ∃ d, demuxes (np n) !! h = Some d ∧ dm_err d = Some e).
Proof.
  intros Hr Hq Hc. split_and!.
  - intros packet Hp. destruct (proxy_call content_proxy _ _ _ _ _ _ Hr Hq Hc Hp (content_addressed _ _ _ Hp)) as (r & Hpc & E & _). by exists r.
  - intros packet Hp. destruct (proxy_call resolver_proxy _ _ _ _ _ _ Hr Hq Hc Hp (resolver_addressed _ _ _ Hp)) as (r & Hpc & E & _). by exists r.
  - intros packet Hp. destruct (proxy_call fssync_proxy _ _ _ _ _ _ Hr Hq Hc Hp (fssync_addressed _ _ _ Hp)) as (r & Hpc & E & _). by exists r.
  - intros e He. pose proof (net_ok_run _ _ _ _ (net_ok_init _) Hr) as Hok.
    destruct (Forall2_lookup_l _ _ _ _ _ (results_ok _ _ Hok) Hc) as (d & Hdm & Hres). unfold result_ok in Hres. rewrite He in Hres.
    destruct Hres; [by left|right; eauto].
Qed.
End proxies.

(** ** A call of the content store *)

(** A host that sends every transfer back. *)
#[export] Instance ex_mirror : Host := λ m,
  match m with
  | Some (SImageTransfer it) => Some (CImageTransfer it)
  | Some (SBuildTransfer bt) => Some (CBuildTransfer bt)
  | _ => None
  end.

#[export] Instance ex_mirror_echoes : @HostEchoes ex_mirror.
Proof. split; [intros it; by exists it|intros bt; by exists bt]. Qed.

Definition ex_store_packet : ImageTransfer := image_transfer "" OUTOF "sha256:0" None (store_metadata "Info").
Definition ex_store_call : list net_label :=
  [NCall 0 (px_message content_proxy "u" ex_store_packet); NSend 0; NWire; NHost 0; NPipe LRecv; NPipe LProcess; NPipe (LStage 0); NPipe (LAccept 0); NRecv 0].

Lemma proxies_refine_witness : ∃ n c r, nrun ex_store_call (ninit (stages_of no_json three_outputs)) = Some n ∧
  calls n !! 0 = Some c ∧ ca_pc c = CDone r ∧ px_return content_proxy r = store_request (over content_proxy r) "u" ex_store_packet ∧ is_ok r = true.
Proof.
  assert (Hq : match nrun ex_store_call (ninit (stages_of no_json three_outputs)) with
    | Some n => settled n && match calls n !! 0 with Some c => match ca_pc c with CDone (Ok _) => true | _ => false end | None => false end
    | None => false end = true) by (vm_compute; reflexivity).
  destruct (nrun ex_store_call (ninit (stages_of no_json three_outputs))) as [n|] eqn:E; [|discriminate Hq].
  apply andb_prop in Hq as [Hq Hr]. destruct (calls n !! 0) as [c|] eqn:Hc; [|discriminate Hr].
  destruct (proxies_refine no_json three_outputs ex_store_call n 0 c "u" E (settled_quiet n Hq) Hc) as (Hs & _).
  destruct (Hs ex_store_packet) as (r & Hpc & Er).
  - assert (Em : (λ n, (λ c, (ca_stage c, ca_msg c)) <$> calls n !! 0) <$> nrun ex_store_call (ninit (stages_of no_json three_outputs)) =
      Some (Some (0, px_message content_proxy "u" ex_store_packet))) by (vm_compute; reflexivity).
    rewrite E in Em. simpl in Em. rewrite Hc in Em. injection Em as E1 E2. by split_and!.
  - exists n, c, r. rewrite Hpc in Hr. split_and!; [done|done|done|done|]. by destruct r.
Defined.
