(* ===== verification/Daemon.v ===== *)
(** * Starting the two daemons ([main.go], [pkg/buildkit])

    The configuration file of buildkitd, the process that is started with it, and the
    preparation of the shim's own socket.  The TOML encoder, the search for the runc binary and
    the process are parameters; the supervision of the daemons is in [Supervisor.v]. *)

From Stdlib Require Import Ascii.
From S2P Require Import Prelude GoStrings GoPath Api OsFs TarUnpack Services.

(** ** The configuration ([config.go]) *)

Definition ConfigPath : string := "/etc/buildkit/buildkitd.toml".

Record GRPCConfig := { DebugAddress : string }.
Record DNSConfig := { Nameservers : list string; Options : list string; SearchDomains : list string }.
Record GCPolicyRule := { Filters : list string; KeepDuration : option Z; KeepBytes : option Z; gc_All : bool }.
Record OCIWorkerConfig := {
  Enabled : bool;
  RuncBinaryPath : string;
  GC : bool;
  GCKeepStorage : option Z;
  GCPolicy : list GCPolicyRule;
}.
Record WorkerConfig := { OCI : OCIWorkerConfig }.
Record RegistryConfig := { Mirrors : list string }.

Record BuildkitdConfig := {
  cfg_Debug : bool;
  cfg_Trace : bool;
  cfg_Worker : WorkerConfig;
  cfg_Registry : gmap string RegistryConfig;
  cfg_GRPC : GRPCConfig;
  cfg_DNS : option DNSConfig;
}.

Definition int64Ptr (v : Z) : option Z := Some v.

Definition DefaultConfig : BuildkitdConfig :=
  {| cfg_Debug := false; cfg_Trace := false;
     cfg_Worker := {| OCI := {| Enabled := true; RuncBinaryPath := "/usr/bin/buildkit-runc"; GC := true;
                                GCKeepStorage := int64Ptr (Z.shiftl 1 35); GCPolicy := [] |} |};
     cfg_Registry := ∅; cfg_GRPC := {| DebugAddress := "" |}; cfg_DNS := None |}.

Definition Save (toml_Marshal : BuildkitdConfig → res bytes) (bc : BuildkitdConfig) (fs : fsys) : res fsys :=
  data ← toml_Marshal bc;
  fs ← os_MkdirAll fs (Dir ConfigPath) 493;
  os_WriteFile fs ConfigPath data 420.

(** ** The configuration of the command line ([RunE]) *)

Definition debugGRPCAddress : string := "127.0.0.1:10001".

(** The command line and its defaults. *)
Record flags := {
  fl_debug : bool;
  fl_enableQemu : bool;
  fl_vsockMode : bool;
  fl_vsockPort : Z;
  fl_socketPath : string;
  fl_buildkitdPath : string;
  fl_registryMirrors : list string;
  fl_dnsNameservers : list string;
  fl_dnsOptions : list string;
  fl_dnsSearch : list string;
}.

Definition default_flags : flags :=
  {| fl_debug := false; fl_enableQemu := false; fl_vsockMode := false; fl_vsockPort := 8088;
     fl_socketPath := "/run/buildkit/shim.sock"; fl_buildkitdPath := "/usr/bin/buildkitd"; fl_registryMirrors := [];
     fl_dnsNameservers := []; fl_dnsOptions := []; fl_dnsSearch := [] |}.
Definition basePath_default : string := "/var/lib/container-builder-shim".

(** The socket [server.Run] listens on; the port is cut to 32 bits. *)
Definition socket_config (f : flags) : SocketConfig :=
  if fl_vsockMode f then {| sc_Port := u32 (fl_vsockPort f); sc_SocketPath := ""; sc_SocketType := SocketTypeVSock |}
  else {| sc_Port := 0; sc_SocketPath := fl_socketPath f; sc_SocketType := SocketTypeUnix |}.

(** [RunE] listens on a unix socket at the prepared path or on the vsock port, never on an
    unknown type. *)
Lemma socket_config_listens f unix vsock :
  listen (socket_config f) unix vsock =
    if fl_vsockMode f then match listenVSock vsock with Some e => Err e | None => Ok (VSockListener (u32 (fl_vsockPort f))) end
    else match unix with Some e => Err e | None => Ok (UnixListener (fl_socketPath f)) end.
Proof. unfold listen, socket_config. by destruct (fl_vsockMode f). Qed.

Definition parseRegistryMirror (spec : string) : res (string * string) :=
  let '(key, value, ok) := Cut spec "=" in
  if negb ok then Err (Errorf "invalid registry mirror specification: %s" [spec])
  else if bool_decide (key = "") then Err (Errorf "invalid registry mirror specification: %s" [spec])
  else Ok (key, value).

(** The mirrors go into the map of [DefaultConfig], which the copy shares: what was added before
    an error stays there. *)
Fixpoint mirrors_loop (specs : list string) (registry : gmap string RegistryConfig) : gmap string RegistryConfig * option error :=
  match specs with
  | [] => (registry, None)
  | rm :: specs =>
      match parseRegistryMirror rm with
      | Err e => (registry, Some e)
      | Ok (key, value) =>
          let rc := default {| Mirrors := [] |} (registry !! key) in
          mirrors_loop specs (<[key := {| Mirrors := Mirrors rc ++ [value] |}]> registry)
      end
  end.

(** The configuration that is started, and [DefaultConfig] afterwards: the struct was copied,
    its registry, worker and gRPC parts are shared.  [runc] is [exec.LookPath("buildkit-runc")]. *)
Definition run_config (f : flags) (runc : res string) (dflt : BuildkitdConfig) : res BuildkitdConfig * BuildkitdConfig :=
  let shared registry worker grpc :=
    {| cfg_Debug := cfg_Debug dflt; cfg_Trace := cfg_Trace dflt; cfg_Worker := worker; cfg_Registry := registry;
       cfg_GRPC := grpc; cfg_DNS := cfg_DNS dflt |} in
  match mirrors_loop (fl_registryMirrors f) (cfg_Registry dflt) with
  | (registry, Some e) => (Err e, shared registry (cfg_Worker dflt) (cfg_GRPC dflt))
  | (registry, None) =>
      let dns := if bool_decide (fl_dnsNameservers f ≠ []) || bool_decide (fl_dnsOptions f ≠ []) || bool_decide (fl_dnsSearch f ≠ [])
                 then Some {| Nameservers := fl_dnsNameservers f; Options := fl_dnsOptions f; SearchDomains := fl_dnsSearch f |}
                 else cfg_DNS dflt in
      let debug := if fl_debug f then true else cfg_Debug dflt in
      let grpc := if fl_debug f then {| DebugAddress := debugGRPCAddress |} else cfg_GRPC dflt in
      let w := OCI (cfg_Worker dflt) in
      let worker := match runc with
                    | Ok runcPath => {| OCI := {| Enabled := Enabled w; RuncBinaryPath := runcPath; GC := GC w;
                                                  GCKeepStorage := GCKeepStorage w; GCPolicy := GCPolicy w |} |}
                    | Err _ => cfg_Worker dflt end in
      (Ok {| cfg_Debug := debug; cfg_Trace := cfg_Trace dflt; cfg_Worker := worker; cfg_Registry := registry;
             cfg_GRPC := grpc; cfg_DNS := dns |}, shared registry worker grpc)
  end.

(** ** The process ([buildkit.Start]) *)

Definition search_path : string := "/sbin:/usr/sbin:/bin:/usr/bin".

(** [strings.SplitN(env, "=", 2)] *)
Definition start_env (env : string) : string :=
  let '(k, v, _) := Cut env "=" in
  k +:+ "=" +:+ (if EqualFold k "PATH" then v +:+ ":" +:+ search_path else v).
Definition start_envs (environ : list string) : list string :=
  match start_env <$> environ with [] => ["PATH=" +:+ search_path] | envs => envs end.
Definition start_binary (args : list string) : string * list string :=
  let binary := match args with b :: _ => b | [] => "" end in
  let binary := if bool_decide (binary = "") then "/usr/bin/buildkitd" else binary in
  (binary, match args with [] => [binary] | _ => args end).

(** [Start] up to the process: the disk, and the error or the process that runs. *)
Record process := { ps_binary : string; ps_args : list string; ps_env : list string }.

Definition start_process (toml_Marshal : BuildkitdConfig → res bytes) (StartProcess : process → option error)
    (config : BuildkitdConfig) (args environ : list string) (fs : fsys) : fsys * res process :=
  match Save toml_Marshal config fs with
  | Err e => (fs, Err e)
  | Ok fs =>
      let '(binary, args) := start_binary args in
      let p := {| ps_binary := binary; ps_args := args; ps_env := start_envs environ |} in
      (fs, match StartProcess p with Some e => Err e | None => Ok p end)
  end.

(** ** Before the command runs *)

Definition prepareUnixSocket (fs : fsys) (socketPath : string) : res fsys :=
  fs ← os_MkdirAll fs (Dir socketPath) 493; os_RemoveAll fs socketPath.

(** [PersistentPreRunE]: the disk, and whether the diagnostic HTTP server was started. *)
Definition PersistentPreRunE (f : flags) (fs : fsys) : res (fsys * bool) :=
  if negb (fl_vsockMode f) then fs ← prepareUnixSocket fs (fl_socketPath f); Ok (fs, false)
  else Ok (fs, fl_debug f).

(** With a unix socket the function has returned before the debug flag is looked at. *)
Lemma pprof_only_vsock f fs fs' started : PersistentPreRunE f fs = Ok (fs', started) → started = fl_vsockMode f && fl_debug f.
Proof.
  unfold PersistentPreRunE. destruct (fl_vsockMode f); simpl; [by intros [= _ <-]|].
  by intros (fs1 & _ & [= _ <-])%result_bind_ok.
Qed.

Definition disableQemu (fs : fsys) : fsys :=
  let path := "/usr/bin/buildkit-qemu-x86_64" in
  match os_Stat fs path with
  | Ok _ => match os_Rename fs path (path +:+ ".disabled") with Ok fs' => fs' | Err _ => fs end
  | Err _ => fs
  end.

(** The disk when the daemons start. *)
Definition RunE_disk (f : flags) (fs : fsys) : fsys := if fl_enableQemu f then fs else disableQemu fs.

(** ** What the registry holds *)

(** The mirrors that the specifications give a registry, in order. *)
Definition mirrors_for (key : string) (specs : list string) : list string :=
  omap (λ rm, match parseRegistryMirror rm with Ok (k, v) => if bool_decide (k = key) then Some v else None | Err _ => None end) specs.

Definition mirrors_of (registry : gmap string RegistryConfig) (key : string) : list string :=
  match registry !! key with Some rc => Mirrors rc | None => [] end.

Lemma mirrors_loop_spec specs registry :
  match mirrors_loop specs registry with
  | (r, None) => Forall (λ rm, is_ok (parseRegistryMirror rm) = true) specs ∧
      ∀ key, mirrors_of r key = mirrors_of registry key ++ mirrors_for key specs
  | (r, Some e) => ∃ done rm rest, specs = done ++ rm :: rest ∧ parseRegistryMirror rm = Err e ∧
      Forall (λ rm, is_ok (parseRegistryMirror rm) = true) done ∧
      ∀ key, mirrors_of r key = mirrors_of registry key ++ mirrors_for key done
  end.
Proof.
  revert registry. induction specs as [|rm specs IH]; intros registry; cbn [mirrors_loop].
  { split; [constructor|]. intros key. by rewrite app_nil_r. }
  destruct (parseRegistryMirror rm) as [[k v]|e] eqn:Hp.
  2: { exists [], rm, specs. split_and!; try done. intros key. by rewrite app_nil_r. }
  set (r1 := <[k := _]> registry). specialize (IH r1).
  assert (Hone : ∀ key l, mirrors_of r1 key ++ mirrors_for key l = mirrors_of registry key ++ mirrors_for key (rm :: l)).
  { intros key l. unfold r1, mirrors_of, mirrors_for. csimpl. rewrite Hp.
    destruct (decide (k = key)) as [->|Hne].
    - rewrite lookup_insert_eq, bool_decide_true by done. destruct (registry !! key); csimpl; [rewrite <-app_assoc|]; reflexivity.
    - by rewrite lookup_insert_ne, bool_decide_false. }
  destruct (mirrors_loop specs r1) as [r [e|]].
  - destruct IH as (dn & rm' & rest & -> & He & Hok & Hr). exists (rm :: dn), rm', rest. split_and!; try done.
    + constructor; [by rewrite Hp|done].
    + intros key. by rewrite Hr, Hone.
  - destruct IH as [Hok Hr]. split; [constructor; [by rewrite Hp|done]|]. intros key. by rewrite Hr, Hone.
Qed.

(** An environment entry keeps its name, and its value unless it is the search path. *)
Lemma start_env_spec k v : contains_byte "="%char k = false →
  start_env (k +:+ "=" +:+ v) = k +:+ "=" +:+ (if EqualFold k "PATH" then v +:+ ":" +:+ search_path else v).
Proof. intros Hk. unfold start_env. by rewrite string_app_cons, string_app_nil_l, Cut_byte_app. Qed.

(** C40. The configuration is accepted exactly when every mirror specification of the command line
    is valid; buildkitd is then started with, for every registry, the mirrors of the default
    configuration followed by those of the command line in their order.  Otherwise it is refused,
    before buildkitd is started, with the error of the first specification that is invalid.  In
    both cases the mirrors read so far are in [DefaultConfig] itself, whose map the copy shares. *)
Theorem run_config_mirrors (f : flags) (runc : res string) (dflt : BuildkitdConfig) :
  let valid rm := ∃ registry mirror, parseRegistryMirror rm = Ok (registry, mirror) in
  let '(r, dflt') := run_config f runc dflt in
  match r with
  | Ok c => Forall valid (fl_registryMirrors f) ∧ cfg_Registry dflt' = cfg_Registry c ∧
      (∀ key, mirrors_of (cfg_Registry c) key = mirrors_of (cfg_Registry dflt) key ++ mirrors_for key (fl_registryMirrors f)) ∧
      cfg_GRPC dflt' = cfg_GRPC c ∧ cfg_Worker dflt' = cfg_Worker c ∧ cfg_DNS dflt' = cfg_DNS dflt ∧
      RuncBinaryPath (OCI (cfg_Worker c)) = match runc with Ok p => p | Err _ => RuncBinaryPath (OCI (cfg_Worker dflt)) end
  | Err e => ∃ done rm rest, fl_registryMirrors f = done ++ rm :: rest ∧ Forall valid done ∧ parseRegistryMirror rm = Err e ∧
      ∀ key, mirrors_of (cfg_Registry dflt') key = mirrors_of (cfg_Registry dflt) key ++ mirrors_for key done
  end.
Proof.
  intros valid. unfold run_config. pose proof (mirrors_loop_spec (fl_registryMirrors f) (cfg_Registry dflt)) as Hm.
  assert (Hvalid : ∀ l, Forall (λ rm, is_ok (parseRegistryMirror rm) = true) l → Forall valid l).
  { intros l Hl. eapply Forall_impl; [exact Hl|]. intros rm Hrm. cbv beta in Hrm. unfold valid. destruct (parseRegistryMirror rm) as [[a b]|e]; [exists a, b; reflexivity|discriminate Hrm]. }
  destruct (mirrors_loop _ _) as [r [e|]]; simpl.
  - destruct Hm as (dn & rm & rest & ? & ? & ? & ?). exists dn, rm, rest. auto.
  - destruct Hm as [Hall Hm]. split_and!; auto. by destruct runc.
Qed.
