(* ===== verification/Supervisor.v ===== *)
(** * Supervision of the two daemons ([RunE], [main], [buildkit.Start], [server.Run])

    [RunE] starts two goroutines that send the result of [buildkit.Start] and of [server.Run] to
    one unbuffered channel, and returns what it receives first.  [Start] waits for the process
    in a goroutine of its own and selects between it and its context; [Run] selects on the
    goroutine that serves.  A signal cancels the context and ends the process a second later.
    The goroutines are program counters, a send meets its receiver in one step, and time is not
    modelled: the second of the signal handler may pass at any moment. *)

From S2P Require Import Prelude.

Inductive daemon := DBuildkit | DServer.

(** [buildkit.Start], after the configuration was built. *)
Inductive bk_pc := BConfig | BSelect | BSend (r : option error) | BDone.
(** The process, and whether it was sent [SIGTERM]. *)
Inductive proc_st := PNone | PRunning (signalled : bool) | PExited.
(** The goroutine in [proc.Wait]. *)
Inductive wait_pc := WNone | WWaiting | WSending (r : option error) | WDone.
(** [server.Run] and its goroutine in [grpcServer.Serve]. *)
Inductive srv_pc := SListen | SSelect | SSend (r : option error) | SDone.
Inductive serve_pc := GNone | GServing | GSending (r : option error) | GDone.
(** [RunE] and [main]. *)
Inductive main_pc := MWait | MReturned (d : daemon) (r : option error).
(** The signal handler of [main]. *)
Inductive sig_pc := SigWait | SigSleep.

Record sup := {
  bk : bk_pc;
  proc : proc_st;
  waiter : wait_pc;
  srv : srv_pc;
  serve : serve_pc;
  main : main_pc;
  sig : sig_pc;
  cancelled : bool;         (* the context both daemons have *)
  exited : option Z;        (* the exit code of the shim *)
}.

Definition init : sup :=
  {| bk := BConfig; proc := PNone; waiter := WNone; srv := SListen; serve := GNone; main := MWait; sig := SigWait;
     cancelled := false; exited := None |}.

Definition upd_bk (b : bk_pc) (p : proc_st) (w : wait_pc) (s : sup) : sup :=
  {| bk := b; proc := p; waiter := w; srv := srv s; serve := serve s; main := main s; sig := sig s;
     cancelled := cancelled s; exited := exited s |}.
Definition upd_srv (v : srv_pc) (g : serve_pc) (s : sup) : sup :=
  {| bk := bk s; proc := proc s; waiter := waiter s; srv := v; serve := g; main := main s; sig := sig s;
     cancelled := cancelled s; exited := exited s |}.
Definition upd_main (m : main_pc) (g : sig_pc) (c : bool) (x : option Z) (s : sup) : sup :=
  {| bk := bk s; proc := proc s; waiter := waiter s; srv := srv s; serve := serve s; main := m; sig := g;
     cancelled := c; exited := x |}.

(** What the environment decides: the process exits, [Serve] returns, a signal arrives. *)
Inductive event := EvProcExit | EvServe (r : option error) | EvSignal.
Inductive label := Env (e : event) | BkConfig | BkCtx | BkWait | WaitReturn | SrvListen | SrvSelect | Recv (d : daemon) | MainExit | Timer.

Section supervisor.
(** The error of the configuration, of [Save] and of [os.StartProcess]; of [proc.Wait]; of the
    listener. *)
Context (config_err launch_err wait_err listen_err : option error).

(** [log.Fatalln] exits with 1, the end of [main] with 0. *)
Definition exit_code (r : option error) : Z := match r with None => 0 | Some _ => 1 end.

Definition step (l : label) (s : sup) : option sup :=
  match exited s with
  | Some _ => None
  | None =>
    match l with
    | Env EvProcExit => match proc s with PRunning _ => Some (upd_bk (bk s) PExited (waiter s) s) | _ => None end
    | Env (EvServe r) => match serve s with GServing => Some (upd_srv (srv s) (GSending r) s) | _ => None end
    | Env EvSignal => match sig s with SigWait => Some (upd_main (main s) SigSleep true (exited s) s) | _ => None end
    | BkConfig =>
        match bk s, config_err, launch_err with
        | BConfig, Some e, _ => Some (upd_bk (BSend (Some e)) (proc s) (waiter s) s)
        | BConfig, None, Some e => Some (upd_bk (BSend (Some e)) (proc s) (waiter s) s)
        | BConfig, None, None => Some (upd_bk BSelect (PRunning false) WWaiting s)
        | _, _, _ => None
        end
    | BkCtx =>   (* [proc.Signal] on an exited process is an error that is only logged *)
        match bk s, cancelled s with
        | BSelect, true =>
            Some (upd_bk (BSend (Some Canceled)) (match proc s with PRunning _ => PRunning true | p => p end) (waiter s) s)
        | _, _ => None
        end
    | BkWait => match bk s, waiter s with BSelect, WSending r => Some (upd_bk (BSend r) (proc s) WDone s) | _, _ => None end
    | WaitReturn => match waiter s, proc s with WWaiting, PExited => Some (upd_bk (bk s) (proc s) (WSending wait_err) s) | _, _ => None end
    | SrvListen =>
        match srv s, listen_err with
        | SListen, Some e => Some (upd_srv (SSend (Some e)) (serve s) s)
        | SListen, None => Some (upd_srv SSelect GServing s)
        | _, _ => None
        end
    | SrvSelect => match srv s, serve s with SSelect, GSending r => Some (upd_srv (SSend r) GDone s) | _, _ => None end
    | Recv d =>  (* [RunE] returns and its deferred [cancel] runs *)
        match main s, d, bk s, srv s with
        | MWait, DBuildkit, BSend r, _ =>
            Some (upd_main (MReturned DBuildkit r) (sig s) true (exited s) (upd_bk BDone (proc s) (waiter s) s))
        | MWait, DServer, _, SSend r =>
            Some (upd_main (MReturned DServer r) (sig s) true (exited s) (upd_srv SDone (serve s) s))
        | _, _, _, _ => None
        end
    | MainExit => match main s with MReturned _ r => Some (upd_main (main s) (sig s) (cancelled s) (Some (exit_code r)) s) | MWait => None end
    | Timer => match sig s with SigSleep => Some (upd_main (main s) (sig s) (cancelled s) (Some 1%Z) s) | SigWait => None end
    end
  end.

Fixpoint run (ls : list label) (s : sup) : option sup :=
  match ls with [] => Some s | l :: ls => s' ← step l s; run ls s' end.

(** ** The invariant *)

(** Why [buildkit.Start] may have the result [r]. *)
Definition bk_reason (s : sup) (r : option error) : Prop :=
  (is_Some r ∧ (config_err = r ∨ config_err = None ∧ launch_err = r)) ∧ proc s = PNone ∨
  r = wait_err ∧ proc s = PExited ∨
  r = Some Canceled ∧ sig s = SigSleep ∧ (proc s = PExited ∨ proc s = PRunning true).

(** Why it may have it after [RunE] returned: then [RunE] itself has cancelled. *)
Definition bk_late (s : sup) (r : option error) : Prop := r = Some Canceled ∧ ∃ d r', main s = MReturned d r'.

Record sup_ok (s : sup) : Prop := {
  sk_bk : match bk s with
          | BConfig => proc s = PNone ∧ waiter s = WNone
          | BSelect => (proc s = PRunning false ∧ waiter s = WWaiting) ∨
                       (proc s = PExited ∧ (waiter s = WWaiting ∨ waiter s = WSending wait_err))
          | BSend r => bk_reason s r ∨ bk_late s r
          | BDone => ∃ r, main s = MReturned DBuildkit r
          end;
  sk_srv : match srv s with
           | SListen => serve s = GNone
           | SSelect => listen_err = None ∧ (serve s = GServing ∨ ∃ r, serve s = GSending r)
           | SSend r => (listen_err = r ∧ is_Some r ∧ serve s = GNone) ∨ listen_err = None ∧ serve s = GDone
           | SDone => ∃ r, main s = MReturned DServer r
           end;
  sk_cancel : cancelled s = true → sig s = SigSleep ∨ ∃ d r, main s = MReturned d r;
  sk_sig : sig s = SigSleep ∨ (∃ d r, main s = MReturned d r) → cancelled s = true;
  sk_main : match main s with
            | MWait => True
            | MReturned DBuildkit r => bk s = BDone ∧ bk_reason s r
            | MReturned DServer r => srv s = SDone ∧ ((listen_err = r ∧ is_Some r ∧ serve s = GNone) ∨ listen_err = None ∧ serve s = GDone)
            end;
  sk_exit : match exited s with
            | None => True
            | Some c => (∃ d r, main s = MReturned d r ∧ c = exit_code r) ∨ c = 1%Z ∧ sig s = SigSleep
            end;
}.

Lemma sup_ok_init : sup_ok init.
Proof. split; simpl; try done. intros [?|(? & ? & ?)]; done. Qed.

(** A reason stays one: a process that was told to stop can only exit. *)
Lemma bk_reason_mono s s' r : bk_reason s r → (sig s = SigSleep → sig s' = SigSleep) →
  (proc s' = proc s ∨ (∃ b, proc s = PRunning b) ∧ proc s' = PExited ∨ (∃ b, proc s = PRunning b) ∧ proc s' = PRunning true) →
  bk_reason s' r.
Proof.
  intros Hr Hs Hp. unfold bk_reason in *.
  destruct Hp as [->|[[[b Hb] ->]|[[b Hb] ->]]]; [naive_solver|naive_solver congruence|].
  destruct Hr as [[_ H]|[[_ H]|(-> & Hg & _)]]; [congruence|congruence|]. right; right. naive_solver.
Qed.

(** The reasons of a state carry over when the process only moved on. *)
Lemma bk_part s s' : sup_ok s → bk s' = bk s → main s' = main s → (waiter s' = waiter s) →
  (sig s = SigSleep → sig s' = SigSleep) → (proc s' = proc s ∨ (∃ b, proc s = PRunning b) ∧ proc s' = PExited) →
  match bk s' with
  | BConfig => proc s' = PNone ∧ waiter s' = WNone
  | BSelect => (proc s' = PRunning false ∧ waiter s' = WWaiting) ∨
               (proc s' = PExited ∧ (waiter s' = WWaiting ∨ waiter s' = WSending wait_err))
  | BSend r => bk_reason s' r ∨ bk_late s' r
  | BDone => ∃ r, main s' = MReturned DBuildkit r
  end ∧ (∀ r, main s' = MReturned DBuildkit r → bk s' = BDone ∧ bk_reason s' r).
Proof.
  intros [H1 _ _ _ H5 _] Eb Em Ew Hs Hp.
  assert (Hm : ∀ r, bk_reason s r → bk_reason s' r) by (intros r Hr; eapply bk_reason_mono; [exact Hr|done|naive_solver]).
  rewrite Eb, Em, Ew. split; [|intros r Hr; rewrite Hr in H5; naive_solver].
  destruct (bk s); [|..|done].
  - destruct H1 as [H1 ?]. destruct Hp as [->|[[b ?] _]]; [done|congruence].
  - destruct Hp as [->|[[b ?] ->]]; [done|]. right. split; [done|]. naive_solver.
  - destruct H1 as [?|(-> & d & r' & ?)]; [left; by apply Hm|right]. split; [done|]. rewrite Em. eauto.
Qed.

Lemma ok_proc_exit s s' : sup_ok s → step (Env EvProcExit) s = Some s' → sup_ok s'.
Proof.
  intros Hok. unfold step. destruct (exited s) eqn:Hx; [done|].
  destruct (proc s) as [|b|] eqn:Hp; [done| |done]. intros [= <-].
  destruct (bk_part s (upd_bk (bk s) PExited (waiter s) s) Hok) as [B1 B2]; [done..|right; eauto|].
  destruct Hok as [H1 H2 H3 H4 H5 H6]. split; [exact B1|done|done|done| |by simpl; rewrite ?Hx].
  simpl in *. destruct (main s) as [|[] r]; [done|by apply B2|done].
Qed.

Lemma ok_signal s s' : sup_ok s → step (Env EvSignal) s = Some s' → sup_ok s'.
Proof.
  intros Hok. unfold step. destruct (exited s) eqn:Hx; [done|]. destruct (sig s) eqn:Hs; [|done]. intros [= <-].
  destruct (bk_part s (upd_main (main s) SigSleep true (exited s) s) Hok) as [B1 B2]; [done|done|done|done|by left|].
  destruct Hok as [H1 H2 H3 H4 H5 H6]. split; [exact B1|done|by left|done| |by simpl; rewrite ?Hx].
  simpl in *. destruct (main s) as [|[] r]; [done|by apply B2|done].
Qed.

(** A step of the server's goroutines leaves the other half alone. *)
Lemma ok_srv s v g : sup_ok s → exited s = None →
  (match v with
   | SListen => g = GNone
   | SSelect => listen_err = None ∧ (g = GServing ∨ ∃ r, g = GSending r)
   | SSend r => (listen_err = r ∧ is_Some r ∧ g = GNone) ∨ listen_err = None ∧ g = GDone
   | SDone => ∃ r, main s = MReturned DServer r
   end) → (srv s = SDone → v = SDone ∧ g = serve s) → sup_ok (upd_srv v g s).
Proof.
  intros Hok Hx Hv Hd. destruct (bk_part s (upd_srv v g s) Hok) as [B1 B2]; [done..|by left|].
  destruct Hok as [H1 H2 H3 H4 H5 H6]. split; [exact B1|exact Hv|done|done| |by simpl; rewrite ?Hx].
  simpl in *. destruct (main s) as [|[] r]; [done|by apply B2|]. destruct H5 as [E H5]. destruct (Hd E) as [-> ->]. done.
Qed.

Lemma ok_server l s s' : l = SrvListen ∨ l = SrvSelect ∨ (∃ r, l = Env (EvServe r)) → sup_ok s → step l s = Some s' → sup_ok s'.
Proof.
  intros Hl Hok. unfold step. destruct (exited s) eqn:Hx; [done|]. pose proof (sk_srv _ Hok) as H2.
  destruct Hl as [->|[->|[r ->]]].
  - destruct (srv s) eqn:Hv; try done. destruct listen_err as [e|] eqn:El; intros [= <-]; (apply ok_srv; [done|done| |congruence]).
    + left. split_and!; [done|by eexists|done].
    + by split; [|left].
  - destruct (srv s) eqn:Hv; try done. destruct (serve s) as [| |r|] eqn:Hg; try done. intros [= <-]. destruct H2 as [El _].
    apply ok_srv; [done|done|by right|congruence].
  - destruct (serve s) eqn:Hg; try done. intros [= <-]. destruct (srv s) eqn:Hv; rewrite ?Hv.
    + done.
    + apply ok_srv; [done|done|naive_solver|congruence].
    + apply ok_srv; [done|done|naive_solver|congruence].
    + destruct H2 as [r' Hm]. pose proof (sk_main _ Hok) as H5. rewrite Hm in H5. destruct H5 as [_ [(_ & _ & ?)|[_ ?]]]; congruence.
Qed.

(** A step of [Start] before its result was received. *)
Lemma ok_bk s b p w : sup_ok s → exited s = None → bk s ≠ BDone →
  (match b with
   | BConfig => p = PNone ∧ w = WNone
   | BSelect => (p = PRunning false ∧ w = WWaiting) ∨ (p = PExited ∧ (w = WWaiting ∨ w = WSending wait_err))
   | BSend r => bk_reason (upd_bk b p w s) r ∨ bk_late s r
   | BDone => False
   end) → sup_ok (upd_bk b p w s).
Proof.
  intros [H1 H2 H3 H4 H5 H6] Hx Hb Hn. split; [|done|done|done| |by simpl; rewrite ?Hx].
  - simpl. by destruct b.
  - simpl in *. destruct (main s) as [|[] r]; [done|by destruct H5|done].
Qed.

Lemma ok_buildkit l s s' : l = BkConfig ∨ l = BkCtx ∨ l = BkWait → sup_ok s → step l s = Some s' → sup_ok s'.
Proof.
  intros Hl Hok. unfold step. destruct (exited s) eqn:Hx; [done|]. pose proof (sk_bk _ Hok) as H1.
  destruct Hl as [->|[->| ->]].
  - destruct (bk s) eqn:Hb; try done. destruct H1 as [Hp Hw].
    destruct config_err as [e|] eqn:Ec; [|destruct launch_err as [e|] eqn:El]; intros [= <-];
      (apply ok_bk; [done|done|congruence|]).
    + left; left. split; [|done]. split; [by eexists|by left].
    + left; left. split; [|done]. split; [by eexists|by right].
    + by left.
  - destruct (bk s) eqn:Hb; try done. destruct (cancelled s) eqn:Hc; [|done]. intros [= <-].
    apply ok_bk; [done|done|congruence|]. destruct (sk_cancel _ Hok Hc) as [Hs|Hm].
    + left. right; right. split; [done|]. split; [done|]. simpl. destruct H1 as [[-> _]|[-> _]]; [by right|by left].
    + right. by split.
  - destruct (bk s) eqn:Hb; try done. destruct (waiter s) as [| |r|] eqn:Hw; try done. intros [= <-].
    apply ok_bk; [done|done|congruence|]. left. right; left. destruct H1 as [[_ ?]|[Hp [?|Hr]]]; [done|done|].
    simpl. split; [congruence|done].
Qed.

Lemma ok_wait s s' : sup_ok s → step WaitReturn s = Some s' → sup_ok s'.
Proof.
  intros Hok. unfold step. destruct (exited s) eqn:Hx; [done|]. destruct (waiter s) eqn:Hw; try done.
  destruct (proc s) eqn:Hp; try done. intros [= <-]. destruct Hok as [H1 H2 H3 H4 H5 H6]. unfold bk_reason, bk_late in *.
  split; [|done|done|done| |by simpl; rewrite ?Hx]; simpl in *; rewrite Hp in *.
  - destruct (bk s); [destruct H1 as [_ ?]; congruence| |done|done]. right. split; [done|by right].
  - destruct (main s) as [|[] r]; done.
Qed.

(** The steps of [main] and its signal handler. *)
Lemma ok_main s m x : sup_ok s → (m = main s ∨ main s = MWait) →
  match m with
  | MWait => True
  | MReturned DBuildkit r => bk s = BDone ∧ bk_reason s r
  | MReturned DServer r => srv s = SDone ∧ ((listen_err = r ∧ is_Some r ∧ serve s = GNone) ∨ listen_err = None ∧ serve s = GDone)
  end →
  match x with
  | None => True
  | Some c => (∃ d r, m = MReturned d r ∧ c = exit_code r) ∨ c = 1%Z ∧ sig s = SigSleep
  end → (cancelled s = true ∨ ∃ d r, m = MReturned d r) → sup_ok (upd_main m (sig s) true x s).
Proof.
  intros [H1 H2 H3 H4 H5 H6] Hm Hr Hx Hc. unfold bk_late in *. split; simpl; try done.
  - destruct (bk s); [done|done| |].
    + destruct H1 as [?|(-> & d & r' & E)]; [by left|right]. split; [done|]. destruct Hm as [->|?]; [eauto|congruence].
    + destruct Hm as [->|Hm]; [done|]. destruct H1 as [? ?]. congruence.
  - destruct (srv s); [done..|]. destruct Hm as [->|Hm]; [done|]. destruct H2 as [? ?]. congruence.
  - intros _. destruct Hc as [Hc|?]; [|by right]. destruct (H3 Hc) as [?|(d & r & E)]; [by left|right].
    destruct Hm as [->|?]; [eauto|congruence].
Qed.

Lemma ok_recv d s s' : sup_ok s → step (Recv d) s = Some s' → sup_ok s'.
Proof.
  intros [H1 H2 H3 H4 H5 H6]. unfold step. destruct (exited s) eqn:Hx; [done|]. destruct (main s) eqn:Hm; [|done].
  unfold bk_late in *. destruct d.
  - destruct (bk s) as [| |r|] eqn:Hb; try done. intros [= <-]. split; simpl; try done.
    + by exists r.
    + destruct (srv s); [done..|]. destruct H2 as [? ?]. congruence.
    + intros _. right. eauto.
    + split; [done|]. destruct H1 as [?|(_ & ? & ? & ?)]; [done|congruence].
  - destruct (srv s) as [| |r|] eqn:Hv; try done. intros [= <-]. split; simpl; try done.
    + destruct (bk s); [done|done| |destruct H1 as [? ?]; congruence]. destruct H1 as [?|(-> & ? & ? & ?)]; [by left|congruence].
    + by exists r.
    + intros _. right. eauto.
Qed.

Lemma ok_exit l s s' : l = MainExit ∨ l = Timer → sup_ok s → step l s = Some s' → sup_ok s'.
Proof.
  intros Hl Hok. unfold step. destruct (exited s) eqn:Hx; [done|]. pose proof (sk_main _ Hok) as H5. destruct Hl as [->| ->].
  - destruct (main s) as [|d r] eqn:Hm; [done|]. intros [= <-]. rewrite (sk_sig _ Hok) by (right; eauto).
    rewrite <-Hm. apply ok_main; [done|by left|by rewrite Hm|left; eauto|right; eauto].
  - destruct (sig s) eqn:Hs; [done|]. intros [= <-]. rewrite (sk_sig _ Hok) by (by left). rewrite <-Hs.
    apply ok_main; [done|by left|done|by right|left; apply (sk_sig _ Hok); by left].
Qed.

Lemma sup_ok_step l s s' : sup_ok s → step l s = Some s' → sup_ok s'.
Proof.
  intros Hok Hs. destruct l as [[|r|]| | | | | | |d| |].
  - by eapply ok_proc_exit.
  - eapply ok_server; [|done|exact Hs]. eauto.
  - by eapply ok_signal.
  - eapply ok_buildkit; [|done|exact Hs]. by left.
  - eapply ok_buildkit; [|done|exact Hs]. by right; left.
  - eapply ok_buildkit; [|done|exact Hs]. by right; right.
  - by eapply ok_wait.
  - eapply ok_server; [|done|exact Hs]. by left.
  - eapply ok_server; [|done|exact Hs]. by right; left.
  - by eapply ok_recv.
  - eapply ok_exit; [|done|exact Hs]. by left.
  - eapply ok_exit; [|done|exact Hs]. by right.
Qed.

Lemma sup_ok_run ls s s' : sup_ok s → run ls s = Some s' → sup_ok s'.
Proof.
  revert s. induction ls as [|l ls IH]; intros s Hok; simpl; [by intros [= <-]|].
  destruct (step l s) as [s1|] eqn:Hs; simpl; [|done]. apply IH. by eapply sup_ok_step.
Qed.

(** ** It does not stop by itself *)

(** The steps of the program, not of its environment. *)
Definition internal (l : label) : bool := match l with Env _ => false | _ => true end.

(** Both daemons are up, and nobody has asked the shim to stop. *)
Definition serving (s : sup) : Prop :=
  bk s = BSelect ∧ proc s = PRunning false ∧ srv s = SSelect ∧ serve s = GServing ∧ main s = MWait ∧ sig s = SigWait ∧ exited s = None.

Lemma rests_serving s : sup_ok s → exited s = None → (∀ l, internal l = true → step l s = None) → serving s.
Proof.
  intros [H1 H2 H3 H4 H5 H6] Hx Hstuck. unfold step in Hstuck. rewrite Hx in Hstuck.
  assert (Hs : sig s = SigWait) by (specialize (Hstuck Timer eq_refl); by destruct (sig s)).
  assert (Hm : main s = MWait) by (specialize (Hstuck MainExit eq_refl); by destruct (main s)).
  pose proof (Hstuck BkConfig eq_refl) as B1. pose proof (Hstuck BkWait eq_refl) as B2. pose proof (Hstuck WaitReturn eq_refl) as B3.
  pose proof (Hstuck SrvListen eq_refl) as S1. pose proof (Hstuck SrvSelect eq_refl) as S2.
  pose proof (Hstuck (Recv DBuildkit) eq_refl) as R1. pose proof (Hstuck (Recv DServer) eq_refl) as R2. rewrite Hm in *.
  destruct (bk s) eqn:Hb; [by destruct config_err, launch_err| |done|destruct H1 as [? ?]; done].
  destruct (srv s) eqn:Hv; [by destruct listen_err| |done|destruct H2 as [? ?]; done].
  destruct H2 as [_ [Hg|[r Hg]]]; rewrite Hg in *; [|done].
  destruct H1 as [[Hp Hw]|[Hp [Hw|Hw]]]; rewrite Hp, Hw in *; [|done|done].
  unfold serving. rewrite Hb, Hp, Hv, Hg, Hm, Hs. done.
Qed.

(** Every step brings it nearer to its end. *)
Definition rank (s : sup) : nat :=
  match bk s with BConfig => 5 | BSelect => 2 | BSend _ => 1 | BDone => 0 end +
  match proc s with PExited => 0 | _ => 1 end +
  match waiter s with WNone | WWaiting => 1 | _ => 0 end +
  match srv s with SListen => 4 | SSelect => 2 | SSend _ => 1 | SDone => 0 end +
  match serve s with GNone | GServing => 1 | _ => 0 end +
  match main s with MWait => 1 | _ => 0 end + match sig s with SigWait => 1 | SigSleep => 0 end +
  match exited s with None => 1 | _ => 0 end.

Lemma rank_step l s s' : step l s = Some s' → rank s' < rank s.
Proof.
  unfold step. intros Hs.
  repeat match type of Hs with context [match ?x with _ => _ end] => destruct x eqn:?; try discriminate Hs end;
    injection Hs as <-; unfold rank; cbn -[Nat.add];
    repeat match goal with H : _ s = _ |- _ => rewrite H; clear H end; cbn -[Nat.add]; lia.
Qed.

Lemma rank_run ls s s' : run ls s = Some s' → length ls + rank s' ≤ rank s.
Proof.
  revert s. induction ls as [|l ls IH]; intros s; simpl; [by intros [= <-]|].
  destruct (step l s) as [s1|] eqn:Hs; simpl; [|done]. intros H%IH. apply rank_step in Hs. lia.
Qed.

(** C16. Under every schedule of the goroutines, of the process and of signals, within at most
    fifteen steps: the shim exits only by the signal handler, or with the first result one of
    the daemons delivered, with exit code 0 just when that result is nil.  A result of
    [buildkit.Start] has its reason: a configuration or launch error and no process, the wait
    error of a process that exited, or the cancellation of a signal, and then the process has
    exited or was sent [SIGTERM]; so buildkitd is never left running untold on its own result.
    As long as the shim has not exited some goroutine can move, unless both daemons are up and
    no signal has come. *)
Theorem supervisor_exit (ls : list label) (s : sup) : run ls init = Some s →
  length ls ≤ 15 ∧
  match exited s with
  | Some c =>
      (∃ r, main s = MReturned DBuildkit r ∧ c = exit_code r ∧ bk_reason s r ∧ proc s ≠ PRunning false) ∨
      (∃ r, main s = MReturned DServer r ∧ c = exit_code r ∧
            ((listen_err = r ∧ is_Some r ∧ serve s = GNone) ∨ listen_err = None ∧ serve s = GDone)) ∨
      (c = 1%Z ∧ sig s = SigSleep)
  | None => (∃ l, internal l = true ∧ is_Some (step l s)) ∨ serving s
  end.
Proof.
  intros Hr. split; [apply rank_run in Hr; change (rank init) with 15 in Hr; lia|].
  pose proof (sup_ok_run ls init s sup_ok_init Hr) as Hok. pose proof (sk_exit _ Hok) as H6. pose proof (sk_main _ Hok) as H5.
  destruct (exited s) as [c|] eqn:Hx.
  - destruct H6 as [(d & r & Hm & ->)|?]; [|by right; right]. rewrite Hm in H5. destruct d, H5 as [_ H5].
    + left. exists r. split_and!; [done..|]. unfold bk_reason in H5. naive_solver congruence.
    + right; left. by exists r.
  - set (all := [BkConfig; BkCtx; BkWait; WaitReturn; SrvListen; SrvSelect; Recv DBuildkit; Recv DServer; MainExit; Timer]).
    destruct (decide (Exists (λ l, is_Some (step l s)) all)) as [He|Hn].
    + left. apply Exists_exists in He as (l & Hl & Hs). exists l. split; [|done]. unfold all in Hl. set_solver.
    + right. apply rests_serving; [done|done|]. intros l Hl. apply eq_None_not_Some. intros Hs. apply Hn, Exists_exists.
      exists l. split; [|done]. unfold all. destruct l as [| | | | | | |[]| |]; try done; set_solver.
Qed.
End supervisor.

(** ** Three ends *)

Definition ex_signal : list label := [BkConfig; SrvListen; Env EvSignal; BkCtx; Recv DBuildkit; MainExit].

(** A signal: the process is told, the shim exits with 1. *)
Lemma supervisor_exit_witness : ∃ s, run None None None None ex_signal init = Some s ∧ exited s = Some 1%Z ∧ proc s = PRunning true ∧
  length ex_signal ≤ 15.
Proof.
  eexists. split; [vm_compute; reflexivity|]. split; [reflexivity|]. split; [reflexivity|].
  exact (proj1 (supervisor_exit None None None None ex_signal _ eq_refl)).
Defined.

(** When buildkitd dies by itself, whatever its exit status, [proc.Wait] returns no error and
    the shim exits with 0. *)
Lemma buildkitd_crash_exits_zero : ∃ s,
  run None None None None [BkConfig; SrvListen; Env EvProcExit; WaitReturn; BkWait; Recv DBuildkit; MainExit] init = Some s ∧
  proc s = PExited ∧ exited s = Some 0%Z.
Proof. eexists. split; [vm_compute; reflexivity|done]. Qed.

(** When the server fails, the deferred cancellation races with the exit: buildkitd may be left
    running without having been told. *)
Lemma server_failure_orphans_buildkitd e : ∃ s,
  run None None None (Some e) [BkConfig; SrvListen; Recv DServer; MainExit] init = Some s ∧
  proc s = PRunning false ∧ exited s = Some 1%Z.
Proof. eexists. split; [vm_compute; reflexivity|done]. Qed.
